(** * Core containers of the key-value store: packed list, hash table,
      skip list and ordered set.

    The development follows the C sources:
    - [src/struct/dict.c]   hash table ([dictAdd], [_dictKeyIndex], [dictRehash],
      the iterators), the doubly linked list ([listAddNodeTail],
      [listInsertNode], [listDelNode], ...) and the packed list
      ([__ziplistInsert], [__ziplistDelete], [__ziplistCascadeUpdate] and the
      entry codecs);
    - [src/struct/t_zset.c] skip list ([zslInsert], [zslGetRank], ...), the
      ordered-set value built on it and the commands that read it.

    C integers are [Z] with the wrap-around written out, memory blobs are
    lists of bytes addressed by offset, running outside an allocation or
    failing an assertion is [None]. *)

From Stdlib Require Import ZArith Lia Bool List.
From Stdlib Require Import Floats.SpecFloat.
From stdpp Require Import base option list.

Local Open Scope Z_scope.

(** ** Machine integers *)

Definition u8 (x : Z) : Z := x mod 2^8.
Definition u16 (x : Z) : Z := x mod 2^16.
Definition u32 (x : Z) : Z := x mod 2^32.
Definition u64 (x : Z) : Z := x mod 2^64.

(** Conversion of a value to a signed integer of [w] bits (two's complement). *)
Definition sint (w : Z) (x : Z) : Z :=
  let m := x mod 2^w in if m <? 2^(w-1) then m else m - 2^w.

Definition UINT16_MAX : Z := 65535.

(** ** Byte blobs *)

Module Mem.

Abbreviation blob := (list Z) (only parsing).

Definition size (zl : blob) : Z := Z.of_nat (length zl).

(** [p[0]] for a pointer at offset [p] of the allocation. *)
Definition load (zl : blob) (p : Z) : option Z :=
  if p <? 0 then None else zl !! Z.to_nat p.

Definition store (zl : blob) (p : Z) (v : Z) : option blob :=
  if (0 <=? p) && (p <? size zl) then Some (<[Z.to_nat p := u8 v]> zl) else None.

(** [n] consecutive bytes starting at [p]. *)
Definition loadn (zl : blob) (p n : Z) : option (list Z) :=
  if (0 <=? p) && (0 <=? n) && (p + n <=? size zl)
  then Some (take (Z.to_nat n) (drop (Z.to_nat p) zl))
  else None.

(** [memcpy(p, bs, |bs|)]. *)
Definition storen (zl : blob) (p : Z) (bs : list Z) : option blob :=
  if (0 <=? p) && (p + size bs <=? size zl)
  then Some (take (Z.to_nat p) zl ++ bs ++ drop (Z.to_nat p + length bs) zl)
  else None.

(** [memmove(dst, src, n)] inside one allocation. *)
Definition memmove (zl : blob) (dst src n : Z) : option blob :=
  bs ← loadn zl src n; storen zl dst bs.

(** [zrealloc(zl, len)]: the first [min(old,len)] bytes are kept, the
    allocation has exactly [len] bytes afterwards (new bytes are arbitrary,
    here 0). *)
Definition zrealloc (zl : blob) (len : Z) : blob :=
  take (Z.to_nat len) zl ++ replicate (Z.to_nat len - length zl)%nat 0.

(** Object representation of a [w]-byte integer in little-endian order. *)
Fixpoint le_bytes (w : nat) (v : Z) : list Z :=
  match w with
  | O => []
  | S w' => (v mod 256) :: le_bytes w' (v / 256)
  end.

Fixpoint le_value (bs : list Z) : Z :=
  match bs with
  | [] => 0
  | b :: bs' => b + 256 * le_value bs'
  end.

(** Object representation on the host: [be = true] on a big-endian host. *)
Definition host_bytes (be : bool) (w : nat) (v : Z) : list Z :=
  if be then rev (le_bytes w v) else le_bytes w v.

Definition host_value (be : bool) (bs : list Z) : Z :=
  if be then le_value (rev bs) else le_value bs.

(** [memrev16ifbe], [memrev32ifbe], [memrev64ifbe] of endianconv.h act on the
    bytes in place. *)
Definition memrevifbe (be : bool) (bs : list Z) : list Z :=
  if be then rev bs else bs.

(** [intrev16ifbe], [intrev32ifbe]: byte swap of a [w]-byte value on a
    big-endian host, the identity otherwise. *)
Definition intrevifbe (be : bool) (w : nat) (v : Z) : Z :=
  if be then le_value (rev (le_bytes w v)) else v mod 2^(8 * Z.of_nat w).

Lemma length_le_bytes w v : length (le_bytes w v) = w.
Proof. revert v; induction w as [|w IH]; intros v; simpl; [reflexivity|]. now rewrite IH. Qed.

Lemma le_bytes_add_pow w : forall v k,
  le_bytes w (v + k * 2 ^ (8 * Z.of_nat w)) = le_bytes w v.
Proof.
  induction w as [|w IH]; intros v k; [reflexivity|].
  cbn [le_bytes].
  replace (8 * Z.of_nat (S w)) with (8 + 8 * Z.of_nat w) by lia.
  rewrite Z.pow_add_r by lia.
  replace (v + k * (2 ^ 8 * 2 ^ (8 * Z.of_nat w)))
    with (v + (k * 2 ^ (8 * Z.of_nat w)) * 256) by (change (2^8) with 256; ring).
  rewrite Z_mod_plus_full, Z_div_plus_full by lia.
  now rewrite IH.
Qed.

Lemma le_bytes_mod w v : le_bytes w (v mod 2 ^ (8 * Z.of_nat w)) = le_bytes w v.
Proof.
  rewrite <- (le_bytes_add_pow w (v mod 2 ^ (8 * Z.of_nat w)) (v / 2 ^ (8 * Z.of_nat w))).
  f_equal.
  pose proof (Z.div_mod v (2 ^ (8 * Z.of_nat w))) as H.
  rewrite H at 3 by (apply Z.pow_nonzero; lia). ring.
Qed.

Lemma le_bytes_sint w v :
  (0 < w)%nat -> le_bytes w (sint (8 * Z.of_nat w) v) = le_bytes w v.
Proof.
  intros Hw. unfold sint. cbv zeta.
  destruct (_ <? _).
  - apply le_bytes_mod.
  - replace (v mod 2 ^ (8 * Z.of_nat w) - 2 ^ (8 * Z.of_nat w))
      with (v mod 2 ^ (8 * Z.of_nat w) + (-1) * 2 ^ (8 * Z.of_nat w)) by ring.
    rewrite le_bytes_add_pow. apply le_bytes_mod.
Qed.

Lemma le_value_bytes w : forall v, le_value (le_bytes w v) = v mod 2 ^ (8 * Z.of_nat w).
Proof.
  induction w as [|w IH]; intros v.
  - simpl. now rewrite Z.mod_1_r.
  - cbn [le_bytes le_value]. rewrite IH.
    replace (8 * Z.of_nat (S w)) with (8 + 8 * Z.of_nat w) by lia.
    rewrite Z.pow_add_r by lia. change (2 ^ 8) with 256.
    rewrite Z.rem_mul_r by (try apply Z.pow_nonzero; lia). ring.
Qed.

Lemma memrevifbe_host_bytes be w v : memrevifbe be (host_bytes be w v) = le_bytes w v.
Proof. unfold memrevifbe, host_bytes. destruct be; [apply rev_involutive|reflexivity]. Qed.

Lemma host_value_memrevifbe be bs : host_value be (memrevifbe be bs) = le_value bs.
Proof.
  unfold memrevifbe, host_value. destruct be; [now rewrite rev_involutive|reflexivity].
Qed.

Lemma length_host_bytes be w v : length (host_bytes be w v) = w.
Proof. unfold host_bytes. destruct be; rewrite ?length_rev; apply length_le_bytes. Qed.

Lemma length_memrevifbe be bs : length (memrevifbe be bs) = length bs.
Proof. unfold memrevifbe. destruct be; [apply length_rev|reflexivity]. Qed.

Lemma storen_length zl p bs zl' : storen zl p bs = Some zl' -> length zl' = length zl.
Proof.
  unfold storen, size. intros H.
  destruct (_ && _) eqn:E; [|discriminate]. injection H as <-.
  apply andb_true_iff in E as [E1 E2]. apply Z.leb_le in E1, E2.
  rewrite !length_app, length_take, length_drop. lia.
Qed.

Lemma loadn_storen zl p bs zl' :
  storen zl p bs = Some zl' -> loadn zl' p (size bs) = Some bs.
Proof.
  intros H. pose proof (storen_length _ _ _ _ H) as Hl.
  unfold storen, size in H. unfold loadn, size.
  destruct (_ && _) eqn:E; [|discriminate]. injection H as <-.
  apply andb_true_iff in E as [E1 E2]. apply Z.leb_le in E1, E2.
  rewrite Hl.
  replace ((0 <=? p) && (0 <=? Z.of_nat (length bs)) && (p + Z.of_nat (length bs) <=? Z.of_nat (length zl)))
    with true by (symmetry; rewrite !andb_true_iff, !Z.leb_le; lia).
  f_equal. rewrite Nat2Z.id.
  rewrite drop_app_length' by (rewrite length_take; lia).
  now rewrite take_app_length.
Qed.

Lemma storen_storen zl p bs bs' zl' :
  storen zl p bs = Some zl' -> length bs' = length bs ->
  storen zl' p bs' = storen zl p bs'.
Proof.
  intros H Hb. pose proof (storen_length _ _ _ _ H) as Hl.
  unfold storen, size in *. rewrite Hl, Hb.
  destruct (_ && _) eqn:E; [|reflexivity]. injection H as <-.
  apply andb_true_iff in E as [E1 E2]. apply Z.leb_le in E1, E2.
  f_equal.
  rewrite take_app_length' by (rewrite length_take; lia).
  f_equal. f_equal.
  rewrite drop_app_add' by (rewrite length_take; lia).
  rewrite drop_app_length' by lia. reflexivity.
Qed.

(** Writing host-order bytes and reversing them in place on a big-endian
    host leaves the little-endian representation, whatever the host. *)
Lemma storen_host_memrev be zl p w v :
  (zl1 ← storen zl p (host_bytes be w v);
   bs ← loadn zl1 p (Z.of_nat w);
   storen zl1 p (memrevifbe be bs)) = storen zl p (le_bytes w v).
Proof.
  destruct (storen zl p (host_bytes be w v)) as [zl1|] eqn:E; simpl.
  - pose proof (loadn_storen _ _ _ _ E) as HL. unfold size in HL.
    rewrite length_host_bytes in HL. rewrite HL. simpl.
    rewrite memrevifbe_host_bytes.
    apply (storen_storen _ _ _ _ _ E).
    now rewrite length_le_bytes, length_host_bytes.
  - unfold storen, size in *. rewrite length_host_bytes in E.
    rewrite length_le_bytes. destruct (_ && _); [discriminate|reflexivity].
Qed.

End Mem.

(** ** Packed list (ziplist), dict.c lines 2170-3570 *)

Module Ziplist.
Import Mem.

Definition ZIP_END : Z := 255.
Definition ZIP_BIGLEN : Z := 254.

Definition ZIP_STR_MASK : Z := 0xc0.
Definition ZIP_INT_MASK : Z := 0x30.
Definition ZIP_STR_06B : Z := Z.shiftl 0 6.
Definition ZIP_STR_14B : Z := Z.shiftl 1 6.
Definition ZIP_STR_32B : Z := Z.shiftl 2 6.
Definition ZIP_INT_16B : Z := Z.lor 0xc0 (Z.shiftl 0 4).
Definition ZIP_INT_32B : Z := Z.lor 0xc0 (Z.shiftl 1 4).
Definition ZIP_INT_64B : Z := Z.lor 0xc0 (Z.shiftl 2 4).
Definition ZIP_INT_24B : Z := Z.lor 0xc0 (Z.shiftl 3 4).
Definition ZIP_INT_8B : Z := 0xfe.
Definition ZIP_INT_IMM_MASK : Z := 0x0f.
Definition ZIP_INT_IMM_MIN : Z := 0xf1.
Definition ZIP_INT_IMM_MAX : Z := 0xfd.

Definition INT24_MAX : Z := 0x7fffff.
Definition INT24_MIN : Z := - INT24_MAX - 1.
Definition INT8_MIN : Z := -128.
Definition INT8_MAX : Z := 127.
Definition INT16_MIN : Z := -32768.
Definition INT16_MAX : Z := 32767.
Definition INT32_MIN : Z := -2147483648.
Definition INT32_MAX : Z := 2147483647.

Definition ZIP_IS_STR (enc : Z) : bool := Z.land enc ZIP_STR_MASK <? ZIP_STR_MASK.

Definition ZIPLIST_HEADER_SIZE : Z := 4 * 2 + 2.

Definition ZIPLIST_HEAD : Z := 0.
Definition ZIPLIST_TAIL : Z := 1.

(** Information about one entry, as [zipEntry] collects it. *)
Record zlentry := mk_zlentry {
  prevrawlensize : Z;
  prevrawlen : Z;
  lensize : Z;
  len : Z;
  headersize : Z;
  encoding : Z;
  p : Z
}.

Definition zipIntSize (encoding : Z) : Z :=
  if encoding =? ZIP_INT_8B then 1
  else if encoding =? ZIP_INT_16B then 2
  else if encoding =? ZIP_INT_24B then 3
  else if encoding =? ZIP_INT_32B then 4
  else if encoding =? ZIP_INT_64B then 8
  else 0.

(** The local [buf] of [zipEncodeLength] and its [len] bytes. *)
Definition zipEncodeLength_buf (encoding rawlen : Z) : list Z :=
  if ZIP_IS_STR encoding then
    if rawlen <=? 0x3f then
      [u8 (Z.lor ZIP_STR_06B rawlen)]
    else if rawlen <=? 0x3fff then
      [u8 (Z.lor ZIP_STR_14B (Z.land (Z.shiftr rawlen 8) 0x3f));
       u8 (Z.land rawlen 0xff)]
    else
      [u8 ZIP_STR_32B;
       u8 (Z.land (Z.shiftr rawlen 24) 0xff);
       u8 (Z.land (Z.shiftr rawlen 16) 0xff);
       u8 (Z.land (Z.shiftr rawlen 8) 0xff);
       u8 (Z.land rawlen 0xff)]
  else [u8 encoding].

(** [zipEncodeLength(p, encoding, rawlen)]; [p = None] is the NULL pointer. *)
Definition zipEncodeLength (zl : blob) (p : option Z) (encoding rawlen : Z)
  : option (blob * Z) :=
  let buf := zipEncodeLength_buf encoding rawlen in
  match p with
  | None => Some (zl, size buf)
  | Some p => zl' ← storen zl p buf; Some (zl', size buf)
  end.

Definition ZIP_ENTRY_ENCODING (zl : blob) (ptr : Z) : option Z :=
  e ← load zl ptr;
  Some (if e <? ZIP_STR_MASK then Z.land e ZIP_STR_MASK else e).

(** [ZIP_DECODE_LENGTH(ptr, encoding, lensize, len)]. *)
Definition ZIP_DECODE_LENGTH (zl : blob) (ptr : Z) : option (Z * Z * Z) :=
  encoding ← ZIP_ENTRY_ENCODING zl ptr;
  if encoding <? ZIP_STR_MASK then
    if encoding =? ZIP_STR_06B then
      b0 ← load zl ptr;
      Some (encoding, 1, Z.land b0 0x3f)
    else if encoding =? ZIP_STR_14B then
      b0 ← load zl ptr; b1 ← load zl (ptr + 1);
      Some (encoding, 2, Z.lor (Z.shiftl (Z.land b0 0x3f) 8) b1)
    else if encoding =? ZIP_STR_32B then
      b1 ← load zl (ptr + 1); b2 ← load zl (ptr + 2);
      b3 ← load zl (ptr + 3); b4 ← load zl (ptr + 4);
      Some (encoding, 5,
            u32 (Z.lor (Z.lor (Z.lor (Z.shiftl b1 24) (Z.shiftl b2 16))
                              (Z.shiftl b3 8)) b4))
    else None
  else Some (encoding, 1, zipIntSize encoding).

Section Host.

(** Byte order of the host ([BYTE_ORDER == BIG_ENDIAN] in endianconv.h). *)
Variable BIG_ENDIAN : bool.

(** [*(uint32_t* )(zl+off)] read and written in host order. *)
Definition get_u32 (zl : blob) (off : Z) : option Z :=
  bs ← loadn zl off 4; Some (host_value BIG_ENDIAN bs).
Definition set_u32 (zl : blob) (off : Z) (v : Z) : option blob :=
  storen zl off (host_bytes BIG_ENDIAN 4 (u32 v)).
Definition get_u16 (zl : blob) (off : Z) : option Z :=
  bs ← loadn zl off 2; Some (host_value BIG_ENDIAN bs).
Definition set_u16 (zl : blob) (off : Z) (v : Z) : option blob :=
  storen zl off (host_bytes BIG_ENDIAN 2 (u16 v)).

Definition intrev32ifbe (v : Z) : Z := intrevifbe BIG_ENDIAN 4 v.
Definition intrev16ifbe (v : Z) : Z := intrevifbe BIG_ENDIAN 2 v.

Definition ZIPLIST_BYTES (zl : blob) : option Z := get_u32 zl 0.
Definition ZIPLIST_TAIL_OFFSET (zl : blob) : option Z := get_u32 zl 4.
Definition ZIPLIST_LENGTH (zl : blob) : option Z := get_u16 zl 8.
Definition set_ZIPLIST_BYTES (zl : blob) (v : Z) : option blob := set_u32 zl 0 v.
Definition set_ZIPLIST_TAIL_OFFSET (zl : blob) (v : Z) : option blob := set_u32 zl 4 v.
Definition set_ZIPLIST_LENGTH (zl : blob) (v : Z) : option blob := set_u16 zl 8 v.

Definition ZIPLIST_ENTRY_HEAD (zl : blob) : Z := ZIPLIST_HEADER_SIZE.
Definition ZIPLIST_ENTRY_TAIL (zl : blob) : option Z :=
  t ← ZIPLIST_TAIL_OFFSET zl; Some (intrev32ifbe t).
Definition ZIPLIST_ENTRY_END (zl : blob) : option Z :=
  b ← ZIPLIST_BYTES zl; Some (intrev32ifbe b - 1).

(** [ZIPLIST_INCR_LENGTH(zl, incr)]. *)
Definition ZIPLIST_INCR_LENGTH (zl : blob) (incr : Z) : option blob :=
  l ← ZIPLIST_LENGTH zl;
  if l <? UINT16_MAX
  then set_ZIPLIST_LENGTH zl (intrev16ifbe (u16 (intrev16ifbe l + incr)))
  else Some zl.

(** [zipPrevEncodeLength(p, len)]. *)
Definition zipPrevEncodeLength (zl : blob) (p : option Z) (len : Z)
  : option (blob * Z) :=
  match p with
  | None => Some (zl, if len <? ZIP_BIGLEN then 1 else 4 + 1)
  | Some p =>
      if len <? ZIP_BIGLEN then
        zl1 ← store zl p len; Some (zl1, 1)
      else
        zl1 ← store zl p ZIP_BIGLEN;
        zl2 ← storen zl1 (p + 1) (host_bytes BIG_ENDIAN 4 (u32 len));
        bs ← loadn zl2 (p + 1) 4;
        zl3 ← storen zl2 (p + 1) (memrevifbe BIG_ENDIAN bs);
        Some (zl3, 1 + 4)
  end.

(** [zipPrevEncodeLengthForceLarge(p, len)]. *)
Definition zipPrevEncodeLengthForceLarge (zl : blob) (p : option Z) (len : Z)
  : option blob :=
  match p with
  | None => Some zl
  | Some p =>
      zl1 ← store zl p ZIP_BIGLEN;
      zl2 ← storen zl1 (p + 1) (host_bytes BIG_ENDIAN 4 (u32 len));
      bs ← loadn zl2 (p + 1) 4;
      storen zl2 (p + 1) (memrevifbe BIG_ENDIAN bs)
  end.

Definition ZIP_DECODE_PREVLENSIZE (zl : blob) (ptr : Z) : option Z :=
  b ← load zl ptr; Some (if b <? ZIP_BIGLEN then 1 else 5).

(** [ZIP_DECODE_PREVLEN(ptr, prevlensize, prevlen)]. *)
Definition ZIP_DECODE_PREVLEN (zl : blob) (ptr : Z) : option (Z * Z) :=
  prevlensize ← ZIP_DECODE_PREVLENSIZE zl ptr;
  if prevlensize =? 1 then
    b ← load zl ptr; Some (prevlensize, b)
  else
    bs ← loadn zl (ptr + 1) 4;
    Some (prevlensize, host_value BIG_ENDIAN (memrevifbe BIG_ENDIAN bs)).

Definition zipPrevLenByteDiff (zl : blob) (p : Z) (len : Z) : option Z :=
  prevlensize ← ZIP_DECODE_PREVLENSIZE zl p;
  '(_, n) ← zipPrevEncodeLength zl None len;
  Some (sint 32 (n - prevlensize)).

Definition zipRawEntryLength (zl : blob) (p : Z) : option Z :=
  prevlensize ← ZIP_DECODE_PREVLENSIZE zl p;
  '(encoding, lensize, len) ← ZIP_DECODE_LENGTH zl (p + prevlensize);
  Some (u32 (prevlensize + lensize + len)).

Definition zipEntry (zl : blob) (p : Z) : option zlentry :=
  '(prevrawlensize, prevrawlen) ← ZIP_DECODE_PREVLEN zl p;
  '(encoding, lensize, len) ← ZIP_DECODE_LENGTH zl (p + prevrawlensize);
  Some (mk_zlentry prevrawlensize prevrawlen lensize len
                   (u32 (prevrawlensize + lensize)) (u8 encoding) p).

(** [zipSaveInteger(p, value, encoding)]. *)
Definition zipSaveInteger (zl : blob) (p : Z) (value : Z) (encoding : Z)
  : option blob :=
  if encoding =? ZIP_INT_8B then
    store zl p (sint 8 value)
  else if encoding =? ZIP_INT_16B then
    let i16 := sint 16 value in
    zl1 ← storen zl p (host_bytes BIG_ENDIAN 2 i16);
    bs ← loadn zl1 p 2;
    storen zl1 p (memrevifbe BIG_ENDIAN bs)
  else if encoding =? ZIP_INT_24B then
    let i32 := sint 32 (Z.shiftl value 8) in
    let obj := memrevifbe BIG_ENDIAN (host_bytes BIG_ENDIAN 4 i32) in
    storen zl p (take (4 - 1) (drop 1 obj))
  else if encoding =? ZIP_INT_32B then
    let i32 := sint 32 value in
    zl1 ← storen zl p (host_bytes BIG_ENDIAN 4 i32);
    bs ← loadn zl1 p 4;
    storen zl1 p (memrevifbe BIG_ENDIAN bs)
  else if encoding =? ZIP_INT_64B then
    let i64 := sint 64 value in
    zl1 ← storen zl p (host_bytes BIG_ENDIAN 8 i64);
    bs ← loadn zl1 p 8;
    storen zl1 p (memrevifbe BIG_ENDIAN bs)
  else if (ZIP_INT_IMM_MIN <=? encoding) && (encoding <=? ZIP_INT_IMM_MAX) then
    Some zl
  else None.

(** [zipLoadInteger(p, encoding)]. *)
Definition zipLoadInteger (zl : blob) (p : Z) (encoding : Z) : option Z :=
  if encoding =? ZIP_INT_8B then
    b ← load zl p; Some (sint 8 b)
  else if encoding =? ZIP_INT_16B then
    bs ← loadn zl p 2;
    Some (sint 16 (host_value BIG_ENDIAN (memrevifbe BIG_ENDIAN bs)))
  else if encoding =? ZIP_INT_32B then
    bs ← loadn zl p 4;
    Some (sint 32 (host_value BIG_ENDIAN (memrevifbe BIG_ENDIAN bs)))
  else if encoding =? ZIP_INT_24B then
    bs ← loadn zl p (4 - 1);
    (* i32 = 0; memcpy(((uint8_t* )&i32)+1, p, 3) *)
    let obj := 0 :: bs in
    let i32 := sint 32 (host_value BIG_ENDIAN (memrevifbe BIG_ENDIAN obj)) in
    Some (Z.shiftr i32 8)
  else if encoding =? ZIP_INT_64B then
    bs ← loadn zl p 8;
    Some (sint 64 (host_value BIG_ENDIAN (memrevifbe BIG_ENDIAN bs)))
  else if (ZIP_INT_IMM_MIN <=? encoding) && (encoding <=? ZIP_INT_IMM_MAX) then
    Some (Z.land encoding ZIP_INT_IMM_MASK - 1)
  else None.

(** Modelled from the spec: [string2ll] of util.c is not among the sources.
    The spec says a payload is integer-encoded when it "parses as a signed
    integer fitting in 64 bits"; the parser accepts the canonical decimal
    form only (an optional minus sign, no leading zero, no sign for zero),
    so that the text can be rebuilt from the number. *)
Fixpoint digits_value (acc : Z) (s : list Z) : option Z :=
  match s with
  | [] => Some acc
  | c :: s' =>
      if (48 <=? c) && (c <=? 57) then digits_value (acc * 10 + (c - 48)) s'
      else None
  end.

Definition string2ll (s : list Z) : option Z :=
  match s with
  | [] => None
  | [48] => Some 0
  | 45 :: c :: s' =>
      if (49 <=? c) && (c <=? 57) then
        v ← digits_value 0 (c :: s');
        if v <=? 2^63 then Some (- v) else None
      else None
  | c :: s' =>
      if (49 <=? c) && (c <=? 57) then
        v ← digits_value 0 (c :: s');
        if v <=? 2^63 - 1 then Some v else None
      else None
  end.

(** [zipTryEncoding(entry, entrylen, &v, &encoding)]: [Some (v, encoding)]
    when it returns 1. *)
Definition zipTryEncoding (entry : list Z) : option (Z * Z) :=
  let entrylen := size entry in
  if (entrylen >=? 32) || (entrylen =? 0) then None
  else
    match string2ll entry with
    | Some value =>
        let encoding :=
          if (value >=? 0) && (value <=? 12) then u8 (ZIP_INT_IMM_MIN + value)
          else if (value >=? INT8_MIN) && (value <=? INT8_MAX) then ZIP_INT_8B
          else if (value >=? INT16_MIN) && (value <=? INT16_MAX) then ZIP_INT_16B
          else if (value >=? INT24_MIN) && (value <=? INT24_MAX) then ZIP_INT_24B
          else if (value >=? INT32_MIN) && (value <=? INT32_MAX) then ZIP_INT_32B
          else ZIP_INT_64B in
        Some (value, encoding)
    | None => None
    end.

(** [ziplistNew()]. *)
Definition ziplistNew : option blob :=
  let bytes := ZIPLIST_HEADER_SIZE + 1 in
  let zl := zrealloc [] bytes in
  zl ← set_ZIPLIST_BYTES zl (intrev32ifbe bytes);
  zl ← set_ZIPLIST_TAIL_OFFSET zl (intrev32ifbe ZIPLIST_HEADER_SIZE);
  zl ← set_ZIPLIST_LENGTH zl 0;
  store zl (bytes - 1) ZIP_END.

(** [ziplistResize(zl, len)]. *)
Definition ziplistResize (zl : blob) (len : Z) : option blob :=
  let len := u32 len in
  let zl := zrealloc zl len in
  zl ← set_ZIPLIST_BYTES zl (intrev32ifbe len);
  store zl (len - 1) ZIP_END.

(** One pass of the [while] loop of [__ziplistCascadeUpdate]; [fuel] bounds
    the number of iterations. *)
Fixpoint cascade_loop (fuel : nat) (zl : blob) (p curlen : Z) : option blob :=
  match fuel with
  | O => None
  | S fuel' =>
      b ← load zl p;
      if b =? ZIP_END then Some zl else
      cur ← zipEntry zl p;
      let rawlen := u32 (headersize cur + len cur) in
      '(_, rawlensize) ← zipPrevEncodeLength zl None rawlen;
      e ← load zl (p + rawlen);
      (* Abort if there is no next entry. *)
      if e =? ZIP_END then Some zl else
      next ← zipEntry zl (p + rawlen);
      (* Abort when "prevlen" has not changed. *)
      if prevrawlen next =? rawlen then Some zl else
      if prevrawlensize next <? rawlensize then
        let offset := p in
        let extra := u64 (rawlensize - prevrawlensize next) in
        zl ← ziplistResize zl (curlen + extra);
        let p := offset in
        let np := p + rawlen in
        let noffset := np in
        t ← ZIPLIST_TAIL_OFFSET zl;
        zl ← (if negb (intrev32ifbe t =? np)
              then set_ZIPLIST_TAIL_OFFSET zl (intrev32ifbe (u32 (intrev32ifbe t + extra)))
              else Some zl);
        zl ← memmove zl (np + rawlensize) (np + prevrawlensize next)
                     (u64 (curlen - noffset - prevrawlensize next - 1));
        '(zl, _) ← zipPrevEncodeLength zl (Some np) rawlen;
        cascade_loop fuel' zl (p + rawlen) (u64 (curlen + extra))
      else if prevrawlensize next >? rawlensize then
        (* This would result in shrinking, which we want to avoid. *)
        zipPrevEncodeLengthForceLarge zl (Some (p + rawlen)) rawlen
      else
        '(zl, _) ← zipPrevEncodeLength zl (Some (p + rawlen)) rawlen;
        Some zl
  end.

(** [__ziplistCascadeUpdate(zl, p)]: every iteration that continues steps
    over one entry, so the blob's length bounds the iterations. *)
Definition __ziplistCascadeUpdate (zl : blob) (p : Z) : option blob :=
  b ← ZIPLIST_BYTES zl;
  cascade_loop (length zl) zl p (intrev32ifbe b).

(** The [for] loop of [__ziplistDelete]: steps over at most [num] entries;
    returns the final [p] and [deleted]. *)
Fixpoint delete_span (num : nat) (zl : blob) (p deleted : Z) : option (Z * Z) :=
  match num with
  | O => Some (p, deleted)
  | S num' =>
      b ← load zl p;
      if b =? ZIP_END then Some (p, deleted)
      else
        l ← zipRawEntryLength zl p;
        delete_span num' zl (p + l) (deleted + 1)
  end.

(** [__ziplistDelete(zl, p, num)]. *)
Definition __ziplistDelete (zl : blob) (p : Z) (num : Z) : option blob :=
  first ← zipEntry zl p;
  '(p, deleted) ← delete_span (Z.to_nat num) zl p 0;
  let totlen := u32 (p - first.(Ziplist.p)) in
  if totlen >? 0 then
    b ← load zl p;
    '(zl, nextdiff) ←
      (if negb (b =? ZIP_END) then
         nextdiff ← zipPrevLenByteDiff zl p (prevrawlen first);
         let p := p - nextdiff in
         '(zl, _) ← zipPrevEncodeLength zl (Some p) (prevrawlen first);
         t ← ZIPLIST_TAIL_OFFSET zl;
         zl ← set_ZIPLIST_TAIL_OFFSET zl (intrev32ifbe (u32 (intrev32ifbe t - totlen)));
         tail ← zipEntry zl p;
         e ← load zl (p + u32 (headersize tail + len tail));
         zl ← (if negb (e =? ZIP_END) then
                 t ← ZIPLIST_TAIL_OFFSET zl;
                 set_ZIPLIST_TAIL_OFFSET zl (intrev32ifbe (u32 (intrev32ifbe t + nextdiff)))
               else Some zl);
         bytes ← ZIPLIST_BYTES zl;
         zl ← memmove zl first.(Ziplist.p) p (u64 (intrev32ifbe bytes - p - 1));
         Some (zl, nextdiff)
       else
         (* The entire tail was deleted. No need to move memory. *)
         zl ← set_ZIPLIST_TAIL_OFFSET zl
                (intrev32ifbe (u32 (first.(Ziplist.p) - prevrawlen first)));
         Some (zl, 0));
    let offset := first.(Ziplist.p) in
    bytes ← ZIPLIST_BYTES zl;
    zl ← ziplistResize zl (intrev32ifbe bytes - totlen + nextdiff);
    zl ← ZIPLIST_INCR_LENGTH zl (- deleted);
    let p := offset in
    if negb (nextdiff =? 0) then __ziplistCascadeUpdate zl p else Some zl
  else Some zl.

(** [__ziplistInsert(zl, p, s, slen)]; [s] is the payload, [slen] its length. *)
Definition __ziplistInsert (zl : blob) (p : Z) (s : list Z) : option blob :=
  let slen := u32 (size s) in
  bytes ← ZIPLIST_BYTES zl;
  let curlen := intrev32ifbe bytes in
  (* Find out prevlen for the entry that is inserted. *)
  b ← load zl p;
  prevlen ←
    (if negb (b =? ZIP_END) then
       entry ← zipEntry zl p;
       '(prevlensize, prevlen) ← ZIP_DECODE_PREVLEN zl p;
       Some prevlen
     else
       ptail ← ZIPLIST_ENTRY_TAIL zl;
       t ← load zl ptail;
       if negb (t =? ZIP_END) then zipRawEntryLength zl ptail else Some 0);
  (* See if the entry can be encoded *)
  let '(value, encoding, reqlen) :=
    match zipTryEncoding s with
    | Some (value, encoding) => (value, encoding, zipIntSize encoding)
    | None => (123456789, 0, slen)
    end in
  '(_, n1) ← zipPrevEncodeLength zl None prevlen;
  let reqlen := u64 (reqlen + n1) in
  '(_, n2) ← zipEncodeLength zl None encoding slen;
  let reqlen := u64 (reqlen + n2) in
  nextdiff ← (if negb (b =? ZIP_END) then zipPrevLenByteDiff zl p (u32 reqlen)
              else Some 0);
  (* Store offset because a realloc may change the address of zl. *)
  let offset := p in
  zl ← ziplistResize zl (curlen + reqlen + nextdiff);
  let p := offset in
  (* Apply memory move when necessary and update tail offset. *)
  b ← load zl p;
  zl ←
    (if negb (b =? ZIP_END) then
       zl ← memmove zl (p + reqlen) (p - nextdiff)
                    (u64 (curlen - offset - 1 + nextdiff));
       '(zl, _) ← zipPrevEncodeLength zl (Some (p + reqlen)) (u32 reqlen);
       t ← ZIPLIST_TAIL_OFFSET zl;
       zl ← set_ZIPLIST_TAIL_OFFSET zl (intrev32ifbe (u32 (intrev32ifbe t + reqlen)));
       tail ← zipEntry zl (p + reqlen);
       e ← load zl (p + u64 (reqlen + headersize tail + len tail));
       if negb (e =? ZIP_END) then
         t ← ZIPLIST_TAIL_OFFSET zl;
         set_ZIPLIST_TAIL_OFFSET zl (intrev32ifbe (u32 (intrev32ifbe t + nextdiff)))
       else Some zl
     else
       (* This element will be the new tail. *)
       set_ZIPLIST_TAIL_OFFSET zl (intrev32ifbe (u32 p)));
  zl ← (if negb (nextdiff =? 0) then __ziplistCascadeUpdate zl (p + reqlen)
        else Some zl);
  (* Write the entry *)
  '(zl, n) ← zipPrevEncodeLength zl (Some p) prevlen;
  let p := p + n in
  '(zl, n) ← zipEncodeLength zl (Some p) encoding slen;
  let p := p + n in
  zl ← (if ZIP_IS_STR encoding then storen zl p s
        else zipSaveInteger zl p value encoding);
  ZIPLIST_INCR_LENGTH zl 1.

(** [ziplistPush(zl, s, slen, where)]. *)
Definition ziplistPush (zl : blob) (s : list Z) (where_ : Z) : option blob :=
  p ← (if where_ =? ZIPLIST_HEAD then Some (ZIPLIST_ENTRY_HEAD zl)
       else ZIPLIST_ENTRY_END zl);
  __ziplistInsert zl p s.

(** The forward [while (p[0] != ZIP_END && index--)] loop of [ziplistIndex]. *)
Fixpoint index_forward (fuel : nat) (zl : blob) (p index : Z) : option (Z * Z) :=
  b ← load zl p;
  if b =? ZIP_END then Some (p, index)
  else if index =? 0 then Some (p, index - 1)
  else match fuel with
       | O => None
       | S fuel' =>
           l ← zipRawEntryLength zl p;
           index_forward fuel' zl (p + l) (index - 1)
       end.

(** The backward [while (prevlen > 0 && index--)] loop of [ziplistIndex]. *)
Fixpoint index_backward (fuel : nat) (zl : blob) (p prevlen index : Z)
  : option (Z * Z) :=
  if negb (prevlen >? 0) then Some (p, index)
  else if index =? 0 then Some (p, index - 1)
  else match fuel with
       | O => None
       | S fuel' =>
           let p := p - prevlen in
           '(_, prevlen) ← ZIP_DECODE_PREVLEN zl p;
           index_backward fuel' zl p prevlen (index - 1)
       end.

(** [ziplistIndex(zl, index)]; [None] inside [Some] is the NULL result. *)
Definition ziplistIndex (zl : blob) (index : Z) : option (option Z) :=
  '(p, index) ←
    (if index <? 0 then
       let index := sint 32 ((- index) - 1) in
       p ← ZIPLIST_ENTRY_TAIL zl;
       b ← load zl p;
       if negb (b =? ZIP_END) then
         '(_, prevlen) ← ZIP_DECODE_PREVLEN zl p;
         index_backward (Z.to_nat index) zl p prevlen index
       else Some (p, index)
     else
       index_forward (Z.to_nat index) zl (ZIPLIST_ENTRY_HEAD zl) index);
  b ← load zl p;
  Some (if (b =? ZIP_END) || (index >? 0) then None else Some p).

(** [ziplistNext(zl, p)]. *)
Definition ziplistNext (zl : blob) (p : Z) : option (option Z) :=
  b ← load zl p;
  if b =? ZIP_END then Some None
  else
    l ← zipRawEntryLength zl p;
    let p := p + l in
    b ← load zl p;
    Some (if b =? ZIP_END then None else Some p).

(** [ziplistPrev(zl, p)]. *)
Definition ziplistPrev (zl : blob) (p : Z) : option (option Z) :=
  b ← load zl p;
  if b =? ZIP_END then
    p ← ZIPLIST_ENTRY_TAIL zl;
    b ← load zl p;
    Some (if b =? ZIP_END then None else Some p)
  else if p =? ZIPLIST_ENTRY_HEAD zl then Some None
  else
    '(_, prevlen) ← ZIP_DECODE_PREVLEN zl p;
    if prevlen >? 0 then Some (Some (p - prevlen)) else None.

(** The value an entry holds: [ziplistGet] sets either [*sstr]/[*slen] or
    [*sval]. *)
Inductive zlvalue :=
| ZStr (sstr : list Z)
| ZInt (sval : Z).

(** [ziplistGet(p, &sstr, &slen, &sval)]; [Some None] is the return value 0. *)
Definition ziplistGet (zl : blob) (p : option Z) : option (option zlvalue) :=
  match p with
  | None => Some None
  | Some p =>
      b ← load zl p;
      if b =? ZIP_END then Some None
      else
        entry ← zipEntry zl p;
        if ZIP_IS_STR (encoding entry) then
          bs ← loadn zl (p + headersize entry) (len entry);
          Some (Some (ZStr bs))
        else
          v ← zipLoadInteger zl (p + headersize entry) (encoding entry);
          Some (Some (ZInt v))
  end.

(** [ziplistInsert(zl, p, s, slen)]. *)
Definition ziplistInsert (zl : blob) (p : Z) (s : list Z) : option blob :=
  __ziplistInsert zl p s.

(** [ziplistCompare(p, sstr, slen)]: the entry at [p] against a string. *)
Definition ziplistCompare (zl : blob) (p : Z) (sstr : list Z) : option bool :=
  b ← load zl p;
  if b =? ZIP_END then Some false
  else
    entry ← zipEntry zl p;
    if ZIP_IS_STR (encoding entry) then
      (* Raw compare *)
      if len entry =? size sstr then
        bs ← loadn zl (p + headersize entry) (size sstr);
        Some (bool_decide (bs = sstr))
      else Some false
    else
      (* Try to compare encoded values. *)
      match zipTryEncoding sstr with
      | Some (sval, _) =>
          zval ← zipLoadInteger zl (p + headersize entry) (encoding entry);
          Some (zval =? sval)
      | None => Some false
      end.

(** [ziplistDelete(zl, &p)]: the blob and the updated [*p]. *)
Definition ziplistDelete (zl : blob) (p : Z) : option (blob * Z) :=
  let offset := p in
  zl ← __ziplistDelete zl p 1;
  Some (zl, offset).

(** [ziplistDeleteRange(zl, index, num)]. *)
Definition ziplistDeleteRange (zl : blob) (index num : Z) : option blob :=
  p ← ziplistIndex zl (sint 32 index);
  match p with
  | None => Some zl
  | Some p => __ziplistDelete zl p num
  end.

(** The scan of [ziplistLen] when the count field is saturated. *)
Fixpoint len_scan (fuel : nat) (zl : blob) (p len : Z) : option Z :=
  match fuel with
  | O => None
  | S fuel' =>
      b ← load zl p;
      if b =? ZIP_END then Some len
      else l ← zipRawEntryLength zl p; len_scan fuel' zl (p + l) (u32 (len + 1))
  end.

(** [ziplistLen(zl)]: the count and the blob (the count field may be
    re-stored). *)
Definition ziplistLen (zl : blob) : option (Z * blob) :=
  l ← ZIPLIST_LENGTH zl;
  if intrev16ifbe l <? UINT16_MAX then Some (intrev16ifbe l, zl)
  else
    len ← len_scan (S (length zl)) zl ZIPLIST_HEADER_SIZE 0;
    if len <? UINT16_MAX
    then zl ← set_ZIPLIST_LENGTH zl (intrev16ifbe len); Some (len, zl)
    else Some (len, zl).

(** *** The layout invariant of the spec, as a decidable check

    [walk] follows the entries from offset [p] to the terminator and returns,
    for each entry, its offset, the value of its [prev_entry_length] field
    and its total byte length. *)
Fixpoint walk (fuel : nat) (zl : blob) (p : Z) : option (list (Z * Z * Z)) :=
  match fuel with
  | O => None
  | S fuel' =>
      b ← load zl p;
      if b =? ZIP_END then
        (if p =? size zl - 1 then Some [] else None)
      else
        e ← zipEntry zl p;
        let rawlen := headersize e + len e in
        rest ← walk fuel' zl (p + rawlen);
        Some ((p, prevrawlen e, rawlen) :: rest)
  end.

(** Every [prev_entry_length] equals the length of the predecessor
    ([prev] is 0 for the first entry). *)
Fixpoint prevlen_chain (prev : Z) (es : list (Z * Z * Z)) : bool :=
  match es with
  | [] => true
  | (_, prevlen, rawlen) :: es' => (prevlen =? prev) && prevlen_chain rawlen es'
  end.

(** Offset of the last entry, or of the terminator for the empty list. *)
Definition last_offset (zl : blob) (es : list (Z * Z * Z)) : Z :=
  match last es with
  | Some (off, _, _) => off
  | None => size zl - 1
  end.

Definition ziplist_invariant (zl : blob) : bool :=
  match ZIPLIST_BYTES zl, ZIPLIST_TAIL_OFFSET zl,
        walk (length zl) zl ZIPLIST_HEADER_SIZE with
  | Some bytes, Some tail, Some es =>
      (intrev32ifbe bytes =? size zl)
      && prevlen_chain 0 es
      && (intrev32ifbe tail =? last_offset zl es)
  | _, _, _ => false
  end.

(** The payloads from head to tail. *)
Fixpoint payloads (zl : blob) (es : list (Z * Z * Z)) : option (list zlvalue) :=
  match es with
  | [] => Some []
  | (off, _, _) :: es' =>
      v ← ziplistGet zl (Some off);
      v ← v;
      vs ← payloads zl es';
      Some (v :: vs)
  end.

Definition ziplist_contents (zl : blob) : option (list zlvalue) :=
  es ← walk (length zl) zl ZIPLIST_HEADER_SIZE; payloads zl es.

End Host.

(** *** Byte order of the entry codecs *)

Lemma byte_of_shift r k : 0 <= k -> u8 (Z.land (Z.shiftr r k) 0xff) = (r / 2 ^ k) mod 256.
Proof.
  intros Hk. unfold u8. change 0xff with (Z.ones 8).
  rewrite Z.land_ones, Z.shiftr_div_pow2 by lia.
  change (2 ^ 8) with 256. now rewrite Z.mod_mod by lia.
Qed.

Lemma le_bytes_4 r :
  le_bytes 4 r = [r mod 256; (r / 2^8) mod 256; (r / 2^16) mod 256; (r / 2^24) mod 256].
Proof.
  cbn [le_bytes]. rewrite !Z.div_div by lia. reflexivity.
Qed.

Lemma zipEncodeLength_buf_32B enc rawlen :
  ZIP_IS_STR enc = true -> 16384 <= rawlen < 2^32 ->
  zipEncodeLength_buf enc rawlen = 0x80 :: rev (le_bytes 4 rawlen).
Proof.
  intros Hs Hr. unfold zipEncodeLength_buf. rewrite Hs.
  destruct (Z.leb_spec rawlen 0x3f); [lia|].
  destruct (Z.leb_spec rawlen 0x3fff); [lia|].
  rewrite le_bytes_4. cbn [rev app].
  rewrite !byte_of_shift by lia.
  unfold u8. change (Z.land rawlen 0xff) with (Z.land rawlen (Z.ones 8)).
  rewrite Z.land_ones by lia. change (2 ^ 8) with 256.
  rewrite Z.mod_mod by lia. reflexivity.
Qed.

Lemma zipSaveInteger_24B be zl p v :
  zipSaveInteger be zl p v ZIP_INT_24B
  = storen zl p (drop 1 (le_bytes 4 (Z.shiftl v 8))).
Proof.
  unfold zipSaveInteger.
  change (ZIP_INT_24B =? ZIP_INT_8B) with false.
  change (ZIP_INT_24B =? ZIP_INT_16B) with false.
  change (ZIP_INT_24B =? ZIP_INT_24B) with true. cbv iota zeta.
  rewrite memrevifbe_host_bytes.
  rewrite (le_bytes_sint 4) by lia.
  reflexivity.
Qed.

Lemma zipLoadInteger_24B be zl p :
  zipLoadInteger be zl p ZIP_INT_24B
  = (bs ← loadn zl p 3; Some (Z.shiftr (sint 32 (le_value (0 :: bs))) 8)).
Proof.
  unfold zipLoadInteger.
  change (ZIP_INT_24B =? ZIP_INT_8B) with false.
  change (ZIP_INT_24B =? ZIP_INT_16B) with false.
  change (ZIP_INT_24B =? ZIP_INT_32B) with false.
  change (ZIP_INT_24B =? ZIP_INT_24B) with true. cbv iota.
  change (4 - 1) with 3.
  destruct (loadn zl p 3) as [bs|]; [|reflexivity]. simpl.
  now rewrite host_value_memrevifbe.
Qed.

Lemma sint_small w x : 0 < w -> - 2 ^ (w - 1) <= x < 2 ^ (w - 1) -> sint w x = x.
Proof.
  intros Hw Hx. unfold sint. cbv zeta.
  assert (Hp : 2 ^ w = 2 * 2 ^ (w - 1)).
  { replace w with (1 + (w - 1)) at 1 by lia. rewrite Z.pow_add_r by lia. reflexivity. }
  destruct (Z_lt_le_dec x 0) as [Hn|Hn].
  - replace (x mod 2 ^ w) with (x + 2 ^ w).
    + destruct (Z.ltb_spec (x + 2 ^ w) (2 ^ (w - 1))); lia.
    + symmetry. rewrite <- (Z_mod_plus_full x 1 (2 ^ w)).
      replace (x + 1 * 2 ^ w) with (x + 2 ^ w) by ring.
      apply Z.mod_small. lia.
  - rewrite Z.mod_small by lia.
    destruct (Z.ltb_spec x (2 ^ (w - 1))); lia.
Qed.

Lemma zip_24B_roundtrip be zl p v zl' :
  INT24_MIN <= v <= INT24_MAX ->
  zipSaveInteger be zl p v ZIP_INT_24B = Some zl' ->
  zipLoadInteger be zl' p ZIP_INT_24B = Some v.
Proof.
  unfold INT24_MIN, INT24_MAX. intros Hv Hs.
  rewrite zipSaveInteger_24B in Hs. rewrite zipLoadInteger_24B.
  apply loadn_storen in Hs. unfold size in Hs.
  rewrite length_drop, length_le_bytes in Hs. change (Z.of_nat (4 - 1)) with 3 in Hs.
  rewrite Hs.
  change (Some (Z.shiftr (sint 32 (le_value (0 :: drop 1 (le_bytes 4 (Z.shiftl v 8))))) 8)
          = Some v).
  f_equal.
  rewrite Z.shiftl_mul_pow2 by lia. change (2 ^ 8) with 256.
  assert (E : 0 :: drop 1 (le_bytes 4 (v * 256)) = le_bytes 4 (v * 256)).
  { rewrite le_bytes_4. cbn [drop]. now rewrite Z_mod_mult. }
  rewrite E, le_value_bytes. change (8 * Z.of_nat 4) with 32.
  assert (S1 : sint 32 ((v * 256) mod 2 ^ 32) = sint 32 (v * 256)).
  { unfold sint. now rewrite Z.mod_mod by lia. }
  rewrite S1, sint_small by lia.
  rewrite Z.shiftr_div_pow2 by lia. change (2 ^ 8) with 256.
  apply Z_div_mult. lia.
Qed.

Lemma zipSaveInteger_le be zl p v :
  zipSaveInteger be zl p v ZIP_INT_16B = storen zl p (le_bytes 2 v) /\
  zipSaveInteger be zl p v ZIP_INT_32B = storen zl p (le_bytes 4 v) /\
  zipSaveInteger be zl p v ZIP_INT_64B = storen zl p (le_bytes 8 v).
Proof.
  unfold zipSaveInteger. repeat split.
  - change (ZIP_INT_16B =? ZIP_INT_8B) with false.
    change (ZIP_INT_16B =? ZIP_INT_16B) with true. cbv iota zeta.
    rewrite (storen_host_memrev be zl p 2). now rewrite (le_bytes_sint 2) by lia.
  - change (ZIP_INT_32B =? ZIP_INT_8B) with false.
    change (ZIP_INT_32B =? ZIP_INT_16B) with false.
    change (ZIP_INT_32B =? ZIP_INT_24B) with false.
    change (ZIP_INT_32B =? ZIP_INT_32B) with true. cbv iota zeta.
    rewrite (storen_host_memrev be zl p 4). now rewrite (le_bytes_sint 4) by lia.
  - change (ZIP_INT_64B =? ZIP_INT_8B) with false.
    change (ZIP_INT_64B =? ZIP_INT_16B) with false.
    change (ZIP_INT_64B =? ZIP_INT_24B) with false.
    change (ZIP_INT_64B =? ZIP_INT_32B) with false.
    change (ZIP_INT_64B =? ZIP_INT_64B) with true. cbv iota zeta.
    rewrite (storen_host_memrev be zl p 8). now rewrite (le_bytes_sint 8) by lia.
Qed.

Lemma zipLoadInteger_le be zl p :
  zipLoadInteger be zl p ZIP_INT_16B = (bs ← loadn zl p 2; Some (sint 16 (le_value bs))) /\
  zipLoadInteger be zl p ZIP_INT_32B = (bs ← loadn zl p 4; Some (sint 32 (le_value bs))) /\
  zipLoadInteger be zl p ZIP_INT_64B = (bs ← loadn zl p 8; Some (sint 64 (le_value bs))).
Proof.
  unfold zipLoadInteger. repeat split.
  - change (ZIP_INT_16B =? ZIP_INT_8B) with false.
    change (ZIP_INT_16B =? ZIP_INT_16B) with true. cbv iota.
    destruct (loadn zl p 2); simpl; [now rewrite host_value_memrevifbe|reflexivity].
  - change (ZIP_INT_32B =? ZIP_INT_8B) with false.
    change (ZIP_INT_32B =? ZIP_INT_16B) with false.
    change (ZIP_INT_32B =? ZIP_INT_32B) with true. cbv iota.
    destruct (loadn zl p 4); simpl; [now rewrite host_value_memrevifbe|reflexivity].
  - change (ZIP_INT_64B =? ZIP_INT_8B) with false.
    change (ZIP_INT_64B =? ZIP_INT_16B) with false.
    change (ZIP_INT_64B =? ZIP_INT_32B) with false.
    change (ZIP_INT_64B =? ZIP_INT_24B) with false.
    change (ZIP_INT_64B =? ZIP_INT_64B) with true. cbv iota.
    destruct (loadn zl p 8); simpl; [now rewrite host_value_memrevifbe|reflexivity].
Qed.

(** *** Facts about stores *)

Lemma load_Some_bounds zl p b : load zl p = Some b -> 0 <= p < size zl.
Proof.
  unfold load, size. intros H.
  destruct (Z.ltb_spec p 0); [discriminate|].
  apply lookup_lt_Some in H. lia.
Qed.

Lemma loadn_Some_bounds zl p n bs :
  loadn zl p n = Some bs -> 0 <= p /\ 0 <= n /\ p + n <= size zl.
Proof.
  unfold loadn. destruct (_ && _) eqn:E; [|discriminate]. intros _.
  apply andb_true_iff in E as [E E3]. apply andb_true_iff in E as [E1 E2].
  apply Z.leb_le in E1, E2, E3. lia.
Qed.

Lemma store_storen zl q v zl1 bs :
  store zl q v = Some zl1 -> storen zl1 (q + 1) bs = storen zl q (u8 v :: bs).
Proof.
  unfold store, storen, size. intros H.
  destruct (_ && _) eqn:E in H; [|discriminate]. injection H as <-.
  apply andb_true_iff in E as [E1 E2]. apply Z.leb_le in E1. apply Z.ltb_lt in E2.
  rewrite length_insert. cbn [length].
  replace (q + 1 + Z.of_nat (length bs) <=? Z.of_nat (length zl))
    with (q + Z.of_nat (S (length bs)) <=? Z.of_nat (length zl))
    by (f_equal; lia).
  replace (0 <=? q + 1) with true by (symmetry; apply Z.leb_le; lia).
  replace (0 <=? q) with true by (symmetry; apply Z.leb_le; lia).
  cbn [andb]. destruct (_ <=? _) eqn:E3; [|reflexivity].
  apply Z.leb_le in E3. f_equal.
  replace (Z.to_nat (q + 1)) with (S (Z.to_nat q)) by lia.
  assert (Hq : (Z.to_nat q < length zl)%nat) by lia.
  destruct (lookup_lt_is_Some_2 zl (Z.to_nat q) Hq) as [x Hx].
  rewrite (take_S_r _ _ (u8 v)) by (now apply list_lookup_insert_eq).
  rewrite take_insert_ge by lia.
  rewrite <- app_assoc. cbn [app]. do 3 f_equal.
  rewrite drop_insert_lt by lia. f_equal. lia.
Qed.

Lemma load_storen_other zl q bs zl' i :
  storen zl q bs = Some zl' -> i < q \/ q + size bs <= i -> load zl' i = load zl i.
Proof.
  unfold storen, load, size. intros H Hi.
  destruct (_ && _) eqn:E in H; [|discriminate]. injection H as <-.
  apply andb_true_iff in E as [E1 E2]. apply Z.leb_le in E1, E2.
  destruct (Z.ltb_spec i 0); [reflexivity|].
  destruct Hi as [Hi|Hi].
  - rewrite lookup_app_l by (rewrite length_take; lia).
    apply lookup_take_lt. lia.
  - rewrite lookup_app_r by (rewrite length_take; lia).
    rewrite lookup_app_r by (rewrite length_take; lia).
    rewrite lookup_drop, length_take. f_equal. lia.
Qed.

Lemma load_storen_head zl q b bs zl' :
  storen zl q (b :: bs) = Some zl' -> load zl' q = Some b.
Proof.
  unfold storen, load, size. intros H.
  destruct (_ && _) eqn:E in H; [|discriminate]. injection H as <-.
  apply andb_true_iff in E as [E1 E2]. apply Z.leb_le in E1, E2.
  destruct (Z.ltb_spec q 0); [lia|].
  rewrite lookup_app_r by (rewrite length_take; lia).
  rewrite length_take.
  replace (Z.to_nat q - Z.to_nat q `min` length zl)%nat with 0%nat by lia.
  reflexivity.
Qed.

Lemma loadn_storen_tail zl q b bs zl' :
  storen zl q (b :: bs) = Some zl' -> loadn zl' (q + 1) (size bs) = Some bs.
Proof.
  intros H. pose proof (storen_length _ _ _ _ H) as Hl.
  unfold storen, size in H. unfold loadn, size. rewrite Hl.
  destruct (_ && _) eqn:E in H; [|discriminate]. injection H as <-.
  apply andb_true_iff in E as [E1 E2]. apply Z.leb_le in E1, E2.
  cbn [length] in E2.
  replace ((0 <=? q + 1) && (0 <=? Z.of_nat (length bs)) &&
           (q + 1 + Z.of_nat (length bs) <=? Z.of_nat (length zl)))
    with true by (symmetry; rewrite !andb_true_iff, !Z.leb_le; lia).
  f_equal. rewrite Nat2Z.id.
  replace (Z.to_nat (q + 1)) with (Z.to_nat q + 1)%nat by lia.
  rewrite drop_app_add' by (rewrite length_take; lia).
  change (drop 1 (b :: bs ++ drop (Z.to_nat q + S (length bs)) zl))
    with (bs ++ drop (Z.to_nat q + S (length bs)) zl).
  now rewrite take_app_length.
Qed.

(** The forced 5-byte form writes the marker and the little-endian length. *)
Lemma zipPrevEncodeLengthForceLarge_bytes be zl q n :
  zipPrevEncodeLengthForceLarge be zl (Some q) n
  = storen zl q (ZIP_BIGLEN :: le_bytes 4 (u32 n)).
Proof.
  unfold zipPrevEncodeLengthForceLarge.
  destruct (store zl q ZIP_BIGLEN) as [zl1|] eqn:E.
  - cbn [mbind option_bind].
    rewrite (storen_host_memrev be zl1 (q + 1) 4).
    now rewrite (store_storen _ _ _ _ _ E).
  - cbn [mbind option_bind]. symmetry. unfold store, size in E. unfold storen, size.
    cbn [length]. rewrite length_le_bytes.
    destruct (Z.leb_spec 0 q) as [H1|H1]; [|reflexivity]. cbn [andb] in *.
    destruct (Z.leb_spec (q + Z.of_nat 5) (Z.of_nat (length zl))) as [H2|H2];
      [|reflexivity].
    exfalso. destruct (Z.ltb_spec q (Z.of_nat (length zl))); [discriminate|lia].
Qed.

Lemma zipEntry_prevlen be zl q e :
  zipEntry be zl q = Some e ->
  ZIP_DECODE_PREVLEN be zl q = Some (prevrawlensize e, prevrawlen e).
Proof.
  unfold zipEntry. intros H.
  destruct (ZIP_DECODE_PREVLEN be zl q) as [[s v]|]; [|discriminate].
  cbn [mbind option_bind] in H.
  destruct (ZIP_DECODE_LENGTH zl (q + s)) as [[[a b] c]|]; [|discriminate].
  cbn [mbind option_bind] in H. now injection H as <-.
Qed.

Lemma ZIP_DECODE_PREVLEN_wide be zl q v s :
  ZIP_DECODE_PREVLEN be zl q = Some (s, v) -> s = 5 ->
  0 <= q /\ q + 5 <= size zl.
Proof.
  unfold ZIP_DECODE_PREVLEN, ZIP_DECODE_PREVLENSIZE. intros H Hs.
  destruct (load zl q) as [b|] eqn:Hb; [|discriminate].
  cbn [mbind option_bind] in H.
  destruct (b <? ZIP_BIGLEN).
  - change (1 =? 1) with true in H. cbv iota in H.
    cbn [mbind option_bind] in H. congruence.
  - change (5 =? 1) with false in H. cbv iota in H.
    destruct (loadn zl (q + 1) 4) as [bs|] eqn:Hbs; [|discriminate].
    apply loadn_Some_bounds in Hbs. apply load_Some_bounds in Hb. lia.
Qed.

Lemma ZIP_DECODE_PREVLEN_stored be zl q v zl' :
  0 <= v < 2^32 ->
  storen zl q (ZIP_BIGLEN :: le_bytes 4 v) = Some zl' ->
  ZIP_DECODE_PREVLEN be zl' q = Some (5, v).
Proof.
  intros Hv H. unfold ZIP_DECODE_PREVLEN, ZIP_DECODE_PREVLENSIZE.
  rewrite (load_storen_head _ _ _ _ _ H). cbn [mbind option_bind].
  change (ZIP_BIGLEN <? ZIP_BIGLEN) with false. cbv iota.
  change (5 =? 1) with false. cbv iota.
  pose proof (loadn_storen_tail _ _ _ _ _ H) as HL.
  unfold size in HL. rewrite length_le_bytes in HL. change (Z.of_nat 4) with 4 in HL.
  rewrite HL. cbn [mbind option_bind].
  rewrite host_value_memrevifbe, le_value_bytes.
  change (8 * Z.of_nat 4) with 32. now rewrite Z.mod_small by lia.
Qed.

Lemma u32_range x : 0 <= u32 x < 2^32.
Proof. unfold u32. apply Z.mod_pos_bound. lia. Qed.

Lemma u32_idem x : u32 (u32 x) = u32 x.
Proof. unfold u32. apply Z.mod_mod. lia. Qed.

(** C7 (as amended) — no shrinking in the cascade.  When the cascade update
    (run after a deletion or an insertion changed an entry's length) stands on
    an entry that is now shorter than 254 bytes while its successor's
    [prev_entry_length] field occupies 5 bytes and holds another length, the
    successor's field keeps its 5-byte width: the marker byte stays, only the
    4 length bytes are rewritten, the blob keeps its size, and every byte
    outside that field is unchanged. *)
Theorem cascade_keeps_wide_prevlen
  (be : bool) (zl : blob) (p : Z) (cur next : zlentry) (b e : Z) :
  is_Some (ZIPLIST_BYTES be zl) ->
  load zl p = Some b -> b <> ZIP_END ->
  zipEntry be zl p = Some cur ->
  load zl (p + u32 (headersize cur + len cur)) = Some e -> e <> ZIP_END ->
  zipEntry be zl (p + u32 (headersize cur + len cur)) = Some next ->
  u32 (headersize cur + len cur) < ZIP_BIGLEN ->
  prevrawlensize next = 5 ->
  prevrawlen next <> u32 (headersize cur + len cur) ->
  let rawlen := u32 (headersize cur + len cur) in
  let q := p + rawlen in
  exists zl',
    __ziplistCascadeUpdate be zl p = Some zl'
    /\ zl' = take (Z.to_nat q) zl ++ (ZIP_BIGLEN :: le_bytes 4 rawlen)
                                  ++ drop (Z.to_nat q + 5) zl
    /\ length zl' = length zl
    /\ ZIP_DECODE_PREVLEN be zl' q = Some (5, rawlen)
    /\ (forall i, i < q \/ q + 5 <= i -> load zl' i = load zl i).
Proof.
  intros [bytes Hbytes] Hp Hb Hcur He Hee Hnext Hlt H5 Hstale rawlen q.
  fold rawlen in He, Hnext, Hlt, Hstale. fold q in He, Hnext.
  pose proof (u32_range (headersize cur + len cur)) as Hr. fold rawlen in Hr.
  pose proof (zipEntry_prevlen _ _ _ _ Hnext) as Hdec.
  destruct (ZIP_DECODE_PREVLEN_wide _ _ _ _ _ Hdec H5) as [Hq0 Hq5].
  assert (Hst : storen zl q (ZIP_BIGLEN :: le_bytes 4 rawlen)
                = Some (take (Z.to_nat q) zl ++ (ZIP_BIGLEN :: le_bytes 4 rawlen)
                                             ++ drop (Z.to_nat q + 5) zl)).
  { unfold storen, size. cbn [length]. rewrite length_le_bytes.
    replace ((0 <=? q) && (q + Z.of_nat 5 <=? Z.of_nat (length zl))) with true
      by (symmetry; rewrite andb_true_iff, !Z.leb_le; unfold size in Hq5; lia).
    reflexivity. }
  assert (Hpe : zipPrevEncodeLength be zl None rawlen = Some (zl, 1)).
  { unfold zipPrevEncodeLength.
    destruct (Z.ltb_spec rawlen ZIP_BIGLEN); [reflexivity|lia]. }
  eexists. split; [|split; [reflexivity|]].
  - unfold __ziplistCascadeUpdate. rewrite Hbytes. cbn [mbind option_bind].
    pose proof (load_Some_bounds _ _ _ Hp) as Hpb. unfold size in Hpb.
    destruct (length zl) as [|fuel] eqn:Hlen; [lia|].
    cbn [cascade_loop]. rewrite Hp. cbn [mbind option_bind].
    destruct (Z.eqb_spec b ZIP_END) as [|_]; [contradiction|].
    rewrite Hcur. cbn [mbind option_bind].
    fold rawlen. rewrite Hpe. cbn [mbind option_bind].
    fold q. rewrite He. cbn [mbind option_bind].
    destruct (Z.eqb_spec e ZIP_END) as [|_]; [contradiction|].
    rewrite Hnext. cbn [mbind option_bind].
    destruct (Z.eqb_spec (prevrawlen next) rawlen) as [|_]; [contradiction|].
    rewrite H5.
    change (5 <? 1) with false. change (5 >? 1) with true. cbv iota.
    rewrite zipPrevEncodeLengthForceLarge_bytes. unfold rawlen at 1.
    rewrite u32_idem.
    fold rawlen. exact Hst.
  - split; [now apply (storen_length _ _ _ _ Hst)|].
    split; [now apply (ZIP_DECODE_PREVLEN_stored be _ _ _ _ Hr Hst)|].
    intros i Hi. apply (load_storen_other _ _ _ _ _ Hst).
    unfold size. cbn [length]. rewrite length_le_bytes. lia.
Qed.

(** A two-entry list whose second entry carries a stale 5-byte field:
    header, ["a"] (3 bytes), ["b"] with [prev_entry_length = FE 09 00 00 00]. *)
Definition stale_wide_list : blob :=
  [21; 0; 0; 0; 13; 0; 0; 0; 2; 0] ++ [0; 1; 97] ++ [254; 9; 0; 0; 0; 1; 98] ++ [255].

Lemma cascade_keeps_wide_prevlen_witness :
  __ziplistCascadeUpdate false stale_wide_list 10
  = Some ([21; 0; 0; 0; 13; 0; 0; 0; 2; 0] ++ [0; 1; 97]
          ++ [254; 3; 0; 0; 0; 1; 98] ++ [255]).
Proof.
  destruct (cascade_keeps_wide_prevlen false stale_wide_list 10
              (mk_zlentry 1 0 1 1 2 0 10) (mk_zlentry 5 9 1 1 6 0 13) 0 254)
    as (zl' & H1 & H2 & _).
  - eexists; reflexivity.
  - reflexivity.
  - unfold ZIP_END; lia.
  - reflexivity.
  - reflexivity.
  - unfold ZIP_END; lia.
  - reflexivity.
  - vm_compute; reflexivity.
  - reflexivity.
  - vm_compute; discriminate.
  - rewrite H1, H2. reflexivity.
Defined.

(** The list ["a", x^300, "b"], built by pushes at the tail. *)
Definition abx_list : option blob :=
  zl ← ziplistNew false;
  zl ← ziplistPush false zl [97] ZIPLIST_TAIL;
  zl ← ziplistPush false zl (replicate 300 120) ZIPLIST_TAIL;
  ziplistPush false zl [98] ZIPLIST_TAIL.

(** C7 (counterexample) — in ["a", x^300, "b"] the entry "b" (offset 316)
    has a 5-byte [prev_entry_length] field holding 303.  Deleting the middle
    entry makes "a" (3 bytes, shorter than 254) its predecessor, and
    [__ziplistDelete] re-encodes the field in 1 byte: it is shrunk. *)
Lemma delete_shrinks_successor_prevlen :
  exists zl zl',
    abx_list = Some zl
    /\ ziplist_invariant false zl = true
    /\ ZIP_DECODE_PREVLEN false zl 316 = Some (5, 303)
    /\ ziplistDeleteRange false zl 1 1 = Some zl'
    /\ ziplist_contents false zl' = Some [ZStr [97]; ZStr [98]]
    /\ walk false (length zl') zl' ZIPLIST_HEADER_SIZE = Some [(10, 0, 3); (13, 3, 3)]
    /\ ZIP_DECODE_PREVLEN false zl' 13 = Some (1, 3).
Proof.
  eexists. eexists.
  split; [vm_compute; reflexivity|].
  repeat (split; [vm_compute; reflexivity|]).
  vm_compute; reflexivity.
Qed.

(** The list [b^247, "c"] left by pushing x^300, b^247 and "c" at the tail
    and deleting the head: the cascade after the deletion keeps the 5-byte
    field of "c", which now holds 250. *)
Definition wide_prevlen_list : option blob :=
  zl ← ziplistNew false;
  zl ← ziplistPush false zl (replicate 300 120) ZIPLIST_TAIL;
  zl ← ziplistPush false zl (replicate 247 98) ZIPLIST_TAIL;
  zl ← ziplistPush false zl [99] ZIPLIST_TAIL;
  ziplistDeleteRange false zl 0 1.

(** C3 (the code at the failing input) — the list [b^247, "c"] above
    satisfies the layout invariant, and its second entry, at offset 260, has a
    5-byte [prev_entry_length] field.  Inserting "1" before that entry needs
    2 bytes and gives back 4 ([nextdiff = -4]): [ziplistResize] shrinks the
    blob from 268 to 266 bytes before the tail is moved, its terminator
    overwrites the encoding byte of "c" (offset 265), and [memmove] then
    reads byte 266, outside the allocation: there is no resulting blob.
    Inserting "a" (3 bytes) stays inside the allocation but the payload of
    "c" is lost (it reads back as the byte 255). *)
Theorem insert_before_wide_prevlen_faults :
  exists zl,
    wide_prevlen_list = Some zl
    /\ ziplist_invariant false zl = true
    /\ ziplist_contents false zl = Some [ZStr (replicate 247 98); ZStr [99]]
    /\ ziplistIndex false zl 1 = Some (Some 260)
    /\ ZIP_DECODE_PREVLEN false zl 260 = Some (5, 250)
    /\ load zl 265 = Some 1
    /\ (zl1 ← ziplistResize false zl (268 + 2 + -4); load zl1 265) = Some ZIP_END
    /\ ziplistInsert false zl 260 [49] = None
    /\ (zl2 ← ziplistInsert false zl 260 [97]; ziplist_contents false zl2)
       = Some [ZStr (replicate 247 98); ZStr [97]; ZStr [255]].
Proof.
  eexists.
  split; [vm_compute; reflexivity|].
  repeat (split; [vm_compute; reflexivity|]).
  vm_compute; reflexivity.
Qed.

(** C8 — byte order of the serialized entry layout.  On either host byte
    order: the length of a string of 16384 bytes or more is written after
    the [10]-prefixed encoding byte ([0x80]) as 4 bytes in big-endian order
    (the reverse of the little-endian bytes); the 16-, 32- and 64-bit integer
    payloads are written and read as little-endian two's complement; the
    24-bit form writes the upper 3 bytes of the 32-bit word [value << 8]
    and reads them back into the upper bytes of a 32-bit word that an
    arithmetic right shift by 8 sign-extends, which restores every value of
    the 24-bit range. *)
Theorem zip_entry_byte_order (be : bool) (zl : blob) (p v rawlen enc : Z) :
  ZIP_IS_STR enc = true -> 16384 <= rawlen < 2^32 ->
  zipEncodeLength_buf enc rawlen = 0x80 :: rev (le_bytes 4 rawlen)
  /\ zipSaveInteger be zl p v ZIP_INT_16B = storen zl p (le_bytes 2 v)
  /\ zipSaveInteger be zl p v ZIP_INT_32B = storen zl p (le_bytes 4 v)
  /\ zipSaveInteger be zl p v ZIP_INT_64B = storen zl p (le_bytes 8 v)
  /\ zipLoadInteger be zl p ZIP_INT_16B
     = (bs ← loadn zl p 2; Some (sint 16 (le_value bs)))
  /\ zipLoadInteger be zl p ZIP_INT_32B
     = (bs ← loadn zl p 4; Some (sint 32 (le_value bs)))
  /\ zipLoadInteger be zl p ZIP_INT_64B
     = (bs ← loadn zl p 8; Some (sint 64 (le_value bs)))
  /\ zipSaveInteger be zl p v ZIP_INT_24B
     = storen zl p (drop 1 (le_bytes 4 (Z.shiftl v 8)))
  /\ zipLoadInteger be zl p ZIP_INT_24B
     = (bs ← loadn zl p 3; Some (Z.shiftr (sint 32 (le_value (0 :: bs))) 8))
  /\ (INT24_MIN <= v <= INT24_MAX ->
      forall zl', zipSaveInteger be zl p v ZIP_INT_24B = Some zl' ->
                  zipLoadInteger be zl' p ZIP_INT_24B = Some v).
Proof.
  intros Hs Hr.
  destruct (zipSaveInteger_le be zl p v) as (S16 & S32 & S64).
  destruct (zipLoadInteger_le be zl p) as (L16 & L32 & L64).
  split; [now apply zipEncodeLength_buf_32B|].
  repeat (split; [assumption|]).
  split; [apply zipSaveInteger_24B|].
  split; [apply zipLoadInteger_24B|].
  intros Hv zl' Hz. now apply (zip_24B_roundtrip be zl p v zl').
Qed.

Lemma zip_entry_byte_order_witness :
  zipEncodeLength_buf ZIP_STR_32B 70000 = [128; 0; 1; 17; 112]
  /\ zipSaveInteger true [0; 0; 0; 0] 0 (-2) ZIP_INT_32B = Some [254; 255; 255; 255]
  /\ zipSaveInteger false [0; 0; 0] 0 (-2) ZIP_INT_24B = Some [254; 255; 255]
  /\ zipLoadInteger true [254; 255; 255] 0 ZIP_INT_24B = Some (-2).
Proof.
  destruct (zip_entry_byte_order true [254; 255; 255] 0 (-2) 70000 ZIP_STR_32B)
    as (H1 & _ & _ & _ & _ & _ & _ & _ & H9 & _); [reflexivity | lia |].
  split; [rewrite H1; reflexivity|].
  split; [reflexivity|].
  split; [reflexivity|].
  rewrite H9. reflexivity.
Defined.

(** *** Round trips of the entry codecs *)

Lemma load_store zl q v zl' : store zl q v = Some zl' -> load zl' q = Some (u8 v).
Proof.
  unfold store, load, size. destruct (_ && _) eqn:E; [|discriminate]. intros [= <-].
  apply andb_true_iff in E as [E1 E2]. apply Z.leb_le in E1. apply Z.ltb_lt in E2.
  destruct (Z.ltb_spec q 0); [lia|]. apply list_lookup_insert_eq. lia.
Qed.

Lemma store_length zl q v zl' : store zl q v = Some zl' -> length zl' = length zl.
Proof.
  unfold store. destruct (_ && _); [|discriminate]. intros [= <-]. apply length_insert.
Qed.

Lemma load_store_other zl q v zl' i :
  store zl q v = Some zl' -> i <> q -> load zl' i = load zl i.
Proof.
  unfold store, load, size. destruct (_ && _) eqn:E; [|discriminate]. intros [= <-] Hi.
  apply andb_true_iff in E as [E1 E2]. apply Z.leb_le in E1.
  destruct (Z.ltb_spec i 0); [reflexivity|]. apply list_lookup_insert_ne. lia.
Qed.

(** Bytes put side by side with [|] and [<<]. *)
Lemma lor_shiftl_low a b k :
  0 <= k -> 0 <= b < 2 ^ k -> Z.lor (Z.shiftl a k) b = a * 2 ^ k + b.
Proof.
  intros Hk Hb. rewrite Z.shiftl_mul_pow2 by lia.
  assert (H : Z.land (a * 2 ^ k) b = 0).
  { apply Z.bits_inj'. intros n Hn. rewrite Z.land_spec, Z.bits_0.
    destruct (Z.lt_ge_cases n k) as [Hlt|Hge].
    + rewrite Z.mul_pow2_bits_low by lia. reflexivity.
    + destruct (Z.eq_dec b 0) as [->|Hb0]; [now rewrite Z.bits_0, andb_false_r|].
      rewrite (Z.bits_above_log2 b n), andb_false_r; [reflexivity|lia|].
      apply Z.log2_lt_pow2; [lia|].
      apply Z.lt_le_trans with (2 ^ k); [lia|]. apply Z.pow_le_mono_r; lia. }
  rewrite <- (Z.lxor_lor _ _ H). symmetry. now apply Z.add_nocarry_lxor.
Qed.

(** X18 — previous-length field.  For a length below 2^32,
    [zipPrevEncodeLength] writes one byte when the length is below 254 and
    the marker 254 followed by four bytes otherwise, inside the allocation;
    [ZIP_DECODE_PREVLEN] at the same place reads back that width and that
    length, on a little-endian and on a big-endian host; the blob keeps its
    size and no byte outside the field changes. *)
Theorem zipPrevEncodeLength_decode (be : bool) (zl : blob) (p len : Z) zl' n :
  0 <= len < 2^32 ->
  zipPrevEncodeLength be zl (Some p) len = Some (zl', n) ->
  n = (if len <? ZIP_BIGLEN then 1 else 5)
  /\ ZIP_DECODE_PREVLEN be zl' p = Some (n, len)
  /\ length zl' = length zl
  /\ 0 <= p /\ p + n <= size zl
  /\ (forall i, i < p \/ p + n <= i -> load zl' i = load zl i).
Proof.
  intros Hlen. unfold zipPrevEncodeLength, ZIP_BIGLEN.
  destruct (Z.ltb_spec len 254) as [Hs|Hb].
  - destruct (store zl p len) as [zl1|] eqn:Hst; cbn [mbind option_bind]; [|discriminate].
    intros Heq. injection Heq as Hz Hn. subst zl' n. split; [reflexivity|].
    pose proof (load_store _ _ _ _ Hst) as Hl.
    assert (Hu : u8 len = len) by (unfold u8; apply Z.mod_small; lia).
    rewrite Hu in Hl.
    split.
    { unfold ZIP_DECODE_PREVLEN, ZIP_DECODE_PREVLENSIZE. rewrite Hl.
      cbn [mbind option_bind]. unfold ZIP_BIGLEN.
      destruct (Z.ltb_spec len 254); [|lia]. change (1 =? 1) with true. cbv iota.
      reflexivity. }
    split; [now apply store_length in Hst|].
    pose proof (load_Some_bounds _ _ _ Hl) as Hbd.
    pose proof (store_length _ _ _ _ Hst) as Hsl.
    unfold size in *. rewrite Hsl in Hbd.
    split; [lia|]. split; [lia|].
    intros i Hi. apply (load_store_other _ _ _ _ _ Hst). lia.
  - pose proof (zipPrevEncodeLengthForceLarge_bytes be zl p len) as Hforce.
    unfold zipPrevEncodeLengthForceLarge, ZIP_BIGLEN in Hforce.
    destruct (store zl p 254) as [zl1|] eqn:Hst; cbn [mbind option_bind] in *;
      [|discriminate].
    destruct (storen zl1 (p + 1) (host_bytes be 4 (u32 len))) as [zl2|] eqn:Hs2;
      cbn [mbind option_bind] in *; [|discriminate].
    destruct (loadn zl2 (p + 1) 4) as [bs|] eqn:Hl2; cbn [mbind option_bind] in *;
      [|discriminate].
    destruct (storen zl2 (p + 1) (memrevifbe be bs)) as [zl3|] eqn:Hs3;
      cbn [mbind option_bind] in *; [|discriminate].
    intros Heq. injection Heq as Hz Hn. subst zl' n. split; [reflexivity|].
    assert (Hu : u32 len = len) by (unfold u32; apply Z.mod_small; lia).
    rewrite Hu in Hforce. symmetry in Hforce.
    split; [now apply (ZIP_DECODE_PREVLEN_stored be zl p len zl3)|].
    pose proof (storen_length _ _ _ _ Hforce) as Hlen3.
    split; [exact Hlen3|].
    assert (Hbd : 0 <= p /\ p + 5 <= size zl).
    { unfold storen, size in Hforce. cbn [length] in Hforce.
      rewrite length_le_bytes in Hforce.
      destruct (_ && _) eqn:E in Hforce; [|discriminate].
      apply andb_true_iff in E as [E1 E2]. apply Z.leb_le in E1, E2.
      unfold size. lia. }
    split; [lia|]. split; [lia|].
    intros i Hi. apply (load_storen_other _ _ _ _ _ Hforce).
    unfold size. cbn [length]. rewrite length_le_bytes. lia.
Qed.

Lemma zipPrevEncodeLength_decode_witness :
  zipPrevEncodeLength true [0; 0; 0; 0; 0; 0; 0] (Some 1) 300
  = Some ([0; 254; 44; 1; 0; 0; 0], 5)
  /\ ZIP_DECODE_PREVLEN true [0; 254; 44; 1; 0; 0; 0] 1 = Some (5, 300).
Proof.
  assert (H : zipPrevEncodeLength true [0; 0; 0; 0; 0; 0; 0] (Some 1) 300
              = Some ([0; 254; 44; 1; 0; 0; 0], 5)) by reflexivity.
  split; [exact H|].
  apply (zipPrevEncodeLength_decode true [0; 0; 0; 0; 0; 0; 0] 1 300 _ 5); [lia|exact H].
Defined.

Lemma load_storen_nth zl q bs zl' i b :
  storen zl q bs = Some zl' -> bs !! i = Some b -> load zl' (q + Z.of_nat i) = Some b.
Proof.
  unfold storen, load, size. intros H Hb.
  destruct (_ && _) eqn:E in H; [|discriminate]. injection H as <-.
  apply andb_true_iff in E as [E1 E2]. apply Z.leb_le in E1, E2.
  destruct (Z.ltb_spec (q + Z.of_nat i) 0); [lia|].
  rewrite lookup_app_r by (rewrite length_take; lia).
  rewrite length_take.
  replace (Z.to_nat (q + Z.of_nat i) - Z.to_nat q `min` length zl)%nat with i by lia.
  rewrite lookup_app_l by (now apply lookup_lt_Some in Hb). exact Hb.
Qed.

(** A decidable property of the small numbers, checked on each of them. *)
Lemma forall_below (P : Z -> bool) (n : nat) :
  forallb P (map Z.of_nat (seq 0 n)) = true ->
  forall x, 0 <= x < Z.of_nat n -> P x = true.
Proof.
  intros H x Hx. rewrite forallb_forall in H. apply H.
  replace x with (Z.of_nat (Z.to_nat x)) by lia.
  apply in_map, in_seq. lia.
Qed.

Lemma byte_is_str e : 0 <= e < 256 -> ZIP_IS_STR e = (e <? 192).
Proof.
  intros He. apply eqb_prop.
  exact (forall_below (fun e => eqb (ZIP_IS_STR e) (e <? 192)) 256
           ltac:(vm_compute; reflexivity) e He).
Qed.

Lemma low6_bits x :
  0 <= x < 64 ->
  Z.land x 0x3f = x /\ Z.land x 0xc0 = 0
  /\ Z.lor 0x40 x = 64 + x /\ Z.land (64 + x) 0xc0 = 0x40 /\ Z.land (64 + x) 0x3f = x.
Proof.
  intros Hx.
  pose proof (forall_below
    (fun x => (Z.land x 0x3f =? x) && (Z.land x 0xc0 =? 0) && (Z.lor 0x40 x =? 64 + x)
              && (Z.land (64 + x) 0xc0 =? 0x40) && (Z.land (64 + x) 0x3f =? x)) 64
    ltac:(vm_compute; reflexivity) x Hx) as H.
  cbv beta in H. rewrite !andb_true_iff, !Z.eqb_eq in H. tauto.
Qed.

Lemma lor_mul_low a b k :
  0 <= k -> 0 <= b < 2 ^ k -> Z.lor (a * 2 ^ k) b = a * 2 ^ k + b.
Proof.
  intros Hk Hb. rewrite <- (lor_shiftl_low a b k Hk Hb). now rewrite Z.shiftl_mul_pow2 by lia.
Qed.

Lemma be_bytes_4_value r :
  0 <= r < 2 ^ 32 ->
  u32 (Z.lor (Z.lor (Z.lor (Z.shiftl ((r / 2^24) mod 256) 24)
                           (Z.shiftl ((r / 2^16) mod 256) 16))
                    (Z.shiftl ((r / 2^8) mod 256) 8)) (r mod 256)) = r.
Proof.
  intros Hr.
  pose proof (Z.mod_pos_bound (r / 2^24) 256 ltac:(lia)) as H3.
  pose proof (Z.mod_pos_bound (r / 2^16) 256 ltac:(lia)) as H2.
  pose proof (Z.mod_pos_bound (r / 2^8) 256 ltac:(lia)) as H1.
  pose proof (Z.mod_pos_bound r 256 ltac:(lia)) as H0.
  set (b3 := (r / 2^24) mod 256) in *. set (b2 := (r / 2^16) mod 256) in *.
  set (b1 := (r / 2^8) mod 256) in *. set (b0 := r mod 256) in *.
  assert (E : r = ((b3 * 2^8 + b2) * 2^8 + b1) * 2^8 + b0).
  { subst b3 b2 b1 b0.
    pose proof (Z.div_mod r 256 ltac:(lia)) as D0.
    pose proof (Z.div_mod (r / 256) 256 ltac:(lia)) as D1.
    pose proof (Z.div_mod (r / 256 / 256) 256 ltac:(lia)) as D2.
    pose proof (Z.div_mod (r / 256 / 256 / 256) 256 ltac:(lia)) as D3.
    change (2 ^ 8) with 256.
    change (2 ^ 16) with (256 * 256). change (2 ^ 24) with (256 * 256 * 256).
    rewrite <- !Z.div_div by lia.
    assert (r / 256 / 256 / 256 / 256 = 0).
    { rewrite !Z.div_div by lia. apply Z.div_small. lia. }
    lia. }
  rewrite (Z.shiftl_mul_pow2 b2), (Z.shiftl_mul_pow2 b1) by lia.
  rewrite lor_shiftl_low by lia.
  replace (b3 * 2 ^ 24 + b2 * 2 ^ 16) with ((b3 * 2^8 + b2) * 2 ^ 16) by lia.
  rewrite (lor_mul_low _ (b1 * 2 ^ 8) 16) by lia.
  replace ((b3 * 2 ^ 8 + b2) * 2 ^ 16 + b1 * 2 ^ 8)
    with (((b3 * 2^8 + b2) * 2^8 + b1) * 2 ^ 8) by lia.
  rewrite (lor_mul_low _ b0 8) by lia.
  rewrite <- E. unfold u32. apply Z.mod_small. lia.
Qed.

(** X19 — length header.  For an encoding byte and a length below 2^31
    (where the shifts of the decoder stay inside [int]), [zipEncodeLength]
    writes 1, 2 or 5 bytes for a string (lengths up to 63,
    up to 16383, larger) and the encoding byte alone for an integer;
    [ZIP_DECODE_LENGTH] at the same place reads back the class of the
    string, that width and that length, and for an integer the encoding
    itself, width 1 and the size [zipIntSize] gives it.  The blob keeps its
    size. *)
Theorem zipEncodeLength_decode (zl : blob) (p enc rawlen : Z) zl' n :
  0 <= enc < 256 -> 0 <= rawlen < 2^31 ->
  zipEncodeLength zl (Some p) enc rawlen = Some (zl', n) ->
  let e := if ZIP_IS_STR enc then
             if rawlen <=? 0x3f then ZIP_STR_06B
             else if rawlen <=? 0x3fff then ZIP_STR_14B else ZIP_STR_32B
           else enc in
  let w := if ZIP_IS_STR enc then
             if rawlen <=? 0x3f then 1 else if rawlen <=? 0x3fff then 2 else 5
           else 1 in
  n = w
  /\ ZIP_DECODE_LENGTH zl' p
     = Some (e, w, if ZIP_IS_STR enc then rawlen else zipIntSize enc)
  /\ length zl' = length zl.
Proof.
  intros Henc Hraw. unfold zipEncodeLength. cbv zeta.
  destruct (storen zl p (zipEncodeLength_buf enc rawlen)) as [zl1|] eqn:Hst;
    cbn [mbind option_bind]; [|discriminate].
  intros Heq. injection Heq as Hz Hn. subst zl1.
  pose proof (storen_length _ _ _ _ Hst) as Hlen.
  assert (Hat : forall i b, zipEncodeLength_buf enc rawlen !! i = Some b ->
                            load zl' (p + Z.of_nat i) = Some b)
    by (intros i b; apply (load_storen_nth _ _ _ _ _ _ Hst)).
  pose proof (byte_is_str enc Henc) as Hstr.
  unfold zipEncodeLength_buf in Hn, Hat.
  unfold ZIP_DECODE_LENGTH, ZIP_ENTRY_ENCODING.
  destruct (ZIP_IS_STR enc) eqn:Es.
  - destruct (Z.leb_spec rawlen 0x3f) as [H6|H6].
    + (* one byte *)
      destruct (low6_bits rawlen ltac:(lia)) as (L1 & L2 & _).
      pose proof (Hat 0%nat _ eq_refl) as H0. rewrite Z.add_0_r in H0.
      change (Z.lor ZIP_STR_06B rawlen) with (Z.lor 0 rawlen) in H0.
      rewrite Z.lor_0_l in H0. unfold u8 in H0. rewrite Z.mod_small in H0 by lia.
      split; [subst n; reflexivity|]. split; [|exact Hlen].
      rewrite H0. cbn [mbind option_bind]. unfold ZIP_STR_MASK.
      destruct (Z.ltb_spec rawlen 192); [|lia]. rewrite L2.
      change (0 <? 192) with true. change (0 =? ZIP_STR_06B) with true. cbv iota.
      cbn [mbind option_bind]. rewrite L1. reflexivity.
    + destruct (Z.leb_spec rawlen 0x3fff) as [H14|H14].
      * (* two bytes *)
        assert (Hhi : 0 <= rawlen / 2^8 < 64).
        { split; [apply Z.div_pos; lia|apply Z.div_lt_upper_bound; lia]. }
        destruct (low6_bits (rawlen / 2^8) Hhi) as (L1 & _ & L3 & L4 & L5).
        pose proof (Hat 0%nat _ eq_refl) as H0. rewrite Z.add_0_r in H0.
        pose proof (Hat 1%nat _ eq_refl) as H1. change (Z.of_nat 1) with 1 in H1.
        rewrite Z.shiftr_div_pow2, L1 in H0 by lia.
        change ZIP_STR_14B with 0x40 in H0. rewrite L3 in H0.
        unfold u8 in H0. rewrite Z.mod_small in H0 by lia.
        pose proof (byte_of_shift rawlen 0 ltac:(lia)) as Hb.
        rewrite Z.shiftr_0_r in Hb. rewrite Hb in H1.
        change (2 ^ 0) with 1 in H1. rewrite Z.div_1_r in H1.
        split; [subst n; reflexivity|]. split; [|exact Hlen].
        rewrite H0. cbn [mbind option_bind]. unfold ZIP_STR_MASK.
        destruct (Z.ltb_spec (64 + rawlen / 2 ^ 8) 192); [|lia]. rewrite L4.
        change (64 <? 192) with true. change (64 =? ZIP_STR_06B) with false.
        change (64 =? ZIP_STR_14B) with true. cbv iota.
        rewrite H1. cbn [mbind option_bind]. rewrite L5.
        pose proof (Z.mod_pos_bound rawlen 256 ltac:(lia)).
        rewrite lor_shiftl_low by lia.
        change ZIP_STR_14B with 64. do 3 f_equal.
        pose proof (Z.div_mod rawlen 256 ltac:(lia)). change (2 ^ 8) with 256. lia.
      * (* five bytes *)
        pose proof (Hat 0%nat _ eq_refl) as H0. rewrite Z.add_0_r in H0.
        pose proof (Hat 1%nat _ eq_refl) as H1. change (Z.of_nat 1) with 1 in H1.
        pose proof (Hat 2%nat _ eq_refl) as H2. change (Z.of_nat 2) with 2 in H2.
        pose proof (Hat 3%nat _ eq_refl) as H3. change (Z.of_nat 3) with 3 in H3.
        pose proof (Hat 4%nat _ eq_refl) as H4. change (Z.of_nat 4) with 4 in H4.
        change (u8 ZIP_STR_32B) with 128 in H0.
        rewrite byte_of_shift in H1, H2, H3 by lia.
        pose proof (byte_of_shift rawlen 0 ltac:(lia)) as Hb.
        rewrite Z.shiftr_0_r in Hb. rewrite Hb in H4.
        change (2 ^ 0) with 1 in H4. rewrite Z.div_1_r in H4.
        split; [subst n; reflexivity|]. split; [|exact Hlen].
        rewrite H0. cbn [mbind option_bind].
        change (128 <? ZIP_STR_MASK) with true. cbv iota.
        change (Z.land 128 ZIP_STR_MASK) with 128.
        change (128 <? ZIP_STR_MASK) with true.
        change (128 =? ZIP_STR_06B) with false. change (128 =? ZIP_STR_14B) with false.
        change (128 =? ZIP_STR_32B) with true. cbv iota.
        rewrite H1, H2, H3, H4. cbn [mbind option_bind].
        rewrite be_bytes_4_value by lia. reflexivity.
  - (* an integer encoding *)
    symmetry in Hstr. apply Z.ltb_ge in Hstr.
    pose proof (Hat 0%nat _ eq_refl) as H0. rewrite Z.add_0_r in H0.
    unfold u8 in H0. rewrite Z.mod_small in H0 by lia.
    split; [subst n; reflexivity|]. split; [|exact Hlen].
    rewrite H0. cbn [mbind option_bind]. unfold ZIP_STR_MASK.
    destruct (Z.ltb_spec enc 192) as [|_]; [lia|].
    destruct (Z.ltb_spec enc 192); [lia|]. reflexivity.
Qed.

Lemma zipEncodeLength_decode_witness :
  zipEncodeLength [0;0;0;0] (Some 1) ZIP_STR_06B 300 = Some ([0;65;44;0], 2)
  /\ ZIP_DECODE_LENGTH [0;65;44;0] 1 = Some (ZIP_STR_14B, 2, 300).
Proof.
  split; [reflexivity|].
  apply (zipEncodeLength_decode [0;0;0;0] 1 ZIP_STR_06B 300 [0;65;44;0] 2);
    [vm_compute; split; [discriminate|reflexivity] | lia | reflexivity].
Defined.

Lemma sint_mod w x : sint w (x mod 2 ^ w) = sint w x.
Proof.
  unfold sint. cbv zeta. destruct (Z.eq_dec (2 ^ w) 0) as [E|E].
  - rewrite E, !Z.mod_0_r. reflexivity.
  - now rewrite Z.mod_mod.
Qed.

Lemma le_roundtrip (w : nat) v zl q zl' :
  (0 < w)%nat ->
  - 2 ^ (8 * Z.of_nat w - 1) <= v < 2 ^ (8 * Z.of_nat w - 1) ->
  storen zl q (le_bytes w v) = Some zl' ->
  (bs ← loadn zl' q (Z.of_nat w); Some (sint (8 * Z.of_nat w) (le_value bs))) = Some v.
Proof.
  intros Hw Hv Hs. apply loadn_storen in Hs. unfold size in Hs.
  rewrite length_le_bytes in Hs. rewrite Hs. cbn [mbind option_bind].
  rewrite le_value_bytes, sint_mod, sint_small by lia. reflexivity.
Qed.

Lemma zip_imm_codec be zl q v e :
  241 <= e <= 253 ->
  zipSaveInteger be zl q v e = Some zl
  /\ zipLoadInteger be zl q e = Some (Z.land e ZIP_INT_IMM_MASK - 1)
  /\ zipIntSize e = 0.
Proof.
  intros He. unfold zipSaveInteger, zipLoadInteger, zipIntSize.
  change ZIP_INT_8B with 254. change ZIP_INT_16B with 192. change ZIP_INT_24B with 240.
  change ZIP_INT_32B with 208. change ZIP_INT_64B with 224.
  change ZIP_INT_IMM_MIN with 241. change ZIP_INT_IMM_MAX with 253.
  destruct (Z.eqb_spec e 254); [lia|]. destruct (Z.eqb_spec e 192); [lia|].
  destruct (Z.eqb_spec e 240); [lia|]. destruct (Z.eqb_spec e 208); [lia|].
  destruct (Z.eqb_spec e 224); [lia|].
  destruct (Z.leb_spec 241 e); [|lia]. destruct (Z.leb_spec e 253); [|lia].
  repeat split.
Qed.

Lemma zip_imm_value v : 0 <= v < 13 -> Z.land (241 + v) 15 - 1 = v.
Proof.
  intros Hv. apply Z.eqb_eq.
  exact (forall_below (fun v => Z.land (241 + v) 15 - 1 =? v) 13
           ltac:(vm_compute; reflexivity) v Hv).
Qed.

(** X20 — integer payload.  When [zipTryEncoding] accepts a string as a
    64-bit integer [v] and chooses its encoding, what [zipSaveInteger]
    writes at [p] under that encoding is read back by [zipLoadInteger] as
    [v], on a little-endian and on a big-endian host: the smallest of the
    immediate, 8-, 16-, 24-, 32- and 64-bit forms that holds [v] loses
    nothing.  The blob keeps its size and no byte outside the
    [zipIntSize] bytes of the payload changes. *)
Theorem zipTryEncoding_save_load (be : bool) (zl : blob) (p : Z) (entry : list Z)
    (v enc : Z) (zl' : blob) :
  zipTryEncoding entry = Some (v, enc) ->
  - 2 ^ 63 <= v < 2 ^ 63 ->
  zipSaveInteger be zl p v enc = Some zl' ->
  zipLoadInteger be zl' p enc = Some v
  /\ length zl' = length zl
  /\ (forall i, i < p \/ p + zipIntSize enc <= i -> load zl' i = load zl i).
Proof.
  intros Ht Hv Hs. unfold zipTryEncoding in Ht.
  destruct (_ || _); [discriminate|].
  destruct (string2ll entry) as [value|]; [|discriminate].
  injection Ht as -> <-.
  destruct (zipSaveInteger_le be zl p v) as (S16 & S32 & S64).
  destruct (zipLoadInteger_le be zl' p) as (L16 & L32 & L64).
  unfold INT8_MIN, INT8_MAX, INT16_MIN, INT16_MAX, INT24_MIN, INT24_MAX,
    INT32_MIN, INT32_MAX in *.
  destruct ((v >=? 0) && (v <=? 12)) eqn:E0.
  { (* the immediate forms *)
    apply andb_true_iff in E0 as [E1 E2]. apply Z.geb_le in E1. apply Z.leb_le in E2.
    change ZIP_INT_IMM_MIN with 241 in *.
    assert (Hu : u8 (241 + v) = 241 + v) by (unfold u8; apply Z.mod_small; lia).
    rewrite Hu in *.
    destruct (zip_imm_codec be zl p v (241 + v) ltac:(lia)) as (Hsv & _ & Hsz).
    rewrite Hsv in Hs. injection Hs as <-.
    destruct (zip_imm_codec be zl p v (241 + v) ltac:(lia)) as (_ & Hld & _).
    rewrite Hld. change ZIP_INT_IMM_MASK with 15. rewrite zip_imm_value by lia.
    repeat split. }
  destruct ((v >=? -128) && (v <=? 127)) eqn:E8.
  { (* one byte *)
    apply andb_true_iff in E8 as [E1 E2]. apply Z.geb_le in E1. apply Z.leb_le in E2.
    unfold zipSaveInteger in Hs. change (ZIP_INT_8B =? ZIP_INT_8B) with true in Hs.
    cbv iota in Hs.
    unfold zipLoadInteger. change (ZIP_INT_8B =? ZIP_INT_8B) with true. cbv iota.
    rewrite (load_store _ _ _ _ Hs). cbn [mbind option_bind].
    split; [|split].
    - f_equal. unfold u8. rewrite (sint_mod 8).
      rewrite !(sint_small 8 v) by (change (8 - 1) with 7; lia). reflexivity.
    - exact (store_length _ _ _ _ Hs).
    - intros i Hi. change (zipIntSize ZIP_INT_8B) with 1 in Hi.
      apply (load_store_other _ _ _ _ _ Hs). lia. }
  destruct ((v >=? -32768) && (v <=? 32767)) eqn:E16.
  { apply andb_true_iff in E16 as [E1 E2]. apply Z.geb_le in E1. apply Z.leb_le in E2.
    rewrite S16 in Hs. rewrite L16.
    assert (Hr : - 2 ^ (8 * Z.of_nat 2 - 1) <= v < 2 ^ (8 * Z.of_nat 2 - 1))
      by (change (8 * Z.of_nat 2 - 1) with 15; lia).
    split; [exact (le_roundtrip 2 v zl p zl' ltac:(lia) Hr Hs)|].
    split; [exact (storen_length _ _ _ _ Hs)|].
    intros i Hi. apply (load_storen_other _ _ _ _ _ Hs).
    unfold size. rewrite length_le_bytes. exact Hi. }
  match goal with
  | |- context [if ?c then ZIP_INT_24B else _] => destruct c eqn:E24
  end.
  { apply andb_true_iff in E24 as [E1 E2]. apply Z.geb_le in E1. apply Z.leb_le in E2.
    split; [apply (zip_24B_roundtrip be zl p v zl'); [unfold INT24_MIN, INT24_MAX; lia|exact Hs]|].
    rewrite zipSaveInteger_24B in Hs.
    split; [exact (storen_length _ _ _ _ Hs)|].
    intros i Hi. apply (load_storen_other _ _ _ _ _ Hs).
    unfold size. rewrite length_drop, length_le_bytes. exact Hi. }
  destruct ((v >=? -2147483648) && (v <=? 2147483647)) eqn:E32.
  { apply andb_true_iff in E32 as [E1 E2]. apply Z.geb_le in E1. apply Z.leb_le in E2.
    rewrite S32 in Hs. rewrite L32.
    assert (Hr : - 2 ^ (8 * Z.of_nat 4 - 1) <= v < 2 ^ (8 * Z.of_nat 4 - 1))
      by (change (8 * Z.of_nat 4 - 1) with 31; lia).
    split; [exact (le_roundtrip 4 v zl p zl' ltac:(lia) Hr Hs)|].
    split; [exact (storen_length _ _ _ _ Hs)|].
    intros i Hi. apply (load_storen_other _ _ _ _ _ Hs).
    unfold size. rewrite length_le_bytes. exact Hi. }
  rewrite S64 in Hs. rewrite L64.
  assert (Hr : - 2 ^ (8 * Z.of_nat 8 - 1) <= v < 2 ^ (8 * Z.of_nat 8 - 1))
      by (change (8 * Z.of_nat 8 - 1) with 63; lia).
    split; [exact (le_roundtrip 8 v zl p zl' ltac:(lia) Hr Hs)|].
  split; [exact (storen_length _ _ _ _ Hs)|].
  intros i Hi. apply (load_storen_other _ _ _ _ _ Hs).
  unfold size. rewrite length_le_bytes. exact Hi.
Qed.

Lemma zipTryEncoding_save_load_witness :
  zipTryEncoding [45; 51; 48; 48] = Some (-300, ZIP_INT_16B)
  /\ zipSaveInteger true [0; 0; 0; 0] 1 (-300) ZIP_INT_16B = Some [0; 212; 254; 0]
  /\ zipLoadInteger true [0; 212; 254; 0] 1 ZIP_INT_16B = Some (-300).
Proof.
  split; [reflexivity|]. split; [reflexivity|].
  apply (zipTryEncoding_save_load true [0; 0; 0; 0] 1 [45; 51; 48; 48] (-300)
           ZIP_INT_16B [0; 212; 254; 0]); [reflexivity | lia | reflexivity].
Defined.

(** *** The layout of a packed list *)

Lemma size_app (a b : list Z) : size (a ++ b) = size a + size b.
Proof. unfold size. rewrite length_app. lia. Qed.

Lemma size_cons x (a : list Z) : size (x :: a) = 1 + size a.
Proof. unfold size. cbn [length]. lia. Qed.

Lemma size_nil : size [] = 0.
Proof. reflexivity. Qed.

Lemma size_nonneg (a : list Z) : 0 <= size a.
Proof. unfold size. lia. Qed.

Lemma size_le_bytes w v : size (le_bytes w v) = Z.of_nat w.
Proof. unfold size. now rewrite length_le_bytes. Qed.

Lemma size_replicate n (x : Z) : size (replicate n x) = Z.of_nat n.
Proof. unfold size. now rewrite length_replicate. Qed.

Lemma size_take_le n (a : list Z) : 0 <= n <= size a -> size (take (Z.to_nat n) a) = n.
Proof. unfold size. intros H. rewrite length_take. lia. Qed.

Lemma size_drop_le n (a : list Z) : 0 <= n <= size a -> size (drop (Z.to_nat n) a) = size a - n.
Proof. unfold size. intros H. rewrite length_drop. lia. Qed.

Ltac zsize :=
  repeat (rewrite ?size_app, ?size_cons, ?size_nil, ?size_le_bytes, ?size_replicate in * );
  try lia.
Ltac zapp := repeat rewrite <- app_assoc; cbn [app]; try reflexivity.

Lemma load_split zl q A x C : zl = A ++ x :: C -> q = size A -> load zl q = Some x.
Proof.
  intros -> ->. unfold load, size.
  destruct (Z.ltb_spec (Z.of_nat (length A)) 0); [lia|].
  rewrite Nat2Z.id. apply list_lookup_middle. reflexivity.
Qed.

Lemma loadn_split zl q n A B C :
  zl = A ++ B ++ C -> q = size A -> n = size B -> loadn zl q n = Some B.
Proof.
  intros -> -> ->. unfold loadn, size. rewrite !length_app.
  replace ((0 <=? Z.of_nat (length A)) && (0 <=? Z.of_nat (length B))
           && (Z.of_nat (length A) + Z.of_nat (length B)
               <=? Z.of_nat (length A + (length B + length C))))
    with true by (symmetry; rewrite !andb_true_iff, !Z.leb_le; lia).
  rewrite !Nat2Z.id. rewrite drop_app_length. now rewrite take_app_length.
Qed.

Lemma storen_split zl q bs A B C :
  zl = A ++ B ++ C -> q = size A -> size bs = size B ->
  storen zl q bs = Some (A ++ bs ++ C).
Proof.
  intros -> -> Hb. unfold storen, size in *. rewrite !length_app.
  replace ((0 <=? Z.of_nat (length A))
           && (Z.of_nat (length A) + Z.of_nat (length bs)
               <=? Z.of_nat (length A + (length B + length C))))
    with true by (symmetry; rewrite !andb_true_iff, !Z.leb_le; lia).
  rewrite !Nat2Z.id. rewrite take_app_length.
  replace (length bs) with (length B) by lia.
  rewrite drop_app_add'; [|reflexivity]. now rewrite drop_app_length.
Qed.

Lemma store_split zl q v A x C :
  zl = A ++ x :: C -> q = size A -> store zl q v = Some (A ++ u8 v :: C).
Proof.
  intros -> ->. unfold store, size. rewrite length_app. cbn [length].
  replace ((0 <=? Z.of_nat (length A))
           && (Z.of_nat (length A) <? Z.of_nat (length A + S (length C))))
    with true by (symmetry; rewrite andb_true_iff, Z.leb_le, Z.ltb_lt; lia).
  rewrite Nat2Z.id. f_equal.
  rewrite insert_app_r_alt by lia. now rewrite Nat.sub_diag.
Qed.

(** [zrealloc] to a larger size appends bytes. *)
Lemma zrealloc_grow (zl : list Z) k :
  0 <= k -> zrealloc zl (size zl + k) = zl ++ replicate (Z.to_nat k) 0.
Proof.
  intros Hk. unfold zrealloc, size.
  rewrite take_ge by lia. f_equal. f_equal. lia.
Qed.

(** Bytes, and the little-endian fields of the header. *)
Definition is_byte (x : Z) : Prop := 0 <= x < 256.

Lemma le_bytes_bytes w : forall v, Forall is_byte (le_bytes w v).
Proof.
  induction w as [|w IH]; intros v; cbn [le_bytes]; constructor; [|apply IH].
  unfold is_byte. apply Z.mod_pos_bound. lia.
Qed.

Lemma le_value_bound bs : Forall is_byte bs -> 0 <= le_value bs < 2 ^ (8 * Z.of_nat (length bs)).
Proof.
  induction 1 as [|x l Hx _ IH]; cbn [le_value length]; [change (2 ^ _) with 1; lia|].
  replace (8 * Z.of_nat (S (length l))) with (8 + 8 * Z.of_nat (length l)) by lia.
  rewrite Z.pow_add_r by lia. change (2 ^ 8) with 256. unfold is_byte in Hx. nia.
Qed.

Lemma le_bytes_le_value bs :
  Forall is_byte bs -> le_bytes (length bs) (le_value bs) = bs.
Proof.
  induction 1 as [|x l Hx _ IH]; cbn [le_value length le_bytes]; [reflexivity|].
  unfold is_byte in Hx.
  replace (x + 256 * le_value l) with (x + le_value l * 256) by ring.
  rewrite Z_mod_plus_full, Z_div_plus_full by lia.
  rewrite Z.mod_small, Z.div_small by lia. rewrite Z.add_0_l. now rewrite IH.
Qed.

Lemma intrev_host be w v :
  intrevifbe be w (host_value be (le_bytes w v)) = v mod 2 ^ (8 * Z.of_nat w).
Proof.
  unfold intrevifbe, host_value. destruct be.
  - pose proof (le_bytes_bytes w v) as Hb. apply Forall_rev in Hb.
    pose proof (le_bytes_le_value _ Hb) as E.
    rewrite length_rev, length_le_bytes in E. rewrite E.
    now rewrite rev_involutive, le_value_bytes.
  - rewrite le_value_bytes. apply Z.mod_mod. apply Z.pow_nonzero; lia.
Qed.

Lemma host_bytes_intrev be w v :
  host_bytes be w (intrevifbe be w v mod 2 ^ (8 * Z.of_nat w)) = le_bytes w v.
Proof.
  unfold host_bytes, intrevifbe. rewrite le_bytes_mod. destruct be.
  - pose proof (le_bytes_bytes w v) as Hb. apply Forall_rev in Hb.
    pose proof (le_bytes_le_value _ Hb) as E.
    rewrite length_rev, length_le_bytes in E. rewrite E.
    apply rev_involutive.
  - apply le_bytes_mod.
Qed.

Lemma host_bytes_intrev32 be v : host_bytes be 4 (u32 (intrev32ifbe be v)) = le_bytes 4 v.
Proof. exact (host_bytes_intrev be 4 v). Qed.

Lemma host_bytes_intrev16 be v : host_bytes be 2 (u16 (intrev16ifbe be v)) = le_bytes 2 v.
Proof. exact (host_bytes_intrev be 2 v). Qed.

Lemma le_bytes_u32 v : le_bytes 4 (u32 v) = le_bytes 4 v.
Proof. exact (le_bytes_mod 4 v). Qed.

Lemma le_bytes_u16 v : le_bytes 2 (u16 v) = le_bytes 2 v.
Proof. exact (le_bytes_mod 2 v). Qed.

(** The header: total bytes, offset of the last entry, number of entries. *)
Definition hdr (bytes tail count : Z) : list Z :=
  le_bytes 4 bytes ++ le_bytes 4 tail ++ le_bytes 2 count.

Lemma size_hdr b t c : size (hdr b t c) = 10.
Proof. unfold hdr. zsize. Qed.

Section Header.
Variable be : bool.

Lemma hdr_bytes b t c R :
  exists x, ZIPLIST_BYTES be (hdr b t c ++ R) = Some x /\ intrev32ifbe be x = u32 b.
Proof.
  exists (host_value be (le_bytes 4 b)). split.
  - unfold ZIPLIST_BYTES, get_u32.
    rewrite (loadn_split _ 0 4 [] (le_bytes 4 b) (le_bytes 4 t ++ le_bytes 2 c ++ R));
      [reflexivity|unfold hdr; zapp|reflexivity|zsize].
  - apply (intrev_host be 4).
Qed.

Lemma hdr_tail b t c R :
  exists x, ZIPLIST_TAIL_OFFSET be (hdr b t c ++ R) = Some x /\ intrev32ifbe be x = u32 t.
Proof.
  exists (host_value be (le_bytes 4 t)). split.
  - unfold ZIPLIST_TAIL_OFFSET, get_u32.
    rewrite (loadn_split _ 4 4 (le_bytes 4 b) (le_bytes 4 t) (le_bytes 2 c ++ R));
      [reflexivity|unfold hdr; zapp|zsize|zsize].
  - apply (intrev_host be 4).
Qed.

Lemma hdr_count b t c R :
  exists x, ZIPLIST_LENGTH be (hdr b t c ++ R) = Some x /\ intrev16ifbe be x = u16 c
            /\ (0 <= c < 65535 -> x < 65535).
Proof.
  exists (host_value be (le_bytes 2 c)). split; [|split].
  - unfold ZIPLIST_LENGTH, get_u16.
    rewrite (loadn_split _ 8 2 (le_bytes 4 b ++ le_bytes 4 t) (le_bytes 2 c) R);
      [reflexivity|unfold hdr; zapp|zsize|zsize].
  - apply (intrev_host be 2).
  - intros Hc. unfold host_value. cbn [le_bytes rev app le_value].
    pose proof (Z.mod_pos_bound c 256 ltac:(lia)).
    pose proof (Z.mod_pos_bound (c / 256) 256 ltac:(lia)).
    pose proof (Z.div_mod c 256 ltac:(lia)).
    assert (c / 256 < 256) by (apply Z.div_lt_upper_bound; lia).
    rewrite (Z.mod_small (c / 256)) by (split; [apply Z.div_pos|]; lia).
    destruct be; cbn [le_value]; lia.
Qed.

Lemma set_hdr_bytes b t c R v :
  set_ZIPLIST_BYTES be (hdr b t c ++ R) (intrev32ifbe be v) = Some (hdr v t c ++ R).
Proof.
  unfold set_ZIPLIST_BYTES, set_u32. rewrite host_bytes_intrev32.
  rewrite (storen_split _ 0 _ [] (le_bytes 4 b) (le_bytes 4 t ++ le_bytes 2 c ++ R));
    [unfold hdr; cbn [app]; f_equal; zapp|unfold hdr; zapp|reflexivity|zsize].
Qed.

Lemma set_hdr_tail b t c R v :
  set_ZIPLIST_TAIL_OFFSET be (hdr b t c ++ R) (intrev32ifbe be v) = Some (hdr b v c ++ R).
Proof.
  unfold set_ZIPLIST_TAIL_OFFSET, set_u32. rewrite host_bytes_intrev32.
  rewrite (storen_split _ 4 _ (le_bytes 4 b) (le_bytes 4 t) (le_bytes 2 c ++ R));
    [unfold hdr; f_equal; zapp|unfold hdr; zapp|zsize|zsize].
Qed.

Lemma set_hdr_count b t c R v :
  set_ZIPLIST_LENGTH be (hdr b t c ++ R) (intrev16ifbe be v) = Some (hdr b t v ++ R).
Proof.
  unfold set_ZIPLIST_LENGTH, set_u16. rewrite host_bytes_intrev16.
  rewrite (storen_split _ 8 _ (le_bytes 4 b ++ le_bytes 4 t) (le_bytes 2 c) R);
    [unfold hdr; f_equal; zapp|unfold hdr; zapp|zsize|zsize].
Qed.

Lemma hdr_u32_bytes b t c : hdr (u32 b) t c = hdr b t c.
Proof. unfold hdr. now rewrite le_bytes_u32. Qed.

Lemma hdr_u32_tail b t c : hdr b (u32 t) c = hdr b t c.
Proof. unfold hdr. now rewrite le_bytes_u32. Qed.

Lemma hdr_u16_count b t c : hdr b t (u16 c) = hdr b t c.
Proof. unfold hdr. now rewrite le_bytes_u16. Qed.

(** [ZIPLIST_INCR_LENGTH] below the saturation of the count field. *)
Lemma incr_hdr_count b t c R incr :
  0 <= c < 65535 ->
  ZIPLIST_INCR_LENGTH be (hdr b t c ++ R) incr = Some (hdr b t (c + incr) ++ R).
Proof.
  intros Hc. unfold ZIPLIST_INCR_LENGTH.
  destruct (hdr_count b t c R) as (x & -> & Hx & Hlt). cbn [mbind option_bind].
  unfold UINT16_MAX. destruct (Z.ltb_spec x 65535) as [_|Hge]; [|specialize (Hlt Hc); lia].
  rewrite set_hdr_count, hdr_u16_count, Hx.
  unfold u16. now rewrite Z.mod_small by lia.
Qed.

End Header.

(** The [prev_entry_length] field of an entry whose predecessor has [pl]
    bytes, in the width [zipPrevEncodeLength] chooses. *)
Definition prev_field (pl : Z) : list Z :=
  if pl <? ZIP_BIGLEN then [pl] else ZIP_BIGLEN :: le_bytes 4 pl.

Definition prev_width (pl : Z) : Z := if pl <? ZIP_BIGLEN then 1 else 5.

Lemma size_prev_field pl : size (prev_field pl) = prev_width pl.
Proof. unfold prev_field, prev_width. destruct (_ <? _); zsize. Qed.

Lemma prev_width_cases pl : prev_width pl = 1 \/ prev_width pl = 5.
Proof. unfold prev_width. destruct (_ <? _); auto. Qed.

Lemma prev_field_head pl : 0 <= pl -> exists x F, prev_field pl = x :: F /\ x <> ZIP_END.
Proof.
  intros Hp. unfold prev_field, ZIP_BIGLEN, ZIP_END.
  destruct (Z.ltb_spec pl 254); eexists _, _; (split; [reflexivity|lia]).
Qed.

(** The field in either width: one byte, or the marker 254 and four bytes,
    which [zipPrevEncodeLengthForceLarge] leaves also for a length below
    254. *)
Definition field (w : bool) (pl : Z) : list Z :=
  if w then ZIP_BIGLEN :: le_bytes 4 pl else [pl].

Definition fwidth (w : bool) : Z := if w then 5 else 1.

Definition wide_of (pl : Z) : bool := negb (pl <? ZIP_BIGLEN).

(** A one-byte field holds a length below 254. *)
Definition field_ok (w : bool) (pl : Z) : Prop := w = false -> pl < ZIP_BIGLEN.

Lemma prev_field_field pl : prev_field pl = field (wide_of pl) pl.
Proof. unfold prev_field, field, wide_of. now destruct (_ <? _). Qed.

Lemma prev_width_fwidth pl : prev_width pl = fwidth (wide_of pl).
Proof. unfold prev_width, fwidth, wide_of. now destruct (_ <? _). Qed.

Lemma field_ok_wide_of pl : field_ok (wide_of pl) pl.
Proof.
  unfold field_ok, wide_of. destruct (Z.ltb_spec pl ZIP_BIGLEN); [auto|discriminate].
Qed.

Lemma size_field w pl : size (field w pl) = fwidth w.
Proof. unfold field, fwidth. destruct w; zsize. Qed.

Lemma fwidth_cases w : fwidth w = 1 \/ fwidth w = 5.
Proof. destruct w; auto. Qed.

Lemma field_head w pl :
  0 <= pl -> field_ok w pl -> exists x F, field w pl = x :: F /\ x <> ZIP_END.
Proof.
  intros Hp Hok. unfold field, field_ok, ZIP_BIGLEN, ZIP_END in *.
  destruct w; eexists _, _; (split; [reflexivity|]); [lia|].
  specialize (Hok eq_refl). lia.
Qed.

Section Codec.
Variable be : bool.

Lemma zipPrevEncodeLength_null zl pl :
  zipPrevEncodeLength be zl None pl = Some (zl, prev_width pl).
Proof. reflexivity. Qed.

Lemma zipPrevEncodeLength_wide zl q pl :
  ZIP_BIGLEN <= pl ->
  zipPrevEncodeLength be zl (Some q) pl
  = (zl3 ← storen zl q (ZIP_BIGLEN :: le_bytes 4 pl); Some (zl3, 5)).
Proof.
  intros Hp. rewrite <- le_bytes_u32, <- (zipPrevEncodeLengthForceLarge_bytes be).
  unfold zipPrevEncodeLength, zipPrevEncodeLengthForceLarge.
  destruct (Z.ltb_spec pl ZIP_BIGLEN); [lia|].
  destruct (store zl q ZIP_BIGLEN) as [zl1|]; cbn [mbind option_bind]; [|reflexivity].
  destruct (storen zl1 _ _) as [zl2|]; cbn [mbind option_bind]; [|reflexivity].
  destruct (loadn zl2 _ _) as [bs|]; cbn [mbind option_bind]; [|reflexivity].
  destruct (storen zl2 _ _) as [zl3|]; reflexivity.
Qed.

(** Writing the field over as many bytes. *)
Lemma encode_prev zl q A B C pl :
  zl = A ++ B ++ C -> q = size A -> size B = prev_width pl -> 0 <= pl ->
  zipPrevEncodeLength be zl (Some q) pl = Some (A ++ prev_field pl ++ C, prev_width pl).
Proof.
  intros Hz Hq Hb Hp. unfold prev_field, prev_width in *.
  destruct (Z.ltb_spec pl ZIP_BIGLEN) as [Hs|Hw].
  - unfold zipPrevEncodeLength. destruct (Z.ltb_spec pl ZIP_BIGLEN); [|lia].
    destruct B as [|x [|y B]]; unfold size in Hb; cbn [length] in Hb; try lia.
    rewrite (store_split zl q pl A x C Hz Hq). cbn [mbind option_bind app].
    unfold u8. unfold ZIP_BIGLEN in Hs. now rewrite Z.mod_small by lia.
  - rewrite zipPrevEncodeLength_wide by exact Hw.
    rewrite (storen_split zl q _ A B C Hz Hq); [reflexivity|]. zsize.
Qed.

Lemma encode_force zl q A B C pl :
  zl = A ++ B ++ C -> q = size A -> size B = 5 -> 0 <= pl < 2^32 ->
  zipPrevEncodeLengthForceLarge be zl (Some q) pl = Some (A ++ field true pl ++ C).
Proof.
  intros Hz Hq Hb Hp. rewrite zipPrevEncodeLengthForceLarge_bytes.
  unfold u32. rewrite Z.mod_small by lia.
  apply (storen_split zl q _ A B C Hz Hq). zsize.
Qed.

Lemma decode_prevsize zl q A C w pl :
  zl = A ++ field w pl ++ C -> q = size A -> 0 <= pl -> field_ok w pl ->
  ZIP_DECODE_PREVLENSIZE zl q = Some (fwidth w).
Proof.
  intros Hz Hq Hp Hok. unfold ZIP_DECODE_PREVLENSIZE, field, fwidth, field_ok in *.
  destruct w.
  - rewrite (load_split zl q A ZIP_BIGLEN (le_bytes 4 pl ++ C)) by (subst; zapp).
    reflexivity.
  - specialize (Hok eq_refl).
    rewrite (load_split zl q A pl C) by (subst; zapp). cbn [mbind option_bind].
    destruct (Z.ltb_spec pl ZIP_BIGLEN); [reflexivity|lia].
Qed.

Lemma decode_prev zl q A C w pl :
  zl = A ++ field w pl ++ C -> q = size A -> 0 <= pl < 2^32 -> field_ok w pl ->
  ZIP_DECODE_PREVLEN be zl q = Some (fwidth w, pl).
Proof.
  intros Hz Hq Hp Hok. unfold ZIP_DECODE_PREVLEN.
  rewrite (decode_prevsize zl q A C w pl Hz Hq) by (lia || assumption).
  cbn [mbind option_bind]. unfold field, fwidth in *.
  destruct w.
  - change (5 =? 1) with false. cbv iota.
    rewrite (loadn_split zl (q + 1) 4 (A ++ [ZIP_BIGLEN]) (le_bytes 4 pl) C)
      by (subst; zapp; zsize).
    cbn [mbind option_bind]. rewrite host_value_memrevifbe, le_value_bytes.
    change (8 * Z.of_nat 4) with 32. now rewrite Z.mod_small by lia.
  - change (1 =? 1) with true. cbv iota.
    now rewrite (load_split zl q A pl C) by (subst; zapp).
Qed.

(** An entry without its [prev_entry_length] field: the header that
    [ZIP_DECODE_LENGTH] reads as encoding [enc], width [ls] and payload
    length [l], and the payload. *)
Definition decodes (b : list Z) (enc ls l : Z) : Prop :=
  0 < ls /\ 0 <= l /\ ls + l = size b /\ 0 <= enc < 256 /\
  forall zl q A C, zl = A ++ b ++ C -> q = size A ->
                   ZIP_DECODE_LENGTH zl q = Some (enc, ls, l).

Lemma zipEntry_at zl q A w pl b C enc ls l :
  zl = A ++ field w pl ++ b ++ C -> q = size A -> 0 <= pl < 2^32 -> field_ok w pl ->
  decodes b enc ls l -> size b + 5 < 2^32 ->
  zipEntry be zl q
  = Some (mk_zlentry (fwidth w) pl ls l (fwidth w + ls) enc q)
  /\ zipRawEntryLength zl q = Some (fwidth w + size b).
Proof.
  intros Hz Hq Hp Hok (Hls & Hl & Hsz & Henc & Hdec) Hb.
  pose proof (fwidth_cases w) as Hw.
  assert (Hd : ZIP_DECODE_LENGTH zl (q + fwidth w) = Some (enc, ls, l)).
  { apply (Hdec zl _ (A ++ field w pl) C); [subst; zapp|].
    rewrite size_app, size_field. lia. }
  split.
  - unfold zipEntry. rewrite (decode_prev zl q A (b ++ C) w pl Hz Hq Hp Hok).
    cbn [mbind option_bind]. rewrite Hd. cbn [mbind option_bind].
    unfold u32, u8. rewrite !Z.mod_small by lia. reflexivity.
  - unfold zipRawEntryLength.
    rewrite (decode_prevsize zl q A (b ++ C) w pl Hz Hq) by (lia || assumption).
    cbn [mbind option_bind]. rewrite Hd. cbn [mbind option_bind].
    unfold u32. rewrite Z.mod_small by lia. f_equal. lia.
Qed.

End Codec.

(** The payload of an integer entry, as [zipSaveInteger] writes it. *)
Definition int_bytes (v enc : Z) : list Z :=
  if enc =? ZIP_INT_8B then [u8 v]
  else if enc =? ZIP_INT_16B then le_bytes 2 v
  else if enc =? ZIP_INT_24B then drop 1 (le_bytes 4 (Z.shiftl v 8))
  else if enc =? ZIP_INT_32B then le_bytes 4 v
  else if enc =? ZIP_INT_64B then le_bytes 8 v
  else [].

(** What [__ziplistInsert] writes after the [prev_entry_length] field for
    the string [s]: the encoding and length header, and the payload. *)
Definition entry_body (s : list Z) : list Z :=
  match zipTryEncoding s with
  | Some (v, enc) => zipEncodeLength_buf enc (u32 (size s)) ++ int_bytes v enc
  | None => zipEncodeLength_buf 0 (u32 (size s)) ++ s
  end.

(** What [ziplistGet] finds in that entry. *)
Definition entry_value (s : list Z) : zlvalue :=
  match zipTryEncoding s with
  | Some (v, _) => ZInt v
  | None => ZStr s
  end.

Lemma digits_value_nonneg s : forall acc v, 0 <= acc -> digits_value acc s = Some v -> 0 <= v.
Proof.
  induction s as [|c s IH]; intros acc v Ha; cbn [digits_value].
  - intros [= <-]. exact Ha.
  - destruct (_ && _) eqn:E; [|discriminate].
    apply andb_true_iff in E as [E1 E2]. apply Z.leb_le in E1, E2.
    apply IH. lia.
Qed.

Lemma string2ll_range s v : string2ll s = Some v -> - 2^63 <= v < 2^63.
Proof.
  assert (P : forall c s' w, (v' ← digits_value 0 (c :: s');
                              if v' <=? 2^63 - 1 then Some v' else None) = Some w ->
                             - 2^63 <= w < 2^63).
  { intros c s' w H. destruct (digits_value 0 (c :: s')) as [v'|] eqn:E; [|discriminate].
    cbn [mbind option_bind] in H. apply digits_value_nonneg in E; [|lia].
    destruct (Z.leb_spec v' (2^63 - 1)); [|discriminate]. injection H as <-. lia. }
  assert (N : forall c s' w, (v' ← digits_value 0 (c :: s');
                              if v' <=? 2^63 then Some (- v') else None) = Some w ->
                             - 2^63 <= w < 2^63).
  { intros c s' w H. destruct (digits_value 0 (c :: s')) as [v'|] eqn:E; [|discriminate].
    cbn [mbind option_bind] in H. apply digits_value_nonneg in E; [|lia].
    destruct (Z.leb_spec v' (2^63)); [|discriminate]. injection H as <-. lia. }
  unfold string2ll. intros H.
  destruct s as [|c s]; [discriminate|].
  destruct (Z.eq_dec c 48) as [->|H48].
  { destruct s; [injection H as <-; lia|]. discriminate. }
  destruct (Z.eq_dec c 45) as [->|H45].
  { destruct s as [|d s]; [discriminate|].
    destruct (_ && _); [|discriminate]. exact (N _ _ _ H). }
  assert (H' : (if (49 <=? c) && (c <=? 57)
                then v' ← digits_value 0 (c :: s);
                     if v' <=? 2^63 - 1 then Some v' else None
                else None) = Some v).
  { destruct c as [|c|c]; try exact H.
    do 7 (try exact H; try (destruct c as [c|c|])); try exact H; exfalso; lia. }
  destruct (_ && _); [|discriminate]. exact (P _ _ _ H').
Qed.

(** The encodings [zipTryEncoding] chooses, and the range each holds. *)
Definition int_fits (v enc : Z) : Prop :=
  (0 <= v <= 12 /\ enc = ZIP_INT_IMM_MIN + v)
  \/ (- 2^7 <= v < 2^7 /\ enc = ZIP_INT_8B)
  \/ (- 2^15 <= v < 2^15 /\ enc = ZIP_INT_16B)
  \/ (- 2^23 <= v < 2^23 /\ enc = ZIP_INT_24B)
  \/ (- 2^31 <= v < 2^31 /\ enc = ZIP_INT_32B)
  \/ (- 2^63 <= v < 2^63 /\ enc = ZIP_INT_64B).

Lemma zipTryEncoding_fits s v enc : zipTryEncoding s = Some (v, enc) -> int_fits v enc.
Proof.
  unfold zipTryEncoding. destruct (_ || _); [discriminate|].
  destruct (string2ll s) as [value|] eqn:E; [|discriminate].
  apply string2ll_range in E. intros H. injection H as -> <-.
  unfold int_fits, INT8_MIN, INT8_MAX, INT16_MIN, INT16_MAX, INT24_MIN, INT24_MAX,
    INT32_MIN, INT32_MAX, ZIP_INT_IMM_MIN.
  destruct ((v >=? 0) && (v <=? 12)) eqn:E0.
  { apply andb_true_iff in E0 as [E1 E2]. apply Z.geb_le in E1. apply Z.leb_le in E2.
    left. split; [lia|]. unfold u8. apply Z.mod_small. lia. }
  destruct ((v >=? -128) && (v <=? 127)) eqn:E8.
  { apply andb_true_iff in E8 as [E1 E2]. apply Z.geb_le in E1. apply Z.leb_le in E2.
    right. left. split; [lia|reflexivity]. }
  destruct ((v >=? -32768) && (v <=? 32767)) eqn:E16.
  { apply andb_true_iff in E16 as [E1 E2]. apply Z.geb_le in E1. apply Z.leb_le in E2.
    right. right. left. split; [lia|reflexivity]. }
  match goal with
  | |- context [if ?c then ZIP_INT_24B else _] => destruct c eqn:E24
  end.
  { apply andb_true_iff in E24 as [E1 E2]. apply Z.geb_le in E1. apply Z.leb_le in E2.
    right. right. right. left. split; [lia|reflexivity]. }
  destruct ((v >=? -2147483648) && (v <=? 2147483647)) eqn:E32.
  { apply andb_true_iff in E32 as [E1 E2]. apply Z.geb_le in E1. apply Z.leb_le in E2.
    right. right. right. right. left. split; [lia|reflexivity]. }
  do 5 right. split; [lia|reflexivity].
Qed.

Lemma int_fits_enc v enc :
  int_fits v enc ->
  192 <= enc < 255 /\ ZIP_IS_STR enc = false /\ size (int_bytes v enc) = zipIntSize enc
  /\ (forall n, zipEncodeLength_buf enc n = [enc]).
Proof.
  unfold int_fits, ZIP_INT_IMM_MIN.
  intros [[Hv ->]|[[Hv ->]|[[Hv ->]|[[Hv ->]|[[Hv ->]|[Hv ->]]]]]].
  2-6: (split; [vm_compute; split; [discriminate|reflexivity]|]);
       (split; [reflexivity|]); (split; [|reflexivity]);
       unfold int_bytes; cbn; zsize; unfold size; rewrite ?length_drop, ?length_le_bytes;
       reflexivity.
  split; [lia|].
  assert (Hr : 0 <= 241 + v < 256) by lia.
  rewrite (byte_is_str _ Hr). split; [apply Z.ltb_ge; lia|].
  destruct (zip_imm_codec false [] 0 v (241 + v) ltac:(lia)) as (_ & _ & Hz).
  split.
  - rewrite Hz. unfold int_bytes.
    change ZIP_INT_8B with 254. change ZIP_INT_16B with 192. change ZIP_INT_24B with 240.
    change ZIP_INT_32B with 208. change ZIP_INT_64B with 224.
    destruct (Z.eqb_spec (241 + v) 254); [lia|]. destruct (Z.eqb_spec (241 + v) 192); [lia|].
    destruct (Z.eqb_spec (241 + v) 240); [lia|]. destruct (Z.eqb_spec (241 + v) 208); [lia|].
    destruct (Z.eqb_spec (241 + v) 224); [lia|]. reflexivity.
  - intros n. unfold zipEncodeLength_buf. rewrite (byte_is_str _ Hr).
    destruct (Z.ltb_spec (241 + v) 192); [lia|]. unfold u8. now rewrite Z.mod_small by lia.
Qed.

Lemma u8_sint8 v : u8 (sint 8 v) = u8 v.
Proof.
  unfold u8, sint. cbv zeta. change (2 ^ 8) with 256. change (2 ^ (8 - 1)) with 128.
  destruct (_ <? _).
  - apply Z.mod_mod. lia.
  - replace (v mod 256 - 256) with (v mod 256 + (-1) * 256) by ring.
    rewrite Z_mod_plus_full. apply Z.mod_mod. lia.
Qed.

Section Body.
Variable be : bool.

Lemma save_int zl q A B C v enc :
  zl = A ++ B ++ C -> q = size A -> int_fits v enc -> size B = zipIntSize enc ->
  zipSaveInteger be zl q v enc = Some (A ++ int_bytes v enc ++ C).
Proof.
  intros Hz Hq Hf Hb.
  destruct (zipSaveInteger_le be zl q v) as (S16 & S32 & S64).
  destruct Hf as [[Hv ->]|[[Hv ->]|[[Hv ->]|[[Hv ->]|[[Hv ->]|[Hv ->]]]]]].
  - unfold ZIP_INT_IMM_MIN in *.
    destruct (zip_imm_codec be zl q v (241 + v) ltac:(lia)) as (-> & _ & Hsz).
    rewrite Hsz in Hb. destruct B; [|unfold size in Hb; cbn [length] in Hb; lia].
    destruct (int_fits_enc v (241 + v)) as (_ & _ & Hi & _);
      [left; unfold ZIP_INT_IMM_MIN; lia|].
    rewrite Hsz in Hi. destruct (int_bytes v (241 + v));
      [|unfold size in Hi; cbn [length] in Hi; lia].
    now subst zl.
  - change (zipIntSize ZIP_INT_8B) with 1 in Hb.
    destruct B as [|x [|y B]]; unfold size in Hb; cbn [length] in Hb; try lia.
    unfold zipSaveInteger. change (ZIP_INT_8B =? ZIP_INT_8B) with true. cbv iota.
    rewrite (store_split zl q _ A x C Hz Hq), u8_sint8. reflexivity.
  - rewrite S16. apply (storen_split zl q _ A B C Hz Hq). now rewrite Hb, size_le_bytes.
  - rewrite zipSaveInteger_24B. apply (storen_split zl q _ A B C Hz Hq).
    rewrite Hb. unfold size. now rewrite length_drop, length_le_bytes.
  - rewrite S32. apply (storen_split zl q _ A B C Hz Hq). now rewrite Hb, size_le_bytes.
  - rewrite S64. apply (storen_split zl q _ A B C Hz Hq). now rewrite Hb, size_le_bytes.
Qed.

Lemma load_int zl q A C v enc :
  zl = A ++ int_bytes v enc ++ C -> q = size A -> int_fits v enc ->
  zipLoadInteger be zl q enc = Some v.
Proof.
  intros Hz Hq Hf.
  assert (Hst : storen zl q (int_bytes v enc) = Some zl).
  { rewrite (storen_split zl q _ A (int_bytes v enc) C Hz Hq eq_refl). now subst zl. }
  destruct (zipLoadInteger_le be zl q) as (L16 & L32 & L64).
  destruct Hf as [[Hv ->]|[[Hv ->]|[[Hv ->]|[[Hv ->]|[[Hv ->]|[Hv ->]]]]]].
  - unfold ZIP_INT_IMM_MIN in *.
    destruct (zip_imm_codec be zl q v (241 + v) ltac:(lia)) as (_ & -> & _).
    change ZIP_INT_IMM_MASK with 15. now rewrite zip_imm_value by lia.
  - unfold zipLoadInteger. change (ZIP_INT_8B =? ZIP_INT_8B) with true. cbv iota.
    rewrite (load_split zl q A (u8 v) C Hz Hq). cbn [mbind option_bind].
    f_equal. unfold u8. rewrite (sint_mod 8). apply sint_small; lia.
  - rewrite L16. apply (le_roundtrip 2 v zl q zl); [lia| |exact Hst].
    change (8 * Z.of_nat 2 - 1) with 15. lia.
  - apply (zip_24B_roundtrip be zl q v zl); [unfold INT24_MIN, INT24_MAX; lia|].
    now rewrite zipSaveInteger_24B.
  - rewrite L32. apply (le_roundtrip 4 v zl q zl); [lia| |exact Hst].
    change (8 * Z.of_nat 4 - 1) with 31. lia.
  - rewrite L64. apply (le_roundtrip 8 v zl q zl); [lia| |exact Hst].
    change (8 * Z.of_nat 8 - 1) with 63. lia.
Qed.

End Body.

(** The header of a string of [n] bytes. *)
Definition str_enc (n : Z) : Z :=
  if n <=? 0x3f then ZIP_STR_06B else if n <=? 0x3fff then ZIP_STR_14B else ZIP_STR_32B.

Definition str_width (n : Z) : Z :=
  if n <=? 0x3f then 1 else if n <=? 0x3fff then 2 else 5.

Lemma size_str_header n : size (zipEncodeLength_buf 0 n) = str_width n.
Proof.
  unfold zipEncodeLength_buf, str_width. change (ZIP_IS_STR 0) with true. cbv iota.
  destruct (_ <=? _); [reflexivity|]. destruct (_ <=? _); reflexivity.
Qed.

Lemma decode_str_header zl q A C n :
  zl = A ++ zipEncodeLength_buf 0 n ++ C -> q = size A -> 0 <= n < 2^32 ->
  ZIP_DECODE_LENGTH zl q = Some (str_enc n, str_width n, n).
Proof.
  intros Hz Hq Hn.
  unfold zipEncodeLength_buf, str_enc, str_width in *.
  change (ZIP_IS_STR 0) with true in Hz. cbv iota in Hz.
  unfold ZIP_DECODE_LENGTH, ZIP_ENTRY_ENCODING.
  destruct (Z.leb_spec n 0x3f) as [H6|H6].
  - destruct (low6_bits n ltac:(lia)) as (L1 & L2 & _).
    change (Z.lor ZIP_STR_06B n) with (Z.lor 0 n) in Hz.
    rewrite Z.lor_0_l in Hz. unfold u8 in Hz. rewrite Z.mod_small in Hz by lia.
    rewrite (load_split zl q A n C) by (subst; zapp).
    cbn [mbind option_bind]. unfold ZIP_STR_MASK.
    destruct (Z.ltb_spec n 192); [|lia]. rewrite L2.
    change (0 <? 192) with true. change (0 =? ZIP_STR_06B) with true. cbv iota.
    now rewrite L1.
  - destruct (Z.leb_spec n 0x3fff) as [H14|H14].
    + assert (Hhi : 0 <= n / 2^8 < 64).
      { split; [apply Z.div_pos; lia|apply Z.div_lt_upper_bound; lia]. }
      destruct (low6_bits (n / 2^8) Hhi) as (L1 & _ & L3 & L4 & L5).
      rewrite Z.shiftr_div_pow2, L1 in Hz by lia.
      change ZIP_STR_14B with 0x40 in Hz. rewrite L3 in Hz.
      unfold u8 in Hz at 1. rewrite Z.mod_small in Hz by lia.
      pose proof (byte_of_shift n 0 ltac:(lia)) as Hb.
      rewrite Z.shiftr_0_r in Hb. rewrite Hb in Hz.
      change (2 ^ 0) with 1 in Hz. rewrite Z.div_1_r in Hz.
      rewrite (load_split zl q A (64 + n / 2^8) (n mod 256 :: C)) by (subst; zapp).
      cbn [mbind option_bind]. unfold ZIP_STR_MASK.
      destruct (Z.ltb_spec (64 + n / 2 ^ 8) 192); [|lia]. rewrite L4.
      change (64 <? 192) with true. change (64 =? ZIP_STR_06B) with false.
      change (64 =? ZIP_STR_14B) with true. cbv iota.
      rewrite (load_split zl (q + 1) (A ++ [64 + n / 2^8]) (n mod 256) C)
        by (subst; zapp; zsize).
      cbn [mbind option_bind]. rewrite L5.
      pose proof (Z.mod_pos_bound n 256 ltac:(lia)).
      rewrite lor_shiftl_low by lia.
      change ZIP_STR_14B with 64. do 3 f_equal.
      pose proof (Z.div_mod n 256 ltac:(lia)). change (2 ^ 8) with 256. lia.
    + change (u8 ZIP_STR_32B) with 128 in Hz.
      rewrite !byte_of_shift in Hz by lia.
      pose proof (byte_of_shift n 0 ltac:(lia)) as Hb.
      rewrite Z.shiftr_0_r in Hb. rewrite Hb in Hz.
      change (2 ^ 0) with 1 in Hz. rewrite Z.div_1_r in Hz.
      set (b1 := (n / 2^24) mod 256) in *. set (b2 := (n / 2^16) mod 256) in *.
      set (b3 := (n / 2^8) mod 256) in *. set (b4 := n mod 256) in *.
      rewrite (load_split zl q A 128 (b1 :: b2 :: b3 :: b4 :: C)) by (subst zl q; zapp).
      cbn [mbind option_bind].
      change (128 <? ZIP_STR_MASK) with true. cbv iota.
      change (Z.land 128 ZIP_STR_MASK) with 128.
      change (128 <? ZIP_STR_MASK) with true.
      change (128 =? ZIP_STR_06B) with false. change (128 =? ZIP_STR_14B) with false.
      change (128 =? ZIP_STR_32B) with true. cbv iota.
      rewrite (load_split zl (q + 1) (A ++ [128]) b1 (b2 :: b3 :: b4 :: C))
        by (subst zl q; zapp; zsize).
      rewrite (load_split zl (q + 2) (A ++ [128; b1]) b2 (b3 :: b4 :: C))
        by (subst zl q; zapp; zsize).
      rewrite (load_split zl (q + 3) (A ++ [128; b1; b2]) b3 (b4 :: C))
        by (subst zl q; zapp; zsize).
      rewrite (load_split zl (q + 4) (A ++ [128; b1; b2; b3]) b4 C)
        by (subst zl q; zapp; zsize).
      cbn [mbind option_bind]. subst b1 b2 b3 b4.
      rewrite be_bytes_4_value by lia. reflexivity.
Qed.

Definition entry_enc (s : list Z) : Z :=
  match zipTryEncoding s with
  | Some (_, enc) => enc
  | None => str_enc (size s)
  end.

Definition entry_lensize (s : list Z) : Z :=
  match zipTryEncoding s with
  | Some _ => 1
  | None => str_width (size s)
  end.

Definition entry_len (s : list Z) : Z :=
  match zipTryEncoding s with
  | Some (_, enc) => zipIntSize enc
  | None => size s
  end.

Lemma u32_below x : 0 <= x < 2^32 -> u32 x = x.
Proof. intros H. unfold u32. now apply Z.mod_small. Qed.

Lemma str_width_pos n : 0 < str_width n <= 5.
Proof. unfold str_width. destruct (_ <=? _); [lia|]. destruct (_ <=? _); lia. Qed.

Lemma str_enc_cases n : str_enc n = 0 \/ str_enc n = 64 \/ str_enc n = 128.
Proof.
  unfold str_enc. destruct (_ <=? _); [now left|]. destruct (_ <=? _); [right; now left|].
  right; now right.
Qed.

Lemma zipIntSize_bound enc : 0 <= zipIntSize enc <= 8.
Proof. unfold zipIntSize. repeat (destruct (_ =? _); [lia|]). lia. Qed.

Lemma size_entry_body s :
  size s < 2^32 -> size (entry_body s) = entry_lensize s + entry_len s.
Proof.
  intros Hs. pose proof (size_nonneg s).
  unfold entry_body, entry_lensize, entry_len.
  destruct (zipTryEncoding s) as [[v enc]|] eqn:E.
  - apply zipTryEncoding_fits in E. destruct (int_fits_enc v enc E) as (_ & _ & Hsz & Hb).
    rewrite Hb, size_app, Hsz. reflexivity.
  - rewrite u32_below by lia. now rewrite size_app, size_str_header.
Qed.

Lemma entry_decodes s :
  size s < 2^32 ->
  decodes (entry_body s) (entry_enc s) (entry_lensize s) (entry_len s).
Proof.
  intros Hs. pose proof (size_nonneg s) as Hs0.
  pose proof (size_entry_body s Hs) as Hsz.
  unfold decodes. rewrite Hsz. clear Hsz.
  unfold entry_body, entry_enc, entry_lensize, entry_len.
  destruct (zipTryEncoding s) as [[v enc]|] eqn:E.
  - apply zipTryEncoding_fits in E. destruct (int_fits_enc v enc E) as (He & _ & _ & Hb).
    pose proof (zipIntSize_bound enc).
    split; [lia|]. split; [lia|]. split; [reflexivity|]. split; [lia|].
    intros zl q A C Hz Hq. rewrite Hb in Hz.
    unfold ZIP_DECODE_LENGTH, ZIP_ENTRY_ENCODING.
    rewrite (load_split zl q A enc (int_bytes v enc ++ C)) by (subst; zapp).
    cbn [mbind option_bind]. unfold ZIP_STR_MASK.
    destruct (Z.ltb_spec enc 192) as [|_]; [lia|].
    destruct (Z.ltb_spec enc 192); [lia|]. reflexivity.
  - pose proof (str_width_pos (size s)).
    split; [lia|]. split; [lia|]. split; [reflexivity|].
    split; [destruct (str_enc_cases (size s)) as [->|[->| ->]]; lia|].
    intros zl q A C Hz Hq. rewrite u32_below in Hz by lia.
    apply (decode_str_header zl q A (s ++ C)); [subst; zapp|exact Hq|lia].
Qed.

Lemma entry_enc_is_str s :
  ZIP_IS_STR (entry_enc s) = match zipTryEncoding s with Some _ => false | None => true end.
Proof.
  unfold entry_enc. destruct (zipTryEncoding s) as [[v enc]|] eqn:E.
  - apply zipTryEncoding_fits in E. now destruct (int_fits_enc v enc E) as (_ & -> & _).
  - now destruct (str_enc_cases (size s)) as [->|[->| ->]].
Qed.

(** What [ziplistCompare] answers for the entry of [s] and a string. *)
Definition entry_eqb (s sstr : list Z) : bool :=
  match zipTryEncoding s with
  | None => if size s =? size sstr then bool_decide (s = sstr) else false
  | Some (v, _) =>
      match zipTryEncoding sstr with
      | Some (sval, _) => v =? sval
      | None => false
      end
  end.

Section Access.
Variable be : bool.

Lemma entry_at zl q A w pl s C :
  zl = A ++ field w pl ++ entry_body s ++ C -> q = size A -> 0 <= pl < 2^32 ->
  field_ok w pl -> size s + 16 < 2^32 ->
  load zl q <> Some ZIP_END /\ (exists x, load zl q = Some x)
  /\ zipEntry be zl q
     = Some (mk_zlentry (fwidth w) pl (entry_lensize s) (entry_len s)
                        (fwidth w + entry_lensize s) (entry_enc s) q)
  /\ zipRawEntryLength zl q = Some (fwidth w + size (entry_body s)).
Proof.
  intros Hz Hq Hp Hok Hs. pose proof (size_nonneg s) as Hs0.
  destruct (field_head w pl ltac:(lia) Hok) as (x & F & HF & Hx).
  assert (Hl : load zl q = Some x).
  { apply (load_split zl q A x (F ++ entry_body s ++ C)); [|exact Hq].
    subst zl. rewrite HF. zapp. }
  split; [rewrite Hl; congruence|]. split; [eauto|].
  apply (zipEntry_at be zl q A w pl (entry_body s) C); try assumption.
  - apply entry_decodes. lia.
  - rewrite size_entry_body by lia.
    pose proof (str_width_pos (size s)). pose proof (zipIntSize_bound 0).
    unfold entry_lensize, entry_len. destruct (zipTryEncoding s) as [[v e]|]; [|lia].
    pose proof (zipIntSize_bound e). lia.
Qed.

Lemma ziplistGet_at zl q A w pl s C :
  zl = A ++ field w pl ++ entry_body s ++ C -> q = size A -> 0 <= pl < 2^32 ->
  field_ok w pl -> size s + 16 < 2^32 ->
  ziplistGet be zl (Some q) = Some (Some (entry_value s)).
Proof.
  intros Hz Hq Hp Hok Hs. pose proof (size_nonneg s) as Hs0.
  destruct (entry_at zl q A w pl s C Hz Hq Hp Hok Hs) as (Hne & (x & Hx) & He & _).
  unfold ziplistGet. rewrite Hx. cbn [mbind option_bind].
  destruct (Z.eqb_spec x ZIP_END) as [->|_]; [congruence|].
  rewrite He. cbn [mbind option_bind encoding headersize len].
  rewrite entry_enc_is_str.
  assert (Hq' : q + (fwidth w + entry_lensize s)
                = size (A ++ field w pl) + entry_lensize s).
  { rewrite size_app, size_field. lia. }
  unfold entry_value, entry_body, entry_lensize, entry_len, entry_enc in *.
  destruct (zipTryEncoding s) as [[v enc]|] eqn:E.
  - apply zipTryEncoding_fits in E. destruct (int_fits_enc v enc E) as (_ & _ & _ & Hb).
    rewrite Hb in Hz.
    rewrite (load_int be zl _ (A ++ field w pl ++ [enc]) C v enc);
      [reflexivity|subst zl; zapp|rewrite Hq'; zsize|exact E].
  - rewrite u32_below in Hz by lia.
    rewrite (loadn_split zl _ _ (A ++ field w pl ++ zipEncodeLength_buf 0 (size s)) s C);
      [reflexivity|subst zl; zapp| |reflexivity].
    rewrite Hq', !size_app, size_str_header. lia.
Qed.

Lemma ziplistCompare_at zl q A w pl s C sstr :
  zl = A ++ field w pl ++ entry_body s ++ C -> q = size A -> 0 <= pl < 2^32 ->
  field_ok w pl -> size s + 16 < 2^32 ->
  ziplistCompare be zl q sstr = Some (entry_eqb s sstr).
Proof.
  intros Hz Hq Hp Hok Hs. pose proof (size_nonneg s) as Hs0.
  destruct (entry_at zl q A w pl s C Hz Hq Hp Hok Hs) as (Hne & (x & Hx) & He & _).
  unfold ziplistCompare. rewrite Hx. cbn [mbind option_bind].
  destruct (Z.eqb_spec x ZIP_END) as [->|_]; [congruence|].
  rewrite He. cbn [mbind option_bind encoding headersize len].
  rewrite entry_enc_is_str.
  assert (Hq' : q + (fwidth w + entry_lensize s)
                = size (A ++ field w pl) + entry_lensize s).
  { rewrite size_app, size_field. lia. }
  unfold entry_eqb, entry_body, entry_lensize, entry_len, entry_enc in *.
  destruct (zipTryEncoding s) as [[v enc]|] eqn:E.
  - apply zipTryEncoding_fits in E. destruct (int_fits_enc v enc E) as (_ & _ & _ & Hb).
    rewrite Hb in Hz.
    destruct (zipTryEncoding sstr) as [[sval senc]|]; [|reflexivity].
    rewrite (load_int be zl _ (A ++ field w pl ++ [enc]) C v enc);
      [reflexivity|subst zl; zapp|rewrite Hq'; zsize|exact E].
  - rewrite u32_below in Hz by lia.
    destruct (Z.eqb_spec (size s) (size sstr)) as [Heq|]; [|reflexivity].
    rewrite <- Heq.
    rewrite (loadn_split zl _ _ (A ++ field w pl ++ zipEncodeLength_buf 0 (size s)) s C);
      [reflexivity|subst zl; zapp| |reflexivity].
    rewrite Hq', !size_app, size_str_header. lia.
Qed.

End Access.

(** The entries of a packed list: the string of each, and whether its
    [prev_entry_length] field has five bytes.  [entries pl es] are the bytes
    of the entries [es], the first one after an entry of [pl] bytes; a
    one-byte field must hold a length below 254. *)
Definition raw (w : bool) (s : list Z) : Z := fwidth w + size (entry_body s).

Fixpoint entries (pl : Z) (es : list (bool * list Z)) : list Z :=
  match es with
  | [] => []
  | (w, s) :: es' => field w pl ++ entry_body s ++ entries (raw w s) es'
  end.

Fixpoint fields_ok (pl : Z) (es : list (bool * list Z)) : Prop :=
  match es with
  | [] => True
  | (w, s) :: es' => field_ok w pl /\ fields_ok (raw w s) es'
  end.

(** The length of the last entry ([pl] when there is none). *)
Fixpoint last_raw (pl : Z) (es : list (bool * list Z)) : Z :=
  match es with
  | [] => pl
  | (w, s) :: es' => last_raw (raw w s) es'
  end.

Definition tail_of (es : list (bool * list Z)) : Z :=
  match es with
  | [] => ZIPLIST_HEADER_SIZE
  | _ => ZIPLIST_HEADER_SIZE + size (entries 0 es) - last_raw 0 es
  end.

(** The packed list: the header (total size, offset of the last entry,
    number of entries), the entries and the end marker. *)
Definition layout (es : list (bool * list Z)) : list Z :=
  hdr (ZIPLIST_HEADER_SIZE + size (entries 0 es) + 1) (tail_of es) (Z.of_nat (length es))
  ++ entries 0 es ++ [ZIP_END].

(** The fields are well formed, and the sizes stay inside the 32-bit and
    16-bit fields of the header. *)
Definition fits (es : list (bool * list Z)) : Prop :=
  fields_ok 0 es /\ size (entries 0 es) + 64 < 2^32 /\ Z.of_nat (length es) < 65535.

(** The offset of the entry that follows the entries of [pre]. *)
Definition off (pre : list (bool * list Z)) : Z :=
  ZIPLIST_HEADER_SIZE + size (entries 0 pre).

Lemma entries_app pl pre more :
  entries pl (pre ++ more) = entries pl pre ++ entries (last_raw pl pre) more.
Proof.
  revert pl. induction pre as [|[w s] pre IH]; intros pl; cbn [entries last_raw app];
    [reflexivity|]. rewrite IH. zapp.
Qed.

Lemma last_raw_app pl pre more :
  last_raw pl (pre ++ more) = last_raw (last_raw pl pre) more.
Proof. revert pl. induction pre as [|[w s] pre IH]; intros pl; cbn [last_raw app]; auto. Qed.

Lemma fields_ok_app pl pre more :
  fields_ok pl (pre ++ more) <-> fields_ok pl pre /\ fields_ok (last_raw pl pre) more.
Proof.
  revert pl. induction pre as [|[w s] pre IH]; intros pl; cbn [fields_ok last_raw app];
    [tauto|]. rewrite IH. tauto.
Qed.

Lemma size_body_lower s : 0 < size (entry_body s) /\ size s <= size (entry_body s) + 32.
Proof.
  pose proof (size_nonneg s). unfold entry_body.
  destruct (zipTryEncoding s) as [[v enc]|] eqn:E.
  - pose proof E as E'. apply zipTryEncoding_fits in E.
    destruct (int_fits_enc v enc E) as (_ & _ & _ & Hb). rewrite Hb.
    pose proof (size_nonneg (int_bytes v enc)). zsize.
    unfold zipTryEncoding in E'. destruct (Z.geb_spec (size s) 32); [discriminate|]. lia.
  - rewrite size_app, size_str_header. pose proof (str_width_pos (u32 (size s))). lia.
Qed.

Lemma raw_pos w s : 1 < raw w s.
Proof.
  unfold raw. pose proof (size_body_lower s). destruct (fwidth_cases w); lia.
Qed.

Lemma size_entries_nonneg pl es : 0 <= size (entries pl es).
Proof. apply size_nonneg. Qed.

Lemma size_entries_cons pl w s es :
  size (entries pl ((w, s) :: es)) = raw w s + size (entries (raw w s) es).
Proof. cbn [entries]. rewrite !size_app, size_field. unfold raw. lia. Qed.

(** The bytes after the first field do not depend on the length it holds. *)
Lemma size_entries_prev pl1 pl2 es : size (entries pl1 es) = size (entries pl2 es).
Proof. destruct es as [|[w s] es]; [reflexivity|]. now rewrite !size_entries_cons. Qed.

Lemma last_raw_bound es : forall pl,
  0 <= pl -> 0 <= last_raw pl es /\ (es <> [] -> 1 < last_raw pl es <= size (entries pl es)).
Proof.
  induction es as [|[w s] es IH]; intros pl Hp; cbn [last_raw]; [split; [lia|congruence]|].
  pose proof (raw_pos w s). destruct (IH (raw w s) ltac:(lia)) as [I1 I2].
  split; [exact I1|]. intros _. rewrite size_entries_cons.
  pose proof (size_entries_nonneg (raw w s) es).
  destruct es as [|e2 es]; [cbn [last_raw entries] in *; zsize|].
  specialize (I2 ltac:(congruence)). lia.
Qed.

Lemma size_entries_app_le pl pre more :
  size (entries pl (pre ++ more))
  = size (entries pl pre) + size (entries (last_raw pl pre) more).
Proof. now rewrite entries_app, size_app. Qed.

(** The list around one of its entries. *)
Lemma layout_at pre w s more :
  layout (pre ++ (w, s) :: more)
  = (hdr (ZIPLIST_HEADER_SIZE + size (entries 0 (pre ++ (w, s) :: more)) + 1)
         (tail_of (pre ++ (w, s) :: more)) (Z.of_nat (length (pre ++ (w, s) :: more)))
     ++ entries 0 pre)
    ++ field w (last_raw 0 pre) ++ entry_body s
    ++ (entries (raw w s) more ++ [ZIP_END]).
Proof. unfold layout. rewrite entries_app at 2. cbn [entries]. zapp. Qed.

Lemma layout_end es :
  layout es
  = (hdr (ZIPLIST_HEADER_SIZE + size (entries 0 es) + 1) (tail_of es)
         (Z.of_nat (length es)) ++ entries 0 es) ++ ZIP_END :: [].
Proof. unfold layout. zapp. Qed.

Lemma fits_entry pre w s more :
  fits (pre ++ (w, s) :: more) ->
  0 <= last_raw 0 pre < 2^32 /\ field_ok w (last_raw 0 pre) /\ size s + 16 < 2^32
  /\ 0 <= raw w s < 2^32
  /\ off pre + raw w s + size (entries (raw w s) more) + 54 < 2^32.
Proof.
  intros (Hok & Hf & _). rewrite size_entries_app_le, size_entries_cons in Hf.
  apply fields_ok_app in Hok as [_ [Hok _]].
  pose proof (size_entries_nonneg 0 pre).
  pose proof (size_entries_nonneg (raw w s) more).
  pose proof (raw_pos w s).
  destruct (last_raw_bound pre 0 ltac:(lia)) as [L1 L2].
  pose proof (size_body_lower s).
  assert (last_raw 0 pre <= size (entries 0 pre)).
  { destruct pre as [|x pre]; [cbn [last_raw entries]; rewrite size_nil; lia|].
    apply L2. congruence. }
  unfold off, ZIPLIST_HEADER_SIZE.
  assert (raw w s <= size (entry_body s) + 5)
    by (unfold raw; destruct (fwidth_cases w); lia).
  assert (size (entry_body s) < raw w s)
    by (unfold raw; destruct (fwidth_cases w); lia).
  split; [lia|]. split; [exact Hok|]. lia.
Qed.

Lemma off_snoc pre w s : off (pre ++ [(w, s)]) = off pre + raw w s.
Proof.
  unfold off. rewrite size_entries_app_le, size_entries_cons. cbn [entries]. zsize.
Qed.

Section Walk.
Variable be : bool.

Lemma layout_load_entry pre w s more :
  fits (pre ++ (w, s) :: more) ->
  exists x, load (layout (pre ++ (w, s) :: more)) (off pre) = Some x /\ x <> ZIP_END.
Proof.
  intros Hf. destruct (fits_entry pre w s more Hf) as (Hp & Hok & Hs & _).
  destruct (entry_at be _ (off pre) _ _ _ _ _ (layout_at pre w s more))
    as (Hne & (x & Hx) & _).
  - unfold off. now rewrite size_app, size_hdr.
  - exact Hp.
  - exact Hok.
  - exact Hs.
  - exists x. split; [exact Hx|]. congruence.
Qed.

Lemma layout_load_end es : load (layout es) (off es) = Some ZIP_END.
Proof.
  apply (load_split _ _ _ _ _ (layout_end es)).
  unfold off. now rewrite size_app, size_hdr.
Qed.

Lemma layout_entry pre w s more :
  fits (pre ++ (w, s) :: more) ->
  zipEntry be (layout (pre ++ (w, s) :: more)) (off pre)
  = Some (mk_zlentry (fwidth w) (last_raw 0 pre) (entry_lensize s) (entry_len s)
                     (fwidth w + entry_lensize s) (entry_enc s) (off pre))
  /\ zipRawEntryLength (layout (pre ++ (w, s) :: more)) (off pre) = Some (raw w s).
Proof.
  intros Hf. destruct (fits_entry pre w s more Hf) as (Hp & Hok & Hs & _).
  destruct (entry_at be _ (off pre) _ _ _ _ _ (layout_at pre w s more)) as (_ & _ & H);
    try assumption.
  unfold off. now rewrite size_app, size_hdr.
Qed.

Lemma layout_raw pre w s more :
  fits (pre ++ (w, s) :: more) ->
  zipRawEntryLength (layout (pre ++ (w, s) :: more)) (off pre) = Some (raw w s).
Proof. intros Hf. now destruct (layout_entry pre w s more Hf). Qed.

Lemma layout_get pre w s more :
  fits (pre ++ (w, s) :: more) ->
  ziplistGet be (layout (pre ++ (w, s) :: more)) (Some (off pre))
  = Some (Some (entry_value s)).
Proof.
  intros Hf. destruct (fits_entry pre w s more Hf) as (Hp & Hok & Hs & _).
  apply (ziplistGet_at be _ _ _ _ _ _ _ (layout_at pre w s more)); try assumption.
  unfold off. now rewrite size_app, size_hdr.
Qed.

Lemma layout_compare pre w s more sstr :
  fits (pre ++ (w, s) :: more) ->
  ziplistCompare be (layout (pre ++ (w, s) :: more)) (off pre) sstr
  = Some (entry_eqb s sstr).
Proof.
  intros Hf. destruct (fits_entry pre w s more Hf) as (Hp & Hok & Hs & _).
  apply (ziplistCompare_at be _ _ _ _ _ _ _ _ (layout_at pre w s more)); try assumption.
  unfold off. now rewrite size_app, size_hdr.
Qed.

(** [ziplistNext] steps to the following entry, or finds the end. *)
Lemma layout_next pre w s more :
  fits (pre ++ (w, s) :: more) ->
  ziplistNext (layout (pre ++ (w, s) :: more)) (off pre)
  = Some (match more with [] => None | _ => Some (off (pre ++ [(w, s)])) end).
Proof.
  intros Hf. unfold ziplistNext.
  destruct (layout_load_entry pre w s more Hf) as (x & -> & Hx).
  cbn [mbind option_bind]. destruct (Z.eqb_spec x ZIP_END); [contradiction|].
  rewrite (layout_raw pre w s more Hf). cbn [mbind option_bind].
  rewrite <- off_snoc.
  destruct more as [|[w2 s2] more].
  - rewrite layout_load_end. reflexivity.
  - replace (pre ++ (w, s) :: (w2, s2) :: more)
      with ((pre ++ [(w, s)]) ++ (w2, s2) :: more) in * by zapp.
    destruct (layout_load_entry (pre ++ [(w, s)]) w2 s2 more Hf) as (y & -> & Hy).
    cbn [mbind option_bind]. destruct (Z.eqb_spec y ZIP_END); [contradiction|reflexivity].
Qed.

Lemma layout_index_0 es :
  fits es ->
  ziplistIndex be (layout es) 0
  = Some (match es with [] => None | _ => Some ZIPLIST_HEADER_SIZE end).
Proof.
  intros Hf. unfold ziplistIndex. change (0 <? 0) with false. cbv iota.
  change (Z.to_nat 0) with 0%nat. cbn [index_forward]. unfold ZIPLIST_ENTRY_HEAD.
  destruct es as [|[w s] es].
  - pose proof (layout_load_end []) as H. change (off []) with ZIPLIST_HEADER_SIZE in H.
    rewrite H. cbn [mbind option_bind]. change (ZIP_END =? ZIP_END) with true. cbv iota.
    cbn [mbind option_bind]. rewrite H. reflexivity.
  - destruct (layout_load_entry [] w s es Hf) as (x & H & Hx).
    change (off []) with ZIPLIST_HEADER_SIZE in H. cbn [app] in H.
    rewrite H. cbn [mbind option_bind]. destruct (Z.eqb_spec x ZIP_END); [contradiction|].
    change (0 =? 0) with true. cbv iota. cbn [mbind option_bind]. rewrite H.
    cbn [mbind option_bind]. destruct (Z.eqb_spec x ZIP_END); [contradiction|].
    reflexivity.
Qed.

Lemma layout_len es :
  fits es -> ziplistLen be (layout es) = Some (Z.of_nat (length es), layout es).
Proof.
  intros (_ & _ & Hc). unfold ziplistLen, layout.
  destruct (hdr_count be (ZIPLIST_HEADER_SIZE + size (entries 0 es) + 1) (tail_of es)
              (Z.of_nat (length es)) (entries 0 es ++ [ZIP_END])) as (x & -> & Hx & _).
  cbn [mbind option_bind]. rewrite Hx. unfold u16, UINT16_MAX.
  rewrite Z.mod_small by lia. destruct (Z.ltb_spec (Z.of_nat (length es)) 65535); [|lia].
  reflexivity.
Qed.

End Walk.

Lemma size_entry_body_upper s :
  size s < 2^32 ->
  size (entry_body s) <= size s + 9
  /\ (size s <= 16383 -> size (entry_body s) <= Z.max 9 (size s + 2)).
Proof.
  intros Hs. pose proof (size_nonneg s). rewrite size_entry_body by exact Hs.
  unfold entry_lensize, entry_len.
  destruct (zipTryEncoding s) as [[v e]|].
  - pose proof (zipIntSize_bound e). lia.
  - pose proof (str_width_pos (size s)). split; [lia|]. intros H14.
    unfold str_width. destruct (Z.leb_spec (size s) 0x3f); [lia|].
    destruct (Z.leb_spec (size s) 0x3fff); lia.
Qed.

Lemma size_entries_lower es : forall pl, 2 * Z.of_nat (length es) <= size (entries pl es).
Proof.
  induction es as [|[w s] es IH]; intros pl; [cbn [length entries]; rewrite size_nil; lia|].
  rewrite size_entries_cons. pose proof (raw_pos w s). specialize (IH (raw w s)).
  cbn [length]. lia.
Qed.

Lemma size_layout es : size (layout es) = ZIPLIST_HEADER_SIZE + size (entries 0 es) + 1.
Proof.
  unfold layout. rewrite !size_app, size_hdr, size_cons, size_nil.
  unfold ZIPLIST_HEADER_SIZE. lia.
Qed.

(** The encoding and the value [__ziplistInsert] works with. *)
Definition write_enc (s : list Z) : Z :=
  match zipTryEncoding s with Some (_, enc) => enc | None => 0 end.

Definition write_val (s : list Z) : Z :=
  match zipTryEncoding s with Some (v, _) => v | None => 123456789 end.

Lemma write_header s :
  size s < 2^32 ->
  size (zipEncodeLength_buf (write_enc s) (u32 (size s))) = entry_lensize s
  /\ entry_body s
     = zipEncodeLength_buf (write_enc s) (u32 (size s))
       ++ match zipTryEncoding s with
          | Some (v, enc) => int_bytes v enc
          | None => s
          end.
Proof.
  intros Hs. unfold write_enc, entry_lensize, entry_body.
  destruct (zipTryEncoding s) as [[v enc]|] eqn:E.
  - apply zipTryEncoding_fits in E. destruct (int_fits_enc v enc E) as (_ & _ & _ & Hb).
    rewrite Hb. split; reflexivity.
  - rewrite size_str_header. pose proof (size_nonneg s).
    rewrite u32_below by lia. split; reflexivity.
Qed.

Section Insert.
Variable be : bool.

Lemma ziplistResize_grow b t c R k :
  0 < k -> b = ZIPLIST_HEADER_SIZE + size R -> b + k < 2^32 ->
  ziplistResize be (hdr b t c ++ R) (b + k)
  = Some (hdr (b + k) t c ++ R ++ replicate (Z.to_nat (k - 1)) 0 ++ [ZIP_END]).
Proof.
  intros Hk Hb Hlt. pose proof (size_nonneg R). unfold ZIPLIST_HEADER_SIZE in Hb.
  unfold ziplistResize. rewrite u32_below by lia.
  assert (Hsz : size (hdr b t c ++ R) = b) by (rewrite size_app, size_hdr; lia).
  assert (Hre : zrealloc (hdr b t c ++ R) (b + k)
                = (hdr b t c ++ R) ++ replicate (Z.to_nat k) 0).
  { rewrite <- Hsz at 2. apply zrealloc_grow. lia. }
  rewrite Hre, <- app_assoc, set_hdr_bytes. cbn [mbind option_bind].
  replace (Z.to_nat k) with (S (Z.to_nat (k - 1))) by lia.
  rewrite replicate_S_end.
  rewrite (store_split _ _ _ (hdr (b + k) t c ++ R ++ replicate (Z.to_nat (k - 1)) 0) 0 []).
  - f_equal. zapp.
  - zapp.
  - rewrite !size_app, size_hdr, size_replicate. lia.
Qed.

(** The three writes of an entry, over as many bytes. *)
Lemma write_entry zl q A G C pl s :
  zl = A ++ G ++ C -> q = size A ->
  size G = prev_width pl + size (entry_body s) -> 0 <= pl ->
  size s + 16 < 2^32 ->
  exists zl1 zl2,
    zipPrevEncodeLength be zl (Some q) pl = Some (zl1, prev_width pl)
    /\ zipEncodeLength zl1 (Some (q + prev_width pl)) (write_enc s) (u32 (size s))
       = Some (zl2, entry_lensize s)
    /\ (if ZIP_IS_STR (write_enc s)
        then storen zl2 (q + prev_width pl + entry_lensize s) s
        else zipSaveInteger be zl2 (q + prev_width pl + entry_lensize s)
               (write_val s) (write_enc s))
       = Some (A ++ prev_field pl ++ entry_body s ++ C).
Proof.
  intros Hz Hq HG Hp Hs. pose proof (size_nonneg s) as Hs0.
  destruct (write_header s ltac:(lia)) as (Hh & Hbody).
  pose proof (size_entry_body s ltac:(lia)) as Hsb.
  rewrite Hsb in HG.
  pose proof (prev_width_cases pl) as Hw.
  pose proof (str_width_pos (size s)) as Hsw.
  assert (Hls : 0 < entry_lensize s)
    by (unfold entry_lensize; destruct (zipTryEncoding s); lia).
  assert (Hln : 0 <= entry_len s).
  { unfold entry_len. destruct (zipTryEncoding s) as [[v e]|]; [|lia].
    apply zipIntSize_bound. }
  (* the three parts of the room *)
  set (G1 := take (Z.to_nat (prev_width pl)) G).
  set (G2 := take (Z.to_nat (entry_lensize s)) (drop (Z.to_nat (prev_width pl)) G)).
  set (G3 := drop (Z.to_nat (entry_lensize s)) (drop (Z.to_nat (prev_width pl)) G)).
  assert (HG' : G = G1 ++ G2 ++ G3).
  { subst G1 G2 G3. now rewrite !take_drop. }
  assert (S1 : size G1 = prev_width pl) by (subst G1; apply size_take_le; lia).
  assert (S2 : size G2 = entry_lensize s).
  { subst G2. apply size_take_le. rewrite size_drop_le by lia. lia. }
  assert (S3 : size G3 = entry_len s).
  { subst G3. rewrite !size_drop_le; rewrite ?size_drop_le; lia. }
  clearbody G1 G2 G3. subst G.
  eexists _, _. split; [|split].
  - apply (encode_prev be zl q A G1 (G2 ++ G3 ++ C)); [subst zl; zapp|exact Hq|exact S1|exact Hp].
  - unfold zipEncodeLength. cbv zeta.
    rewrite (storen_split _ _ _ (A ++ prev_field pl) G2 (G3 ++ C));
      [cbn [mbind option_bind]; unfold size in Hh |- *; rewrite Hh; reflexivity
      |zapp
      |rewrite size_app, size_prev_field; lia
      |rewrite S2; exact Hh].
  - rewrite Hbody. unfold write_enc, write_val, entry_len in *.
    destruct (zipTryEncoding s) as [[v enc]|] eqn:E.
    + apply zipTryEncoding_fits in E.
      destruct (int_fits_enc v enc E) as (_ & -> & Hsz & Hb).
      rewrite (save_int be _ _ (A ++ prev_field pl ++ zipEncodeLength_buf enc (u32 (size s)))
                 G3 C v enc); [f_equal; zapp|zapp| |exact E|exact S3].
      rewrite !size_app, size_prev_field, Hh. lia.
    + change (ZIP_IS_STR 0) with true. cbv iota.
      rewrite (storen_split _ _ _ (A ++ prev_field pl ++ zipEncodeLength_buf 0 (u32 (size s)))
                 G3 C); [f_equal; zapp|zapp| |lia].
      rewrite !size_app, size_prev_field, Hh. lia.
Qed.

End Insert.

Section InsertEnd.
Variable be : bool.

Lemma tail_of_snoc pre w s : tail_of (pre ++ [(w, s)]) = off pre.
Proof.
  unfold tail_of, off. destruct (pre ++ [(w, s)]) eqn:E; [now destruct pre|]. rewrite <- E.
  rewrite size_entries_app_le, last_raw_app, size_entries_cons. cbn [last_raw entries].
  rewrite size_nil. lia.
Qed.

Lemma fits_snoc es e : fits (es ++ [e]) -> fits es.
Proof.
  intros (H0 & H1 & H2). rewrite size_entries_app_le in H1. rewrite length_app in H2.
  pose proof (size_entries_nonneg (last_raw 0 es) [e]). cbn [length] in H2.
  apply fields_ok_app in H0 as [H0 _]. split; [exact H0|]. split; lia.
Qed.

Lemma zipEncodeLength_null zl enc n :
  zipEncodeLength zl None enc n = Some (zl, size (zipEncodeLength_buf enc n)).
Proof. reflexivity. Qed.

Lemma layout_bytes ss :
  exists x, ZIPLIST_BYTES be (layout ss) = Some x
            /\ intrev32ifbe be x = u32 (ZIPLIST_HEADER_SIZE + size (entries 0 ss) + 1).
Proof. apply hdr_bytes. Qed.

Lemma layout_tail ss :
  exists x, ZIPLIST_TAIL_OFFSET be (layout ss) = Some x
            /\ intrev32ifbe be x = u32 (tail_of ss).
Proof. apply hdr_tail. Qed.

Lemma layout_resize ss k :
  0 < k -> ZIPLIST_HEADER_SIZE + size (entries 0 ss) + 1 + k < 2^32 ->
  ziplistResize be (layout ss) (ZIPLIST_HEADER_SIZE + size (entries 0 ss) + 1 + k)
  = Some (hdr (ZIPLIST_HEADER_SIZE + size (entries 0 ss) + 1 + k) (tail_of ss)
              (Z.of_nat (length ss))
          ++ entries 0 ss ++ ZIP_END :: replicate (Z.to_nat (k - 1)) 0 ++ [ZIP_END]).
Proof.
  intros Hk Hlt. unfold layout. rewrite ziplistResize_grow; [f_equal; f_equal; zapp|lia| |lia].
  rewrite size_app, size_cons, size_nil. lia.
Qed.

(** The length of the last entry, as [__ziplistInsert] finds it for a push
    on the tail. *)
Lemma layout_tail_raw ss :
  fits ss ->
  (ptail ← ZIPLIST_ENTRY_TAIL be (layout ss);
   t ← load (layout ss) ptail;
   if negb (t =? ZIP_END) then zipRawEntryLength (layout ss) ptail else Some 0)
  = Some (last_raw 0 ss).
Proof.
  intros Hf. unfold ZIPLIST_ENTRY_TAIL.
  destruct (layout_tail ss) as (x & -> & Hx).
  cbn [mbind option_bind]. rewrite Hx. clear x Hx.
  destruct ss as [|[w0 s0] ss0] using rev_ind.
  - change (u32 (tail_of [])) with (off []). rewrite layout_load_end.
    cbn [mbind option_bind]. reflexivity.
  - clear IHss0. rewrite tail_of_snoc.
    destruct (fits_entry ss0 w0 s0 [] Hf) as (_ & _ & _ & _ & Hb).
    pose proof (size_entries_nonneg 0 ss0). pose proof (raw_pos w0 s0).
    pose proof (size_entries_nonneg (raw w0 s0) []).
    rewrite u32_below by (unfold off, ZIPLIST_HEADER_SIZE in *; lia).
    destruct (layout_load_entry be ss0 w0 s0 [] Hf) as (y & -> & Hy).
    cbn [mbind option_bind]. destruct (Z.eqb_spec y ZIP_END); [contradiction|].
    cbn [negb]. rewrite (layout_raw be ss0 w0 s0 [] Hf).
    rewrite last_raw_app. reflexivity.
Qed.

Lemma insert_triple s :
  size s < 2^32 ->
  match zipTryEncoding s with
  | Some (value, encoding0) => (value, encoding0, zipIntSize encoding0)
  | None => (123456789, 0, u32 (size s))
  end = (write_val s, write_enc s, entry_len s).
Proof.
  intros Hs. pose proof (size_nonneg s).
  unfold write_val, write_enc, entry_len. rewrite u32_below by lia.
  destruct (zipTryEncoding s) as [[? ?]|]; reflexivity.
Qed.

Lemma reqlen_u64 pl s :
  size s + 16 < 2^32 ->
  u64 (u64 (entry_len s + prev_width pl) + entry_lensize s) = raw (wide_of pl) s.
Proof.
  intros Hs. pose proof (size_nonneg s). unfold raw. rewrite size_entry_body by lia.
  rewrite <- prev_width_fwidth. pose proof (prev_width_cases pl).
  assert (0 <= entry_len s < 2^32 /\ 0 < entry_lensize s <= 5) as [? ?].
  { unfold entry_len, entry_lensize. pose proof (str_width_pos (size s)).
    destruct (zipTryEncoding s) as [[v e]|]; [pose proof (zipIntSize_bound e)|]; lia. }
  unfold u64. rewrite (Z.mod_small (entry_len s + prev_width pl)) by lia.
  rewrite Z.mod_small by lia. lia.
Qed.

(** A push on the tail: the new entry has its field in the width of the
    length of the last entry. *)
Lemma insert_end es s :
  fits (es ++ [(wide_of (last_raw 0 es), s)]) ->
  __ziplistInsert be (layout es) (off es) s
  = Some (layout (es ++ [(wide_of (last_raw 0 es), s)])).
Proof.
  intros Hf.
  destruct (fits_entry es _ s [] Hf) as (Hpl & _ & Hs & Hraw & Hb).
  cbn [entries] in Hb. rewrite size_nil in Hb.
  pose proof (fits_snoc _ _ Hf) as Hf0.
  pose proof (size_nonneg s) as Hs0.
  pose proof (size_entries_nonneg 0 es) as He0.
  set (pl := last_raw 0 es) in *.
  set (reqlen := raw (wide_of pl) s) in *.
  unfold __ziplistInsert.
  (* the total size *)
  destruct (layout_bytes es) as (x & -> & Hx).
  cbn [mbind option_bind]. rewrite Hx. clear x Hx.
  rewrite (u32_below (_ + _ + 1)) by (unfold off, ZIPLIST_HEADER_SIZE in *; lia).
  rewrite layout_load_end. cbn [mbind option_bind].
  change (ZIP_END =? ZIP_END) with true. cbn [negb].
  rewrite (layout_tail_raw es Hf0). cbn [mbind option_bind]. fold pl.
  rewrite insert_triple by lia. cbv beta iota zeta.
  rewrite zipPrevEncodeLength_null. cbn [mbind option_bind].
  rewrite zipEncodeLength_null. cbn [mbind option_bind].
  destruct (write_header s ltac:(lia)) as (Hh & Hbody). rewrite Hh.
  rewrite reqlen_u64 by exact Hs. fold reqlen. rewrite (Z.add_0_r (_ + reqlen)).
  pose proof (raw_pos (wide_of pl) s) as Hrp. fold reqlen in Hrp.
  rewrite layout_resize; [|lia|unfold off, ZIPLIST_HEADER_SIZE in *; lia].
  cbn [mbind option_bind].
  set (B' := ZIPLIST_HEADER_SIZE + size (entries 0 es) + 1 + reqlen).
  set (H1 := hdr B' (tail_of es) (Z.of_nat (length es))).
  rewrite (load_split _ (off es) (H1 ++ entries 0 es) ZIP_END
             (replicate (Z.to_nat (reqlen - 1)) 0 ++ [ZIP_END]));
    [|zapp|subst H1; unfold off; rewrite size_app, size_hdr; reflexivity].
  cbn [mbind option_bind]. change (ZIP_END =? ZIP_END) with true. cbn [negb].
  subst H1. rewrite set_hdr_tail, hdr_u32_tail. cbn [mbind option_bind].
  change (0 =? 0) with true. cbn [negb]. cbn [mbind option_bind].
  set (H2 := hdr B' (off es) (Z.of_nat (length es))).
  destruct (write_entry be (H2 ++ entries 0 es
                               ++ ZIP_END :: replicate (Z.to_nat (reqlen - 1)) 0 ++ [ZIP_END])
              (off es) (H2 ++ entries 0 es)
              (ZIP_END :: replicate (Z.to_nat (reqlen - 1)) 0) [ZIP_END] pl s)
    as (zl1 & zl2 & W1 & W2 & W3);
    [zapp|subst H2; unfold off; rewrite size_app, size_hdr; reflexivity
     |rewrite size_cons, size_replicate, prev_width_fwidth; fold (raw (wide_of pl) s);
      fold reqlen; lia|lia|exact Hs|].
  rewrite W1. cbn [mbind option_bind]. rewrite W2. cbn [mbind option_bind].
  rewrite W3. cbn [mbind option_bind].
  subst H2. rewrite <- app_assoc, incr_hdr_count.
  2:{ destruct Hf0 as (_ & _ & Hc). lia. }
  f_equal. unfold layout. rewrite tail_of_snoc.
  replace (ZIPLIST_HEADER_SIZE + size (entries 0 (es ++ [(wide_of pl, s)])) + 1) with B'.
  2:{ subst B'. rewrite size_entries_app_le, size_entries_cons. cbn [entries].
      fold reqlen. rewrite size_nil. lia. }
  rewrite length_app. cbn [length].
  replace (Z.of_nat (length es + 1)) with (Z.of_nat (length es) + 1) by lia.
  rewrite entries_app. cbn [entries]. fold pl. rewrite prev_field_field.
  f_equal. zapp.
Qed.

End InsertEnd.

Section MoveLink.
Variable be : bool.

(** The move that makes room, and the link of the displaced entry to the
    new one. *)
Lemma move_and_link zl1 p A pl Y reqlen curlen :
  let nd := prev_width reqlen - prev_width pl in
  zl1 = A ++ prev_field pl ++ Y
        ++ ZIP_END :: replicate (Z.to_nat (reqlen + nd - 1)) 0 ++ [ZIP_END] ->
  p = size A -> 4 <= size A -> 0 <= pl -> 0 <= reqlen -> 0 < reqlen + nd ->
  curlen = p + prev_width pl + size Y + 1 -> curlen + reqlen + 4 < 2^32 ->
  exists G zl2,
    size G = reqlen
    /\ memmove zl1 (p + reqlen) (p - nd) (u64 (curlen - p - 1 + nd)) = Some zl2
    /\ zipPrevEncodeLength be zl2 (Some (p + reqlen)) reqlen
       = Some (A ++ G ++ prev_field reqlen ++ Y ++ [ZIP_END], prev_width reqlen).
Proof.
  intros nd Hz Hp HA Hpl Hreq Hk Hcur Hlt.
  pose proof (size_nonneg Y) as HY.
  pose proof (prev_width_cases pl) as Hw1. pose proof (prev_width_cases reqlen) as Hw2.
  set (W := prev_field pl ++ Y ++ ZIP_END :: replicate (Z.to_nat (reqlen + nd - 1)) 0).
  assert (HW : size W = prev_width pl + size Y + reqlen + nd).
  { subst W. rewrite !size_app, size_cons, size_replicate, size_prev_field. lia. }
  set (G := take (Z.to_nat reqlen) W). set (D := drop (Z.to_nat reqlen) W).
  assert (HG : size G = reqlen) by (subst G; apply size_take_le; lia).
  assert (HD : size D = prev_width reqlen + size Y).
  { subst D. rewrite size_drop_le by lia. lia. }
  assert (Hz1 : zl1 = (A ++ G) ++ D ++ [ZIP_END]).
  { subst zl1 G D. rewrite <- app_assoc, (app_assoc (take _ W)), take_drop. subst W. zapp. }
  (* what is moved *)
  assert (HX : exists Bx, size Bx = prev_width reqlen
                          /\ loadn zl1 (p - nd) (u64 (curlen - p - 1 + nd)) = Some (Bx ++ Y)).
  { replace (u64 (curlen - p - 1 + nd)) with (prev_width reqlen + size Y)
      by (unfold u64; rewrite Z.mod_small by lia; lia).
    destruct (Z.eq_dec nd 0) as [E0|E0].
    - exists (prev_field pl). rewrite size_prev_field. split; [lia|].
      apply (loadn_split zl1 _ _ A (prev_field pl ++ Y)
               (ZIP_END :: replicate (Z.to_nat (reqlen + nd - 1)) 0 ++ [ZIP_END]));
        [subst zl1; zapp|lia|rewrite size_app, size_prev_field; lia].
    - destruct (Z.eq_dec nd 4) as [E4|E4].
      + set (A0 := take (Z.to_nat (size A - 4)) A). set (J := drop (Z.to_nat (size A - 4)) A).
        assert (HA0 : size A0 = size A - 4) by (subst A0; apply size_take_le; lia).
        assert (HJ : size J = 4) by (subst J; rewrite size_drop_le by lia; lia).
        exists (J ++ prev_field pl). rewrite size_app, size_prev_field. split; [lia|].
        apply (loadn_split zl1 _ _ A0 ((J ++ prev_field pl) ++ Y)
                 (ZIP_END :: replicate (Z.to_nat (reqlen + nd - 1)) 0 ++ [ZIP_END]));
          [|lia|rewrite !size_app, size_prev_field; lia].
        subst zl1. rewrite <- (take_drop (Z.to_nat (size A - 4)) A) at 1.
        fold A0 J. zapp.
      + assert (Em : nd = -4) by lia.
        set (F4 := take 4 (prev_field pl)). set (d := drop 4 (prev_field pl)).
        assert (HF : size (prev_field pl) = 5) by (rewrite size_prev_field; lia).
        assert (HF4 : size F4 = 4) by (subst F4; apply (size_take_le 4); lia).
        assert (Hd : size d = 1) by (subst d; rewrite (size_drop_le 4) by lia; lia).
        exists d. split; [lia|].
        apply (loadn_split zl1 _ _ (A ++ F4) (d ++ Y)
                 (ZIP_END :: replicate (Z.to_nat (reqlen + nd - 1)) 0 ++ [ZIP_END]));
          [|rewrite size_app; lia|rewrite size_app; lia].
        subst zl1. rewrite <- (take_drop 4 (prev_field pl)) at 1. fold F4 d. zapp. }
  destruct HX as (Bx & HBx & HX).
  exists G, ((A ++ G) ++ (Bx ++ Y) ++ [ZIP_END]). split; [exact HG|]. split.
  - unfold memmove. rewrite HX. cbn [mbind option_bind].
    apply (storen_split zl1 _ _ (A ++ G) D [ZIP_END] Hz1); [rewrite size_app; lia|].
    rewrite size_app. lia.
  - rewrite (encode_prev be _ (p + reqlen) (A ++ G) Bx (Y ++ [ZIP_END]) reqlen);
      [f_equal; f_equal; zapp|zapp|rewrite size_app; lia|exact HBx|exact Hreq].
Qed.

End MoveLink.

(** What the cascade makes of the entries that follow an entry whose length
    is now [r]: the first of them holds [r], in five bytes if it had five or
    needs them. *)
Definition bump (r : Z) (es : list (bool * list Z)) : list (bool * list Z) :=
  match es with
  | [] => []
  | (w, s) :: es' => (w || wide_of r, s) :: es'
  end.

(** The bytes by which the list grows then. *)
Definition growth (r : Z) (es : list (bool * list Z)) : Z :=
  match es with
  | (false, _) :: _ => if wide_of r then 4 else 0
  | _ => 0
  end.

Lemma fwidth_orb_wide w r :
  fwidth (w || wide_of r) = fwidth w + (if w then 0 else if wide_of r then 4 else 0).
Proof. destruct w, (wide_of r); reflexivity. Qed.

Lemma size_entries_bump r0 r es :
  size (entries r (bump r es)) = size (entries r0 es) + growth r es.
Proof.
  destruct es as [|[w s] es]; cbn [bump growth]; [cbn [entries]; lia|].
  rewrite !size_entries_cons. unfold raw. rewrite fwidth_orb_wide.
  rewrite (size_entries_prev _ (fwidth w + size (entry_body s)) es).
  destruct w, (wide_of r); lia.
Qed.

Lemma last_raw_bump r0 r w s e es :
  last_raw r (bump r ((w, s) :: e :: es)) = last_raw r0 ((w, s) :: e :: es).
Proof. destruct e as [w2 s2]. reflexivity. Qed.

Lemma wide_of_small r : r < ZIP_BIGLEN -> wide_of r = false.
Proof. intros H. unfold wide_of. now destruct (Z.ltb_spec r ZIP_BIGLEN); [|lia]. Qed.

Lemma wide_of_small_inv r : wide_of r = false -> r < ZIP_BIGLEN.
Proof. unfold wide_of. destruct (Z.ltb_spec r ZIP_BIGLEN); [easy|discriminate]. Qed.

Lemma wide_of_big r : ZIP_BIGLEN <= r -> wide_of r = true.
Proof. intros H. unfold wide_of. now destruct (Z.ltb_spec r ZIP_BIGLEN); [lia|]. Qed.

Section Cascade.
Variable be : bool.

(** The second step of a cascade that made a field grow: the entry after
    the grown one records the new length, in the width it had. *)
Lemma cascade_second fuel A w2 r s2 more r2_old b t c curlen :
  let Hd := hdr b t c in
  let r2 := raw w2 s2 in
  0 <= r < 2^32 -> field_ok w2 r -> size s2 + 16 < 2^32 ->
  r2 < ZIP_BIGLEN -> 0 <= r2_old < ZIP_BIGLEN ->
  fields_ok r2_old more ->
  Forall (fun e => size (snd e) + 16 < 2^32) more ->
  cascade_loop be (S fuel)
    (Hd ++ A ++ field w2 r ++ entry_body s2 ++ entries r2_old more ++ [ZIP_END])
    (size (Hd ++ A)) curlen
  = Some (Hd ++ A ++ field w2 r ++ entry_body s2 ++ entries r2 more ++ [ZIP_END]).
Proof.
  intros Hd r2 Hr Hok Hs2 Hr2 Hr2o Hfo Hmore.
  pose proof (raw_pos w2 s2) as Hrp. fold r2 in Hrp.
  set (zl := Hd ++ A ++ field w2 r ++ entry_body s2 ++ entries r2_old more ++ [ZIP_END]).
  set (q := size (Hd ++ A)).
  assert (Hz : zl = (Hd ++ A) ++ field w2 r ++ entry_body s2
                    ++ (entries r2_old more ++ [ZIP_END])) by (subst zl; zapp).
  destruct (entry_at be zl q _ w2 r s2 _ Hz eq_refl Hr Hok Hs2)
    as (Hne & (x & Hx) & He & _).
  cbn [cascade_loop]. rewrite Hx. cbn [mbind option_bind].
  destruct (Z.eqb_spec x ZIP_END) as [->|_]; [congruence|].
  rewrite He. cbn [mbind option_bind headersize len].
  assert (Hraw : u32 (fwidth w2 + entry_lensize s2 + entry_len s2) = r2).
  { subst r2. unfold raw in *. pose proof (size_nonneg s2).
    rewrite size_entry_body in * by lia. unfold ZIP_BIGLEN in *.
    rewrite u32_below by lia. lia. }
  rewrite Hraw. rewrite zipPrevEncodeLength_null. cbn [mbind option_bind].
  assert (Hq2 : q + r2 = size ((Hd ++ A) ++ field w2 r ++ entry_body s2)).
  { subst q r2. unfold raw. rewrite !size_app, size_field. lia. }
  destruct more as [|[w3 s3] more].
  - cbn [entries app].
    rewrite (load_split zl (q + r2) ((Hd ++ A) ++ field w2 r ++ entry_body s2) ZIP_END []);
      [|subst zl; cbn [entries]; zapp|exact Hq2].
    cbn [mbind option_bind]. change (ZIP_END =? ZIP_END) with true. cbv iota.
    reflexivity.
  - apply Forall_cons in Hmore as [Hs3 Hmore]. cbn [snd] in Hs3.
    destruct Hfo as [Hok3 Hfo].
    assert (Hz2 : zl = ((Hd ++ A) ++ field w2 r ++ entry_body s2)
                       ++ field w3 r2_old ++ entry_body s3
                       ++ (entries (raw w3 s3) more ++ [ZIP_END])).
    { subst zl. cbn [entries]. zapp. }
    destruct (entry_at be zl (q + r2) _ w3 r2_old s3 _ Hz2 Hq2
                ltac:(unfold ZIP_BIGLEN in *; lia) Hok3 Hs3)
      as (Hne2 & (x2 & Hx2) & He2 & _).
    rewrite Hx2. cbn [mbind option_bind].
    destruct (Z.eqb_spec x2 ZIP_END) as [->|_]; [congruence|].
    rewrite He2. cbn [mbind option_bind prevrawlen prevrawlensize].
    destruct (Z.eqb_spec r2_old r2) as [Heq|Hneq].
    { rewrite <- Heq. reflexivity. }
    assert (W2 : prev_width r2 = 1)
      by (unfold prev_width; destruct (Z.ltb_spec r2 ZIP_BIGLEN); lia).
    rewrite W2. cbn [entries].
    destruct w3; cbn [fwidth].
    + change (5 <? 1) with false. change (5 >? 1) with true. cbv iota.
      rewrite (encode_force be zl (q + r2)
                 ((Hd ++ A) ++ field w2 r ++ entry_body s2) (field true r2_old)
                 (entry_body s3 ++ entries (raw true s3) more ++ [ZIP_END]) r2);
        [f_equal; zapp|subst zl; cbn [entries]; zapp|exact Hq2
         |rewrite size_field; reflexivity|unfold ZIP_BIGLEN in *; lia].
    + change (1 <? 1) with false. change (1 >? 1) with false. cbv iota.
      rewrite (encode_prev be zl (q + r2)
                 ((Hd ++ A) ++ field w2 r ++ entry_body s2) (field false r2_old)
                 (entry_body s3 ++ entries (raw false s3) more ++ [ZIP_END]) r2);
        [|subst zl; cbn [entries]; zapp|exact Hq2
         |rewrite size_field, W2; reflexivity|lia].
      cbn [mbind option_bind]. f_equal.
      rewrite prev_field_field, (wide_of_small r2 Hr2). zapp.
Qed.

(** One cascade: the entry after the changed one records its length; where
    that takes four more bytes the list grows, and the entry after the grown
    one is updated in turn. *)
Lemma cascade_first fuel A wc reqlen s' more r_old b t c :
  let r := raw wc s' in
  let q := size (hdr b t c ++ A) in
  let tg := match more with _ :: _ :: _ => growth r more | _ => 0 end in
  0 <= reqlen < 2^32 -> field_ok wc reqlen -> size s' + 16 < 2^32 ->
  0 <= r_old < 2^32 -> fields_ok r_old more ->
  Forall (fun e => size (snd e) + 16 < 2^32) more ->
  match more with (_, s2) :: _ => size (entry_body s2) <= 248 | [] => True end ->
  b = ZIPLIST_HEADER_SIZE
      + size (A ++ field wc reqlen ++ entry_body s' ++ entries r_old more ++ [ZIP_END]) ->
  b + 4 < 2^32 -> 0 <= t -> t + 4 < 2^32 ->
  match more with
  | [] => True
  | [_] => t = q + r
  | _ :: _ :: _ => t <> q + r
  end ->
  cascade_loop be (S (S fuel))
    (hdr b t c ++ A ++ field wc reqlen ++ entry_body s' ++ entries r_old more ++ [ZIP_END])
    q b
  = Some (hdr (b + growth r more) (t + tg) c
          ++ A ++ field wc reqlen ++ entry_body s' ++ entries r (bump r more) ++ [ZIP_END]).
Proof.
  intros r q tg Hreq Hok Hs' Hro Hfo Hmore H248 Hb Hb4 Ht0 Ht4 Ht.
  pose proof (raw_pos wc s') as Hrp. fold r in Hrp.
  pose proof (size_nonneg A) as HA0.
  set (Hd := hdr b t c) in *.
  set (zl := Hd ++ A ++ field wc reqlen ++ entry_body s' ++ entries r_old more ++ [ZIP_END]).
  assert (Hz : zl = (Hd ++ A) ++ field wc reqlen ++ entry_body s'
                    ++ (entries r_old more ++ [ZIP_END])) by (subst zl; zapp).
  destruct (entry_at be zl q _ wc reqlen s' _ Hz eq_refl Hreq Hok Hs')
    as (Hne & (x & Hx) & He & _).
  assert (Hrb : r < 2^32).
  { subst r. unfold raw. unfold ZIPLIST_HEADER_SIZE in Hb. revert Hb.
    rewrite !size_app, size_field. pose proof (size_nonneg (entries r_old more ++ [ZIP_END])).
    rewrite size_app in *. lia. }
  change (cascade_loop be (S (S fuel)) zl q b)
    with (b0 ← load zl q;
          if b0 =? ZIP_END then Some zl else
          cur ← zipEntry be zl q;
          let rawlen := u32 (headersize cur + len cur) in
          '(_, rawlensize) ← zipPrevEncodeLength be zl None rawlen;
          e ← load zl (q + rawlen);
          if e =? ZIP_END then Some zl else
          next ← zipEntry be zl (q + rawlen);
          if prevrawlen next =? rawlen then Some zl else
          if prevrawlensize next <? rawlensize then
            let offset := q in
            let extra := u64 (rawlensize - prevrawlensize next) in
            zl ← ziplistResize be zl (b + extra);
            let p := offset in
            let np := p + rawlen in
            let noffset := np in
            t ← ZIPLIST_TAIL_OFFSET be zl;
            zl ← (if negb (intrev32ifbe be t =? np)
                  then set_ZIPLIST_TAIL_OFFSET be zl
                         (intrev32ifbe be (u32 (intrev32ifbe be t + extra)))
                  else Some zl);
            zl ← memmove zl (np + rawlensize) (np + prevrawlensize next)
                         (u64 (b - noffset - prevrawlensize next - 1));
            '(zl, _) ← zipPrevEncodeLength be zl (Some np) rawlen;
            cascade_loop be (S fuel) zl (p + rawlen) (u64 (b + extra))
          else if prevrawlensize next >? rawlensize then
            zipPrevEncodeLengthForceLarge be zl (Some (q + rawlen)) rawlen
          else
            '(zl, _) ← zipPrevEncodeLength be zl (Some (q + rawlen)) rawlen;
            Some zl).
  rewrite Hx. cbn [mbind option_bind].
  destruct (Z.eqb_spec x ZIP_END) as [->|_]; [congruence|].
  rewrite He. cbn [mbind option_bind headersize len]. cbv zeta.
  assert (Hraw : u32 (fwidth wc + entry_lensize s' + entry_len s') = r).
  { subst r. unfold raw in *. pose proof (size_nonneg s').
    rewrite size_entry_body in * by lia. rewrite u32_below by lia. lia. }
  rewrite Hraw. rewrite zipPrevEncodeLength_null. cbn [mbind option_bind].
  assert (Hq2 : q + r = size ((Hd ++ A) ++ field wc reqlen ++ entry_body s')).
  { subst q r. unfold raw. rewrite !size_app, size_field. lia. }
  destruct more as [|[w2 s2] rest].
  - cbn [entries app bump growth]. subst tg. cbv iota.
    rewrite (load_split zl (q + r) ((Hd ++ A) ++ field wc reqlen ++ entry_body s') ZIP_END []);
      [|subst zl; cbn [entries]; zapp|exact Hq2].
    cbn [mbind option_bind]. change (ZIP_END =? ZIP_END) with true. cbv iota.
    rewrite !Z.add_0_r. reflexivity.
  - apply Forall_cons in Hmore as [Hs2 Hmore]. cbn [snd] in Hs2.
    destruct Hfo as [Hok2 Hfo].
    assert (Hz2 : zl = ((Hd ++ A) ++ field wc reqlen ++ entry_body s')
                       ++ field w2 r_old ++ entry_body s2
                       ++ (entries (raw w2 s2) rest ++ [ZIP_END])).
    { subst zl. cbn [entries]. zapp. }
    destruct (entry_at be zl (q + r) _ w2 r_old s2 _ Hz2 Hq2 Hro Hok2 Hs2)
      as (Hne2 & (x2 & Hx2) & He2 & _).
    rewrite Hx2. cbn [mbind option_bind].
    destruct (Z.eqb_spec x2 ZIP_END) as [->|_]; [congruence|].
    rewrite He2. cbn [mbind option_bind prevrawlen prevrawlensize].
    destruct (Z.eqb_spec r_old r) as [Heq|Hneq].
    { subst tg. cbn [bump growth]. rewrite <- Heq in *.
      assert (Hw : w2 || wide_of r_old = w2).
      { destruct w2; [reflexivity|]. cbn [orb]. apply wide_of_small. now apply Hok2. }
      rewrite Hw.
      assert (Hg : (if w2 then 0 else if wide_of r_old then 4 else 0) = 0).
      { destruct w2; [reflexivity|]. rewrite wide_of_small; [reflexivity|now apply Hok2]. }
      f_equal. f_equal.
      - destruct w2; [destruct rest; now rewrite !Z.add_0_r|].
        rewrite wide_of_small by now apply Hok2.
        destruct rest; now rewrite !Z.add_0_r. }
    destruct (Z.ltb_spec r ZIP_BIGLEN) as [Hsm|Hbig].
    + (* the new length fits one byte *)
      assert (W : prev_width r = 1)
        by (unfold prev_width; destruct (Z.ltb_spec r ZIP_BIGLEN); lia).
      rewrite W. subst tg. cbn [bump growth entries].
      rewrite (wide_of_small r Hsm), orb_false_r.
      replace (hdr (b + (if w2 then 0 else 0))
                 (t + match rest with [] => 0 | _ :: _ => if w2 then 0 else 0 end) c)
        with Hd by (subst Hd; destruct w2, rest; now rewrite !Z.add_0_r).
      destruct w2; cbn [fwidth].
      * change (5 <? 1) with false. change (5 >? 1) with true. cbv iota.
        rewrite (encode_force be zl (q + r)
                   ((Hd ++ A) ++ field wc reqlen ++ entry_body s') (field true r_old)
                   (entry_body s2 ++ entries (raw true s2) rest ++ [ZIP_END]) r);
          [f_equal; zapp|subst zl; cbn [entries]; zapp|exact Hq2
           |rewrite size_field; reflexivity|lia].
      * change (1 <? 1) with false. change (1 >? 1) with false. cbv iota.
        rewrite (encode_prev be zl (q + r)
                   ((Hd ++ A) ++ field wc reqlen ++ entry_body s') (field false r_old)
                   (entry_body s2 ++ entries (raw false s2) rest ++ [ZIP_END]) r);
          [|subst zl; cbn [entries]; zapp|exact Hq2
           |rewrite size_field, W; reflexivity|lia].
        cbn [mbind option_bind]. f_equal.
        rewrite prev_field_field, (wide_of_small r Hsm). zapp.
    + (* the new length takes five bytes *)
      assert (W : prev_width r = 5)
        by (unfold prev_width; destruct (Z.ltb_spec r ZIP_BIGLEN); lia).
      rewrite W. subst tg. cbn [bump growth entries].
      rewrite (wide_of_big r Hbig), orb_true_r.
      destruct w2; cbn [fwidth].
      * change (5 <? 5) with false. change (5 >? 5) with false. cbv iota.
        rewrite (encode_prev be zl (q + r)
                   ((Hd ++ A) ++ field wc reqlen ++ entry_body s') (field true r_old)
                   (entry_body s2 ++ entries (raw true s2) rest ++ [ZIP_END]) r);
          [|subst zl; cbn [entries]; zapp|exact Hq2
           |rewrite size_field, W; reflexivity|lia].
        cbn [mbind option_bind]. f_equal.
        rewrite prev_field_field, (wide_of_big r Hbig).
        replace (hdr (b + 0) (t + match rest with [] => 0 | _ :: _ => 0 end) c)
          with Hd by (subst Hd; destruct rest; now rewrite !Z.add_0_r).
        zapp.
      * (* the field grows *)
        change (1 <? 5) with true. cbv iota.
        change (u64 (5 - 1)) with 4.
        pose proof (size_body_lower s2) as [Hb2 _].
        pose proof (size_nonneg (entries (raw false s2) rest)) as HE0.
        set (R := A ++ field wc reqlen ++ entry_body s' ++ field false r_old
                  ++ entry_body s2 ++ entries (raw false s2) rest ++ [ZIP_END]).
        assert (HzR : zl = Hd ++ R) by (subst zl R; cbn [entries]; zapp).
        assert (HbR : b = ZIPLIST_HEADER_SIZE + size R).
        { rewrite Hb. subst R. cbn [entries]. f_equal. rewrite !size_app. lia. }
        assert (Hbq : b = q + r + 1 + size (entry_body s2)
                          + size (entries (raw false s2) rest) + 1).
        { rewrite HbR, Hq2. subst R Hd. rewrite !size_app, !size_hdr, !size_field.
          unfold ZIPLIST_HEADER_SIZE. cbn [fwidth]. rewrite !size_cons, !size_nil. lia. }
        rewrite HzR. subst Hd.
        rewrite (ziplistResize_grow be b t c R 4 ltac:(lia) HbR Hb4).
        cbn [mbind option_bind].
        destruct (hdr_tail be (b + 4) t c (R ++ replicate (Z.to_nat (4 - 1)) 0 ++ [ZIP_END]))
          as (xt & Hxt & Hxt').
        rewrite Hxt. cbn [mbind option_bind]. rewrite Hxt', (u32_below t) by lia.
        set (t' := t + match rest with [] => 0 | _ :: _ => 4 end).
        assert (Hset :
          (if negb (t =? q + r)
           then set_ZIPLIST_TAIL_OFFSET be
                  (hdr (b + 4) t c ++ R ++ replicate (Z.to_nat (4 - 1)) 0 ++ [ZIP_END])
                  (intrev32ifbe be (u32 (t + 4)))
           else Some (hdr (b + 4) t c ++ R ++ replicate (Z.to_nat (4 - 1)) 0 ++ [ZIP_END]))
          = Some (hdr (b + 4) t' c ++ R ++ replicate (Z.to_nat (4 - 1)) 0 ++ [ZIP_END])).
        { subst t'. destruct rest as [|e3 rest].
          - rewrite Ht, Z.eqb_refl. cbn [negb]. now rewrite !Z.add_0_r.
          - destruct (Z.eqb_spec t (q + r)) as [E|_]; [contradiction|]. cbn [negb].
            rewrite set_hdr_tail, hdr_u32_tail. reflexivity. }
        rewrite Hset. clear Hset. cbn [mbind option_bind].
        set (Hd1 := hdr (b + 4) t' c).
        set (P := (Hd1 ++ A) ++ field wc reqlen ++ entry_body s').
        set (Y := entry_body s2 ++ entries (raw false s2) rest).
        assert (HP : size P = q + r).
        { subst P Hd1. rewrite Hq2. rewrite !size_app, !size_hdr. reflexivity. }
        assert (HY : size Y = b - (q + r) - 2) by (subst Y; rewrite size_app; lia).
        pose proof (size_nonneg Y) as HY0. pose proof (size_nonneg P) as HP0.
        set (W5 := field false r_old ++ Y ++ ZIP_END :: replicate (Z.to_nat (4 - 1)) 0).
        assert (HW5 : size W5 = size Y + 5).
        { subst W5. rewrite !size_app, size_field, size_cons, size_replicate.
          cbn [fwidth]. lia. }
        set (zl1 := Hd1 ++ R ++ replicate (Z.to_nat (4 - 1)) 0 ++ [ZIP_END]).
        assert (Hz1a : zl1 = (P ++ field false r_old) ++ Y
                             ++ (ZIP_END :: replicate (Z.to_nat (4 - 1)) 0 ++ [ZIP_END])).
        { subst zl1 P Y R. zapp. }
        assert (Hz1b : zl1 = (P ++ take 5 W5) ++ drop 5 W5 ++ [ZIP_END]).
        { rewrite <- app_assoc, (app_assoc (take 5 W5)), take_drop.
          subst zl1 P W5 Y R. zapp. }
        assert (Ht5 : size (take 5 W5) = 5)
          by (apply (size_take_le 5); pose proof (size_nonneg Y); lia).
        assert (Hd5 : size (drop 5 W5) = size Y).
        { rewrite (size_drop_le 5) by (pose proof (size_nonneg Y); lia). lia. }
        assert (Hmv : memmove zl1 (q + r + 5) (q + r + 1) (u64 (b - (q + r) - 1 - 1))
                      = Some ((P ++ take 5 W5) ++ Y ++ [ZIP_END])).
        { unfold memmove.
          replace (u64 (b - (q + r) - 1 - 1)) with (size Y)
            by (unfold u64; rewrite Z.mod_small by lia; lia).
          rewrite (loadn_split zl1 _ _ _ Y _ Hz1a);
            [|rewrite size_app, size_field; cbn [fwidth]; lia|reflexivity].
          cbn [mbind option_bind].
          apply (storen_split zl1 _ _ _ (drop 5 W5) _ Hz1b); [rewrite size_app; lia|lia]. }
        rewrite Hmv. clear Hmv. cbn [mbind option_bind].
        rewrite (encode_prev be _ (q + r) P (take 5 W5) (Y ++ [ZIP_END]) r);
          [|zapp|lia|lia|lia].
        cbn [mbind option_bind].
        rewrite prev_field_field, (wide_of_big r Hbig).
        assert (Hr2 : raw true s2 < ZIP_BIGLEN)
          by (unfold raw, ZIP_BIGLEN; cbn [fwidth]; lia).
        assert (Hr2o : 0 <= raw false s2 < ZIP_BIGLEN)
          by (unfold raw, ZIP_BIGLEN; cbn [fwidth]; lia).
        pose proof (cascade_second fuel (A ++ field wc reqlen ++ entry_body s')
                      true r s2 rest (raw false s2) (b + 4) t' c (u64 (b + 4))
                      ltac:(lia) ltac:(discriminate) Hs2 Hr2 Hr2o Hfo Hmore) as H2.
        cbv zeta in H2. fold Hd1 in H2.
        replace (size (Hd1 ++ A ++ field wc reqlen ++ entry_body s')) with (q + r) in H2
          by (rewrite <- HP; subst P; zapp).
        replace (P ++ field true r ++ Y ++ [ZIP_END])
          with (Hd1 ++ (A ++ field wc reqlen ++ entry_body s') ++ field true r
                ++ entry_body s2 ++ entries (raw false s2) rest ++ [ZIP_END])
          by (subst P Y; zapp).
        rewrite H2. f_equal. subst Hd1 t'. zapp.
Qed.

(** [__ziplistCascadeUpdate] on such a list. *)
Lemma cascade_update A wc reqlen s' more r_old b t c :
  let r := raw wc s' in
  let q := size (hdr b t c ++ A) in
  let tg := match more with _ :: _ :: _ => growth r more | _ => 0 end in
  0 <= reqlen < 2^32 -> field_ok wc reqlen -> size s' + 16 < 2^32 ->
  0 <= r_old < 2^32 -> fields_ok r_old more ->
  Forall (fun e => size (snd e) + 16 < 2^32) more ->
  match more with (_, s2) :: _ => size (entry_body s2) <= 248 | [] => True end ->
  b = ZIPLIST_HEADER_SIZE
      + size (A ++ field wc reqlen ++ entry_body s' ++ entries r_old more ++ [ZIP_END]) ->
  b + 4 < 2^32 -> 0 <= t -> t + 4 < 2^32 ->
  match more with
  | [] => True
  | [_] => t = q + r
  | _ :: _ :: _ => t <> q + r
  end ->
  __ziplistCascadeUpdate be
    (hdr b t c ++ A ++ field wc reqlen ++ entry_body s' ++ entries r_old more ++ [ZIP_END]) q
  = Some (hdr (b + growth r more) (t + tg) c
          ++ A ++ field wc reqlen ++ entry_body s' ++ entries r (bump r more) ++ [ZIP_END]).
Proof.
  intros r q tg Hreq Hok Hs' Hro Hfo Hmore H248 Hb Hb4 Ht0 Ht4 Ht.
  unfold __ziplistCascadeUpdate.
  destruct (hdr_bytes be b t c
              (A ++ field wc reqlen ++ entry_body s' ++ entries r_old more ++ [ZIP_END]))
    as (y & Hy & Hy').
  rewrite Hy. cbn [mbind option_bind]. rewrite Hy'.
  pose proof (size_nonneg (A ++ field wc reqlen ++ entry_body s' ++ entries r_old more
                           ++ [ZIP_END])) as H0.
  unfold ZIPLIST_HEADER_SIZE in Hb.
  rewrite u32_below by lia.
  assert (HL : exists fuel,
             length (hdr b t c ++ A ++ field wc reqlen ++ entry_body s'
                     ++ entries r_old more ++ [ZIP_END]) = S (S fuel)).
  { rewrite length_app. unfold hdr. rewrite !length_app, !length_le_bytes.
    eexists. cbn [Nat.add]. reflexivity. }
  destruct HL as (fuel & ->).
  now apply cascade_first.
Qed.

End Cascade.

Lemma fits_all es : fits es -> Forall (fun e => size (snd e) + 16 < 2^32) es.
Proof.
  intros Hf. apply Forall_forall. intros [w s] Hin.
  apply list_elem_of_split in Hin as (pre & more & ->).
  now destruct (fits_entry pre w s more Hf) as (_ & _ & H & _).
Qed.

Lemma tail_of_mid pre w s more :
  tail_of (pre ++ (w, s) :: more)
  = ZIPLIST_HEADER_SIZE + size (entries 0 (pre ++ (w, s) :: more))
    - last_raw (raw w s) more.
Proof.
  unfold tail_of. rewrite last_raw_app. cbn [last_raw].
  destruct pre; reflexivity.
Qed.

Lemma fields_ok_bump r r_old more :
  fields_ok r_old more ->
  match more with (_, s2) :: _ => size (entry_body s2) <= 248 | [] => True end ->
  fields_ok r (bump r more).
Proof.
  destruct more as [|[w2 s2] rest]; [easy|]. cbn [bump fields_ok].
  intros [H1 H2] H248. split.
  - intros Hw. apply orb_false_iff in Hw as [_ Hw]. unfold wide_of in Hw.
    apply negb_false_iff, Z.ltb_lt in Hw. exact Hw.
  - destruct rest as [|[w3 s3] rest]; [easy|]. cbn [fields_ok] in *.
    destruct H2 as [H2 H3]. split; [|exact H3].
    intros _. unfold raw, ZIP_BIGLEN.
    destruct (fwidth_cases (w2 || wide_of r)); lia.
Qed.

(** The list with an entry [s] put before the entry [s'], the first of
    [(w, s') :: more]: the displaced entry holds the length of the new one,
    and the entry after it the length of the displaced one. *)
Definition inserted (pre : list (bool * list Z)) (s s' : list Z)
    (more : list (bool * list Z)) : list (bool * list Z) :=
  let w := wide_of (last_raw 0 pre) in
  let wc := wide_of (raw w s) in
  pre ++ (w, s) :: (wc, s') :: bump (raw wc s') more.

Lemma size_inserted pre s s' more :
  let w := wide_of (last_raw 0 pre) in
  let wc := wide_of (raw w s) in
  size (entries 0 (inserted pre s s' more))
  = size (entries 0 (pre ++ (w, s') :: more)) + raw w s + (fwidth wc - fwidth w)
    + growth (raw wc s') more.
Proof.
  intros w wc. unfold inserted. fold w wc.
  rewrite !size_entries_app_le, !size_entries_cons.
  rewrite (size_entries_bump (raw w s') (raw wc s') more).
  unfold raw. lia.
Qed.

Lemma growth_bound r more : 0 <= growth r more <= 4.
Proof. destruct more as [|[[] ?] ?]; cbn [growth]; [lia..|]. destruct (wide_of r); lia. Qed.

Lemma fits_inserted pre s s' more :
  let w := wide_of (last_raw 0 pre) in
  fits (pre ++ (w, s') :: more) ->
  match more with (_, s2) :: _ => size (entry_body s2) <= 248 | [] => True end ->
  size (entries 0 (pre ++ (w, s') :: more)) + size s + 96 < 2^32 ->
  Z.of_nat (length (pre ++ (w, s') :: more)) + 1 < 65535 ->
  fits (inserted pre s s' more).
Proof.
  intros w Hf H248 Hsz Hc. pose proof (size_nonneg s) as Hs0.
  pose proof (size_entries_nonneg 0 (pre ++ (w, s') :: more)) as He0.
  destruct Hf as (Hok & _ & _). split; [|split].
  - unfold inserted. fold w. apply fields_ok_app in Hok as (Hpre & Hw & Hmore).
    apply fields_ok_app. split; [exact Hpre|]. cbn [fields_ok].
    split; [apply field_ok_wide_of|]. split; [apply field_ok_wide_of|].
    now apply (fields_ok_bump _ (raw w s') more).
  - rewrite size_inserted. fold w. set (wc := wide_of (raw w s)).
    pose proof (growth_bound (raw wc s') more).
    destruct (size_entry_body_upper s ltac:(lia)) as [Hu _].
    assert (raw w s = fwidth w + size (entry_body s)) by reflexivity.
    destruct (fwidth_cases w), (fwidth_cases wc); lia.
  - unfold inserted. fold w. rewrite length_app in *. cbn [length] in *.
    destruct more as [|[w2 s2] rest]; cbn [bump length] in *; lia.
Qed.

Lemma tail_of_inserted pre s s' more :
  let w := wide_of (last_raw 0 pre) in
  let wc := wide_of (raw w s) in
  fields_ok (raw w s') more ->
  tail_of (inserted pre s s' more)
  = tail_of (pre ++ (w, s') :: more) + raw w s
    + match more with [] => 0 | _ :: _ => fwidth wc - fwidth w end
    + match more with _ :: _ :: _ => growth (raw wc s') more | _ => 0 end.
Proof.
  intros w wc Hok. unfold inserted. fold w wc.
  replace (pre ++ (w, s) :: (wc, s') :: bump (raw wc s') more)
    with ((pre ++ [(w, s)]) ++ (wc, s') :: bump (raw wc s') more) by zapp.
  rewrite !tail_of_mid.
  replace ((pre ++ [(w, s)]) ++ (wc, s') :: bump (raw wc s') more)
    with (inserted pre s s' more) by (unfold inserted; fold w wc; zapp).
  rewrite size_inserted. fold w wc.
  destruct more as [|[w2 s2] [|e3 rest]].
  - cbn [bump last_raw growth]. unfold raw. lia.
  - cbn [bump last_raw growth]. unfold raw. rewrite fwidth_orb_wide. lia.
  - rewrite (last_raw_bump (raw w s')). lia.
Qed.

Section InsertBefore.
Variable be : bool.

Lemma layout_diff pre w s' more n :
  fits (pre ++ (w, s') :: more) -> 0 <= n ->
  zipPrevLenByteDiff be (layout (pre ++ (w, s') :: more)) (off pre) n
  = Some (prev_width n - fwidth w).
Proof.
  intros Hf Hn. destruct (fits_entry pre w s' more Hf) as (Hpl & Hok & _).
  unfold zipPrevLenByteDiff.
  rewrite (decode_prevsize _ (off pre) _ _ _ _ (layout_at pre w s' more));
    [|unfold off; now rewrite size_app, size_hdr|lia|exact Hok].
  cbn [mbind option_bind]. rewrite zipPrevEncodeLength_null. cbn [mbind option_bind].
  f_equal. apply sint_small; [lia|].
  destruct (prev_width_cases n) as [-> | ->];
    destruct (fwidth_cases w) as [-> | ->]; lia.
Qed.

(** An insertion before an entry whose field has the width its length
    asks for. *)
Lemma insert_mid pre s s' more :
  let w := wide_of (last_raw 0 pre) in
  fits (pre ++ (w, s') :: more) ->
  match more with (_, s2) :: _ => size (entry_body s2) <= 248 | [] => True end ->
  size (entries 0 (pre ++ (w, s') :: more)) + size s + 96 < 2^32 ->
  Z.of_nat (length (pre ++ (w, s') :: more)) + 1 < 65535 ->
  __ziplistInsert be (layout (pre ++ (w, s') :: more)) (off pre) s
  = Some (layout (inserted pre s s' more)).
Proof.
  intros w Hf0 H248 Hroom Hcount.
  pose proof (fits_inserted pre s s' more Hf0 H248 Hroom Hcount) as Hf.
  pose proof (size_inserted pre s s' more) as Hnew.
  pose proof (tail_of_inserted pre s s' more) as HTn.
  cbv zeta in Hnew, HTn. fold w in Hf, Hnew, HTn.
  destruct (fits_entry pre w s' more Hf0) as (Hpl & _ & Hs' & _ & Hb0).
  pose proof (fits_all _ Hf0) as Hall.
  apply Forall_app in Hall as [_ Hall]. apply Forall_cons in Hall as [_ Hmore].
  destruct Hf0 as (Hok0 & Hsz0 & Hc0).
  pose proof Hok0 as Hok0'. apply fields_ok_app in Hok0' as (_ & _ & Hokm).
  assert (Hf0 : fits (pre ++ (w, s') :: more)) by (split; [|split]; assumption).
  pose proof (size_nonneg s) as Hs0.
  assert (Hs : size s + 16 < 2^32).
  { pose proof (size_entries_nonneg 0 (pre ++ (w, s') :: more)). lia. }
  set (pl := last_raw 0 pre) in *.
  set (reqlen := raw w s) in *.
  set (wc := wide_of reqlen) in *.
  set (nd := prev_width reqlen - prev_width pl).
  set (r_old := raw w s') in *. set (r := raw wc s') in *.
  specialize (HTn Hokm).
  pose proof (prev_width_cases pl) as Hw1. pose proof (prev_width_cases reqlen) as Hw2.
  assert (Hfw : fwidth w = prev_width pl) by (symmetry; apply prev_width_fwidth).
  assert (Hfwc : fwidth wc = prev_width reqlen) by (symmetry; apply prev_width_fwidth).
  pose proof (size_body_lower s) as [Hbs _]. pose proof (size_body_lower s') as [Hbs' _].
  destruct (size_entry_body_upper s ltac:(lia)) as [Hbu _].
  assert (Hro_eq : r_old = prev_width pl + size (entry_body s'))
    by (subst r_old; unfold raw; lia).
  assert (Hrn_eq : r = prev_width reqlen + size (entry_body s'))
    by (subst r; unfold raw; lia).
  assert (Hreq_eq : reqlen = prev_width pl + size (entry_body s))
    by (subst reqlen; unfold raw; lia).
  assert (Hreq6 : 0 < reqlen + nd) by (subst nd; lia).
  assert (Hdiff : r = r_old + nd) by (subst nd; lia).
  pose proof (size_entries_nonneg 0 pre) as He0.
  pose proof (size_entries_nonneg r_old more) as He1.
  pose proof (growth_bound r more) as Hg.
  assert (Hold : size (entries 0 (pre ++ (w, s') :: more))
                 = size (entries 0 pre) + r_old + size (entries r_old more)).
  { rewrite size_entries_app_le, size_entries_cons. fold pl r_old. lia. }
  assert (Hro : 0 <= r_old < 2^32) by lia.
  unfold __ziplistInsert.
  destruct (layout_bytes be (pre ++ (w, s') :: more)) as (x & -> & Hx).
  cbn [mbind option_bind]. rewrite Hx. clear x Hx.
  rewrite (u32_below (_ + _ + 1)) by (unfold ZIPLIST_HEADER_SIZE; lia).
  destruct (layout_load_entry be pre w s' more Hf0) as (x & Hx & Hxe). rewrite Hx.
  cbn [mbind option_bind]. destruct (Z.eqb_spec x ZIP_END) as [|_]; [contradiction|].
  cbn [negb].
  destruct (entry_at be _ (off pre) _ _ _ _ _ (layout_at pre w s' more)) as (_ & _ & He & _);
    [unfold off; now rewrite size_app, size_hdr|exact Hpl|apply field_ok_wide_of|exact Hs'|].
  fold pl in He. rewrite He. cbn [mbind option_bind].
  rewrite (zipEntry_prevlen be _ _ _ He). cbn [mbind option_bind prevrawlen prevrawlensize].
  rewrite insert_triple by lia. cbv beta iota zeta.
  rewrite zipPrevEncodeLength_null. cbn [mbind option_bind].
  rewrite zipEncodeLength_null. cbn [mbind option_bind].
  destruct (write_header s ltac:(lia)) as (Hh & _). rewrite Hh.
  rewrite reqlen_u64 by exact Hs. fold w reqlen.
  rewrite (u32_below reqlen) by lia.
  rewrite (layout_diff pre w s' more reqlen Hf0) by lia. rewrite Hfw. fold nd.
  cbn [mbind option_bind].
  set (B := ZIPLIST_HEADER_SIZE + size (entries 0 (pre ++ (w, s') :: more)) + 1).
  replace (B + reqlen + nd) with (B + (reqlen + nd)) by lia. subst B.
  rewrite layout_resize; [|lia|unfold ZIPLIST_HEADER_SIZE; lia].
  cbn [mbind option_bind].
  set (B := ZIPLIST_HEADER_SIZE + size (entries 0 (pre ++ (w, s') :: more)) + 1).
  set (T := tail_of (pre ++ (w, s') :: more)) in *.
  set (c := Z.of_nat (length (pre ++ (w, s') :: more))) in *.
  set (E1 := entries 0 pre).
  assert (HE : entries 0 (pre ++ (w, s') :: more)
               = E1 ++ prev_field pl ++ entry_body s' ++ entries r_old more).
  { rewrite entries_app. rewrite prev_field_field. reflexivity. }
  rewrite HE.
  assert (Hoff : off pre = size (hdr (B + (reqlen + nd)) T c ++ E1)).
  { unfold off. now rewrite size_app, size_hdr. }
  match goal with |- context [load ?z (off pre)] => set (zl1 := z) end.
  set (A := hdr (B + (reqlen + nd)) T c ++ E1) in *.
  set (Y := entry_body s' ++ entries r_old more).
  assert (Hz1 : zl1 = A ++ prev_field pl ++ Y
                      ++ ZIP_END :: replicate (Z.to_nat (reqlen + nd - 1)) 0 ++ [ZIP_END])
    by (subst zl1 A Y; zapp).
  (* the entry at the place of the insertion is still there *)
  destruct (prev_field_head pl ltac:(lia)) as (x' & F & HF & Hx').
  rewrite (load_split zl1 (off pre) A x'
             (F ++ Y ++ ZIP_END :: replicate (Z.to_nat (reqlen + nd - 1)) 0 ++ [ZIP_END]));
    [|rewrite Hz1, HF; zapp|exact Hoff].
  cbn [mbind option_bind]. destruct (Z.eqb_spec x' ZIP_END) as [|_]; [contradiction|].
  cbn [negb].
  (* the move and the link *)
  destruct (move_and_link be zl1 (off pre) A pl Y reqlen B Hz1 Hoff)
    as (G & zl2 & HG & Hmove & Hlink).
  { rewrite <- Hoff. unfold off, ZIPLIST_HEADER_SIZE. lia. }
  { lia. }
  { lia. }
  { exact Hreq6. }
  { subst B Y. rewrite Hold, size_app. unfold off, ZIPLIST_HEADER_SIZE. fold E1. lia. }
  { subst B. rewrite Hold. unfold ZIPLIST_HEADER_SIZE. lia. }
  fold nd in Hmove. rewrite Hmove. cbn [mbind option_bind].
  rewrite Hlink. cbn [mbind option_bind]. clear Hmove Hlink zl2 Hz1 zl1.
  (* the offset of the last entry *)
  assert (HT : T = ZIPLIST_HEADER_SIZE + size (entries 0 pre) + r_old
                   + size (entries r_old more) - last_raw r_old more).
  { subst T. rewrite tail_of_mid, Hold. fold r_old. lia. }
  assert (HTb : 0 <= T /\ T + reqlen + 16 < 2^32).
  { destruct (last_raw_bound more r_old ltac:(lia)) as [L1 L2].
    rewrite HT. unfold ZIPLIST_HEADER_SIZE.
    destruct more as [|e2 more']; [cbn [last_raw entries] in *; rewrite size_nil; lia|].
    specialize (L2 ltac:(congruence)). lia. }
  subst A Y. set (B' := B + (reqlen + nd)). rewrite <- !app_assoc.
  destruct (hdr_tail be B' T c (E1 ++ G ++ prev_field reqlen ++ entry_body s'
                                  ++ entries r_old more ++ [ZIP_END])) as (y & -> & Hy).
  cbn [mbind option_bind]. rewrite Hy, (u32_below T) by lia. clear y Hy.
  rewrite set_hdr_tail, hdr_u32_tail. cbn [mbind option_bind].
  assert (Hoff2 : forall t, off pre + reqlen = size (hdr B' t c ++ E1 ++ G)).
  { intros t. unfold off, ZIPLIST_HEADER_SIZE. subst E1.
    rewrite !size_app, size_hdr, HG. lia. }
  rewrite (prev_field_field reqlen). fold wc.
  destruct (entry_at be (hdr B' (T + reqlen) c ++ E1 ++ G ++ field wc reqlen
                           ++ entry_body s' ++ entries r_old more ++ [ZIP_END])
              (off pre + reqlen) (hdr B' (T + reqlen) c ++ E1 ++ G) wc reqlen s'
              (entries r_old more ++ [ZIP_END]))
    as (_ & _ & He2 & _); [zapp|apply Hoff2|lia|apply field_ok_wide_of|exact Hs'|].
  rewrite He2. cbn [mbind option_bind headersize len].
  assert (Hraw2 : u64 (reqlen + (fwidth wc + entry_lensize s') + entry_len s')
                  = reqlen + r).
  { rewrite Hrn_eq. pose proof (size_nonneg s').
    rewrite size_entry_body by lia. rewrite Hro_eq, size_entry_body in Hro by lia.
    unfold u64. rewrite Z.mod_small by lia. lia. }
  rewrite Hraw2.
  assert (Hoff3 : forall t, off pre + (reqlen + r)
                            = size ((hdr B' t c ++ E1 ++ G) ++ field wc reqlen
                                    ++ entry_body s')).
  { intros t. rewrite size_app, <- Hoff2, size_app, size_field. lia. }
  set (T1 := T + reqlen + match more with [] => 0 | _ :: _ => nd end).
  match goal with
  | |- (?X ≫= _) = _ =>
      assert (Htail : X = Some (hdr B' T1 c ++ E1 ++ G ++ field wc reqlen
                                ++ entry_body s' ++ entries r_old more ++ [ZIP_END]))
  end.
  { subst T1. destruct more as [|[w2 s2] more'].
    - cbn [entries app].
      rewrite (load_split _ _ ((hdr B' (T + reqlen) c ++ E1 ++ G) ++ field wc reqlen
                               ++ entry_body s') ZIP_END []);
        [|zapp|apply Hoff3].
      cbn [mbind option_bind]. change (ZIP_END =? ZIP_END) with true. cbn [negb].
      rewrite Z.add_0_r. reflexivity.
    - destruct Hokm as [Hok2 _].
      destruct (field_head w2 r_old ltac:(lia) Hok2) as (x2 & F2 & HF2 & Hx2).
      rewrite (load_split _ _ ((hdr B' (T + reqlen) c ++ E1 ++ G) ++ field wc reqlen
                               ++ entry_body s') x2
                 (F2 ++ entry_body s2 ++ entries (raw w2 s2) more' ++ [ZIP_END]));
        [|cbn [entries]; rewrite HF2; zapp|apply Hoff3].
      cbn [mbind option_bind]. destruct (Z.eqb_spec x2 ZIP_END) as [|_]; [contradiction|].
      cbn [negb].
      destruct (hdr_tail be B' (T + reqlen) c
                  (E1 ++ G ++ field wc reqlen ++ entry_body s'
                   ++ entries r_old ((w2, s2) :: more') ++ [ZIP_END])) as (y & -> & Hy).
      cbn [mbind option_bind]. rewrite Hy, (u32_below (T + reqlen)) by lia.
      rewrite set_hdr_tail, hdr_u32_tail. reflexivity. }
  rewrite Htail. clear Htail. cbn [mbind option_bind].
  (* the cascade *)
  set (tg := match more with _ :: _ :: _ => growth r more | _ => 0 end) in *.
  match goal with
  | |- (?X ≫= _) = _ =>
      assert (Hcasc : X = Some (hdr (B' + growth r more) (T1 + tg) c
                                ++ E1 ++ G ++ field wc reqlen
                                ++ entry_body s' ++ entries r (bump r more) ++ [ZIP_END]))
  end.
  { destruct (Z.eqb_spec nd 0) as [E0|E0]; cbn [negb].
    - assert (Er : r = r_old) by lia.
      assert (Hbm : bump r more = more /\ growth r more = 0).
      { rewrite Er. destruct more as [|[w2 s2] more']; [easy|]. cbn [bump growth].
        destruct Hokm as [Hok2 _]. destruct w2; [easy|].
        rewrite wide_of_small by now apply Hok2. easy. }
      destruct Hbm as [Hbm Hg0]. rewrite Hbm. subst tg. rewrite Hg0, Er.
      replace (match more with _ :: _ :: _ => 0 | _ => 0 end) with 0
        by (destruct more as [|? [|? ?]]; reflexivity).
      now rewrite !Z.add_0_r.
    - rewrite (Hoff2 T1).
      replace (hdr B' T1 c ++ E1 ++ G ++ field wc reqlen ++ entry_body s'
               ++ entries r_old more ++ [ZIP_END])
        with (hdr B' T1 c ++ (E1 ++ G) ++ field wc reqlen ++ entry_body s'
              ++ entries r_old more ++ [ZIP_END]) by zapp.
      replace (hdr B' T1 c ++ E1 ++ G) with (hdr B' T1 c ++ (E1 ++ G)) by zapp.
      rewrite (cascade_update be (E1 ++ G) wc reqlen s' more r_old B' T1 c);
        [f_equal; zapp|lia|apply field_ok_wide_of|exact Hs'|lia|exact Hokm|exact Hmore
         |exact H248| | | | |].
      + subst B' B. rewrite Hold. unfold ZIPLIST_HEADER_SIZE.
        rewrite !size_app, size_field, size_cons, size_nil, HG. fold E1. lia.
      + subst B' B. unfold ZIPLIST_HEADER_SIZE. lia.
      + subst T1. destruct more; lia.
      + subst T1. destruct more; lia.
      + replace (size (hdr B' T1 c ++ (E1 ++ G))) with (off pre + reqlen)
          by (rewrite (Hoff2 T1); f_equal; zapp).
        fold r. subst T1. rewrite HT. unfold off.
        destruct more as [|[w2 s2] [|[w3 s3] more']]; [exact I| |].
        * cbn [last_raw entries]. rewrite !size_app, size_field, size_nil.
          unfold raw. lia.
        * rewrite size_entries_cons.
          destruct (last_raw_bound ((w3, s3) :: more') (raw w2 s2)
                      ltac:(pose proof (raw_pos w2 s2); lia)) as [_ L2].
          specialize (L2 ltac:(congruence)). cbn [last_raw] in *.
          pose proof (raw_pos w2 s2). lia. }
  rewrite Hcasc. clear Hcasc. cbn [mbind option_bind].
  (* the new entry *)
  destruct (write_entry be (hdr (B' + growth r more) (T1 + tg) c ++ E1 ++ G
                              ++ field wc reqlen
                              ++ entry_body s' ++ entries r (bump r more) ++ [ZIP_END])
              (off pre) (hdr (B' + growth r more) (T1 + tg) c ++ E1) G
              (field wc reqlen ++ entry_body s' ++ entries r (bump r more) ++ [ZIP_END])
              pl s)
    as (zl1 & zl2 & W1 & W2 & W3);
    [zapp|unfold off; subst E1; rewrite size_app, size_hdr; reflexivity
     |rewrite HG; exact Hreq_eq|lia|exact Hs|].
  rewrite W1. cbn [mbind option_bind]. rewrite W2. cbn [mbind option_bind].
  rewrite W3. cbn [mbind option_bind].
  rewrite <- app_assoc, incr_hdr_count by (subst c; lia).
  f_equal. unfold layout.
  replace (ZIPLIST_HEADER_SIZE + size (entries 0 (inserted pre s s' more)) + 1)
    with (B' + growth r more) by (subst B' B nd; rewrite Hnew; lia).
  replace (tail_of (inserted pre s s' more)) with (T1 + tg)
    by (rewrite HTn; subst T1 nd; rewrite Hfw, Hfwc; lia).
  replace (Z.of_nat (length (inserted pre s s' more))) with (c + 1).
  2:{ subst c. unfold inserted. rewrite !length_app. cbn [length].
      destruct more as [|[w2 s2] more']; cbn [bump length]; lia. }
  unfold inserted. fold pl w reqlen wc r.
  rewrite (entries_app 0 pre). fold pl E1. cbn [entries]. fold reqlen r.
  rewrite prev_field_field. fold w.
  f_equal. zapp.
Qed.

End InsertBefore.

Section Push.
Variable be : bool.

Lemma ziplistNew_layout : ziplistNew be = Some (layout []).
Proof. destruct be; reflexivity. Qed.

Lemma ziplistPush_tail es s :
  fits (es ++ [(wide_of (last_raw 0 es), s)]) ->
  ziplistPush be (layout es) s ZIPLIST_TAIL
  = Some (layout (es ++ [(wide_of (last_raw 0 es), s)])).
Proof.
  intros Hf. unfold ziplistPush. change (ZIPLIST_TAIL =? ZIPLIST_HEAD) with false.
  cbv iota. unfold ZIPLIST_ENTRY_END.
  destruct (layout_bytes be es) as (x & -> & Hx). cbn [mbind option_bind].
  rewrite Hx. destruct (fits_snoc es _ Hf) as (_ & Hb & _).
  pose proof (size_entries_nonneg 0 es).
  rewrite u32_below by (unfold ZIPLIST_HEADER_SIZE; lia).
  replace (ZIPLIST_HEADER_SIZE + size (entries 0 es) + 1 - 1) with (off es)
    by (unfold off; lia).
  now apply insert_end.
Qed.

End Push.

End Ziplist.

(** ** IEEE 754 binary64 ([double]) *)

Module Double.

Abbreviation double := spec_float (only parsing).

Definition prec : Z := 53.
Definition emax : Z := 1024.

Definition dadd (x y : double) : double := SFadd prec emax x y.
Definition dmul (x y : double) : double := SFmul prec emax x y.
(** [x < y], [x == y], [x <= y] of C: false when an operand is NaN. *)
Definition dlt (x y : double) : bool := SFltb x y.
Definition deq (x y : double) : bool := SFeqb x y.
Definition dle (x y : double) : bool := SFleb x y.
Definition isnan (x : double) : bool :=
  match x with S754_nan => true | _ => false end.

Definition pos_zero : double := S754_zero false.
Definition pos_inf : double := S754_infinity false.
Definition neg_inf : double := S754_infinity true.
(** The integer [n] as a double, for small [n]. *)
Definition of_Z (n : Z) : double := binary_normalize prec emax n 0 false.

Lemma shr_1_nonneg mrs : 0 <= shr_m mrs -> 0 <= shr_m (shr_1 mrs).
Proof.
  destruct mrs as [m r s]. cbn [shr_m]. intros H.
  destruct m as [|[q|q|]|q]; cbn; lia.
Qed.

Lemma iter_pos_inv {A} (f : A -> A) (P : A -> Prop) :
  (forall x, P x -> P (f x)) -> forall n x, P x -> P (SpecFloat.iter_pos f n x).
Proof.
  intros Hf. induction n as [n IH|n IH|]; intros x Hx; cbn [SpecFloat.iter_pos]; auto.
Qed.

Lemma shr_fexp_nonneg m e l :
  0 <= m -> 0 <= shr_m (fst (shr_fexp prec emax m e l)).
Proof.
  intros Hm. unfold shr_fexp, shr.
  assert (H0 : 0 <= shr_m (shr_record_of_loc m l))
    by (destruct l as [|[]]; exact Hm).
  destruct (fexp prec emax (Zdigits2 m + e) - e) as [|n|n]; cbn [fst]; try exact H0.
  apply (@iter_pos_inv shr_record shr_1 (fun r => 0 <= shr_m r)); [exact shr_1_nonneg|exact H0].
Qed.

Lemma round_nearest_even_nonneg m l : 0 <= m -> 0 <= round_nearest_even m l.
Proof.
  intros Hm. destruct l as [|[]]; cbn [round_nearest_even]; try lia.
  destruct (Z.even m); lia.
Qed.

Lemma binary_round_aux_not_nan sx m e l :
  0 <= m -> binary_round_aux prec emax sx m e l <> S754_nan.
Proof.
  intros Hm. unfold binary_round_aux.
  pose proof (shr_fexp_nonneg m e l Hm) as H1.
  destruct (shr_fexp prec emax m e l) as [mrs' e'] eqn:E1. cbn [fst] in H1.
  pose proof (shr_fexp_nonneg _ e' loc_Exact
                (round_nearest_even_nonneg _ (loc_of_shr_record mrs') H1)) as H2.
  destruct (shr_fexp prec emax _ e' loc_Exact) as [mrs'' e''] eqn:E2.
  cbn [fst] in H2.
  destruct (shr_m mrs'') as [|q|q]; [discriminate| |lia].
  destruct (e'' <=? emax - prec); discriminate.
Qed.

Lemma binary_normalize_not_nan m e sz : binary_normalize prec emax m e sz <> S754_nan.
Proof.
  unfold binary_normalize, binary_round.
  destruct m as [|q|q]; [discriminate| |];
    destruct (shl_align _ _ _) as [mz ez]; apply binary_round_aux_not_nan; lia.
Qed.

(** The sum of two doubles that are not NaN is NaN exactly for the two
    infinities of opposite signs. *)
Lemma dadd_nan_iff x y :
  isnan x = false -> isnan y = false ->
  (isnan (dadd x y) = true <->
   (x = pos_inf /\ y = neg_inf) \/ (x = neg_inf /\ y = pos_inf)).
Proof.
  unfold dadd, pos_inf, neg_inf. intros Hx Hy. split.
  - intros H.
    destruct x as [sx|sx| |sx mx ex]; try discriminate;
    destruct y as [sy|sy| |sy my ey]; try discriminate;
    cbn [SFadd] in H; try discriminate H.
    + destruct sx, sy; discriminate H.
    + destruct sx, sy; try discriminate H; auto.
    + exfalso.
      destruct (binary_normalize prec emax _ _ _) eqn:E; try discriminate.
      now apply binary_normalize_not_nan in E.
  - intros [[-> ->]|[-> ->]]; reflexivity.
Qed.

(** The place of a double in the order of [<]: the class (negative infinity,
    negative, zero, positive, positive infinity), then the exponent, then the
    mantissa. *)
Definition order_key (x : spec_float) : Z * Z * Z :=
  match x with
  | S754_zero _ => (0, 0, 0)
  | S754_infinity s => (if s then -2 else 2, 0, 0)
  | S754_nan => (3, 0, 0)
  | S754_finite s m e => if s then (-1, - e, - Z.pos m) else (1, e, Z.pos m)
  end.

Definition key_lt (a b : Z * Z * Z) : Prop :=
  fst (fst a) < fst (fst b) \/
  (fst (fst a) = fst (fst b) /\
   (snd (fst a) < snd (fst b) \/ (snd (fst a) = snd (fst b) /\ snd a < snd b))).

Definition key_eq (a b : Z * Z * Z) : Prop :=
  fst (fst a) = fst (fst b) /\ snd (fst a) = snd (fst b) /\ snd a = snd b.

Lemma compare_order_key x y :
  isnan x = false -> isnan y = false ->
  (dlt x y = true <-> key_lt (order_key x) (order_key y)) /\
  (deq x y = true <-> key_eq (order_key x) (order_key y)).
Proof.
  unfold dlt, deq, SFltb, SFeqb, key_lt, key_eq.
  destruct x as [sx|sx| |sx mx ex], y as [sy|sy| |sy my ey]; try discriminate; intros _ _;
    cbn [SFcompare order_key];
    try (destruct sx); try (destruct sy); cbn [fst snd];
    try (split; split; intros H; try discriminate H; try reflexivity; lia).
  - change (PosDef.Pos.compare_cont Eq mx my) with (Pos.compare mx my).
    destruct (Z.compare_spec ex ey), (Pos.compare_spec mx my); cbn [CompOpp];
      split; split; intros H'; try discriminate H'; try reflexivity; lia.
  - change (PosDef.Pos.compare_cont Eq mx my) with (Pos.compare mx my).
    destruct (Z.compare_spec ex ey), (Pos.compare_spec mx my); cbn [CompOpp];
      split; split; intros H'; try discriminate H'; try reflexivity; lia.
Qed.

End Double.

(** ** Aggregation of ZUNIONSTORE / ZINTERSTORE, t_zset.c lines 2070-2090 *)

Module ZunionInter.
Import Double.

Definition REDIS_AGGR_SUM : Z := 1.
Definition REDIS_AGGR_MIN : Z := 2.
Definition REDIS_AGGR_MAX : Z := 3.

(** [zunionInterAggregate(&target, val, aggregate)]: the new value of
    [*target]; [None] is the [redisPanic] of the safety net. *)
Definition zunionInterAggregate (target val : double) (aggregate : Z)
  : option double :=
  if aggregate =? REDIS_AGGR_SUM then
    let target := dadd target val in
    (* The result of adding two doubles is NaN when one variable
       is +inf and the other is -inf. *)
    Some (if isnan target then pos_zero else target)
  else if aggregate =? REDIS_AGGR_MIN then
    Some (if dlt val target then val else target)
  else if aggregate =? REDIS_AGGR_MAX then
    Some (if dlt target val then val else target)
  else None.

(** The initial weighted score of an element, as both loops of
    [zunionInterGenericCommand] compute it:
    [score = weight * zval.score; if (isnan(score)) score = 0;]. *)
Definition weighted_score (weight score : double) : double :=
  let score := dmul weight score in
  if isnan score then pos_zero else score.

(** C9 — the sum aggregate never stores NaN.  Whenever the sum of the
    accumulated score and the incoming weighted score is NaN the stored
    aggregate is [+0.0], otherwise it is the sum; and for operands that are
    numbers (not NaN themselves) the sum is NaN exactly when one operand is
    [+inf] and the other [-inf]. *)
Theorem sum_aggregate_nan_is_zero (target val : double) :
  (isnan (dadd target val) = true ->
     zunionInterAggregate target val REDIS_AGGR_SUM = Some pos_zero)
  /\ (isnan (dadd target val) = false ->
     zunionInterAggregate target val REDIS_AGGR_SUM = Some (dadd target val))
  /\ (forall r, zunionInterAggregate target val REDIS_AGGR_SUM = Some r ->
                isnan r = false)
  /\ (isnan target = false -> isnan val = false ->
      (isnan (dadd target val) = true <->
       (target = pos_inf /\ val = neg_inf) \/ (target = neg_inf /\ val = pos_inf))).
Proof.
  unfold zunionInterAggregate.
  change (REDIS_AGGR_SUM =? REDIS_AGGR_SUM) with true. cbv iota zeta.
  split; [intros ->; reflexivity|].
  split; [intros ->; reflexivity|].
  split; [|apply dadd_nan_iff].
  intros r H. injection H as <-.
  destruct (isnan (dadd target val)) eqn:E; [reflexivity|exact E].
Qed.

Lemma sum_aggregate_nan_is_zero_witness :
  zunionInterAggregate pos_inf neg_inf REDIS_AGGR_SUM = Some pos_zero
  /\ zunionInterAggregate (of_Z 2) (of_Z 3) REDIS_AGGR_SUM = Some (of_Z 5)
  /\ isnan (dadd neg_inf pos_inf) = true.
Proof.
  destruct (sum_aggregate_nan_is_zero pos_inf neg_inf) as (H1 & _ & _ & _).
  destruct (sum_aggregate_nan_is_zero (of_Z 2) (of_Z 3)) as (_ & H2 & _ & _).
  destruct (sum_aggregate_nan_is_zero neg_inf pos_inf) as (_ & _ & _ & H4).
  split; [apply H1; reflexivity|].
  split; [rewrite H2; reflexivity|].
  apply H4; [reflexivity|reflexivity|]. right. split; reflexivity.
Defined.

End ZunionInter.

(** ** Hash table (dict.c lines 1-1270) *)

Module Dict.

Definition DICT_OK : Z := 0.
Definition DICT_ERR : Z := 1.
Definition DICT_HT_INITIAL_SIZE : Z := 4.
Definition LONG_MAX : Z := 2^63 - 1.
Definition dict_force_resize_ratio : Z := 5.

Section DictType.

(** Keys and values; the value of an entry that [dictAddRaw] has just
    created is not set yet ([None]). *)
Variables K V : Type.

(** The type descriptor: [type->hashFunction] (an [unsigned int]) and
    [dictCompareKeys]. *)
Variable hashFunction : K -> Z.
Variable keyCompare : K -> K -> bool.

(** The process-wide [dict_can_resize] flag. *)
Variable dict_can_resize : bool.

Record dictEntry := mk_dictEntry { key : K; v : option V }.

(** A bucket is the chain of its entries, head first. *)
Abbreviation bucket := (list dictEntry) (only parsing).

(** [table = None] is the NULL table of [_dictReset]. *)
Record dictht := mk_dictht {
  table : option (list (list dictEntry));
  size : Z;
  sizemask : Z;
  used : Z
}.

Record dict := mk_dict {
  ht0 : dictht;
  ht1 : dictht;
  rehashidx : Z;
  iterators : Z
}.

Definition dictIsRehashing (d : dict) : bool := negb (rehashidx d =? -1).
Definition dictHashKey (k : K) : Z := u32 (hashFunction k).

Definition _dictReset : dictht := mk_dictht None 0 0 0.

(** [dictCreate(type, privDataPtr)]. *)
Definition dictCreate : dict := mk_dict _dictReset _dictReset (-1) 0.

(** The [while(1)] loop of [_dictNextPower]: [i] doubles at each turn. *)
Fixpoint nextPower_loop (fuel : nat) (i size : Z) : option Z :=
  match fuel with
  | O => None
  | S fuel' => if i >=? size then Some i else nextPower_loop fuel' (u64 (i * 2)) size
  end.

Definition _dictNextPower (size : Z) : option Z :=
  if size >=? LONG_MAX then Some LONG_MAX
  else nextPower_loop 64 DICT_HT_INITIAL_SIZE size.

(** [dictExpand(d, size)]: the dictionary and the status. *)
Definition dictExpand (d : dict) (size : Z) : option (dict * Z) :=
  realsize ← _dictNextPower size;
  if dictIsRehashing d || (used (ht0 d) >? size) then Some (d, DICT_ERR)
  else
    let n := mk_dictht (Some (replicate (Z.to_nat realsize) []))
                       realsize (realsize - 1) 0 in
    match table (ht0 d) with
    | None => Some (mk_dict n (ht1 d) (rehashidx d) (iterators d), DICT_OK)
    | Some _ => Some (mk_dict (ht0 d) n 0 (iterators d), DICT_OK)
    end.

(** [while(d->ht[0].table[d->rehashidx] == NULL) d->rehashidx++;]
    running off the table is outside the allocation. *)
Fixpoint skip_empty (fuel : nat) (t : list (list dictEntry)) (idx : Z) : option Z :=
  match fuel with
  | O => None
  | S fuel' =>
      if idx <? 0 then None else
      b ← t !! Z.to_nat idx;
      match b with
      | [] => skip_empty fuel' t (idx + 1)
      | _ :: _ => Some idx
      end
  end.

(** The inner [while(de)] loop of [dictRehash]: every entry of the chain is
    pushed on the head of its bucket in [ht[1]]. *)
Fixpoint move_chain (de : list dictEntry) (h0 h1 : dictht) : option (dictht * dictht) :=
  match de with
  | [] => Some (h0, h1)
  | e :: nextde =>
      t1 ← table h1;
      let h := Z.land (dictHashKey (key e)) (sizemask h1) in
      b ← t1 !! Z.to_nat h;
      let h1' := mk_dictht (Some (<[Z.to_nat h := e :: b]> t1))
                           (size h1) (sizemask h1) (used h1 + 1) in
      let h0' := mk_dictht (table h0) (size h0) (sizemask h0) (used h0 - 1) in
      move_chain nextde h0' h1'
  end.

(** [dictRehash(d, n)]: the dictionary and the returned flag. *)
Fixpoint dictRehash (n : nat) (d : dict) : option (dict * Z) :=
  if negb (dictIsRehashing d) then Some (d, 0) else
  match n with
  | O => Some (d, 1)
  | S n' =>
      if used (ht0 d) =? 0 then
        Some (mk_dict (ht1 d) _dictReset (-1) (iterators d), 0)
      else
        (* assert(d->ht[0].size > (unsigned long)d->rehashidx) *)
        if negb (size (ht0 d) >? u64 (rehashidx d)) then None else
        t0 ← table (ht0 d);
        idx ← skip_empty (length t0) t0 (rehashidx d);
        de ← t0 !! Z.to_nat idx;
        '(h0, h1) ← move_chain de (ht0 d) (ht1 d);
        let h0 := mk_dictht (Some (<[Z.to_nat idx := []]> t0))
                            (size h0) (sizemask h0) (used h0) in
        dictRehash n' (mk_dict h0 h1 (idx + 1) (iterators d))
  end.

(** [_dictRehashStep(d)]. *)
Definition _dictRehashStep (d : dict) : option dict :=
  if iterators d =? 0 then '(d, _) ← dictRehash 1 d; Some d else Some d.

(** [_dictExpandIfNeeded(d)]. *)
Definition _dictExpandIfNeeded (d : dict) : option (dict * Z) :=
  if dictIsRehashing d then Some (d, DICT_OK)
  else if size (ht0 d) =? 0 then dictExpand d DICT_HT_INITIAL_SIZE
  else if (used (ht0 d) >=? size (ht0 d))
          && (dict_can_resize
              || (used (ht0 d) / size (ht0 d) >? dict_force_resize_ratio))
       then dictExpand d (u64 (used (ht0 d) * 2))
       else Some (d, DICT_OK).

(** The [while(he)] search of a chain. *)
Definition chain_has (k : K) (b : list dictEntry) : bool :=
  existsb (fun he => keyCompare k (key he)) b.

(** [_dictKeyIndex(d, key)]: the dictionary (it may have been expanded) and
    the index, [-1] when the key exists. *)
Definition _dictKeyIndex (d : dict) (k : K) : option (dict * Z) :=
  '(d, st) ← _dictExpandIfNeeded d;
  if st =? DICT_ERR then Some (d, -1) else
  let h := dictHashKey k in
  (* table = 0 *)
  t0 ← table (ht0 d);
  let idx := Z.land h (sizemask (ht0 d)) in
  he ← t0 !! Z.to_nat idx;
  if chain_has k he then Some (d, -1)
  else if negb (dictIsRehashing d) then Some (d, sint 32 idx)
  else
    (* table = 1 *)
    t1 ← table (ht1 d);
    let idx := Z.land h (sizemask (ht1 d)) in
    he ← t1 !! Z.to_nat idx;
    if chain_has k he then Some (d, -1) else Some (d, sint 32 idx).

(** [dictAddRaw(d, key)]: the dictionary and, when an entry was created, the
    table (0 or 1) and bucket whose head it is. *)
Definition dictAddRaw (d : dict) (k : K) : option (dict * option (Z * Z)) :=
  d ← (if dictIsRehashing d then _dictRehashStep d else Some d);
  '(d, index) ← _dictKeyIndex d k;
  if index =? -1 then Some (d, None)
  else
    let entry := mk_dictEntry k None in
    if dictIsRehashing d then
      t ← table (ht1 d);
      b ← (if index <? 0 then None else t !! Z.to_nat index);
      let h := mk_dictht (Some (<[Z.to_nat index := entry :: b]> t))
                         (size (ht1 d)) (sizemask (ht1 d)) (used (ht1 d) + 1) in
      Some (mk_dict (ht0 d) h (rehashidx d) (iterators d), Some (1, index))
    else
      t ← table (ht0 d);
      b ← (if index <? 0 then None else t !! Z.to_nat index);
      let h := mk_dictht (Some (<[Z.to_nat index := entry :: b]> t))
                         (size (ht0 d)) (sizemask (ht0 d)) (used (ht0 d) + 1) in
      Some (mk_dict h (ht1 d) (rehashidx d) (iterators d), Some (0, index)).

(** [dictSetVal(d, entry, val)] on the entry at the head of a bucket. *)
Definition set_head_val (h : dictht) (index : Z) (val : V) : option dictht :=
  t ← table h;
  b ← (if index <? 0 then None else t !! Z.to_nat index);
  match b with
  | [] => None
  | e :: b' =>
      Some (mk_dictht (Some (<[Z.to_nat index := mk_dictEntry (key e) (Some val) :: b']> t))
                      (size h) (sizemask h) (used h))
  end.

(** [dictAdd(d, key, val)]. *)
Definition dictAdd (d : dict) (k : K) (val : V) : option (dict * Z) :=
  '(d, entry) ← dictAddRaw d k;
  match entry with
  | None => Some (d, DICT_ERR)
  | Some (tbl, index) =>
      if tbl =? 0 then
        h ← set_head_val (ht0 d) index val;
        Some (mk_dict h (ht1 d) (rehashidx d) (iterators d), DICT_OK)
      else
        h ← set_head_val (ht1 d) index val;
        Some (mk_dict (ht0 d) h (rehashidx d) (iterators d), DICT_OK)
  end.

(** The [while(he)] loops of [dictFind] and [dictGenericDelete]. *)
Fixpoint chain_find (k : K) (b : list dictEntry) : option dictEntry :=
  match b with
  | [] => None
  | he :: next => if keyCompare k (key he) then Some he else chain_find k next
  end.

Fixpoint chain_unlink (k : K) (b : list dictEntry) : option (list dictEntry) :=
  match b with
  | [] => None
  | he :: next =>
      if keyCompare k (key he) then Some next
      else b' ← chain_unlink k next; Some (he :: b')
  end.

(** [dictFind(d, key)]: the dictionary (a rehash step may have run) and the
    entry, [None] for NULL. *)
Definition dictFind (d : dict) (k : K) : option (dict * option dictEntry) :=
  if size (ht0 d) =? 0 then Some (d, None) else
  d ← (if dictIsRehashing d then _dictRehashStep d else Some d);
  let h := dictHashKey k in
  t0 ← table (ht0 d);
  he ← t0 !! Z.to_nat (Z.land h (sizemask (ht0 d)));
  match chain_find k he with
  | Some e => Some (d, Some e)
  | None =>
      if negb (dictIsRehashing d) then Some (d, None)
      else
        t1 ← table (ht1 d);
        he ← t1 !! Z.to_nat (Z.land h (sizemask (ht1 d)));
        Some (d, chain_find k he)
  end.

(** [dictGenericDelete(d, key, nofree)]. *)
Definition dictGenericDelete (d : dict) (k : K) : option (dict * Z) :=
  if size (ht0 d) =? 0 then Some (d, DICT_ERR) else
  d ← (if dictIsRehashing d then _dictRehashStep d else Some d);
  let h := dictHashKey k in
  t0 ← table (ht0 d);
  let idx := Z.land h (sizemask (ht0 d)) in
  he ← t0 !! Z.to_nat idx;
  match chain_unlink k he with
  | Some he' =>
      let h0 := mk_dictht (Some (<[Z.to_nat idx := he']> t0))
                          (size (ht0 d)) (sizemask (ht0 d)) (used (ht0 d) - 1) in
      Some (mk_dict h0 (ht1 d) (rehashidx d) (iterators d), DICT_OK)
  | None =>
      if negb (dictIsRehashing d) then Some (d, DICT_ERR)
      else
        t1 ← table (ht1 d);
        let idx := Z.land h (sizemask (ht1 d)) in
        he ← t1 !! Z.to_nat idx;
        match chain_unlink k he with
        | Some he' =>
            let h1 := mk_dictht (Some (<[Z.to_nat idx := he']> t1))
                                (size (ht1 d)) (sizemask (ht1 d)) (used (ht1 d) - 1) in
            Some (mk_dict (ht0 d) h1 (rehashidx d) (iterators d), DICT_OK)
        | None => Some (d, DICT_ERR)
        end
  end.

Definition dictDelete (d : dict) (k : K) : option (dict * Z) :=
  dictGenericDelete d k.

(** [dictSize(d)]. *)
Definition dictSize (d : dict) : Z := used (ht0 d) + used (ht1 d).

(** *** What a dictionary stores, and its representation invariant *)

Definition ht_entries (h : dictht) : list dictEntry :=
  match table h with
  | None => []
  | Some t => concat t
  end.

(** All stored entries, primary table first. *)
Definition entries (d : dict) : list dictEntry :=
  ht_entries (ht0 d) ++ ht_entries (ht1 d).

(** The key is present in one of the two tables. *)
Definition present (d : dict) (k : K) : bool :=
  existsb (fun he => keyCompare k (key he)) (entries d).

(** One table: NULL exactly when its size is 0; otherwise a power of two
    of buckets, the mask one less, [used] the number of entries, and every
    entry in the bucket its hash selects. *)
Definition ht_wf (h : dictht) : Prop :=
  match table h with
  | None => size h = 0 /\ sizemask h = 0 /\ used h = 0
  | Some t =>
      (exists n : nat, size h = 2 ^ Z.of_nat n)
      /\ Z.of_nat (length t) = size h
      /\ sizemask h = size h - 1
      /\ used h = Z.of_nat (length (concat t))
      /\ (forall i b e, t !! i = Some b -> e ∈ b ->
            Z.land (dictHashKey (key e)) (sizemask h) = Z.of_nat i)
  end.

(** No two stored entries have keys that compare equal. *)
Fixpoint distinct_keys (es : list dictEntry) : Prop :=
  match es with
  | [] => True
  | e :: es' =>
      existsb (fun he => keyCompare (key e) (key he)) es' = false
      /\ distinct_keys es'
  end.

Definition dict_wf (d : dict) : Prop :=
  ht_wf (ht0 d) /\ ht_wf (ht1 d)
  /\ distinct_keys (entries d)
  /\ size (ht0 d) <= 2^31 /\ size (ht1 d) <= 2^31
  /\ (if dictIsRehashing d then
        0 <= rehashidx d <= size (ht0 d)
        /\ is_Some (table (ht0 d)) /\ is_Some (table (ht1 d))
        /\ (forall i b, table (ht0 d) = Some b -> (i < Z.to_nat (rehashidx d))%nat ->
              forall c, b !! i = Some c -> c = [])
      else ht1 d = _dictReset).

(** *** Facts about chains and tables *)

Lemma concat_split_at {A} (t : list (list A)) i b :
  t !! i = Some b ->
  concat t = concat (take i t) ++ b ++ concat (drop (S i) t).
Proof.
  intros H. rewrite <- (take_drop_middle t i b H) at 1.
  now rewrite concat_app, concat_cons.
Qed.

Lemma concat_insert_at {A} (t : list (list A)) i b b' :
  t !! i = Some b ->
  concat (<[i := b']> t) = concat (take i t) ++ b' ++ concat (drop (S i) t).
Proof.
  intros H. rewrite insert_take_drop by (now apply lookup_lt_Some in H).
  now rewrite concat_app, concat_cons.
Qed.

Lemma concat_insert_cons_perm {A} (t : list (list A)) i b e :
  t !! i = Some b -> concat (<[i := e :: b]> t) ≡ₚ e :: concat t.
Proof.
  intros H. rewrite (concat_insert_at t i b _ H), (concat_split_at t i b H).
  cbn [app]. symmetry. apply Permutation_middle.
Qed.

Lemma concat_insert_nil_perm {A} (t : list (list A)) i b :
  t !! i = Some b -> b ++ concat (<[i := []]> t) ≡ₚ concat t.
Proof.
  intros H. rewrite (concat_insert_at t i b _ H), (concat_split_at t i b H).
  cbn [app]. rewrite !app_assoc. f_equiv. apply Permutation_app_comm.
Qed.

Lemma concat_replicate_nil {A} n : concat (replicate n (@nil A)) = [].
Proof. induction n; cbn; auto. Qed.

Lemma concat_nil_lookup {A} (t : list (list A)) i b :
  concat t = [] -> t !! i = Some b -> b = [].
Proof.
  intros Hc H. rewrite (concat_split_at t i b H) in Hc.
  apply app_eq_nil in Hc as [_ Hc]. now apply app_eq_nil in Hc as [Hc _].
Qed.

Lemma existsb_Permutation {A} (f : A -> bool) (l l' : list A) :
  l ≡ₚ l' -> existsb f l = existsb f l'.
Proof.
  induction 1 as [|x l l' _ IH|x y l|l l' l'' _ IH1 _ IH2]; cbn.
  - reflexivity.
  - now rewrite IH.
  - destruct (f x), (f y); reflexivity.
  - congruence.
Qed.

Lemma land_mask_bounds h n : 0 <= h -> 0 <= Z.land h (2 ^ Z.of_nat n - 1) < 2 ^ Z.of_nat n.
Proof.
  intros Hh. replace (2 ^ Z.of_nat n - 1) with (Z.ones (Z.of_nat n))
    by (rewrite Z.ones_equiv; lia).
  rewrite Z.land_ones by lia. apply Z.mod_pos_bound. lia.
Qed.

Lemma dictHashKey_nonneg k : 0 <= dictHashKey k.
Proof. unfold dictHashKey, u32. apply Z.mod_pos_bound. lia. Qed.

(** A hash selects a bucket of a well-formed table. *)
Lemma ht_wf_bucket h t k :
  ht_wf h -> table h = Some t ->
  0 <= Z.land (dictHashKey k) (sizemask h) < size h
  /\ exists b, t !! Z.to_nat (Z.land (dictHashKey k) (sizemask h)) = Some b.
Proof.
  unfold ht_wf. intros Hwf Ht. rewrite Ht in Hwf.
  destruct Hwf as ([n Hn] & Hlen & Hmask & _).
  rewrite Hmask, Hn.
  pose proof (land_mask_bounds (dictHashKey k) n (dictHashKey_nonneg k)) as Hb.
  split; [exact Hb|].
  apply lookup_lt_is_Some_2. lia.
Qed.

(** Pushing an entry on the head of the bucket its hash selects. *)
Lemma ht_wf_push h t e b :
  ht_wf h -> table h = Some t ->
  t !! Z.to_nat (Z.land (dictHashKey (key e)) (sizemask h)) = Some b ->
  ht_wf (mk_dictht
           (Some (<[Z.to_nat (Z.land (dictHashKey (key e)) (sizemask h)) := e :: b]> t))
           (size h) (sizemask h) (used h + 1)).
Proof.
  intros Hwf Ht Hb.
  destruct (ht_wf_bucket h t (key e) Hwf Ht) as [Hrange _].
  unfold ht_wf in *. rewrite Ht in Hwf. cbn [table size sizemask used].
  destruct Hwf as (Hn & Hlen & Hmask & Hused & Hbk).
  split; [exact Hn|]. split; [now rewrite length_insert|].
  split; [exact Hmask|]. split.
  - rewrite (Permutation_length (concat_insert_cons_perm t _ b e Hb)).
    cbn [length]. lia.
  - intros i c e' Hi He'.
    destruct (decide (i = Z.to_nat (Z.land (dictHashKey (key e)) (sizemask h)))) as [->|Hne].
    + rewrite list_lookup_insert_eq in Hi by (now apply lookup_lt_Some in Hb).
      injection Hi as <-. apply elem_of_cons in He' as [->|He'].
      * lia.
      * now apply (Hbk _ b).
    + rewrite list_lookup_insert_ne in Hi by congruence. now apply (Hbk _ c).
Qed.

Lemma move_chain_spec de : forall h0 h1,
  ht_wf h1 -> is_Some (table h1) ->
  exists h0' h1',
    move_chain de h0 h1 = Some (h0', h1')
    /\ table h0' = table h0 /\ size h0' = size h0 /\ sizemask h0' = sizemask h0
    /\ used h0' = used h0 - Z.of_nat (length de)
    /\ ht_wf h1' /\ is_Some (table h1') /\ size h1' = size h1
    /\ ht_entries h1' ≡ₚ de ++ ht_entries h1.
Proof.
  induction de as [|e de IH]; intros h0 h1 Hwf [t1 Ht1].
  - exists h0, h1. cbn [move_chain length app].
    repeat split; eauto; lia.
  - cbn [move_chain]. rewrite Ht1. cbn [mbind option_bind].
    destruct (ht_wf_bucket h1 t1 (key e) Hwf Ht1) as [_ [b Hb]].
    rewrite Hb. cbn [mbind option_bind].
    pose proof (ht_wf_push h1 t1 e b Hwf Ht1 Hb) as Hwf'.
    edestruct (IH (mk_dictht (table h0) (size h0) (sizemask h0) (used h0 - 1)) _ Hwf')
      as (h0' & h1' & Hm & Ht & Hs & Hk & Hu & Hw & Hsome & Hsz & Hperm);
      [cbn [table]; eauto|].
    exists h0', h1'. split; [exact Hm|].
    cbn [table size sizemask used] in *.
    repeat split; try assumption.
    + rewrite Hu. cbn [length]. lia.
    + rewrite Hperm. unfold ht_entries at 1. cbn [table].
      rewrite (concat_insert_cons_perm t1 _ b e Hb).
      unfold ht_entries. rewrite Ht1. cbn [app].
      symmetry. apply Permutation_middle.
Qed.

Lemma skip_empty_spec (t : list (list dictEntry)) : forall fuel idx,
  0 <= idx ->
  (exists j e c, (Z.to_nat idx <= j)%nat /\ t !! j = Some (e :: c)) ->
  (length t <= fuel + Z.to_nat idx)%nat ->
  exists r e c,
    skip_empty fuel t idx = Some r
    /\ idx <= r /\ t !! Z.to_nat r = Some (e :: c)
    /\ (forall i, (Z.to_nat idx <= i < Z.to_nat r)%nat -> t !! i = Some []).
Proof.
  induction fuel as [|fuel IH]; intros idx Hidx (j & e & c & Hj & Hjb) Hfuel.
  - apply lookup_lt_Some in Hjb. lia.
  - cbn [skip_empty]. destruct (Z.ltb_spec idx 0); [lia|].
    assert (Hlt : (Z.to_nat idx < length t)%nat) by (apply lookup_lt_Some in Hjb; lia).
    destruct (lookup_lt_is_Some_2 t _ Hlt) as [b Hb].
    rewrite Hb. cbn [mbind option_bind].
    destruct b as [|e0 c0].
    + destruct (IH (idx + 1)) as (r & e' & c' & Hr & Hle & Hrb & Hempty).
      * lia.
      * exists j, e, c. split; [|exact Hjb].
        destruct (decide (j = Z.to_nat idx)) as [->|]; [congruence|lia].
      * lia.
      * exists r, e', c'. split; [exact Hr|]. split; [lia|]. split; [exact Hrb|].
        intros i Hi. destruct (decide (i = Z.to_nat idx)) as [->|]; [exact Hb|].
        apply Hempty. lia.
    + exists idx, e0, c0. repeat split; auto; try lia.
Qed.

Lemma concat_nonempty_bucket {A} (t : list (list A)) :
  concat t <> [] -> exists j e c, t !! j = Some (e :: c).
Proof.
  induction t as [|b t IH]; cbn [concat]; [congruence|].
  intros H. destruct b as [|e c].
  - destruct (IH H) as (j & e & c & Hj). now exists (S j), e, c.
  - now exists 0%nat, e, c.
Qed.

(** The laws of the type descriptor: key comparison is symmetric and keys
    that compare equal hash alike. *)
Hypothesis keyCompare_sym : forall a b, keyCompare a b = keyCompare b a.
Hypothesis keyCompare_hash :
  forall a b, keyCompare a b = true -> hashFunction a = hashFunction b.

Lemma distinct_keys_perm l l' : l ≡ₚ l' -> distinct_keys l -> distinct_keys l'.
Proof.
  induction 1 as [|x l l' Hp IH|x y l|l l' l'' _ IH1 _ IH2]; cbn [distinct_keys]; auto.
  - intros [H1 H2]. split; [|auto]. now rewrite <- (existsb_Permutation _ _ _ Hp).
  - cbn [existsb]. intros (H1 & H2 & H3).
    apply orb_false_iff in H1 as [H1 H1'].
    rewrite (keyCompare_sym (key x) (key y)), H1, H1', H2. auto.
Qed.

Lemma ht_entries_used h : ht_wf h -> used h = Z.of_nat (length (ht_entries h)).
Proof.
  unfold ht_wf, ht_entries. destruct (table h); [tauto|].
  intros (_ & _ & ->). reflexivity.
Qed.

Lemma ht_wf_reset : ht_wf _dictReset.
Proof. unfold ht_wf, _dictReset. cbn. auto. Qed.

(** One step of incremental rehashing keeps the representation invariant and
    the stored entries. *)
Lemma dictRehash_step d :
  dict_wf d -> dictIsRehashing d = true ->
  exists d' r,
    dictRehash 1 d = Some (d', r) /\ dict_wf d' /\ entries d' ≡ₚ entries d
    /\ iterators d' = iterators d /\ is_Some (table (ht0 d')).
Proof.
  intros (Hw0 & Hw1 & Hdist & Hs0 & Hs1 & Hre) Hr. rewrite Hr in Hre.
  destruct Hre as (Hidx & [t0 Ht0] & [t1 Ht1] & Hempty).
  cbn [dictRehash]. rewrite Hr. cbn [negb].
  pose proof (ht_entries_used _ Hw0) as Hu0.
  destruct (Z.eqb_spec (used (ht0 d)) 0) as [Hz|Hnz].
  - (* the whole table was rehashed *)
    assert (He0 : ht_entries (ht0 d) = [])
      by (apply length_zero_iff_nil; lia).
    eexists _, _. split; [reflexivity|].
    unfold entries in *. cbn [ht0 ht1 iterators].
    rewrite He0 in *. cbn [app] in Hdist.
    change (ht_entries _dictReset) with (@nil dictEntry). rewrite app_nil_r.
    split; [|split; [reflexivity|split; [reflexivity|rewrite Ht1; eauto]]].
    unfold dict_wf, dictIsRehashing, entries. cbn [ht0 ht1 rehashidx].
    change (ht_entries _dictReset) with (@nil dictEntry). rewrite app_nil_r.
    change (negb (-1 =? -1)) with false. cbv iota.
    repeat split; auto using ht_wf_reset. cbn. lia.
  - (* move one bucket *)
    unfold ht_entries in Hu0. rewrite Ht0 in Hu0.
    assert (Hne : concat t0 <> []).
    { intros E. rewrite E in Hu0. cbn in Hu0. lia. }
    destruct (concat_nonempty_bucket t0 Hne) as (j & e & c & Hj).
    assert (Hlen0 : Z.of_nat (length t0) = size (ht0 d)).
    { unfold ht_wf in Hw0. rewrite Ht0 in Hw0. tauto. }
    assert (Hjge : (Z.to_nat (rehashidx d) <= j)%nat).
    { destruct (le_lt_dec (Z.to_nat (rehashidx d)) j) as [|Hlt]; [assumption|].
      specialize (Hempty j t0 Ht0 Hlt _ Hj). discriminate. }
    assert (Hjlt : (j < length t0)%nat) by (now apply lookup_lt_Some in Hj).
    assert (Hu64 : u64 (rehashidx d) = rehashidx d).
    { unfold u64. apply Z.mod_small. lia. }
    rewrite Hu64.
    destruct (Z.gtb_spec (size (ht0 d)) (rehashidx d)) as [_|]; [|lia].
    cbn [negb]. rewrite Ht0. cbn [mbind option_bind].
    destruct (skip_empty_spec t0 (length t0) (rehashidx d)) as
      (r & e' & c' & Hsk & Hrle & Hrb & Hre); [lia|now exists j, e, c|lia|].
    rewrite Hsk. cbn [mbind option_bind]. rewrite Hrb. cbn [mbind option_bind].
    destruct (move_chain_spec (e' :: c') (ht0 d) (ht1 d) Hw1) as
      (h0' & h1' & Hm & Hmt & Hms & Hmk & Hmu & Hmw & Hmsome & Hmsz & Hmp); [eauto|].
    rewrite Hm. cbn [mbind option_bind].
    assert (Hrlt : (Z.to_nat r < length t0)%nat) by (now apply lookup_lt_Some in Hrb).
    assert (Hnr : dictIsRehashing
                    (mk_dict (mk_dictht (Some (<[Z.to_nat r:=[]]> t0)) (size h0')
                                (sizemask h0') (used h0')) h1' (r + 1) (iterators d))
                  = true).
    { unfold dictIsRehashing. cbn [rehashidx].
      destruct (Z.eqb_spec (r + 1) (-1)); [lia|reflexivity]. }
    rewrite Hnr. cbn [negb].
    eexists _, _. split; [reflexivity|].
    assert (Hperm : concat (<[Z.to_nat r:=[]]> t0) ++ ht_entries h1' ≡ₚ entries d).
    { unfold entries. rewrite Hmp. unfold ht_entries at 2. rewrite Ht0.
      rewrite <- (concat_insert_nil_perm t0 _ _ Hrb).
      rewrite !app_assoc. f_equiv. apply Permutation_app_comm. }
    split; [|split; [exact Hperm|split; [reflexivity|cbn [ht0 table]; eauto]]].
    unfold dict_wf. rewrite Hnr. cbn [ht0 ht1 rehashidx size table].
    split; [|split; [exact Hmw|split; [|split; [lia|split; [lia|]]]]].
    + (* the primary table *)
      unfold ht_wf in Hw0 |- *. rewrite Ht0 in Hw0. cbn [table size sizemask used].
      destruct Hw0 as (Hn & _ & Hmask & Hused & Hbk).
      rewrite Hms, Hmk, Hmu.
      split; [exact Hn|]. split; [now rewrite length_insert|].
      split; [exact Hmask|]. split.
      * pose proof (Permutation_length (concat_insert_nil_perm t0 _ _ Hrb)) as HL.
        rewrite length_app in HL. lia.
      * intros i b x Hi Hx.
        destruct (decide (i = Z.to_nat r)) as [->|Hne'].
        -- rewrite list_lookup_insert_eq in Hi by assumption. injection Hi as <-.
           now apply elem_of_nil in Hx.
        -- rewrite list_lookup_insert_ne in Hi by congruence. now apply (Hbk _ b).
    + unfold entries. cbn [ht0 ht1]. unfold ht_entries at 1. cbn [table].
      apply (distinct_keys_perm (entries d)); [now symmetry|assumption].
    + split; [lia|]. split; [eauto|]. split; [assumption|].
      intros i b Hb Hi k Hk. injection Hb as <-.
      destruct (decide (i = Z.to_nat r)) as [->|Hne'].
      * rewrite list_lookup_insert_eq in Hk by assumption. congruence.
      * rewrite list_lookup_insert_ne in Hk by congruence.
        destruct (le_lt_dec (Z.to_nat (rehashidx d)) i) as [Hge|Hlt].
        -- rewrite Hre in Hk by lia. congruence.
        -- now apply (Hempty i t0 Ht0 Hlt).
Qed.

Lemma _dictRehashStep_spec d :
  dict_wf d -> dictIsRehashing d = true ->
  exists d', _dictRehashStep d = Some d' /\ dict_wf d' /\ entries d' ≡ₚ entries d.
Proof.
  intros Hwf Hr. unfold _dictRehashStep.
  destruct (iterators d =? 0); [|now exists d].
  destruct (dictRehash_step d Hwf Hr) as (d' & r & -> & Hwf' & Hp & _).
  now exists d'.
Qed.

(** After the step the primary table is still there. *)
Lemma _dictRehashStep_table d :
  dict_wf d -> dictIsRehashing d = true ->
  exists d', _dictRehashStep d = Some d' /\ dict_wf d' /\ entries d' ≡ₚ entries d /\
             is_Some (table (ht0 d')).
Proof.
  intros Hwf Hr. unfold _dictRehashStep.
  destruct (iterators d =? 0).
  - destruct (dictRehash_step d Hwf Hr) as (d' & r & -> & Hwf' & Hp & _ & Ht).
    now exists d'.
  - exists d. split; [reflexivity|]. split; [exact Hwf|]. split; [reflexivity|].
    destruct Hwf as (_ & _ & _ & _ & _ & Hre). rewrite Hr in Hre. tauto.
Qed.

Lemma nextPower_loop_spec size : size <= 2^31 -> forall fuel j,
  (2 <= j <= 31)%nat -> (32 - j <= fuel)%nat ->
  exists k, (j <= k <= 31)%nat
    /\ nextPower_loop fuel (2 ^ Z.of_nat j) size = Some (2 ^ Z.of_nat k)
    /\ size <= 2 ^ Z.of_nat k.
Proof.
  intros Hsz. induction fuel as [|fuel IH]; intros j Hj Hf; [lia|].
  cbn [nextPower_loop].
  destruct (Z.geb_spec (2 ^ Z.of_nat j) size) as [Hge|Hlt].
  - exists j. repeat split; auto; lia.
  - assert (Hj31 : (j < 31)%nat).
    { destruct (decide (j = 31%nat)) as [->|]; [|lia].
      change (2 ^ Z.of_nat 31) with (2 ^ 31) in Hlt. lia. }
    assert (E : u64 (2 ^ Z.of_nat j * 2) = 2 ^ Z.of_nat (S j)).
    { rewrite Nat2Z.inj_succ, Z.pow_succ_r by lia. unfold u64.
      rewrite Z.mod_small; [ring|].
      split; [apply Z.mul_nonneg_nonneg; lia|].
      assert (2 ^ Z.of_nat j < 2 ^ 63) by (apply Z.pow_lt_mono_r; lia).
      change (2 ^ 64) with (2 ^ 63 * 2). lia. }
    rewrite E. destruct (IH (S j)) as (k & Hk & Hr & Hle); [lia|lia|].
    exists k. repeat split; auto; lia.
Qed.

Lemma _dictNextPower_spec size :
  0 <= size <= 2^31 ->
  exists k, (2 <= k <= 31)%nat /\ _dictNextPower size = Some (2 ^ Z.of_nat k)
            /\ size <= 2 ^ Z.of_nat k.
Proof.
  intros Hs. unfold _dictNextPower, LONG_MAX.
  destruct (Z.geb_spec size (2 ^ 63 - 1)); [lia|].
  apply (nextPower_loop_spec size (proj2 Hs) 64 2); lia.
Qed.

Lemma ht_wf_fresh k :
  ht_wf (mk_dictht (Some (replicate (Z.to_nat (2 ^ Z.of_nat k)) []))
                   (2 ^ Z.of_nat k) (2 ^ Z.of_nat k - 1) 0).
Proof.
  unfold ht_wf. cbn [table size sizemask used].
  split; [now exists k|]. split; [rewrite length_replicate; lia|].
  split; [reflexivity|]. split; [now rewrite concat_replicate_nil|].
  intros i b e Hi He. apply lookup_replicate in Hi as [-> _].
  now apply elem_of_nil in He.
Qed.

Lemma ht_wf_table_size h : ht_wf h -> (size h = 0 <-> table h = None).
Proof.
  unfold ht_wf. destruct (table h) as [t|].
  - intros ([n Hn] & _). split; [|discriminate].
    intros E. rewrite E in Hn. pose proof (Z.pow_pos_nonneg 2 (Z.of_nat n)). lia.
  - tauto.
Qed.

Lemma _dictExpandIfNeeded_spec d :
  dict_wf d -> dictSize d < 2^30 ->
  exists d',
    _dictExpandIfNeeded d = Some (d', DICT_OK)
    /\ dict_wf d' /\ entries d' = entries d /\ is_Some (table (ht0 d')).
Proof.
  intros Hwf Hsmall. pose proof Hwf as (Hw0 & Hw1 & Hdist & Hs0 & Hs1 & Hre).
  unfold _dictExpandIfNeeded.
  destruct (dictIsRehashing d) eqn:Hr.
  { exists d. split; [reflexivity|]. split; [exact Hwf|]. split; [reflexivity|]. tauto. }
  pose proof (ht_entries_used _ Hw0) as Hu0.
  pose proof (ht_entries_used _ Hw1) as Hu1.
  unfold dictSize in Hsmall.
  destruct (Z.eqb_spec (size (ht0 d)) 0) as [Hz|Hnz].
  - (* first initialization *)
    apply (ht_wf_table_size _ Hw0) in Hz.
    assert (He0 : ht_entries (ht0 d) = []) by (unfold ht_entries; now rewrite Hz).
    rewrite He0 in Hu0. cbn [length] in Hu0.
    unfold dictExpand. change (_dictNextPower DICT_HT_INITIAL_SIZE) with (Some 4).
    cbn [mbind option_bind]. rewrite Hr, Hu0. cbn [orb].
    change (0 >? DICT_HT_INITIAL_SIZE) with false. cbv iota. rewrite Hz.
    eexists. split; [reflexivity|].
    unfold dict_wf, entries, dictIsRehashing in *. cbn [ht0 ht1 rehashidx size table].
    rewrite Hr. rewrite He0 in Hdist |- *.
    change (ht_entries (mk_dictht (Some (replicate (Z.to_nat 4) [])) 4 (4 - 1) 0))
      with (@nil dictEntry).
    split; [|split; [reflexivity|eauto]].
    split; [exact (ht_wf_fresh 2)|].
    split; [assumption|]. split; [assumption|]. split; [lia|].
    split; assumption.
  - assert (Hsome : is_Some (table (ht0 d))).
    { destruct (table (ht0 d)) eqn:E; [eauto|].
      apply (ht_wf_table_size _ Hw0) in E. contradiction. }
    destruct (_ && _).
    + (* expansion *)
      assert (Hu : u64 (used (ht0 d) * 2) = used (ht0 d) * 2).
      { unfold u64. apply Z.mod_small. lia. }
      rewrite Hu. unfold dictExpand.
      destruct (_dictNextPower_spec (used (ht0 d) * 2)) as (k & Hk & -> & Hle); [lia|].
      cbn [mbind option_bind]. rewrite Hr. cbn [orb].
      destruct (Z.gtb_spec (used (ht0 d)) (used (ht0 d) * 2)); [lia|].
      destruct Hsome as [t0 Ht0]. rewrite Ht0.
      eexists. split; [reflexivity|].
      unfold dict_wf, entries, dictIsRehashing in *. cbn [ht0 ht1 rehashidx size table].
      rewrite Hre in *. cbn [negb Z.eqb].
      change (ht_entries _dictReset) with (@nil dictEntry) in *.
      assert (Hfresh : ht_entries (mk_dictht (Some (replicate (Z.to_nat (2 ^ Z.of_nat k)) []))
                                  (2 ^ Z.of_nat k) (2 ^ Z.of_nat k - 1) 0) = []).
      { unfold ht_entries. cbn [table]. apply concat_replicate_nil. }
      rewrite Hfresh.
      split; [|split; [reflexivity|eauto]].
      split; [assumption|]. split; [exact (ht_wf_fresh k)|].
      split; [assumption|]. split; [assumption|].
      split; [apply Z.pow_le_mono_r; lia|].
      split; [|split; [eauto|split; [eauto|]]].
      * unfold ht_wf in Hw0. rewrite Ht0 in Hw0. destruct Hw0 as ([n Hn] & _).
        rewrite Hn. pose proof (Z.pow_pos_nonneg 2 (Z.of_nat n)). lia.
      * intros i b _ Hi. cbn in Hi. lia.
    + exists d. split; [reflexivity|]. split; [exact Hwf|]. split; [reflexivity|exact Hsome].
Qed.

(** In a well-formed table a key can only sit in the bucket its hash
    selects, so searching that chain decides membership in the table. *)
Lemma chain_has_bucket h t k b :
  ht_wf h -> table h = Some t ->
  t !! Z.to_nat (Z.land (dictHashKey k) (sizemask h)) = Some b ->
  chain_has k b = existsb (fun he => keyCompare k (key he)) (ht_entries h).
Proof.
  intros Hwf Ht Hb.
  destruct (ht_wf_bucket h t k Hwf Ht) as [Hrange _].
  unfold ht_wf in Hwf. rewrite Ht in Hwf. destruct Hwf as (_ & _ & _ & _ & Hbk).
  unfold chain_has, ht_entries. rewrite Ht.
  apply Bool.eq_iff_eq_true. rewrite !existsb_exists. split.
  - intros (e & He & Hc). exists e. split; [|exact Hc].
    apply in_concat. exists b. split; [|exact He].
    apply list_elem_of_In. now apply list_elem_of_lookup_2 in Hb.
  - intros (e & He & Hc). exists e. split; [|exact Hc].
    apply in_concat in He as (b' & Hb' & He).
    apply list_elem_of_In, list_elem_of_lookup_1 in Hb' as [i Hi].
    apply list_elem_of_In in He.
    pose proof (Hbk i b' e Hi He) as Hidx.
    assert (Hh : dictHashKey k = dictHashKey (key e)).
    { unfold dictHashKey. now rewrite (keyCompare_hash _ _ Hc). }
    rewrite <- Hh in Hidx. rewrite Hidx, Nat2Z.id in Hb.
    rewrite Hi in Hb. injection Hb as <-. now apply list_elem_of_In.
Qed.

Lemma present_split d k :
  present d k = existsb (fun he => keyCompare k (key he)) (ht_entries (ht0 d))
                || existsb (fun he => keyCompare k (key he)) (ht_entries (ht1 d)).
Proof. unfold present, entries. apply existsb_app. Qed.

Lemma _dictKeyIndex_spec d k :
  dict_wf d -> dictSize d < 2^30 ->
  exists d' index,
    _dictKeyIndex d k = Some (d', index)
    /\ dict_wf d' /\ entries d' = entries d
    /\ (index = -1 <-> present d k = true)
    /\ (index <> -1 ->
        let h := if dictIsRehashing d' then ht1 d' else ht0 d' in
        index = Z.land (dictHashKey k) (sizemask h)
        /\ 0 <= index
        /\ exists t b, table h = Some t /\ t !! Z.to_nat index = Some b).
Proof.
  intros Hwf Hsmall. unfold _dictKeyIndex.
  destruct (_dictExpandIfNeeded_spec d Hwf Hsmall) as (d' & -> & Hwf' & He & [t0 Ht0]).
  cbn [mbind option_bind]. change (DICT_OK =? DICT_ERR) with false. cbv iota.
  pose proof Hwf' as (Hw0 & Hw1 & _ & Hs0 & Hs1 & Hre).
  rewrite Ht0. cbn [mbind option_bind].
  destruct (ht_wf_bucket _ t0 k Hw0 Ht0) as [Hr0 [b0 Hb0]].
  rewrite Hb0. cbn [mbind option_bind].
  assert (Hp : present d k = present d' k) by (unfold present; now rewrite He).
  rewrite Hp, present_split.
  rewrite (chain_has_bucket _ t0 k b0 Hw0 Ht0 Hb0).
  destruct (existsb _ (ht_entries (ht0 d'))) eqn:E0.
  { exists d', (-1). split; [reflexivity|]. split; [assumption|]. split; [assumption|].
    split; [split; reflexivity|]. intros H; contradiction. }
  cbn [orb].
  assert (S0 : sint 32 (Z.land (dictHashKey k) (sizemask (ht0 d')))
               = Z.land (dictHashKey k) (sizemask (ht0 d')))
    by (apply Ziplist.sint_small; lia).
  destruct (dictIsRehashing d') eqn:Hr.
  - cbn [negb]. destruct Hre as (_ & _ & [t1 Ht1] & _).
    rewrite Ht1. cbn [mbind option_bind].
    destruct (ht_wf_bucket _ t1 k Hw1 Ht1) as [Hr1 [b1 Hb1]].
    rewrite Hb1. cbn [mbind option_bind].
    rewrite (chain_has_bucket _ t1 k b1 Hw1 Ht1 Hb1).
    destruct (existsb _ (ht_entries (ht1 d'))) eqn:E1.
    { exists d', (-1). split; [reflexivity|]. split; [assumption|]. split; [assumption|].
      split; [split; reflexivity|]. intros H; contradiction. }
    assert (S1 : sint 32 (Z.land (dictHashKey k) (sizemask (ht1 d')))
                 = Z.land (dictHashKey k) (sizemask (ht1 d')))
      by (apply Ziplist.sint_small; lia).
    eexists d', _. split; [reflexivity|]. rewrite S1, Hr.
    split; [assumption|]. split; [assumption|].
    split; [split; [lia|discriminate]|].
    intros _. cbv zeta. split; [reflexivity|]. split; [lia|]. eauto.
  - cbn [negb]. rewrite Hre. change (ht_entries _dictReset) with (@nil dictEntry).
    cbn [existsb].
    eexists d', _. split; [reflexivity|]. rewrite S0, Hr.
    split; [assumption|]. split; [assumption|].
    split; [split; [lia|discriminate]|].
    intros _. cbv zeta. split; [reflexivity|]. split; [lia|]. eauto.
Qed.

Lemma dictSize_entries d : dict_wf d -> dictSize d = Z.of_nat (length (entries d)).
Proof.
  intros (Hw0 & Hw1 & _). unfold dictSize, entries.
  rewrite (ht_entries_used _ Hw0), (ht_entries_used _ Hw1), length_app. lia.
Qed.

(** The entry [dictAddRaw] links at the head of a bucket, once [dictSetVal]
    has filled its value. *)
Lemma push_entry_spec h t index b k val :
  ht_wf h -> table h = Some t ->
  index = Z.land (dictHashKey k) (sizemask h) -> 0 <= index ->
  t !! Z.to_nat index = Some b ->
  exists h2,
    set_head_val
      (mk_dictht (Some (<[Z.to_nat index := mk_dictEntry k None :: b]> t))
                 (size h) (sizemask h) (used h + 1)) index val = Some h2
    /\ ht_wf h2 /\ size h2 = size h /\ is_Some (table h2)
    /\ ht_entries h2 ≡ₚ mk_dictEntry k (Some val) :: ht_entries h.
Proof.
  intros Hwf Ht Hidx H0 Hb. unfold set_head_val. cbn [table size sizemask used].
  cbn [mbind option_bind]. destruct (Z.ltb_spec index 0); [lia|].
  rewrite list_lookup_insert_eq by (now apply lookup_lt_Some in Hb).
  cbn [mbind option_bind key]. rewrite list_insert_insert_eq.
  eexists. split; [reflexivity|].
  subst index.
  split; [exact (ht_wf_push h t (mk_dictEntry k (Some val)) b Hwf Ht Hb)|].
  cbn [size table]. split; [reflexivity|]. split; [eauto|].
  unfold ht_entries. cbn [table]. rewrite Ht.
  now apply concat_insert_cons_perm.
Qed.

(** C6 — strict insert.  On a well-formed dictionary (of fewer than 2^30
    entries) [dictAdd] returns, and it returns the duplicate error exactly
    when the key is present in one of the two tables.  On that error the
    stored entries are unchanged (up to the bucket order that the piggy-backed
    rehash step may change); otherwise it succeeds and the stored entries are
    the old ones plus the new (key, value) entry, which sits in the secondary
    table when the dictionary is rehashing and in the primary one otherwise.
    The representation invariant is kept. *)
Theorem dictAdd_duplicate_iff (d : dict) (k : K) (val : V) :
  dict_wf d -> dictSize d < 2^30 ->
  exists d' r,
    dictAdd d k val = Some (d', r)
    /\ dict_wf d'
    /\ (r = DICT_OK \/ r = DICT_ERR)
    /\ (r = DICT_ERR <-> present d k = true)
    /\ (r = DICT_ERR -> entries d' ≡ₚ entries d)
    /\ (r = DICT_OK ->
        entries d' ≡ₚ mk_dictEntry k (Some val) :: entries d
        /\ mk_dictEntry k (Some val)
             ∈ ht_entries (if dictIsRehashing d' then ht1 d' else ht0 d')).
Proof.
  intros Hwf Hsmall. unfold dictAdd, dictAddRaw.
  (* the piggy-backed rehash step *)
  assert (H1 : exists d1,
             (if dictIsRehashing d then _dictRehashStep d else Some d) = Some d1
             /\ dict_wf d1 /\ entries d1 ≡ₚ entries d).
  { destruct (dictIsRehashing d) eqn:Hr; [now apply _dictRehashStep_spec|now exists d]. }
  destruct H1 as (d1 & -> & Hwf1 & Hp1). cbn [mbind option_bind].
  assert (Hsmall1 : dictSize d1 < 2^30).
  { rewrite (dictSize_entries _ Hwf1), (Permutation_length Hp1),
      <- (dictSize_entries _ Hwf). exact Hsmall. }
  assert (Hpres : present d k = present d1 k).
  { unfold present. symmetry. now apply existsb_Permutation. }
  destruct (_dictKeyIndex_spec d1 k Hwf1 Hsmall1)
    as (d2 & index & -> & Hwf2 & He2 & Hidx & Hslot).
  cbn [mbind option_bind]. rewrite Hpres.
  destruct (Z.eqb_spec index (-1)) as [Hm|Hm].
  - (* the key exists *)
    exists d2, DICT_ERR. split; [reflexivity|]. split; [assumption|].
    split; [now right|]. split; [split; [intros _; now apply Hidx|reflexivity]|].
    split; [intros _; now rewrite He2|discriminate].
  - (* a free slot *)
    assert (Hnp : present d1 k = false).
    { destruct (present d1 k); [|reflexivity]. destruct Hm. now apply Hidx. }
    destruct (Hslot Hm) as (Hi & Hi0 & t & b & Ht & Hb). clear Hslot.
    pose proof Hwf2 as (Hw0 & Hw1 & Hdist & Hs0 & Hs1 & Hre).
    assert (Hdist' : distinct_keys (mk_dictEntry k (Some val) :: entries d2)).
    { cbn [distinct_keys key]. split; [|assumption].
      rewrite He2. exact Hnp. }
    destruct (dictIsRehashing d2) eqn:Hr.
    + rewrite Ht. cbn [mbind option_bind].
      destruct (Z.ltb_spec index 0); [lia|]. rewrite Hb. cbn [mbind option_bind].
      change (1 =? 0) with false. cbv iota. cbn [ht0 ht1 rehashidx iterators].
      destruct (push_entry_spec (ht1 d2) t index b k val Hw1 Ht Hi Hi0 Hb)
        as (h2 & -> & Hw2 & Hsz2 & Hsome2 & Hp2).
      cbn [mbind option_bind].
      eexists _, DICT_OK. split; [reflexivity|].
      assert (Hperm : entries (mk_dict (ht0 d2) h2 (rehashidx d2) (iterators d2))
                      ≡ₚ mk_dictEntry k (Some val) :: entries d2).
      { unfold entries. cbn [ht0 ht1]. rewrite Hp2. symmetry. apply Permutation_middle. }
      assert (Hr' : dictIsRehashing (mk_dict (ht0 d2) h2 (rehashidx d2) (iterators d2)) = true)
        by exact Hr.
      split.
      { unfold dict_wf. rewrite Hr'. cbn [ht0 ht1 rehashidx].
        split; [assumption|]. split; [assumption|].
        split; [now apply (distinct_keys_perm _ _ (symmetry Hperm))|].
        split; [assumption|]. split; [lia|].
        destruct Hre as (? & ? & ? & ?). auto. }
      split; [now left|]. split; [split; [discriminate|congruence]|].
      split; [discriminate|]. intros _. split.
      * rewrite Hperm, He2. now constructor.
      * rewrite Hr'. cbn [ht1]. rewrite Hp2. apply elem_of_cons. now left.
    + rewrite Ht. cbn [mbind option_bind].
      destruct (Z.ltb_spec index 0); [lia|]. rewrite Hb. cbn [mbind option_bind].
      change (0 =? 0) with true. cbv iota. cbn [ht0 ht1 rehashidx iterators].
      destruct (push_entry_spec (ht0 d2) t index b k val Hw0 Ht Hi Hi0 Hb)
        as (h2 & -> & Hw2 & Hsz2 & Hsome2 & Hp2).
      cbn [mbind option_bind].
      eexists _, DICT_OK. split; [reflexivity|].
      assert (Hperm : entries (mk_dict h2 (ht1 d2) (rehashidx d2) (iterators d2))
                      ≡ₚ mk_dictEntry k (Some val) :: entries d2).
      { unfold entries. cbn [ht0 ht1]. now rewrite Hp2. }
      assert (Hr' : dictIsRehashing (mk_dict h2 (ht1 d2) (rehashidx d2) (iterators d2)) = false)
        by exact Hr.
      split.
      { unfold dict_wf. rewrite Hr'. cbn [ht0 ht1 rehashidx].
        split; [assumption|]. split; [assumption|].
        split; [now apply (distinct_keys_perm _ _ (symmetry Hperm))|].
        split; [lia|]. split; assumption. }
      split; [now left|]. split; [split; [discriminate|congruence]|].
      split; [discriminate|]. intros _. split.
      * rewrite Hperm, He2. now constructor.
      * rewrite Hr'. cbn [ht0]. rewrite Hp2. apply elem_of_cons. now left.
Qed.

(** [dictAdd] on a well-formed dictionary, as the ordered set uses it. *)
Lemma dictAdd_spec (d : dict) (k : K) (val : V) :
  dict_wf d -> dictSize d < 2^30 ->
  exists d' r,
    dictAdd d k val = Some (d', r)
    /\ dict_wf d'
    /\ (r = DICT_OK \/ r = DICT_ERR)
    /\ (r = DICT_ERR <-> present d k = true)
    /\ (r = DICT_OK -> entries d' ≡ₚ mk_dictEntry k (Some val) :: entries d).
Proof.
  intros Hwf Hsmall. unfold dictAdd, dictAddRaw.
  (* the piggy-backed rehash step *)
  assert (H1 : exists d1,
             (if dictIsRehashing d then _dictRehashStep d else Some d) = Some d1
             /\ dict_wf d1 /\ entries d1 ≡ₚ entries d).
  { destruct (dictIsRehashing d) eqn:Hr; [now apply _dictRehashStep_spec|now exists d]. }
  destruct H1 as (d1 & -> & Hwf1 & Hp1). cbn [mbind option_bind].
  assert (Hsmall1 : dictSize d1 < 2^30).
  { rewrite (dictSize_entries _ Hwf1), (Permutation_length Hp1),
      <- (dictSize_entries _ Hwf). exact Hsmall. }
  assert (Hpres : present d k = present d1 k).
  { unfold present. symmetry. now apply existsb_Permutation. }
  destruct (_dictKeyIndex_spec d1 k Hwf1 Hsmall1)
    as (d2 & index & -> & Hwf2 & He2 & Hidx & Hslot).
  cbn [mbind option_bind]. rewrite Hpres.
  destruct (Z.eqb_spec index (-1)) as [Hm|Hm].
  - (* the key exists *)
    exists d2, DICT_ERR. split; [reflexivity|]. split; [assumption|].
    split; [now right|]. split; [split; [intros _; now apply Hidx|reflexivity]|].
    discriminate.
  - (* a free slot *)
    assert (Hnp : present d1 k = false).
    { destruct (present d1 k); [|reflexivity]. destruct Hm. now apply Hidx. }
    destruct (Hslot Hm) as (Hi & Hi0 & t & b & Ht & Hb). clear Hslot.
    pose proof Hwf2 as (Hw0 & Hw1 & Hdist & Hs0 & Hs1 & Hre).
    assert (Hdist' : distinct_keys (mk_dictEntry k (Some val) :: entries d2)).
    { cbn [distinct_keys key]. split; [|assumption].
      rewrite He2. exact Hnp. }
    destruct (dictIsRehashing d2) eqn:Hr.
    + rewrite Ht. cbn [mbind option_bind].
      destruct (Z.ltb_spec index 0); [lia|]. rewrite Hb. cbn [mbind option_bind].
      change (1 =? 0) with false. cbv iota. cbn [ht0 ht1 rehashidx iterators].
      destruct (push_entry_spec (ht1 d2) t index b k val Hw1 Ht Hi Hi0 Hb)
        as (h2 & -> & Hw2 & Hsz2 & Hsome2 & Hp2).
      cbn [mbind option_bind].
      eexists _, DICT_OK. split; [reflexivity|].
      assert (Hperm : entries (mk_dict (ht0 d2) h2 (rehashidx d2) (iterators d2))
                      ≡ₚ mk_dictEntry k (Some val) :: entries d2).
      { unfold entries. cbn [ht0 ht1]. rewrite Hp2. symmetry. apply Permutation_middle. }
      assert (Hr' : dictIsRehashing (mk_dict (ht0 d2) h2 (rehashidx d2) (iterators d2)) = true)
        by exact Hr.
      split.
      { unfold dict_wf. rewrite Hr'. cbn [ht0 ht1 rehashidx].
        split; [assumption|]. split; [assumption|].
        split; [now apply (distinct_keys_perm _ _ (symmetry Hperm))|].
        split; [assumption|]. split; [lia|].
        destruct Hre as (? & ? & ? & ?). auto. }
      split; [now left|]. split; [split; [discriminate|congruence]|].
      intros _. rewrite Hperm, He2. now constructor.
    + rewrite Ht. cbn [mbind option_bind].
      destruct (Z.ltb_spec index 0); [lia|]. rewrite Hb. cbn [mbind option_bind].
      change (0 =? 0) with true. cbv iota. cbn [ht0 ht1 rehashidx iterators].
      destruct (push_entry_spec (ht0 d2) t index b k val Hw0 Ht Hi Hi0 Hb)
        as (h2 & -> & Hw2 & Hsz2 & Hsome2 & Hp2).
      cbn [mbind option_bind].
      eexists _, DICT_OK. split; [reflexivity|].
      assert (Hperm : entries (mk_dict h2 (ht1 d2) (rehashidx d2) (iterators d2))
                      ≡ₚ mk_dictEntry k (Some val) :: entries d2).
      { unfold entries. cbn [ht0 ht1]. now rewrite Hp2. }
      assert (Hr' : dictIsRehashing (mk_dict h2 (ht1 d2) (rehashidx d2) (iterators d2)) = false)
        by exact Hr.
      split.
      { unfold dict_wf. rewrite Hr'. cbn [ht0 ht1 rehashidx].
        split; [assumption|]. split; [assumption|].
        split; [now apply (distinct_keys_perm _ _ (symmetry Hperm))|].
        split; [lia|]. split; assumption. }
      split; [now left|]. split; [split; [discriminate|congruence]|].
      intros _. rewrite Hperm, He2. now constructor.
Qed.

(** *** Lookup, deletion and the assignment to a found entry *)

(** [dictResize(d)]; [minimal] is an [int]. *)
Definition dictResize (d : dict) : option (dict * Z) :=
  if negb dict_can_resize || dictIsRehashing d then Some (d, DICT_ERR)
  else
    let minimal := sint 32 (used (ht0 d)) in
    let minimal := if minimal <? DICT_HT_INITIAL_SIZE then DICT_HT_INITIAL_SIZE
                   else minimal in
    dictExpand d minimal.

(** [dictGetVal(de) = val] for the entry [de] that [dictFind(d, k)] has
    returned: the first entry of its bucket that compares equal to [k], in
    the primary table, or else in the secondary one. *)
Fixpoint chain_set_val (k : K) (val : V) (b : list dictEntry) : option (list dictEntry) :=
  match b with
  | [] => None
  | he :: next =>
      if keyCompare k (key he) then Some (mk_dictEntry (key he) (Some val) :: next)
      else b' ← chain_set_val k val next; Some (he :: b')
  end.

Definition dictSetFoundVal (d : dict) (k : K) (val : V) : option dict :=
  let h := dictHashKey k in
  t0 ← table (ht0 d);
  let idx := Z.land h (sizemask (ht0 d)) in
  he ← t0 !! Z.to_nat idx;
  match chain_set_val k val he with
  | Some he' =>
      Some (mk_dict (mk_dictht (Some (<[Z.to_nat idx := he']> t0))
                               (size (ht0 d)) (sizemask (ht0 d)) (used (ht0 d)))
                    (ht1 d) (rehashidx d) (iterators d))
  | None =>
      t1 ← table (ht1 d);
      let idx := Z.land h (sizemask (ht1 d)) in
      he ← t1 !! Z.to_nat idx;
      he' ← chain_set_val k val he;
      Some (mk_dict (ht0 d)
                    (mk_dictht (Some (<[Z.to_nat idx := he']> t1))
                               (size (ht1 d)) (sizemask (ht1 d)) (used (ht1 d)))
                    (rehashidx d) (iterators d))
  end.

Lemma chain_find_spec k b :
  match chain_find k b with
  | Some e => e ∈ b /\ keyCompare k (key e) = true
  | None => chain_has k b = false
  end.
Proof.
  induction b as [|he b IH]; cbn [chain_find]; [reflexivity|].
  destruct (keyCompare k (key he)) eqn:E.
  - split; [now left|exact E].
  - destruct (chain_find k b) as [e|].
    + destruct IH. split; [now right|assumption].
    + unfold chain_has in *. cbn [existsb]. now rewrite E, IH.
Qed.

Lemma chain_unlink_spec k b :
  match chain_unlink k b with
  | Some b' => exists e, keyCompare k (key e) = true /\ b ≡ₚ e :: b'
  | None => chain_has k b = false
  end.
Proof.
  induction b as [|he b IH]; cbn [chain_unlink]; [reflexivity|].
  destruct (keyCompare k (key he)) eqn:E.
  - exists he. split; [exact E|reflexivity].
  - destruct (chain_unlink k b) as [b'|]; cbn [mbind option_bind].
    + destruct IH as (e & He & Hp). exists e. split; [exact He|].
      rewrite Hp. apply perm_swap.
    + unfold chain_has in *. cbn [existsb]. now rewrite E, IH.
Qed.

Lemma chain_set_val_spec k val b :
  match chain_set_val k val b with
  | Some b' => exists e rest, keyCompare k (key e) = true /\ b ≡ₚ e :: rest /\
                              b' ≡ₚ mk_dictEntry (key e) (Some val) :: rest
  | None => chain_has k b = false
  end.
Proof.
  induction b as [|he b IH]; cbn [chain_set_val]; [reflexivity|].
  destruct (keyCompare k (key he)) eqn:E.
  - exists he, b. split; [exact E|]. split; reflexivity.
  - destruct (chain_set_val k val b) as [b'|]; cbn [mbind option_bind].
    + destruct IH as (e & rest & He & Hp & Hp'). exists e, (he :: rest).
      split; [exact He|]. split; [rewrite Hp|rewrite Hp']; apply perm_swap.
    + unfold chain_has in *. cbn [existsb]. now rewrite E, IH.
Qed.

(** A bucket replaced by entries of the same keys. *)
Lemma ht_wf_set_bucket h t i b b' u :
  ht_wf h -> table h = Some t -> t !! i = Some b ->
  (forall e, e ∈ b' -> exists e0, e0 ∈ b /\ key e0 = key e) ->
  u = used h - Z.of_nat (length b) + Z.of_nat (length b') ->
  ht_wf (mk_dictht (Some (<[i := b']> t)) (size h) (sizemask h) u).
Proof.
  unfold ht_wf. intros Hwf Ht Hb Hkeys ->. rewrite Ht in Hwf. cbn [table size sizemask used].
  destruct Hwf as (Hn & Hlen & Hmask & Hused & Hbk).
  split; [exact Hn|]. split; [now rewrite length_insert|]. split; [exact Hmask|]. split.
  - rewrite (concat_insert_at t i b b' Hb), Hused, (concat_split_at t i b Hb).
    rewrite !length_app. lia.
  - intros j c e Hj He. destruct (decide (j = i)) as [->|Hne].
    + rewrite list_lookup_insert_eq in Hj by (now apply lookup_lt_Some in Hb).
      injection Hj as <-. destruct (Hkeys e He) as (e0 & He0 & <-). now apply (Hbk i b e0).
    + rewrite list_lookup_insert_ne in Hj by congruence. now apply (Hbk j c e).
Qed.

Lemma ht_entries_set_bucket h t i b b' u :
  table h = Some t -> t !! i = Some b ->
  exists l1 l2,
    ht_entries h = l1 ++ b ++ l2 /\
    ht_entries (mk_dictht (Some (<[i := b']> t)) (size h) (sizemask h) u)
    = l1 ++ b' ++ l2.
Proof.
  intros Ht Hb. exists (concat (take i t)), (concat (drop (S i) t)).
  unfold ht_entries. rewrite Ht. cbn [table].
  split; [apply (concat_split_at t i b Hb)|apply (concat_insert_at t i b b' Hb)].
Qed.

Lemma dict_wf_table0 d :
  dict_wf d -> size (ht0 d) <> 0 -> is_Some (table (ht0 d)).
Proof.
  intros (Hw0 & _) Hnz. destruct (table (ht0 d)) eqn:E; [eauto|].
  apply (ht_wf_table_size _ Hw0) in E. contradiction.
Qed.

Lemma dict_wf_empty d :
  dict_wf d -> size (ht0 d) = 0 -> entries d = [].
Proof.
  intros (Hw0 & Hw1 & _ & _ & _ & Hre) Hz.
  apply (ht_wf_table_size _ Hw0) in Hz.
  destruct (dictIsRehashing d).
  - destruct Hre as (_ & [t Ht] & _). congruence.
  - unfold entries, ht_entries. now rewrite Hz, Hre.
Qed.

(** The rehash step that a lookup or a deletion piggy-backs. *)
Lemma rehash_prelude d :
  dict_wf d -> size (ht0 d) <> 0 ->
  exists d1,
    (if dictIsRehashing d then _dictRehashStep d else Some d) = Some d1
    /\ dict_wf d1 /\ entries d1 ≡ₚ entries d /\ is_Some (table (ht0 d1)).
Proof.
  intros Hwf Hnz. destruct (dictIsRehashing d) eqn:Hr.
  - now apply _dictRehashStep_table.
  - exists d. split; [reflexivity|]. split; [exact Hwf|]. split; [reflexivity|].
    now apply dict_wf_table0.
Qed.

Lemma elem_of_ht_entries h t i b e :
  table h = Some t -> t !! i = Some b -> e ∈ b -> e ∈ ht_entries h.
Proof.
  intros Ht Hb He. unfold ht_entries. rewrite Ht, (concat_split_at t i b Hb).
  rewrite !elem_of_app. auto.
Qed.

(** [dictFind] on a well-formed dictionary. *)
Lemma dictFind_spec d k :
  dict_wf d ->
  exists d' r,
    dictFind d k = Some (d', r) /\ dict_wf d' /\ entries d' ≡ₚ entries d /\
    match r with
    | Some e => e ∈ entries d' /\ keyCompare k (key e) = true
    | None => present d k = false
    end.
Proof.
  intros Hwf. unfold dictFind.
  destruct (Z.eqb_spec (size (ht0 d)) 0) as [Hz|Hnz].
  { exists d, None. split; [reflexivity|]. split; [exact Hwf|]. split; [reflexivity|].
    unfold present. now rewrite (dict_wf_empty d Hwf Hz). }
  destruct (rehash_prelude d Hwf Hnz) as (d1 & -> & Hwf1 & Hp1 & [t0 Ht0]).
  cbn [mbind option_bind].
  assert (Hpres : present d k = present d1 k).
  { unfold present. symmetry. now apply existsb_Permutation. }
  pose proof Hwf1 as (Hw0 & Hw1 & _ & _ & _ & Hre).
  rewrite Ht0. cbn [mbind option_bind].
  destruct (ht_wf_bucket _ t0 k Hw0 Ht0) as [_ [b0 Hb0]].
  rewrite Hb0. cbn [mbind option_bind].
  pose proof (chain_find_spec k b0) as Hc0.
  destruct (chain_find k b0) as [e|].
  { exists d1, (Some e). split; [reflexivity|]. split; [exact Hwf1|]. split; [exact Hp1|].
    destruct Hc0 as [He Hk]. split; [|exact Hk].
    unfold entries. apply elem_of_app. left. exact (elem_of_ht_entries _ t0 _ b0 e Ht0 Hb0 He). }
  rewrite (chain_has_bucket _ t0 k b0 Hw0 Ht0 Hb0) in Hc0.
  destruct (dictIsRehashing d1) eqn:Hr; cbn [negb].
  - destruct Hre as (_ & _ & [t1 Ht1] & _). rewrite Ht1. cbn [mbind option_bind].
    destruct (ht_wf_bucket _ t1 k Hw1 Ht1) as [_ [b1 Hb1]].
    rewrite Hb1. cbn [mbind option_bind].
    pose proof (chain_find_spec k b1) as Hc1.
    exists d1, (chain_find k b1). split; [reflexivity|]. split; [exact Hwf1|].
    split; [exact Hp1|].
    destruct (chain_find k b1) as [e|].
    + destruct Hc1 as [He Hk]. split; [|exact Hk].
      unfold entries. apply elem_of_app. right. exact (elem_of_ht_entries _ t1 _ b1 e Ht1 Hb1 He).
    + rewrite (chain_has_bucket _ t1 k b1 Hw1 Ht1 Hb1) in Hc1.
      now rewrite Hpres, present_split, Hc0, Hc1.
  - exists d1, None. split; [reflexivity|]. split; [exact Hwf1|]. split; [exact Hp1|].
    rewrite Hpres, present_split, Hc0, Hre. reflexivity.
Qed.

Lemma distinct_keys_tail e l : distinct_keys (e :: l) -> distinct_keys l.
Proof. cbn [distinct_keys]. tauto. Qed.

Lemma distinct_keys_same_key e e' l :
  key e' = key e -> distinct_keys (e :: l) -> distinct_keys (e' :: l).
Proof. cbn [distinct_keys]. intros ->. tauto. Qed.

(** [dictDelete] on a well-formed dictionary: the entry of the key is
    unlinked, or there is none. *)
Lemma dictDelete_spec d k :
  dict_wf d ->
  exists d' r,
    dictDelete d k = Some (d', r) /\ dict_wf d' /\
    ((r = DICT_ERR /\ present d k = false /\ entries d' ≡ₚ entries d) \/
     (r = DICT_OK /\ exists e, keyCompare k (key e) = true /\
                               entries d ≡ₚ e :: entries d')).
Proof.
  intros Hwf. unfold dictDelete, dictGenericDelete.
  destruct (Z.eqb_spec (size (ht0 d)) 0) as [Hz|Hnz].
  { exists d, DICT_ERR. split; [reflexivity|]. split; [exact Hwf|]. left.
    split; [reflexivity|]. split; [|reflexivity].
    unfold present. now rewrite (dict_wf_empty d Hwf Hz). }
  destruct (rehash_prelude d Hwf Hnz) as (d1 & -> & Hwf1 & Hp1 & [t0 Ht0]).
  cbn [mbind option_bind].
  assert (Hpres : present d k = present d1 k).
  { unfold present. symmetry. now apply existsb_Permutation. }
  pose proof Hwf1 as (Hw0 & Hw1 & Hdist & Hs0 & Hs1 & Hre).
  rewrite Ht0. cbn [mbind option_bind].
  destruct (ht_wf_bucket _ t0 k Hw0 Ht0) as [_ [b0 Hb0]].
  rewrite Hb0. cbn [mbind option_bind].
  set (i0 := Z.to_nat (Z.land (dictHashKey k) (sizemask (ht0 d1)))) in *.
  pose proof (chain_unlink_spec k b0) as Hc0.
  destruct (chain_unlink k b0) as [b0'|].
  { destruct Hc0 as (e & Hk & Hpb).
    assert (Hlen : Z.of_nat (length b0) = Z.of_nat (length b0') + 1).
    { rewrite (Permutation_length Hpb). cbn [length]. lia. }
    destruct (ht_entries_set_bucket (ht0 d1) t0 _ b0 b0' (used (ht0 d1) - 1) Ht0 Hb0) as (l1 & l2 & E1 & E2).
    assert (Hperm : entries d1 ≡ₚ
              e :: entries (mk_dict (mk_dictht (Some (<[i0 := b0']> t0)) (size (ht0 d1))
                       (sizemask (ht0 d1))
                       (used (ht0 d1) - 1))
                       (ht1 d1) (rehashidx d1) (iterators d1))).
    { unfold entries. cbn [ht0 ht1]. rewrite E1, E2, Hpb.
      rewrite <- !app_assoc. cbn [app]. symmetry. rewrite <- Permutation_middle.
      reflexivity. }
    eexists _, DICT_OK. split; [reflexivity|]. split.
    - unfold dict_wf. cbn [ht0 ht1 rehashidx size table].
      split.
      { apply (ht_wf_set_bucket _ t0 _ b0 b0'); [assumption..| |lia].
        intros x Hx. exists x. split; [|reflexivity]. rewrite Hpb. now right. }
      split; [assumption|].
      split; [apply (distinct_keys_tail e), (distinct_keys_perm _ _ Hperm), Hdist|].
      split; [assumption|]. split; [assumption|].
      change (dictIsRehashing (mk_dict _ (ht1 d1) (rehashidx d1) (iterators d1)))
        with (dictIsRehashing d1).
      destruct (dictIsRehashing d1); [|assumption].
      destruct Hre as (Hi & _ & Hs & Hempty).
      split; [assumption|]. split; [eauto|]. split; [assumption|].
      intros i b Hb Hlt c Hc. injection Hb as <-.
      destruct (decide (i = i0)) as [->|Hne].
      + pose proof (Hempty _ t0 Ht0 Hlt _ Hb0) as ->.
        apply Permutation_nil_l in Hpb. discriminate.
      + rewrite list_lookup_insert_ne in Hc by congruence. now apply (Hempty i t0 Ht0 Hlt).
    - right. split; [reflexivity|]. exists e. split; [exact Hk|].
      now rewrite <- Hp1. }
  rewrite (chain_has_bucket _ t0 k b0 Hw0 Ht0 Hb0) in Hc0.
  destruct (dictIsRehashing d1) eqn:Hr; cbn [negb].
  - destruct Hre as (Hi & Hsome0 & [t1 Ht1] & Hempty). rewrite Ht1. cbn [mbind option_bind].
    destruct (ht_wf_bucket _ t1 k Hw1 Ht1) as [_ [b1 Hb1]].
    rewrite Hb1. cbn [mbind option_bind].
    set (i1 := Z.to_nat (Z.land (dictHashKey k) (sizemask (ht1 d1)))) in *.
    pose proof (chain_unlink_spec k b1) as Hc1.
    destruct (chain_unlink k b1) as [b1'|].
    + destruct Hc1 as (e & Hk & Hpb).
      assert (Hlen : Z.of_nat (length b1) = Z.of_nat (length b1') + 1).
      { rewrite (Permutation_length Hpb). cbn [length]. lia. }
      destruct (ht_entries_set_bucket (ht1 d1) t1 _ b1 b1' (used (ht1 d1) - 1) Ht1 Hb1) as (l1 & l2 & E1 & E2).
      assert (Hperm : entries d1 ≡ₚ
                e :: entries (mk_dict (ht0 d1)
                         (mk_dictht (Some (<[i1 := b1']> t1)) (size (ht1 d1))
                         (sizemask (ht1 d1))
                         (used (ht1 d1) - 1))
                         (rehashidx d1) (iterators d1))).
      { unfold entries. cbn [ht0 ht1]. rewrite E1, E2, Hpb.
        cbn [app]. rewrite (app_assoc _ l1 (e :: _)), (app_assoc _ l1 (b1' ++ l2)).
        symmetry. apply Permutation_middle. }
      eexists _, DICT_OK. split; [reflexivity|]. split.
      * unfold dict_wf. cbn [ht0 ht1 rehashidx size table].
        split; [assumption|]. split.
        { apply (ht_wf_set_bucket _ t1 _ b1 b1'); [assumption..| |lia].
          intros x Hx. exists x. split; [|reflexivity]. rewrite Hpb. now right. }
        split; [apply (distinct_keys_tail e), (distinct_keys_perm _ _ Hperm), Hdist|].
        split; [assumption|]. split; [assumption|].
        change (dictIsRehashing (mk_dict (ht0 d1) _ (rehashidx d1) (iterators d1)))
          with (dictIsRehashing d1).
        rewrite Hr. split; [assumption|]. split; [assumption|]. split; [eauto|assumption].
      * right. split; [reflexivity|]. exists e. split; [exact Hk|]. now rewrite <- Hp1.
    + rewrite (chain_has_bucket _ t1 k b1 Hw1 Ht1 Hb1) in Hc1.
      exists d1, DICT_ERR. split; [reflexivity|]. split; [exact Hwf1|]. left.
      split; [reflexivity|]. split; [|exact Hp1].
      now rewrite Hpres, present_split, Hc0, Hc1.
  - exists d1, DICT_ERR. split; [reflexivity|]. split; [exact Hwf1|]. left.
    split; [reflexivity|]. split; [|exact Hp1].
    rewrite Hpres, present_split, Hc0, Hre. reflexivity.
Qed.

(** The assignment to the value of the entry of a present key. *)
Lemma dictSetFoundVal_spec d k val :
  dict_wf d -> present d k = true ->
  exists d' e rest,
    dictSetFoundVal d k val = Some d' /\ dict_wf d' /\
    keyCompare k (key e) = true /\
    entries d ≡ₚ e :: rest /\
    entries d' ≡ₚ mk_dictEntry (key e) (Some val) :: rest.
Proof.
  intros Hwf Hpres. unfold dictSetFoundVal.
  assert (Hnz : size (ht0 d) <> 0).
  { intros Hz. unfold present in Hpres. rewrite (dict_wf_empty d Hwf Hz) in Hpres.
    discriminate. }
  destruct (dict_wf_table0 d Hwf Hnz) as [t0 Ht0].
  pose proof Hwf as (Hw0 & Hw1 & Hdist & Hs0 & Hs1 & Hre).
  rewrite Ht0. cbn [mbind option_bind].
  destruct (ht_wf_bucket _ t0 k Hw0 Ht0) as [_ [b0 Hb0]].
  rewrite Hb0. cbn [mbind option_bind].
  set (i0 := Z.to_nat (Z.land (dictHashKey k) (sizemask (ht0 d)))) in *.
  pose proof (chain_set_val_spec k val b0) as Hc0.
  destruct (chain_set_val k val b0) as [b0'|].
  { destruct Hc0 as (e & rest & Hk & Hpb & Hpb').
    assert (Hlen : Z.of_nat (length b0) = Z.of_nat (length b0')).
    { now rewrite (Permutation_length Hpb), (Permutation_length Hpb'). }
    destruct (ht_entries_set_bucket (ht0 d) t0 _ b0 b0' (used (ht0 d)) Ht0 Hb0) as (l1 & l2 & E1 & E2).
    assert (Hperm : entries d ≡ₚ e :: (l1 ++ rest ++ l2) ++ ht_entries (ht1 d)).
    { unfold entries. rewrite E1, Hpb. cbn [app]. rewrite <- Permutation_middle.
      reflexivity. }
    assert (Hperm' :
      entries (mk_dict (mk_dictht (Some (<[i0 := b0']> t0)) (size (ht0 d))
                 (sizemask (ht0 d))
                 (used (ht0 d)))
                 (ht1 d) (rehashidx d) (iterators d))
      ≡ₚ mk_dictEntry (key e) (Some val) :: (l1 ++ rest ++ l2) ++ ht_entries (ht1 d)).
    { unfold entries. cbn [ht0 ht1]. rewrite E2, Hpb'. cbn [app].
      rewrite <- Permutation_middle. reflexivity. }
    eexists _, e, _. split; [reflexivity|]. split; [|split; [exact Hk|split; eassumption]].
    unfold dict_wf. cbn [ht0 ht1 rehashidx size table].
    split.
    { apply (ht_wf_set_bucket _ t0 _ b0 b0'); [assumption..| |lia].
      intros x Hx. rewrite Hpb' in Hx. apply elem_of_cons in Hx as [->|Hx].
      - exists e. split; [rewrite Hpb; now left|reflexivity].
      - exists x. split; [rewrite Hpb; now right|reflexivity]. }
    split; [assumption|].
    split.
    { apply (distinct_keys_perm _ _ (symmetry Hperm')).
      apply (distinct_keys_same_key e); [reflexivity|].
      apply (distinct_keys_perm _ _ Hperm), Hdist. }
    split; [assumption|]. split; [assumption|].
    change (dictIsRehashing (mk_dict _ (ht1 d) (rehashidx d) (iterators d)))
      with (dictIsRehashing d).
    destruct (dictIsRehashing d); [|assumption].
    destruct Hre as (Hi & _ & Hs & Hempty).
    split; [assumption|]. split; [eauto|]. split; [assumption|].
    intros i b Hb Hlt c Hc. injection Hb as <-.
    destruct (decide (i = i0)) as [->|Hne].
    - pose proof (Hempty _ t0 Ht0 Hlt _ Hb0) as ->.
      apply Permutation_nil_l in Hpb. discriminate.
    - rewrite list_lookup_insert_ne in Hc by congruence. now apply (Hempty i t0 Ht0 Hlt). }
  rewrite (chain_has_bucket _ t0 k b0 Hw0 Ht0 Hb0) in Hc0.
  rewrite present_split, Hc0 in Hpres. cbn [orb] in Hpres.
  destruct (dictIsRehashing d) eqn:Hr.
  2:{ rewrite Hre in Hpres. discriminate. }
  destruct Hre as (Hi & Hsome0 & [t1 Ht1] & Hempty). rewrite Ht1. cbn [mbind option_bind].
  destruct (ht_wf_bucket _ t1 k Hw1 Ht1) as [_ [b1 Hb1]].
  rewrite Hb1. cbn [mbind option_bind].
  set (i1 := Z.to_nat (Z.land (dictHashKey k) (sizemask (ht1 d)))) in *.
  pose proof (chain_set_val_spec k val b1) as Hc1.
  destruct (chain_set_val k val b1) as [b1'|].
  2:{ rewrite (chain_has_bucket _ t1 k b1 Hw1 Ht1 Hb1) in Hc1. congruence. }
  cbn [mbind option_bind].
  destruct Hc1 as (e & rest & Hk & Hpb & Hpb').
  assert (Hlen : Z.of_nat (length b1) = Z.of_nat (length b1')).
  { now rewrite (Permutation_length Hpb), (Permutation_length Hpb'). }
  destruct (ht_entries_set_bucket (ht1 d) t1 _ b1 b1' (used (ht1 d)) Ht1 Hb1) as (l1 & l2 & E1 & E2).
  assert (Hperm : entries d ≡ₚ e :: ht_entries (ht0 d) ++ l1 ++ rest ++ l2).
  { unfold entries. rewrite E1, Hpb. cbn [app].
    rewrite (app_assoc _ l1 (e :: _)), (app_assoc _ l1 (rest ++ l2)).
    symmetry. apply Permutation_middle. }
  assert (Hperm' :
    entries (mk_dict (ht0 d)
               (mk_dictht (Some (<[i1 := b1']> t1)) (size (ht1 d))
               (sizemask (ht1 d))
               (used (ht1 d)))
               (rehashidx d) (iterators d))
    ≡ₚ mk_dictEntry (key e) (Some val) :: ht_entries (ht0 d) ++ l1 ++ rest ++ l2).
  { unfold entries. cbn [ht0 ht1]. rewrite E2, Hpb'. cbn [app].
    rewrite (app_assoc _ l1 (_ :: _)), (app_assoc _ l1 (rest ++ l2)).
    symmetry. apply Permutation_middle. }
  eexists _, e, _. split; [reflexivity|]. split; [|split; [exact Hk|split; eassumption]].
  unfold dict_wf. cbn [ht0 ht1 rehashidx size table].
  split; [assumption|]. split.
  { apply (ht_wf_set_bucket _ t1 _ b1 b1'); [assumption..| |lia].
    intros x Hx. rewrite Hpb' in Hx. apply elem_of_cons in Hx as [->|Hx].
    - exists e. split; [rewrite Hpb; now left|reflexivity].
    - exists x. split; [rewrite Hpb; now right|reflexivity]. }
  split.
  { apply (distinct_keys_perm _ _ (symmetry Hperm')).
    apply (distinct_keys_same_key e); [reflexivity|].
    apply (distinct_keys_perm _ _ Hperm), Hdist. }
  split; [assumption|]. split; [assumption|].
  change (dictIsRehashing (mk_dict (ht0 d) _ (rehashidx d) (iterators d)))
    with (dictIsRehashing d).
  rewrite Hr. split; [assumption|]. split; [assumption|]. split; [eauto|assumption].
Qed.

(** [dictExpand] of a dictionary that is not rehashing, to a size that
    holds its entries. *)
Lemma dictExpand_spec d sz :
  dict_wf d -> dictIsRehashing d = false ->
  used (ht0 d) <= sz -> 0 <= sz <= 2^31 ->
  exists d',
    dictExpand d sz = Some (d', DICT_OK) /\ dict_wf d' /\ entries d' = entries d.
Proof.
  intros Hwf Hr Hu Hsz. pose proof Hwf as (Hw0 & Hw1 & Hdist & Hs0 & Hs1 & Hre).
  rewrite Hr in Hre. unfold dictExpand.
  destruct (_dictNextPower_spec sz Hsz) as (k & Hk & -> & Hle).
  cbn [mbind option_bind]. rewrite Hr. cbn [orb].
  destruct (Z.gtb_spec (used (ht0 d)) sz); [lia|].
  assert (Hfresh : ht_entries (mk_dictht (Some (replicate (Z.to_nat (2 ^ Z.of_nat k)) []))
                              (2 ^ Z.of_nat k) (2 ^ Z.of_nat k - 1) 0) = []).
  { unfold ht_entries. cbn [table]. apply concat_replicate_nil. }
  destruct (table (ht0 d)) as [t0|] eqn:Ht0.
  - eexists. split; [reflexivity|].
    unfold dict_wf, entries, dictIsRehashing in *. cbn [ht0 ht1 rehashidx size table].
    rewrite Hre in *. cbn [negb Z.eqb].
    change (ht_entries _dictReset) with (@nil dictEntry) in *.
    rewrite Hfresh.
    split; [|reflexivity].
    split; [assumption|]. split; [exact (ht_wf_fresh k)|].
    split; [assumption|]. split; [assumption|].
    split; [apply Z.pow_le_mono_r; lia|].
    split; [|split; [eauto|split; [eauto|]]].
    + unfold ht_wf in Hw0. rewrite Ht0 in Hw0. destruct Hw0 as ([n Hn] & _).
      rewrite Hn. pose proof (Z.pow_pos_nonneg 2 (Z.of_nat n)). lia.
    + intros i b _ Hi. cbn in Hi. lia.
  - assert (He0 : ht_entries (ht0 d) = []) by (unfold ht_entries; now rewrite Ht0).
    eexists. split; [reflexivity|].
    unfold dict_wf, entries, dictIsRehashing in *. cbn [ht0 ht1 rehashidx size table].
    rewrite Hr. rewrite He0 in Hdist |- *. rewrite Hfresh.
    split; [|reflexivity].
    split; [exact (ht_wf_fresh k)|].
    split; [assumption|]. split; [assumption|].
    split; [apply Z.pow_le_mono_r; lia|].
    split; assumption.
Qed.

(** [dictResize] keeps the representation invariant and the entries. *)
Lemma dictResize_spec d :
  dict_wf d -> dictSize d < 2^30 ->
  exists d' r, dictResize d = Some (d', r) /\ dict_wf d' /\ entries d' = entries d.
Proof.
  intros Hwf Hsmall. unfold dictResize.
  destruct (negb dict_can_resize); cbn [orb]; [now exists d, DICT_ERR|].
  destruct (dictIsRehashing d) eqn:Hr; [now exists d, DICT_ERR|].
  pose proof Hwf as (Hw0 & Hw1 & _).
  pose proof (ht_entries_used _ Hw0) as Hu0.
  pose proof (ht_entries_used _ Hw1) as Hu1.
  unfold dictSize in Hsmall.
  assert (Hs : sint 32 (used (ht0 d)) = used (ht0 d))
    by (apply Ziplist.sint_small; lia).
  cbv zeta. rewrite Hs. unfold DICT_HT_INITIAL_SIZE.
  destruct (Z.ltb_spec (used (ht0 d)) 4).
  - destruct (dictExpand_spec d 4 Hwf Hr) as (d' & E & Hwf' & He); [lia|lia|].
    exists d', DICT_OK. auto.
  - destruct (dictExpand_spec d (used (ht0 d)) Hwf Hr) as (d' & E & Hwf' & He); [lia|lia|].
    exists d', DICT_OK. auto.
Qed.

(** *** Lookup of a value, replacement, and repeated rehash steps *)

(** [dictFetchValue(d, key)]: the value of the entry [dictFind] returns,
    NULL ([None]) when there is none. *)
Definition dictFetchValue (d : dict) (k : K) : option (dict * option V) :=
  '(d, he) ← dictFind d k;
  Some (d, match he with Some e => v e | None => None end).

(** [dictReplace(d, key, val)]: 1 when the pair was added, 0 when the value
    of the existing entry was overwritten.  [auxentry = *entry] reads
    through the pointer that [dictFind] returned. *)
Definition dictReplace (d : dict) (k : K) (val : V) : option (dict * Z) :=
  '(d, r) ← dictAdd d k val;
  if r =? DICT_OK then Some (d, 1)
  else
    '(d, entry) ← dictFind d k;
    match entry with
    | None => None
    | Some _ => d ← dictSetFoundVal d k val; Some (d, 0)
    end.

Lemma present_perm d d' k : entries d' ≡ₚ entries d -> present d' k = present d k.
Proof. intros H. unfold present. now apply existsb_Permutation. Qed.

Lemma present_elem d k e :
  e ∈ entries d -> keyCompare k (key e) = true -> present d k = true.
Proof.
  intros He Hk. unfold present. apply existsb_exists. exists e.
  split; [now apply list_elem_of_In|exact Hk].
Qed.

Lemma present_false_elem d k e :
  present d k = false -> e ∈ entries d -> keyCompare k (key e) = false.
Proof.
  intros Hp He. destruct (keyCompare k (key e)) eqn:E; [|reflexivity].
  now rewrite (present_elem d k e He E) in Hp.
Qed.

(** When [dictAdd] reports the duplicate, the stored entries are the old
    ones. *)
Lemma dictAdd_err_entries d k val d' :
  dict_wf d -> dictSize d < 2^30 ->
  dictAdd d k val = Some (d', DICT_ERR) -> entries d' ≡ₚ entries d.
Proof.
  intros Hwf Hsmall. unfold dictAdd, dictAddRaw.
  assert (H1 : exists d1,
             (if dictIsRehashing d then _dictRehashStep d else Some d) = Some d1
             /\ dict_wf d1 /\ entries d1 ≡ₚ entries d).
  { destruct (dictIsRehashing d) eqn:Hr; [now apply _dictRehashStep_spec|now exists d]. }
  destruct H1 as (d1 & -> & Hwf1 & Hp1). cbn [mbind option_bind].
  assert (Hsmall1 : dictSize d1 < 2^30).
  { rewrite (dictSize_entries _ Hwf1), (Permutation_length Hp1),
      <- (dictSize_entries _ Hwf). exact Hsmall. }
  destruct (_dictKeyIndex_spec d1 k Hwf1 Hsmall1)
    as (d2 & index & -> & Hwf2 & He2 & Hidx & Hslot).
  cbn [mbind option_bind].
  destruct (Z.eqb_spec index (-1)) as [Hm|Hm].
  - intros [= <-]. now rewrite He2.
  - destruct (dictIsRehashing d2); cbn [mbind option_bind].
    + destruct (table (ht1 d2)); cbn [mbind option_bind]; [|discriminate].
      destruct (if index <? 0 then None else _); cbn [mbind option_bind]; [|discriminate].
      change (1 =? 0) with false. cbv iota.
      destruct (set_head_val _ _ _); cbn [mbind option_bind]; discriminate.
    + destruct (table (ht0 d2)); cbn [mbind option_bind]; [|discriminate].
      destruct (if index <? 0 then None else _); cbn [mbind option_bind]; [|discriminate].
      change (0 =? 0) with true. cbv iota.
      destruct (set_head_val _ _ _); cbn [mbind option_bind]; discriminate.
Qed.

(** X1 — lookup.  On a well-formed dictionary [dictFind] returns; it keeps
    the stored entries (the piggy-backed rehash step may move a bucket); it
    returns NULL exactly when no stored key compares equal to the argument,
    also while a rehash is in progress and the key may sit in either table;
    and an entry it returns is a stored one whose key compares equal. *)
Theorem dictFind_null_iff_absent (d : dict) (k : K) :
  dict_wf d ->
  exists d' r,
    dictFind d k = Some (d', r)
    /\ dict_wf d' /\ entries d' ≡ₚ entries d
    /\ (r = None <-> present d k = false)
    /\ (forall e, r = Some e -> e ∈ entries d /\ keyCompare k (key e) = true).
Proof.
  intros Hwf.
  destruct (dictFind_spec d k Hwf) as (d' & r & Hf & Hwf' & Hp & Hr).
  exists d', r. split; [exact Hf|]. split; [exact Hwf'|]. split; [exact Hp|].
  destruct r as [e|].
  - destruct Hr as [He Hk]. rewrite Hp in He. split.
    + split; [discriminate|]. intros Habs.
      now rewrite (present_elem d k e He Hk) in Habs.
    + intros e' [= <-]. now split.
  - split.
    + split; [intros _; exact Hr|reflexivity].
    + intros e' [=].
Qed.

(** X2 — insert, then look up.  A key that is absent (and equal to itself
    under the descriptor's comparison) is added with status [DICT_OK], and
    [dictFetchValue] on the result returns the value just stored; the
    lookup leaves the stored entries as the insert made them. *)
Theorem dictFetchValue_after_dictAdd (d : dict) (k : K) (val : V) :
  dict_wf d -> dictSize d < 2^30 ->
  present d k = false -> keyCompare k k = true ->
  exists d1 d2,
    dictAdd d k val = Some (d1, DICT_OK)
    /\ dictFetchValue d1 k = Some (d2, Some val)
    /\ dict_wf d2
    /\ entries d2 ≡ₚ mk_dictEntry k (Some val) :: entries d.
Proof.
  intros Hwf Hsmall Habs Hrefl.
  destruct (dictAdd_spec d k val Hwf Hsmall) as (d1 & r & Hadd & Hwf1 & Hst & Hiff & Hok).
  assert (Hr : r = DICT_OK).
  { destruct Hst as [?|Herr]; [assumption|].
    apply Hiff in Herr. congruence. }
  subst r. pose proof (Hok eq_refl) as Hp1.
  destruct (dictFind_spec d1 k Hwf1) as (d2 & r2 & Hf & Hwf2 & Hp2 & Hr2).
  exists d1, d2. split; [exact Hadd|].
  assert (Hnew : mk_dictEntry k (Some val) ∈ entries d1).
  { rewrite Hp1. apply elem_of_cons. now left. }
  unfold dictFetchValue. rewrite Hf. cbn [mbind option_bind].
  destruct r2 as [e|].
  - destruct Hr2 as [He Hk].
    assert (E : e = mk_dictEntry k (Some val)).
    { rewrite Hp2, Hp1 in He. apply elem_of_cons in He as [He|He]; [exact He|].
      now rewrite (present_elem d k e He Hk) in Habs. }
    subst e. cbn [v]. split; [reflexivity|]. split; [exact Hwf2|].
    now rewrite Hp2.
  - now rewrite (present_elem d1 k _ Hnew Hrefl) in Hr2.
Qed.

(** X3 — deletion.  On a well-formed dictionary [dictDelete] returns; it
    answers [DICT_ERR] exactly when the key is absent, and then the stored
    entries are unchanged; otherwise it answers [DICT_OK] and exactly one
    entry, whose key compares equal to the argument, has been unlinked: the
    old entries are that entry plus the new ones and the size has dropped
    by one. *)
Theorem dictDelete_unlinks_one (d : dict) (k : K) :
  dict_wf d ->
  exists d' r,
    dictDelete d k = Some (d', r)
    /\ dict_wf d'
    /\ (r = DICT_OK \/ r = DICT_ERR)
    /\ (r = DICT_ERR <-> present d k = false)
    /\ (r = DICT_ERR -> entries d' ≡ₚ entries d)
    /\ (r = DICT_OK ->
        exists e, keyCompare k (key e) = true
                  /\ entries d ≡ₚ e :: entries d'
                  /\ dictSize d' = dictSize d - 1).
Proof.
  intros Hwf.
  destruct (dictDelete_spec d k Hwf) as (d' & r & Hd & Hwf' & Hcase).
  exists d', r. split; [exact Hd|]. split; [exact Hwf'|].
  destruct Hcase as [(-> & Habs & Hp)|(-> & e & Hk & Hp)].
  - split; [now right|]. split; [tauto|]. split; [intros _; exact Hp|].
    unfold DICT_ERR, DICT_OK. discriminate.
  - assert (Hpres : present d k = true).
    { apply (present_elem d k e); [|exact Hk]. rewrite Hp. apply elem_of_cons. now left. }
    split; [now left|].
    split; [split; [unfold DICT_OK, DICT_ERR; discriminate|congruence]|].
    split; [unfold DICT_OK, DICT_ERR; discriminate|].
    intros _. exists e. split; [exact Hk|]. split; [exact Hp|].
    rewrite (dictSize_entries d Hwf), (dictSize_entries d' Hwf'), (Permutation_length Hp).
    cbn [length]. lia.
Qed.

(** X4 — delete, then look up.  When the comparison of the descriptor is an
    equivalence (two keys equal to a third are equal to each other), a key
    is absent after [dictDelete]: a following [dictFind] returns NULL,
    whether or not the key was there before. *)
Theorem dictFind_after_dictDelete (d : dict) (k : K) :
  (forall a b c, keyCompare a b = true -> keyCompare a c = true -> keyCompare b c = true) ->
  dict_wf d ->
  exists d1 r d2,
    dictDelete d k = Some (d1, r)
    /\ present d1 k = false
    /\ dictFind d1 k = Some (d2, None).
Proof.
  intros Heuc Hwf.
  destruct (dictDelete_spec d k Hwf) as (d1 & r & Hd & Hwf1 & Hcase).
  assert (Habs : present d1 k = false).
  { destruct Hcase as [(_ & Habs & Hp)|(_ & e & Hk & Hp)].
    - now rewrite (present_perm d d1 k Hp).
    - destruct Hwf as (_ & _ & Hdist & _).
      apply (distinct_keys_perm _ _ Hp) in Hdist. cbn [distinct_keys] in Hdist.
      destruct Hdist as [Hne _].
      destruct (present d1 k) eqn:Hpr; [|reflexivity].
      unfold present in Hpr. apply existsb_exists in Hpr as (x & Hx & Hkx).
      assert (Hex : existsb (fun he => keyCompare (key e) (key he)) (entries d1) = true).
      { apply existsb_exists. exists x. split; [exact Hx|]. now apply (Heuc k). }
      congruence. }
  destruct (dictFind_spec d1 k Hwf1) as (d2 & r2 & Hf & Hwf2 & Hp2 & Hr2).
  exists d1, r, d2. split; [exact Hd|]. split; [exact Habs|].
  destruct r2 as [e|]; [|exact Hf].
  destruct Hr2 as [He Hk]. rewrite Hp2 in He.
  now rewrite (present_elem d1 k e He Hk) in Habs.
Qed.

(** X5 — replace.  On a well-formed dictionary [dictReplace] returns.  For
    an absent key it returns 1 and the stored entries are the old ones plus
    the new pair; for a present key it returns 0 and exactly one entry,
    whose key compares equal, has its value overwritten with the new one
    (its stored key is kept). *)
Theorem dictReplace_adds_or_overwrites (d : dict) (k : K) (val : V) :
  dict_wf d -> dictSize d < 2^30 ->
  exists d' r,
    dictReplace d k val = Some (d', r)
    /\ dict_wf d'
    /\ (present d k = false ->
        r = 1 /\ entries d' ≡ₚ mk_dictEntry k (Some val) :: entries d)
    /\ (present d k = true ->
        r = 0 /\ exists e rest,
          keyCompare k (key e) = true
          /\ entries d ≡ₚ e :: rest
          /\ entries d' ≡ₚ mk_dictEntry (key e) (Some val) :: rest).
Proof.
  intros Hwf Hsmall.
  destruct (dictAdd_spec d k val Hwf Hsmall) as (d1 & r1 & Hadd & Hwf1 & Hst & Hiff & Hok).
  unfold dictReplace. rewrite Hadd. cbn [mbind option_bind].
  destruct Hst as [->| ->].
  - (* added *)
    change (DICT_OK =? DICT_OK) with true. cbv iota.
    exists d1, 1. split; [reflexivity|]. split; [exact Hwf1|].
    assert (Habs : present d k = false).
    { destruct (present d k) eqn:E; [|reflexivity].
      apply proj2 in Hiff. specialize (Hiff eq_refl). discriminate. }
    split; [intros _; split; [reflexivity|now apply Hok]|].
    intros Hpr. congruence.
  - (* the key exists *)
    change (DICT_ERR =? DICT_OK) with false. cbv iota.
    assert (Hpres : present d k = true) by (now apply Hiff).
    pose proof (dictAdd_err_entries d k val d1 Hwf Hsmall Hadd) as Hp1.
    destruct (dictFind_spec d1 k Hwf1) as (d2 & r2 & Hf & Hwf2 & Hp2 & Hr2).
    rewrite Hf. cbn [mbind option_bind].
    assert (Hpres2 : present d2 k = true).
    { now rewrite (present_perm d1 d2 k Hp2), (present_perm d d1 k Hp1). }
    destruct r2 as [e2|]; [|rewrite (present_perm d d1 k Hp1) in Hr2; congruence].
    destruct (dictSetFoundVal_spec d2 k val Hwf2 Hpres2)
      as (d3 & e & rest & Hset & Hwf3 & Hk & Hpe & Hp3).
    rewrite Hset. cbn [mbind option_bind].
    exists d3, 0. split; [reflexivity|]. split; [exact Hwf3|].
    split; [intros Habs; congruence|].
    intros _. split; [reflexivity|]. exists e, rest.
    split; [exact Hk|]. split; [|exact Hp3].
    now rewrite <- Hp1, <- Hp2.
Qed.

(** Repeated rehash steps: [dictRehash(d, n+1)] is one step followed, while
    buckets are left, by [n] more. *)
Lemma skip_empty_nonneg (t : list (list dictEntry)) : forall fuel idx r,
  skip_empty fuel t idx = Some r ->
  0 <= r /\ exists e c, t !! Z.to_nat r = Some (e :: c).
Proof.
  induction fuel as [|fuel IH]; intros idx r; cbn [skip_empty]; [discriminate|].
  destruct (Z.ltb_spec idx 0); [discriminate|].
  destruct (t !! Z.to_nat idx) as [b|] eqn:Hb; cbn [mbind option_bind]; [|discriminate].
  destruct b as [|e c].
  - apply IH.
  - intros [= <-]. split; [assumption|]. now exists e, c.
Qed.

Lemma move_chain_used de : forall h0 h1 h0' h1',
  move_chain de h0 h1 = Some (h0', h1') ->
  used h0' = used h0 - Z.of_nat (length de).
Proof.
  induction de as [|e de IH]; intros h0 h1 h0' h1'; cbn [move_chain].
  - intros [= <- <-]. cbn [length]. lia.
  - destruct (table h1) as [t1|]; cbn [mbind option_bind]; [|discriminate].
    destruct (t1 !! _) as [b|]; cbn [mbind option_bind]; [|discriminate].
    intros H. apply IH in H. cbn [used length] in *. lia.
Qed.

Lemma dictRehash_0 d :
  dictRehash 0 d = Some (d, if dictIsRehashing d then 1 else 0).
Proof. cbn [dictRehash]. now destruct (dictIsRehashing d). Qed.

Lemma dictRehash_idle n d : dictIsRehashing d = false -> dictRehash n d = Some (d, 0).
Proof. intros H. destruct n; cbn [dictRehash]; now rewrite H. Qed.

Lemma dictRehash_S n d :
  dictRehash (S n) d =
  match dictRehash 1 d with
  | Some (d1, r1) => if r1 =? 0 then Some (d1, 0) else dictRehash n d1
  | None => None
  end.
Proof.
  cbn [dictRehash].
  destruct (dictIsRehashing d) eqn:Hr; cbn [negb]; [|reflexivity].
  destruct (used (ht0 d) =? 0); [reflexivity|].
  destruct (negb (size (ht0 d) >? u64 (rehashidx d))); [reflexivity|].
  destruct (table (ht0 d)) as [t0|]; cbn [mbind option_bind]; [|reflexivity].
  destruct (skip_empty (length t0) t0 (rehashidx d)) as [idx|];
    cbn [mbind option_bind]; [|reflexivity].
  destruct (t0 !! Z.to_nat idx) as [de|]; cbn [mbind option_bind]; [|reflexivity].
  destruct (move_chain de (ht0 d) (ht1 d)) as [[h0 h1]|]; cbn [mbind option_bind];
    [|reflexivity].
  match goal with |- dictRehash n ?X = _ => destruct (dictIsRehashing X) eqn:Hx end;
    cbn [negb Z.eqb].
  - reflexivity.
  - now apply dictRehash_idle.
Qed.

(** A step either ends the rehash or takes entries out of the primary
    table. *)
Lemma dictRehash_step_progress d d' r :
  dictIsRehashing d = true -> dictRehash 1 d = Some (d', r) ->
  (r = 0 /\ dictIsRehashing d' = false)
  \/ (r = 1 /\ dictIsRehashing d' = true /\ used (ht0 d') < used (ht0 d)).
Proof.
  intros Hr. cbn [dictRehash]. rewrite Hr. cbn [negb].
  destruct (used (ht0 d) =? 0).
  { intros [= <- <-]. now left. }
  destruct (negb (size (ht0 d) >? u64 (rehashidx d))); [discriminate|].
  destruct (table (ht0 d)) as [t0|]; cbn [mbind option_bind]; [|discriminate].
  destruct (skip_empty (length t0) t0 (rehashidx d)) as [idx|] eqn:Hsk;
    cbn [mbind option_bind]; [|discriminate].
  destruct (skip_empty_nonneg _ _ _ _ Hsk) as (Hidx & e & c & Hb).
  rewrite Hb. cbn [mbind option_bind].
  destruct (move_chain (e :: c) (ht0 d) (ht1 d)) as [[h0 h1]|] eqn:Hm;
    cbn [mbind option_bind]; [|discriminate].
  apply move_chain_used in Hm. cbn [length] in Hm.
  unfold dictIsRehashing at 1. cbn [rehashidx].
  destruct (Z.eqb_spec (idx + 1) (-1)); [lia|]. cbn [negb].
  intros [= <- <-]. right. split; [reflexivity|].
  unfold dictIsRehashing. cbn [rehashidx ht0 used].
  destruct (Z.eqb_spec (idx + 1) (-1)); [lia|]. split; [reflexivity|lia].
Qed.

(** X6 — incremental rehash.  On a well-formed dictionary [dictRehash(d, n)]
    returns for every [n]; it keeps the representation invariant and the
    stored entries (buckets move from the primary to the secondary table);
    it returns 0 exactly when no rehash is in progress afterwards and 1 when
    one still is; and a call with more steps than the primary table holds
    entries always completes the rehash. *)
Theorem dictRehash_keeps_entries_and_finishes (n : nat) (d : dict) :
  dict_wf d ->
  exists d' r,
    dictRehash n d = Some (d', r)
    /\ dict_wf d' /\ entries d' ≡ₚ entries d
    /\ r = (if dictIsRehashing d' then 1 else 0)
    /\ (used (ht0 d) < Z.of_nat n -> r = 0).
Proof.
  revert d. induction n as [|n IH]; intros d Hwf.
  - exists d, (if dictIsRehashing d then 1 else 0).
    split; [apply dictRehash_0|]. split; [exact Hwf|]. split; [reflexivity|].
    split; [reflexivity|]. intros Hu.
    pose proof Hwf as (Hw0 & _). pose proof (ht_entries_used _ Hw0). lia.
  - destruct (dictIsRehashing d) eqn:Hr.
    + destruct (dictRehash_step d Hwf Hr) as (d1 & r1 & H1 & Hwf1 & Hp1 & _).
      rewrite dictRehash_S, H1.
      destruct (dictRehash_step_progress d d1 r1 Hr H1)
        as [(-> & Hr1)|(-> & Hr1 & Hu1)].
      * change (0 =? 0) with true. cbv iota.
        exists d1, 0. rewrite Hr1. split; [reflexivity|]. split; [exact Hwf1|].
        split; [exact Hp1|]. split; reflexivity.
      * change (1 =? 0) with false. cbv iota.
        destruct (IH d1 Hwf1) as (d' & r & Hn & Hwf' & Hp & Hres & Hfin).
        exists d', r. split; [exact Hn|]. split; [exact Hwf'|].
        split; [now rewrite Hp|]. split; [exact Hres|].
        intros Hu. apply Hfin. lia.
    + exists d, 0. split; [now apply dictRehash_idle|]. rewrite Hr.
      split; [exact Hwf|]. split; [reflexivity|]. split; reflexivity.
Qed.

(** [_dictNextPower] returns the first power of two, from 4 on, that is not
    below the size. *)
Lemma nextPower_loop_min size r : forall fuel i,
  0 <= i -> nextPower_loop fuel i size = Some r ->
  r = i \/ exists m, 0 <= m < size /\ r = u64 (m * 2).
Proof.
  induction fuel as [|fuel IH]; intros i Hi; cbn [nextPower_loop]; [discriminate|].
  destruct (Z.geb_spec i size) as [Hge|Hlt].
  - intros [= <-]. now left.
  - intros H. apply IH in H; [|unfold u64; apply Z.mod_pos_bound; lia].
    destruct H as [->|H]; [|now right].
    right. exists i. split; [lia|reflexivity].
Qed.

Lemma _dictNextPower_min size :
  0 <= size <= 2^31 ->
  exists k, (2 <= k <= 31)%nat /\ _dictNextPower size = Some (2 ^ Z.of_nat k)
            /\ size <= 2 ^ Z.of_nat k
            /\ (k = 2%nat \/ 2 ^ Z.of_nat (k - 1) < size).
Proof.
  intros Hs. destruct (_dictNextPower_spec size Hs) as (k & Hk & Hp & Hle).
  exists k. split; [exact Hk|]. split; [exact Hp|]. split; [exact Hle|].
  unfold _dictNextPower, LONG_MAX in Hp.
  destruct (Z.geb_spec size (2 ^ 63 - 1)); [lia|].
  apply nextPower_loop_min in Hp; [|unfold DICT_HT_INITIAL_SIZE; lia].
  destruct Hp as [Hp|(m & Hm & Hp)].
  - left. unfold DICT_HT_INITIAL_SIZE in Hp. change 4 with (2 ^ Z.of_nat 2) in Hp.
    apply Z.pow_inj_r in Hp; lia.
  - right. unfold u64 in Hp. rewrite Z.mod_small in Hp by lia.
    replace (Z.of_nat k) with (Z.succ (Z.of_nat (k - 1))) in Hp by lia.
    rewrite Z.pow_succ_r in Hp by lia. lia.
Qed.

(** X7 — growing the table.  For a size of at most 2^31, [dictExpand]
    returns.  It refuses with [DICT_ERR], changing nothing, exactly when a
    rehash is in progress or the dictionary holds more entries than the
    size.  Otherwise it answers [DICT_OK], keeps the stored entries and
    installs an empty table whose size is the least power of two, from 4
    on, that is not below the size: as the primary table when there was
    none, else as the secondary table, with an incremental rehash started
    at bucket 0. *)
Theorem dictExpand_least_power_of_two (d : dict) (sz : Z) :
  dict_wf d -> 0 <= sz <= 2^31 ->
  exists d' r,
    dictExpand d sz = Some (d', r)
    /\ (r = DICT_OK \/ r = DICT_ERR)
    /\ (r = DICT_ERR <-> dictIsRehashing d = true \/ sz < used (ht0 d))
    /\ (r = DICT_ERR -> d' = d)
    /\ (r = DICT_OK ->
        dict_wf d' /\ entries d' = entries d
        /\ exists k : nat,
             (2 <= k)%nat /\ sz <= 2 ^ Z.of_nat k
             /\ (k = 2%nat \/ 2 ^ Z.of_nat (k - 1) < sz)
             /\ match table (ht0 d) with
                | None => size (ht0 d') = 2 ^ Z.of_nat k /\ used (ht0 d') = 0
                          /\ dictIsRehashing d' = false
                | Some _ => ht0 d' = ht0 d
                            /\ size (ht1 d') = 2 ^ Z.of_nat k /\ used (ht1 d') = 0
                            /\ rehashidx d' = 0
                end).
Proof.
  intros Hwf Hsz.
  destruct (_dictNextPower_min sz Hsz) as (k & Hk & Hnp & Hle & Hmin).
  destruct (dictIsRehashing d) eqn:Hr.
  { exists d, DICT_ERR. unfold dictExpand. rewrite Hnp, Hr. cbn [mbind option_bind orb].
    split; [reflexivity|]. split; [now right|]. split; [tauto|].
    split; [reflexivity|]. unfold DICT_ERR, DICT_OK. discriminate. }
  destruct (Z.ltb_spec sz (used (ht0 d))) as [Hlt|Hge].
  { exists d, DICT_ERR. unfold dictExpand. rewrite Hnp, Hr. cbn [mbind option_bind orb].
    destruct (Z.gtb_spec (used (ht0 d)) sz); [|lia].
    split; [reflexivity|]. split; [now right|]. split; [tauto|].
    split; [reflexivity|]. unfold DICT_ERR, DICT_OK. discriminate. }
  destruct (dictExpand_spec d sz Hwf Hr Hge Hsz) as (d' & He & Hwf' & Hent).
  exists d', DICT_OK. split; [exact He|]. split; [now left|].
  split.
  { split; [unfold DICT_ERR, DICT_OK; discriminate|].
    intros [?|?]; [discriminate|lia]. }
  split; [unfold DICT_ERR, DICT_OK; discriminate|].
  intros _. split; [exact Hwf'|]. split; [exact Hent|].
  exists k. split; [lia|]. split; [exact Hle|]. split; [exact Hmin|].
  unfold dictExpand in He. rewrite Hnp, Hr in He. cbn [mbind option_bind orb] in He.
  destruct (Z.gtb_spec (used (ht0 d)) sz); [lia|].
  destruct (table (ht0 d)) as [t0|]; injection He as <-; cbn [ht0 ht1 size used rehashidx].
  - now repeat split.
  - repeat split. exact Hr.
Qed.

(** X8 — shrinking to fit.  On a well-formed dictionary of fewer than 2^30
    entries [dictResize] returns.  It refuses with [DICT_ERR], changing
    nothing, exactly when resizing is switched off or a rehash is in
    progress.  Otherwise it answers [DICT_OK], keeps the stored entries, and
    the table it installs has at least 4 buckets and at least as many
    buckets as there are entries. *)
Theorem dictResize_fits_entries (d : dict) :
  dict_wf d -> dictSize d < 2^30 ->
  exists d' r,
    dictResize d = Some (d', r)
    /\ (r = DICT_OK \/ r = DICT_ERR)
    /\ (r = DICT_ERR <-> dict_can_resize = false \/ dictIsRehashing d = true)
    /\ (r = DICT_ERR -> d' = d)
    /\ (r = DICT_OK ->
        dict_wf d' /\ entries d' = entries d
        /\ let n := match table (ht0 d) with None => ht0 d' | Some _ => ht1 d' end in
           used n = 0 /\ 4 <= size n /\ dictSize d <= size n).
Proof.
  intros Hwf Hsmall. unfold dictResize.
  destruct dict_can_resize; cbn [negb orb].
  2:{ exists d, DICT_ERR. split; [reflexivity|]. split; [now right|].
      split; [split; [now left|reflexivity]|]. split; [reflexivity|].
      unfold DICT_ERR, DICT_OK. discriminate. }
  destruct (dictIsRehashing d) eqn:Hr.
  { exists d, DICT_ERR. split; [reflexivity|]. split; [now right|].
    split; [split; [now right|reflexivity]|]. split; [reflexivity|].
    unfold DICT_ERR, DICT_OK. discriminate. }
  pose proof Hwf as (Hw0 & Hw1 & _ & _ & _ & Hre). rewrite Hr in Hre.
  pose proof (ht_entries_used _ Hw0) as Hu0.
  assert (Hsize : dictSize d = used (ht0 d)).
  { unfold dictSize. rewrite Hre. cbn [used _dictReset]. lia. }
  rewrite Hsize in Hsmall.
  assert (Hs : sint 32 (used (ht0 d)) = used (ht0 d))
    by (apply Ziplist.sint_small; lia).
  cbv zeta. rewrite Hs.
  set (minimal := if used (ht0 d) <? DICT_HT_INITIAL_SIZE then DICT_HT_INITIAL_SIZE
                  else used (ht0 d)).
  assert (Hmin : 4 <= minimal /\ used (ht0 d) <= minimal /\ minimal <= 2^31).
  { unfold minimal, DICT_HT_INITIAL_SIZE.
    destruct (Z.ltb_spec (used (ht0 d)) 4); lia. }
  destruct (dictExpand_spec d minimal Hwf Hr) as (d' & He & Hwf' & Hent); [lia|lia|].
  exists d', DICT_OK. split; [exact He|]. split; [now left|].
  split.
  { split; [unfold DICT_ERR, DICT_OK; discriminate|]. intros [?|?]; discriminate. }
  split; [unfold DICT_ERR, DICT_OK; discriminate|].
  intros _. split; [exact Hwf'|]. split; [exact Hent|].
  destruct (_dictNextPower_min minimal) as (k & Hk & Hnp & Hle & _); [lia|].
  unfold dictExpand in He. rewrite Hnp, Hr in He. cbn [mbind option_bind orb] in He.
  destruct (Z.gtb_spec (used (ht0 d)) minimal); [lia|].
  rewrite Hsize.
  destruct (table (ht0 d)) as [t0|]; injection He as <-; cbn [ht0 ht1 size used];
    (split; [reflexivity|lia]).
Qed.

(** *** Iterators *)

(** The addresses of the two bucket arrays, which [dictFingerprint] reads
    and the model of the tables does not record. *)
Variables table0_addr table1_addr : Z.

(** Thomas Wang's 64 bit integer hash, on a [long long]. *)
Definition wang_hash (hash : Z) : Z :=
  let hash := sint 64 (Z.lnot hash + Z.shiftl hash 21) in
  let hash := Z.lxor hash (Z.shiftr hash 24) in
  let hash := sint 64 ((hash + Z.shiftl hash 3) + Z.shiftl hash 8) in
  let hash := Z.lxor hash (Z.shiftr hash 14) in
  let hash := sint 64 ((hash + Z.shiftl hash 2) + Z.shiftl hash 4) in
  let hash := Z.lxor hash (Z.shiftr hash 28) in
  sint 64 (hash + Z.shiftl hash 31).

(** [dictFingerprint(d)]. *)
Definition dictFingerprint (d : dict) : Z :=
  let integers :=
    [sint 64 table0_addr; sint 64 (size (ht0 d)); sint 64 (used (ht0 d));
     sint 64 table1_addr; sint 64 (size (ht1 d)); sint 64 (used (ht1 d))] in
  fold_left (fun hash i => wang_hash (sint 64 (hash + i))) integers 0.

(** An iterator; its [d] is the dictionary the functions are given.  A
    pointer to an entry is the rest of its chain from that entry on ([[]] is
    NULL), which is what it points to as long as the dictionary is not
    modified.  The fingerprint is [None] until it is taken. *)
Record dictIterator := mk_dictIterator {
  it_table : Z;
  it_index : Z;
  it_safe : bool;
  it_entry : list dictEntry;
  it_nextEntry : list dictEntry;
  it_fingerprint : option Z
}.

(** [dictGetIterator(d)] and [dictGetSafeIterator(d)]. *)
Definition dictGetIterator : dictIterator := mk_dictIterator 0 (-1) false [] [] None.

Definition dictGetSafeIterator : dictIterator :=
  let i := dictGetIterator in
  mk_dictIterator (it_table i) (it_index i) true (it_entry i) (it_nextEntry i)
                  (it_fingerprint i).

(** [ht->table[i]]. *)
Definition bucket_at (h : dictht) (i : Z) : option (list dictEntry) :=
  t ← table h; if i <? 0 then None else t !! Z.to_nat i.

(** One pass of the [while (1)] of [dictNext] up to the test of
    [iter->entry]: the dictionary, the iterator, and whether the pass left
    the loop by [break]. *)
Definition dictNext_advance (d : dict) (iter : dictIterator)
  : option (dict * dictIterator * bool) :=
  match it_entry iter with
  | [] =>
      let ht := if it_table iter =? 0 then ht0 d else ht1 d in
      let first := (it_index iter =? -1) && (it_table iter =? 0) in
      let fp := if first && negb (it_safe iter) then Some (dictFingerprint d)
                else it_fingerprint iter in
      let d := if first && it_safe iter
               then mk_dict (ht0 d) (ht1 d) (rehashidx d) (sint 32 (iterators d + 1))
               else d in
      let index := sint 64 (it_index iter + 1) in
      if index >=? sint 64 (size ht) then
        if dictIsRehashing d && (it_table iter =? 0) then
          b ← bucket_at (ht1 d) 0;
          Some (d, mk_dictIterator (it_table iter + 1) 0 (it_safe iter) b
                     (it_nextEntry iter) fp, false)
        else
          Some (d, mk_dictIterator (it_table iter) index (it_safe iter) []
                     (it_nextEntry iter) fp, true)
      else
        b ← bucket_at ht index;
        Some (d, mk_dictIterator (it_table iter) index (it_safe iter) b
                   (it_nextEntry iter) fp, false)
  | _ :: _ =>
      Some (d, mk_dictIterator (it_table iter) (it_index iter) (it_safe iter)
                 (it_nextEntry iter) (it_nextEntry iter) (it_fingerprint iter), false)
  end.

Fixpoint dictNext_loop (fuel : nat) (d : dict) (iter : dictIterator)
  : option (dict * dictIterator * option dictEntry) :=
  match fuel with
  | O => None
  | S fuel' =>
      r ← dictNext_advance d iter;
      let '(d, iter, stop) := r in
      if (stop : bool) then Some (d, iter, None)
      else
        match it_entry iter with
        | e :: next =>
            Some (d, mk_dictIterator (it_table iter) (it_index iter) (it_safe iter)
                       (it_entry iter) next (it_fingerprint iter), Some e)
        | [] => dictNext_loop fuel' d iter
        end
  end.

(** [dictNext(iter)]: each pass of its loop leaves a bucket behind. *)
Definition dictNext (d : dict) (iter : dictIterator)
  : option (dict * dictIterator * option dictEntry) :=
  dictNext_loop (Z.to_nat (size (ht0 d) + size (ht1 d)) + 2) d iter.

(** [dictReleaseIterator(iter)]: [None] when its assertion fails. *)
Definition dictReleaseIterator (d : dict) (iter : dictIterator) : option dict :=
  if negb ((it_index iter =? -1) && (it_table iter =? 0)) then
    if it_safe iter then
      Some (mk_dict (ht0 d) (ht1 d) (rehashidx d) (sint 32 (iterators d - 1)))
    else
      match it_fingerprint iter with
      | Some f => if f =? dictFingerprint d then Some d else None
      | None => None
      end
  else Some d.

(** [n] calls of [dictNext], and what they return. *)
Fixpoint dictNext_n (n : nat) (d : dict) (iter : dictIterator)
  : option (dict * dictIterator * list (option dictEntry)) :=
  match n with
  | O => Some (d, iter, [])
  | S n' =>
      '(d, iter, r) ← dictNext d iter;
      '(d, iter, rs) ← dictNext_n n' d iter;
      Some (d, iter, r :: rs)
  end.

(** **** What an iterator has still to visit *)

Definition tab (h : dictht) : list (list dictEntry) := default [] (table h).

Definition rest_after (d : dict) (tbl idx : Z) : list dictEntry :=
  if tbl =? 0 then concat (drop (Z.to_nat (idx + 1)) (tab (ht0 d))) ++ ht_entries (ht1 d)
  else concat (drop (Z.to_nat (idx + 1)) (tab (ht1 d))).

Definition iter_rem (d : dict) (it : dictIterator) : list dictEntry :=
  match it_entry it with [] => [] | _ :: _ => it_nextEntry it end
  ++ rest_after d (it_table it) (it_index it).

Definition it_started (it : dictIterator) : bool :=
  negb ((it_index it =? -1) && (it_table it =? 0)).

Definition pos_ok (d : dict) (it : dictIterator) : Prop :=
  ((it_table it = 0 /\ -1 <= it_index it < size (ht0 d))
   \/ (it_table it = 1 /\ 0 <= it_index it < size (ht1 d) /\ dictIsRehashing d = true))
  /\ (it_entry it <> [] -> it_started it = true).

Definition same_tables (d0 d : dict) : Prop :=
  ht0 d = ht0 d0 /\ ht1 d = ht1 d0 /\ rehashidx d = rehashidx d0.

(** The counter of safe iterators and the fingerprint, before and after the
    first call. *)
Definition book (d0 d : dict) (it : dictIterator) : Prop :=
  if it_started it then
    if it_safe it
    then d = mk_dict (ht0 d0) (ht1 d0) (rehashidx d0) (sint 32 (iterators d0 + 1))
    else d = d0 /\ it_fingerprint it = Some (dictFingerprint d0)
  else d = d0.

(** Passes of the loop that are left at most. *)
Definition passes_left (d : dict) (it : dictIterator) : nat :=
  if it_table it =? 0
  then (Z.to_nat (size (ht0 d) - it_index it) + Z.to_nat (size (ht1 d)))%nat
  else Z.to_nat (size (ht1 d) - it_index it).

Lemma ht_entries_tab h : ht_entries h = concat (tab h).
Proof. unfold ht_entries, tab. destruct (table h); reflexivity. Qed.

Lemma ht_wf_tab h :
  ht_wf h -> Z.of_nat (length (tab h)) = size h.
Proof.
  unfold ht_wf, tab. destruct (table h) as [t|]; cbn [default from_option id].
  - intros (_ & H & _). exact H.
  - intros (H & _). now rewrite H.
Qed.

Lemma bucket_at_tab h i :
  ht_wf h -> 0 <= i < size h ->
  exists b, bucket_at h i = Some b /\ tab h !! Z.to_nat i = Some b.
Proof.
  intros Hwf Hi. pose proof (ht_wf_tab h Hwf) as Hl.
  unfold bucket_at, tab in *. unfold ht_wf in Hwf.
  destruct (table h) as [t|]; cbn [default from_option id mbind option_bind] in *.
  - destruct (Z.ltb_spec i 0); [lia|].
    destruct (lookup_lt_is_Some_2 t (Z.to_nat i)) as [b Hb]; [lia|].
    exists b. now rewrite Hb.
  - cbn [length] in Hl. lia.
Qed.

Lemma concat_drop_lookup {A} (t : list (list A)) i b :
  t !! i = Some b -> concat (drop i t) = b ++ concat (drop (S i) t).
Proof. intros H. now rewrite (drop_S _ _ _ H). Qed.

Section Iterate.

Variable d0 : dict.
Hypothesis Hwf : dict_wf d0.

Lemma size0_bounds : 0 <= size (ht0 d0) <= 2^31.
Proof.
  destruct Hwf as (H0 & _ & _ & Hs & _). pose proof (ht_wf_tab _ H0). lia.
Qed.

Lemma size1_bounds : 0 <= size (ht1 d0) <= 2^31.
Proof.
  destruct Hwf as (_ & H1 & _ & _ & Hs & _). pose proof (ht_wf_tab _ H1). lia.
Qed.

Lemma not_rehashing_ht1 : dictIsRehashing d0 = false -> ht_entries (ht1 d0) = [].
Proof.
  intros Hr. destruct Hwf as (_ & _ & _ & _ & _ & H). rewrite Hr in H.
  rewrite H. reflexivity.
Qed.

Lemma rehashing_size1 : dictIsRehashing d0 = true -> 1 <= size (ht1 d0).
Proof.
  intros Hr. destruct Hwf as (_ & H1 & _ & _ & _ & H). rewrite Hr in H.
  destruct H as (_ & _ & [t Ht] & _). unfold ht_wf in H1. rewrite Ht in H1.
  destruct H1 as ([n Hn] & _). rewrite Hn.
  pose proof (Z.pow_pos_nonneg 2 (Z.of_nat n)). lia.
Qed.

Lemma sint64_small x : 0 <= x <= 2^31 + 1 -> sint 64 x = x.
Proof.
  intros Hx. unfold sint. cbv zeta. rewrite Z.mod_small by lia.
  change (64 - 1) with 63. destruct (Z.ltb_spec x (2 ^ 63)); lia.
Qed.

(** One pass. *)
Lemma dictNext_advance_spec d it :
  same_tables d0 d -> pos_ok d0 it -> book d0 d it ->
  exists d1 it1 stop,
    dictNext_advance d it = Some (d1, it1, stop) /\
    same_tables d0 d1 /\ book d0 d1 it1 /\ it_started it1 = true /\
    it_safe it1 = it_safe it /\
    if stop then iter_rem d0 it = []
    else
      ((it_table it1 = 0 /\ 0 <= it_index it1 < size (ht0 d0))
       \/ (it_table it1 = 1 /\ 0 <= it_index it1 < size (ht1 d0)
           /\ dictIsRehashing d0 = true))
      /\ it_entry it1 ++ rest_after d0 (it_table it1) (it_index it1) = iter_rem d0 it
      /\ (passes_left d0 it1 < passes_left d0 it + (match it_entry it with [] => 0 | _ => 1 end))%nat.
Proof.
  intros (T0 & T1 & Tr) [Hpos Hent] Hbook.
  pose proof size0_bounds as B0. pose proof size1_bounds as B1.
  destruct Hwf as (W0 & W1 & _).
  assert (Hreh : dictIsRehashing d = dictIsRehashing d0)
    by (unfold dictIsRehashing; now rewrite Tr).
  unfold dictNext_advance, iter_rem.
  destruct (it_entry it) as [|e0 ent] eqn:Eent.
  - (* a new bucket *)
    cbn [app].
    set (first := (it_index it =? -1) && (it_table it =? 0)).
    set (fp := if first && negb (it_safe it) then Some (dictFingerprint d)
               else it_fingerprint it).
    set (d1 := if first && it_safe it
               then mk_dict (ht0 d) (ht1 d) (rehashidx d) (sint 32 (iterators d + 1))
               else d).
    assert (T' : same_tables d0 d1).
    { subst d1. destruct (first && it_safe it); cbn; repeat split; assumption. }
    assert (Hreh1 : dictIsRehashing d1 = dictIsRehashing d0).
    { unfold dictIsRehashing. destruct T' as (_ & _ & ->). reflexivity. }
    assert (Hbook' : forall tbl idx ent' nx,
              negb ((idx =? -1) && (tbl =? 0)) = true ->
              book d0 d1 (mk_dictIterator tbl idx (it_safe it) ent' nx fp)).
    { intros tbl idx ent' nx Hst. unfold book, it_started. cbn [it_index it_table it_safe
        it_fingerprint]. rewrite Hst.
      unfold book, it_started in Hbook. subst d1 fp. fold first in Hbook.
      destruct first eqn:Ef; cbn [negb andb] in *.
      - subst d. destruct (it_safe it); cbn [negb]; [reflexivity|split; reflexivity].
      - destruct (it_safe it); cbn [negb andb]; exact Hbook. }
    destruct Hpos as [(Ht & Hi)|(Ht & Hi & Hr)].
    + (* in the primary table *)
      rewrite Ht. change (0 =? 0) with true. cbv iota.
      rewrite andb_true_r. rewrite T0.
      rewrite !sint64_small by lia.
      unfold rest_after. change (0 =? 0) with true. cbv iota.
      destruct (Z.geb_spec (it_index it + 1) (size (ht0 d0))) as [Hge|Hlt].
      * (* the primary table is done *)
        assert (Hdrop : drop (Z.to_nat (it_index it + 1)) (tab (ht0 d0)) = []).
        { apply drop_ge. pose proof (ht_wf_tab _ W0). lia. }
        rewrite Hdrop. cbn [concat app]. rewrite Hreh1.
        destruct (dictIsRehashing d0) eqn:Hr.
        -- pose proof (rehashing_size1 Hr) as Hs1.
           destruct T' as (T0' & T1' & Tr'). rewrite T1'.
           destruct (bucket_at_tab (ht1 d0) 0 W1 ltac:(lia)) as (b & Hb & Hb').
           rewrite Hb. cbn [mbind option_bind].
           eexists _, _, false. split; [reflexivity|].
           split; [repeat split; assumption|].
           split; [apply Hbook'; reflexivity|].
           split; [reflexivity|]. split; [reflexivity|].
           cbn [it_table it_index it_entry]. rewrite ?Ht. change (0 + 1) with 1.
           split; [right; repeat split; lia|].
           split.
           ++ change (1 =? 0) with false. cbv iota. change (Z.to_nat (0 + 1)) with 1%nat.
              rewrite ht_entries_tab. symmetry. now apply (concat_drop_lookup _ 0%nat).
           ++ unfold passes_left. cbn [it_table it_index]. rewrite ?Ht.
              change (1 =? 0) with false. change (0 =? 0) with true. cbv iota. lia.
        -- eexists _, _, true. split; [reflexivity|].
           split; [exact T'|].
           split; [apply Hbook'; rewrite ?Ht; destruct (Z.eqb_spec (it_index it + 1) (-1)); [lia|reflexivity]|].
           split; [unfold it_started; cbn [it_index it_table];
                   destruct (Z.eqb_spec (it_index it + 1) (-1)); [lia|reflexivity]|].
           split; [reflexivity|].
           now apply not_rehashing_ht1.
      * (* the next bucket of the primary table *)
        destruct (bucket_at_tab (ht0 d0) (it_index it + 1) W0 ltac:(lia)) as (b & Hb & Hb').
        rewrite Hb. cbn [mbind option_bind].
        eexists _, _, false. split; [reflexivity|].
        split; [exact T'|].
        split; [apply Hbook'; rewrite ?Ht; destruct (Z.eqb_spec (it_index it + 1) (-1)); [lia|reflexivity]|].
        split; [unfold it_started; cbn [it_index it_table];
                destruct (Z.eqb_spec (it_index it + 1) (-1)); [lia|reflexivity]|].
        split; [reflexivity|].
        cbn [it_table it_index it_entry]. rewrite ?Ht.
        split; [left; split; [reflexivity|lia]|].
        split.
        -- change (0 =? 0) with true. cbv iota.
           rewrite (concat_drop_lookup _ _ _ Hb'), <- app_assoc.
           replace (Z.to_nat (it_index it + 1 + 1)) with (S (Z.to_nat (it_index it + 1)))
             by lia.
           reflexivity.
        -- unfold passes_left. cbn [it_table it_index]. rewrite ?Ht.
           change (0 =? 0) with true. cbv iota. lia.
    + (* in the secondary table *)
      rewrite Ht. change (1 =? 0) with false. cbv iota.
      rewrite andb_false_r. rewrite T1.
      rewrite !sint64_small by lia.
      unfold rest_after. change (1 =? 0) with false. cbv iota.
      assert (Hst : negb ((it_index it + 1 =? -1) && (1 =? 0)) = true)
        by (now rewrite andb_false_r).
      destruct (Z.geb_spec (it_index it + 1) (size (ht1 d0))) as [Hge|Hlt].
      * eexists _, _, true. split; [reflexivity|].
        split; [exact T'|].
        split; [apply Hbook'; exact Hst|].
        split; [exact Hst|]. split; [reflexivity|].
        rewrite drop_ge; [reflexivity|]. pose proof (ht_wf_tab _ W1). lia.
      * destruct (bucket_at_tab (ht1 d0) (it_index it + 1) W1 ltac:(lia)) as (b & Hb & Hb').
        rewrite Hb. cbn [mbind option_bind].
        eexists _, _, false. split; [reflexivity|].
        split; [exact T'|].
        split; [apply Hbook'; exact Hst|].
        split; [exact Hst|]. split; [reflexivity|].
        cbn [it_table it_index it_entry]. rewrite ?Ht.
        split; [right; repeat split; [lia|lia|exact Hr]|].
        split.
        -- change (1 =? 0) with false. cbv iota.
           rewrite (concat_drop_lookup _ _ _ Hb').
           replace (Z.to_nat (it_index it + 1 + 1)) with (S (Z.to_nat (it_index it + 1)))
             by lia.
           reflexivity.
        -- unfold passes_left. cbn [it_table it_index]. rewrite ?Ht.
           change (1 =? 0) with false. cbv iota. lia.
  - (* the next entry of the chain *)
    pose proof (Hent ltac:(discriminate)) as Hst.
    eexists _, _, false. split; [reflexivity|].
    split; [repeat split; assumption|].
    split.
    { unfold book, it_started in *. cbn [it_index it_table it_safe it_fingerprint].
      exact Hbook. }
    split; [exact Hst|]. split; [reflexivity|].
    cbn [it_table it_index it_entry].
    split.
    { unfold it_started in Hst. destruct Hpos as [(Ht & Hi)|(Ht & Hi & Hr)].
      - left. split; [exact Ht|]. rewrite Ht in Hst. change (0 =? 0) with true in Hst.
        rewrite andb_true_r in Hst. apply negb_true_iff, Z.eqb_neq in Hst. lia.
      - right. repeat split; assumption || lia. }
    split; [reflexivity|].
    unfold passes_left. cbn [it_table it_index]. lia.
Qed.

(** One call: it returns the first of the entries still to visit, NULL when
    there is none. *)
Lemma dictNext_loop_spec : forall fuel d it,
  same_tables d0 d -> pos_ok d0 it -> book d0 d it ->
  (passes_left d0 it + (match it_entry it with [] => 0 | _ => 1 end) <= fuel)%nat ->
  exists d' it',
    dictNext_loop fuel d it = Some (d', it', head (iter_rem d0 it)) /\
    same_tables d0 d' /\ book d0 d' it' /\ it_started it' = true /\
    it_safe it' = it_safe it /\
    (forall e l, iter_rem d0 it = e :: l -> pos_ok d0 it' /\ iter_rem d0 it' = l).
Proof.
  induction fuel as [|fuel IH]; intros d it T Hpos Hbook Hfuel.
  { exfalso. pose proof size0_bounds. pose proof size1_bounds.
    destruct Hpos as [[(Ht & Hi)|(Ht & Hi & Hr)] _]; unfold passes_left in Hfuel;
      rewrite Ht in Hfuel; cbn in Hfuel; lia. }
  destruct (dictNext_advance_spec d it T Hpos Hbook)
    as (d1 & it1 & stop & Hadv & T1 & Hbook1 & Hst1 & Hsafe1 & Hres).
  cbn [dictNext_loop]. rewrite Hadv. cbn [mbind option_bind].
  destruct stop.
  - rewrite Hres. exists d1, it1. split; [reflexivity|]. split; [exact T1|].
    split; [exact Hbook1|]. split; [exact Hst1|]. split; [exact Hsafe1|].
    intros e l Hc. discriminate Hc.
  - destruct Hres as (Hpos1 & Hrem & Hpass).
    destruct (it_entry it1) as [|e next] eqn:E1.
    + (* an empty bucket *)
      assert (Hpos1' : pos_ok d0 it1).
      { split; [|rewrite E1; intros Hc; now destruct Hc].
        destruct Hpos1 as [(Ht & Hi)|(Ht & Hi & Hr)]; [left|right]; repeat split;
          assumption || lia. }
      destruct (IH d1 it1 T1 Hpos1' Hbook1) as (d' & it' & Hrun & T' & Hbook' & Hst' & Hsafe' & Hnext).
      { rewrite E1. lia. }
      assert (Heq : iter_rem d0 it1 = iter_rem d0 it).
      { rewrite <- Hrem. unfold iter_rem. now rewrite E1. }
      rewrite Heq in Hrun, Hnext.
      exists d', it'. split; [exact Hrun|].
      split; [exact T'|]. split; [exact Hbook'|]. split; [exact Hst'|].
      split; [congruence|exact Hnext].
    + (* an entry *)
      rewrite <- Hrem. cbn [app head].
      eexists _, _. split; [reflexivity|].
      split; [exact T1|].
      split.
      { unfold book, it_started in *. cbn [it_index it_table it_safe it_fingerprint].
        exact Hbook1. }
      split; [exact Hst1|]. split; [exact Hsafe1|].
      intros e' l Heq. cbn [app] in Heq. injection Heq as <- <-. split.
      * split; [|intros _; exact Hst1]. cbn [it_table it_index].
        destruct Hpos1 as [(Ht & Hi)|(Ht & Hi & Hr)]; [left|right]; repeat split;
          assumption || lia.
      * unfold iter_rem. cbn [it_entry it_nextEntry it_table it_index]. reflexivity.
Qed.

Lemma dictNext_spec d it :
  same_tables d0 d -> pos_ok d0 it -> book d0 d it ->
  exists d' it',
    dictNext d it = Some (d', it', head (iter_rem d0 it)) /\
    same_tables d0 d' /\ book d0 d' it' /\ it_started it' = true /\
    it_safe it' = it_safe it /\
    (forall e l, iter_rem d0 it = e :: l -> pos_ok d0 it' /\ iter_rem d0 it' = l).
Proof.
  intros T Hpos Hbook. unfold dictNext. apply dictNext_loop_spec; try assumption.
  destruct T as (-> & -> & _).
  pose proof size0_bounds. pose proof size1_bounds.
  destruct Hpos as [[(Ht & Hi)|(Ht & Hi & Hr)] _]; unfold passes_left;
    rewrite Ht; cbn [Z.eqb]; destruct (it_entry it); lia.
Qed.

(** As many calls as there are entries to visit, and one more. *)
Lemma dictNext_n_spec : forall l d it,
  same_tables d0 d -> pos_ok d0 it -> book d0 d it -> iter_rem d0 it = l ->
  exists d' it',
    dictNext_n (S (length l)) d it = Some (d', it', map Some l ++ [None]) /\
    same_tables d0 d' /\ book d0 d' it' /\ it_started it' = true /\
    it_safe it' = it_safe it.
Proof.
  induction l as [|e l IH]; intros d it T Hpos Hbook Hrem.
  - destruct (dictNext_spec d it T Hpos Hbook)
      as (d' & it' & Hrun & T' & Hbook' & Hst' & Hsafe' & _).
    rewrite Hrem in Hrun. cbn [length dictNext_n]. rewrite Hrun.
    cbn [mbind option_bind head map app].
    exists d', it'. split; [reflexivity|]. split; [exact T'|]. split; [exact Hbook'|].
    split; [exact Hst'|exact Hsafe'].
  - destruct (dictNext_spec d it T Hpos Hbook)
      as (d1 & it1 & Hrun & T1 & Hbook1 & Hst1 & Hsafe1 & Hnext).
    rewrite Hrem in Hrun. destruct (Hnext e l Hrem) as [Hpos1 Hrem1].
    destruct (IH d1 it1 T1 Hpos1 Hbook1 Hrem1) as (d' & it' & Hrun' & T' & Hbook' & Hst' & Hsafe').
    change (dictNext_n (S (length (e :: l))) d it)
      with ('(d, iter, r) ← dictNext d it;
            '(d, iter, rs) ← dictNext_n (S (length l)) d iter;
            Some (d, iter, r :: rs)).
    rewrite Hrun. cbn [mbind option_bind head]. rewrite Hrun'. cbn [mbind option_bind].
    exists d', it'. split; [reflexivity|]. split; [exact T'|]. split; [exact Hbook'|].
    split; [exact Hst'|congruence].
Qed.

End Iterate.

Lemma sint32_inc_dec x : 0 <= x < 2^31 - 1 -> sint 32 (sint 32 (x + 1) - 1) = x.
Proof.
  intros Hx.
  assert (H : forall y, 0 <= y < 2^31 -> sint 32 y = y).
  { intros y Hy. unfold sint. cbv zeta. rewrite Z.mod_small by lia.
    change (32 - 1) with 31. destruct (Z.ltb_spec y (2 ^ 31)); lia. }
  rewrite (H (x + 1)) by lia. replace (x + 1 - 1) with x by lia. apply H. lia.
Qed.

(** X24 — iteration.  On a well-formed dictionary that is not modified
    meanwhile, the calls of [dictNext] on a fresh iterator, safe or not,
    return every stored entry exactly once: those of the primary table
    bucket by bucket, each chain from its head, then, during a rehash,
    those of the secondary table; the call after the last entry returns
    NULL.  A safe iterator counts as one more iterator while it runs, and
    [dictReleaseIterator] leaves the dictionary as it was before the first
    call; for an unsafe iterator the fingerprint it checks is unchanged. *)
Theorem dictNext_visits_every_entry (d : dict) (safe : bool) :
  dict_wf d -> 0 <= iterators d < 2^31 - 1 ->
  exists d' it',
    dictNext_n (S (length (entries d))) d
               (if safe then dictGetSafeIterator else dictGetIterator)
    = Some (d', it', map Some (entries d) ++ [None]) /\
    entries d' = entries d /\
    iterators d' = (if safe then iterators d + 1 else iterators d) /\
    dictReleaseIterator d' it' = Some d.
Proof.
  intros Hwf Hit.
  set (it0 := if safe then dictGetSafeIterator else dictGetIterator).
  assert (Hfields : it_table it0 = 0 /\ it_index it0 = -1 /\ it_entry it0 = []
                    /\ it_safe it0 = safe).
  { subst it0. destruct safe; repeat split. }
  destruct Hfields as (Ht & Hi & He & Hs).
  assert (Hpos : pos_ok d it0).
  { split; [|rewrite He; intros Hc; now destruct Hc].
    left. rewrite Ht, Hi. pose proof (size0_bounds d Hwf). lia. }
  assert (Hbook : book d d it0).
  { unfold book, it_started. rewrite Ht, Hi. reflexivity. }
  assert (Hrem : iter_rem d it0 = entries d).
  { unfold iter_rem, rest_after. rewrite He, Ht, Hi. cbn [app Z.eqb].
    change (Z.to_nat (-1 + 1)) with 0%nat. rewrite drop_0.
    unfold entries. now rewrite <- ht_entries_tab. }
  destruct (dictNext_n_spec d Hwf (entries d) d it0 ltac:(repeat split) Hpos Hbook Hrem)
    as (d' & it' & Hrun & (T0 & T1 & Tr) & Hbook' & Hst' & Hsafe').
  exists d', it'. split; [exact Hrun|].
  split; [unfold entries; now rewrite T0, T1|].
  unfold book in Hbook'. rewrite Hst', Hsafe', Hs in Hbook'.
  unfold dictReleaseIterator. unfold it_started in Hst'. rewrite Hst', Hsafe', Hs.
  destruct safe.
  - subst d'. cbn [iterators ht0 ht1 rehashidx].
    assert (H32 : sint 32 (iterators d + 1) = iterators d + 1).
    { unfold sint. cbv zeta. rewrite Z.mod_small by lia.
      change (32 - 1) with 31. destruct (Z.ltb_spec (iterators d + 1) (2 ^ 31)); lia. }
    split; [exact H32|].
    rewrite sint32_inc_dec by lia. destruct d; reflexivity.
  - destruct Hbook' as [-> Hfp]. split; [reflexivity|].
    rewrite Hfp, Z.eqb_refl. reflexivity.
Qed.

End DictType.

Arguments mk_dictEntry {K V}.
Arguments key {K V}.
Arguments v {K V}.
Arguments mk_dictht {K V}.
Arguments mk_dict {K V}.
Arguments ht0 {K V}.
Arguments ht1 {K V}.
Arguments rehashidx {K V}.
Arguments iterators {K V}.
Arguments table {K V}.
Arguments size {K V}.
Arguments sizemask {K V}.
Arguments used {K V}.
Arguments dictCreate {K V}.
Arguments _dictReset {K V}.
Arguments dictIsRehashing {K V}.
Arguments entries {K V}.
Arguments ht_entries {K V}.
Arguments dictSize {K V}.

Lemma dict_wf_create {K V} (hashFunction : K -> Z) (keyCompare : K -> K -> bool) :
  dict_wf K V hashFunction keyCompare (@dictCreate K V).
Proof.
  unfold dict_wf, dictCreate, ht_wf, entries. cbn.
  repeat split; auto; lia.
Qed.

(** Integer keys hashed by their value: adding 7 to the empty dictionary
    succeeds, adding it again is refused. *)
Lemma dictAdd_duplicate_iff_witness :
  exists d1 d2,
    dictAdd Z Z (fun k => k) Z.eqb true dictCreate 7 70 = Some (d1, DICT_OK)
    /\ entries d1 = [mk_dictEntry 7 (Some 70)]
    /\ dictAdd Z Z (fun k => k) Z.eqb true d1 7 71 = Some (d2, DICT_ERR)
    /\ entries d2 = [mk_dictEntry 7 (Some 70)].
Proof.
  assert (Hsym : forall a b, (a =? b) = (b =? a)) by (intros; apply Z.eqb_sym).
  assert (Hhash : forall a b : Z, (a =? b) = true -> a = b) by (intros a b; apply Z.eqb_eq).
  destruct (dictAdd_duplicate_iff Z Z (fun k => k) Z.eqb true Hsym Hhash dictCreate 7 70)
    as (d1 & r1 & H1 & Hwf1 & _); [apply dict_wf_create|reflexivity|].
  assert (E1 : (d1, r1) = (mk_dict (mk_dictht (Some [[]; []; []; [mk_dictEntry 7 (Some 70)]]) 4 3 1)
                                   _dictReset (-1) 0, DICT_OK)).
  { vm_compute in H1. injection H1 as <- <-. reflexivity. }
  injection E1 as -> ->.
  destruct (dictAdd_duplicate_iff Z Z (fun k => k) Z.eqb true Hsym Hhash _ 7 71 Hwf1)
    as (d2 & r2 & H2 & _ & _ & Hiff & Hsame & _); [reflexivity|].
  assert (Hr2 : r2 = DICT_ERR) by (apply Hiff; reflexivity).
  subst r2.
  assert (E2 : d2 = mk_dict (mk_dictht (Some [[]; []; []; [mk_dictEntry 7 (Some 70)]]) 4 3 1)
                            _dictReset (-1) 0).
  { vm_compute in H2. injection H2 as <-. reflexivity. }
  subst d2.
  eexists _, _. split; [exact H1|]. split; [reflexivity|].
  split; [exact H2|reflexivity].
Defined.

(** *** Instances on integer keys hashed by their value *)

Lemma Zeqb_keys_sym : forall a b : Z, (a =? b) = (b =? a).
Proof. intros; apply Z.eqb_sym. Qed.

Lemma Zeqb_keys_hash : forall a b : Z, (a =? b) = true -> a = b.
Proof. intros a b; apply Z.eqb_eq. Qed.

Lemma Zeqb_keys_euclid :
  forall a b c : Z, (a =? b) = true -> (a =? c) = true -> (b =? c) = true.
Proof. intros a b c H1 H2. apply Z.eqb_eq in H1, H2. apply Z.eqb_eq. congruence. Qed.

(** The dictionary obtained by adding the pairs of a list in turn. *)
Fixpoint add_all (l : list (Z * Z)) (d : dict Z Z) : option (dict Z Z) :=
  match l with
  | [] => Some d
  | (k, x) :: l' =>
      match dictAdd Z Z (fun k => k) Z.eqb true d k x with
      | Some (d', _) => add_all l' d'
      | None => None
      end
  end.

Lemma add_all_wf l : forall d d',
  dict_wf Z Z (fun k => k) Z.eqb d ->
  dictSize d + Z.of_nat (length l) < 2^30 ->
  add_all l d = Some d' ->
  dict_wf Z Z (fun k => k) Z.eqb d'.
Proof.
  induction l as [|[k x] l IH]; intros d d' Hwf Hsz; cbn [add_all].
  - now intros [= <-].
  - cbn [length] in Hsz.
    destruct (dictAdd_spec Z Z (fun k => k) Z.eqb true Zeqb_keys_sym Zeqb_keys_hash d k x Hwf)
      as (d1 & r & Hadd & Hwf1 & Hst & _ & Hok); [lia|].
    rewrite Hadd. apply IH; [exact Hwf1|].
    rewrite (dictSize_entries Z Z _ _ d Hwf) in Hsz.
    rewrite (dictSize_entries Z Z _ _ d1 Hwf1).
    destruct Hst as [->| ->].
    + rewrite (Permutation_length (Hok eq_refl)). cbn [length]. lia.
    + rewrite (Permutation_length
                 (dictAdd_err_entries Z Z (fun k => k) Z.eqb true
                    Zeqb_keys_sym Zeqb_keys_hash d k x d1 Hwf ltac:(
                      rewrite (dictSize_entries Z Z _ _ d Hwf); lia) Hadd)).
      lia.
Qed.

(** Four pairs in a table of four buckets, and the same with a fifth pair:
    the fifth insert has started a rehash to eight buckets. *)
Definition dict_4 : dict Z Z :=
  Eval vm_compute in
    default dictCreate (add_all [(1, 10); (2, 20); (3, 30); (5, 50)] dictCreate).

Definition dict_5 : dict Z Z :=
  Eval vm_compute in default dictCreate (add_all [(9, 90)] dict_4).

Lemma dict_4_wf : dict_wf Z Z (fun k => k) Z.eqb dict_4.
Proof.
  apply (add_all_wf [(1, 10); (2, 20); (3, 30); (5, 50)] dictCreate);
    [apply dict_wf_create|vm_compute; reflexivity|reflexivity].
Qed.

Lemma dict_5_wf : dict_wf Z Z (fun k => k) Z.eqb dict_5.
Proof.
  apply (add_all_wf [(9, 90)] dict_4); [exact dict_4_wf|vm_compute; reflexivity|reflexivity].
Qed.

Lemma dict_5_rehashing : dictIsRehashing dict_5 = true.
Proof. reflexivity. Qed.

(** In the rehashing dictionary the key 9 sits in the secondary table and
    the key 3 in the primary one; both are found, 4 is not. *)
Lemma dictFind_null_iff_absent_witness :
  dict_wf Z Z (fun k => k) Z.eqb dict_5
  /\ (exists d' r,
        dictFind Z Z (fun k => k) Z.eqb dict_5 9 = Some (d', r)
        /\ dict_wf Z Z (fun k => k) Z.eqb d' /\ entries d' ≡ₚ entries dict_5
        /\ (r = None <-> present Z Z Z.eqb dict_5 9 = false)
        /\ (forall e, r = Some e -> e ∈ entries dict_5 /\ (9 =? key e) = true))
  /\ present Z Z Z.eqb dict_5 9 = true
  /\ present Z Z Z.eqb dict_5 4 = false.
Proof.
  split; [exact dict_5_wf|]. split; [|split; reflexivity].
  exact (dictFind_null_iff_absent Z Z (fun k => k) Z.eqb Zeqb_keys_sym Zeqb_keys_hash
           dict_5 9 dict_5_wf).
Defined.

Lemma dictFetchValue_after_dictAdd_witness :
  exists d1 d2,
    dictAdd Z Z (fun k => k) Z.eqb true dict_5 4 40 = Some (d1, DICT_OK)
    /\ dictFetchValue Z Z (fun k => k) Z.eqb d1 4 = Some (d2, Some 40)
    /\ dict_wf Z Z (fun k => k) Z.eqb d2
    /\ entries d2 ≡ₚ mk_dictEntry 4 (Some 40) :: entries dict_5.
Proof.
  apply (dictFetchValue_after_dictAdd Z Z (fun k => k) Z.eqb true
           Zeqb_keys_sym Zeqb_keys_hash dict_5 4 40 dict_5_wf);
    [vm_compute; reflexivity|reflexivity|reflexivity].
Defined.

Lemma dictDelete_unlinks_one_witness :
  dict_wf Z Z (fun k => k) Z.eqb dict_5
  /\ exists d' r,
       dictDelete Z Z (fun k => k) Z.eqb dict_5 3 = Some (d', r)
       /\ dict_wf Z Z (fun k => k) Z.eqb d'
       /\ (r = DICT_OK \/ r = DICT_ERR)
       /\ (r = DICT_ERR <-> present Z Z Z.eqb dict_5 3 = false)
       /\ (r = DICT_ERR -> entries d' ≡ₚ entries dict_5)
       /\ (r = DICT_OK ->
           exists e, (3 =? key e) = true
                     /\ entries dict_5 ≡ₚ e :: entries d'
                     /\ dictSize d' = dictSize dict_5 - 1).
Proof.
  split; [exact dict_5_wf|].
  exact (dictDelete_unlinks_one Z Z (fun k => k) Z.eqb Zeqb_keys_sym Zeqb_keys_hash
           dict_5 3 dict_5_wf).
Defined.

Lemma dictFind_after_dictDelete_witness :
  exists d1 r d2,
    dictDelete Z Z (fun k => k) Z.eqb dict_5 3 = Some (d1, r)
    /\ present Z Z Z.eqb d1 3 = false
    /\ dictFind Z Z (fun k => k) Z.eqb d1 3 = Some (d2, None).
Proof.
  exact (dictFind_after_dictDelete Z Z (fun k => k) Z.eqb Zeqb_keys_sym Zeqb_keys_hash
           dict_5 3 Zeqb_keys_euclid dict_5_wf).
Defined.

Lemma dictReplace_adds_or_overwrites_witness :
  dict_wf Z Z (fun k => k) Z.eqb dict_5
  /\ present Z Z Z.eqb dict_5 3 = true
  /\ exists d' r,
       dictReplace Z Z (fun k => k) Z.eqb true dict_5 3 33 = Some (d', r)
       /\ dict_wf Z Z (fun k => k) Z.eqb d'
       /\ (present Z Z Z.eqb dict_5 3 = false ->
           r = 1 /\ entries d' ≡ₚ mk_dictEntry 3 (Some 33) :: entries dict_5)
       /\ (present Z Z Z.eqb dict_5 3 = true ->
           r = 0 /\ exists e rest,
             (3 =? key e) = true
             /\ entries dict_5 ≡ₚ e :: rest
             /\ entries d' ≡ₚ mk_dictEntry (key e) (Some 33) :: rest).
Proof.
  split; [exact dict_5_wf|]. split; [reflexivity|].
  apply (dictReplace_adds_or_overwrites Z Z (fun k => k) Z.eqb true
           Zeqb_keys_sym Zeqb_keys_hash dict_5 3 33 dict_5_wf).
  vm_compute; reflexivity.
Defined.

Lemma dictRehash_keeps_entries_and_finishes_witness :
  dict_wf Z Z (fun k => k) Z.eqb dict_5
  /\ used (ht0 dict_5) < Z.of_nat 5
  /\ exists d' r,
       dictRehash Z Z (fun k => k) 5 dict_5 = Some (d', r)
       /\ dict_wf Z Z (fun k => k) Z.eqb d' /\ entries d' ≡ₚ entries dict_5
       /\ r = (if dictIsRehashing d' then 1 else 0)
       /\ (used (ht0 dict_5) < Z.of_nat 5 -> r = 0).
Proof.
  split; [exact dict_5_wf|]. split; [vm_compute; reflexivity|].
  exact (dictRehash_keeps_entries_and_finishes Z Z (fun k => k) Z.eqb
           Zeqb_keys_sym 5 dict_5 dict_5_wf).
Defined.

Lemma dictExpand_least_power_of_two_witness :
  dict_wf Z Z (fun k => k) Z.eqb dict_4
  /\ 0 <= 9 <= 2^31
  /\ exists d' r,
       dictExpand Z Z dict_4 9 = Some (d', r)
       /\ (r = DICT_OK \/ r = DICT_ERR)
       /\ (r = DICT_ERR <-> dictIsRehashing dict_4 = true \/ 9 < used (ht0 dict_4))
       /\ (r = DICT_ERR -> d' = dict_4)
       /\ (r = DICT_OK ->
           dict_wf Z Z (fun k => k) Z.eqb d' /\ entries d' = entries dict_4
           /\ exists k : nat,
                (2 <= k)%nat /\ 9 <= 2 ^ Z.of_nat k
                /\ (k = 2%nat \/ 2 ^ Z.of_nat (k - 1) < 9)
                /\ match table (ht0 dict_4) with
                   | None => size (ht0 d') = 2 ^ Z.of_nat k /\ used (ht0 d') = 0
                             /\ dictIsRehashing d' = false
                   | Some _ => ht0 d' = ht0 dict_4
                               /\ size (ht1 d') = 2 ^ Z.of_nat k /\ used (ht1 d') = 0
                               /\ rehashidx d' = 0
                   end).
Proof.
  split; [exact dict_4_wf|]. split; [lia|].
  apply (dictExpand_least_power_of_two Z Z (fun k => k) Z.eqb dict_4 9 dict_4_wf). lia.
Defined.

Lemma dictResize_fits_entries_witness :
  dict_wf Z Z (fun k => k) Z.eqb dict_4
  /\ dictSize dict_4 < 2^30
  /\ exists d' r,
       dictResize Z Z true dict_4 = Some (d', r)
       /\ (r = DICT_OK \/ r = DICT_ERR)
       /\ (r = DICT_ERR <-> true = false \/ dictIsRehashing dict_4 = true)
       /\ (r = DICT_ERR -> d' = dict_4)
       /\ (r = DICT_OK ->
           dict_wf Z Z (fun k => k) Z.eqb d' /\ entries d' = entries dict_4
           /\ let n := match table (ht0 dict_4) with None => ht0 d' | Some _ => ht1 d' end in
              used n = 0 /\ 4 <= size n /\ dictSize dict_4 <= size n).
Proof.
  split; [exact dict_4_wf|]. split; [vm_compute; reflexivity|].
  apply (dictResize_fits_entries Z Z (fun k => k) Z.eqb true dict_4 dict_4_wf).
  vm_compute; reflexivity.
Defined.

(** During the rehash of [dict_5] a safe iterator visits the four entries of
    the primary table, then the one of the secondary table, then stops;
    releasing it restores the dictionary. *)
Lemma dictNext_visits_every_entry_witness :
  exists d' it',
    dictNext_n Z Z 4096 8192 6 dict_5 (dictGetSafeIterator Z Z)
    = Some (d', it', map Some (entries dict_5) ++ [None])
    /\ map key (entries dict_5) = [5; 1; 2; 3; 9]
    /\ iterators d' = 1
    /\ dictReleaseIterator Z Z 4096 8192 d' it' = Some dict_5.
Proof.
  destruct (dictNext_visits_every_entry Z Z (fun k => k) Z.eqb 4096 8192 dict_5 true
              dict_5_wf) as (d' & it' & H1 & _ & H3 & H4);
    [vm_compute; split; [discriminate|reflexivity]|].
  exists d', it'. split; [exact H1|]. split; [reflexivity|].
  split; [exact H3|exact H4].
Defined.

End Dict.

(** ** Doubly linked list (adlist.c, in [src/struct/dict.c]) *)

Module Adlist.

Section AdList.

(** The values the nodes hold ([void *]); without a match method they are
    compared as pointers, by [==]. *)
Context {V : Type} `{EqDecision V}.

(** adlist.h is not among the sources: the structures have the fields that
    adlist.c uses, the directions of an iterator are an enumeration, and
    [listLength(l)] is [l->len], an [unsigned long].  A node pointer is an
    address of the heap, NULL is [None]; a freed node is [None] in the
    heap, and an allocation is taken to succeed. *)
Record listNode := mk_listNode {
  prev : option nat;
  next : option nat;
  value : V
}.

Inductive direction := AL_START_HEAD | AL_START_TAIL.

Record listIter := mk_listIter {
  iter_next : option nat;
  iter_direction : direction
}.

(** [struct list]; [free] only releases the memory of a value, which the
    model does not hold. *)
Record adlist := mk_list {
  head : option nat;
  tail : option nat;
  dup : option (V -> option V);
  free : option (V -> unit);
  match_ : option (V -> V -> bool);
  len : Z
}.

Abbreviation heap := (list (option listNode)) (only parsing).

Definition node_at (h : heap) (p : nat) : option listNode :=
  match h !! p with
  | Some (Some n) => Some n
  | _ => None
  end.

(** [p->prev = x] and [p->next = x]. *)
Definition set_prev (h : heap) (p : nat) (x : option nat) : option heap :=
  n ← node_at h p; Some (<[p := Some (mk_listNode x (next n) (value n))]> h).

Definition set_next (h : heap) (p : nat) (x : option nat) : option heap :=
  n ← node_at h p; Some (<[p := Some (mk_listNode (prev n) x (value n))]> h).

Definition with_head (l : adlist) (x : option nat) : adlist :=
  mk_list x (tail l) (dup l) (free l) (match_ l) (len l).
Definition with_tail (l : adlist) (x : option nat) : adlist :=
  mk_list (head l) x (dup l) (free l) (match_ l) (len l).
Definition with_len (l : adlist) (n : Z) : adlist :=
  mk_list (head l) (tail l) (dup l) (free l) (match_ l) n.

(** [listCreate()]. *)
Definition listCreate : adlist := mk_list None None None None None 0.

(** [listAddNodeHead(list, value)]: the node is allocated at the end of the
    heap. *)
Definition listAddNodeHead (h : heap) (l : adlist) (v : V) : option (heap * adlist) :=
  let node := length h in
  if len l =? 0 then
    let h := h ++ [Some (mk_listNode None None v)] in
    Some (h, with_len (with_tail (with_head l (Some node)) (Some node)) (u64 (len l + 1)))
  else
    let h := h ++ [Some (mk_listNode None (head l) v)] in
    hd ← head l;
    h ← set_prev h hd (Some node);
    Some (h, with_len (with_head l (Some node)) (u64 (len l + 1))).

(** [listAddNodeTail(list, value)]. *)
Definition listAddNodeTail (h : heap) (l : adlist) (v : V) : option (heap * adlist) :=
  let node := length h in
  if len l =? 0 then
    let h := h ++ [Some (mk_listNode None None v)] in
    Some (h, with_len (with_tail (with_head l (Some node)) (Some node)) (u64 (len l + 1)))
  else
    let h := h ++ [Some (mk_listNode (tail l) None v)] in
    tl ← tail l;
    h ← set_next h tl (Some node);
    Some (h, with_len (with_tail l (Some node)) (u64 (len l + 1))).

(** [listInsertNode(list, old_node, value, after)]. *)
Definition listInsertNode (h : heap) (l : adlist) (old_node : nat) (v : V) (after : bool)
  : option (heap * adlist) :=
  let node := length h in
  on ← node_at h old_node;
  let '(nprev, nnext, l) :=
    if after then
      (Some old_node, next on,
       if decide (tail l = Some old_node) then with_tail l (Some node) else l)
    else
      (prev on, Some old_node,
       if decide (head l = Some old_node) then with_head l (Some node) else l) in
  let h := h ++ [Some (mk_listNode nprev nnext v)] in
  h ← match nprev with Some p => set_next h p (Some node) | None => Some h end;
  h ← match nnext with Some q => set_prev h q (Some node) | None => Some h end;
  Some (h, with_len l (u64 (len l + 1))).

(** [listDelNode(list, node)]. *)
Definition listDelNode (h : heap) (l : adlist) (node : nat) : option (heap * adlist) :=
  n ← node_at h node;
  '(h, l) ← match prev n with
            | Some p => h ← set_next h p (next n); Some (h, l)
            | None => Some (h, with_head l (next n))
            end;
  '(h, l) ← match next n with
            | Some q => h ← set_prev h q (prev n); Some (h, l)
            | None => Some (h, with_tail l (prev n))
            end;
  (* if (list->free) list->free(node->value); zfree(node); *)
  Some (<[node := None]> h, with_len l (u64 (len l - 1))).

(** [listGetIterator(list, direction)] and [listNext(iter)]. *)
Definition listGetIterator (l : adlist) (d : direction) : listIter :=
  mk_listIter (match d with AL_START_HEAD => head l | AL_START_TAIL => tail l end) d.

Definition listNext (h : heap) (iter : listIter) : option (listIter * option nat) :=
  match iter_next iter with
  | Some current =>
      cn ← node_at h current;
      Some (mk_listIter (match iter_direction iter with
                         | AL_START_HEAD => next cn
                         | AL_START_TAIL => prev cn
                         end) (iter_direction iter),
            Some current)
  | None => Some (iter, None)
  end.

(** [while ((node = listNext(iter)) != NULL) { ... }] of [listSearchKey]. *)
Fixpoint search_loop (fuel : nat) (h : heap) (l : adlist) (iter : listIter) (key : V)
  : option (option nat) :=
  match fuel with
  | O => None
  | S fuel' =>
      '(iter, node) ← listNext h iter;
      match node with
      | None => Some None
      | Some p =>
          pn ← node_at h p;
          let hit := match match_ l with
                     | Some m => m (value pn) key
                     | None => bool_decide (key = value pn)
                     end in
          if hit then Some (Some p) else search_loop fuel' h l iter key
      end
  end.

(** [listSearchKey(list, key)]; a list of distinct nodes is gone through in
    as many passes as the heap has addresses, and one more. *)
Definition listSearchKey (h : heap) (l : adlist) (key : V) : option (option nat) :=
  search_loop (S (length h)) h l (listGetIterator l AL_START_HEAD) key.

(** [while (index-- && n) n = n->STEP;] *)
Fixpoint index_walk (count : nat) (h : heap) (step : listNode -> option nat)
  (n : option nat) : option (option nat) :=
  match count, n with
  | S count', Some p => pn ← node_at h p; index_walk count' h step (step pn)
  | _, _ => Some n
  end.

(** [listIndex(list, index)]; [index] is a [long], and [-index] of the
    least [long] overflows. *)
Definition listIndex (h : heap) (l : adlist) (index : Z) : option (option nat) :=
  if index <? 0 then
    if index =? - 2^63 then None
    else
      let index := (- index) - 1 in
      index_walk (Z.to_nat index) h prev (tail l)
  else index_walk (Z.to_nat index) h next (head l).

(** [listRotate(list)]. *)
Definition listRotate (h : heap) (l : adlist) : option (heap * adlist) :=
  if len l <=? 1 then Some (h, l)
  else
    t ← tail l;
    tn ← node_at h t;
    (* Detach current tail *)
    let l := with_tail l (prev tn) in
    nt ← tail l;
    h ← set_next h nt None;
    (* Move it as head *)
    hd ← head l;
    h ← set_prev h hd (Some t);
    h ← set_prev h t None;
    h ← set_next h t (head l);
    Some (h, with_head l (Some t)).

(** *** The representation of a list *)

Definition pred_of (ns : list nat) (k : nat) : option nat :=
  match k with O => None | S k' => ns !! k' end.

(** The heap [h] holds the list [l]: its nodes are, from the head on, those
    at the distinct addresses [ns], and they hold the values [vs]. *)
Record dll (h : heap) (l : adlist) (ns : list nat) (vs : list V) : Prop := mk_dll {
  dll_nodup : NoDup ns;
  dll_vals : length vs = length ns;
  dll_len : len l = Z.of_nat (length ns);
  dll_head : head l = ns !! 0%nat;
  dll_tail : tail l = last ns;
  dll_nodes : forall k p v, ns !! k = Some p -> vs !! k = Some v ->
      node_at h p = Some (mk_listNode (pred_of ns k) (ns !! S k) v)
}.

Definition ins_at {A} (t : nat) (x : A) (l : list A) : list A :=
  take t l ++ x :: drop t l.

Lemma lookup_ins_at {A} (t : nat) (x : A) (l : list A) k :
  (t <= length l)%nat ->
  ins_at t x l !! k
  = if decide (k < t)%nat then l !! k
    else if decide (k = t) then Some x else l !! (k - 1)%nat.
Proof.
  intros Ht. unfold ins_at.
  destruct (decide (k < t)%nat) as [Hlt|Hge].
  - rewrite lookup_app_l by (rewrite length_take; lia). apply lookup_take_lt. lia.
  - rewrite lookup_app_r by (rewrite length_take; lia). rewrite length_take.
    replace (t `min` length l)%nat with t by lia.
    destruct (decide (k = t)) as [->|Hne].
    + now rewrite Nat.sub_diag.
    + destruct (k - t)%nat as [|j] eqn:E; [lia|]. cbn [lookup list_lookup].
      change (drop t l !! j = l !! (k - 1)%nat).
      rewrite lookup_drop. f_equal. lia.
Qed.

Lemma length_ins_at {A} (t : nat) (x : A) (l : list A) :
  (t <= length l)%nat -> length (ins_at t x l) = S (length l).
Proof.
  intros Ht. unfold ins_at. rewrite length_app, length_take. cbn [length].
  rewrite length_drop. lia.
Qed.

Lemma list_node_at_lt h p n : node_at h p = Some n -> (p < length h)%nat.
Proof.
  unfold node_at. destruct (h !! p) as [o|] eqn:E; [|discriminate].
  intros _. eapply lookup_lt_Some, E.
Qed.

Lemma node_at_alloc h n p :
  node_at (h ++ [Some n]) p = if decide (p = length h) then Some n else node_at h p.
Proof.
  unfold node_at. destruct (decide (p = length h)) as [->|Hne].
  - rewrite lookup_app_r by lia. now rewrite Nat.sub_diag.
  - destruct (decide (p < length h)%nat).
    + now rewrite lookup_app_l by lia.
    + rewrite !lookup_ge_None_2; [reflexivity|lia|rewrite length_app; cbn; lia].
Qed.

Lemma node_at_insert h q o p :
  (q < length h)%nat ->
  node_at (<[q := o]> h) p = if decide (p = q) then o else node_at h p.
Proof.
  intros Hq. unfold node_at. destruct (decide (p = q)) as [->|Hne].
  - rewrite list_lookup_insert_eq by lia. now destruct o.
  - now rewrite list_lookup_insert_ne by congruence.
Qed.

Lemma set_prev_spec h q x n :
  node_at h q = Some n ->
  exists h', set_prev h q x = Some h' /\ length h' = length h /\
    forall p, node_at h' p
              = if decide (p = q) then Some (mk_listNode x (next n) (value n))
                else node_at h p.
Proof.
  intros Hn. unfold set_prev. rewrite Hn. cbn [mbind option_bind].
  eexists. split; [reflexivity|]. split; [apply length_insert|].
  intros p. apply node_at_insert. eapply list_node_at_lt, Hn.
Qed.

Lemma set_next_spec h q x n :
  node_at h q = Some n ->
  exists h', set_next h q x = Some h' /\ length h' = length h /\
    forall p, node_at h' p
              = if decide (p = q) then Some (mk_listNode (prev n) x (value n))
                else node_at h p.
Proof.
  intros Hn. unfold set_next. rewrite Hn. cbn [mbind option_bind].
  eexists. split; [reflexivity|]. split; [apply length_insert|].
  intros p. apply node_at_insert. eapply list_node_at_lt, Hn.
Qed.

Lemma dll_node h l ns vs k p :
  dll h l ns vs -> ns !! k = Some p ->
  exists v, vs !! k = Some v /\
            node_at h p = Some (mk_listNode (pred_of ns k) (ns !! S k) v).
Proof.
  intros D Hp.
  destruct (lookup_lt_is_Some_2 vs k) as [v Hv].
  { rewrite (dll_vals _ _ _ _ D). eapply lookup_lt_Some, Hp. }
  exists v. split; [exact Hv|]. exact (dll_nodes _ _ _ _ D k p v Hp Hv).
Qed.

Lemma dll_fresh h l ns vs : dll h l ns vs -> length h ∉ ns.
Proof.
  intros D Hin. apply list_elem_of_lookup_1 in Hin as [k Hk].
  destruct (dll_node _ _ _ _ k _ D Hk) as (v & _ & Hn).
  apply list_node_at_lt in Hn. lia.
Qed.

Lemma dll_index_inj h l ns vs j k p :
  dll h l ns vs -> ns !! j = Some p -> ns !! k = Some p -> j = k.
Proof. intros D. apply NoDup_lookup, (dll_nodup _ _ _ _ D). Qed.

(** A node put in at place [t]. *)
Lemma dll_insert_rep h l ns vs t x v h' l' :
  dll h l ns vs -> (t <= length ns)%nat -> x ∉ ns ->
  node_at h' x = Some (mk_listNode (pred_of ns t) (ns !! t) v) ->
  (forall k p w, ns !! k = Some p -> vs !! k = Some w ->
     node_at h' p
     = Some (mk_listNode (if decide (k = t) then Some x else pred_of ns k)
                         (if decide (S k = t) then Some x else ns !! S k) w)) ->
  head l' = (if decide (t = 0%nat) then Some x else head l) ->
  tail l' = (if decide (t = length ns) then Some x else tail l) ->
  len l' = len l + 1 ->
  dll h' l' (ins_at t x ns) (ins_at t v vs).
Proof.
  intros D Ht Hx Hnew Hold Hhead Htail Hlen.
  pose proof (dll_vals _ _ _ _ D) as Hvs.
  constructor.
  - unfold ins_at. rewrite <- (take_drop t ns) in Hx.
    pose proof (dll_nodup _ _ _ _ D) as Hnd. rewrite <- (take_drop t ns) in Hnd.
    apply NoDup_app in Hnd as (N1 & N2 & N3).
    apply NoDup_app. split; [exact N1|]. split.
    + intros y Hy Hc. apply elem_of_cons in Hc as [->|Hc].
      * apply Hx. apply elem_of_app. now left.
      * exact (N2 y Hy Hc).
    + apply NoDup_cons. split; [|exact N3].
      intros Hc. apply Hx. apply elem_of_app. now right.
  - rewrite !length_ins_at by lia. now rewrite Hvs.
  - rewrite Hlen, (dll_len _ _ _ _ D), length_ins_at by lia. lia.
  - rewrite Hhead, lookup_ins_at by lia.
    destruct (decide (t = 0%nat)) as [->|Hne].
    + reflexivity.
    + destruct (decide (0 < t)%nat); [|lia]. apply (dll_head _ _ _ _ D).
  - rewrite Htail, !last_lookup, length_ins_at, lookup_ins_at by lia.
    cbn [pred]. destruct (decide (t = length ns)) as [->|Hne].
    + destruct (decide (length ns < length ns)%nat); [lia|].
      destruct (decide (length ns = length ns)); [reflexivity|lia].
    + destruct (decide (length ns < t)%nat); [lia|].
      destruct (decide (length ns = t)); [lia|].
      rewrite (dll_tail _ _ _ _ D), last_lookup. f_equal. lia.
  - intros k p w Hp Hw.
    rewrite lookup_ins_at in Hp by lia. rewrite lookup_ins_at in Hw by lia.
    assert (Hpred : pred_of (ins_at t x ns) k
                    = if decide (k < t)%nat then pred_of ns k
                      else if decide (k = t) then pred_of ns t
                      else if decide (k - 1 = t)%nat then Some x
                      else pred_of ns (k - 1)%nat).
    { destruct k as [|k']; cbn [pred_of].
      - destruct (decide (0 < t)%nat); [reflexivity|].
        destruct (decide (0%nat = t)) as [<-|]; [reflexivity|lia].
      - rewrite lookup_ins_at by lia.
        destruct (decide (k' < t)%nat), (decide (S k' < t)%nat); try lia.
        + reflexivity.
        + destruct (decide (S k' = t)) as [<-|]; [reflexivity|lia].
        + destruct (decide (S k' = t)); [lia|].
          replace (S k' - 1)%nat with k' by lia.
          destruct (decide (k' = t)) as [->|Hne]; [reflexivity|].
          destruct k' as [|k'']; [lia|]. cbn [pred_of].
          replace (S k'' - 1)%nat with k'' by lia. reflexivity. }
    assert (Hnext : ins_at t x ns !! S k
                    = if decide (S k < t)%nat then ns !! S k
                      else if decide (S k = t) then Some x else ns !! k).
    { rewrite lookup_ins_at by lia.
      replace (S k - 1)%nat with k by lia. reflexivity. }
    rewrite Hpred, Hnext.
    destruct (decide (k < t)%nat) as [Hlt|Hge].
    + rewrite (Hold k p w Hp Hw).
      destruct (decide (k = t)); [lia|].
      destruct (decide (S k < t)%nat), (decide (S k = t)); try lia; reflexivity.
    + destruct (decide (k = t)) as [->|Hne].
      * injection Hp as <-. injection Hw as <-. rewrite Hnew.
        destruct (decide (S t < t)%nat); [lia|].
        destruct (decide (S t = t)); [lia|]. reflexivity.
      * rewrite (Hold (k - 1)%nat p w Hp Hw).
        destruct (decide (S k < t)%nat); [lia|].
        destruct (decide (S k = t)); [lia|].
        destruct (decide (S (k - 1) = t)); [lia|].
        replace (S (k - 1)) with k by lia. reflexivity.
Qed.

(** The node at place [t] taken out. *)
Lemma dll_delete_rep h l ns vs t x h' l' :
  dll h l ns vs -> ns !! t = Some x ->
  (forall k p w, ns !! k = Some p -> vs !! k = Some w -> k <> t ->
     node_at h' p
     = Some (mk_listNode (if decide (k = S t) then pred_of ns t else pred_of ns k)
                         (if decide (S k = t) then ns !! S t else ns !! S k) w)) ->
  head l' = (if decide (t = 0%nat) then ns !! 1%nat else head l) ->
  tail l' = (if decide (S t = length ns) then pred_of ns t else tail l) ->
  len l' = len l - 1 ->
  dll h' l' (delete t ns) (delete t vs).
Proof.
  intros D Hx Hold Hhead Htail Hlen.
  pose proof (dll_vals _ _ _ _ D) as Hvs.
  pose proof (lookup_lt_Some _ _ _ Hx) as Htlt.
  assert (Hlook : forall {A} (l0 : list A) k,
            delete t l0 !! k = if decide (k < t)%nat then l0 !! k else l0 !! S k).
  { intros A l0 k. destruct (decide (k < t)%nat).
    - now apply list_lookup_delete_lt.
    - apply list_lookup_delete_ge. lia. }
  constructor.
  - pose proof (dll_nodup _ _ _ _ D) as Hnd.
    eapply sublist_NoDup; [exact Hnd|apply sublist_delete].
  - rewrite !length_delete; [lia| |]; apply lookup_lt_is_Some_2; lia.
  - rewrite Hlen, (dll_len _ _ _ _ D), length_delete by eauto. lia.
  - rewrite Hhead, Hlook. destruct (decide (t = 0%nat)) as [->|Hne].
    + destruct (decide (0 < 0)%nat); [lia|reflexivity].
    + destruct (decide (0 < t)%nat); [|lia]. apply (dll_head _ _ _ _ D).
  - rewrite Htail, !last_lookup, length_delete, Hlook by eauto.
    rewrite (dll_tail _ _ _ _ D), last_lookup.
    destruct (decide (S t = length ns)) as [He|Hne].
    + destruct (decide (pred (length ns - 1) < t)%nat) as [Hlt|Hge].
      * destruct t as [|t']; [lia|]. cbn [pred_of]. f_equal. lia.
      * destruct t as [|t']; [|lia]. cbn [pred_of].
        symmetry. apply lookup_ge_None_2. lia.
    + destruct (decide (pred (length ns - 1) < t)%nat) as [Hlt|Hge]; [lia|].
      f_equal. lia.
  - intros k p w Hp Hw. rewrite Hlook in Hp, Hw.
    assert (Hpred : pred_of (delete t ns) k
                    = if decide (k <= t)%nat then pred_of ns k else ns !! k).
    { destruct k as [|k']; cbn [pred_of].
      - destruct (decide (0 <= t)%nat); [reflexivity|lia].
      - rewrite Hlook. destruct (decide (k' < t)%nat), (decide (S k' <= t)%nat);
          try lia; reflexivity. }
    rewrite Hpred, Hlook.
    destruct (decide (k < t)%nat) as [Hlt|Hge].
    + rewrite (Hold k p w Hp Hw ltac:(lia)).
      destruct (decide (k = S t)); [lia|].
      destruct (decide (k <= t)%nat); [|lia].
      destruct (decide (S k = t)) as [<-|Hne].
      * destruct (decide (S k < S k)%nat); [lia|reflexivity].
      * destruct (decide (S k < t)%nat); [reflexivity|lia].
    + rewrite (Hold (S k) p w Hp Hw ltac:(lia)).
      destruct (decide (S (S k) = t)); [lia|].
      destruct (decide (S k < t)%nat); [lia|].
      destruct (decide (S k = S t)) as [He|Hne].
      * injection He as ->. destruct (decide (t <= t)%nat); [reflexivity|lia].
      * destruct (decide (k <= t)%nat); [lia|]. reflexivity.
Qed.

Lemma u64_small x : 0 <= x < 2^64 -> u64 x = x.
Proof. intros Hx. unfold u64. now apply Z.mod_small. Qed.

Lemma ins_at_0 {A} (x : A) (l : list A) : ins_at 0 x l = x :: l.
Proof. unfold ins_at. now rewrite take_0, drop_0. Qed.

Lemma ins_at_end {A} (x : A) (l : list A) n :
  n = length l -> ins_at n x l = l ++ [x].
Proof. intros ->. unfold ins_at. now rewrite take_ge, drop_ge by lia. Qed.

Lemma dll_last h l ns vs b :
  dll h l ns vs -> tail l = Some b -> ns !! (length ns - 1)%nat = Some b.
Proof.
  intros D Hb. rewrite (dll_tail _ _ _ _ D), last_lookup in Hb.
  rewrite <- Hb. f_equal. lia.
Qed.

Lemma dll_in h l ns vs k p : dll h l ns vs -> ns !! k = Some p -> p <> length h.
Proof.
  intros D Hp ->. apply (dll_fresh _ _ _ _ D). eapply list_elem_of_lookup_2, Hp.
Qed.

(** X25 — adding at the ends.  On a well-formed list [listAddNodeHead] and
    [listAddNodeTail] return; the list stays well formed, the new node is
    its first (its last) node and holds the value, the nodes that were
    there follow (precede) it in their order with their values, and the
    length grows by one.  The methods of the list are kept. *)
Theorem listAddNode_at_ends h l ns vs v :
  dll h l ns vs -> Z.of_nat (length ns) + 1 < 2^64 ->
  (exists h' l',
     listAddNodeHead h l v = Some (h', l') /\
     dll h' l' (length h :: ns) (v :: vs) /\
     match_ l' = match_ l /\ dup l' = dup l)
  /\ (exists h' l',
        listAddNodeTail h l v = Some (h', l') /\
        dll h' l' (ns ++ [length h]) (vs ++ [v]) /\
        match_ l' = match_ l /\ dup l' = dup l).
Proof.
  intros D Hsmall.
  pose proof (dll_len _ _ _ _ D) as Hlen.
  pose proof (dll_vals _ _ _ _ D) as Hvs.
  pose proof (dll_fresh _ _ _ _ D) as Hfresh.
  split.
  - (* at the head *)
    unfold listAddNodeHead. rewrite <- (ins_at_0 (length h) ns), <- (ins_at_0 v vs).
    destruct (Z.eqb_spec (len l) 0) as [H0|H0].
    + assert (ns = []) by (destruct ns; [reflexivity|cbn in Hlen; lia]). subst ns.
      eexists _, _. split; [reflexivity|]. split; [|split; reflexivity].
      apply (dll_insert_rep h l [] vs 0 (length h) v); try assumption.
      * cbn; lia.
      * rewrite node_at_alloc. destruct (decide (length h = length h)); [reflexivity|lia].
      * intros k p w Hp. destruct k; discriminate.
      * reflexivity.
      * reflexivity.
      * cbn [len with_len]. rewrite u64_small; lia.
    + destruct ns as [|a ns']; [cbn in Hlen; lia|].
      pose proof (dll_head _ _ _ _ D) as Hhead. cbn in Hhead. rewrite Hhead.
      cbn [mbind option_bind].
      destruct (dll_node _ _ _ _ 0%nat a D eq_refl) as (wa & Hwa & Hna).
      pose proof (dll_in _ _ _ _ 0%nat a D eq_refl) as Hax.
      destruct (set_prev_spec (h ++ [Some (mk_listNode None (Some a) v)]) a
                  (Some (length h)) _
                  ltac:(rewrite node_at_alloc; destruct (decide (a = length h)); [lia|exact Hna]))
        as (h' & Hset & _ & Hat).
      rewrite Hset. cbn [mbind option_bind].
      eexists _, _. split; [reflexivity|]. split; [|split; reflexivity].
      apply (dll_insert_rep h l (a :: ns') vs 0 (length h) v); try assumption.
      * cbn; lia.
      * rewrite Hat. destruct (decide (length h = a)); [lia|].
        rewrite node_at_alloc. destruct (decide (length h = length h)); [reflexivity|lia].
      * intros k p w Hp Hw. rewrite Hat.
        pose proof (dll_in _ _ _ _ k p D Hp) as Hpx.
        destruct (decide (p = a)) as [->|Hne].
        -- assert (k = 0%nat) by (apply (dll_index_inj _ _ _ _ k 0%nat a D Hp eq_refl)).
           subst k. cbn [next value]. rewrite Hwa in Hw. injection Hw as ->.
           reflexivity.
        -- rewrite node_at_alloc. destruct (decide (p = length h)); [lia|].
           rewrite (dll_nodes _ _ _ _ D k p w Hp Hw).
           destruct (decide (k = 0%nat)) as [->|_];
             [cbn in Hp; injection Hp as ->; congruence|].
           destruct (decide (S k = 0%nat)); [lia|reflexivity].
      * reflexivity.
      * cbn [tail with_len with_head length].
        destruct (decide (0%nat = S (length ns'))); [lia|reflexivity].
      * cbn [len with_len]. rewrite u64_small; lia.
  - (* at the tail *)
    unfold listAddNodeTail.
    rewrite <- (ins_at_end (length h) ns (length ns) eq_refl).
    rewrite <- (ins_at_end v vs (length ns) (eq_sym Hvs)).
    destruct (Z.eqb_spec (len l) 0) as [H0|H0].
    + assert (ns = []) by (destruct ns; [reflexivity|cbn in Hlen; lia]). subst ns.
      eexists _, _. split; [reflexivity|]. split; [|split; reflexivity].
      apply (dll_insert_rep h l [] vs 0 (length h) v); try assumption.
      * cbn; lia.
      * rewrite node_at_alloc. destruct (decide (length h = length h)); [reflexivity|lia].
      * intros k p w Hp. destruct k; discriminate.
      * reflexivity.
      * reflexivity.
      * cbn [len with_len]. rewrite u64_small; lia.
    + assert (Hpos : (0 < length ns)%nat) by lia.
      destruct (lookup_lt_is_Some_2 ns (length ns - 1)) as [b Hb]; [lia|].
      assert (Htail : tail l = Some b).
      { rewrite (dll_tail _ _ _ _ D), last_lookup. rewrite <- Hb. f_equal. lia. }
      rewrite Htail. cbn [mbind option_bind].
      destruct (dll_node _ _ _ _ _ b D Hb) as (wb & Hwb & Hnb).
      pose proof (dll_in _ _ _ _ _ b D Hb) as Hbx.
      destruct (set_next_spec (h ++ [Some (mk_listNode (Some b) None v)]) b
                  (Some (length h)) _
                  ltac:(rewrite node_at_alloc; destruct (decide (b = length h)); [lia|exact Hnb]))
        as (h' & Hset & _ & Hat).
      rewrite Hset. cbn [mbind option_bind].
      eexists _, _. split; [reflexivity|]. split; [|split; reflexivity].
      apply (dll_insert_rep h l ns vs (length ns) (length h) v); try assumption.
      * lia.
      * rewrite Hat. destruct (decide (length h = b)); [lia|].
        rewrite node_at_alloc. destruct (decide (length h = length h)); [|lia].
        do 2 f_equal.
        -- destruct (length ns) as [|m] eqn:E; [lia|]. cbn [pred_of]. rewrite <- Hb.
           f_equal. lia.
        -- symmetry. apply lookup_ge_None_2. lia.
      * intros k p w Hp Hw. rewrite Hat.
        pose proof (dll_in _ _ _ _ k p D Hp) as Hpx.
        pose proof (lookup_lt_Some _ _ _ Hp) as Hk.
        destruct (decide (p = b)) as [->|Hne].
        -- assert (k = (length ns - 1)%nat)
             by (apply (dll_index_inj _ _ _ _ k _ b D Hp Hb)).
           subst k. cbn [prev value]. rewrite Hwb in Hw. injection Hw as ->.
           destruct (decide ((length ns - 1)%nat = length ns)); [lia|].
           destruct (decide (S (length ns - 1) = length ns)); [reflexivity|lia].
        -- rewrite node_at_alloc. destruct (decide (p = length h)); [lia|].
           rewrite (dll_nodes _ _ _ _ D k p w Hp Hw).
           destruct (decide (k = length ns)); [lia|].
           destruct (decide (S k = length ns)) as [He|_]; [|reflexivity].
           exfalso. apply Hne. replace k with (length ns - 1)%nat in Hp by lia.
           congruence.
      * cbn [head with_len with_tail].
        destruct (decide (length ns = 0%nat)); [lia|reflexivity].
      * cbn [tail with_len with_tail].
        destruct (decide (length ns = length ns)); [reflexivity|lia].
      * cbn [len with_len]. rewrite u64_small; lia.
Qed.

(** X26 — insertion next to a node.  On a well-formed list, for the node
    at place [k], [listInsertNode] returns; the new node stands right
    behind that node when [after] is set and right in front of it
    otherwise, it holds the value, the other nodes keep their order and
    values, and the list stays well formed (head and tail follow when the
    new node is the first or the last). *)
Theorem listInsertNode_next_to h l ns vs k old_node v (after : bool) :
  dll h l ns vs -> Z.of_nat (length ns) + 1 < 2^64 ->
  ns !! k = Some old_node ->
  let t := if after then S k else k in
  exists h' l',
    listInsertNode h l old_node v after = Some (h', l') /\
    dll h' l' (ins_at t (length h) ns) (ins_at t v vs) /\
    match_ l' = match_ l /\ dup l' = dup l.
Proof.
  intros D Hsmall Hold t.
  pose proof (dll_len _ _ _ _ D) as Hlen.
  pose proof (dll_fresh _ _ _ _ D) as Hfresh.
  pose proof (lookup_lt_Some _ _ _ Hold) as Hk.
  destruct (dll_node _ _ _ _ k old_node D Hold) as (wo & Hwo & Hno).
  pose proof (dll_in _ _ _ _ k old_node D Hold) as Hox.
  unfold listInsertNode. rewrite Hno. cbn [mbind option_bind prev next].
  destruct after; subst t.
  - (* behind the node *)
    set (l1 := if decide (tail l = Some old_node) then with_tail l (Some (length h)) else l).
    assert (Hl1 : head l1 = head l /\ len l1 = len l /\ match_ l1 = match_ l /\ dup l1 = dup l
                  /\ tail l1 = if decide (S k = length ns) then Some (length h) else tail l).
    { pose proof (dll_tail _ _ _ _ D) as Htl. rewrite last_lookup in Htl. subst l1.
      destruct (decide (tail l = Some old_node)) as [He|Hne].
      - rewrite Htl in He.
        assert (pred (length ns) = k) by (apply (dll_index_inj _ _ _ _ _ _ _ D He Hold)).
        destruct (decide (S k = length ns)); [|lia]. repeat split.
      - destruct (decide (S k = length ns)) as [He|_]; [|repeat split].
        exfalso. apply Hne. rewrite Htl, <- Hold. f_equal. lia. }
    destruct Hl1 as (Hh1 & Hlen1 & Hm1 & Hd1 & Ht1). clearbody l1.
    set (h1 := h ++ [Some (mk_listNode (Some old_node) (ns !! S k) v)]).
    destruct (set_next_spec h1 old_node (Some (length h)) _
                ltac:(subst h1; rewrite node_at_alloc;
                      destruct (decide (old_node = length h)); [lia|exact Hno]))
      as (h2 & Hset2 & Hlen2 & Hat2).
    rewrite Hset2. cbn [mbind option_bind prev value].
    destruct (ns !! S k) as [q|] eqn:Hq.
    + destruct (dll_node _ _ _ _ (S k) q D Hq) as (wq & Hwq & Hnq).
      pose proof (dll_in _ _ _ _ (S k) q D Hq) as Hqx.
      assert (Hqo : q <> old_node).
      { intros ->. pose proof (dll_index_inj _ _ _ _ _ _ _ D Hq Hold). lia. }
      destruct (set_prev_spec h2 q (Some (length h)) _
                  ltac:(rewrite Hat2; destruct (decide (q = old_node)); [congruence|];
                        subst h1; rewrite node_at_alloc;
                        destruct (decide (q = length h)); [lia|exact Hnq]))
        as (h3 & Hset3 & _ & Hat3).
      rewrite Hset3. cbn [mbind option_bind].
      eexists _, _. split; [reflexivity|]. split; [|split; assumption].
      apply (dll_insert_rep h l ns vs (S k) (length h) v); [exact D|lia|exact Hfresh| | | | |].
      * rewrite Hat3. destruct (decide (length h = q)); [lia|].
        rewrite Hat2. destruct (decide (length h = old_node)); [lia|].
        subst h1. rewrite node_at_alloc.
        destruct (decide (length h = length h)); [|lia].
        cbn [pred_of]. now rewrite Hold, Hq.
      * intros j p w Hp Hw. rewrite Hat3.
        pose proof (dll_in _ _ _ _ j p D Hp) as Hpx.
        destruct (decide (p = q)) as [->|Hpq].
        -- assert (j = S k) by (apply (dll_index_inj _ _ _ _ _ _ _ D Hp Hq)). subst j.
           rewrite Hwq in Hw. injection Hw as ->. cbn [next value].
           destruct (decide (S k = S k)); [|lia].
           destruct (decide (S (S k) = S k)); [lia|reflexivity].
        -- rewrite Hat2. destruct (decide (p = old_node)) as [->|Hpo].
           ++ assert (j = k) by (apply (dll_index_inj _ _ _ _ _ _ _ D Hp Hold)). subst j.
              rewrite Hwo in Hw. injection Hw as ->. cbn [prev value].
              destruct (decide (k = S k)); [lia|].
              destruct (decide (S k = S k)); [reflexivity|lia].
           ++ subst h1. rewrite node_at_alloc. destruct (decide (p = length h)); [lia|].
              rewrite (dll_nodes _ _ _ _ D j p w Hp Hw).
              destruct (decide (j = S k)) as [->|_]; [congruence|].
              destruct (decide (S j = S k)) as [He|_]; [|reflexivity].
              injection He as ->. congruence.
      * cbn [head with_len]. rewrite Hh1.
        destruct (decide (S k = 0%nat)); [lia|reflexivity].
      * cbn [tail with_len]. exact Ht1.
      * cbn [len with_len]. rewrite Hlen1, u64_small; lia.
    + cbn [mbind option_bind].
      eexists _, _. split; [reflexivity|]. split; [|split; assumption].
      apply (dll_insert_rep h l ns vs (S k) (length h) v); [exact D|lia|exact Hfresh| | | | |].
      * rewrite Hat2. destruct (decide (length h = old_node)); [lia|].
        subst h1. rewrite node_at_alloc.
        destruct (decide (length h = length h)); [|lia].
        cbn [pred_of]. now rewrite Hold, Hq.
      * intros j p w Hp Hw.
        pose proof (dll_in _ _ _ _ j p D Hp) as Hpx.
        rewrite Hat2. destruct (decide (p = old_node)) as [->|Hpo].
        -- assert (j = k) by (apply (dll_index_inj _ _ _ _ _ _ _ D Hp Hold)). subst j.
           rewrite Hwo in Hw. injection Hw as ->. cbn [prev value].
           destruct (decide (k = S k)); [lia|].
           destruct (decide (S k = S k)); [reflexivity|lia].
        -- subst h1. rewrite node_at_alloc. destruct (decide (p = length h)); [lia|].
           rewrite (dll_nodes _ _ _ _ D j p w Hp Hw).
           destruct (decide (j = S k)) as [->|_]; [congruence|].
           destruct (decide (S j = S k)) as [He|_]; [|reflexivity].
           injection He as ->. congruence.
      * cbn [head with_len]. rewrite Hh1.
        destruct (decide (S k = 0%nat)); [lia|reflexivity].
      * cbn [tail with_len]. exact Ht1.
      * cbn [len with_len]. rewrite Hlen1, u64_small; lia.
  - (* in front of the node *)
    set (l1 := if decide (head l = Some old_node) then with_head l (Some (length h)) else l).
    assert (Hl1 : tail l1 = tail l /\ len l1 = len l /\ match_ l1 = match_ l /\ dup l1 = dup l
                  /\ head l1 = if decide (k = 0%nat) then Some (length h) else head l).
    { pose proof (dll_head _ _ _ _ D) as Hhd. subst l1.
      destruct (decide (head l = Some old_node)) as [He|Hne].
      - rewrite Hhd in He.
        assert (0%nat = k) by (apply (dll_index_inj _ _ _ _ _ _ _ D He Hold)).
        destruct (decide (k = 0%nat)); [|lia]. repeat split.
      - destruct (decide (k = 0%nat)) as [He|_]; [|repeat split].
        exfalso. apply Hne. rewrite Hhd, <- Hold. now rewrite He. }
    destruct Hl1 as (Ht1 & Hlen1 & Hm1 & Hd1 & Hh1). clearbody l1.
    set (h1 := h ++ [Some (mk_listNode (pred_of ns k) (Some old_node) v)]).
    assert (Hfin : forall h2,
              length h2 = length h1 ->
              (forall p, node_at h2 p
                         = if decide (Some p = pred_of ns k)
                           then option_map (fun n => mk_listNode (prev n) (Some (length h)) (value n))
                                           (node_at h1 p)
                           else node_at h1 p) ->
              exists h' l',
                (h ← set_prev h2 old_node (Some (length h));
                 Some (h, with_len l1 (u64 (len l1 + 1)))) = Some (h', l') /\
                dll h' l' (ins_at k (length h) ns) (ins_at k v vs) /\
                match_ l' = match_ l /\ dup l' = dup l).
    { intros h2 Hlen2 Hat2.
      assert (Hpo : Some old_node <> pred_of ns k).
      { destruct k as [|k']; cbn [pred_of]; [discriminate|]. intros Hc. symmetry in Hc.
        pose proof (dll_index_inj _ _ _ _ _ _ _ D Hc Hold). lia. }
      destruct (set_prev_spec h2 old_node (Some (length h)) _
                  ltac:(rewrite Hat2; destruct (decide (Some old_node = pred_of ns k));
                        [congruence|]; subst h1; rewrite node_at_alloc;
                        destruct (decide (old_node = length h)); [lia|exact Hno]))
        as (h3 & Hset3 & _ & Hat3).
      rewrite Hset3. cbn [mbind option_bind].
      eexists _, _. split; [reflexivity|]. split; [|split; assumption].
      apply (dll_insert_rep h l ns vs k (length h) v); [exact D|lia|exact Hfresh| | | | |].
      * rewrite Hat3. destruct (decide (length h = old_node)); [lia|].
        rewrite Hat2. destruct (decide (Some (length h) = pred_of ns k)) as [Hc|_].
        { exfalso. destruct k as [|k']; cbn [pred_of] in Hc; [discriminate|].
          symmetry in Hc. exact (dll_in _ _ _ _ _ _ D Hc eq_refl). }
        subst h1. rewrite node_at_alloc.
        destruct (decide (length h = length h)); [|lia]. now rewrite Hold.
      * intros j p w Hp Hw. rewrite Hat3.
        pose proof (dll_in _ _ _ _ j p D Hp) as Hpx.
        destruct (decide (p = old_node)) as [->|Hpo'].
        -- assert (j = k) by (apply (dll_index_inj _ _ _ _ _ _ _ D Hp Hold)). subst j.
           rewrite Hwo in Hw. injection Hw as ->. cbn [next value].
           destruct (decide (k = k)); [|lia].
           destruct (decide (S k = k)); [lia|reflexivity].
        -- rewrite Hat2. subst h1. rewrite node_at_alloc.
           destruct (decide (p = length h)); [lia|].
           rewrite (dll_nodes _ _ _ _ D j p w Hp Hw). cbn [option_map prev value].
           destruct (decide (j = k)) as [->|Hjk]; [congruence|].
           destruct (decide (Some p = pred_of ns k)) as [He|Hne].
           ++ destruct k as [|k']; cbn [pred_of] in He; [discriminate|].
              symmetry in He.
              assert (k' = j) by (apply (dll_index_inj _ _ _ _ _ _ _ D He Hp)). subst k'.
              destruct (decide (S j = S j)); [reflexivity|lia].
           ++ destruct (decide (S j = k)) as [<-|_]; [|reflexivity].
              cbn [pred_of] in Hne. congruence.
      * cbn [head with_len]. exact Hh1.
      * cbn [tail with_len]. rewrite Ht1.
        destruct (decide (k = length ns)); [lia|reflexivity].
      * cbn [len with_len]. rewrite Hlen1, u64_small; lia. }
    destruct (pred_of ns k) as [a|] eqn:Ha.
    + assert (Hka : exists k', k = S k' /\ ns !! k' = Some a).
      { destruct k as [|k']; cbn [pred_of] in Ha; [discriminate|]. eauto. }
      destruct Hka as (k' & -> & Hak).
      destruct (dll_node _ _ _ _ k' a D Hak) as (wa & Hwa & Hna).
      pose proof (dll_in _ _ _ _ k' a D Hak) as Hax.
      destruct (set_next_spec h1 a (Some (length h)) _
                  ltac:(subst h1; rewrite node_at_alloc;
                        destruct (decide (a = length h)); [lia|exact Hna]))
        as (h2 & Hset2 & Hlen2 & Hat2).
      rewrite Hset2. cbn [mbind option_bind].
      apply (Hfin h2 Hlen2). intros p. rewrite Hat2.
      destruct (decide (p = a)) as [->|Hne].
      * destruct (decide (Some a = Some a)); [|congruence].
        subst h1. rewrite node_at_alloc. destruct (decide (a = length h)); [lia|].
        rewrite Hna. reflexivity.
      * destruct (decide (Some p = Some a)); [congruence|reflexivity].
    + cbn [mbind option_bind]. apply (Hfin h1 eq_refl). intros p.
      destruct (decide (Some p = None)); [discriminate|reflexivity].
Qed.

(** X27 — removal of a node.  On a well-formed list, for the node at place
    [k], [listDelNode] returns; the node is unlinked and freed, the other
    nodes keep their order and values, the length drops by one and the
    list stays well formed (head and tail follow when the node was the
    first or the last). *)
Theorem listDelNode_unlinks h l ns vs k node :
  dll h l ns vs -> Z.of_nat (length ns) < 2^64 ->
  ns !! k = Some node ->
  exists h' l',
    listDelNode h l node = Some (h', l') /\
    dll h' l' (delete k ns) (delete k vs) /\
    node_at h' node = None /\ length h' = length h /\
    match_ l' = match_ l /\ dup l' = dup l.
Proof.
  intros D Hsmall Hnode.
  pose proof (dll_len _ _ _ _ D) as Hlen.
  pose proof (lookup_lt_Some _ _ _ Hnode) as Hk.
  destruct (dll_node _ _ _ _ k node D Hnode) as (w & Hw & Hn).
  unfold listDelNode. rewrite Hn. cbn [mbind option_bind prev next].
  (* node->prev->next = node->next, or the head *)
  assert (Step1 : exists h1 l1,
            match pred_of ns k with
            | Some p => h ← set_next h p (ns !! S k); Some (h, l)
            | None => Some (h, with_head l (ns !! S k))
            end = Some (h1, l1) /\
            length h1 = length h /\
            (forall p, node_at h1 p
                       = if decide (Some p = pred_of ns k)
                         then option_map (fun n => mk_listNode (prev n) (ns !! S k) (value n))
                                         (node_at h p)
                         else node_at h p) /\
            head l1 = (if decide (k = 0%nat) then ns !! 1%nat else head l) /\
            tail l1 = tail l /\ len l1 = len l /\ match_ l1 = match_ l /\ dup l1 = dup l).
  { destruct k as [|k']; cbn [pred_of].
    - eexists _, _. split; [reflexivity|]. split; [reflexivity|].
      split; [intros p; destruct (decide (Some p = None)); [discriminate|reflexivity]|].
      repeat split.
    - destruct (lookup_lt_is_Some_2 ns k') as [a Ha]; [lia|]. rewrite Ha.
      destruct (dll_node _ _ _ _ k' a D Ha) as (wa & Hwa & Hna).
      destruct (set_next_spec h a (ns !! S (S k')) _ Hna) as (h1 & Hset & Hl1 & Hat).
      rewrite Hset. cbn [mbind option_bind].
      eexists _, _. split; [reflexivity|]. split; [exact Hl1|].
      split; [|repeat split].
      intros p. rewrite Hat. destruct (decide (p = a)) as [->|Hne].
      + destruct (decide (Some a = Some a)); [|congruence]. now rewrite Hna.
      + destruct (decide (Some p = Some a)); [congruence|reflexivity]. }
  destruct Step1 as (h1 & l1 & Hrun1 & Hlen1 & Hat1 & Hh1 & Ht1 & Hn1 & Hm1 & Hd1).
  rewrite Hrun1. cbn [mbind option_bind].
  (* node->next->prev = node->prev, or the tail *)
  assert (Step2 : exists h2 l2,
            match ns !! S k with
            | Some q => h ← set_prev h1 q (pred_of ns k); Some (h, l1)
            | None => Some (h1, with_tail l1 (pred_of ns k))
            end = Some (h2, l2) /\
            length h2 = length h /\
            (forall p, node_at h2 p
                       = if decide (Some p = ns !! S k)
                         then option_map (fun n => mk_listNode (pred_of ns k) (next n) (value n))
                                         (node_at h1 p)
                         else node_at h1 p) /\
            head l2 = head l1 /\
            tail l2 = (if decide (S k = length ns) then pred_of ns k else tail l) /\
            len l2 = len l /\ match_ l2 = match_ l /\ dup l2 = dup l).
  { destruct (ns !! S k) as [q|] eqn:Hq.
    - destruct (dll_node _ _ _ _ (S k) q D Hq) as (wq & Hwq & Hnq).
      pose proof (lookup_lt_Some _ _ _ Hq) as Hql.
      assert (Hnq1 : node_at h1 q
                     = Some (mk_listNode (pred_of ns (S k)) (ns !! S (S k)) wq)).
      { rewrite Hat1. destruct (decide (Some q = pred_of ns k)) as [Hc|_]; [|exact Hnq].
        exfalso. destruct k as [|k']; cbn [pred_of] in Hc; [discriminate|].
        symmetry in Hc. pose proof (dll_index_inj _ _ _ _ _ _ _ D Hc Hq). lia. }
      destruct (set_prev_spec h1 q (pred_of ns k) _ Hnq1) as (h2 & Hset & Hl2 & Hat).
      rewrite Hset. cbn [mbind option_bind].
      eexists _, _. split; [reflexivity|]. split; [lia|].
      split; [|split; [reflexivity|]; split; [|repeat split; assumption]].
      + intros p. rewrite Hat. destruct (decide (p = q)) as [->|Hne].
        * destruct (decide (Some q = Some q)); [|congruence]. now rewrite Hnq1.
        * destruct (decide (Some p = Some q)); [congruence|reflexivity].
      + destruct (decide (S k = length ns)); [lia|exact Ht1].
    - apply lookup_ge_None_1 in Hq.
      eexists _, _. split; [reflexivity|]. split; [exact Hlen1|].
      split; [intros p; destruct (decide (Some p = None)); [discriminate|reflexivity]|].
      split; [reflexivity|]. split; [|repeat split; assumption].
      cbn [tail with_tail]. destruct (decide (S k = length ns)); [reflexivity|lia]. }
  destruct Step2 as (h2 & l2 & Hrun2 & Hlen2 & Hat2 & Hh2 & Ht2 & Hn2 & Hm2 & Hd2).
  rewrite Hrun2. cbn [mbind option_bind].
  assert (Hnl : (node < length h2)%nat) by (apply list_node_at_lt in Hn; lia).
  eexists _, _. split; [reflexivity|].
  split; [|split; [|split; [|split; assumption]]].
  - apply (dll_delete_rep h l ns vs k node); [exact D|exact Hnode| | | |].
    + intros j p wj Hp Hwj Hjk.
      assert (Hpn : p <> node).
      { intros ->. apply Hjk. apply (dll_index_inj _ _ _ _ _ _ _ D Hp Hnode). }
      rewrite node_at_insert by exact Hnl.
      destruct (decide (p = node)); [congruence|].
      rewrite Hat2, Hat1, (dll_nodes _ _ _ _ D j p wj Hp Hwj).
      assert (E1 : forall b1 : bool,
                (if decide (Some p = pred_of ns k) then b1 else negb b1)
                = if decide (S j = k) then b1 else negb b1).
      { intros b1. destruct (decide (Some p = pred_of ns k)) as [He|Hne],
          (decide (S j = k)) as [Hj|Hj]; try reflexivity; exfalso.
        - destruct k as [|k']; cbn [pred_of] in He; [discriminate|]. symmetry in He.
          pose proof (dll_index_inj _ _ _ _ _ _ _ D He Hp). lia.
        - subst k. cbn [pred_of] in Hne. congruence. }
      assert (E2 : forall b1 : bool,
                (if decide (Some p = ns !! S k) then b1 else negb b1)
                = if decide (j = S k) then b1 else negb b1).
      { intros b1. destruct (decide (Some p = ns !! S k)) as [He|Hne],
          (decide (j = S k)) as [Hj|Hj]; try reflexivity; exfalso.
        - symmetry in He. pose proof (dll_index_inj _ _ _ _ _ _ _ D He Hp). lia.
        - subst j. congruence. }
      pose proof (E1 true) as E1t. pose proof (E2 true) as E2t.
      destruct (decide (Some p = pred_of ns k)), (decide (S j = k));
        try discriminate;
        destruct (decide (Some p = ns !! S k)), (decide (j = S k));
        try discriminate; try lia; reflexivity.
    + cbn [head with_len]. rewrite Hh2. exact Hh1.
    + cbn [tail with_len]. exact Ht2.
    + cbn [len with_len]. rewrite Hn2, u64_small; lia.
  - rewrite node_at_insert by exact Hnl.
    destruct (decide (node = node)); [reflexivity|congruence].
  - rewrite length_insert. exact Hlen2.
Qed.

Lemma index_walk_none c h step : index_walk c h step None = Some None.
Proof. destruct c; reflexivity. Qed.

Lemma index_walk_next h l ns vs :
  dll h l ns vs ->
  forall c k, index_walk c h next (ns !! k) = Some (ns !! (k + c)%nat).
Proof.
  intros D. induction c as [|c IH]; intros k.
  - rewrite Nat.add_0_r. destruct (ns !! k); reflexivity.
  - destruct (ns !! k) as [p|] eqn:Hp.
    + destruct (dll_node _ _ _ _ k p D Hp) as (w & _ & Hn).
      cbn [index_walk]. rewrite Hn. cbn [mbind option_bind next].
      rewrite IH. do 2 f_equal. lia.
    + rewrite index_walk_none. f_equal. symmetry.
      apply lookup_ge_None_2. apply lookup_ge_None_1 in Hp. lia.
Qed.

Lemma index_walk_prev h l ns vs :
  dll h l ns vs ->
  forall c k p, ns !! k = Some p ->
    index_walk c h prev (Some p)
    = Some (if decide (c <= k)%nat then ns !! (k - c)%nat else None).
Proof.
  intros D. induction c as [|c IH]; intros k p Hp.
  - cbn [index_walk]. destruct (decide (0 <= k)%nat); [|lia].
    now rewrite Nat.sub_0_r, Hp.
  - destruct (dll_node _ _ _ _ k p D Hp) as (w & _ & Hn).
    cbn [index_walk]. rewrite Hn. cbn [mbind option_bind prev].
    destruct k as [|k']; cbn [pred_of].
    + rewrite index_walk_none. destruct (decide (S c <= 0)%nat); [lia|reflexivity].
    + destruct (lookup_lt_is_Some_2 ns k') as [a Ha];
        [apply lookup_lt_Some in Hp; lia|].
      rewrite Ha, (IH k' a Ha).
      destruct (decide (c <= k')%nat), (decide (S c <= S k')%nat); try lia; reflexivity.
Qed.

(** X28 — node by index.  On a well-formed list [listIndex] returns: for an
    index from 0 on, the node at that place counted from the head, and for
    a negative index the node at that place counted from the tail ([-1] is
    the last node); NULL when the list has no such place. *)
Theorem listIndex_place h l ns vs index :
  dll h l ns vs -> - 2^63 < index < 2^63 ->
  listIndex h l index
  = Some (if index <? 0
          then if - index <=? Z.of_nat (length ns)
               then ns !! Z.to_nat (Z.of_nat (length ns) + index)
               else None
          else ns !! Z.to_nat index).
Proof.
  intros D Hi. unfold listIndex.
  destruct (Z.ltb_spec index 0) as [Hneg|Hpos].
  - destruct (Z.eqb_spec index (- 2 ^ 63)) as [|_]; [lia|].
    rewrite (dll_tail _ _ _ _ D), last_lookup.
    destruct (ns !! pred (length ns)) as [b|] eqn:Hb.
    + pose proof (lookup_lt_Some _ _ _ Hb) as Hbl.
      rewrite (index_walk_prev h l ns vs D _ _ b Hb). f_equal.
      destruct (decide (Z.to_nat (- index - 1) <= pred (length ns))%nat) as [Hle|Hgt];
        destruct (Z.leb_spec (- index) (Z.of_nat (length ns))); try lia; [|reflexivity].
      f_equal. lia.
    + rewrite index_walk_none. f_equal. apply lookup_ge_None_1 in Hb.
      destruct (Z.leb_spec (- index) (Z.of_nat (length ns))); [|reflexivity].
      symmetry. apply lookup_ge_None_2. lia.
  - rewrite (dll_head _ _ _ _ D), (index_walk_next h l ns vs D). reflexivity.
Qed.

Definition rotated {A} (l : list A) : list A :=
  drop (length l - 1) l ++ take (length l - 1) l.

(** X29 — rotation.  On a well-formed list [listRotate] returns; a list of
    two nodes or more has its last node moved in front of the others,
    which keep their order and values, and a shorter list is left as it
    is.  The list stays well formed and keeps its length. *)
Theorem listRotate_moves_tail h l ns vs :
  dll h l ns vs ->
  exists h' l',
    listRotate h l = Some (h', l') /\
    dll h' l' (rotated ns) (rotated vs) /\
    length h' = length h /\ len l' = len l.
Proof.
  intros D.
  pose proof (dll_len _ _ _ _ D) as Hlen.
  pose proof (dll_vals _ _ _ _ D) as Hvs.
  unfold listRotate.
  destruct (Z.leb_spec (len l) 1) as [Hshort|Hlong].
  - exists h, l. split; [reflexivity|]. split; [|split; reflexivity].
    assert (Hrot : forall {A} (l0 : list A), (length l0 <= 1)%nat -> rotated l0 = l0).
    { intros A [|a [|b l0]] Hl; cbn in Hl; try lia; reflexivity. }
    rewrite !Hrot by lia. exact D.
  - set (t := (length ns - 1)%nat).
    assert (Ht : (1 <= t)%nat /\ S t = length ns) by (subst t; lia).
    destruct Ht as [Ht1 HSt].
    destruct (lookup_lt_is_Some_2 ns t) as [x Hx]; [lia|].
    assert (Htail : tail l = Some x).
    { rewrite (dll_tail _ _ _ _ D), last_lookup. rewrite <- Hx. f_equal. lia. }
    destruct (dll_node _ _ _ _ t x D Hx) as (w & Hw & Hn).
    rewrite Htail. cbn [mbind option_bind]. rewrite Hn. cbn [mbind option_bind prev].
    cbn [tail with_tail head].
    destruct t as [|t'] eqn:Et; [lia|]. cbn [pred_of] in *.
    destruct (lookup_lt_is_Some_2 ns t') as [nt Hnt]; [lia|].
    rewrite Hnt. cbn [mbind option_bind].
    destruct (dll_node _ _ _ _ t' nt D Hnt) as (wn & Hwn & Hnn).
    destruct (set_next_spec h nt None _ Hnn) as (h1 & Hset1 & Hl1 & Hat1).
    rewrite Hset1. cbn [mbind option_bind].
    (* the list without its tail *)
    assert (D1 : dll h1 (with_len (with_tail l (Some nt)) (len l - 1))
                     (delete (S t') ns) (delete (S t') vs)).
    { apply (dll_delete_rep h l ns vs (S t') x); [exact D|exact Hx| | | |].
      - intros j p wj Hp Hwj Hj. rewrite Hat1.
        pose proof (lookup_lt_Some _ _ _ Hp) as Hjl.
        destruct (decide (j = S (S t'))); [lia|].
        destruct (decide (p = nt)) as [->|Hne].
        + assert (j = t') by (apply (dll_index_inj _ _ _ _ _ _ _ D Hp Hnt)). subst j.
          rewrite Hwn in Hwj. injection Hwj as ->. cbn [prev value].
          destruct (decide (S t' = S t')); [|lia].
          do 2 f_equal. symmetry. apply lookup_ge_None_2. lia.
        + rewrite (dll_nodes _ _ _ _ D j p wj Hp Hwj).
          destruct (decide (S j = S t')) as [He|_]; [|reflexivity].
          injection He as ->. congruence.
      - cbn [head with_len with_tail]. destruct (decide (S t' = 0%nat)); [lia|reflexivity].
      - cbn [tail with_len with_tail]. cbn [pred_of].
        destruct (decide (S (S t') = length ns)); [now rewrite Hnt|lia].
      - reflexivity. }
    assert (Hdel : forall {A} (l0 : list A), length l0 = length ns ->
              delete (S t') l0 = take (S t') l0).
    { intros A l0 Hl0. rewrite delete_take_drop, drop_ge by lia. apply app_nil_r. }
    rewrite (Hdel _ ns eq_refl), (Hdel _ vs Hvs) in D1.
    assert (Hhd : exists hd, head l = Some hd /\ ns !! 0%nat = Some hd).
    { rewrite (dll_head _ _ _ _ D). destruct (lookup_lt_is_Some_2 ns 0) as [hd Hhd]; [lia|].
      exists hd. now rewrite Hhd. }
    destruct Hhd as (hd & Hhead & Hhd0). rewrite Hhead. cbn [mbind option_bind].
    assert (Hhdx : hd <> x).
    { intros ->. pose proof (dll_index_inj _ _ _ _ _ _ _ D Hhd0 Hx). lia. }
    assert (Hntx : nt <> x).
    { intros ->. pose proof (dll_index_inj _ _ _ _ _ _ _ D Hnt Hx). lia. }
    destruct (dll_node _ _ _ _ 0%nat hd D1 ltac:(rewrite lookup_take_lt by lia; exact Hhd0))
      as (wh & Hwh & Hnh).
    destruct (set_prev_spec h1 hd (Some x) _ Hnh) as (h2 & Hset2 & Hl2 & Hat2).
    rewrite Hset2. cbn [mbind option_bind].
    assert (Hnx1 : node_at h2 x = Some (mk_listNode (Some nt) (ns !! S (S t')) w)).
    { rewrite Hat2. destruct (decide (x = hd)); [congruence|].
      rewrite Hat1. destruct (decide (x = nt)); [congruence|]. rewrite <- Hnt. exact Hn. }
    destruct (set_prev_spec h2 x None _ Hnx1) as (h3 & Hset3 & Hl3 & Hat3).
    rewrite Hset3. cbn [mbind option_bind next value].
    assert (Hnx3 : node_at h3 x = Some (mk_listNode None (ns !! S (S t')) w)).
    { rewrite Hat3. destruct (decide (x = x)); [reflexivity|congruence]. }
    destruct (set_next_spec h3 x (Some hd) _ Hnx3) as (h4 & Hset4 & Hl4 & Hat4).
    rewrite Hset4. cbn [mbind option_bind prev value].
    eexists _, _. split; [reflexivity|].
    split; [|split; [lia|reflexivity]].
    assert (Hrot : forall {A} (l0 : list A) (y : A),
              length l0 = length ns -> l0 !! S t' = Some y ->
              rotated l0 = ins_at 0 y (take (S t') l0)).
    { intros A l0 y Hl0 Hy. unfold rotated. rewrite ins_at_0, Hl0.
      replace (length ns - 1)%nat with (S t') by lia.
      rewrite (drop_S _ _ _ Hy), drop_ge by lia. reflexivity. }
    rewrite (Hrot _ ns x eq_refl Hx), (Hrot _ vs w Hvs Hw).
    assert (Hxin : x ∉ take (S t') ns).
    { intros Hin. apply list_elem_of_lookup_1 in Hin as [j Hj].
      apply lookup_take_Some in Hj as [Hj Hjt].
      pose proof (dll_index_inj _ _ _ _ _ _ _ D Hj Hx). lia. }
    apply (dll_insert_rep h1 (with_len (with_tail l (Some nt)) (len l - 1))
             (take (S t') ns) (take (S t') vs) 0 x w);
      [exact D1|lia|exact Hxin| | | | |].
    + rewrite Hat4. destruct (decide (x = x)); [|congruence].
      cbn [pred_of]. rewrite lookup_take_lt by lia. now rewrite Hhd0.
    + intros j p wj Hp Hwj. rewrite Hat4.
      assert (Hpx : p <> x).
      { intros ->. apply Hxin. eapply list_elem_of_lookup_2, Hp. }
      destruct (decide (p = x)); [congruence|]. rewrite Hat3.
      destruct (decide (p = x)); [congruence|]. rewrite Hat2.
      pose proof (dll_nodes _ _ _ _ D1 j p wj Hp Hwj) as Hpn.
      destruct (decide (p = hd)) as [->|Hne].
      * assert (j = 0%nat).
        { apply (dll_index_inj _ _ _ _ _ _ _ D1 Hp). rewrite lookup_take_lt by lia.
          exact Hhd0. }
        subst j. rewrite Hnh in Hpn. assert (wh = wj) by congruence. subst wj.
        cbn [next value]. destruct (decide (0%nat = 0%nat)); [|lia].
        destruct (decide (1%nat = 0%nat)); [lia|]. reflexivity.
      * rewrite Hpn. destruct (decide (j = 0%nat)) as [->|_].
        { exfalso. apply Hne. rewrite lookup_take_lt in Hp by lia. congruence. }
        destruct (decide (S j = 0%nat)); [lia|reflexivity].
    + cbn [head with_head]. destruct (decide (0%nat = 0%nat)); [reflexivity|lia].
    + cbn [tail with_head with_tail with_len]. rewrite length_take.
      destruct (decide (0%nat = (S t' `min` length ns)%nat)); [lia|reflexivity].
    + cbn [len with_head with_tail with_len]. lia.
Qed.

Lemma dll_length_le h l ns vs : dll h l ns vs -> (length ns <= length h)%nat.
Proof.
  intros D.
  assert (Hsub : ns ⊆+ seq 0 (length h)).
  { apply NoDup_submseteq; [exact (dll_nodup _ _ _ _ D)|].
    intros p Hp. apply list_elem_of_lookup_1 in Hp as [k Hk].
    destruct (dll_node _ _ _ _ k p D Hk) as (w & _ & Hn). apply list_node_at_lt in Hn.
    apply elem_of_seq. lia. }
  apply submseteq_length in Hsub. now rewrite length_seq in Hsub.
Qed.

(** The test of [listSearchKey] on one value. *)
Definition key_hit (l : adlist) (key v : V) : bool :=
  match match_ l with
  | Some m => m v key
  | None => bool_decide (key = v)
  end.

Lemma search_loop_spec h l ns vs key :
  dll h l ns vs ->
  forall fuel k, (length ns - k < fuel)%nat ->
    search_loop fuel h l (mk_listIter (ns !! k) AL_START_HEAD) key
    = Some (fst <$> List.find (fun pv => key_hit l key (snd pv)) (drop k (zip ns vs))).
Proof.
  intros D. induction fuel as [|fuel IH]; intros k Hfuel; [lia|].
  cbn [search_loop]. unfold listNext. cbn [iter_next iter_direction].
  destruct (ns !! k) as [p|] eqn:Hp.
  - destruct (dll_node _ _ _ _ k p D Hp) as (w & Hw & Hn).
    rewrite Hn. cbn [mbind option_bind next value].
    assert (Hz : zip ns vs !! k = Some (p, w)).
    { rewrite lookup_zip_with, Hp, Hw. reflexivity. }
    rewrite (drop_S _ _ _ Hz). cbn [List.find snd].
    rewrite ?Hn. cbn [mbind option_bind value].
    change (match match_ l with
            | Some m => m w key
            | None => bool_decide (key = w)
            end) with (key_hit l key w).
    destruct (key_hit l key w).
    + reflexivity.
    + apply IH. apply lookup_lt_Some in Hp. lia.
  - cbn [mbind option_bind]. apply lookup_ge_None_1 in Hp.
    rewrite drop_ge; [reflexivity|].
    rewrite length_zip_with. lia.
Qed.

(** X30 — search.  On a well-formed list [listSearchKey] returns the first
    node, from the head on, whose value matches the key: by the match
    method of the list when it has one, by equality of the value and the
    key otherwise; and NULL when no value matches. *)
Theorem listSearchKey_first_match h l ns vs key :
  dll h l ns vs ->
  listSearchKey h l key
  = Some (fst <$> List.find (fun pv => key_hit l key (snd pv)) (zip ns vs)).
Proof.
  intros D. unfold listSearchKey, listGetIterator.
  rewrite (dll_head _ _ _ _ D).
  rewrite (search_loop_spec h l ns vs key D (S (length h)) 0).
  - now rewrite drop_0.
  - pose proof (dll_length_le h l ns vs D). lia.
Qed.

End AdList.

(** The list of 10, 20 and 30, built by three [listAddNodeTail] on the
    list of [listCreate()]. *)
Definition list_3 : list (option (@listNode Z)) * @adlist Z :=
  Eval vm_compute in
    default ([], listCreate)
      ('(h, l) ← listAddNodeTail [] listCreate 10;
       '(h, l) ← listAddNodeTail h l 20;
       listAddNodeTail h l 30).

Lemma list_3_dll : dll (fst list_3) (snd list_3) [0; 1; 2]%nat [10; 20; 30].
Proof.
  constructor; try reflexivity.
  - repeat constructor; rewrite ?elem_of_cons, ?elem_of_nil; intuition discriminate.
  - intros k p v Hp Hv.
    destruct k as [|[|[|k]]]; try discriminate;
      injection Hp as <-; injection Hv as <-; reflexivity.
Qed.

(** 40 at the tail and 5 at the head. *)
Lemma listAddNode_at_ends_witness :
  (exists h' l', listAddNodeHead (fst list_3) (snd list_3) 5 = Some (h', l')
                 /\ dll h' l' [3; 0; 1; 2]%nat [5; 10; 20; 30])
  /\ (exists h' l', listAddNodeTail (fst list_3) (snd list_3) 40 = Some (h', l')
                    /\ dll h' l' [0; 1; 2; 3]%nat [10; 20; 30; 40]).
Proof.
  split.
  - destruct (listAddNode_at_ends (fst list_3) (snd list_3) _ _ 5 list_3_dll)
      as [(h' & l' & Hrun & D' & _) _]; [cbn; lia|].
    exists h', l'. split; [exact Hrun|exact D'].
  - destruct (listAddNode_at_ends (fst list_3) (snd list_3) _ _ 40 list_3_dll)
      as [_ (h' & l' & Hrun & D' & _)]; [cbn; lia|].
    exists h', l'. split; [exact Hrun|exact D'].
Defined.

(** 25 behind the node of 20, and 15 in front of it. *)
Lemma listInsertNode_next_to_witness :
  (exists h' l', listInsertNode (fst list_3) (snd list_3) 1 25 true = Some (h', l')
                 /\ dll h' l' [0; 1; 3; 2]%nat [10; 20; 25; 30])
  /\ (exists h' l', listInsertNode (fst list_3) (snd list_3) 1 15 false = Some (h', l')
                    /\ dll h' l' [0; 3; 1; 2]%nat [10; 15; 20; 30]).
Proof.
  split.
  - destruct (listInsertNode_next_to (fst list_3) (snd list_3) _ _ 1%nat 1%nat 25 true
                list_3_dll) as (h' & l' & Hrun & D' & _); [cbn; lia|reflexivity|].
    exists h', l'. split; [exact Hrun|exact D'].
  - destruct (listInsertNode_next_to (fst list_3) (snd list_3) _ _ 1%nat 1%nat 15 false
                list_3_dll) as (h' & l' & Hrun & D' & _); [cbn; lia|reflexivity|].
    exists h', l'. split; [exact Hrun|exact D'].
Defined.

(** The node of 10, the head, removed. *)
Lemma listDelNode_unlinks_witness :
  exists h' l', listDelNode (fst list_3) (snd list_3) 0 = Some (h', l')
                /\ dll h' l' [1; 2]%nat [20; 30] /\ head l' = Some 1%nat.
Proof.
  destruct (listDelNode_unlinks (fst list_3) (snd list_3) _ _ 0%nat 0%nat list_3_dll)
    as (h' & l' & Hrun & D' & _); [cbn; lia|reflexivity|].
  exists h', l'. split; [exact Hrun|]. split; [exact D'|].
  apply (dll_head _ _ _ _ D').
Defined.

(** Index 1 is the node of 20, index -1 that of 30, index 3 and index -4
    are no node. *)
Lemma listIndex_place_witness :
  listIndex (fst list_3) (snd list_3) 1 = Some (Some 1%nat)
  /\ listIndex (fst list_3) (snd list_3) (-1) = Some (Some 2%nat)
  /\ listIndex (fst list_3) (snd list_3) 3 = Some None
  /\ listIndex (fst list_3) (snd list_3) (-4) = Some None.
Proof.
  split; [|split; [|split]].
  - rewrite (listIndex_place _ _ _ _ 1 list_3_dll) by lia. reflexivity.
  - rewrite (listIndex_place _ _ _ _ (-1) list_3_dll) by lia. reflexivity.
  - rewrite (listIndex_place _ _ _ _ 3 list_3_dll) by lia. reflexivity.
  - rewrite (listIndex_place _ _ _ _ (-4) list_3_dll) by lia. reflexivity.
Defined.

(** 30 moves in front of 10 and 20. *)
Lemma listRotate_moves_tail_witness :
  exists h' l', listRotate (fst list_3) (snd list_3) = Some (h', l')
                /\ dll h' l' [2; 0; 1]%nat [30; 10; 20].
Proof.
  destruct (listRotate_moves_tail (fst list_3) (snd list_3) _ _ list_3_dll)
    as (h' & l' & Hrun & D' & _).
  exists h', l'. split; [exact Hrun|exact D'].
Defined.

(** Without a match method 20 is found in the node at address 1, and 21 is
    not found. *)
Lemma listSearchKey_first_match_witness :
  listSearchKey (fst list_3) (snd list_3) 20 = Some (Some 1%nat)
  /\ listSearchKey (fst list_3) (snd list_3) 21 = Some None.
Proof.
  split.
  - rewrite (listSearchKey_first_match _ _ _ _ 20 list_3_dll). reflexivity.
  - rewrite (listSearchKey_first_match _ _ _ _ 21 list_3_dll). reflexivity.
Defined.

End Adlist.

(** ** Skip list (t_zset.c lines 64-880) *)

Module Zsl.
Import Double.

Definition ZSKIPLIST_MAXLEVEL : Z := 32.
(** [ZSKIPLIST_P] of redis.h is 0.25, written as the fraction 1/4. *)
Definition ZSKIPLIST_P_num : Z := 1.
Definition ZSKIPLIST_P_den : Z := 4.
Definition INT_MAX : Z := 2147483647.

(** What stops a run: an index outside a local array, a pointer that is
    NULL or dangling, an index outside a node's level array, a failed
    [redisAssert], a loop that outlives its fuel, a signed overflow, a
    random source with no draw left. *)
Inductive error :=
| OutOfBounds | BadPointer | BadLevel | AssertFailed | OutOfFuel | Overflow | NoDraw.

Definition M (A : Type) : Type := (error + A)%type.
Definition ret {A} (x : A) : M A := inr x.
Definition fail {A} (e : error) : M A := inl e.
Definition bind {A B} (m : M A) (k : A -> M B) : M B :=
  match m with
  | inl e => inl e
  | inr x => k x
  end.

Notation "x <- m ;; k" := (bind m (fun x => k))
  (at level 100, m at next level, right associativity).

(** An element: the bytes of the string object. *)
Abbreviation robj := (list Z) (only parsing).
Abbreviation ptr := nat (only parsing).

Record zskiplistLevel := mk_level {
  forward : option ptr;
  span : Z
}.

Record zskiplistNode := mk_node {
  obj : option (list Z);
  score : spec_float;
  backward : option ptr;
  level : list zskiplistLevel
}.

Record zskiplist := mk_zsl {
  header : ptr;
  tail : option ptr;
  length : Z;
  zsl_level : Z
}.

(** The heap of nodes: an address is an index, a freed node is [None]. *)
Abbreviation heap := (list (option zskiplistNode)) (only parsing).

Definition deref (h : heap) (p : ptr) : M zskiplistNode :=
  match h !! p with
  | Some (Some n) => ret n
  | _ => fail BadPointer
  end.

Definition deref_opt (h : heap) (p : option ptr) : M zskiplistNode :=
  match p with
  | Some p => deref h p
  | None => fail BadPointer
  end.

(** [x->level[i]]. *)
Definition get_level (n : zskiplistNode) (i : Z) : M zskiplistLevel :=
  if i <? 0 then fail BadLevel
  else match level n !! Z.to_nat i with
       | Some lv => ret lv
       | None => fail BadLevel
       end.

(** [x->level[i] = lv] for the node at [p]. *)
Definition set_level (h : heap) (p : ptr) (i : Z) (lv : zskiplistLevel) : M heap :=
  n <- deref h p;;
  _ <- get_level n i;;
  ret (<[p := Some (mk_node (obj n) (score n) (backward n)
                            (<[Z.to_nat i := lv]> (level n)))]> h).

Definition set_backward (h : heap) (p : ptr) (b : option ptr) : M heap :=
  n <- deref h p;;
  ret (<[p := Some (mk_node (obj n) (score n) b (level n))]> h).

(** [zfree(node)]. *)
Definition free (h : heap) (p : ptr) : M heap :=
  _ <- deref h p;; ret (<[p := None]> h).

(** Local arrays [update[ZSKIPLIST_MAXLEVEL]] and [rank[ZSKIPLIST_MAXLEVEL]]. *)
Definition arr_get {A} (a : list A) (i : Z) : M A :=
  if i <? 0 then fail OutOfBounds
  else match a !! Z.to_nat i with
       | Some x => ret x
       | None => fail OutOfBounds
       end.

Definition arr_set {A} (a : list A) (i : Z) (x : A) : M (list A) :=
  if (0 <=? i) && (i <? Z.of_nat (List.length a)) then ret (<[Z.to_nat i := x]> a)
  else fail OutOfBounds.

(** [zslCreateNode(level, score, obj)]: a fresh address; the level array is
    not initialized. *)
Definition zslCreateNode (h : heap) (lvl : Z) (sc : spec_float) (o : option (list Z))
  : heap * ptr :=
  (h ++ [Some (mk_node o sc None (replicate (Z.to_nat lvl) (mk_level None 0)))],
   List.length h).

(** [zslCreate()]. *)
Definition zslCreate (h : heap) : heap * zskiplist :=
  let '(h, hd) := zslCreateNode h ZSKIPLIST_MAXLEVEL pos_zero None in
  (h, mk_zsl hd None 0 1).

(** The [while] loop of [zslRandomLevel] over the draws of [random()] that
    are left; [level += 1] overflowing an [int] is undefined. *)
Fixpoint random_level_loop (draws : list Z) (lvl : Z) : M (Z * list Z) :=
  match draws with
  | [] => fail NoDraw
  | r :: draws' =>
      if Z.land r 0xFFFF * ZSKIPLIST_P_den <? ZSKIPLIST_P_num * 0xFFFF then
        if lvl + 1 >? INT_MAX then fail Overflow
        else random_level_loop draws' (lvl + 1)
      else ret (lvl, draws')
  end.

(** [zslRandomLevel()]: the level and the draws that are left. *)
Definition zslRandomLevel (draws : list Z) : M (Z * list Z) :=
  r <- random_level_loop draws 1;;
  let '(lvl, draws) := r in
  ret (if lvl <? ZSKIPLIST_MAXLEVEL then lvl else ZSKIPLIST_MAXLEVEL, draws).

Definition get_forward (h : heap) (p : ptr) (i : Z) : M (option ptr) :=
  n <- deref h p;; lv <- get_level n i;; ret (forward lv).
Definition get_span (h : heap) (p : ptr) (i : Z) : M Z :=
  n <- deref h p;; lv <- get_level n i;; ret (span lv).
Definition set_forward (h : heap) (p : ptr) (i : Z) (f : option ptr) : M heap :=
  n <- deref h p;; lv <- get_level n i;; set_level h p i (mk_level f (span lv)).
Definition set_span (h : heap) (p : ptr) (i : Z) (s : Z) : M heap :=
  n <- deref h p;; lv <- get_level n i;; set_level h p i (mk_level (forward lv) (u32 s)).

Definition some_ptr (p : option ptr) : M ptr :=
  match p with Some p => ret p | None => fail BadPointer end.

(** The loop that all the searches share:
    [while (x->level[i].forward && P(x->level[i].forward))
       { acc += x->level[i].span; x = x->level[i].forward; }]
    It returns the node it stops on and [acc] plus the spans it crossed
    (the caller reduces the sum to the width of its counter). *)
Fixpoint walk (fuel : nat) (h : heap) (P : zskiplistNode -> M bool)
  (x : ptr) (i : Z) (acc : Z) : M (ptr * Z) :=
  xn <- deref h x;;
  lv <- get_level xn i;;
  match forward lv with
  | None => ret (x, acc)
  | Some f =>
      fn <- deref h f;;
      b <- P fn;;
      if b then
        match fuel with
        | O => fail OutOfFuel
        | S fuel' => walk fuel' h P f i (acc + span lv)
        end
      else ret (x, acc)
  end.

Section Compare.

(** [compareStringObjects] of object.c is not among the sources: the
    byte-lexicographic comparison of two elements, negative, zero or
    positive. *)
Variable compareStringObjects : list Z -> list Z -> Z.

(** Modelled from the spec: [equalStringObjects] of object.c is not among the
    sources; two elements are equal when they compare as equal. *)
Definition equalStringObjects (a b : list Z) : bool :=
  compareStringObjects a b =? 0.

Definition node_obj (n : zskiplistNode) : M (list Z) :=
  match obj n with Some o => ret o | None => fail BadPointer end.

(** [forward->score < score || (forward->score == score &&
     compareStringObjects(forward->obj, obj) < 0)]. *)
Definition key_before (sc : spec_float) (o : list Z) (fn : zskiplistNode) : M bool :=
  fo <- node_obj fn;;
  ret (dlt (score fn) sc || (deq (score fn) sc && (compareStringObjects fo o <? 0))).

(** The same with [<= 0], as [zslGetRank] has it. *)
Definition key_before_eq (sc : spec_float) (o : list Z) (fn : zskiplistNode) : M bool :=
  fo <- node_obj fn;;
  ret (dlt (score fn) sc || (deq (score fn) sc && (compareStringObjects fo o <=? 0))).

(** The first [for] loop of [zslInsert], from level [n-1] down to 0. *)
Fixpoint insert_search (n : nat) (h : heap) (zsl : zskiplist) (sc : spec_float)
  (o : list Z) (x : ptr) (update : list (option ptr)) (rank : list Z)
  : M (ptr * list (option ptr) * list Z) :=
  match n with
  | O => ret (x, update, rank)
  | S n' =>
      let i := Z.of_nat n' in
      (* store rank that is crossed to reach the insert position *)
      r0 <- (if i =? zsl_level zsl - 1 then ret 0 else arr_get rank (i + 1));;
      rank <- arr_set rank i r0;;
      w <- walk (List.length h) h (key_before sc o) x i r0;;
      let '(x, ri) := w in
      rank <- arr_set rank i (u32 ri);;
      update <- arr_set update i (Some x);;
      insert_search n' h zsl sc o x update rank
  end.

(** [for (i = zsl->level; i < level; i++)] of [zslInsert]. *)
Fixpoint insert_raise (n : nat) (i : Z) (h : heap) (zsl : zskiplist)
  (update : list (option ptr)) (rank : list Z)
  : M (heap * list (option ptr) * list Z) :=
  match n with
  | O => ret (h, update, rank)
  | S n' =>
      rank <- arr_set rank i 0;;
      update <- arr_set update i (Some (header zsl));;
      h <- set_span h (header zsl) i (length zsl);;
      insert_raise n' (i + 1) h zsl update rank
  end.

(** [for (i = 0; i < level; i++)] of [zslInsert]: the splice. *)
Fixpoint insert_splice (n : nat) (i : Z) (h : heap) (x : ptr)
  (update : list (option ptr)) (rank : list Z) : M heap :=
  match n with
  | O => ret h
  | S n' =>
      u <- arr_get update i;; u <- some_ptr u;;
      f <- get_forward h u i;;
      h <- set_forward h x i f;;
      h <- set_forward h u i (Some x);;
      (* update span covered by update[i] as x is inserted here *)
      us <- get_span h u i;;
      r0 <- arr_get rank 0;; ri <- arr_get rank i;;
      h <- set_span h x i (us - u32 (r0 - ri));;
      h <- set_span h u i (u32 (r0 - ri) + 1);;
      insert_splice n' (i + 1) h x update rank
  end.

(** [for (i = level; i < zsl->level; i++) update[i]->level[i].span++;]. *)
Fixpoint insert_bump (n : nat) (i : Z) (h : heap) (update : list (option ptr)) : M heap :=
  match n with
  | O => ret h
  | S n' =>
      u <- arr_get update i;; u <- some_ptr u;;
      us <- get_span h u i;;
      h <- set_span h u i (us + 1);;
      insert_bump n' (i + 1) h update
  end.

(** [zslInsert(zsl, score, obj)]: the heap, the list, the new node and the
    draws that are left. *)
Definition zslInsert (h : heap) (zsl : zskiplist) (sc : spec_float) (o : list Z)
  (draws : list Z) : M (heap * zskiplist * ptr * list Z) :=
  if isnan sc then fail AssertFailed else
  let update := replicate (Z.to_nat ZSKIPLIST_MAXLEVEL) None in
  let rank := replicate (Z.to_nat ZSKIPLIST_MAXLEVEL) 0 in
  s <- insert_search (Z.to_nat (zsl_level zsl)) h zsl sc o (header zsl) update rank;;
  let '(_, update, rank) := s in
  r <- zslRandomLevel draws;;
  let '(lvl, draws) := r in
  s <- (if lvl >? zsl_level zsl
        then insert_raise (Z.to_nat (lvl - zsl_level zsl)) (zsl_level zsl) h zsl update rank
        else ret (h, update, rank));;
  let '(h, update, rank) := s in
  let zl := if lvl >? zsl_level zsl then lvl else zsl_level zsl in
  let '(h, x) := zslCreateNode h lvl sc (Some o) in
  h <- insert_splice (Z.to_nat lvl) 0 h x update rank;;
  (* increment span for untouched levels *)
  h <- insert_bump (Z.to_nat (zl - lvl)) lvl h update;;
  u0 <- arr_get update 0;; u0 <- some_ptr u0;;
  h <- set_backward h x (if Nat.eqb u0 (header zsl) then None else Some u0);;
  f0 <- get_forward h x 0;;
  match f0 with
  | Some f =>
      h <- set_backward h f (Some x);;
      ret (h, mk_zsl (header zsl) (tail zsl) (u64 (length zsl + 1)) zl, x, draws)
  | None =>
      ret (h, mk_zsl (header zsl) (Some x) (u64 (length zsl + 1)) zl, x, draws)
  end.

(** [for (i = 0; i < zsl->level; i++)] of [zslDeleteNode]. *)
Fixpoint delete_unlink (n : nat) (i : Z) (h : heap) (x : ptr)
  (update : list (option ptr)) : M heap :=
  match n with
  | O => ret h
  | S n' =>
      u <- arr_get update i;; u <- some_ptr u;;
      f <- get_forward h u i;;
      h <- (match f with
            | Some f' =>
                if Nat.eqb f' x then
                  us <- get_span h u i;; xs <- get_span h x i;;
                  h <- set_span h u i (us + u32 (xs - 1));;
                  xf <- get_forward h x i;;
                  set_forward h u i xf
                else
                  us <- get_span h u i;; set_span h u i (us - 1)
            | None => us <- get_span h u i;; set_span h u i (us - 1)
            end);;
      delete_unlink n' (i + 1) h x update
  end.

(** [while(zsl->level > 1 && zsl->header->level[zsl->level-1].forward == NULL)
      zsl->level--;]. *)
Fixpoint delete_lower (fuel : nat) (h : heap) (hd : ptr) (lvl : Z) : M Z :=
  match fuel with
  | O => fail OutOfFuel
  | S fuel' =>
      if lvl >? 1 then
        f <- get_forward h hd (lvl - 1);;
        match f with
        | None => delete_lower fuel' h hd (lvl - 1)
        | Some _ => ret lvl
        end
      else ret lvl
  end.

(** [zslDeleteNode(zsl, x, update)]. *)
Definition zslDeleteNode (h : heap) (zsl : zskiplist) (x : ptr)
  (update : list (option ptr)) : M (heap * zskiplist) :=
  h <- delete_unlink (Z.to_nat (zsl_level zsl)) 0 h x update;;
  xn <- deref h x;;
  f0 <- get_forward h x 0;;
  s <- (match f0 with
        | Some f => h <- set_backward h f (backward xn);; ret (h, tail zsl)
        | None => ret (h, backward xn)
        end);;
  let '(h, tl) := s in
  lvl <- delete_lower (S (Z.to_nat (zsl_level zsl))) h (header zsl) (zsl_level zsl);;
  ret (h, mk_zsl (header zsl) tl (u64 (length zsl - 1)) lvl).

(** The search loop of [zslDelete] and of the range deletions: it fills
    [update] from level [n-1] down to 0. *)
Fixpoint update_search (n : nat) (h : heap) (P : zskiplistNode -> M bool)
  (x : ptr) (update : list (option ptr)) : M (ptr * list (option ptr)) :=
  match n with
  | O => ret (x, update)
  | S n' =>
      let i := Z.of_nat n' in
      w <- walk (List.length h) h P x i 0;;
      let '(x, _) := w in
      update <- arr_set update i (Some x);;
      update_search n' h P x update
  end.

(** [zslFreeNode(node)]: the element's reference is dropped and the node
    freed. *)
Definition zslFreeNode (h : heap) (x : ptr) : M heap := free h x.

(** [zslDelete(zsl, score, obj)]: 1 when the element was found. *)
Definition zslDelete (h : heap) (zsl : zskiplist) (sc : spec_float) (o : list Z)
  : M (heap * zskiplist * Z) :=
  let update := replicate (Z.to_nat ZSKIPLIST_MAXLEVEL) None in
  s <- update_search (Z.to_nat (zsl_level zsl)) h (key_before sc o) (header zsl) update;;
  let '(x, update) := s in
  (* We may have multiple elements with the same score, what we need
     is to find the element with both the right score and object. *)
  x <- get_forward h x 0;;
  match x with
  | None => ret (h, zsl, 0)
  | Some x =>
      xn <- deref h x;;
      xo <- node_obj xn;;
      if deq sc (score xn) && equalStringObjects xo o then
        s <- zslDeleteNode h zsl x update;;
        let '(h, zsl) := s in
        h <- zslFreeNode h x;;
        ret (h, zsl, 1)
      else ret (h, zsl, 0)
  end.

(** The [for] loop of [zslGetRank], from level [n-1] down to 0. *)
Fixpoint rank_search (n : nat) (h : heap) (sc : spec_float) (o : list Z)
  (x : ptr) (rank : Z) : M Z :=
  match n with
  | O => ret 0
  | S n' =>
      let i := Z.of_nat n' in
      w <- walk (List.length h) h (key_before_eq sc o) x i rank;;
      let '(x, rank) := w in
      let rank := u64 rank in
      (* x might be equal to zsl->header, so test if obj is non-NULL *)
      xn <- deref h x;;
      match obj xn with
      | Some xo => if equalStringObjects xo o then ret rank
                   else rank_search n' h sc o x rank
      | None => rank_search n' h sc o x rank
      end
  end.

(** [zslGetRank(zsl, score, o)]. *)
Definition zslGetRank (h : heap) (zsl : zskiplist) (sc : spec_float) (o : list Z) : M Z :=
  rank_search (Z.to_nat (zsl_level zsl)) h sc o (header zsl) 0.

(** [while (x->level[i].forward && cond(traversed + x->level[i].span))
      { traversed += x->level[i].span; x = x->level[i].forward; }]
    with an [unsigned long] counter. *)
Fixpoint walk_rank (fuel : nat) (h : heap) (cond : Z -> bool)
  (x : ptr) (i : Z) (traversed : Z) : M (ptr * Z) :=
  xn <- deref h x;;
  lv <- get_level xn i;;
  match forward lv with
  | None => ret (x, traversed)
  | Some f =>
      if cond (u64 (traversed + span lv)) then
        match fuel with
        | O => fail OutOfFuel
        | S fuel' => walk_rank fuel' h cond f i (u64 (traversed + span lv))
        end
      else ret (x, traversed)
  end.

Fixpoint element_search (n : nat) (h : heap) (rank : Z) (x : ptr) (traversed : Z)
  : M (option ptr) :=
  match n with
  | O => ret None
  | S n' =>
      let i := Z.of_nat n' in
      w <- walk_rank (List.length h) h (fun t => t <=? rank) x i traversed;;
      let '(x, traversed) := w in
      if traversed =? rank then ret (Some x)
      else element_search n' h rank x traversed
  end.

(** [zslGetElementByRank(zsl, rank)]. *)
Definition zslGetElementByRank (h : heap) (zsl : zskiplist) (rank : Z) : M (option ptr) :=
  element_search (Z.to_nat (zsl_level zsl)) h rank (header zsl) 0.

(** *** Lexicographic ranges *)

(** A range bound: one of the shared sentinels [shared.minstring] and
    [shared.maxstring], or a string object of its own. *)
Inductive lexbound :=
| Minstring
| Maxstring
| Lexstr (s : list Z).

Record zlexrangespec := mk_lexrange {
  min : lexbound;
  max : lexbound;
  minex : bool;
  maxex : bool
}.

(** The strings the two shared sentinel objects hold (set up in redis.c,
    which is not among the sources). *)
Variables minstring maxstring : list Z.

Definition bound_obj (b : lexbound) : list Z :=
  match b with
  | Minstring => minstring
  | Maxstring => maxstring
  | Lexstr s => s
  end.

(** [a == b] on the object pointers: only a sentinel is shared. *)
Definition same_object (a b : lexbound) : bool :=
  match a, b with
  | Minstring, Minstring | Maxstring, Maxstring => true
  | _, _ => false
  end.

Definition is_minstring (a : lexbound) : bool :=
  match a with Minstring => true | _ => false end.
Definition is_maxstring (a : lexbound) : bool :=
  match a with Maxstring => true | _ => false end.

(** [compareStringObjectsForLexRange(a, b)]. *)
Definition compareStringObjectsForLexRange (a b : lexbound) : Z :=
  if same_object a b then 0
  else if is_minstring a || is_maxstring b then -1
  else if is_maxstring a || is_minstring b then 1
  else compareStringObjects (bound_obj a) (bound_obj b).

Definition zslLexValueGteMin (value : list Z) (spec : zlexrangespec) : bool :=
  if minex spec
  then compareStringObjectsForLexRange (Lexstr value) (min spec) >? 0
  else compareStringObjectsForLexRange (Lexstr value) (min spec) >=? 0.

Definition zslLexValueLteMax (value : list Z) (spec : zlexrangespec) : bool :=
  if maxex spec
  then compareStringObjectsForLexRange (Lexstr value) (max spec) <? 0
  else compareStringObjectsForLexRange (Lexstr value) (max spec) <=? 0.

(** [zslIsInLexRange(zsl, range)]. *)
Definition zslIsInLexRange (h : heap) (zsl : zskiplist) (range : zlexrangespec) : M bool :=
  (* Test for ranges that will always be empty. *)
  if (compareStringObjectsForLexRange (min range) (max range) >? 1)
     || ((compareStringObjects (bound_obj (min range)) (bound_obj (max range)) =? 0)
         && (minex range || maxex range))
  then ret false
  else
    match tail zsl with
    | None => ret false
    | Some x =>
        xn <- deref h x;; xo <- node_obj xn;;
        if negb (zslLexValueGteMin xo range) then ret false
        else
          f <- get_forward h (header zsl) 0;;
          match f with
          | None => ret false
          | Some x =>
              xn <- deref h x;; xo <- node_obj xn;;
              ret (zslLexValueLteMax xo range)
          end
    end.

(** The [for] loop of [zslFirstInLexRange]. *)
Fixpoint search_levels (n : nat) (h : heap) (P : zskiplistNode -> M bool) (x : ptr)
  : M ptr :=
  match n with
  | O => ret x
  | S n' =>
      w <- walk (List.length h) h P x (Z.of_nat n') 0;;
      search_levels n' h P (fst w)
  end.

(** [!zslLexValueGteMin(x->level[i].forward->obj, range)]. *)
Definition lex_before_min (range : zlexrangespec) (fn : zskiplistNode) : M bool :=
  fo <- node_obj fn;; ret (negb (zslLexValueGteMin fo range)).

(** [zslFirstInLexRange(zsl, range)]; [None] is the NULL result. *)
Definition zslFirstInLexRange (h : heap) (zsl : zskiplist) (range : zlexrangespec)
  : M (option ptr) :=
  (* If everything is out of range, return early. *)
  inr_ <- zslIsInLexRange h zsl range;;
  if negb inr_ then ret None
  else
    x <- search_levels (Z.to_nat (zsl_level zsl)) h (lex_before_min range) (header zsl);;
    (* This is an inner range, so the next node cannot be NULL. *)
    x <- get_forward h x 0;;
    match x with
    | None => fail AssertFailed
    | Some x =>
        xn <- deref h x;; xo <- node_obj xn;;
        (* Check if score <= max. *)
        if negb (zslLexValueLteMax xo range) then ret None else ret (Some x)
    end.

End Compare.

(** *** Array bounds and level bounds of [zslInsert] *)

(** [post Q m]: the run [m] does not index a local array out of bounds, and
    when it returns its result satisfies [Q]. *)
Definition post {A} (Q : A -> Prop) (m : M A) : Prop :=
  match m with
  | inl e => e <> OutOfBounds
  | inr a => Q a
  end.

Lemma post_bind {A B} (Q1 : A -> Prop) (Q2 : B -> Prop) (m : M A) (k : A -> M B) :
  post Q1 m -> (forall a, Q1 a -> post Q2 (k a)) -> post Q2 (bind m k).
Proof. destruct m as [e|a]; cbn; auto. Qed.

Lemma post_weaken {A} (Q1 Q2 : A -> Prop) (m : M A) :
  post Q1 m -> (forall a, Q1 a -> Q2 a) -> post Q2 m.
Proof. destruct m as [e|a]; cbn; auto. Qed.

Lemma post_ret {A} (Q : A -> Prop) (a : A) : Q a -> post Q (ret a).
Proof. auto. Qed.

(** The node at [p] is live and has [L] levels. *)
Definition height_at (h : heap) (p : ptr) (L : nat) : Prop :=
  exists n, h !! p = Some (Some n) /\ List.length (level n) = L.

Definition heights_kept (h h' : heap) : Prop :=
  forall p L, height_at h p L -> height_at h' p L.

Lemma heights_kept_refl h : heights_kept h h.
Proof. intros p L H; exact H. Qed.

Lemma heights_kept_trans h1 h2 h3 :
  heights_kept h1 h2 -> heights_kept h2 h3 -> heights_kept h1 h3.
Proof. intros H1 H2 p L H. auto. Qed.

Lemma post_deref h p : post (fun n => h !! p = Some (Some n)) (deref h p).
Proof. unfold deref. destruct (h !! p) as [[n|]|]; cbn; congruence. Qed.

Lemma post_get_level n i : post (fun _ => True) (get_level n i).
Proof.
  unfold get_level. destruct (i <? 0); cbn; [congruence|].
  destruct (level n !! Z.to_nat i); cbn; [auto|congruence].
Qed.

Lemma post_set_level h p i lv : post (heights_kept h) (set_level h p i lv).
Proof.
  unfold set_level. eapply post_bind; [apply post_deref|]. intros n Hn.
  eapply post_bind; [apply post_get_level|]. intros _ _. apply post_ret.
  intros q L (m & Hm & HL).
  destruct (decide (q = p)) as [->|Hne].
  - rewrite Hn in Hm. injection Hm as <-.
    eexists. rewrite list_lookup_insert_eq by (now apply lookup_lt_Some in Hn).
    split; [reflexivity|]. cbn [level]. now rewrite length_insert.
  - exists m. now rewrite list_lookup_insert_ne by congruence.
Qed.

Lemma post_get_forward h p i : post (fun _ => True) (get_forward h p i).
Proof.
  unfold get_forward. eapply post_bind; [apply post_deref|]. intros n _.
  eapply post_bind; [apply post_get_level|]. intros; now apply post_ret.
Qed.

Lemma post_get_span h p i : post (fun _ => True) (get_span h p i).
Proof.
  unfold get_span. eapply post_bind; [apply post_deref|]. intros n _.
  eapply post_bind; [apply post_get_level|]. intros; now apply post_ret.
Qed.

Lemma post_set_forward h p i f : post (heights_kept h) (set_forward h p i f).
Proof.
  unfold set_forward. eapply post_bind; [apply post_deref|]. intros n _.
  eapply post_bind; [apply post_get_level|]. intros lv _. apply post_set_level.
Qed.

Lemma post_set_span h p i s : post (heights_kept h) (set_span h p i s).
Proof.
  unfold set_span. eapply post_bind; [apply post_deref|]. intros n _.
  eapply post_bind; [apply post_get_level|]. intros lv _. apply post_set_level.
Qed.

Lemma post_set_backward h p b : post (heights_kept h) (set_backward h p b).
Proof.
  unfold set_backward. eapply post_bind; [apply post_deref|]. intros n Hn.
  apply post_ret. intros q L (m & Hm & HL).
  destruct (decide (q = p)) as [->|Hne].
  - rewrite Hn in Hm. injection Hm as <-.
    eexists. rewrite list_lookup_insert_eq by (now apply lookup_lt_Some in Hn).
    split; [reflexivity|]. exact HL.
  - exists m. now rewrite list_lookup_insert_ne by congruence.
Qed.

Lemma post_some_ptr p : post (fun _ => True) (some_ptr p).
Proof. destruct p; cbn; [auto|congruence]. Qed.

Lemma post_arr_get {A} (a : list A) i :
  0 <= i < Z.of_nat (List.length a) -> post (fun _ => True) (arr_get a i).
Proof.
  intros Hi. unfold arr_get. destruct (Z.ltb_spec i 0); [lia|].
  destruct (lookup_lt_is_Some_2 a (Z.to_nat i)) as [x ->]; [lia|]. cbn. auto.
Qed.

Lemma post_arr_set {A} (a : list A) i x :
  0 <= i < Z.of_nat (List.length a) ->
  post (fun a' => List.length a' = List.length a) (arr_set a i x).
Proof.
  intros Hi. unfold arr_set.
  destruct (Z.leb_spec 0 i); [|lia]. destruct (Z.ltb_spec i (Z.of_nat (List.length a))); [|lia].
  cbn. apply length_insert.
Qed.

Lemma post_walk P : (forall n, post (fun _ => True) (P n)) ->
  forall fuel h x i acc, post (fun _ => True) (walk fuel h P x i acc).
Proof.
  intros HP. induction fuel as [|fuel IH]; intros h x i acc; cbn [walk].
  - eapply post_bind; [apply post_deref|]. intros n _.
    eapply post_bind; [apply post_get_level|]. intros lv _.
    destruct (forward lv); [|now apply post_ret].
    eapply post_bind; [apply post_deref|]. intros fn _.
    eapply post_bind; [apply HP|]. intros [] _; cbn; [congruence|auto].
  - eapply post_bind; [apply post_deref|]. intros n _.
    eapply post_bind; [apply post_get_level|]. intros lv _.
    destruct (forward lv); [|now apply post_ret].
    eapply post_bind; [apply post_deref|]. intros fn _.
    eapply post_bind; [apply HP|]. intros [] _; [apply IH|now apply post_ret].
Qed.

Lemma post_key_before cmp sc o n : post (fun _ => True) (key_before cmp sc o n).
Proof.
  unfold key_before, node_obj. destruct (obj n); cbn; [auto|congruence].
Qed.

(** Both local arrays have [ZSKIPLIST_MAXLEVEL] slots. *)
Definition arrs_ok (update : list (option nat)) (rank : list Z) : Prop :=
  Z.of_nat (List.length update) = ZSKIPLIST_MAXLEVEL /\
  Z.of_nat (List.length rank) = ZSKIPLIST_MAXLEVEL.

Lemma post_insert_search cmp n : forall h zsl sc o x update rank,
  arrs_ok update rank ->
  Z.of_nat n <= zsl_level zsl <= ZSKIPLIST_MAXLEVEL ->
  post (fun r => arrs_ok (snd (fst r)) (snd r))
       (insert_search cmp n h zsl sc o x update rank).
Proof.
  unfold arrs_ok, ZSKIPLIST_MAXLEVEL.
  induction n as [|n IH]; intros h zsl sc o x update rank [Hu Hr] Hn.
  - apply post_ret. split; assumption.
  - cbn [insert_search].
    eapply post_bind with (Q1 := fun _ => True).
    { destruct (Z.eqb_spec (Z.of_nat n) (zsl_level zsl - 1)); [now apply post_ret|].
      apply post_arr_get. cbn beta in *; lia. }
    intros r0 _.
    eapply post_bind; [apply post_arr_set; cbn beta in *; lia|].
    intros rank1 Hr1.
    eapply post_bind; [apply post_walk; intros; apply post_key_before|].
    intros [x1 ri] _.
    eapply post_bind; [apply post_arr_set; cbn beta in *; lia|].
    intros rank2 Hr2.
    eapply post_bind; [apply post_arr_set; cbn beta in *; lia|].
    intros update1 Hu1. apply IH; [|lia].
    cbn beta in *; split; congruence.
Qed.

Lemma post_insert_raise n : forall i h zsl update rank,
  arrs_ok update rank -> 0 <= i -> i + Z.of_nat n <= ZSKIPLIST_MAXLEVEL ->
  post (fun r => heights_kept h (fst (fst r)) /\ arrs_ok (snd (fst r)) (snd r))
       (insert_raise n i h zsl update rank).
Proof.
  unfold arrs_ok, ZSKIPLIST_MAXLEVEL.
  induction n as [|n IH]; intros i h zsl update rank [Hu Hr] Hi Hn.
  - apply post_ret. split; [apply heights_kept_refl|split; assumption].
  - cbn [insert_raise].
    eapply post_bind; [apply post_arr_set; cbn beta in *; lia|]. intros rank1 Hr1.
    eapply post_bind; [apply post_arr_set; cbn beta in *; lia|]. intros update1 Hu1.
    eapply post_bind; [apply post_set_span|]. intros h1 Hh1.
    eapply post_weaken; [apply IH; [cbn beta in *; split; congruence|lia|lia]|].
    intros r [Hk Ha]. split; [eapply heights_kept_trans; eassumption|exact Ha].
Qed.

Lemma post_insert_splice n : forall i h x update rank,
  arrs_ok update rank -> 0 <= i -> i + Z.of_nat n <= ZSKIPLIST_MAXLEVEL ->
  post (heights_kept h) (insert_splice n i h x update rank).
Proof.
  unfold arrs_ok, ZSKIPLIST_MAXLEVEL.
  induction n as [|n IH]; intros i h x update rank Ha Hi Hn.
  - apply post_ret, heights_kept_refl.
  - pose proof Ha as [Hu Hr]. cbn [insert_splice].
    eapply post_bind; [apply post_arr_get; cbn beta in *; lia|]. intros u _.
    eapply post_bind; [apply post_some_ptr|]. intros u' _.
    eapply post_bind; [apply post_get_forward|]. intros f _.
    eapply post_bind; [apply post_set_forward|]. intros h1 H1.
    eapply post_bind; [apply post_set_forward|]. intros h2 H2.
    eapply post_bind; [apply post_get_span|]. intros us _.
    eapply post_bind; [apply post_arr_get; cbn beta in *; lia|]. intros r0 _.
    eapply post_bind; [apply post_arr_get; cbn beta in *; lia|]. intros ri _.
    eapply post_bind; [apply post_set_span|]. intros h3 H3.
    eapply post_bind; [apply post_set_span|]. intros h4 H4.
    eapply post_weaken; [apply IH; [exact Ha|lia|lia]|].
    intros h5 H5 q L Hq. apply H5, H4, H3, H2, H1, Hq.
Qed.

Lemma post_insert_bump n : forall i h update,
  Z.of_nat (List.length update) = ZSKIPLIST_MAXLEVEL ->
  0 <= i -> i + Z.of_nat n <= ZSKIPLIST_MAXLEVEL ->
  post (heights_kept h) (insert_bump n i h update).
Proof.
  unfold arrs_ok, ZSKIPLIST_MAXLEVEL.
  induction n as [|n IH]; intros i h update Hu Hi Hn.
  - apply post_ret, heights_kept_refl.
  - cbn [insert_bump].
    eapply post_bind; [apply post_arr_get; cbn beta in *; lia|]. intros u _.
    eapply post_bind; [apply post_some_ptr|]. intros u' _.
    eapply post_bind; [apply post_get_span|]. intros us _.
    eapply post_bind; [apply post_set_span|]. intros h1 H1.
    eapply post_weaken; [apply IH; [exact Hu|lia|lia]|].
    intros h2 H2. eapply heights_kept_trans; eassumption.
Qed.

(** A draw on which the loop of [zslRandomLevel] goes on. *)
Definition draw_low (r : Z) : bool :=
  Z.land r 0xFFFF * ZSKIPLIST_P_den <? ZSKIPLIST_P_num * 0xFFFF.

Lemma random_level_loop_ge draws : forall lvl,
  post (fun r => lvl <= fst r) (random_level_loop draws lvl).
Proof.
  induction draws as [|r draws IH]; intros lvl; cbn [random_level_loop].
  - cbn. congruence.
  - destruct (_ <? _).
    + destruct (lvl + 1 >? INT_MAX); [cbn; congruence|].
      eapply post_weaken; [apply IH|]. cbn. intros; lia.
    + apply post_ret. cbn. lia.
Qed.

Lemma post_zslRandomLevel draws :
  post (fun r => 1 <= fst r <= ZSKIPLIST_MAXLEVEL) (zslRandomLevel draws).
Proof.
  unfold zslRandomLevel.
  eapply post_bind; [apply random_level_loop_ge|]. intros [lvl rest] Hl.
  apply post_ret. cbn in *. unfold ZSKIPLIST_MAXLEVEL.
  destruct (Z.ltb_spec lvl 32); lia.
Qed.

Lemma random_level_loop_run low : forall lvl r rest,
  Forall (fun d => draw_low d = true) low -> draw_low r = false ->
  lvl + Z.of_nat (List.length low) <= INT_MAX ->
  random_level_loop (low ++ r :: rest) lvl = inr (lvl + Z.of_nat (List.length low), rest).
Proof.
  induction low as [|d low IH]; intros lvl r rest Hlow Hr Hlen.
  - cbn [app random_level_loop]. unfold draw_low in Hr. rewrite Hr.
    cbn [List.length]. unfold ret. do 2 f_equal. lia.
  - inversion Hlow as [|? ? Hd Hlow']; subst.
    cbn [app random_level_loop List.length] in *. unfold draw_low in Hd. rewrite Hd.
    destruct (Z.gtb_spec (lvl + 1) INT_MAX); [lia|].
    rewrite IH by (auto; lia). do 2 f_equal. lia.
Qed.

Lemma height_at_new h lvl sc o :
  height_at (fst (zslCreateNode h lvl sc o)) (snd (zslCreateNode h lvl sc o)) (Z.to_nat lvl).
Proof.
  cbn. eexists. split; [apply list_lookup_middle; reflexivity|].
  cbn. apply length_replicate.
Qed.

Lemma delete_lower_bounds fuel h hd : forall lvl,
  post (fun l => l <= lvl /\ (1 <= lvl -> 1 <= l)) (delete_lower fuel h hd lvl).
Proof.
  induction fuel as [|fuel IH]; intros lvl; cbn [delete_lower].
  - cbn. congruence.
  - destruct (Z.gtb_spec lvl 1); [|apply post_ret; lia].
    eapply post_bind; [apply post_get_forward|]. intros [f|] _; [apply post_ret; lia|].
    eapply post_weaken; [apply IH|]. cbn. intros; lia.
Qed.

(** Modelled from the spec: the "byte-lexicographic comparison of the element
    payload" ([compareStringObjects] of object.c, not among the sources):
    [memcmp] over the common length, then the difference of the lengths. *)
Fixpoint memcmp (a b : list Z) : Z :=
  match a, b with
  | x :: a', y :: b' => if x =? y then memcmp a' b' else x - y
  | _, _ => 0
  end.

Definition compareStringObjects_bytes (a b : list Z) : Z :=
  let cmp := memcmp a b in
  if cmp =? 0 then Z.of_nat (List.length a) - Z.of_nat (List.length b) else cmp.

(** The nodes in list order: the level-0 chain behind the node at [x]. *)
Fixpoint nodes_after (fuel : nat) (h : list (option zskiplistNode)) (x : nat) : list nat :=
  match fuel with
  | O => []
  | S fuel' =>
      match get_forward h x 0 with
      | inr (Some f) => f :: nodes_after fuel' h f
      | _ => []
      end
  end.

Definition zsl_nodes (h : list (option zskiplistNode)) (zsl : zskiplist) : list nat :=
  nodes_after (List.length h) h (header zsl).

(** The (score, element) pairs the list stores, in list order. *)
Definition zsl_pairs (h : list (option zskiplistNode)) (zsl : zskiplist)
  : list (spec_float * list Z) :=
  omap (fun p => match deref h p with
                 | inr n => match obj n with
                            | Some o => Some (score n, o)
                            | None => None
                            end
                 | inl _ => None
                 end) (zsl_nodes h zsl).

Lemma post_zslInsert cmp h zsl sc o draws :
  1 <= zsl_level zsl <= ZSKIPLIST_MAXLEVEL ->
  post (fun r => 1 <= zsl_level (snd (fst (fst r))) <= ZSKIPLIST_MAXLEVEL /\
                 exists L, height_at (fst (fst (fst r))) (snd (fst r)) L /\
                           (1 <= L <= Z.to_nat ZSKIPLIST_MAXLEVEL)%nat)
       (zslInsert cmp h zsl sc o draws).
Proof.
  intros Hlv. unfold zslInsert.
  destruct (isnan sc); [cbn; congruence|].
  eapply post_bind.
  { apply post_insert_search; [|lia].
    split; rewrite length_replicate; reflexivity. }
  intros [[x0 update] rank] Ha. cbn [fst snd] in Ha.
  eapply post_bind; [apply post_zslRandomLevel|].
  intros [lvl ds] Hl. cbn [fst] in Hl.
  eapply post_bind with
    (Q1 := fun r => heights_kept h (fst (fst r)) /\ arrs_ok (snd (fst r)) (snd r)).
  { destruct (Z.gtb_spec lvl (zsl_level zsl)).
    - apply post_insert_raise; [exact Ha|lia|lia].
    - apply post_ret. split; [apply heights_kept_refl|exact Ha]. }
  intros [[h1 update1] rank1] [_ Ha1]. cbn [fst snd] in Ha1.
  pose proof (height_at_new h1 lvl sc (Some o)) as Hnew.
  destruct (zslCreateNode h1 lvl sc (Some o)) as [h2 x]. cbn [fst snd] in Hnew.
  eapply post_bind; [apply post_insert_splice; [exact Ha1|lia|lia]|]. intros h3 H3.
  eapply post_bind.
  { apply post_insert_bump; [apply Ha1|lia|].
    destruct (Z.gtb_spec lvl (zsl_level zsl)); lia. }
  intros h4 H4.
  eapply post_bind; [apply post_arr_get; destruct Ha1 as [-> _]; unfold ZSKIPLIST_MAXLEVEL; lia|].
  intros u0 _.
  eapply post_bind; [apply post_some_ptr|]. intros u0' _.
  eapply post_bind; [apply post_set_backward|]. intros h5 H5.
  eapply post_bind; [apply post_get_forward|]. intros f0 _.
  assert (Hzl : 1 <= (if lvl >? zsl_level zsl then lvl else zsl_level zsl)
                  <= ZSKIPLIST_MAXLEVEL)
    by (destruct (Z.gtb_spec lvl (zsl_level zsl)); lia).
  assert (HL : (1 <= Z.to_nat lvl <= Z.to_nat ZSKIPLIST_MAXLEVEL)%nat) by lia.
  destruct f0 as [f|].
  - eapply post_bind; [apply post_set_backward|]. intros h6 H6.
    apply post_ret. cbn [fst snd zsl_level]. split; [exact Hzl|].
    exists (Z.to_nat lvl). split; [|exact HL]. apply H6, H5, H4, H3, Hnew.
  - apply post_ret. cbn [fst snd zsl_level]. split; [exact Hzl|].
    exists (Z.to_nat lvl). split; [|exact HL]. apply H5, H4, H3, Hnew.
Qed.

Lemma post_zslDeleteNode h zsl x update :
  1 <= zsl_level zsl <= ZSKIPLIST_MAXLEVEL ->
  forall r, zslDeleteNode h zsl x update = inr r ->
  1 <= zsl_level (snd r) <= ZSKIPLIST_MAXLEVEL.
Proof.
  intros Hlv r. unfold zslDeleteNode.
  destruct (delete_unlink _ _ _ _ _) as [e|h1]; cbn [bind]; [discriminate|].
  destruct (deref h1 x) as [e|xn]; cbn [bind]; [discriminate|].
  destruct (get_forward h1 x 0) as [e|f0]; cbn [bind]; [discriminate|].
  destruct (match f0 with Some f => _ | None => _ end) as [e|[h2 tl]];
    cbn [bind]; [discriminate|].
  pose proof (delete_lower_bounds (S (Z.to_nat (zsl_level zsl))) h2 (header zsl)
                (zsl_level zsl)) as Hd.
  destruct (delete_lower _ _ _ _) as [e|l]; cbn [bind]; [discriminate|].
  intros [= <-]. cbn in Hd |- *. lia.
Qed.

(** C10. Whatever the draws of [random()] are, a level that [zslRandomLevel]
    returns lies between 1 and [ZSKIPLIST_MAXLEVEL] = 32, and it does return
    one (the number of leading low draws plus one, capped at 32) as soon as
    a draw that stops its loop comes before the [int] counter overflows.
    Consequently, on a list whose current level lies in 1..32 (as
    [zslCreate] sets it up and as [zslInsert] and [zslDeleteNode] keep it),
    [zslInsert] never indexes [update[]] or [rank[]] outside their 32 slots,
    the node it creates has between 1 and 32 levels, and the list's level
    stays in 1..32. *)
Theorem zslInsert_level_bounds cmp h zsl sc o draws :
  1 <= zsl_level zsl <= ZSKIPLIST_MAXLEVEL ->
  (forall ds k rest, zslRandomLevel ds = inr (k, rest) ->
     1 <= k <= ZSKIPLIST_MAXLEVEL) /\
  (forall low r rest,
     Forall (fun d => draw_low d = true) low -> draw_low r = false ->
     Z.of_nat (List.length low) < INT_MAX ->
     zslRandomLevel (low ++ r :: rest)
     = inr (Z.min (1 + Z.of_nat (List.length low)) ZSKIPLIST_MAXLEVEL, rest)) /\
  zsl_level (snd (zslCreate h)) = 1 /\
  zslInsert cmp h zsl sc o draws <> inl OutOfBounds /\
  (forall h' zsl' x rest,
     zslInsert cmp h zsl sc o draws = inr (h', zsl', x, rest) ->
     1 <= zsl_level zsl' <= ZSKIPLIST_MAXLEVEL /\
     exists n, deref h' x = inr n /\
               1 <= Z.of_nat (List.length (level n)) <= ZSKIPLIST_MAXLEVEL) /\
  (forall x update h' zsl',
     zslDeleteNode h zsl x update = inr (h', zsl') ->
     1 <= zsl_level zsl' <= ZSKIPLIST_MAXLEVEL).
Proof.
  intros Hlv.
  split.
  { intros ds k rest E. pose proof (post_zslRandomLevel ds) as H.
    rewrite E in H. exact H. }
  split.
  { intros low r rest Hlow Hr Hlen. unfold zslRandomLevel.
    rewrite random_level_loop_run by (auto; lia). cbn [bind]. unfold ret.
    do 2 f_equal. unfold ZSKIPLIST_MAXLEVEL.
    destruct (Z.ltb_spec (1 + Z.of_nat (List.length low)) 32); lia. }
  split; [reflexivity|].
  pose proof (post_zslInsert cmp h zsl sc o draws Hlv) as H.
  split.
  { intros E. rewrite E in H. now apply H. }
  split.
  { intros h' zsl' x rest E. rewrite E in H. cbn [post fst snd] in H.
    destruct H as [Hz (L & (n & Hn & HnL) & HL)]. split; [exact Hz|].
    exists n. unfold deref. rewrite Hn. split; [reflexivity|].
    unfold ZSKIPLIST_MAXLEVEL in *. lia. }
  intros x update h' zsl' E.
  exact (post_zslDeleteNode h zsl x update Hlv _ E).
Qed.

(** The empty list of [zslCreate], and the insertion of ("a", 1.0) with the
    draws 0 (go on) and 65535 (stop): a node of two levels. *)
Lemma zslInsert_level_bounds_witness :
  1 <= zsl_level (snd (zslCreate [])) <= ZSKIPLIST_MAXLEVEL /\
  exists h' zsl' x rest,
    zslInsert compareStringObjects_bytes (fst (zslCreate [])) (snd (zslCreate []))
      (of_Z 1) [97] [0; 65535] = inr (h', zsl', x, rest) /\
    1 <= zsl_level zsl' <= ZSKIPLIST_MAXLEVEL /\
    exists n, deref h' x = inr n /\
              1 <= Z.of_nat (List.length (level n)) <= ZSKIPLIST_MAXLEVEL.
Proof.
  assert (Hlv : 1 <= zsl_level (snd (zslCreate [])) <= ZSKIPLIST_MAXLEVEL)
    by (vm_compute; split; discriminate).
  split; [exact Hlv|].
  destruct (zslInsert_level_bounds compareStringObjects_bytes
              (fst (zslCreate [])) (snd (zslCreate [])) (of_Z 1) [97] [0; 65535] Hlv)
    as (_ & _ & _ & _ & H & _).
  do 4 eexists. split; [vm_compute; reflexivity|].
  eapply H. vm_compute. reflexivity.
Defined.

(** C4, the case of a pair that is absent. The list that holds the single
    pair (1.0, "a"): [zslGetRank] gives rank 1 for (1.0, "a"), and 0 for
    (0.0, "a"), but for (2.0, "a"), which the list does not hold, it gives
    rank 1 and not 0: its final test compares the element only, not the
    score. *)
Theorem zslGetRank_absent_pair_nonzero :
  exists h zsl x rest,
    zslInsert compareStringObjects_bytes (fst (zslCreate [])) (snd (zslCreate []))
      (of_Z 1) [97] [65535] = inr (h, zsl, x, rest) /\
    zsl_pairs h zsl = [(of_Z 1, [97])] /\
    zslGetRank compareStringObjects_bytes h zsl (of_Z 1) [97] = inr 1 /\
    zslGetRank compareStringObjects_bytes h zsl (of_Z 0) [97] = inr 0 /\
    zslGetRank compareStringObjects_bytes h zsl (of_Z 2) [97] = inr 1.
Proof.
  do 4 eexists.
  split; [vm_compute; reflexivity|].
  split; [vm_compute; reflexivity|].
  split; [vm_compute; reflexivity|].
  split; vm_compute; reflexivity.
Qed.

(** *** The list a heap represents *)

Definition node_at (h : list (option zskiplistNode)) (p : nat) : option zskiplistNode :=
  match h !! p with
  | Some (Some n) => Some n
  | _ => None
  end.

Definition height (h : list (option zskiplistNode)) (p : nat) : nat :=
  match node_at h p with
  | Some n => List.length (level n)
  | None => O
  end.

(** The element a node holds. *)
Definition elem (h : list (option zskiplistNode)) (p : nat) : list Z :=
  match node_at h p with
  | Some n => default [] (obj n)
  | None => []
  end.

(** What [level[i]] of a node must hold when [l] are the nodes behind it in
    list order: the first of them that has a level [i], and the number of
    steps to it (to the end of the list when there is none). *)
Fixpoint next_at (h : list (option zskiplistNode)) (i : nat) (l : list nat)
  : option nat * Z :=
  match l with
  | [] => (None, 0)
  | y :: l' =>
      if (i <? height h y)%nat then (Some y, 1)
      else (fst (next_at h i l'), snd (next_at h i l') + 1)
  end.

(** The heap [h] holds the skip list [zsl] whose nodes are, in list order,
    those at the addresses [ns]: the forward pointers, the header, the
    levels and the tail. *)
Record zsl_shape (h : list (option zskiplistNode)) (zsl : zskiplist) (ns : list nat)
  : Prop := mk_shape {
  shape_nodup : NoDup (header zsl :: ns);
  shape_level : 1 <= zsl_level zsl <= ZSKIPLIST_MAXLEVEL;
  shape_header : exists hn, node_at h (header zsl) = Some hn /\ obj hn = None /\
                            List.length (level hn) = Z.to_nat ZSKIPLIST_MAXLEVEL;
  shape_nodes : forall p, p ∈ ns ->
      exists n, node_at h p = Some n /\ is_Some (obj n) /\
                (1 <= List.length (level n) <= Z.to_nat (zsl_level zsl))%nat;
  shape_forward : forall k x n i lv,
      (header zsl :: ns) !! k = Some x -> node_at h x = Some n ->
      level n !! i = Some lv ->
      forward lv = fst (next_at h i (drop k ns));
  shape_tail : tail zsl = last ns
}.

(** The spans of level [i]. *)
Definition spans_ok (h : list (option zskiplistNode)) (zsl : zskiplist) (ns : list nat)
  (i : nat) : Prop :=
  forall k x n lv,
    (header zsl :: ns) !! k = Some x -> node_at h x = Some n ->
    level n !! i = Some lv ->
    span lv = snd (next_at h i (drop k ns)).

Lemma deref_node_at h p n : node_at h p = Some n -> deref h p = inr n.
Proof.
  unfold node_at, deref. destruct (h !! p) as [[m|]|]; intros [= ->]; reflexivity.
Qed.

Lemma node_at_lt h p n : node_at h p = Some n -> (p < List.length h)%nat.
Proof.
  unfold node_at. destruct (h !! p) as [o|] eqn:E; [|discriminate].
  intros _. eapply lookup_lt_Some, E.
Qed.

Lemma get_level_nat n i lv :
  level n !! i = Some lv -> get_level n (Z.of_nat i) = inr lv.
Proof.
  intros E. unfold get_level. destruct (Z.ltb_spec (Z.of_nat i) 0); [lia|].
  rewrite Nat2Z.id, E. reflexivity.
Qed.

Lemma next_at_Some h i l y :
  fst (next_at h i l) = Some y ->
  exists d, l !! d = Some y /\ (i < height h y)%nat /\
            snd (next_at h i l) = Z.of_nat d + 1 /\
            forall d' z, (d' < d)%nat -> l !! d' = Some z -> (height h z <= i)%nat.
Proof.
  induction l as [|z l IH]; cbn [next_at]; [discriminate|].
  destruct (Nat.ltb_spec i (height h z)) as [Hlt|Hge]; cbn [fst snd].
  - intros [= ->]. exists O. repeat split; auto. intros d' z' Hd. lia.
  - intros E. destruct (IH E) as (d & Hd & Hh & Hs & Hbefore).
    exists (S d). split; [exact Hd|]. split; [exact Hh|]. split; [lia|].
    intros [|d'] z' Hlt; cbn.
    + intros [= <-]. exact Hge.
    + intros Hz. eapply Hbefore; [|exact Hz]. lia.
Qed.

Lemma next_at_None h i l :
  fst (next_at h i l) = None ->
  snd (next_at h i l) = Z.of_nat (List.length l) /\
  forall z, z ∈ l -> (height h z <= i)%nat.
Proof.
  induction l as [|z l IH]; cbn [next_at].
  - intros _. split; [reflexivity|]. intros z Hz. inversion Hz.
  - destruct (Nat.ltb_spec i (height h z)) as [Hlt|Hge]; cbn [fst snd]; [discriminate|].
    intros E. destruct (IH E) as [Hs Hall]. split; [cbn [List.length]; lia|].
    intros z' Hz'. apply elem_of_cons in Hz' as [->|Hz']; auto.
Qed.

(** A list of distinct addresses of a heap is no longer than the heap. *)
Lemma nodup_length_le (l : list nat) (m : nat) :
  NoDup l -> (forall x, x ∈ l -> (x < m)%nat) -> (List.length l <= m)%nat.
Proof.
  intros Hnd Hlt.
  assert (l ⊆+ seq 0 m) as Hsub.
  { apply NoDup_submseteq; [exact Hnd|]. intros x Hx. apply elem_of_seq. split; [lia|].
    cbn. apply Hlt, Hx. }
  apply submseteq_length in Hsub. rewrite length_seq in Hsub. exact Hsub.
Qed.

Lemma arr_set_nat {A} (a : list A) (i : nat) (x : A) :
  (i < List.length a)%nat -> arr_set a (Z.of_nat i) x = inr (<[i := x]> a).
Proof.
  intros Hi. unfold arr_set.
  destruct (Z.leb_spec 0 (Z.of_nat i)); [|lia].
  destruct (Z.ltb_spec (Z.of_nat i) (Z.of_nat (List.length a))); [|lia].
  cbn. now rewrite Nat2Z.id.
Qed.

Lemma arr_get_nat {A} (a : list A) (i : nat) (x : A) :
  a !! i = Some x -> arr_get a (Z.of_nat i) = inr x.
Proof.
  intros Hi. unfold arr_get. destruct (Z.ltb_spec (Z.of_nat i) 0); [lia|].
  now rewrite Nat2Z.id, Hi.
Qed.

Lemma walk_unfold fuel h P x i acc :
  walk fuel h P x i acc =
  (xn <- deref h x;;
   lv <- get_level xn i;;
   match forward lv with
   | None => ret (x, acc)
   | Some f =>
       fn <- deref h f;;
       b <- P fn;;
       if b then
         match fuel with
         | O => fail OutOfFuel
         | S fuel' => walk fuel' h P f i (acc + span lv)
         end
       else ret (x, acc)
   end).
Proof. destruct fuel; reflexivity. Qed.

Section Search.

Variables (h : list (option zskiplistNode)) (zsl : zskiplist) (ns : list nat).
Hypothesis Hshape : zsl_shape h zsl ns.

(** The test of the loop, [P], is the boolean [pb] on the nodes that hold an
    element. *)
Variable P : zskiplistNode -> M bool.
Variable pb : zskiplistNode -> bool.
Hypothesis HP : forall n, is_Some (obj n) -> P n = inr (pb n).

Definition pbp (p : nat) : bool :=
  match node_at h p with
  | Some n => pb n
  | None => false
  end.

Lemma height_node x i :
  (i < height h x)%nat ->
  exists n lv, node_at h x = Some n /\ level n !! i = Some lv.
Proof.
  unfold height. destruct (node_at h x) as [n|]; [|lia].
  intros Hi. destruct (lookup_lt_is_Some_2 (level n) i Hi) as [lv Hlv]. eauto.
Qed.

Lemma walk_spec fuel : forall k x i acc,
  (header zsl :: ns) !! k = Some x -> (i < height h x)%nat ->
  (List.length ns - k <= fuel)%nat ->
  exists k' x' acc',
    walk fuel h P x (Z.of_nat i) acc = inr (x', acc') /\
    (k <= k')%nat /\ (header zsl :: ns) !! k' = Some x' /\ (i < height h x')%nat /\
    (k' = k \/ pbp x' = true) /\
    (forall y, fst (next_at h i (drop k' ns)) = Some y -> pbp y = false) /\
    (spans_ok h zsl ns i -> acc' = acc + Z.of_nat (k' - k)) /\
    (forall j z, (k < j <= k')%nat -> (header zsl :: ns) !! j = Some z ->
                 (i < height h z)%nat -> pbp z = true).
Proof.
  induction fuel as [|fuel IH]; intros k x i acc Hk Hi Hfuel;
    rewrite walk_unfold;
    destruct (height_node x i Hi) as (xn & lv & Hxn & Hlv);
    rewrite (deref_node_at _ _ _ Hxn); cbn [bind];
    rewrite (get_level_nat _ _ _ Hlv); cbn [bind];
    pose proof (shape_forward _ _ _ Hshape k x xn i lv Hk Hxn Hlv) as Hf;
    destruct (forward lv) as [y|] eqn:Hfw.
  all: try (exists k, x, acc; split; [reflexivity|]; split; [lia|];
            split; [exact Hk|]; split; [exact Hi|]; split; [now left|];
            split; [intros y Hy; rewrite <- Hf in Hy; discriminate|];
            split; [intros _; lia|]; intros; lia).
  all: symmetry in Hf; destruct (next_at_Some _ _ _ _ Hf) as (d & Hd & Hhy & Hsp & Hbef);
    rewrite lookup_drop in Hd;
    destruct (shape_nodes _ _ _ Hshape y (list_elem_of_lookup_2 _ _ _ Hd))
      as (fn & Hfn & Hobj & _);
    rewrite (deref_node_at _ _ _ Hfn); cbn [bind];
    rewrite (HP fn Hobj); cbn [bind];
    assert (Hpy : pbp y = pb fn) by (unfold pbp; now rewrite Hfn);
    destruct (pb fn) eqn:Hb.
  all: try (exists k, x, acc; split; [reflexivity|]; split; [lia|];
            split; [exact Hk|]; split; [exact Hi|]; split; [now left|];
            split; [intros y' Hy'; rewrite Hf in Hy'; injection Hy' as <-; exact Hpy|];
            split; [intros _; lia|]; intros; lia).
  - apply lookup_lt_Some in Hd. lia.
  - destruct (IH (S (k + d)) y i (acc + span lv))
      as (k' & x' & acc' & Hw & Hle & Hk' & Hi' & Hor & Hnext & Hacc & Hvis).
    { exact Hd. } { exact Hhy. } { apply lookup_lt_Some in Hd. lia. }
    exists k', x', acc'. split; [exact Hw|]. split; [lia|]. split; [exact Hk'|].
    split; [exact Hi'|]. split.
    { right. destruct Hor as [->|Hor]; [|exact Hor].
      assert (ns !! (k + d)%nat = Some x') as Hx' by exact Hk'.
      rewrite Hd in Hx'. injection Hx' as <-. exact Hpy. }
    split; [exact Hnext|]. split.
    { intros Hs. rewrite (Hacc Hs). rewrite (Hs k x xn lv Hk Hxn Hlv), Hsp. lia. }
    intros j z Hj Hz Hhz.
    destruct (Nat.lt_ge_cases (S (k + d)) j) as [Hlt|Hge]; [apply (Hvis j z); auto; lia|].
    destruct (Nat.eq_dec j (S (k + d))) as [->|Hne].
    { assert (ns !! (k + d)%nat = Some z) as Hz' by exact Hz.
      rewrite Hd in Hz'. injection Hz' as <-. exact Hpy. }
    destruct j as [|j]; [lia|].
    assert (ns !! j = Some z) as Hz' by exact Hz.
    pose proof (Hbef (j - k)%nat z ltac:(lia)) as Hb'.
    rewrite lookup_drop in Hb'. replace (k + (j - k))%nat with j in Hb' by lia.
    specialize (Hb' Hz'). lia.
Qed.

Lemma shape_length_le : (List.length ns <= List.length h)%nat.
Proof.
  apply nodup_length_le.
  - pose proof (shape_nodup _ _ _ Hshape) as Hnd. now apply NoDup_cons in Hnd.
  - intros x Hx. destruct (shape_nodes _ _ _ Hshape x Hx) as (n & Hn & _).
    eapply node_at_lt, Hn.
Qed.

Lemma shape_height_pos p : p ∈ ns -> (1 <= height h p)%nat.
Proof.
  intros Hp. destruct (shape_nodes _ _ _ Hshape p Hp) as (n & Hn & _ & Hl & _).
  unfold height. now rewrite Hn.
Qed.

Lemma shape_header_height : height h (header zsl) = Z.to_nat ZSKIPLIST_MAXLEVEL.
Proof.
  destruct (shape_header _ _ _ Hshape) as (hn & Hn & _ & Hl).
  unfold height. now rewrite Hn.
Qed.

(** The test holds of the first [t] nodes and of no other. *)
Definition threshold (t : nat) : Prop :=
  (t <= List.length ns)%nat /\
  forall j p, ns !! j = Some p -> pbp p = (j <? t)%nat.

Lemma walk_threshold t k x i acc :
  threshold t -> (k <= t)%nat ->
  (header zsl :: ns) !! k = Some x -> (i < height h x)%nat ->
  exists k' x' acc',
    walk (List.length h) h P x (Z.of_nat i) acc = inr (x', acc') /\
    (k <= k' <= t)%nat /\ (header zsl :: ns) !! k' = Some x' /\ (i < height h x')%nat /\
    (forall j z, (k' < j <= t)%nat -> (header zsl :: ns) !! j = Some z ->
                 (height h z <= i)%nat) /\
    (spans_ok h zsl ns i -> acc' = acc + Z.of_nat (k' - k)).
Proof.
  intros [Ht Hthr] Hkt Hk Hi.
  destruct (walk_spec (List.length h) k x i acc Hk Hi)
    as (k' & x' & acc' & Hw & Hle & Hk' & Hi' & Hor & Hnext & Hacc & _).
  { pose proof shape_length_le. lia. }
  exists k', x', acc'. split; [exact Hw|].
  assert (Hk't : (k' <= t)%nat).
  { destruct Hor as [->|Hp]; [exact Hkt|].
    destruct k' as [|j]; [lia|].
    assert (ns !! j = Some x') as Hj by exact Hk'.
    rewrite (Hthr _ _ Hj) in Hp. apply Nat.ltb_lt in Hp. lia. }
  split; [lia|]. split; [exact Hk'|]. split; [exact Hi'|]. split; [|exact Hacc].
  intros j z [Hj1 Hj2] Hz.
  destruct j as [|j]; [lia|].
  assert (ns !! j = Some z) as Hz' by exact Hz.
  destruct (fst (next_at h i (drop k' ns))) as [y|] eqn:Hn.
  - destruct (next_at_Some _ _ _ _ Hn) as (d & Hd & _ & _ & Hbefore).
    rewrite lookup_drop in Hd.
    pose proof (Hnext y eq_refl) as Hpy. rewrite (Hthr _ _ Hd) in Hpy.
    apply Nat.ltb_ge in Hpy.
    apply (Hbefore (j - k')%nat z); [lia|].
    rewrite lookup_drop. replace (k' + (j - k'))%nat with j by lia. exact Hz'.
  - destruct (next_at_None _ _ _ Hn) as [_ Hall]. apply Hall.
    apply (list_elem_of_lookup_2 _ (j - k')%nat).
    rewrite lookup_drop. replace (k' + (j - k'))%nat with j by lia. exact Hz'.
Qed.

(** The loop of [zslFirstInLexRange] ends on the last node of which the test
    holds (on the header when there is none). *)
Lemma search_levels_threshold t n : forall k x,
  threshold t -> (k <= t)%nat ->
  (header zsl :: ns) !! k = Some x -> (n <= height h x)%nat ->
  exists k' x',
    search_levels n h P x = inr x' /\
    (k <= k' <= t)%nat /\ (header zsl :: ns) !! k' = Some x' /\
    ((1 <= n)%nat -> k' = t).
Proof.
  induction n as [|n IH]; intros k x Ht Hkt Hk Hn.
  - exists k, x. cbn. repeat split; auto; lia.
  - cbn [search_levels].
    destruct (walk_threshold t k x n 0 Ht Hkt Hk)
      as (k1 & x1 & acc1 & Hw & Hle & Hk1 & Hh1 & Hgap & _); [lia|].
    rewrite Hw. cbn [bind fst].
    destruct (IH k1 x1 Ht) as (k' & x' & Hs & Hle' & Hk' & Hfin); [lia|exact Hk1|lia|].
    exists k', x'. split; [exact Hs|]. split; [lia|]. split; [exact Hk'|].
    intros _. destruct n as [|n]; [|apply Hfin; lia].
    cbn in Hs. injection Hs as <-. 
    assert (k' = k1) as ->.
    { pose proof (shape_nodup _ _ _ Hshape) as Hnd.
      eapply NoDup_lookup; eauto. }
    destruct (Nat.eq_dec k1 t) as [|Hne]; [assumption|exfalso].
    destruct Ht as [Ht _].
    destruct (lookup_lt_is_Some_2 ns k1) as [z Hz]; [lia|].
    pose proof (Hgap (S k1) z ltac:(lia) Hz) as Hz0.
    pose proof (shape_height_pos z (list_elem_of_lookup_2 _ _ _ Hz)). lia.
Qed.

(** [u] is the last of the nodes at the places up to [k0] that has a level
    [i]: what [update[i]] must be for the node at place [k0 + 1]. *)
Definition pred_at (i k0 u : nat) : Prop :=
  exists p, (header zsl :: ns) !! p = Some u /\ (p <= k0)%nat /\ (i < height h u)%nat /\
    forall j z, (p < j <= k0)%nat -> (header zsl :: ns) !! j = Some z ->
                (height h z <= i)%nat.

(** The same, and the loop has stopped on [u] at level [i]. *)
Definition upd_inv (i k0 u : nat) : Prop :=
  exists p, (header zsl :: ns) !! p = Some u /\ (p <= k0)%nat /\ (i < height h u)%nat /\
    (forall j z, (p < j <= k0)%nat -> (header zsl :: ns) !! j = Some z ->
                 (height h z <= i)%nat) /\
    (forall y, fst (next_at h i (drop p ns)) = Some y -> pbp y = false).

Lemma upd_inv_pred i k0 u : upd_inv i k0 u -> pred_at i k0 u.
Proof. intros (p & H1 & H2 & H3 & H4 & _). exists p. auto. Qed.

Lemma upd_inv_extend i i' k k' u :
  upd_inv i k u -> (i' <= i)%nat -> (k <= k')%nat ->
  (forall j z, (k < j <= k')%nat -> (header zsl :: ns) !! j = Some z ->
               (i' < height h z)%nat -> pbp z = true) ->
  upd_inv i k' u.
Proof.
  intros (p & Hp & Hle & Hh & Hgap & Hstop) Hi Hk Hvis.
  exists p. split; [exact Hp|]. split; [lia|]. split; [exact Hh|]. split; [|exact Hstop].
  intros j z [Hj1 Hj2] Hz.
  destruct (Nat.le_gt_cases j k) as [Hjk|Hjk]; [apply (Hgap j z); auto; lia|].
  destruct (Nat.le_gt_cases (height h z) i) as [|Hgt]; [assumption|exfalso].
  destruct j as [|j]; [lia|].
  assert (ns !! j = Some z) as Hz' by exact Hz.
  destruct (fst (next_at h i (drop p ns))) as [y|] eqn:Hn.
  - destruct (next_at_Some _ _ _ _ Hn) as (d & Hd & Hhy & _ & Hbef).
    rewrite lookup_drop in Hd.
    assert (k < S (p + d))%nat as H1.
    { destruct (Nat.le_gt_cases (S (p + d)) k) as [Hc|]; [|lia].
      pose proof (Hgap (S (p + d)) y ltac:(lia) Hd). lia. }
    assert (p + d <= j)%nat as H2.
    { destruct (Nat.le_gt_cases (p + d) j) as [|Hc]; [lia|].
      pose proof (Hbef (j - p)%nat z ltac:(lia)) as Hb.
      rewrite lookup_drop in Hb. replace (p + (j - p))%nat with j in Hb by lia.
      specialize (Hb Hz'). lia. }
    pose proof (Hvis (S (p + d)) y ltac:(lia) Hd ltac:(lia)) as Hy.
    rewrite (Hstop y eq_refl) in Hy. discriminate.
  - destruct (next_at_None _ _ _ Hn) as [_ Hall].
    assert (height h z <= i)%nat; [|lia]. apply Hall.
    apply (list_elem_of_lookup_2 _ (j - p)%nat).
    rewrite lookup_drop. replace (p + (j - p))%nat with j by lia. exact Hz'.
Qed.

(** The search loop that fills [update]: whatever the test is, every entry
    it writes is the predecessor, at its level, of the node behind the one
    the search ends on. *)
Lemma update_search_spec N n : forall k x update,
  (n <= N)%nat -> (N <= List.length update)%nat ->
  (header zsl :: ns) !! k = Some x -> (n <= height h x)%nat ->
  (forall i, (n <= i < N)%nat -> exists u, update !! i = Some (Some u) /\ upd_inv i k u) ->
  exists k' x' update',
    update_search n h P x update = inr (x', update') /\
    (k <= k')%nat /\ (header zsl :: ns) !! k' = Some x' /\
    List.length update' = List.length update /\
    (forall i, (i < N)%nat -> exists u, update' !! i = Some (Some u) /\ upd_inv i k' u) /\
    (forall i, (N <= i)%nat -> update' !! i = update !! i) /\
    (k' = k \/ pbp x' = true).
Proof.
  induction n as [|n IH]; intros k x update HnN HN Hk Hh Hinv.
  - exists k, x, update. split; [reflexivity|]. split; [lia|]. split; [exact Hk|].
    split; [reflexivity|]. split; [intros i Hi; apply Hinv; lia|]. split; [reflexivity|now left].
  - cbn [update_search].
    destruct (walk_spec (List.length h) k x n 0 Hk)
      as (k1 & x1 & acc1 & Hw & Hle & Hk1 & Hh1 & Hor & Hnext & _ & Hvis);
      [lia|pose proof shape_length_le; lia|].
    rewrite Hw. cbn [bind]. rewrite arr_set_nat by lia. cbn [bind].
    destruct (IH k1 x1 (<[n := Some x1]> update))
      as (k' & x' & update' & Hs & Hle' & Hk' & Hlen & Hinv' & Hout & Hor');
      [lia|rewrite length_insert; lia|exact Hk1|lia| |].
    { intros i Hi. destruct (Nat.eq_dec i n) as [->|Hne].
      - exists x1. split; [apply list_lookup_insert_eq; lia|].
        exists k1. split; [exact Hk1|]. split; [lia|]. split; [exact Hh1|].
        split; [intros; lia|exact Hnext].
      - destruct (Hinv i ltac:(lia)) as (u & Hu & Hui).
        exists u. split; [rewrite list_lookup_insert_ne by lia; exact Hu|].
        apply (upd_inv_extend i n k k1 u Hui); [lia|lia|exact Hvis]. }
    exists k', x', update'. split; [exact Hs|]. split; [lia|]. split; [exact Hk'|].
    split; [rewrite Hlen; apply length_insert|]. split; [exact Hinv'|]. split.
    { intros i Hi. rewrite (Hout i Hi). apply list_lookup_insert_ne. lia. }
    destruct Hor' as [->|Hp]; [|now right].
    rewrite Hk1 in Hk'. injection Hk' as <-.
    destruct Hor as [->|Hp]; [now left|now right].
Qed.

End Search.

Lemma next_at_level0 h l :
  (forall z, z ∈ l -> (1 <= height h z)%nat) -> fst (next_at h 0 l) = head l.
Proof.
  destruct l as [|y l]; [reflexivity|]. intros H. cbn [next_at head].
  pose proof (H y ltac:(left)) as Hy.
  destruct (Nat.ltb_spec 0 (height h y)); [reflexivity|lia].
Qed.

(** A test that, once it fails, fails further on holds of a prefix. *)
Lemma mono_threshold (f : nat -> bool) (l : list nat) :
  (forall j1 j2 p q, (j1 < j2)%nat -> l !! j1 = Some p -> l !! j2 = Some q ->
                     f q = true -> f p = true) ->
  exists t, (t <= List.length l)%nat /\
            forall j p, l !! j = Some p -> f p = (j <? t)%nat.
Proof.
  induction l as [|a l IH]; intros Hmono.
  - exists O. split; [reflexivity|]. intros j p Hj. destruct j; discriminate.
  - destruct IH as (t & Ht & Hthr).
    { intros j1 j2 p q Hlt H1 H2. apply (Hmono (S j1) (S j2)); [lia|exact H1|exact H2]. }
    destruct (f a) eqn:Hfa.
    + exists (S t). split; [cbn; lia|]. intros [|j] p Hj.
      * injection Hj as <-. exact Hfa.
      * apply (Hthr j p Hj).
    + exists O. split; [lia|]. intros [|j] p Hj.
      * injection Hj as <-. exact Hfa.
      * destruct (f p) eqn:Hfp; [|reflexivity].
        rewrite (Hmono O (S j) a p ltac:(lia) eq_refl Hj Hfp) in Hfa. discriminate.
Qed.

Lemma find_first (g : nat -> bool) (l : list nat) t x :
  l !! t = Some x ->
  (forall j p, (j < t)%nat -> l !! j = Some p -> g p = false) ->
  g x = true -> List.find g l = Some x.
Proof.
  revert t. induction l as [|a l IH]; intros t Ht Hbefore Hx; [destruct t; discriminate|].
  cbn [List.find]. destruct t as [|t].
  - injection Ht as ->. now rewrite Hx.
  - rewrite (Hbefore O a ltac:(lia) eq_refl).
    apply (IH t Ht); [|exact Hx]. intros j p Hj Hp. apply (Hbefore (S j)); [lia|exact Hp].
Qed.

Lemma find_none (g : nat -> bool) (l : list nat) :
  (forall p, p ∈ l -> g p = false) -> List.find g l = None.
Proof.
  induction l as [|a l IH]; intros H; [reflexivity|].
  cbn [List.find]. rewrite (H a ltac:(left)). apply IH. intros p Hp. apply H. now right.
Qed.

Lemma sgn_flip x y :
  Z.sgn x = - Z.sgn y -> (x < 0 <-> 0 < y) /\ (x = 0 <-> y = 0) /\ (0 < x <-> y < 0).
Proof. destruct x, y; cbn; intros H; try discriminate; repeat split; lia. Qed.

(** *** Lexicographic ranges on a list in lexicographic order *)

Section LexRange.

Variable cmp : list Z -> list Z -> Z.
Variables minstring maxstring : list Z.

(** [compareStringObjects] is the three-way comparison of a total preorder. *)
Hypothesis cmp_antisym : forall a b, Z.sgn (cmp a b) = - Z.sgn (cmp b a).
Hypothesis cmp_trans : forall a b c, cmp a b <= 0 -> cmp b c <= 0 -> cmp a c <= 0.

Local Abbreviation lcmp := (compareStringObjectsForLexRange cmp minstring maxstring).
Local Abbreviation gte_min := (zslLexValueGteMin cmp minstring maxstring).
Local Abbreviation lte_max := (zslLexValueLteMax cmp minstring maxstring).

Lemma lcmp_antisym a b : Z.sgn (lcmp a b) = - Z.sgn (lcmp b a).
Proof. destruct a, b; cbn; try reflexivity. apply cmp_antisym. Qed.

Lemma lcmp_trans a b c : lcmp a b <= 0 -> lcmp b c <= 0 -> lcmp a c <= 0.
Proof. destruct a, b, c; cbn; try lia. apply cmp_trans. Qed.

Lemma lcmp_flip a b :
  (lcmp a b < 0 <-> 0 < lcmp b a) /\ (lcmp a b = 0 <-> lcmp b a = 0) /\
  (0 < lcmp a b <-> lcmp b a < 0).
Proof. apply sgn_flip, lcmp_antisym. Qed.

Lemma lcmp_lt_le a b c : lcmp a b < 0 -> lcmp b c <= 0 -> lcmp a c < 0.
Proof.
  intros H1 H2. destruct (Z.lt_ge_cases (lcmp a c) 0) as [|Hge]; [assumption|exfalso].
  assert (lcmp c a <= 0) as Hca by (pose proof (lcmp_flip a c); lia).
  pose proof (lcmp_trans b c a H2 Hca). pose proof (lcmp_flip a b). lia.
Qed.

Lemma lcmp_le_lt a b c : lcmp a b <= 0 -> lcmp b c < 0 -> lcmp a c < 0.
Proof.
  intros H1 H2. destruct (Z.lt_ge_cases (lcmp a c) 0) as [|Hge]; [assumption|exfalso].
  assert (lcmp c a <= 0) as Hca by (pose proof (lcmp_flip a c); lia).
  pose proof (lcmp_trans c a b Hca H1). pose proof (lcmp_flip b c). lia.
Qed.

(** The element [v] lies in the range. *)
Definition in_lex_range (range : zlexrangespec) (v : list Z) : bool :=
  gte_min v range && lte_max v range.

(** "min compares lexicographically greater than max, or min equals max and
    either bound is exclusive". *)
Definition range_empty (range : zlexrangespec) : Prop :=
  0 < lcmp (min range) (max range) \/
  (lcmp (min range) (max range) = 0 /\ (minex range || maxex range) = true).

(** The range is not one whose bounds are different objects of equal content
    with an exclusive bound: there the emptiness test of [zslIsInLexRange],
    which compares the contents of the bounds, sentinels included, takes a
    range that is not empty for an empty one. *)
Definition content_test_sound (range : zlexrangespec) : Prop :=
  cmp (bound_obj minstring maxstring (min range))
      (bound_obj minstring maxstring (max range)) = 0 ->
  (minex range || maxex range) = true ->
  0 <= lcmp (min range) (max range).

Lemma gte_min_spec v range :
  gte_min v range = true <->
  (if minex range then lcmp (min range) (Lexstr v) < 0 else lcmp (min range) (Lexstr v) <= 0).
Proof.
  unfold zslLexValueGteMin. pose proof (lcmp_flip (min range) (Lexstr v)).
  destruct (minex range).
  - rewrite Z.gtb_lt. lia.
  - rewrite Z.geb_le. lia.
Qed.

Lemma lte_max_spec v range :
  lte_max v range = true <->
  (if maxex range then lcmp (Lexstr v) (max range) < 0 else lcmp (Lexstr v) (max range) <= 0).
Proof.
  unfold zslLexValueLteMax. destruct (maxex range).
  - apply Z.ltb_lt.
  - apply Z.leb_le.
Qed.

Lemma gte_min_mono v1 v2 range :
  cmp v1 v2 <= 0 -> gte_min v1 range = true -> gte_min v2 range = true.
Proof.
  intros Hle. rewrite !gte_min_spec.
  assert (lcmp (Lexstr v1) (Lexstr v2) <= 0) as Hl by exact Hle.
  destruct (minex range); intros H.
  - eapply lcmp_lt_le; eassumption.
  - eapply lcmp_trans; eassumption.
Qed.

Lemma lte_max_mono v1 v2 range :
  cmp v1 v2 <= 0 -> lte_max v2 range = true -> lte_max v1 range = true.
Proof.
  intros Hle. rewrite !lte_max_spec.
  assert (lcmp (Lexstr v1) (Lexstr v2) <= 0) as Hl by exact Hle.
  destruct (maxex range); intros H.
  - eapply lcmp_le_lt; eassumption.
  - eapply lcmp_trans; eassumption.
Qed.

Lemma in_lex_range_bounds v range :
  in_lex_range range v = true ->
  lcmp (min range) (max range) <= 0 /\
  ((minex range || maxex range) = true -> lcmp (min range) (max range) < 0).
Proof.
  unfold in_lex_range. rewrite andb_true_iff, gte_min_spec, lte_max_spec.
  intros [Hmin Hmax].
  destruct (minex range), (maxex range); cbn [orb].
  - pose proof (lcmp_lt_le _ _ _ Hmin (Z.lt_le_incl _ _ Hmax)). split; [lia|auto].
  - pose proof (lcmp_lt_le _ _ _ Hmin Hmax). split; [lia|auto].
  - pose proof (lcmp_le_lt _ _ _ Hmin Hmax). split; [lia|auto].
  - pose proof (lcmp_trans _ _ _ Hmin Hmax). split; [lia|discriminate].
Qed.

(** The nodes stand in the lexicographic order of their elements, as they
    do when all the scores are equal. *)
Definition lex_sorted (h : list (option zskiplistNode)) (ns : list nat) : Prop :=
  forall j1 j2 p q, (j1 < j2)%nat -> ns !! j1 = Some p -> ns !! j2 = Some q ->
                    cmp (elem h p) (elem h q) <= 0.

Lemma cmp_refl a : cmp a a = 0.
Proof. pose proof (cmp_antisym a a). destruct (cmp a a); cbn in *; lia. Qed.

Lemma lex_sorted_le h ns j1 j2 p q :
  lex_sorted h ns -> (j1 <= j2)%nat -> ns !! j1 = Some p -> ns !! j2 = Some q ->
  cmp (elem h p) (elem h q) <= 0.
Proof.
  intros Hs Hle H1 H2. destruct (Nat.eq_dec j1 j2) as [->|Hne].
  - rewrite H1 in H2. injection H2 as ->. rewrite cmp_refl. lia.
  - apply (Hs j1 j2); auto. lia.
Qed.

Section Range.

Variables (h : list (option zskiplistNode)) (zsl : zskiplist) (ns : list nat).
Variable range : zlexrangespec.
Hypothesis Hshape : zsl_shape h zsl ns.
Hypothesis Hsorted : lex_sorted h ns.

Lemma shape_elem p :
  p ∈ ns -> exists n, node_at h p = Some n /\ obj n = Some (elem h p).
Proof.
  intros Hp. destruct (shape_nodes _ _ _ Hshape p Hp) as (n & Hn & [o Ho] & _).
  exists n. split; [exact Hn|]. unfold elem. rewrite Hn, Ho. reflexivity.
Qed.

Lemma shape_first :
  get_forward h (header zsl) 0 = inr (head ns).
Proof.
  destruct (shape_header _ _ _ Hshape) as (hn & Hn & _ & Hl).
  unfold get_forward. rewrite (deref_node_at _ _ _ Hn). cbn [bind].
  destruct (lookup_lt_is_Some_2 (level hn) O) as [lv Hlv];
    [rewrite Hl; unfold ZSKIPLIST_MAXLEVEL; lia|].
  pose proof (get_level_nat _ O _ Hlv) as Hgl. change (Z.of_nat 0) with 0 in Hgl.
  rewrite Hgl. cbn [bind].
  rewrite (shape_forward _ _ _ Hshape O (header zsl) hn O lv eq_refl Hn Hlv).
  rewrite drop_0. rewrite next_at_level0; [reflexivity|].
  intros z Hz. apply (shape_height_pos h zsl ns Hshape z Hz).
Qed.

Lemma zslIsInLexRange_spec :
  content_test_sound range ->
  exists b, zslIsInLexRange cmp minstring maxstring h zsl range = inr b /\
    (b = false -> forall p, p ∈ ns -> in_lex_range range (elem h p) = false) /\
    (b = true -> exists q, last ns = Some q /\ gte_min (elem h q) range = true).
Proof.
  intros Hsound. unfold zslIsInLexRange.
  destruct (_ || _) eqn:Hempty.
  { exists false. split; [reflexivity|]. split; [|discriminate]. intros _ p Hp.
    destruct (in_lex_range range (elem h p)) eqn:Hin; [|reflexivity]. exfalso.
    apply in_lex_range_bounds in Hin as [H1 H2].
    apply orb_true_iff in Hempty as [H|H].
    - apply Z.gtb_lt in H. lia.
    - apply andb_true_iff in H as [Hc Hex]. apply Z.eqb_eq in Hc.
      specialize (Hsound Hc Hex). specialize (H2 Hex). lia. }
  rewrite (shape_tail _ _ _ Hshape). destruct (last ns) as [q|] eqn:Hlast.
  2: { exists false. split; [reflexivity|]. split; [|discriminate]. intros _ p Hp.
       apply last_None in Hlast. subst ns. inversion Hp. }
  pose proof Hlast as Hq. rewrite last_lookup in Hq.
  destruct (shape_elem q (list_elem_of_lookup_2 _ _ _ Hq)) as (qn & Hqn & Hqo).
  rewrite (deref_node_at _ _ _ Hqn). cbn [bind ret]. unfold node_obj. rewrite Hqo. cbn [bind ret].
  destruct (gte_min (elem h q) range) eqn:Hg; cbn [negb].
  - rewrite shape_first. cbn [bind ret].
    destruct (head ns) as [f|] eqn:Hf.
    2: { apply head_None in Hf. rewrite Hf in Hlast. discriminate. }
    rewrite head_lookup in Hf.
    destruct (shape_elem f (list_elem_of_lookup_2 _ _ _ Hf)) as (fn & Hfn & Hfo).
    rewrite (deref_node_at _ _ _ Hfn). cbn [bind ret]. rewrite Hfo. cbn [bind ret].
    eexists. split; [reflexivity|]. split.
    + intros Hl p Hp. apply list_elem_of_lookup_1 in Hp as [j Hj].
      unfold in_lex_range. apply andb_false_iff. right.
      destruct (lte_max (elem h p) range) eqn:Hlp; [|reflexivity].
      rewrite <- Hl. symmetry. eapply lte_max_mono; [|exact Hlp].
      apply (lex_sorted_le h ns O j); auto. lia.
    + intros _. exists q. split; [reflexivity|exact Hg].
  - exists false. split; [reflexivity|]. split; [|discriminate]. intros _ p Hp.
    apply list_elem_of_lookup_1 in Hp as [j Hj].
    unfold in_lex_range. apply andb_false_iff. left.
    destruct (gte_min (elem h p) range) eqn:Hgp; [|reflexivity].
    rewrite <- Hg. symmetry. eapply gte_min_mono; [|exact Hgp].
    apply (lex_sorted_le h ns j (pred (List.length ns))); auto.
    apply lookup_lt_Some in Hj. lia.
Qed.

Lemma shape_next0 k x :
  (header zsl :: ns) !! k = Some x -> get_forward h x 0 = inr (ns !! k).
Proof.
  intros Hk.
  assert (0 < height h x)%nat as Hh.
  { destruct k as [|k].
    - injection Hk as <-. rewrite (shape_header_height h zsl ns Hshape).
      unfold ZSKIPLIST_MAXLEVEL. lia.
    - apply (shape_height_pos h zsl ns Hshape). eapply list_elem_of_lookup_2, Hk. }
  destruct (height_node h x O Hh) as (n & lv & Hn & Hlv).
  unfold get_forward. rewrite (deref_node_at _ _ _ Hn). cbn [bind].
  pose proof (get_level_nat _ O _ Hlv) as Hgl. change (Z.of_nat 0) with 0 in Hgl.
  rewrite Hgl. cbn [bind].
  rewrite (shape_forward _ _ _ Hshape k x n O lv Hk Hn Hlv).
  rewrite next_at_level0.
  - rewrite head_lookup, lookup_drop, Nat.add_0_r. reflexivity.
  - intros z Hz. apply (shape_height_pos h zsl ns Hshape z).
    apply list_elem_of_lookup_1 in Hz as [j Hj]. rewrite lookup_drop in Hj.
    eapply list_elem_of_lookup_2, Hj.
Qed.

(** The test of the search loop of [zslFirstInLexRange]. *)
Definition lex_pb (n : zskiplistNode) : bool :=
  negb (gte_min (default [] (obj n)) range).

Lemma lex_pb_node p : p ∈ ns -> pbp h lex_pb p = negb (gte_min (elem h p) range).
Proof.
  intros Hp. destruct (shape_elem p Hp) as (n & Hn & Ho).
  unfold pbp, lex_pb. rewrite Hn, Ho. reflexivity.
Qed.

Lemma lex_threshold : exists t, threshold h ns lex_pb t.
Proof.
  destruct (mono_threshold (pbp h lex_pb) ns) as (t & Ht & Hthr).
  - intros j1 j2 p q Hlt Hp Hq.
    rewrite (lex_pb_node p (list_elem_of_lookup_2 _ _ _ Hp)).
    rewrite (lex_pb_node q (list_elem_of_lookup_2 _ _ _ Hq)).
    rewrite !negb_true_iff. intros Hgq.
    destruct (gte_min (elem h p) range) eqn:Hgp; [|reflexivity].
    rewrite <- Hgq. symmetry. eapply gte_min_mono; [|exact Hgp].
    apply (Hsorted j1 j2); assumption.
  - exists t. split; assumption.
Qed.

(** C5, on a list in lexicographic order. When the nodes of the skip list
    stand in the lexicographic order of their elements (as they do when all
    the scores are equal) and the range is not one on which the content test
    of [zslIsInLexRange] misfires, [zslFirstInLexRange] returns the first node
    in list order whose element lies in the range, and NULL when no element
    does; in particular it returns NULL when min compares greater than max,
    or equal to it with an exclusive bound. *)
Theorem zslFirstInLexRange_first :
  content_test_sound range ->
  zslFirstInLexRange cmp minstring maxstring h zsl range
  = inr (List.find (fun p => in_lex_range range (elem h p)) ns) /\
  (range_empty range ->
   zslFirstInLexRange cmp minstring maxstring h zsl range = inr None).
Proof.
  intros Hsound.
  assert (zslFirstInLexRange cmp minstring maxstring h zsl range
          = inr (List.find (fun p => in_lex_range range (elem h p)) ns)) as Hmain.
  { destruct (zslIsInLexRange_spec Hsound) as (b & Hb & Hfalse & Htrue).
    unfold zslFirstInLexRange. rewrite Hb. cbn [bind]. destruct b; cbn [negb].
    2: { rewrite find_none; [reflexivity|]. apply Hfalse. reflexivity. }
    destruct (Htrue eq_refl) as (q & Hlast & Hgq). rewrite last_lookup in Hlast.
    destruct lex_threshold as (t & Ht).
    destruct (search_levels_threshold h zsl ns Hshape
                (lex_before_min cmp minstring maxstring range) lex_pb)
      with (t := t) (n := Z.to_nat (zsl_level zsl)) (k := O) (x := header zsl)
      as (k' & x' & Hs & _ & Hk' & Hfin).
    { intros n [o Ho]. unfold lex_before_min, node_obj, lex_pb. rewrite Ho. reflexivity. }
    { exact Ht. } { lia. } { reflexivity. }
    { rewrite (shape_header_height h zsl ns Hshape).
      pose proof (shape_level _ _ _ Hshape). lia. }
    rewrite Hs. cbn [bind].
    rewrite Hfin in Hk' by (pose proof (shape_level _ _ _ Hshape); lia).
    rewrite (shape_next0 t x' Hk'). cbn [bind].
    destruct Ht as [Htlen Hthr].
    assert (t < List.length ns)%nat as Htlt.
    { pose proof (Hthr _ _ Hlast) as Hpq.
      rewrite (lex_pb_node q (list_elem_of_lookup_2 _ _ _ Hlast)), Hgq in Hpq.
      symmetry in Hpq. apply Nat.ltb_ge in Hpq.
      apply lookup_lt_Some in Hlast. lia. }
    destruct (lookup_lt_is_Some_2 ns t Htlt) as [y Hy]. rewrite Hy.
    destruct (shape_elem y (list_elem_of_lookup_2 _ _ _ Hy)) as (yn & Hyn & Hyo).
    rewrite (deref_node_at _ _ _ Hyn). cbn [bind]. unfold node_obj. rewrite Hyo.
    cbn [bind ret].
    assert (Hbefore : forall j p, (j < t)%nat -> ns !! j = Some p ->
                                  in_lex_range range (elem h p) = false).
    { intros j p Hj Hp. pose proof (Hthr _ _ Hp) as Hpp.
      rewrite (lex_pb_node p (list_elem_of_lookup_2 _ _ _ Hp)) in Hpp.
      apply Nat.ltb_lt in Hj. rewrite Hj in Hpp. apply negb_true_iff in Hpp.
      unfold in_lex_range. now rewrite Hpp. }
    assert (Hgy : gte_min (elem h y) range = true).
    { pose proof (Hthr _ _ Hy) as Hpy.
      rewrite (lex_pb_node y (list_elem_of_lookup_2 _ _ _ Hy)), Nat.ltb_irrefl in Hpy.
      now apply negb_false_iff in Hpy. }
    destruct (lte_max (elem h y) range) eqn:Hly; cbn [negb].
    - symmetry. f_equal. apply (find_first _ ns t y Hy Hbefore).
      unfold in_lex_range. now rewrite Hgy, Hly.
    - rewrite find_none; [reflexivity|]. intros p Hp.
      apply list_elem_of_lookup_1 in Hp as [j Hj].
      destruct (Nat.lt_ge_cases j t) as [Hlt|Hge]; [now apply (Hbefore j)|].
      unfold in_lex_range. apply andb_false_iff. right.
      destruct (lte_max (elem h p) range) eqn:Hlp; [|reflexivity].
      rewrite <- Hly. symmetry. eapply lte_max_mono; [|exact Hlp].
      apply (lex_sorted_le h ns t j); auto. }
  split; [exact Hmain|].
  intros Hempty. rewrite Hmain. rewrite find_none; [reflexivity|].
  intros p _. destruct (in_lex_range range (elem h p)) eqn:Hin; [|reflexivity].
  apply in_lex_range_bounds in Hin as [H1 H2].
  destruct Hempty as [H|[H Hex]]; [lia|]. specialize (H2 Hex). lia.
Qed.

End Range.

End LexRange.

(** *** The search of [zslInsert] *)

Section InsertSearch.

Variable cmp : list Z -> list Z -> Z.
Variables (h : list (option zskiplistNode)) (zsl : zskiplist) (ns : list nat).
Hypothesis Hshape : zsl_shape h zsl ns.
Hypothesis Hspans : forall i, Z.of_nat i < zsl_level zsl -> spans_ok h zsl ns i.
Hypothesis Hsmall : Z.of_nat (List.length ns) < 2^32.
Variables (sc : spec_float) (o : list Z).

(** The test [key_before] as a boolean. *)
Definition key_pb (n : zskiplistNode) : bool :=
  dlt (score n) sc || (deq (score n) sc && (cmp (default [] (obj n)) o <? 0)).

Lemma key_before_pb n : is_Some (obj n) -> key_before cmp sc o n = inr (key_pb n).
Proof. intros [fo Ho]. unfold key_before, node_obj, key_pb. rewrite Ho. reflexivity. Qed.

(** [update[i]] and [rank[i]] are right for the place [k]. *)
Definition entry_ok (update : list (option nat)) (rank : list Z) (i k : nat) : Prop :=
  exists u p, update !! i = Some (Some u) /\ rank !! i = Some (Z.of_nat p) /\
              (header zsl :: ns) !! p = Some u /\ upd_inv h zsl ns key_pb i k u.

Lemma insert_search_spec n : forall k x update rank,
  Z.of_nat n <= zsl_level zsl ->
  List.length update = Z.to_nat ZSKIPLIST_MAXLEVEL ->
  List.length rank = Z.to_nat ZSKIPLIST_MAXLEVEL ->
  (header zsl :: ns) !! k = Some x -> (n <= height h x)%nat ->
  (if Z.of_nat n =? zsl_level zsl then k = O else rank !! n = Some (Z.of_nat k)) ->
  (forall i, (n <= i)%nat -> Z.of_nat i < zsl_level zsl -> entry_ok update rank i k) ->
  exists k' x' update' rank',
    insert_search cmp n h zsl sc o x update rank = inr (x', update', rank') /\
    (k <= k')%nat /\ (header zsl :: ns) !! k' = Some x' /\
    List.length update' = Z.to_nat ZSKIPLIST_MAXLEVEL /\
    List.length rank' = Z.to_nat ZSKIPLIST_MAXLEVEL /\
    (forall i, Z.of_nat i < zsl_level zsl -> entry_ok update' rank' i k') /\
    (k' = k \/ pbp h key_pb x' = true) /\
    (forall i, (n <= i)%nat -> update' !! i = update !! i).
Proof.
  pose proof (shape_level _ _ _ Hshape) as Hlevel. unfold ZSKIPLIST_MAXLEVEL in *.
  induction n as [|n IH]; intros k x update rank HnL Hlu Hlr Hk Hh Hrk Hinv.
  - exists k, x, update, rank. split; [reflexivity|]. split; [lia|]. split; [exact Hk|].
    split; [exact Hlu|]. split; [exact Hlr|].
    split; [intros i Hi; apply Hinv; [lia|exact Hi]|]. split; [now left|reflexivity].
  - cbn [insert_search].
    assert (Hr0 : (if Z.of_nat n =? zsl_level zsl - 1 then ret 0
                   else arr_get rank (Z.of_nat n + 1)) = inr (Z.of_nat k)).
    { destruct (Z.eqb_spec (Z.of_nat (S n)) (zsl_level zsl)) as [He|Hne].
      - destruct (Z.eqb_spec (Z.of_nat n) (zsl_level zsl - 1)); [|lia]. now subst k.
      - destruct (Z.eqb_spec (Z.of_nat n) (zsl_level zsl - 1)); [lia|].
        replace (Z.of_nat n + 1) with (Z.of_nat (S n)) by lia.
        now apply arr_get_nat. }
    rewrite Hr0. cbn [bind]. rewrite arr_set_nat by lia. cbn [bind].
    destruct (walk_spec h zsl ns Hshape (key_before cmp sc o) key_pb key_before_pb
                (List.length h) k x n (Z.of_nat k) Hk)
      as (k1 & x1 & acc1 & Hw & Hle & Hk1 & Hh1 & Hor & Hnext & Hacc & Hvis);
      [lia|pose proof (shape_length_le h zsl ns Hshape); lia|].
    rewrite Hw. cbn [bind].
    rewrite (Hacc (Hspans n ltac:(lia))).
    assert (Hk1n : (k1 <= List.length ns)%nat).
    { apply lookup_lt_Some in Hk1. cbn [List.length] in Hk1. lia. }
    replace (Z.of_nat k + Z.of_nat (k1 - k)) with (Z.of_nat k1) by lia.
    assert (Hu32 : u32 (Z.of_nat k1) = Z.of_nat k1).
    { unfold u32. apply Z.mod_small. lia. }
    rewrite Hu32.
    rewrite arr_set_nat by (rewrite length_insert; lia). cbn [bind].
    rewrite arr_set_nat by lia. cbn [bind].
    destruct (IH k1 x1 (<[n := Some x1]> update)
                (<[n := Z.of_nat k1]> (<[n := Z.of_nat k]> rank)))
      as (k' & x' & update' & rank' & Hs & Hle' & Hk' & Hlu' & Hlr' & Hinv' & Hor' & Hout);
      [lia|now rewrite length_insert|now rewrite !length_insert|exact Hk1|lia| | |].
    { destruct (Z.eqb_spec (Z.of_nat n) (zsl_level zsl)); [lia|].
      apply list_lookup_insert_eq. rewrite length_insert. lia. }
    { intros i Hi HiL. destruct (Nat.eq_dec i n) as [->|Hne].
      - exists x1, k1. split; [apply list_lookup_insert_eq; lia|].
        split; [apply list_lookup_insert_eq; rewrite length_insert; lia|].
        split; [exact Hk1|].
        exists k1. split; [exact Hk1|]. split; [lia|]. split; [exact Hh1|].
        split; [intros; lia|exact Hnext].
      - destruct (Hinv i ltac:(lia) HiL) as (u & p & Hu & Hr & Hp & Hui).
        exists u, p. split; [rewrite list_lookup_insert_ne by lia; exact Hu|].
        split; [rewrite !list_lookup_insert_ne by lia; exact Hr|].
        split; [exact Hp|].
        apply (upd_inv_extend h zsl ns key_pb i n k k1 u Hui); [lia|lia|exact Hvis]. }
    exists k', x', update', rank'. split; [exact Hs|]. split; [lia|]. split; [exact Hk'|].
    split; [exact Hlu'|]. split; [exact Hlr'|]. split; [exact Hinv'|]. split.
    { destruct Hor' as [->|Hp]; [|now right].
      rewrite Hk1 in Hk'. injection Hk' as <-.
      destruct Hor as [->|Hp]; [now left|now right]. }
    intros i Hi. rewrite (Hout i ltac:(lia)). apply list_lookup_insert_ne. lia.
Qed.

End InsertSearch.

(** *** The effect of the assignments on the heap *)

(** [x->level[i]], the fields of a node that no assignment changes, and
    [x->backward]. *)
Definition lvl_at (h : list (option zskiplistNode)) (p i : nat) : option zskiplistLevel :=
  match node_at h p with
  | Some n => level n !! i
  | None => None
  end.

Definition info_at (h : list (option zskiplistNode)) (p : nat)
  : option (option (list Z) * spec_float * nat) :=
  match node_at h p with
  | Some n => Some (obj n, score n, List.length (level n))
  | None => None
  end.

Definition backward_at (h : list (option zskiplistNode)) (p : nat) : option (option nat) :=
  match node_at h p with
  | Some n => Some (backward n)
  | None => None
  end.

Definition upd_node (h : list (option zskiplistNode)) (p : nat)
  (f : zskiplistNode -> zskiplistNode) : list (option zskiplistNode) :=
  match node_at h p with
  | Some n => <[p := Some (f n)]> h
  | None => h
  end.

Definition with_level (i : nat) (g : zskiplistLevel -> zskiplistLevel)
  (n : zskiplistNode) : zskiplistNode :=
  mk_node (obj n) (score n) (backward n)
          (match level n !! i with
           | Some lv => <[i := g lv]> (level n)
           | None => level n
           end).

Definition with_backward (b : option nat) (n : zskiplistNode) : zskiplistNode :=
  mk_node (obj n) (score n) b (level n).

Lemma node_at_upd_node h p f q :
  node_at (upd_node h p f) q
  = if decide (q = p) then option_map f (node_at h p) else node_at h q.
Proof.
  unfold upd_node. destruct (node_at h p) as [n|] eqn:Hn.
  - unfold node_at at 1. destruct (decide (q = p)) as [->|Hne].
    + rewrite list_lookup_insert_eq by (eapply node_at_lt, Hn). reflexivity.
    + rewrite list_lookup_insert_ne by congruence. reflexivity.
  - destruct (decide (q = p)) as [->|Hne]; [exact Hn|reflexivity].
Qed.

Lemma length_upd_node h p f : List.length (upd_node h p f) = List.length h.
Proof. unfold upd_node. destruct (node_at h p); [apply length_insert|reflexivity]. Qed.

Lemma lvl_at_with_level h p i g q j :
  lvl_at (upd_node h p (with_level i g)) q j
  = if decide (q = p /\ j = i) then option_map g (lvl_at h p i) else lvl_at h q j.
Proof.
  unfold lvl_at. rewrite node_at_upd_node.
  destruct (decide (q = p)) as [->|Hne].
  - destruct (node_at h p) as [n|]; cbn [option_map with_level level].
    + destruct (level n !! i) as [lv|] eqn:Hlv.
      * destruct (decide (p = p /\ j = i)) as [[_ ->]|Hn].
        -- rewrite list_lookup_insert_eq by (eapply lookup_lt_Some, Hlv). reflexivity.
        -- rewrite list_lookup_insert_ne by (intros ->; apply Hn; auto). reflexivity.
      * destruct (decide (p = p /\ j = i)) as [[_ ->]|Hn]; [exact Hlv|reflexivity].
    + destruct (decide (p = p /\ j = i)); reflexivity.
  - destruct (decide (q = p /\ j = i)) as [[-> _]|_]; [congruence|reflexivity].
Qed.

Lemma info_at_with_level h p i g q :
  info_at (upd_node h p (with_level i g)) q = info_at h q.
Proof.
  unfold info_at. rewrite node_at_upd_node.
  destruct (decide (q = p)) as [->|Hne]; [|reflexivity].
  destruct (node_at h p) as [n|]; cbn [option_map with_level obj score level]; [|reflexivity].
  destruct (level n !! i); [rewrite length_insert|]; reflexivity.
Qed.

Lemma backward_at_with_level h p i g q :
  backward_at (upd_node h p (with_level i g)) q = backward_at h q.
Proof.
  unfold backward_at. rewrite node_at_upd_node.
  destruct (decide (q = p)) as [->|Hne]; [|reflexivity].
  destruct (node_at h p) as [n|]; reflexivity.
Qed.

Lemma lvl_at_with_backward h p b q j :
  lvl_at (upd_node h p (with_backward b)) q j = lvl_at h q j.
Proof.
  unfold lvl_at. rewrite node_at_upd_node.
  destruct (decide (q = p)) as [->|Hne]; [|reflexivity].
  destruct (node_at h p) as [n|]; reflexivity.
Qed.

Lemma info_at_with_backward h p b q :
  info_at (upd_node h p (with_backward b)) q = info_at h q.
Proof.
  unfold info_at. rewrite node_at_upd_node.
  destruct (decide (q = p)) as [->|Hne]; [|reflexivity].
  destruct (node_at h p) as [n|]; reflexivity.
Qed.

Lemma backward_at_with_backward h p b q :
  backward_at (upd_node h p (with_backward b)) q
  = if decide (q = p) then option_map (fun _ => b) (backward_at h p) else backward_at h q.
Proof.
  unfold backward_at. rewrite node_at_upd_node.
  destruct (decide (q = p)) as [->|Hne]; [|reflexivity].
  destruct (node_at h p) as [n|]; reflexivity.
Qed.

Lemma lvl_at_node h p i lv :
  lvl_at h p i = Some lv -> exists n, node_at h p = Some n /\ level n !! i = Some lv.
Proof. unfold lvl_at. destruct (node_at h p) as [n|]; [eauto|discriminate]. Qed.

Lemma get_forward_ok h p i lv :
  lvl_at h p i = Some lv -> get_forward h p (Z.of_nat i) = inr (forward lv).
Proof.
  intros H. destruct (lvl_at_node _ _ _ _ H) as (n & Hn & Hlv).
  unfold get_forward. rewrite (deref_node_at _ _ _ Hn). cbn [bind].
  rewrite (get_level_nat _ _ _ Hlv). reflexivity.
Qed.

Lemma get_span_ok h p i lv :
  lvl_at h p i = Some lv -> get_span h p (Z.of_nat i) = inr (span lv).
Proof.
  intros H. destruct (lvl_at_node _ _ _ _ H) as (n & Hn & Hlv).
  unfold get_span. rewrite (deref_node_at _ _ _ Hn). cbn [bind].
  rewrite (get_level_nat _ _ _ Hlv). reflexivity.
Qed.

Lemma set_level_ok h p i lv lv' :
  lvl_at h p i = Some lv ->
  set_level h p (Z.of_nat i) lv' = inr (upd_node h p (with_level i (fun _ => lv'))).
Proof.
  intros H. destruct (lvl_at_node _ _ _ _ H) as (n & Hn & Hlv).
  unfold set_level. rewrite (deref_node_at _ _ _ Hn). cbn [bind].
  rewrite (get_level_nat _ _ _ Hlv). cbn [bind]. rewrite Nat2Z.id.
  unfold upd_node, with_level. rewrite Hn, Hlv. reflexivity.
Qed.

Lemma upd_node_ext h p f g :
  (forall n, node_at h p = Some n -> f n = g n) -> upd_node h p f = upd_node h p g.
Proof.
  intros H. unfold upd_node. destruct (node_at h p) as [n|] eqn:Hn; [|reflexivity].
  now rewrite (H n eq_refl).
Qed.

Lemma set_forward_ok h p i lv f :
  lvl_at h p i = Some lv ->
  set_forward h p (Z.of_nat i) f
  = inr (upd_node h p (with_level i (fun lv => mk_level f (span lv)))).
Proof.
  intros H. destruct (lvl_at_node _ _ _ _ H) as (n & Hn & Hlv).
  unfold set_forward. rewrite (deref_node_at _ _ _ Hn). cbn [bind].
  rewrite (get_level_nat _ _ _ Hlv). cbn [bind].
  rewrite (set_level_ok _ _ _ _ _ H). f_equal. apply upd_node_ext.
  intros n' Hn'. rewrite Hn in Hn'. injection Hn' as <-.
  unfold with_level. now rewrite Hlv.
Qed.

Lemma set_span_ok h p i lv s :
  lvl_at h p i = Some lv ->
  set_span h p (Z.of_nat i) s
  = inr (upd_node h p (with_level i (fun lv => mk_level (forward lv) (u32 s)))).
Proof.
  intros H. destruct (lvl_at_node _ _ _ _ H) as (n & Hn & Hlv).
  unfold set_span. rewrite (deref_node_at _ _ _ Hn). cbn [bind].
  rewrite (get_level_nat _ _ _ Hlv). cbn [bind].
  rewrite (set_level_ok _ _ _ _ _ H). f_equal. apply upd_node_ext.
  intros n' Hn'. rewrite Hn in Hn'. injection Hn' as <-.
  unfold with_level. now rewrite Hlv.
Qed.

Lemma set_backward_ok h p b n :
  node_at h p = Some n -> set_backward h p b = inr (upd_node h p (with_backward b)).
Proof.
  intros Hn. unfold set_backward. rewrite (deref_node_at _ _ _ Hn). cbn [bind].
  unfold upd_node. now rewrite Hn.
Qed.

Lemma height_info h h' p : info_at h p = info_at h' p -> height h p = height h' p.
Proof.
  unfold info_at, height. destruct (node_at h p), (node_at h' p); congruence.
Qed.

Lemma next_at_ext h h' i l :
  (forall p, p ∈ l -> height h p = height h' p) -> next_at h i l = next_at h' i l.
Proof.
  induction l as [|y l IH]; intros H; [reflexivity|]. cbn [next_at].
  rewrite (H y ltac:(left)), IH; [reflexivity|]. intros p Hp. apply H. now right.
Qed.

(** Nodes that have no level [i] are stepped over. *)
Lemma next_at_low h i A B :
  (forall z, z ∈ A -> (height h z <= i)%nat) ->
  next_at h i (A ++ B)
  = (fst (next_at h i B), Z.of_nat (List.length A) + snd (next_at h i B)).
Proof.
  induction A as [|a A IH]; intros H.
  - cbn. destruct (next_at h i B). cbn. f_equal. 
  - cbn [app next_at List.length].
    pose proof (H a ltac:(left)) as Ha.
    destruct (Nat.ltb_spec i (height h a)); [lia|].
    rewrite IH by (intros z Hz; apply H; now right). cbn [fst snd]. f_equal. lia.
Qed.

(** A node of [A] that has a level [i] hides what comes behind [A]. *)
Lemma next_at_found h i A B B' y :
  y ∈ A -> (i < height h y)%nat -> next_at h i (A ++ B) = next_at h i (A ++ B').
Proof.
  induction A as [|a A IH]; intros Hy Hh; [inversion Hy|].
  cbn [app next_at]. destruct (Nat.ltb_spec i (height h a)); [reflexivity|].
  apply elem_of_cons in Hy as [->|Hy]; [lia|]. now rewrite (IH Hy Hh).
Qed.

(** The heap [h'] has the nodes of [h], with the same element, score,
    number of levels and backward pointer. *)
Definition same_static (h h' : list (option zskiplistNode)) : Prop :=
  List.length h' = List.length h /\
  (forall q, info_at h' q = info_at h q) /\
  (forall q, backward_at h' q = backward_at h q).

Lemma same_static_refl h : same_static h h.
Proof. repeat split. Qed.

Lemma same_static_trans h1 h2 h3 :
  same_static h1 h2 -> same_static h2 h3 -> same_static h1 h3.
Proof.
  intros (L1 & I1 & B1) (L2 & I2 & B2). split; [congruence|].
  split; intros q; [rewrite I2; apply I1|rewrite B2; apply B1].
Qed.

Lemma same_static_with_level h p i g : same_static h (upd_node h p (with_level i g)).
Proof.
  split; [apply length_upd_node|].
  split; intros q; [apply info_at_with_level|apply backward_at_with_level].
Qed.

(** [for (i = zsl->level; i < level; i++)] of [zslInsert]. *)
Lemma insert_raise_spec zsl n : forall i h update rank,
  List.length update = Z.to_nat ZSKIPLIST_MAXLEVEL ->
  List.length rank = Z.to_nat ZSKIPLIST_MAXLEVEL ->
  (i + n <= Z.to_nat ZSKIPLIST_MAXLEVEL)%nat ->
  (forall j, (j < Z.to_nat ZSKIPLIST_MAXLEVEL)%nat -> is_Some (lvl_at h (header zsl) j)) ->
  exists h' update' rank',
    insert_raise n (Z.of_nat i) h zsl update rank = inr (h', update', rank') /\
    List.length update' = Z.to_nat ZSKIPLIST_MAXLEVEL /\
    List.length rank' = Z.to_nat ZSKIPLIST_MAXLEVEL /\
    (forall j, update' !! j
               = if decide (i <= j < i + n)%nat then Some (Some (header zsl))
                 else update !! j) /\
    (forall j, rank' !! j = if decide (i <= j < i + n)%nat then Some 0 else rank !! j) /\
    same_static h h' /\
    (forall q j, lvl_at h' q j
                 = if decide (q = header zsl /\ (i <= j < i + n)%nat)
                   then option_map (fun lv => mk_level (forward lv) (u32 (length zsl)))
                                   (lvl_at h (header zsl) j)
                   else lvl_at h q j).
Proof.
  unfold ZSKIPLIST_MAXLEVEL.
  induction n as [|n IH]; intros i h update rank Hlu Hlr Hi Hhd.
  - exists h, update, rank. split; [reflexivity|]. split; [exact Hlu|]. split; [exact Hlr|].
    split; [intros j; destruct (decide _); [lia|reflexivity]|].
    split; [intros j; destruct (decide _); [lia|reflexivity]|].
    split; [apply same_static_refl|].
    intros q j. destruct (decide _) as [[_ ?]|]; [lia|reflexivity].
  - cbn [insert_raise]. rewrite !arr_set_nat by lia. cbn [bind].
    destruct (Hhd i ltac:(lia)) as [lv Hlv].
    rewrite (set_span_ok _ _ _ _ _ Hlv). cbn [bind].
    set (h1 := upd_node h (header zsl) _).
    replace (Z.of_nat i + 1) with (Z.of_nat (S i)) by lia.
    destruct (IH (S i) h1 (<[i := Some (header zsl)]> update) (<[i := 0]> rank))
      as (h' & update' & rank' & Hr & Hlu' & Hlr' & Hu' & Hr' & Hst & Hlv');
      [now rewrite length_insert|now rewrite length_insert|lia| |].
    { intros j Hj. subst h1. rewrite lvl_at_with_level.
      destruct (decide _) as [[_ ->]|_]; [rewrite Hlv; cbn; eauto|apply Hhd, Hj]. }
    exists h', update', rank'. split; [exact Hr|]. split; [exact Hlu'|]. split; [exact Hlr'|].
    split.
    { intros j. rewrite Hu'. destruct (decide (S i <= j < S i + n)%nat).
      - destruct (decide _); [reflexivity|lia].
      - destruct (decide (i <= j < i + S n)%nat).
        + assert (j = i) as -> by lia. apply list_lookup_insert_eq. lia.
        + apply list_lookup_insert_ne. lia. }
    split.
    { intros j. rewrite Hr'. destruct (decide (S i <= j < S i + n)%nat).
      - destruct (decide _); [reflexivity|lia].
      - destruct (decide (i <= j < i + S n)%nat).
        + assert (j = i) as -> by lia. apply list_lookup_insert_eq. lia.
        + apply list_lookup_insert_ne. lia. }
    split; [eapply same_static_trans; [apply same_static_with_level|exact Hst]|].
    intros q j. rewrite Hlv'. subst h1. rewrite !lvl_at_with_level.
    destruct (decide (q = header zsl /\ (S i <= j < S i + n)%nat)) as [[-> Hj]|Hn1].
    + destruct (decide (header zsl = header zsl /\ j = i)) as [[_ ->]|_]; [lia|].
      destruct (decide _) as [_|Hn]; [reflexivity|exfalso; apply Hn; split; [reflexivity|lia]].
    + destruct (decide (q = header zsl /\ j = i)) as [[-> ->]|Hn2].
      * destruct (decide _) as [_|Hn]; [reflexivity|exfalso; apply Hn; split; [reflexivity|lia]].
      * destruct (decide _) as [[-> Hj]|_]; [|reflexivity].
        exfalso. destruct (Nat.eq_dec j i) as [->|]; [apply Hn2; auto|apply Hn1; split; [reflexivity|lia]].
Qed.

(** What the splice of [zslInsert] leaves in [level[j]] of the node [q]. *)
Definition splice_level (h : list (option zskiplistNode)) (x : nat)
  (update : list (option nat)) (rank : list Z) (r0 : Z) (q j : nat)
  : option zskiplistLevel :=
  match update !! j, rank !! j with
  | Some (Some u), Some rj =>
      if decide (q = x) then
        option_map (fun lvu => mk_level (forward lvu) (u32 (span lvu - u32 (r0 - rj))))
                   (lvl_at h u j)
      else if decide (q = u) then
        option_map (fun lvu => mk_level (Some x) (u32 (u32 (r0 - rj) + 1))) (lvl_at h u j)
      else lvl_at h q j
  | _, _ => lvl_at h q j
  end.

Lemma splice_level_ext h h' x update rank r0 q j :
  (forall p, lvl_at h' p j = lvl_at h p j) ->
  splice_level h' x update rank r0 q j = splice_level h x update rank r0 q j.
Proof.
  intros H. unfold splice_level.
  destruct (update !! j) as [[u|]|]; try apply H.
  destruct (rank !! j); [|apply H]. now rewrite !H.
Qed.

(** [for (i = 0; i < level; i++)] of [zslInsert]. *)
Lemma insert_splice_spec x update rank r0 n : forall i h,
  rank !! O = Some r0 ->
  (forall j, (i <= j < i + n)%nat ->
     exists u rj, update !! j = Some (Some u) /\ rank !! j = Some rj /\ u <> x /\
                  is_Some (lvl_at h u j) /\ is_Some (lvl_at h x j)) ->
  exists h',
    insert_splice n (Z.of_nat i) h x update rank = inr h' /\
    same_static h h' /\
    (forall q j, lvl_at h' q j
                 = if decide (i <= j < i + n)%nat
                   then splice_level h x update rank r0 q j
                   else lvl_at h q j).
Proof.
  induction n as [|n IH]; intros i h Hr0 Hpre.
  - exists h. split; [reflexivity|]. split; [apply same_static_refl|].
    intros q j. destruct (decide _); [lia|reflexivity].
  - cbn [insert_splice].
    destruct (Hpre i ltac:(lia)) as (u & ri & Hu & Hri & Hux & [lvu Hlvu] & [lvx Hlvx]).
    rewrite (arr_get_nat _ _ _ Hu). cbn [bind some_ptr ret].
    rewrite (get_forward_ok _ _ _ _ Hlvu). cbn [bind].
    rewrite (set_forward_ok _ _ _ _ _ Hlvx). cbn [bind].
    set (ha := upd_node h x _).
    assert (Hau : lvl_at ha u i = Some lvu).
    { subst ha. rewrite lvl_at_with_level. destruct (decide _) as [[? _]|_]; [congruence|exact Hlvu]. }
    rewrite (set_forward_ok _ _ _ _ _ Hau). cbn [bind].
    set (hb := upd_node ha u _).
    assert (Hbu : lvl_at hb u i = Some (mk_level (Some x) (span lvu))).
    { subst hb. rewrite lvl_at_with_level. destruct (decide _) as [_|Hn]; [|exfalso; auto].
      now rewrite Hau. }
    rewrite (get_span_ok _ _ _ _ Hbu). cbn [bind span].
    change 0 with (Z.of_nat 0). rewrite (arr_get_nat _ _ _ Hr0). cbn [bind].
    rewrite (arr_get_nat _ _ _ Hri). cbn [bind].
    assert (Hbx : lvl_at hb x i = Some (mk_level (forward lvu) (span lvx))).
    { subst hb. rewrite lvl_at_with_level. destruct (decide _) as [[? _]|_]; [congruence|].
      subst ha. rewrite lvl_at_with_level. destruct (decide _) as [_|Hn]; [|exfalso; auto].
      now rewrite Hlvx. }
    rewrite (set_span_ok _ _ _ _ _ Hbx). cbn [bind].
    set (hc := upd_node hb x _).
    assert (Hcu : lvl_at hc u i = Some (mk_level (Some x) (span lvu))).
    { subst hc. rewrite lvl_at_with_level. destruct (decide _) as [[? _]|_]; [congruence|exact Hbu]. }
    rewrite (set_span_ok _ _ _ _ _ Hcu). cbn [bind].
    set (hd := upd_node hc u _).
    replace (Z.of_nat i + 1) with (Z.of_nat (S i)) by lia.
    assert (Hd : forall q j, lvl_at hd q j
                 = if decide (j = i) then splice_level h x update rank r0 q i
                   else lvl_at h q j).
    { intros q j. subst hd hc hb ha. rewrite !lvl_at_with_level.
      unfold splice_level. rewrite Hu, Hri, Hlvu, Hlvx. cbn [option_map forward span].
      destruct (decide (j = i)) as [->|Hne].
      - destruct (decide (q = x)) as [->|Hqx].
        + repeat (destruct (decide _) as [[? ?]|?]; try congruence; try tauto).
        + destruct (decide (q = u)) as [->|Hqu].
          * repeat (destruct (decide _) as [[? ?]|?]; try congruence; try tauto).
          * repeat (destruct (decide _) as [[? ?]|?]; try congruence; try tauto).
      - repeat (destruct (decide _) as [[? ?]|?]; try congruence; try tauto). }
    destruct (IH (S i) hd Hr0) as (h' & Hs & Hst & Hlv').
    { intros j Hj. destruct (Hpre j ltac:(lia)) as (u' & rj & Hu' & Hrj & Hne & Hl1 & Hl2).
      exists u', rj. rewrite !Hd. destruct (decide (j = i)); [lia|]. auto. }
    exists h'. split; [exact Hs|]. split.
    { apply (same_static_trans _ ha); [apply same_static_with_level|].
      apply (same_static_trans _ hb); [apply same_static_with_level|].
      apply (same_static_trans _ hc); [apply same_static_with_level|].
      apply (same_static_trans _ hd); [apply same_static_with_level|exact Hst]. }
    intros q j. rewrite Hlv'.
    destruct (decide (S i <= j < S i + n)%nat).
    + destruct (decide (i <= j < i + S n)%nat); [|lia].
      apply splice_level_ext. intros p0. rewrite Hd. destruct (decide (j = i)); [lia|reflexivity].
    + rewrite Hd. destruct (decide (j = i)) as [->|].
      * destruct (decide _); [reflexivity|lia].
      * destruct (decide _); [lia|reflexivity].
Qed.

(** What [update[i]->level[i].span++] leaves in [level[j]] of the node [q]. *)
Definition bump_level (h : list (option zskiplistNode)) (update : list (option nat))
  (q j : nat) : option zskiplistLevel :=
  match update !! j with
  | Some (Some u) =>
      if decide (q = u) then
        option_map (fun lv => mk_level (forward lv) (u32 (span lv + 1))) (lvl_at h u j)
      else lvl_at h q j
  | _ => lvl_at h q j
  end.

Lemma bump_level_ext h h' update q j :
  (forall p, lvl_at h' p j = lvl_at h p j) ->
  bump_level h' update q j = bump_level h update q j.
Proof.
  intros H. unfold bump_level.
  destruct (update !! j) as [[u|]|]; try apply H. now rewrite !H.
Qed.

Lemma insert_bump_spec update n : forall i h,
  (forall j, (i <= j < i + n)%nat ->
     exists u, update !! j = Some (Some u) /\ is_Some (lvl_at h u j)) ->
  exists h',
    insert_bump n (Z.of_nat i) h update = inr h' /\
    same_static h h' /\
    (forall q j, lvl_at h' q j
                 = if decide (i <= j < i + n)%nat then bump_level h update q j
                   else lvl_at h q j).
Proof.
  induction n as [|n IH]; intros i h Hpre.
  - exists h. split; [reflexivity|]. split; [apply same_static_refl|].
    intros q j. destruct (decide _); [lia|reflexivity].
  - cbn [insert_bump].
    destruct (Hpre i ltac:(lia)) as (u & Hu & [lvu Hlvu]).
    rewrite (arr_get_nat _ _ _ Hu). cbn [bind some_ptr ret].
    rewrite (get_span_ok _ _ _ _ Hlvu). cbn [bind].
    rewrite (set_span_ok _ _ _ _ _ Hlvu). cbn [bind].
    set (ha := upd_node h u _).
    replace (Z.of_nat i + 1) with (Z.of_nat (S i)) by lia.
    assert (Ha : forall q j, lvl_at ha q j
                 = if decide (j = i) then bump_level h update q i else lvl_at h q j).
    { intros q j. subst ha. rewrite lvl_at_with_level. unfold bump_level.
      rewrite Hu, Hlvu. cbn [option_map].
      destruct (decide (j = i)) as [->|Hne].
      - destruct (decide (q = u)) as [->|Hqu].
        + destruct (decide _) as [_|Hn]; [reflexivity|exfalso; auto].
        + destruct (decide _) as [[? _]|_]; [congruence|reflexivity].
      - destruct (decide _) as [[_ ?]|_]; [congruence|reflexivity]. }
    destruct (IH (S i) ha) as (h' & Hs & Hst & Hlv').
    { intros j Hj. destruct (Hpre j ltac:(lia)) as (u' & Hu' & Hl).
      exists u'. rewrite Ha. destruct (decide (j = i)); [lia|]. auto. }
    exists h'. split; [exact Hs|]. split.
    { apply (same_static_trans _ ha); [apply same_static_with_level|exact Hst]. }
    intros q j. rewrite Hlv'.
    destruct (decide (S i <= j < S i + n)%nat).
    + destruct (decide (i <= j < i + S n)%nat); [|lia].
      apply bump_level_ext. intros p0. rewrite Ha. destruct (decide (j = i)); [lia|reflexivity].
    + rewrite Ha. destruct (decide (j = i)) as [->|].
      * destruct (decide _); [reflexivity|lia].
      * destruct (decide _); [lia|reflexivity].
Qed.

(** The skip list [zsl] in the heap [h] holds the nodes [ns], in this order:
    header, levels, forward pointers and spans, backward pointers, tail and
    length. *)
Record zsl_rep (h : list (option zskiplistNode)) (zsl : zskiplist) (ns : list nat)
  : Prop := mk_rep {
  rep_nodup : NoDup (header zsl :: ns);
  rep_level : 1 <= zsl_level zsl <= ZSKIPLIST_MAXLEVEL;
  rep_header : exists sc,
      info_at h (header zsl) = Some (None, sc, Z.to_nat ZSKIPLIST_MAXLEVEL);
  rep_nodes : forall p, p ∈ ns ->
      exists o sc L, info_at h p = Some (Some o, sc, L) /\
                     (1 <= L <= Z.to_nat (zsl_level zsl))%nat;
  rep_forward : forall k x i lv,
      (header zsl :: ns) !! k = Some x -> lvl_at h x i = Some lv ->
      forward lv = fst (next_at h i (drop k ns));
  rep_span : forall k x i lv,
      (header zsl :: ns) !! k = Some x -> lvl_at h x i = Some lv ->
      Z.of_nat i < zsl_level zsl ->
      span lv = snd (next_at h i (drop k ns));
  rep_backward : forall k x, ns !! k = Some x ->
      backward_at h x = Some (match k with O => None | S k' => ns !! k' end);
  rep_tail : tail zsl = last ns;
  rep_length : length zsl = Z.of_nat (List.length ns)
}.

Lemma info_at_node h p o sc L :
  info_at h p = Some (o, sc, L) ->
  exists n, node_at h p = Some n /\ obj n = o /\ score n = sc /\ List.length (level n) = L.
Proof.
  unfold info_at. destruct (node_at h p) as [n|]; [|discriminate].
  intros [= <- <- <-]. eauto.
Qed.

Lemma rep_shape h zsl ns : zsl_rep h zsl ns -> zsl_shape h zsl ns.
Proof.
  intros R. split.
  - apply (rep_nodup _ _ _ R).
  - apply (rep_level _ _ _ R).
  - destruct (rep_header _ _ _ R) as (sc & Hi).
    destruct (info_at_node _ _ _ _ _ Hi) as (n & Hn & Ho & _ & HL). eauto.
  - intros p Hp. destruct (rep_nodes _ _ _ R p Hp) as (o & sc & L & Hi & HL).
    destruct (info_at_node _ _ _ _ _ Hi) as (n & Hn & Ho & _ & HL').
    exists n. split; [exact Hn|]. split; [rewrite Ho; eauto|]. now rewrite HL'.
  - intros k x n i lv Hk Hn Hlv. apply (rep_forward _ _ _ R k x i lv Hk).
    unfold lvl_at. now rewrite Hn.
  - apply (rep_tail _ _ _ R).
Qed.

Lemma rep_spans h zsl ns i :
  zsl_rep h zsl ns -> Z.of_nat i < zsl_level zsl -> spans_ok h zsl ns i.
Proof.
  intros R Hi k x n lv Hk Hn Hlv. apply (rep_span _ _ _ R k x i lv Hk); [|exact Hi].
  unfold lvl_at. now rewrite Hn.
Qed.

(** *** Lists with one more node *)

Definition insert_at {A} (t : nat) (x : A) (l : list A) : list A :=
  take t l ++ x :: drop t l.

Lemma length_insert_at {A} t (x : A) l :
  List.length (insert_at t x l) = S (List.length l).
Proof.
  unfold insert_at. rewrite length_app. cbn [List.length].
  rewrite length_take, length_drop. lia.
Qed.

Lemma lookup_insert_at {A} t (x : A) l k :
  (t <= List.length l)%nat ->
  insert_at t x l !! k
  = if decide (k < t)%nat then l !! k
    else if decide (k = t) then Some x else l !! (k - 1)%nat.
Proof.
  intros Ht. unfold insert_at.
  assert (Hlt : List.length (take t l) = t) by (rewrite length_take; lia).
  destruct (decide (k < t)%nat).
  - rewrite lookup_app_l by lia. apply lookup_take_lt. lia.
  - rewrite lookup_app_r by lia. rewrite Hlt.
    destruct (decide (k = t)) as [->|Hne].
    + now rewrite Nat.sub_diag.
    + rewrite lookup_cons_ne_0 by lia. rewrite lookup_drop. f_equal. lia.
Qed.

Lemma insert_at_cons {A} t (x a : A) l :
  a :: insert_at t x l = insert_at (S t) x (a :: l).
Proof. reflexivity. Qed.

Lemma drop_insert_at_le {A} t (x : A) l k :
  (k <= t <= List.length l)%nat ->
  drop k (insert_at t x l) = drop k (take t l) ++ x :: drop t l.
Proof.
  intros Hk. unfold insert_at. apply drop_app_le. rewrite length_take. lia.
Qed.

Lemma drop_insert_at_gt {A} t (x : A) l k :
  (t < k)%nat -> (t <= List.length l)%nat ->
  drop k (insert_at t x l) = drop (k - 1) l.
Proof.
  intros Hk Ht. unfold insert_at. rewrite drop_app_ge by (rewrite length_take; lia).
  rewrite length_take. replace (t `min` List.length l)%nat with t by lia.
  destruct (k - t)%nat as [|d] eqn:Hd; [lia|]. cbn [drop]. rewrite drop_drop.
  f_equal. lia.
Qed.

Lemma length_drop_take {A} (l : list A) k t :
  (k <= t <= List.length l)%nat -> List.length (drop k (take t l)) = (t - k)%nat.
Proof. intros H. rewrite length_drop, length_take. lia. Qed.

Lemma elem_of_drop_take {A} (l : list A) k t z :
  z ∈ drop k (take t l) -> exists j, (k <= j < t)%nat /\ l !! j = Some z.
Proof.
  intros Hz. apply list_elem_of_lookup_1 in Hz as [j Hj].
  rewrite lookup_drop, lookup_take in Hj.
  destruct (decide (k + j < t)%nat); [|discriminate].
  exists (k + j)%nat. split; [lia|exact Hj].
Qed.

Lemma insert_at_perm {A} t (x : A) l : insert_at t x l ≡ₚ x :: l.
Proof.
  unfold insert_at. rewrite <- Permutation_middle. now rewrite take_drop.
Qed.

(** *** The list after the splice of [zslInsert] *)

Section InsertRep.

Variables (h1 : list (option zskiplistNode)) (zsl1 : zskiplist) (ns : list nat).
Hypothesis R1 : zsl_rep h1 zsl1 ns.
Hypothesis Hsmall : Z.of_nat (List.length ns) + 1 < 2^32.

(** The new node [x], of [lvl] levels, goes behind the first [t] nodes. *)
Variable t : nat.
Hypothesis Ht : (t <= List.length ns)%nat.
Variables (update : list (option nat)) (rank : list Z).
Variables (x lvl : nat) (o : list Z) (sc : spec_float).
Hypothesis Hlvl : (1 <= lvl)%nat /\ Z.of_nat lvl <= zsl_level zsl1.
Hypothesis Hfresh : node_at h1 x = None.

(** [u], at the place [p], is the last node before the new one that has a
    level [i]. *)
Definition place_ok (i u p : nat) : Prop :=
  (header zsl1 :: ns) !! p = Some u /\ (p <= t)%nat /\ (i < height h1 u)%nat /\
  forall j z, (p < j <= t)%nat -> (header zsl1 :: ns) !! j = Some z ->
              (height h1 z <= i)%nat.

Hypothesis Hentries : forall i, Z.of_nat i < zsl_level zsl1 ->
  exists u p, update !! i = Some (Some u) /\ rank !! i = Some (Z.of_nat p) /\
              place_ok i u p.
Hypothesis Hupd_out : forall i u, update !! i = Some (Some u) -> Z.of_nat i < zsl_level zsl1.

(** [level[j]] of the node [q] in the end. *)
Definition final_level (q j : nat) : option zskiplistLevel :=
  match update !! j, rank !! j with
  | Some (Some u), Some rj =>
      if decide (j < lvl)%nat then
        if decide (q = x) then
          option_map (fun lvu => mk_level (forward lvu)
                                          (u32 (span lvu - u32 (Z.of_nat t - rj))))
                     (lvl_at h1 u j)
        else if decide (q = u) then
          option_map (fun lvu => mk_level (Some x) (u32 (u32 (Z.of_nat t - rj) + 1)))
                     (lvl_at h1 u j)
        else lvl_at h1 q j
      else if decide (q = u) then
        option_map (fun lv => mk_level (forward lv) (u32 (span lv + 1))) (lvl_at h1 u j)
      else lvl_at h1 q j
  | _, _ => lvl_at h1 q j
  end.

Variable h' : list (option zskiplistNode).
Hypothesis Hinfo_x : info_at h' x = Some (Some o, sc, lvl).
Hypothesis Hinfo : forall q, q <> x -> info_at h' q = info_at h1 q.
Hypothesis Hlev : forall q j, lvl_at h' q j = final_level q j.
Hypothesis Hback : forall q,
  backward_at h' q
  = if decide (q = x) then Some (match t with O => None | S t' => ns !! t' end)
    else if decide (ns !! t = Some q) then Some (Some x)
    else backward_at h1 q.

Definition zsl_after : zskiplist :=
  mk_zsl (header zsl1)
         (match ns !! t with Some _ => tail zsl1 | None => Some x end)
         (u64 (length zsl1 + 1)) (zsl_level zsl1).

Lemma old_node_info q : q ∈ header zsl1 :: ns -> is_Some (info_at h1 q).
Proof.
  intros Hq. apply elem_of_cons in Hq as [->|Hq].
  - destruct (rep_header _ _ _ R1) as (s0 & ->). eauto.
  - destruct (rep_nodes _ _ _ R1 q Hq) as (o' & s' & L & -> & _). eauto.
Qed.

Lemma fresh_not_old : x ∉ header zsl1 :: ns.
Proof.
  intros Hx. destruct (old_node_info x Hx) as [i Hi].
  unfold info_at in Hi. rewrite Hfresh in Hi. discriminate.
Qed.

Lemma old_ne_fresh q : q ∈ header zsl1 :: ns -> q <> x.
Proof. intros Hq ->. now apply fresh_not_old. Qed.

Lemma height_old q : q <> x -> height h' q = height h1 q.
Proof. intros Hq. apply height_info, Hinfo, Hq. Qed.

Lemma height_new : height h' x = lvl.
Proof.
  destruct (info_at_node _ _ _ _ _ Hinfo_x) as (n & Hn & _ & _ & HL).
  unfold height. now rewrite Hn.
Qed.

Lemma next_at_old i l : (forall z, z ∈ l -> z ∈ ns) -> next_at h' i l = next_at h1 i l.
Proof.
  intros Hl. apply next_at_ext. intros p Hp. apply height_old, old_ne_fresh.
  right. apply Hl, Hp.
Qed.

Lemma drop_in_ns k z : z ∈ drop k ns -> z ∈ ns.
Proof.
  intros Hz. apply list_elem_of_lookup_1 in Hz as [j Hj]. rewrite lookup_drop in Hj.
  eapply list_elem_of_lookup_2, Hj.
Qed.

Lemma node_height_le q : q ∈ ns -> (1 <= height h1 q <= Z.to_nat (zsl_level zsl1))%nat.
Proof.
  intros Hq. destruct (rep_nodes _ _ _ R1 q Hq) as (o' & s' & L & Hi & HL).
  destruct (info_at_node _ _ _ _ _ Hi) as (n & Hn & _ & _ & HL').
  unfold height. rewrite Hn. lia.
Qed.

Lemma lvl_at_height h q j lv : lvl_at h q j = Some lv -> (j < height h q)%nat.
Proof.
  unfold lvl_at, height. destruct (node_at h q) as [n|]; [|discriminate].
  apply lookup_lt_Some.
Qed.

(** The place of [update[i]] is the only one up to [t] whose node has a
    level [i] and nothing of that level behind it. *)
Lemma place_unique i u p k q :
  place_ok i u p -> (header zsl1 :: ns) !! k = Some q -> (k <= t)%nat ->
  (i < height h1 q)%nat ->
  (forall z, z ∈ drop k (take t ns) -> (height h1 z <= i)%nat) ->
  k = p /\ q = u.
Proof.
  intros (Hp & Hpt & Hhu & Hgap) Hk Hkt Hhq Hlow.
  assert (k = p) as ->.
  { destruct (Nat.lt_trichotomy k p) as [Hlt|[->|Hgt]]; [exfalso|reflexivity|exfalso].
    - destruct p as [|p']; [lia|].
      assert (ns !! p' = Some u) as Hu by exact Hp.
      assert (height h1 u <= i)%nat; [|lia]. apply Hlow.
      apply (list_elem_of_lookup_2 _ (p' - k)%nat).
      rewrite lookup_drop, lookup_take_lt by lia.
      replace (k + (p' - k))%nat with p' by lia. exact Hu.
    - pose proof (Hgap k q ltac:(lia) Hk). lia. }
  split; [reflexivity|]. rewrite Hp in Hk. now injection Hk.
Qed.

Lemma final_level_other q i :
  q <> x -> (forall u, update !! i = Some (Some u) -> q <> u) ->
  final_level q i = lvl_at h1 q i.
Proof.
  intros Hqx Hqu. unfold final_level.
  destruct (update !! i) as [[u|]|]; try reflexivity.
  destruct (rank !! i); [|reflexivity].
  pose proof (Hqu u eq_refl).
  repeat (destruct (decide _); try congruence).
Qed.

Lemma gap_low i u p :
  place_ok i u p -> forall z, z ∈ drop p (take t ns) -> (height h1 z <= i)%nat.
Proof.
  intros (_ & _ & _ & Hgap) z Hz.
  apply elem_of_drop_take in Hz as (j & Hj & Hz).
  apply (Hgap (S j) z); [lia|exact Hz].
Qed.

Lemma low_new i (A : list nat) : (forall z, z ∈ A -> z ∈ ns) ->
  (forall z, z ∈ A -> (height h1 z <= i)%nat) ->
  forall z, z ∈ A -> (height h' z <= i)%nat.
Proof.
  intros Hin Hlow z Hz. rewrite height_old; [now apply Hlow|].
  apply old_ne_fresh. right. now apply Hin.
Qed.

Lemma drop_take_in_ns k z : z ∈ drop k (take t ns) -> z ∈ ns.
Proof.
  intros Hz. apply elem_of_drop_take in Hz as (j & _ & Hz).
  eapply list_elem_of_lookup_2, Hz.
Qed.

Lemma u32_small v : 0 <= v < 2^32 -> u32 v = v.
Proof. intros Hv. unfold u32. now apply Z.mod_small. Qed.

Lemma next_at_snd_bounds h i l :
  0 <= snd (next_at h i l) <= Z.of_nat (List.length l).
Proof.
  induction l as [|y l IH]; cbn [next_at List.length]; [cbn; lia|].
  destruct (_ <? _)%nat; cbn [snd]; lia.
Qed.

(** Before the new node. *)
Lemma after_levels_before k x' i lv :
  (k <= t)%nat -> (header zsl1 :: ns) !! k = Some x' ->
  lvl_at h' x' i = Some lv ->
  forward lv = fst (next_at h' i (drop k (insert_at t x ns))) /\
  (Z.of_nat i < zsl_level zsl1 ->
   span lv = snd (next_at h' i (drop k (insert_at t x ns)))).
Proof.
  intros Hkt Hk Hlv.
  assert (Hx' : x' <> x) by (apply old_ne_fresh; eapply list_elem_of_lookup_2, Hk).
  pose proof (lvl_at_height _ _ _ _ Hlv) as Hh. rewrite (height_old _ Hx') in Hh.
  rewrite drop_insert_at_le by lia.
  set (A := drop k (take t ns)). set (B := drop t ns).
  assert (HAB : drop k ns = A ++ B) by (symmetry; apply drop_take_drop; lia).
  assert (HA : forall z, z ∈ A -> z ∈ ns) by (intros z; apply drop_take_in_ns).
  assert (HB : forall z, z ∈ B -> z ∈ ns) by (intros z; apply drop_in_ns).
  assert (HlenA : List.length A = (t - k)%nat) by (apply length_drop_take; lia).
  rewrite Hlev in Hlv.
  destruct (decide (Forall (fun z => height h1 z <= i)%nat A)) as [Hlow|Hnl].
  - rewrite Forall_forall in Hlow.
    rewrite (next_at_low h' i A (x :: B)) by (apply low_new; auto). cbn [fst snd].
    destruct (decide (Z.of_nat i < zsl_level zsl1)) as [HiL|HiL].
    + destruct (Hentries i HiL) as (u & p & Hu & Hr & Hpl).
      destruct (place_unique i u p k x' Hpl Hk Hkt Hh Hlow) as [-> ->].
      destruct (lvl_at h1 u i) as [L|] eqn:HL;
        [|exfalso; unfold lvl_at in HL; unfold height in Hh;
          destruct (node_at h1 u); [apply lookup_ge_None in HL; lia|lia]].
      pose proof (rep_forward _ _ _ R1 p u i L (proj1 Hpl) HL) as HfL.
      pose proof (rep_span _ _ _ R1 p u i L (proj1 Hpl) HL HiL) as HsL.
      rewrite HAB, (next_at_low h1 i A B Hlow) in HfL, HsL. cbn [fst snd] in HfL, HsL.
      pose proof (next_at_snd_bounds h1 i B) as Hb.
      assert (List.length B = (List.length ns - t)%nat) as HlenB by apply length_drop.
      unfold final_level in Hlv. rewrite Hu, Hr, HL in Hlv. cbn [option_map] in Hlv.
      destruct (decide (i < lvl)%nat) as [Hil|Hil].
      * destruct (decide (u = x)); [congruence|].
        destruct (decide (u = u)); [|congruence]. injection Hlv as <-.
        cbn [forward span next_at]. rewrite height_new.
        destruct (Nat.ltb_spec i lvl); [|lia]. cbn [fst snd].
        split; [reflexivity|intros _].
        rewrite (u32_small (Z.of_nat t - Z.of_nat p)) by lia.
        rewrite u32_small by lia. lia.
      * destruct (decide (u = u)); [|congruence]. injection Hlv as <-.
        cbn [forward span next_at]. rewrite height_new.
        destruct (Nat.ltb_spec i lvl); [lia|]. cbn [fst snd].
        rewrite (next_at_old i B HB).
        split; [exact HfL|intros _]. rewrite u32_small by lia. lia.
    + rewrite final_level_other in Hlv;
        [|exact Hx'|intros u Hu; exfalso; apply HiL; eapply Hupd_out, Hu].
      split; [|intros; lia].
      rewrite (rep_forward _ _ _ R1 k x' i lv Hk Hlv), HAB, (next_at_low h1 i A B Hlow).
      cbn [fst next_at]. rewrite height_new.
      destruct (Nat.ltb_spec i lvl); [lia|]. cbn [fst].
      now rewrite (next_at_old i B HB).
  - apply not_Forall_Exists in Hnl; [|intros z; apply _].
    apply Exists_exists in Hnl as (z & Hz & Hzh). cbn in Hzh.
    rewrite (next_at_found h' i A (x :: B) B z Hz)
      by (rewrite height_old; [lia|apply old_ne_fresh; right; auto]).
    rewrite next_at_old by (intros w Hw; apply elem_of_app in Hw as [|]; auto).
    rewrite <- HAB.
    rewrite final_level_other in Hlv; [|exact Hx'|].
    + split; [apply (rep_forward _ _ _ R1 k x' i lv Hk Hlv)|].
      apply (rep_span _ _ _ R1 k x' i lv Hk Hlv).
    + intros u Hu ->.
      destruct (Hentries i (Hupd_out i u Hu)) as (u' & p & Hu' & _ & Hpl).
      rewrite Hu in Hu'. injection Hu' as <-.
      assert (k = p) as ->.
      { eapply NoDup_lookup; [apply (rep_nodup _ _ _ R1)|exact Hk|apply Hpl]. }
      pose proof (gap_low i u p Hpl z Hz). lia.
Qed.

(** The new node. *)
Lemma after_levels_new i lv :
  lvl_at h' x i = Some lv ->
  forward lv = fst (next_at h' i (drop t ns)) /\
  (Z.of_nat i < zsl_level zsl1 -> span lv = snd (next_at h' i (drop t ns))).
Proof.
  intros Hlv. rewrite Hlev in Hlv.
  assert (Hx1 : forall j, lvl_at h1 x j = None) by (intros j; unfold lvl_at; now rewrite Hfresh).
  destruct (update !! i) as [[u|]|] eqn:Hu;
    [|unfold final_level in Hlv; rewrite Hu, Hx1 in Hlv; discriminate..].
  pose proof (Hupd_out i u Hu) as HiL.
  destruct (Hentries i HiL) as (u' & p & Hu' & Hr & Hpl).
  rewrite Hu in Hu'. injection Hu' as <-.
  assert (Hux : u <> x).
  { apply old_ne_fresh. eapply list_elem_of_lookup_2, Hpl. }
  unfold final_level in Hlv. rewrite Hu, Hr in Hlv.
  destruct (decide (i < lvl)%nat) as [Hil|Hil].
  2: { destruct (decide (x = u)); [congruence|]. rewrite Hx1 in Hlv. discriminate. }
  destruct (decide (x = x)); [|congruence].
  destruct (lvl_at h1 u i) as [L|] eqn:HL; [|discriminate]. injection Hlv as <-.
  cbn [forward span].
  set (A := drop p (take t ns)). set (B := drop t ns).
  assert (HAB : drop p ns = A ++ B) by (symmetry; apply drop_take_drop; destruct Hpl; lia).
  assert (HlenA : List.length A = (t - p)%nat) by (apply length_drop_take; destruct Hpl; lia).
  pose proof (rep_forward _ _ _ R1 p u i L (proj1 Hpl) HL) as HfL.
  pose proof (rep_span _ _ _ R1 p u i L (proj1 Hpl) HL HiL) as HsL.
  rewrite HAB, (next_at_low h1 i A B (gap_low i u p Hpl)) in HfL, HsL.
  cbn [fst snd] in HfL, HsL.
  rewrite (next_at_old i B) by (intros z; apply drop_in_ns).
  split; [exact HfL|intros _].
  pose proof (next_at_snd_bounds h1 i B) as Hb.
  assert (List.length B = (List.length ns - t)%nat) as HlenB by apply length_drop.
  destruct Hpl as (_ & Hpt & _).
  rewrite (u32_small (Z.of_nat t - Z.of_nat p)) by lia.
  rewrite u32_small by lia. lia.
Qed.

(** Behind the new node. *)
Lemma after_levels_behind k x' i lv :
  (t < k)%nat -> (header zsl1 :: ns) !! k = Some x' ->
  lvl_at h' x' i = Some lv ->
  forward lv = fst (next_at h' i (drop k ns)) /\
  (Z.of_nat i < zsl_level zsl1 -> span lv = snd (next_at h' i (drop k ns))).
Proof.
  intros Hkt Hk Hlv. rewrite Hlev in Hlv.
  rewrite (next_at_old i (drop k ns)) by (intros z; apply drop_in_ns).
  rewrite final_level_other in Hlv.
  - split; [apply (rep_forward _ _ _ R1 k x' i lv Hk Hlv)|].
    apply (rep_span _ _ _ R1 k x' i lv Hk Hlv).
  - apply old_ne_fresh. eapply list_elem_of_lookup_2, Hk.
  - intros u Hu ->.
    destruct (Hentries i (Hupd_out i u Hu)) as (u' & p & Hu' & _ & Hpl).
    rewrite Hu in Hu'. injection Hu' as <-.
    assert (k = p) as ->.
    { eapply NoDup_lookup; [apply (rep_nodup _ _ _ R1)|exact Hk|apply Hpl]. }
    destruct Hpl as (_ & ? & _). lia.
Qed.

Lemma insert_rep : zsl_rep h' zsl_after (insert_at t x ns).
Proof.
  pose proof (rep_nodup _ _ _ R1) as Hnd.
  split; cbn [header zsl_level tail length zsl_after].
  - rewrite insert_at_cons, insert_at_perm. apply NoDup_cons. split; [apply fresh_not_old|exact Hnd].
  - apply (rep_level _ _ _ R1).
  - destruct (rep_header _ _ _ R1) as (s0 & Hs0). exists s0.
    rewrite Hinfo; [exact Hs0|]. apply old_ne_fresh. now left.
  - intros p Hp. rewrite insert_at_perm in Hp. apply elem_of_cons in Hp as [->|Hp].
    + exists o, sc, lvl. split; [exact Hinfo_x|]. lia.
    + rewrite Hinfo by (apply old_ne_fresh; now right). apply (rep_nodes _ _ _ R1 p Hp).
  - intros k x' i lv Hk Hlv. rewrite insert_at_cons, lookup_insert_at in Hk by (cbn; lia).
    destruct (decide (k < S t)%nat).
    + apply (after_levels_before k x' i lv); [lia|exact Hk|exact Hlv].
    + destruct (decide (k = S t)) as [->|].
      * injection Hk as <-. rewrite drop_insert_at_gt by lia.
        replace (S t - 1)%nat with t by lia. now apply after_levels_new.
      * rewrite drop_insert_at_gt by lia.
        apply (after_levels_behind (k - 1) x' i lv); [lia|exact Hk|exact Hlv].
  - intros k x' i lv Hk Hlv. rewrite insert_at_cons, lookup_insert_at in Hk by (cbn; lia).
    destruct (decide (k < S t)%nat).
    + apply (after_levels_before k x' i lv); [lia|exact Hk|exact Hlv].
    + destruct (decide (k = S t)) as [->|].
      * injection Hk as <-. rewrite drop_insert_at_gt by lia.
        replace (S t - 1)%nat with t by lia. now apply after_levels_new.
      * rewrite drop_insert_at_gt by lia.
        apply (after_levels_behind (k - 1) x' i lv); [lia|exact Hk|exact Hlv].
  - intros k y Hy. rewrite lookup_insert_at in Hy by lia. rewrite Hback.
    assert (Hnd' : NoDup ns) by (now apply NoDup_cons in Hnd).
    destruct (decide (k < t)%nat) as [Hkt|Hkt].
    + assert (y <> x) by (apply old_ne_fresh; right; eapply list_elem_of_lookup_2, Hy).
      destruct (decide (y = x)); [congruence|].
      destruct (decide (ns !! t = Some y)) as [Hty|_].
      { pose proof (NoDup_lookup _ _ _ _ Hnd' Hy Hty). lia. }
      rewrite (rep_backward _ _ _ R1 k y Hy). f_equal.
      destruct k as [|k']; [reflexivity|].
      rewrite lookup_insert_at by lia. destruct (decide (k' < t)%nat); [reflexivity|lia].
    + destruct (decide (k = t)) as [->|Hne].
      * injection Hy as <-. destruct (decide (x = x)); [|congruence]. f_equal.
        destruct t as [|t']; [reflexivity|].
        rewrite lookup_insert_at by lia. destruct (decide (t' < S t')%nat); [reflexivity|lia].
      * assert (y <> x) by (apply old_ne_fresh; right; eapply list_elem_of_lookup_2, Hy).
        destruct (decide (y = x)); [congruence|].
        destruct k as [|k']; [lia|]. cbn in Hy. rewrite Nat.sub_0_r in Hy.
        rewrite lookup_insert_at by lia.
        destruct (decide (ns !! t = Some y)) as [Hty|Hty].
        -- pose proof (NoDup_lookup _ _ _ _ Hnd' Hy Hty). subst k'.
           destruct (decide (t < t)%nat); [lia|]. destruct (decide (t = t)); [reflexivity|lia].
        -- assert (k' <> t) by (intros ->; auto).
           destruct (decide (k' < t)%nat); [lia|]. destruct (decide (k' = t)); [lia|].
           rewrite (rep_backward _ _ _ R1 k' y Hy). f_equal.
           destruct k' as [|k'']; [lia|]. cbn. now rewrite Nat.sub_0_r.
  - unfold insert_at. rewrite last_app_cons.
    destruct (ns !! t) as [y|] eqn:Hy.
    + rewrite (rep_tail _ _ _ R1).
      rewrite <- (take_drop t ns) at 1. rewrite last_app.
      rewrite (drop_S _ _ _ Hy). cbn [last].
      destruct (last (y :: drop (S t) ns)) eqn:E; [reflexivity|].
      apply last_None in E. discriminate.
    + apply lookup_ge_None in Hy. rewrite drop_ge by lia. reflexivity.
  - rewrite length_insert_at, (rep_length _ _ _ R1). unfold u64.
    rewrite Z.mod_small; lia.
Qed.

End InsertRep.

(** *** The order of the nodes *)

Definition score_at (h : list (option zskiplistNode)) (p : nat) : spec_float :=
  match node_at h p with
  | Some n => score n
  | None => pos_zero
  end.

Section Order.

Variable cmp : list Z -> list Z -> Z.
Hypothesis cmp_antisym : forall a b, Z.sgn (cmp a b) = - Z.sgn (cmp b a).
Hypothesis cmp_trans : forall a b c, cmp a b <= 0 -> cmp b c <= 0 -> cmp a c <= 0.

(** The pair [(s1, o1)] stands before the pair [(s2, o2)]. *)
Definition before (s1 : spec_float) (o1 : list Z) (s2 : spec_float) (o2 : list Z) : bool :=
  dlt s1 s2 || (deq s1 s2 && (cmp o1 o2 <? 0)).

Lemma cmp_lt_trans a b c : cmp a b < 0 -> cmp b c < 0 -> cmp a c < 0.
Proof.
  intros H1 H2. destruct (Z.lt_ge_cases (cmp a c) 0) as [|Hge]; [assumption|exfalso].
  assert (cmp c a <= 0) as Hca by (pose proof (sgn_flip _ _ (cmp_antisym a c)); lia).
  pose proof (cmp_trans b c a ltac:(lia) Hca).
  pose proof (sgn_flip _ _ (cmp_antisym a b)). lia.
Qed.

Lemma before_trans s1 o1 s2 o2 s3 o3 :
  isnan s1 = false -> isnan s2 = false -> isnan s3 = false ->
  before s1 o1 s2 o2 = true -> before s2 o2 s3 o3 = true -> before s1 o1 s3 o3 = true.
Proof.
  intros N1 N2 N3. unfold before.
  destruct (compare_order_key s1 s2 N1 N2) as [L12 E12].
  destruct (compare_order_key s2 s3 N2 N3) as [L23 E23].
  destruct (compare_order_key s1 s3 N1 N3) as [L13 E13].
  rewrite !orb_true_iff, !andb_true_iff, !Z.ltb_lt, L12, L23, L13, E12, E23, E13.
  unfold key_lt, key_eq.
  intros [H1|[H1 C1]] [H2|[H2 C2]].
  - left. lia.
  - left. lia.
  - left. lia.
  - right. split; [lia|]. eapply cmp_lt_trans; eassumption.
Qed.

(** Of two pairs neither of which stands before the other, the scores are
    equal and the elements compare as equal. *)
Lemma before_total s1 o1 s2 o2 :
  isnan s1 = false -> isnan s2 = false ->
  before s1 o1 s2 o2 = false -> before s2 o2 s1 o1 = false ->
  deq s1 s2 = true /\ cmp o1 o2 = 0.
Proof.
  intros N1 N2. unfold before.
  destruct (compare_order_key s1 s2 N1 N2) as [L12 E12].
  destruct (compare_order_key s2 s1 N2 N1) as [L21 E21].
  rewrite !orb_false_iff, !andb_false_iff, !Z.ltb_ge.
  intros [H1 C1] [H2 C2].
  assert (key_eq (order_key s1) (order_key s2)) as Heq.
  { destruct (dlt s1 s2) eqn:D1; [discriminate|]. destruct (dlt s2 s1) eqn:D2; [discriminate|].
    assert (~ key_lt (order_key s1) (order_key s2)) as K1 by (rewrite <- L12; congruence).
    assert (~ key_lt (order_key s2) (order_key s1)) as K2 by (rewrite <- L21; congruence).
    unfold key_lt, key_eq in *. lia. }
  assert (deq s1 s2 = true) as D by (now apply E12).
  assert (deq s2 s1 = true) as D' by (apply E21; unfold key_eq in *; lia).
  split; [exact D|].
  destruct C1 as [C1|C1]; [congruence|]. destruct C2 as [C2|C2]; [congruence|].
  pose proof (sgn_flip _ _ (cmp_antisym o1 o2)). lia.
Qed.

(** The nodes stand in the order of their pairs, and no score is NaN. *)
Definition key_sorted (h : list (option zskiplistNode)) (ns : list nat) : Prop :=
  forall j1 j2 p q, (j1 < j2)%nat -> ns !! j1 = Some p -> ns !! j2 = Some q ->
    before (score_at h p) (elem h p) (score_at h q) (elem h q) = true.

Definition scores_ok (h : list (option zskiplistNode)) (ns : list nat) : Prop :=
  forall p, p ∈ ns -> isnan (score_at h p) = false.

End Order.

(** Raising the level of the list: the header's spans at the new levels
    cover the whole list. *)
Lemma raise_rep h zsl ns h1 zl :
  zsl_rep h zsl ns -> zsl_level zsl <= zl <= ZSKIPLIST_MAXLEVEL ->
  Z.of_nat (List.length ns) < 2^32 ->
  same_static h h1 ->
  (forall q j, lvl_at h1 q j
     = if decide (q = header zsl /\
                  (Z.to_nat (zsl_level zsl) <= j
                   < Z.to_nat (zsl_level zsl) + Z.to_nat (zl - zsl_level zsl))%nat)
       then option_map (fun lv => mk_level (forward lv) (u32 (length zsl)))
                       (lvl_at h (header zsl) j)
       else lvl_at h q j) ->
  zsl_rep h1 (mk_zsl (header zsl) (tail zsl) (length zsl) zl) ns.
Proof.
  intros R Hzl Hsmall (Hlen & Hinfo & Hback) Hlev.
  pose proof (rep_level _ _ _ R) as HL.
  assert (Hnext : forall i l, next_at h1 i l = next_at h i l).
  { intros i l. apply next_at_ext. intros p _. apply height_info, Hinfo. }
  assert (Hlow : forall i z, (Z.to_nat (zsl_level zsl) <= i)%nat -> z ∈ ns ->
                             (height h z <= i)%nat).
  { intros i z Hi Hz. destruct (rep_nodes _ _ _ R z Hz) as (o' & s' & L & Hi' & HLz).
    destruct (info_at_node _ _ _ _ _ Hi') as (n & Hn & _ & _ & HL').
    unfold height. rewrite Hn. lia. }
  split; cbn [header zsl_level tail length].
  - apply (rep_nodup _ _ _ R).
  - lia.
  - destruct (rep_header _ _ _ R) as (s0 & Hs0). exists s0. now rewrite Hinfo.
  - intros p Hp. destruct (rep_nodes _ _ _ R p Hp) as (o' & s' & L & Hi & HLp).
    exists o', s', L. rewrite Hinfo. split; [exact Hi|lia].
  - intros k x i lv Hk Hlv. rewrite Hnext. rewrite Hlev in Hlv.
    destruct (decide _) as [[-> Hi]|_].
    + destruct (lvl_at h (header zsl) i) as [lv0|] eqn:E; [|discriminate].
      injection Hlv as <-. cbn [forward]. apply (rep_forward _ _ _ R k _ i lv0 Hk E).
    + apply (rep_forward _ _ _ R k x i lv Hk Hlv).
  - intros k x i lv Hk Hlv Hi. rewrite Hnext. rewrite Hlev in Hlv.
    destruct (decide _) as [[-> Hr]|Hnot].
    + destruct (lvl_at h (header zsl) i) as [lv0|] eqn:E; [|discriminate].
      injection Hlv as <-. cbn [span].
      assert (k = O) as ->.
      { eapply NoDup_lookup; [apply (rep_nodup _ _ _ R)|exact Hk|reflexivity]. }
      rewrite drop_0. rewrite <- (app_nil_r ns) at 1.
      rewrite next_at_low by (intros z Hz; apply Hlow; [lia|exact Hz]).
      cbn [next_at fst snd]. rewrite (rep_length _ _ _ R), u32_small; lia.
    + destruct (Z.lt_ge_cases (Z.of_nat i) (zsl_level zsl)) as [Hlt|Hge].
      * apply (rep_span _ _ _ R k x i lv Hk Hlv Hlt).
      * exfalso. apply lvl_at_height in Hlv.
        destruct k as [|k].
        -- injection Hk as <-. apply Hnot. split; [reflexivity|lia].
        -- pose proof (Hlow i x ltac:(lia) (list_elem_of_lookup_2 ns k x Hk)). lia.
  - intros k x Hk. rewrite Hback. apply (rep_backward _ _ _ R k x Hk).
  - apply (rep_tail _ _ _ R).
  - apply (rep_length _ _ _ R).
Qed.

Lemma node_at_snoc h n q :
  node_at (h ++ [Some n]) q = if decide (q = List.length h) then Some n else node_at h q.
Proof.
  unfold node_at. destruct (decide (q = List.length h)) as [->|Hne].
  - now rewrite list_lookup_middle.
  - destruct (Nat.lt_ge_cases q (List.length h)).
    + now rewrite lookup_app_l.
    + rewrite !lookup_ge_None_2; [reflexivity|lia|rewrite length_app; cbn; lia].
Qed.

Lemma lvl_at_snoc h n q j :
  lvl_at (h ++ [Some n]) q j
  = if decide (q = List.length h) then level n !! j else lvl_at h q j.
Proof. unfold lvl_at. rewrite node_at_snoc. now destruct (decide _). Qed.

Lemma info_at_snoc h n q :
  info_at (h ++ [Some n]) q
  = if decide (q = List.length h) then Some (obj n, score n, List.length (level n))
    else info_at h q.
Proof. unfold info_at. rewrite node_at_snoc. now destruct (decide _). Qed.

Lemma backward_at_snoc h n q :
  backward_at (h ++ [Some n]) q
  = if decide (q = List.length h) then Some (backward n) else backward_at h q.
Proof. unfold backward_at. rewrite node_at_snoc. now destruct (decide _). Qed.

Lemma lvl_at_is_Some h q j : (j < height h q)%nat -> is_Some (lvl_at h q j).
Proof.
  unfold height, lvl_at. destruct (node_at h q) as [n|]; [|lia].
  apply lookup_lt_is_Some_2.
Qed.

Lemma node_at_ge h q : (List.length h <= q)%nat -> node_at h q = None.
Proof. intros H. unfold node_at. now rewrite lookup_ge_None_2. Qed.

Lemma rep_header_height h zsl ns :
  zsl_rep h zsl ns -> height h (header zsl) = Z.to_nat ZSKIPLIST_MAXLEVEL.
Proof. intros R. apply (shape_header_height h zsl ns (rep_shape _ _ _ R)). Qed.

Lemma backward_at_is_Some h q : (0 < height h q)%nat -> is_Some (node_at h q).
Proof. unfold height. destruct (node_at h q); [eauto|lia]. Qed.

(** The creation of the node, the splice and the backward pointers. *)
Lemma insert_finish h1 zsl1 ns t update rank lvl sc o (rest : list Z) :
  zsl_rep h1 zsl1 ns -> Z.of_nat (List.length ns) + 1 < 2^32 ->
  (t <= List.length ns)%nat ->
  1 <= lvl <= zsl_level zsl1 ->
  (forall i, Z.of_nat i < zsl_level zsl1 ->
     exists u p, update !! i = Some (Some u) /\ rank !! i = Some (Z.of_nat p) /\
                 place_ok h1 zsl1 ns t i u p) ->
  (forall i u, update !! i = Some (Some u) -> Z.of_nat i < zsl_level zsl1) ->
  exists h',
    (let '(h, x) := zslCreateNode h1 lvl sc (Some o) in
     h <- insert_splice (Z.to_nat lvl) 0 h x update rank;;
     h <- insert_bump (Z.to_nat (zsl_level zsl1 - lvl)) lvl h update;;
     u0 <- arr_get update 0;; u0 <- some_ptr u0;;
     h <- set_backward h x (if Nat.eqb u0 (header zsl1) then None else Some u0);;
     f0 <- get_forward h x 0;;
     match f0 with
     | Some f =>
         h <- set_backward h f (Some x);;
         ret (h, mk_zsl (header zsl1) (tail zsl1) (u64 (length zsl1 + 1)) (zsl_level zsl1),
              x, rest)
     | None =>
         ret (h, mk_zsl (header zsl1) (Some x) (u64 (length zsl1 + 1)) (zsl_level zsl1),
              x, rest)
     end) = inr (h', zsl_after zsl1 ns t (List.length h1), List.length h1, rest) /\
    zsl_rep h' (zsl_after zsl1 ns t (List.length h1)) (insert_at t (List.length h1) ns) /\
    info_at h' (List.length h1) = Some (Some o, sc, Z.to_nat lvl) /\
    (forall q, q <> List.length h1 -> info_at h' q = info_at h1 q) /\
    List.length h' = S (List.length h1).
Proof.
  intros R1 Hsmall Ht Hlvl Hent Hout.
  pose proof (rep_level _ _ _ R1) as HL. pose proof (rep_nodup _ _ _ R1) as Hnd.
  unfold zslCreateNode.
  set (x := List.length h1).
  set (newn := mk_node (Some o) sc None (replicate (Z.to_nat lvl) (mk_level None 0))).
  set (h2 := h1 ++ [Some newn]).
  assert (Hfresh : node_at h1 x = None) by (apply node_at_ge; subst x; lia).
  assert (Hold : forall q, q ∈ header zsl1 :: ns -> q <> x)
    by (apply (old_ne_fresh h1 zsl1 ns R1 x Hfresh)).
  assert (Hx1 : forall j, lvl_at h1 x j = None)
    by (intros j; unfold lvl_at; now rewrite Hfresh).
  assert (Hux : forall j u, update !! j = Some (Some u) -> u <> x /\ is_Some (lvl_at h1 u j)).
  { intros j u Hu. destruct (Hent j (Hout j u Hu)) as (u' & p & Hu' & _ & Hpl).
    rewrite Hu in Hu'. injection Hu' as <-. split.
    - apply Hold. eapply list_elem_of_lookup_2, Hpl.
    - apply lvl_at_is_Some, Hpl. }
  assert (H2lev : forall q j, lvl_at h2 q j
                  = if decide (q = x) then level newn !! j else lvl_at h1 q j)
    by (intros; apply lvl_at_snoc).
  (* the entry of level 0 *)
  destruct (Hent O ltac:(lia)) as (u0 & p0 & Hu0 & Hr0 & Hpl0).
  assert (p0 = t) as ->.
  { destruct Hpl0 as (Hp0 & Hp0t & _ & Hgap).
    destruct (Nat.eq_dec p0 t); [assumption|exfalso].
    destruct t as [|t']; [lia|].
    destruct (lookup_lt_is_Some_2 ns t') as [z Hz]; [lia|].
    pose proof (Hgap (S t') z ltac:(lia) Hz).
    pose proof (shape_height_pos h1 zsl1 ns (rep_shape _ _ _ R1) z
                  (list_elem_of_lookup_2 _ _ _ Hz)). lia. }
  (* the splice *)
  destruct (insert_splice_spec x update rank (Z.of_nat t) (Z.to_nat lvl) O h2 Hr0)
    as (h3 & Hsp & Hst3 & Hlev3).
  { intros j Hj. destruct (Hent j ltac:(lia)) as (u & p & Hu & Hr & Hpl).
    destruct (Hux j u Hu) as [Hne Hsome].
    exists u, (Z.of_nat p). split; [exact Hu|]. split; [exact Hr|]. split; [exact Hne|].
    rewrite !H2lev. destruct (decide (u = x)); [contradiction|].
    destruct (decide (x = x)); [|congruence]. split; [exact Hsome|].
    cbn [level newn]. apply lookup_lt_is_Some_2. rewrite length_replicate. lia. }
  change 0 with (Z.of_nat 0) at 1. rewrite Hsp. cbn [bind].
  (* the untouched levels *)
  destruct (insert_bump_spec update (Z.to_nat (zsl_level zsl1 - lvl)) (Z.to_nat lvl) h3)
    as (h4 & Hbp & Hst4 & Hlev4).
  { intros j Hj. destruct (Hent j ltac:(lia)) as (u & p & Hu & Hr & Hpl).
    destruct (Hux j u Hu) as [Hne Hsome].
    exists u. split; [exact Hu|]. rewrite Hlev3.
    destruct (decide (0 <= j < 0 + Z.to_nat lvl)%nat); [lia|].
    rewrite H2lev. destruct (decide (u = x)); [contradiction|exact Hsome]. }
  rewrite Z2Nat.id in Hbp by lia. rewrite Hbp. cbn [bind].
  change 0 with (Z.of_nat 0) at 1. rewrite (arr_get_nat _ _ _ Hu0). cbn [bind some_ptr ret].
  (* the views of [h4] *)
  assert (Hst24 : same_static h2 h4) by (eapply same_static_trans; eassumption).
  assert (H4lev : forall q j, lvl_at h4 q j
                  = final_level h1 t update rank x (Z.to_nat lvl) q j).
  { intros q j. rewrite Hlev4. unfold final_level.
    destruct (decide (Z.to_nat lvl <= j < Z.to_nat lvl + Z.to_nat (zsl_level zsl1 - lvl))%nat)
      as [Hj|Hj].
    - destruct (Hent j ltac:(lia)) as (u & p & Hu & Hr & Hpl).
      destruct (Hux j u Hu) as [Hne _].
      unfold bump_level. rewrite Hu, Hr.
      destruct (decide (j < Z.to_nat lvl)%nat); [lia|].
      rewrite !Hlev3. destruct (decide (0 <= j < 0 + Z.to_nat lvl)%nat); [lia|].
      rewrite !H2lev. destruct (decide (u = x)); [contradiction|].
      destruct (decide (q = u)); [reflexivity|].
      destruct (decide (q = x)) as [->|]; [|reflexivity].
      rewrite Hx1. cbn [level newn]. apply lookup_ge_None_2. rewrite length_replicate. lia.
    - rewrite Hlev3.
      destruct (decide (0 <= j < 0 + Z.to_nat lvl)%nat) as [Hj'|Hj'].
      + destruct (Hent j ltac:(lia)) as (u & p & Hu & Hr & Hpl).
        destruct (Hux j u Hu) as [Hne _].
        unfold splice_level. rewrite Hu, Hr.
        destruct (decide (j < Z.to_nat lvl)%nat); [|lia].
        rewrite !H2lev. destruct (decide (u = x)); [contradiction|].
        destruct (decide (q = x)); [reflexivity|]. reflexivity.
      + rewrite H2lev.
        assert (Hdef : (if decide (q = x) then level newn !! j else lvl_at h1 q j)
                       = lvl_at h1 q j).
        { destruct (decide (q = x)) as [->|]; [|reflexivity].
          rewrite Hx1. cbn [level newn]. apply lookup_ge_None_2. rewrite length_replicate. lia. }
        rewrite Hdef.
        destruct (update !! j) as [[u|]|] eqn:Hu; try reflexivity.
        pose proof (Hout j u Hu). lia. }
  assert (H4info : forall q, info_at h4 q
                   = if decide (q = x) then Some (Some o, sc, Z.to_nat lvl) else info_at h1 q).
  { intros q. destruct Hst24 as (_ & -> & _). subst h2. rewrite info_at_snoc.
    fold x. destruct (decide (q = x)); [|reflexivity].
    cbn [obj score level newn]. now rewrite length_replicate. }
  assert (H4back : forall q, backward_at h4 q
                   = if decide (q = x) then Some None else backward_at h1 q).
  { intros q. destruct Hst24 as (_ & _ & ->). subst h2. apply backward_at_snoc. }
  assert (H4x : is_Some (node_at h4 x)).
  { pose proof (H4info x) as Hi. destruct (decide (x = x)); [|congruence].
    unfold info_at in Hi. destruct (node_at h4 x); [eauto|discriminate]. }
  destruct H4x as [xn Hxn].
  rewrite (set_backward_ok _ _ _ _ Hxn). cbn [bind].
  set (b := if Nat.eqb u0 (header zsl1) then None else Some u0).
  set (h5 := upd_node h4 x (with_backward b)).
  assert (Hb : b = match t with O => None | S t' => ns !! t' end).
  { subst b. destruct Hpl0 as (Hp0 & _). destruct t as [|t'].
    - injection Hp0 as <-. now rewrite Nat.eqb_refl.
    - assert (ns !! t' = Some u0) as Hu by exact Hp0. rewrite Hu.
      destruct (Nat.eqb_spec u0 (header zsl1)) as [->|]; [|reflexivity].
      exfalso. apply NoDup_cons in Hnd as [Hnin _]. apply Hnin.
      eapply list_elem_of_lookup_2, Hu. }
  (* the forward pointer of the new node at level 0 *)
  destruct (Hux O u0 Hu0) as [Hu0x [L0 HL0]].
  assert (H5x0 : lvl_at h5 x O
                 = Some (mk_level (ns !! t)
                           (u32 (span L0 - u32 (Z.of_nat t - Z.of_nat t))))).
  { subst h5. rewrite lvl_at_with_backward, H4lev. unfold final_level.
    rewrite Hu0, Hr0, HL0. destruct (decide (0 < Z.to_nat lvl)%nat); [|lia].
    destruct (decide (x = x)); [|congruence]. cbn [option_map]. do 2 f_equal.
    rewrite (rep_forward _ _ _ R1 t u0 O L0 (proj1 Hpl0) HL0).
    rewrite next_at_level0
      by (intros z Hz; apply (shape_height_pos h1 zsl1 ns (rep_shape _ _ _ R1));
          apply list_elem_of_lookup_1 in Hz as [j Hj]; rewrite lookup_drop in Hj;
          eapply list_elem_of_lookup_2, Hj).
    now rewrite head_lookup, lookup_drop, Nat.add_0_r. }
  change 0 with (Z.of_nat 0) at 1. rewrite (get_forward_ok _ _ _ _ H5x0). cbn [bind forward].
  set (h' := match ns !! t with
             | Some f => upd_node h5 f (with_backward (Some x))
             | None => h5
             end).
  exists h'.
  assert (Hrun : match ns !! t with
                 | Some f =>
                     h <- set_backward h5 f (Some x);;
                     ret (h, mk_zsl (header zsl1) (tail zsl1) (u64 (length zsl1 + 1))
                                    (zsl_level zsl1), x, rest)
                 | None =>
                     ret (h5, mk_zsl (header zsl1) (Some x) (u64 (length zsl1 + 1))
                                     (zsl_level zsl1), x, rest)
                 end = inr (h', zsl_after zsl1 ns t x, x, rest)).
  { unfold zsl_after. subst h'. destruct (ns !! t) as [f|] eqn:Hf; [|reflexivity].
    assert (is_Some (node_at h5 f)) as [fn Hfn].
    { assert (is_Some (info_at h5 f)) as [i Hi].
      { subst h5. rewrite info_at_with_backward, H4info.
        destruct (decide (f = x)); [eauto|].
        apply (old_node_info h1 zsl1 ns R1). right. eapply list_elem_of_lookup_2, Hf. }
      unfold info_at in Hi. destruct (node_at h5 f); [eauto|discriminate]. }
    rewrite (set_backward_ok _ _ _ _ Hfn). reflexivity. }
  split; [exact Hrun|].
  assert (H'lev : forall q j, lvl_at h' q j = lvl_at h4 q j).
  { intros q j. subst h' h5. destruct (ns !! t); rewrite ?lvl_at_with_backward; reflexivity. }
  assert (H'info : forall q, info_at h' q = info_at h4 q).
  { intros q. subst h' h5. destruct (ns !! t); rewrite ?info_at_with_backward; reflexivity. }
  split; [|split; [|split]].
  - apply (insert_rep h1 zsl1 ns R1 Hsmall t Ht update rank x (Z.to_nat lvl) o sc);
      [lia|exact Hfresh|exact Hent|exact Hout| | | |].
    + rewrite H'info, H4info. destruct (decide (x = x)); [reflexivity|congruence].
    + intros q Hq. rewrite H'info, H4info. destruct (decide (q = x)); [contradiction|reflexivity].
    + intros q j. rewrite H'lev. apply H4lev.
    + intros q. rewrite <- Hb. subst h' h5.
      destruct (ns !! t) as [f|] eqn:Hf.
      * assert (f <> x) by (apply Hold; right; eapply list_elem_of_lookup_2, Hf).
        rewrite !backward_at_with_backward, !H4back.
        destruct (decide (x = x)); [|congruence].
        destruct (decide (f = x)); [contradiction|].
        destruct (decide (q = x)) as [->|Hqx].
        -- destruct (decide (x = f)); [congruence|reflexivity].
        -- destruct (decide (q = f)) as [->|Hqf].
           ++ destruct (decide (Some f = Some f)); [|congruence].
              destruct (old_node_info h1 zsl1 ns R1 f) as [i Hi];
                [right; eapply list_elem_of_lookup_2, Hf|].
              unfold info_at in Hi. unfold backward_at.
              destruct (node_at h1 f); [reflexivity|discriminate].
           ++ destruct (decide (Some f = Some q)); [congruence|reflexivity].
      * rewrite backward_at_with_backward, !H4back.
        destruct (decide (x = x)); [|congruence].
        destruct (decide (q = x)); [reflexivity|].
        destruct (decide (None = Some q)); [discriminate|reflexivity].
  - rewrite H'info, H4info. destruct (decide (x = x)); [reflexivity|congruence].
  - intros q Hq. rewrite H'info, H4info. destruct (decide (q = x)); [contradiction|reflexivity].
  - subst h' h5. destruct (ns !! t); rewrite ?length_upd_node;
      destruct Hst24 as (-> & _); subst h2; rewrite length_app; cbn; lia.
Qed.

(** *** [zslInsert] on a list in order *)

Section InsertSpec.

Variable cmp : list Z -> list Z -> Z.
Hypothesis cmp_antisym : forall a b, Z.sgn (cmp a b) = - Z.sgn (cmp b a).
Hypothesis cmp_trans : forall a b c, cmp a b <= 0 -> cmp b c <= 0 -> cmp a c <= 0.

Variables (h : list (option zskiplistNode)) (zsl : zskiplist) (ns : list nat).
Hypothesis R : zsl_rep h zsl ns.
Hypothesis Hsorted : key_sorted cmp h ns.
Hypothesis Hscores : scores_ok h ns.
Variables (sc : spec_float) (o : list Z).
Hypothesis Hnan : isnan sc = false.
Hypothesis Hsmall : Z.of_nat (List.length ns) + 1 < 2^32.

Lemma key_pb_node p :
  p ∈ ns -> pbp h (key_pb cmp sc o) p = before cmp (score_at h p) (elem h p) sc o.
Proof.
  intros Hp. destruct (rep_nodes _ _ _ R p Hp) as (o' & s' & L & Hi & _).
  destruct (info_at_node _ _ _ _ _ Hi) as (n & Hn & Ho & Hs & _).
  unfold pbp, key_pb, before, score_at, elem. rewrite Hn. reflexivity.
Qed.

Lemma key_threshold : exists t, threshold h ns (key_pb cmp sc o) t.
Proof.
  destruct (mono_threshold (pbp h (key_pb cmp sc o)) ns) as (t & Ht & Hthr).
  - intros j1 j2 p q Hlt Hp Hq.
    pose proof (list_elem_of_lookup_2 _ _ _ Hp) as Hpin.
    pose proof (list_elem_of_lookup_2 _ _ _ Hq) as Hqin.
    rewrite (key_pb_node p Hpin), (key_pb_node q Hqin).
    apply (before_trans cmp cmp_antisym cmp_trans); auto.
    apply (Hsorted j1 j2); assumption.
  - exists t. split; assumption.
Qed.

Lemma insert_search_places t :
  threshold h ns (key_pb cmp sc o) t ->
  exists x0 update rank,
    insert_search cmp (Z.to_nat (zsl_level zsl)) h zsl sc o (header zsl)
      (replicate (Z.to_nat ZSKIPLIST_MAXLEVEL) None)
      (replicate (Z.to_nat ZSKIPLIST_MAXLEVEL) 0) = inr (x0, update, rank) /\
    List.length update = Z.to_nat ZSKIPLIST_MAXLEVEL /\
    List.length rank = Z.to_nat ZSKIPLIST_MAXLEVEL /\
    (forall i, Z.of_nat i < zsl_level zsl ->
       exists u p, update !! i = Some (Some u) /\ rank !! i = Some (Z.of_nat p) /\
                   place_ok h zsl ns t i u p) /\
    (forall i u, update !! i = Some (Some u) -> Z.of_nat i < zsl_level zsl).
Proof.
  intros [Htlen Hthr].
  pose proof (rep_shape _ _ _ R) as Hshape.
  pose proof (rep_level _ _ _ R) as HL.
  pose proof (rep_nodup _ _ _ R) as Hnd.
  destruct (insert_search_spec cmp h zsl ns Hshape (fun i => rep_spans h zsl ns i R)
              ltac:(lia) sc o (Z.to_nat (zsl_level zsl)) O (header zsl)
              (replicate (Z.to_nat ZSKIPLIST_MAXLEVEL) None)
              (replicate (Z.to_nat ZSKIPLIST_MAXLEVEL) 0))
    as (k' & x' & update & rank & Hs & _ & Hk' & Hlu & Hlr & Hent & Hor & Hout).
  { lia. } { apply length_replicate. } { apply length_replicate. } { reflexivity. }
  { rewrite (shape_header_height h zsl ns Hshape). unfold ZSKIPLIST_MAXLEVEL in *. lia. }
  { destruct (Z.eqb_spec (Z.of_nat (Z.to_nat (zsl_level zsl))) (zsl_level zsl)); [reflexivity|lia]. }
  { intros i Hi HiL. lia. }
  exists x', update, rank. split; [exact Hs|]. split; [exact Hlu|]. split; [exact Hlr|].
  (* the search ends behind the first [t] nodes *)
  assert (k' = t) as ->.
  { destruct (Hent O ltac:(lia)) as (u0 & p0 & _ & _ & Hp0 & (p & Hp & Hple & _ & Hgap & Hstop)).
    assert (p = k') as ->.
    { destruct (Nat.eq_dec p k') as [|Hne]; [assumption|exfalso].
      destruct k' as [|j]; [lia|].
      assert (ns !! j = Some x') as Hx' by exact Hk'.
      pose proof (Hgap (S j) x' ltac:(lia) Hk').
      pose proof (shape_height_pos h zsl ns Hshape x' (list_elem_of_lookup_2 _ _ _ Hx')). lia. }
    rewrite next_at_level0 in Hstop
      by (intros z Hz; apply (shape_height_pos h zsl ns Hshape);
          apply list_elem_of_lookup_1 in Hz as [j Hj]; rewrite lookup_drop in Hj;
          eapply list_elem_of_lookup_2, Hj).
    rewrite head_lookup, lookup_drop, Nat.add_0_r in Hstop.
    assert (t <= k')%nat.
    { destruct (ns !! k') as [y|] eqn:Hy.
      - pose proof (Hstop y eq_refl) as Hpy. rewrite (Hthr _ _ Hy) in Hpy.
        apply Nat.ltb_ge in Hpy. exact Hpy.
      - apply lookup_ge_None in Hy. lia. }
    assert (k' <= t)%nat; [|lia].
    destruct k' as [|j]; [lia|]. destruct Hor as [|Hpx]; [lia|].
    assert (ns !! j = Some x') as Hx' by exact Hk'.
    rewrite (Hthr _ _ Hx') in Hpx. apply Nat.ltb_lt in Hpx. lia. }
  split.
  - intros i Hi. destruct (Hent i Hi) as (u & p & Hu & Hr & Hp & (p' & Hp' & Hple & Hh & Hgap & _)).
    assert (p' = p) as -> by (eapply NoDup_lookup; eauto).
    exists u, p. split; [exact Hu|]. split; [exact Hr|].
    split; [exact Hp|]. split; [exact Hple|]. split; [exact Hh|exact Hgap].
  - intros i u Hu. destruct (Z.lt_ge_cases (Z.of_nat i) (zsl_level zsl)) as [|Hge]; [assumption|].
    rewrite Hout in Hu by lia. apply lookup_replicate in Hu as [Hu _]. discriminate.
Qed.

(** The search and the raising of the level. *)
Lemma insert_prepare lvl :
  1 <= lvl <= ZSKIPLIST_MAXLEVEL ->
  exists t x0 update rank h1 update1 rank1,
    threshold h ns (key_pb cmp sc o) t /\
    insert_search cmp (Z.to_nat (zsl_level zsl)) h zsl sc o (header zsl)
      (replicate (Z.to_nat ZSKIPLIST_MAXLEVEL) None)
      (replicate (Z.to_nat ZSKIPLIST_MAXLEVEL) 0) = inr (x0, update, rank) /\
    (if lvl >? zsl_level zsl
     then insert_raise (Z.to_nat (lvl - zsl_level zsl)) (zsl_level zsl) h zsl update rank
     else ret (h, update, rank)) = inr (h1, update1, rank1) /\
    same_static h h1 /\
    zsl_rep h1 (mk_zsl (header zsl) (tail zsl) (length zsl)
                       (if lvl >? zsl_level zsl then lvl else zsl_level zsl)) ns /\
    (forall i, Z.of_nat i < (if lvl >? zsl_level zsl then lvl else zsl_level zsl) ->
       exists u p, update1 !! i = Some (Some u) /\ rank1 !! i = Some (Z.of_nat p) /\
         place_ok h1 (mk_zsl (header zsl) (tail zsl) (length zsl)
                             (if lvl >? zsl_level zsl then lvl else zsl_level zsl))
                  ns t i u p) /\
    (forall i u, update1 !! i = Some (Some u) ->
       Z.of_nat i < (if lvl >? zsl_level zsl then lvl else zsl_level zsl)).
Proof.
  intros Hlvl. pose proof (rep_level _ _ _ R) as HL. unfold ZSKIPLIST_MAXLEVEL in *.
  destruct key_threshold as (t & Hthr).
  destruct (insert_search_places t Hthr) as (x0 & update & rank & Hs & Hlu & Hlr & Hent & Hout).
  set (L := zsl_level zsl) in *.
  set (zl := if lvl >? L then lvl else L).
  assert (Hzl : L <= zl <= 32 /\ Z.to_nat (zl - L) = Z.to_nat (lvl - L)).
  { subst zl. destruct (Z.gtb_spec lvl L); lia. }
  assert (Heq : (if lvl >? L
                 then insert_raise (Z.to_nat (lvl - L)) L h zsl update rank
                 else ret (h, update, rank))
                = insert_raise (Z.to_nat (lvl - L)) (Z.of_nat (Z.to_nat L)) h zsl update rank).
  { rewrite Z2Nat.id by lia. destruct (Z.gtb_spec lvl L); [reflexivity|].
    replace (Z.to_nat (lvl - L)) with O by lia. reflexivity. }
  destruct (insert_raise_spec zsl (Z.to_nat (lvl - L)) (Z.to_nat L) h update rank Hlu Hlr)
    as (h1 & update1 & rank1 & Hr & Hlu1 & Hlr1 & Hu1 & Hr1 & Hst1 & Hlev1).
  { unfold ZSKIPLIST_MAXLEVEL. lia. }
  { intros j Hj. apply lvl_at_is_Some. rewrite (rep_header_height _ _ _ R). exact Hj. }
  exists t, x0, update, rank, h1, update1, rank1.
  split; [exact Hthr|]. split; [exact Hs|]. split; [rewrite Heq; exact Hr|].
  split; [exact Hst1|].
  assert (Hheight : forall q, height h1 q = height h q).
  { intros q. apply height_info. apply Hst1. }
  split; [|split].
  - apply (raise_rep h zsl ns h1 zl R); [unfold ZSKIPLIST_MAXLEVEL; lia|lia|exact Hst1|].
    intros q j. rewrite Hlev1. fold L. destruct Hzl as [_ ->]. reflexivity.
  - intros i Hi. rewrite Hu1, Hr1.
    destruct (decide (Z.to_nat L <= i < Z.to_nat L + Z.to_nat (lvl - L))%nat) as [Hin|Hnin].
    + exists (header zsl), O. split; [reflexivity|]. split; [reflexivity|].
      split; [reflexivity|]. split; [lia|]. split.
      * rewrite Hheight, (rep_header_height _ _ _ R). unfold ZSKIPLIST_MAXLEVEL. lia.
      * intros j z Hj Hz. destruct j as [|j]; [lia|].
        rewrite Hheight.
        destruct (rep_nodes _ _ _ R z (list_elem_of_lookup_2 ns j z Hz))
          as (o' & s' & Lz & Hi' & HLz).
        destruct (info_at_node _ _ _ _ _ Hi') as (n & Hn & _ & _ & HL').
        unfold height. rewrite Hn. fold L in HLz. lia.
    + assert (Z.of_nat i < L) as HiL by lia.
      destruct (Hent i HiL) as (u & p & Hu & Hrk & Hp & Hpt & Hh & Hgap).
      exists u, p. split; [exact Hu|]. split; [exact Hrk|].
      split; [exact Hp|]. split; [exact Hpt|]. split; [now rewrite Hheight|].
      intros j z Hj Hz. rewrite Hheight. now apply (Hgap j z).
  - intros i u. rewrite Hu1.
    destruct (decide (Z.to_nat L <= i < Z.to_nat L + Z.to_nat (lvl - L))%nat) as [Hin|Hnin].
    + intros _. lia.
    + intros Hu. pose proof (Hout i u Hu). lia.
Qed.

(** [zslInsert] returns; the new node is the fresh address [length h], it
    stands behind the [t] nodes that are before the pair, and the list is
    well formed. *)
Lemma zslInsert_spec draws lvl rest :
  zslRandomLevel draws = inr (lvl, rest) ->
  exists h' zsl' t,
    zslInsert cmp h zsl sc o draws = inr (h', zsl', List.length h, rest) /\
    threshold h ns (key_pb cmp sc o) t /\
    zsl_rep h' zsl' (insert_at t (List.length h) ns) /\
    info_at h' (List.length h) = Some (Some o, sc, Z.to_nat lvl) /\
    (forall q, q <> List.length h -> info_at h' q = info_at h q) /\
    List.length h' = S (List.length h).
Proof.
  intros Hrand.
  pose proof (post_zslRandomLevel draws) as Hlvl. rewrite Hrand in Hlvl. cbn in Hlvl.
  destruct (insert_prepare lvl Hlvl)
    as (t & x0 & update & rank & h1 & update1 & rank1
        & Hthr & Hs & Hr & Hst & R1 & Hent & Hout).
  set (zl := if lvl >? zsl_level zsl then lvl else zsl_level zsl) in *.
  set (zsl1 := mk_zsl (header zsl) (tail zsl) (length zsl) zl) in *.
  assert (Hzl : lvl <= zl) by (subst zl; destruct (Z.gtb_spec lvl (zsl_level zsl)); lia).
  destruct (insert_finish h1 zsl1 ns t update1 rank1 lvl sc o rest R1 Hsmall)
    as (h' & Hrun & R' & Hix & Hi & Hlen); [apply Hthr|cbn; lia|exact Hent|exact Hout|].
  destruct Hst as (Hlen1 & Hinfo1 & _).
  exists h', (zsl_after zsl1 ns t (List.length h)), t.
  split.
  - unfold zslInsert. rewrite Hnan, Hs. cbn [bind]. rewrite Hrand. cbn [bind].
    rewrite Hr. cbn [bind]. fold zl.
    cbn [header tail length zsl_level zsl1] in Hrun. rewrite Hlen1 in Hrun. exact Hrun.
  - rewrite Hlen1 in *. split; [exact Hthr|]. split; [exact R'|]. split; [exact Hix|].
    split; [|exact Hlen]. intros q Hq. rewrite (Hi q Hq). apply Hinfo1.
Qed.

Lemma score_elem_info h' q :
  info_at h' q = info_at h q -> score_at h' q = score_at h q /\ elem h' q = elem h q.
Proof.
  unfold info_at, score_at, elem.
  destruct (node_at h' q), (node_at h q); try discriminate; [|auto].
  intros [= -> -> _]. auto.
Qed.

(** The pair compares unequal to every pair of the list: the list with the
    new node is in order. *)
Lemma insert_sorted h' t x L :
  threshold h ns (key_pb cmp sc o) t ->
  (forall p, p ∈ ns ->
     before cmp (score_at h p) (elem h p) sc o = true \/
     before cmp sc o (score_at h p) (elem h p) = true) ->
  info_at h' x = Some (Some o, sc, L) ->
  (forall q, q <> x -> info_at h' q = info_at h q) ->
  x ∉ ns ->
  key_sorted cmp h' (insert_at t x ns) /\ scores_ok h' (insert_at t x ns).
Proof.
  intros [Ht Hthr] Hstrict Hix Hi Hx.
  assert (Hxs : score_at h' x = sc /\ elem h' x = o).
  { destruct (info_at_node _ _ _ _ _ Hix) as (n & Hn & Ho & Hs & _).
    unfold score_at, elem. rewrite Hn, Ho, Hs. auto. }
  assert (Hold : forall j q, ns !! j = Some q ->
            score_at h' q = score_at h q /\ elem h' q = elem h q).
  { intros j q Hq. apply score_elem_info, Hi. intros ->. apply Hx.
    eapply list_elem_of_lookup_2, Hq. }
  split.
  - intros j1 j2 p q Hlt Hp Hq. rewrite lookup_insert_at in Hp, Hq by lia.
    destruct (decide (j1 < t)%nat) as [H1|H1].
    + destruct (Hold _ _ Hp) as [-> ->].
      destruct (decide (j2 < t)%nat) as [H2|H2].
      * destruct (Hold _ _ Hq) as [-> ->]. apply (Hsorted j1 j2); assumption.
      * destruct (decide (j2 = t)) as [->|H2'].
        -- injection Hq as <-. destruct Hxs as [-> ->].
           rewrite <- key_pb_node by (eapply list_elem_of_lookup_2, Hp).
           rewrite (Hthr _ _ Hp). now apply Nat.ltb_lt.
        -- destruct (Hold _ _ Hq) as [-> ->]. apply (Hsorted j1 (j2 - 1)%nat); auto. lia.
    + destruct (decide (j2 < t)%nat); [lia|]. destruct (decide (j2 = t)); [lia|].
      destruct (Hold _ _ Hq) as [-> ->].
      destruct (decide (j1 = t)) as [->|H1'].
      * injection Hp as <-. destruct Hxs as [-> ->].
        pose proof (list_elem_of_lookup_2 _ _ _ Hq) as Hqin.
        destruct (Hstrict q Hqin) as [Hb|Hb]; [|exact Hb].
        rewrite <- key_pb_node, (Hthr _ _ Hq) in Hb by exact Hqin.
        apply Nat.ltb_lt in Hb. lia.
      * destruct (Hold _ _ Hp) as [-> ->]. apply (Hsorted (j1 - 1)%nat (j2 - 1)%nat); auto. lia.
  - intros p Hp. rewrite insert_at_perm in Hp. apply elem_of_cons in Hp as [->|Hp].
    + destruct Hxs as [-> _]. exact Hnan.
    + apply list_elem_of_lookup_1 in Hp as [j Hj]. destruct (Hold _ _ Hj) as [-> _].
      apply Hscores. eapply list_elem_of_lookup_2, Hj.
Qed.

End InsertSpec.

(** *** [zslDeleteNode] *)

(** What the loop of [zslDeleteNode] leaves in [level[j]] of the node [q]. *)
Definition del_level (h : list (option zskiplistNode)) (x : nat)
  (update : list (option nat)) (q j : nat) : option zskiplistLevel :=
  match update !! j with
  | Some (Some u) =>
      if decide (q = u) then
        match lvl_at h u j, lvl_at h x j with
        | Some lvu, Some lvx =>
            if decide (forward lvu = Some x)
            then Some (mk_level (forward lvx) (u32 (span lvu + u32 (span lvx - 1))))
            else Some (mk_level (forward lvu) (u32 (span lvu - 1)))
        | Some lvu, None => Some (mk_level (forward lvu) (u32 (span lvu - 1)))
        | None, _ => None
        end
      else lvl_at h q j
  | _ => lvl_at h q j
  end.

Lemma del_level_ext h h' x update q j :
  (forall p, lvl_at h' p j = lvl_at h p j) ->
  del_level h' x update q j = del_level h x update q j.
Proof.
  intros H. unfold del_level.
  destruct (update !! j) as [[u|]|]; try apply H. now rewrite !H.
Qed.

Lemma delete_unlink_spec x update n : forall i h,
  (forall j, (i <= j < i + n)%nat ->
     exists u lvu, update !! j = Some (Some u) /\ u <> x /\ lvl_at h u j = Some lvu /\
                   (forward lvu = Some x -> is_Some (lvl_at h x j))) ->
  exists h',
    delete_unlink n (Z.of_nat i) h x update = inr h' /\
    same_static h h' /\
    (forall q j, lvl_at h' q j
                 = if decide (i <= j < i + n)%nat then del_level h x update q j
                   else lvl_at h q j).
Proof.
  induction n as [|n IH]; intros i h Hpre.
  - exists h. split; [reflexivity|]. split; [apply same_static_refl|].
    intros q j. destruct (decide _); [lia|reflexivity].
  - cbn [delete_unlink].
    destruct (Hpre i ltac:(lia)) as (u & lvu & Hu & Hux & Hlvu & Hx).
    rewrite (arr_get_nat _ _ _ Hu). cbn [bind some_ptr ret].
    rewrite (get_forward_ok _ _ _ _ Hlvu). cbn [bind].
    assert (Hstep : exists ha,
      match forward lvu with
      | Some f' =>
          if Nat.eqb f' x then
            us <- get_span h u (Z.of_nat i);; xs <- get_span h x (Z.of_nat i);;
            h0 <- set_span h u (Z.of_nat i) (us + u32 (xs - 1));;
            xf <- get_forward h0 x (Z.of_nat i);;
            set_forward h0 u (Z.of_nat i) xf
          else us <- get_span h u (Z.of_nat i);; set_span h u (Z.of_nat i) (us - 1)
      | None => us <- get_span h u (Z.of_nat i);; set_span h u (Z.of_nat i) (us - 1)
      end = inr ha /\ same_static h ha /\
      forall q j, lvl_at ha q j
                  = if decide (j = i) then del_level h x update q i else lvl_at h q j).
    { assert (Helse : exists ha,
        (us <- get_span h u (Z.of_nat i);; set_span h u (Z.of_nat i) (us - 1)) = inr ha /\
        same_static h ha /\
        forall q j, lvl_at ha q j
          = if decide (q = u /\ j = i)
            then Some (mk_level (forward lvu) (u32 (span lvu - 1))) else lvl_at h q j).
      { rewrite (get_span_ok _ _ _ _ Hlvu). cbn [bind].
        rewrite (set_span_ok _ _ _ _ _ Hlvu). eexists. split; [reflexivity|].
        split; [apply same_static_with_level|].
        intros q j. rewrite lvl_at_with_level, Hlvu. reflexivity. }
      assert (Hfin : forall ha f', 
        (forall q j, lvl_at ha q j
          = if decide (q = u /\ j = i) then Some f' else lvl_at h q j) ->
        del_level h x update u i = Some f' ->
        forall q j, lvl_at ha q j
                  = if decide (j = i) then del_level h x update q i else lvl_at h q j).
      { intros ha f' Hha Hdl q j. rewrite Hha.
        destruct (decide (j = i)) as [->|Hne].
        - destruct (decide (q = u /\ i = i)) as [[-> _]|Hn]; [now rewrite Hdl|].
          unfold del_level. rewrite Hu. destruct (decide (q = u)); [tauto|reflexivity].
        - destruct (decide _) as [[_ ?]|_]; [congruence|reflexivity]. }
      destruct (forward lvu) as [f'|] eqn:Hf.
      - destruct (Nat.eqb_spec f' x) as [->|Hne].
        + destruct (Hx eq_refl) as [lvx Hlvx].
          rewrite (get_span_ok _ _ _ _ Hlvu). cbn [bind].
          rewrite (get_span_ok _ _ _ _ Hlvx). cbn [bind].
          rewrite (set_span_ok _ _ _ _ _ Hlvu). cbn [bind].
          set (h0 := upd_node h u _).
          assert (H0x : lvl_at h0 x i = Some lvx).
          { subst h0. rewrite lvl_at_with_level.
            destruct (decide _) as [[? _]|_]; [congruence|exact Hlvx]. }
          assert (H0u : lvl_at h0 u i
                        = Some (mk_level (forward lvu) (u32 (span lvu + u32 (span lvx - 1))))).
          { subst h0. rewrite lvl_at_with_level, Hlvu.
            destruct (decide _) as [_|Hn]; [reflexivity|tauto]. }
          rewrite (get_forward_ok _ _ _ _ H0x). cbn [bind].
          rewrite (set_forward_ok _ _ _ _ _ H0u).
          eexists. split; [reflexivity|]. split.
          { eapply same_static_trans; apply same_static_with_level. }
          apply (Hfin _ (mk_level (forward lvx) (u32 (span lvu + u32 (span lvx - 1))))).
          * intros q j. rewrite lvl_at_with_level.
            destruct (decide (q = u /\ j = i)) as [Hq|Hq].
            -- rewrite H0u. reflexivity.
            -- subst h0. rewrite lvl_at_with_level.
               destruct (decide (q = u /\ j = i)); [contradiction|reflexivity].
          * unfold del_level. rewrite Hu, Hlvu, Hlvx, Hf.
            destruct (decide (u = u)); [|congruence].
            destruct (decide (Some x = Some x)); [reflexivity|congruence].
        + destruct Helse as (ha & Hr & Hst & Hlv). exists ha. split; [exact Hr|].
          split; [exact Hst|]. apply (Hfin _ _ Hlv).
          unfold del_level. rewrite Hu, Hlvu, Hf.
          destruct (decide (u = u)); [|congruence].
          destruct (lvl_at h x i);
            [destruct (decide (Some f' = Some x)); [congruence|reflexivity]|reflexivity].
      - destruct Helse as (ha & Hr & Hst & Hlv). exists ha. split; [exact Hr|].
        split; [exact Hst|]. apply (Hfin _ _ Hlv).
        unfold del_level. rewrite Hu, Hlvu, Hf.
        destruct (decide (u = u)); [|congruence].
        destruct (lvl_at h x i);
          [destruct (decide (None = Some x)); [discriminate|reflexivity]|reflexivity]. }
    destruct Hstep as (ha & -> & Hsta & Ha). cbn [bind].
    replace (Z.of_nat i + 1) with (Z.of_nat (S i)) by lia.
    destruct (IH (S i) ha) as (h' & Hs & Hst & Hlv').
    { intros j Hj. destruct (Hpre j ltac:(lia)) as (u' & lvu' & Hu' & Hne & Hl & Hx').
      exists u', lvu'. rewrite !Ha. destruct (decide (j = i)); [lia|]. auto. }
    exists h'. split; [exact Hs|]. split; [eapply same_static_trans; eassumption|].
    intros q j. rewrite Hlv'.
    destruct (decide (S i <= j < S i + n)%nat).
    + destruct (decide (i <= j < i + S n)%nat); [|lia].
      apply del_level_ext. intros p0. rewrite Ha. destruct (decide (j = i)); [lia|reflexivity].
    + rewrite Ha. destruct (decide (j = i)) as [->|].
      * destruct (decide _); [reflexivity|lia].
      * destruct (decide _); [lia|reflexivity].
Qed.

Lemma drop_delete_le {A} (l : list A) k k0 :
  (k <= k0)%nat -> (k0 < List.length l)%nat ->
  drop k (delete k0 l) = drop k (take k0 l) ++ drop (S k0) l.
Proof.
  intros Hk Hk0. rewrite delete_take_drop. apply drop_app_le. rewrite length_take. lia.
Qed.

Lemma drop_delete_gt {A} (l : list A) k k0 :
  (k0 < k)%nat -> (k0 < List.length l)%nat -> drop k (delete k0 l) = drop (S k) l.
Proof.
  intros Hk Hk0. rewrite delete_take_drop.
  rewrite drop_app_ge by (rewrite length_take; lia).
  rewrite length_take, drop_drop. f_equal. lia.
Qed.

Lemma next_at_span_bounds h i l :
  0 <= snd (next_at h i l) <= Z.of_nat (List.length l).
Proof.
  induction l as [|y l IH]; cbn [next_at List.length]; [cbn; lia|].
  destruct (_ <? _)%nat; cbn [snd]; lia.
Qed.

Lemma u32_add_u32 a b : u32 (a + u32 b) = u32 (a + b).
Proof. unfold u32. now rewrite Z.add_mod_idemp_r. Qed.

Section DeleteRep.

Variables (h : list (option zskiplistNode)) (zsl : zskiplist) (ns : list nat).
Hypothesis R : zsl_rep h zsl ns.
Hypothesis Hsmall : Z.of_nat (List.length ns) < 2^32.

(** The node [x], at the index [k0] of the list, goes. *)
Variables (k0 x : nat).
Hypothesis Hx : ns !! k0 = Some x.
Variable update : list (option nat).
Hypothesis Hentries : forall i, Z.of_nat i < zsl_level zsl ->
  exists u p, update !! i = Some (Some u) /\ place_ok h zsl ns k0 i u p.

Variable h' : list (option zskiplistNode).
Hypothesis Hinfo : forall q, info_at h' q = info_at h q.
Hypothesis Hlev : forall q j,
  lvl_at h' q j = if decide (Z.of_nat j < zsl_level zsl) then del_level h x update q j
                  else lvl_at h q j.
Hypothesis Hback : forall q,
  backward_at h' q
  = if decide (ns !! S k0 = Some q) then Some (match k0 with O => None | S k' => ns !! k' end)
    else backward_at h q.

Lemma del_next i l : next_at h' i l = next_at h i l.
Proof. apply next_at_ext. intros p _. apply height_info, Hinfo. Qed.

Lemma del_k0 : (k0 < List.length ns)%nat.
Proof. eapply lookup_lt_Some, Hx. Qed.

Lemma del_split k : (k <= k0)%nat -> drop k ns = drop k (take k0 ns) ++ x :: drop (S k0) ns.
Proof.
  intros Hk. rewrite <- (take_drop_middle ns k0 x Hx) at 1.
  apply drop_app_le. rewrite length_take. pose proof del_k0. lia.
Qed.

Lemma del_x_not_behind : x ∉ drop (S k0) ns.
Proof.
  intros Hin. apply list_elem_of_lookup_1 in Hin as [j Hj]. rewrite lookup_drop in Hj.
  pose proof (rep_nodup _ _ _ R) as Hnd. apply NoDup_cons in Hnd as [_ Hnd].
  pose proof (NoDup_lookup _ _ _ _ Hnd Hx Hj). lia.
Qed.

Lemma del_level_other q i :
  (forall u, update !! i = Some (Some u) -> q <> u) -> del_level h x update q i = lvl_at h q i.
Proof.
  intros Hq. unfold del_level. destruct (update !! i) as [[u|]|]; try reflexivity.
  destruct (decide (q = u)) as [->|]; [|reflexivity]. now pose proof (Hq u eq_refl).
Qed.

(** Up to the place of [x]. *)
Lemma without_levels_before k y i lv :
  (k <= k0)%nat -> (header zsl :: ns) !! k = Some y ->
  lvl_at h' y i = Some lv ->
  forward lv = fst (next_at h i (drop k (delete k0 ns))) /\
  (Z.of_nat i < zsl_level zsl -> span lv = snd (next_at h i (drop k (delete k0 ns)))).
Proof.
  intros Hk Hy Hlv. pose proof del_k0 as Hk0.
  assert (Hh : (i < height h y)%nat).
  { apply lvl_at_height in Hlv. now rewrite (height_info _ _ _ (Hinfo y)) in Hlv. }
  rewrite drop_delete_le by lia.
  set (A := drop k (take k0 ns)). set (B := drop (S k0) ns).
  assert (HAB : drop k ns = A ++ x :: B) by (apply del_split; lia).
  assert (HlenA : List.length A = (k0 - k)%nat) by (apply length_drop_take; lia).
  assert (HB : drop (S k0) ns = B) by reflexivity.
  rewrite Hlev in Hlv.
  destruct (decide (Forall (fun z => height h z <= i)%nat A)) as [Hlow|Hnl].
  - rewrite Forall_forall in Hlow. rewrite (next_at_low h i A B Hlow). cbn [fst snd].
    destruct (decide (Z.of_nat i < zsl_level zsl)) as [HiL|HiL].
    + destruct (Hentries i HiL) as (u & p & Hu & Hpl).
      assert (k = p /\ y = u) as [-> ->].
      { destruct Hpl as (Hp & Hpk & Hhu & Hgap).
        assert (k = p) as ->.
        { destruct (Nat.lt_trichotomy k p) as [Hlt|[->|Hgt]]; [exfalso|reflexivity|exfalso].
          - destruct p as [|p']; [lia|].
            assert (ns !! p' = Some u) as Hu' by exact Hp.
            assert (height h u <= i)%nat; [|lia]. apply Hlow.
            apply (list_elem_of_lookup_2 _ (p' - k)%nat).
            subst A. rewrite lookup_drop, lookup_take_lt by lia.
            replace (k + (p' - k))%nat with p' by lia. exact Hu'.
          - pose proof (Hgap k y ltac:(lia) Hy). lia. }
        split; [reflexivity|]. rewrite Hp in Hy. now injection Hy. }
      destruct (lvl_at h u i) as [lvu|] eqn:Hlvu;
        [|exfalso; unfold lvl_at in Hlvu; unfold height in Hh;
          destruct (node_at h u); [apply lookup_ge_None in Hlvu; lia|lia]].
      pose proof (rep_forward _ _ _ R p u i lvu Hy Hlvu) as Hfu.
      pose proof (rep_span _ _ _ R p u i lvu Hy Hlvu HiL) as Hsu.
      rewrite HAB, (next_at_low h i A (x :: B) Hlow) in Hfu, Hsu.
      cbn [fst snd next_at] in Hfu, Hsu.
      pose proof (next_at_span_bounds h i B) as Hb.
      assert (List.length B = (List.length ns - S k0)%nat) as HlenB by apply length_drop.
      unfold del_level in Hlv. rewrite Hu, Hlvu in Hlv.
      destruct (decide (u = u)); [|congruence].
      destruct (Nat.ltb_spec i (height h x)) as [Hhx|Hhx]; cbn [fst snd] in Hfu, Hsu.
      * destruct (lvl_at_is_Some h x i Hhx) as [lvx Hlvx]. rewrite Hlvx in Hlv.
        destruct (decide (forward lvu = Some x)); [|congruence]. injection Hlv as <-.
        cbn [forward span].
        pose proof (rep_forward _ _ _ R (S k0) x i lvx Hx Hlvx) as Hfx.
        pose proof (rep_span _ _ _ R (S k0) x i lvx Hx Hlvx HiL) as Hsx.
        rewrite HB in Hfx, Hsx. split; [exact Hfx|intros _].
        rewrite u32_add_u32, u32_small by lia. lia.
      * assert (forward lvu <> Some x) as Hne.
        { rewrite Hfu. intros Hc. destruct (next_at_Some _ _ _ _ Hc) as (d & Hd & _).
          apply del_x_not_behind. eapply list_elem_of_lookup_2, Hd. }
        assert (Hlv' : Some (mk_level (forward lvu) (u32 (span lvu - 1))) = Some lv).
        { destruct (lvl_at h x i); [destruct (decide _); [contradiction|exact Hlv]|exact Hlv]. }
        injection Hlv' as <-. cbn [forward span]. split; [exact Hfu|intros _].
        rewrite u32_small by lia. lia.
    + split; [|intros; lia].
      rewrite (rep_forward _ _ _ R k y i lv Hy Hlv), HAB, (next_at_low h i A (x :: B) Hlow).
      cbn [fst next_at].
      destruct (Nat.ltb_spec i (height h x)) as [Hhx|Hhx]; [|reflexivity].
      exfalso. pose proof (list_elem_of_lookup_2 _ _ _ Hx) as Hxin.
      destruct (rep_nodes _ _ _ R x Hxin) as (o' & s' & Lx & Hi' & HLx).
      destruct (info_at_node _ _ _ _ _ Hi') as (n & Hn & _ & _ & HL').
      unfold height in Hhx. rewrite Hn in Hhx. lia.
  - apply not_Forall_Exists in Hnl; [|intros z; apply _].
    apply Exists_exists in Hnl as (z & Hz & Hzh). cbn in Hzh.
    rewrite (next_at_found h i A B (x :: B) z Hz) by lia.
    rewrite <- HAB.
    assert (Hlv0 : lvl_at h y i = Some lv).
    { destruct (decide (Z.of_nat i < zsl_level zsl)) as [HiL|]; [|exact Hlv].
      rewrite del_level_other in Hlv; [exact Hlv|].
      intros u Hu ->. destruct (Hentries i HiL) as (u' & p & Hu' & Hp & Hpk & _ & Hgap).
      rewrite Hu in Hu'. injection Hu' as <-.
      assert (k = p) as ->.
      { eapply NoDup_lookup; [apply (rep_nodup _ _ _ R)|exact Hy|exact Hp]. }
      apply elem_of_drop_take in Hz as (j & Hj & Hz).
      pose proof (Hgap (S j) z ltac:(lia) Hz). lia. }
    split; [apply (rep_forward _ _ _ R k y i lv Hy Hlv0)|].
    apply (rep_span _ _ _ R k y i lv Hy Hlv0).
Qed.

(** Behind the place of [x]. *)
Lemma without_levels_behind k y i lv :
  (k0 < k)%nat -> (header zsl :: ns) !! S k = Some y ->
  lvl_at h' y i = Some lv ->
  forward lv = fst (next_at h i (drop (S k) ns)) /\
  (Z.of_nat i < zsl_level zsl -> span lv = snd (next_at h i (drop (S k) ns))).
Proof.
  intros Hk Hy Hlv. rewrite Hlev in Hlv.
  assert (Hlv0 : lvl_at h y i = Some lv).
  { destruct (decide (Z.of_nat i < zsl_level zsl)) as [HiL|]; [|exact Hlv].
    rewrite del_level_other in Hlv; [exact Hlv|].
    intros u Hu ->. destruct (Hentries i HiL) as (u' & p & Hu' & Hp & Hpk & _).
    rewrite Hu in Hu'. injection Hu' as <-.
    pose proof (NoDup_lookup _ _ _ _ (rep_nodup _ _ _ R) Hy Hp). lia. }
  split; [apply (rep_forward _ _ _ R (S k) y i lv Hy Hlv0)|].
  apply (rep_span _ _ _ R (S k) y i lv Hy Hlv0).
Qed.

(** The level that is left. *)
Variable lvl' : Z.
Hypothesis Hlvl' : 1 <= lvl' <= zsl_level zsl.
Hypothesis Hheights : forall p, p ∈ delete k0 ns -> (height h p <= Z.to_nat lvl')%nat.

Definition zsl_without : zskiplist :=
  mk_zsl (header zsl)
         (match ns !! S k0 with
          | Some _ => tail zsl
          | None => match k0 with O => None | S k' => ns !! k' end
          end)
         (u64 (length zsl - 1)) lvl'.

Lemma delete_rep : zsl_rep h' zsl_without (delete k0 ns).
Proof.
  pose proof (rep_nodup _ _ _ R) as Hnd. pose proof del_k0 as Hk0.
  assert (Hnd' : NoDup ns) by (now apply NoDup_cons in Hnd).
  split; cbn [header zsl_level tail length zsl_without].
  - change (header zsl :: delete k0 ns) with (delete (S k0) (header zsl :: ns)).
    eapply sublist_NoDup; [exact Hnd|apply sublist_delete].
  - pose proof (rep_level _ _ _ R). lia.
  - destruct (rep_header _ _ _ R) as (s0 & Hs0). exists s0. now rewrite Hinfo.
  - intros p Hp. pose proof (Hheights p Hp) as Hhp.
    apply list_elem_of_delete_inv in Hp.
    destruct (rep_nodes _ _ _ R p Hp) as (o' & s' & L & Hi & HL).
    exists o', s', L. rewrite Hinfo. split; [exact Hi|].
    destruct (info_at_node _ _ _ _ _ Hi) as (n & Hn & _ & _ & HL').
    unfold height in Hhp. rewrite Hn in Hhp. lia.
  - intros k y i lv Hy Hlv. rewrite del_next.
    change (header zsl :: delete k0 ns) with (delete (S k0) (header zsl :: ns)) in Hy.
    destruct (Nat.lt_ge_cases k (S k0)) as [Hlt|Hge].
    + rewrite list_lookup_delete_lt in Hy by lia.
      apply (without_levels_before k y i lv); [lia|exact Hy|exact Hlv].
    + rewrite list_lookup_delete_ge in Hy by lia. rewrite drop_delete_gt by lia.
      apply (without_levels_behind k y i lv); [lia|exact Hy|exact Hlv].
  - intros k y i lv Hy Hlv Hi. rewrite del_next.
    change (header zsl :: delete k0 ns) with (delete (S k0) (header zsl :: ns)) in Hy.
    destruct (Nat.lt_ge_cases k (S k0)) as [Hlt|Hge].
    + rewrite list_lookup_delete_lt in Hy by lia.
      apply (without_levels_before k y i lv); [lia|exact Hy|exact Hlv|lia].
    + rewrite list_lookup_delete_ge in Hy by lia. rewrite drop_delete_gt by lia.
      apply (without_levels_behind k y i lv); [lia|exact Hy|exact Hlv|lia].
  - intros k y Hy. rewrite Hback.
    destruct (Nat.lt_ge_cases k k0) as [Hlt|Hge].
    + rewrite list_lookup_delete_lt in Hy by lia.
      destruct (decide (ns !! S k0 = Some y)) as [Hs|_].
      { pose proof (NoDup_lookup _ _ _ _ Hnd' Hy Hs). lia. }
      rewrite (rep_backward _ _ _ R k y Hy). f_equal.
      destruct k as [|k']; [reflexivity|]. now rewrite list_lookup_delete_lt by lia.
    + rewrite list_lookup_delete_ge in Hy by lia.
      destruct (decide (ns !! S k0 = Some y)) as [Hs|Hs].
      * pose proof (NoDup_lookup _ _ _ _ Hnd' Hy Hs). assert (k = k0) as -> by lia.
        f_equal. destruct k0 as [|k']; [reflexivity|].
        now rewrite list_lookup_delete_lt by lia.
      * assert (k <> k0) by (intros ->; auto).
        rewrite (rep_backward _ _ _ R (S k) y Hy). f_equal.
        destruct k as [|k']; [lia|]. now rewrite list_lookup_delete_ge by lia.
  - rewrite delete_take_drop, last_app.
    destruct (ns !! S k0) as [z|] eqn:Hz.
    + rewrite (rep_tail _ _ _ R).
      rewrite <- (take_drop (S k0) ns) at 1. rewrite last_app.
      rewrite (drop_S _ _ _ Hz). cbn [last].
      destruct (last (z :: drop (S (S k0)) ns)) eqn:E; [reflexivity|].
      apply last_None in E. discriminate.
    + apply lookup_ge_None in Hz. rewrite drop_ge by lia. cbn [last].
      rewrite last_lookup, length_take.
      destruct k0 as [|k']; [reflexivity|].
      replace (Init.Nat.pred (S k' `min` List.length ns)) with k' by lia.
      symmetry. apply lookup_take_lt. lia.
  - rewrite length_delete by eauto. rewrite (rep_length _ _ _ R). unfold u64.
    rewrite Z.mod_small; lia.
Qed.

End DeleteRep.

Lemma delete_lower_spec h hd : forall fuel lvl,
  1 <= lvl -> (Z.to_nat lvl <= fuel)%nat ->
  (forall j, (j < Z.to_nat lvl)%nat -> is_Some (lvl_at h hd j)) ->
  exists lvl',
    delete_lower fuel h hd lvl = inr lvl' /\ 1 <= lvl' <= lvl /\
    (forall j lv, (Z.to_nat lvl' <= j < Z.to_nat lvl)%nat -> lvl_at h hd j = Some lv ->
                  forward lv = None).
Proof.
  induction fuel as [|fuel IH]; intros lvl Hl Hf Hhd; [lia|].
  cbn [delete_lower]. destruct (Z.gtb_spec lvl 1) as [Hgt|Hle].
  - destruct (Hhd (Z.to_nat (lvl - 1)) ltac:(lia)) as [lv Hlv].
    pose proof (get_forward_ok _ _ _ _ Hlv) as Hg. rewrite Z2Nat.id in Hg by lia.
    rewrite Hg. cbn [bind]. destruct (forward lv) as [f|] eqn:Hfw.
    + exists lvl. split; [reflexivity|]. split; [lia|]. intros j lv' Hj. lia.
    + destruct (IH (lvl - 1)) as (lvl' & Hr & Hb & Hnone); [lia|lia| |].
      { intros j Hj. apply Hhd. lia. }
      exists lvl'. split; [exact Hr|]. split; [lia|].
      intros j lv' Hj Hlv'.
      destruct (Nat.eq_dec j (Z.to_nat (lvl - 1))) as [->|Hne].
      * rewrite Hlv in Hlv'. injection Hlv' as <-. exact Hfw.
      * apply (Hnone j lv'); [lia|exact Hlv'].
  - exists lvl. split; [reflexivity|]. split; [lia|]. intros j lv' Hj. lia.
Qed.

Lemma zslDeleteNode_spec h zsl ns k0 x update :
  zsl_rep h zsl ns -> Z.of_nat (List.length ns) < 2^32 -> ns !! k0 = Some x ->
  (forall i, Z.of_nat i < zsl_level zsl ->
     exists u p, update !! i = Some (Some u) /\ place_ok h zsl ns k0 i u p) ->
  exists h' zsl',
    zslDeleteNode h zsl x update = inr (h', zsl') /\
    zsl_rep h' zsl' (delete k0 ns) /\
    (forall q, info_at h' q = info_at h q) /\
    List.length h' = List.length h /\ header zsl' = header zsl /\
    zsl_level zsl' <= zsl_level zsl.
Proof.
  intros R Hsmall Hx Hent.
  pose proof (rep_level _ _ _ R) as HL. pose proof (rep_nodup _ _ _ R) as Hnd.
  pose proof (list_elem_of_lookup_2 _ _ _ Hx) as Hxin.
  assert (Hux : forall j u, Z.of_nat j < zsl_level zsl -> update !! j = Some (Some u) -> u <> x).
  { intros j u Hj Hu ->. destruct (Hent j Hj) as (u' & p & Hu' & Hp & Hpk & _).
    rewrite Hu in Hu'. injection Hu' as <-.
    assert ((header zsl :: ns) !! S k0 = Some x) as Hx' by exact Hx.
    pose proof (NoDup_lookup _ _ _ _ Hnd Hp Hx'). lia. }
  (* the unlinking *)
  destruct (delete_unlink_spec x update (Z.to_nat (zsl_level zsl)) O h)
    as (h1 & Hun & Hst1 & Hlev1).
  { intros j Hj. destruct (Hent j ltac:(lia)) as (u & p & Hu & Hpl).
    destruct (lvl_at_is_Some h u j) as [lvu Hlvu]; [apply Hpl|].
    exists u, lvu. split; [exact Hu|]. split; [apply (Hux j u); [lia|exact Hu]|].
    split; [exact Hlvu|]. intros Hf.
    rewrite (rep_forward _ _ _ R p u j lvu (proj1 Hpl) Hlvu) in Hf.
    destruct (next_at_Some _ _ _ _ Hf) as (d & _ & Hh & _). now apply lvl_at_is_Some. }
  unfold zslDeleteNode. change 0 with (Z.of_nat 0) at 1. rewrite Hun. cbn [bind].
  assert (H1lev : forall q j, lvl_at h1 q j
            = if decide (Z.of_nat j < zsl_level zsl) then del_level h x update q j
              else lvl_at h q j).
  { intros q j. rewrite Hlev1.
    destruct (decide (0 <= j < 0 + Z.to_nat (zsl_level zsl))%nat),
             (decide (Z.of_nat j < zsl_level zsl)); try reflexivity; lia. }
  destruct Hst1 as (Hlen1 & Hinfo1 & Hback1).
  (* the node itself *)
  destruct (rep_nodes _ _ _ R x Hxin) as (ox & sx & Lx & Hix & HLx).
  assert (is_Some (node_at h1 x)) as [xn Hxn].
  { pose proof (Hinfo1 x) as Hi. rewrite Hix in Hi. unfold info_at in Hi.
    destruct (node_at h1 x); [eauto|discriminate]. }
  rewrite (deref_node_at _ _ _ Hxn). cbn [bind].
  assert (Hbx : backward xn = match k0 with O => None | S k' => ns !! k' end).
  { pose proof (Hback1 x) as Hb. rewrite (rep_backward _ _ _ R k0 x Hx) in Hb.
    unfold backward_at in Hb. rewrite Hxn in Hb. now injection Hb. }
  assert (H1x0 : exists lvx, lvl_at h1 x O = Some lvx /\ forward lvx = ns !! S k0).
  { destruct (lvl_at_is_Some h x O) as [lvx Hlvx].
    { destruct (info_at_node _ _ _ _ _ Hix) as (n & Hn & _ & _ & HLn).
      unfold height. rewrite Hn. lia. }
    exists lvx. split.
    - rewrite H1lev. destruct (decide (Z.of_nat 0 < zsl_level zsl)); [|lia].
      rewrite del_level_other; [exact Hlvx|]. intros u Hu Heq.
      apply (Hux O u ltac:(lia) Hu). now symmetry.
    - rewrite (rep_forward _ _ _ R (S k0) x O lvx Hx Hlvx).
      rewrite next_at_level0
        by (intros z Hz; apply (shape_height_pos h zsl ns (rep_shape _ _ _ R));
            apply list_elem_of_lookup_1 in Hz as [j Hj]; rewrite lookup_drop in Hj;
            eapply list_elem_of_lookup_2, Hj).
      now rewrite head_lookup, lookup_drop, Nat.add_0_r. }
  destruct H1x0 as (lvx & Hlvx1 & Hfx).
  change 0 with (Z.of_nat 0) at 1. rewrite (get_forward_ok _ _ _ _ Hlvx1). cbn [bind].
  rewrite Hfx, Hbx.
  set (bx := match k0 with O => None | S k' => ns !! k' end).
  set (h2 := match ns !! S k0 with
             | Some f => upd_node h1 f (with_backward bx)
             | None => h1
             end).
  set (tl := match ns !! S k0 with Some _ => tail zsl | None => bx end).
  assert (Hstep : match ns !! S k0 with
                  | Some f => h0 <- set_backward h1 f bx;; ret (h0, tail zsl)
                  | None => ret (h1, bx)
                  end = inr (h2, tl)).
  { subst h2 tl. destruct (ns !! S k0) as [f|] eqn:Hf; [|reflexivity].
    assert (is_Some (node_at h1 f)) as [fn Hfn].
    { destruct (rep_nodes _ _ _ R f (list_elem_of_lookup_2 _ _ _ Hf)) as (o' & s' & L' & Hi' & _).
      pose proof (Hinfo1 f) as Hi. rewrite Hi' in Hi. unfold info_at in Hi.
      destruct (node_at h1 f); [eauto|discriminate]. }
    rewrite (set_backward_ok _ _ _ _ Hfn). reflexivity. }
  rewrite Hstep. cbn [bind].
  assert (H2lev : forall q j, lvl_at h2 q j = lvl_at h1 q j).
  { intros q j. subst h2. destruct (ns !! S k0); rewrite ?lvl_at_with_backward; reflexivity. }
  assert (H2info : forall q, info_at h2 q = info_at h q).
  { intros q. rewrite <- Hinfo1. subst h2.
    destruct (ns !! S k0); rewrite ?info_at_with_backward; reflexivity. }
  assert (H2back : forall q, backward_at h2 q
            = if decide (ns !! S k0 = Some q) then Some bx else backward_at h q).
  { intros q. subst h2. destruct (ns !! S k0) as [f|] eqn:Hf.
    - rewrite backward_at_with_backward, !Hback1.
      destruct (decide (q = f)) as [->|Hne].
      + destruct (decide (Some f = Some f)); [|congruence].
        rewrite (rep_backward _ _ _ R (S k0) f Hf). reflexivity.
      + destruct (decide (Some f = Some q)); [congruence|reflexivity].
    - rewrite Hback1. destruct (decide (None = Some q)); [discriminate|reflexivity]. }
  (* the level *)
  destruct (delete_lower_spec h2 (header zsl) (S (Z.to_nat (zsl_level zsl))) (zsl_level zsl))
    as (lvl' & Hlow & Hlvl' & Hnone); [lia|lia| |].
  { intros j Hj. apply lvl_at_is_Some.
    rewrite (height_info _ _ _ (H2info _)), (rep_header_height _ _ _ R).
    unfold ZSKIPLIST_MAXLEVEL in *. lia. }
  rewrite Hlow. cbn [bind ret].
  exists h2, (zsl_without zsl ns k0 lvl'). split; [reflexivity|].
  assert (H2lev' : forall q j, lvl_at h2 q j
            = if decide (Z.of_nat j < zsl_level zsl) then del_level h x update q j
              else lvl_at h q j) by (intros; rewrite H2lev; apply H1lev).
  split; [|split; [exact H2info|split; [|split; [reflexivity|apply Hlvl']]]].
  - apply (delete_rep h zsl ns R Hsmall k0 x Hx update Hent h2 H2info H2lev' H2back lvl' Hlvl').
    intros p Hp.
    destruct (Z.eq_dec lvl' (zsl_level zsl)) as [->|Hne].
    + apply list_elem_of_delete_inv in Hp.
      destruct (rep_nodes _ _ _ R p Hp) as (o' & s' & L' & Hi' & HL').
      destruct (info_at_node _ _ _ _ _ Hi') as (n & Hn & _ & _ & HLn).
      unfold height. rewrite Hn. lia.
    + destruct (lvl_at_is_Some h2 (header zsl) (Z.to_nat lvl')) as [lv Hlv].
      { rewrite (height_info _ _ _ (H2info _)), (rep_header_height _ _ _ R).
        unfold ZSKIPLIST_MAXLEVEL in *. lia. }
      pose proof (Hnone (Z.to_nat lvl') lv ltac:(lia) Hlv) as Hfn.
      destruct (without_levels_before h zsl ns R Hsmall k0 x Hx update Hent h2 H2info H2lev'
                  O (header zsl) (Z.to_nat lvl') lv ltac:(lia) eq_refl Hlv) as [Hf _].
      rewrite Hfn, drop_0 in Hf. symmetry in Hf.
      destruct (next_at_None _ _ _ Hf) as [_ Hall]. apply Hall, Hp.
  - subst h2. destruct (ns !! S k0); rewrite ?length_upd_node; exact Hlen1.
Qed.

(** The search of [zslDelete] and of the range deletions, from the header:
    it ends on the node at some place [k], and [update] holds the
    predecessors of the node behind it. *)
Lemma update_search_places h zsl ns P pb :
  zsl_shape h zsl ns ->
  (forall n, is_Some (obj n) -> P n = inr (pb n)) ->
  exists k x update,
    update_search (Z.to_nat (zsl_level zsl)) h P (header zsl)
      (replicate (Z.to_nat ZSKIPLIST_MAXLEVEL) None) = inr (x, update) /\
    (header zsl :: ns) !! k = Some x /\
    (forall i, Z.of_nat i < zsl_level zsl ->
       exists u p, update !! i = Some (Some u) /\ place_ok h zsl ns k i u p) /\
    (k = O \/ pbp h pb x = true) /\
    (forall y, ns !! k = Some y -> pbp h pb y = false).
Proof.
  intros Hshape HP. pose proof (shape_level _ _ _ Hshape) as HL.
  destruct (update_search_spec h zsl ns Hshape P pb HP
              (Z.to_nat (zsl_level zsl)) (Z.to_nat (zsl_level zsl)) O (header zsl)
              (replicate (Z.to_nat ZSKIPLIST_MAXLEVEL) None))
    as (k & x & update & Hs & _ & Hk & Hlen & Hinv & _ & Hor).
  { lia. } { rewrite length_replicate. unfold ZSKIPLIST_MAXLEVEL in *. lia. }
  { reflexivity. }
  { rewrite (shape_header_height h zsl ns Hshape). unfold ZSKIPLIST_MAXLEVEL in *. lia. }
  { intros i Hi. lia. }
  exists k, x, update. split; [exact Hs|]. split; [exact Hk|].
  split; [|split; [exact Hor|]].
  - intros i Hi. destruct (Hinv i ltac:(lia)) as (u & Hu & p & Hp & Hpk & Hh & Hgap & _).
    exists u, p. split; [exact Hu|]. split; [exact Hp|]. split; [exact Hpk|].
    split; [exact Hh|exact Hgap].
  - intros y Hy.
    destruct (Hinv O ltac:(lia)) as (u & Hu & p & Hp & Hpk & Hh & Hgap & Hstop).
    assert (p = k) as ->.
    { destruct (Nat.eq_dec p k) as [|Hne]; [assumption|exfalso].
      destruct k as [|j]; [lia|].
      assert (ns !! j = Some x) as Hx' by exact Hk.
      pose proof (Hgap (S j) x ltac:(lia) Hk).
      pose proof (shape_height_pos h zsl ns Hshape x (list_elem_of_lookup_2 _ _ _ Hx')). lia. }
    apply Hstop. rewrite next_at_level0
      by (intros z Hz; apply (shape_height_pos h zsl ns Hshape);
          apply list_elem_of_lookup_1 in Hz as [j Hj]; rewrite lookup_drop in Hj;
          eapply list_elem_of_lookup_2, Hj).
    now rewrite head_lookup, lookup_drop, Nat.add_0_r.
Qed.

(** A freed node that the list does not hold. *)
Lemma rep_free h zsl ns x :
  zsl_rep h zsl ns -> x ∉ header zsl :: ns -> zsl_rep (<[x := None]> h) zsl ns.
Proof.
  intros R Hx.
  assert (Hnode : forall q, q <> x -> node_at (<[x := None]> h) q = node_at h q).
  { intros q Hq. unfold node_at. now rewrite list_lookup_insert_ne by congruence. }
  assert (Hq : forall q, q ∈ header zsl :: ns -> q <> x) by (intros q Hin ->; auto).
  assert (Hinfo : forall q, q <> x -> info_at (<[x := None]> h) q = info_at h q).
  { intros q Hne. unfold info_at. now rewrite Hnode. }
  assert (Hlvl : forall q j, q <> x -> lvl_at (<[x := None]> h) q j = lvl_at h q j).
  { intros q j Hne. unfold lvl_at. now rewrite Hnode. }
  assert (Hnext : forall i l, (forall z, z ∈ l -> z ∈ ns) ->
            next_at (<[x := None]> h) i l = next_at h i l).
  { intros i l Hl. apply next_at_ext. intros p Hp. apply height_info, Hinfo, Hq.
    right. now apply Hl. }
  assert (Hdrop : forall k z, z ∈ drop k ns -> z ∈ ns).
  { intros k z Hz. apply list_elem_of_lookup_1 in Hz as [j Hj]. rewrite lookup_drop in Hj.
    eapply list_elem_of_lookup_2, Hj. }
  split.
  - apply (rep_nodup _ _ _ R).
  - apply (rep_level _ _ _ R).
  - destruct (rep_header _ _ _ R) as (s0 & Hs0). exists s0.
    rewrite Hinfo; [exact Hs0|]. apply Hq. now left.
  - intros p Hp. rewrite Hinfo by (apply Hq; now right). apply (rep_nodes _ _ _ R p Hp).
  - intros k y i lv Hy Hlv. rewrite Hnext by apply Hdrop.
    rewrite Hlvl in Hlv by (apply Hq; eapply list_elem_of_lookup_2, Hy).
    apply (rep_forward _ _ _ R k y i lv Hy Hlv).
  - intros k y i lv Hy Hlv. rewrite Hnext by apply Hdrop.
    rewrite Hlvl in Hlv by (apply Hq; eapply list_elem_of_lookup_2, Hy).
    apply (rep_span _ _ _ R k y i lv Hy Hlv).
  - intros k y Hy. unfold backward_at.
    rewrite Hnode by (apply Hq; right; eapply list_elem_of_lookup_2, Hy).
    apply (rep_backward _ _ _ R k y Hy).
  - apply (rep_tail _ _ _ R).
  - apply (rep_length _ _ _ R).
Qed.

(** A search whose test holds of the first [t] nodes only ends behind
    them. *)
Lemma search_end_threshold h ns hd pb t k x :
  threshold h ns pb t -> (hd :: ns) !! k = Some x ->
  (k = O \/ pbp h pb x = true) ->
  (forall y, ns !! k = Some y -> pbp h pb y = false) ->
  k = t.
Proof.
  intros [Ht Hthr] Hk Hor Hstop.
  assert (t <= k)%nat.
  { destruct (ns !! k) as [y|] eqn:Hy.
    - pose proof (Hstop y eq_refl) as Hpy. rewrite (Hthr _ _ Hy) in Hpy.
      now apply Nat.ltb_ge in Hpy.
    - apply lookup_ge_None in Hy. lia. }
  assert (k <= t)%nat; [|lia].
  destruct k as [|j]; [lia|]. destruct Hor as [|Hpx]; [lia|].
  assert (ns !! j = Some x) as Hx by exact Hk.
  rewrite (Hthr _ _ Hx) in Hpx. apply Nat.ltb_lt in Hpx. lia.
Qed.

Lemma free_ok h x n : node_at h x = Some n -> free h x = inr (<[x := None]> h).
Proof. intros Hn. unfold free. now rewrite (deref_node_at _ _ _ Hn). Qed.

Lemma info_at_free h x q : q <> x -> info_at (<[x := None]> h) q = info_at h q.
Proof.
  intros Hq. unfold info_at, node_at. now rewrite list_lookup_insert_ne by congruence.
Qed.

Section DeleteSpec.

Variable cmp : list Z -> list Z -> Z.
Hypothesis cmp_antisym : forall a b, Z.sgn (cmp a b) = - Z.sgn (cmp b a).
Hypothesis cmp_trans : forall a b c, cmp a b <= 0 -> cmp b c <= 0 -> cmp a c <= 0.

Lemma deq_refl s : isnan s = false -> deq s s = true.
Proof.
  intros N. apply (compare_order_key s s N N). unfold key_eq. auto.
Qed.

Lemma before_irrefl s o' : isnan s = false -> before cmp s o' s o' = false.
Proof.
  intros N. unfold before.
  destruct (dlt s s) eqn:D.
  - apply (compare_order_key s s N N) in D. unfold key_lt in D. lia.
  - cbn. pose proof (sgn_flip _ _ (cmp_antisym o' o')).
    destruct (Z.ltb_spec (cmp o' o') 0); [lia|]. now rewrite andb_false_r.
Qed.

Lemma before_asym s1 o1 s2 o2 :
  isnan s1 = false -> isnan s2 = false ->
  before cmp s1 o1 s2 o2 = true -> before cmp s2 o2 s1 o1 = false.
Proof.
  intros N1 N2 H12. destruct (before cmp s2 o2 s1 o1) eqn:H21; [|reflexivity].
  pose proof (before_trans cmp cmp_antisym cmp_trans _ _ _ _ _ _ N1 N2 N1 H12 H21) as H.
  now rewrite before_irrefl in H.
Qed.

Variables (h : list (option zskiplistNode)) (zsl : zskiplist) (ns : list nat).
Hypothesis R : zsl_rep h zsl ns.
Hypothesis Hsorted : key_sorted cmp h ns.
Hypothesis Hscores : scores_ok h ns.
Hypothesis Hsmall : Z.of_nat (List.length ns) < 2^32.

(** The search for the pair of the node at the index [k0] ends in front of
    it. *)
Lemma own_threshold k0 x :
  ns !! k0 = Some x -> threshold h ns (key_pb cmp (score_at h x) (elem h x)) k0.
Proof.
  intros Hx. split; [apply lookup_lt_Some in Hx; lia|].
  pose proof (list_elem_of_lookup_2 _ _ _ Hx) as Hxin.
  intros j p Hp. pose proof (list_elem_of_lookup_2 _ _ _ Hp) as Hpin.
  assert (Hpb : pbp h (key_pb cmp (score_at h x) (elem h x)) p
                = before cmp (score_at h p) (elem h p) (score_at h x) (elem h x)).
  { destruct (rep_nodes _ _ _ R p Hpin) as (o' & s' & L & Hi & _).
    destruct (info_at_node _ _ _ _ _ Hi) as (n & Hn & Ho & Hs & _).
    unfold pbp, key_pb, before, score_at, elem. rewrite Hn. reflexivity. }
  rewrite Hpb.
  destruct (Nat.lt_trichotomy j k0) as [Hlt|[->|Hgt]].
  - rewrite (Hsorted j k0 p x Hlt Hp Hx). symmetry. now apply Nat.ltb_lt.
  - rewrite Hp in Hx. injection Hx as ->. rewrite before_irrefl by now apply Hscores.
    symmetry. apply Nat.ltb_irrefl.
  - rewrite (before_asym _ _ _ _ (Hscores x Hxin) (Hscores p Hpin) (Hsorted k0 j x p Hgt Hx Hp)).
    symmetry. apply Nat.ltb_ge. lia.
Qed.

(** [zslDelete] finds the pair of a node of the list, unlinks the node and
    frees it. *)
Lemma zslDelete_spec k0 x :
  ns !! k0 = Some x ->
  exists h' zsl',
    zslDelete cmp h zsl (score_at h x) (elem h x) = inr (h', zsl', 1) /\
    zsl_rep h' zsl' (delete k0 ns) /\
    (forall q, q <> x -> info_at h' q = info_at h q) /\
    List.length h' = List.length h /\ header zsl' = header zsl.
Proof.
  intros Hx. pose proof (rep_shape _ _ _ R) as Hshape.
  pose proof (list_elem_of_lookup_2 _ _ _ Hx) as Hxin.
  destruct (update_search_places h zsl ns
              (key_before cmp (score_at h x) (elem h x))
              (key_pb cmp (score_at h x) (elem h x)) Hshape)
    as (k & x' & update & Hs & Hk & Hent & Hor & Hstop).
  { apply key_before_pb. }
  assert (k = k0) as ->
    by (eapply search_end_threshold; eauto using own_threshold).
  unfold zslDelete. rewrite Hs. cbn [bind].
  rewrite (shape_next0 h zsl ns Hshape k0 x' Hk), Hx. cbn [bind].
  destruct (rep_nodes _ _ _ R x Hxin) as (ox & sx & Lx & Hix & _).
  destruct (info_at_node _ _ _ _ _ Hix) as (xn & Hxn & Hox & Hsx & _).
  rewrite (deref_node_at _ _ _ Hxn). cbn [bind]. unfold node_obj. rewrite Hox. cbn [bind ret].
  assert (Hsc : score_at h x = score xn) by (unfold score_at; now rewrite Hxn).
  assert (Hel : elem h x = ox) by (unfold elem; now rewrite Hxn, Hox).
  rewrite Hsc, Hel in *.
  assert (Hnan : isnan (score xn) = false) by (rewrite <- Hsc; now apply Hscores).
  rewrite (deq_refl _ Hnan). unfold equalStringObjects.
  pose proof (sgn_flip _ _ (cmp_antisym ox ox)) as Hoo.
  destruct (Z.eqb_spec (cmp ox ox) 0) as [_|Hne]; [|lia]. cbn [andb].
  destruct (zslDeleteNode_spec h zsl ns k0 x update R Hsmall Hx Hent)
    as (h1 & zsl' & Hd & R1 & Hinfo1 & Hlen1 & Hhd & _).
  rewrite Hd. cbn [bind].
  assert (is_Some (node_at h1 x)) as [xn1 Hxn1].
  { pose proof (Hinfo1 x) as Hi. rewrite Hix in Hi. unfold info_at in Hi.
    destruct (node_at h1 x); [eauto|discriminate]. }
  unfold zslFreeNode. rewrite (free_ok _ _ _ Hxn1). cbn [bind ret].
  exists (<[x := None]> h1), zsl'. split; [reflexivity|]. split; [|split; [|split]].
  - apply rep_free; [exact R1|]. rewrite Hhd.
    change (header zsl :: delete k0 ns) with (delete (S k0) (header zsl :: ns)).
    intros Hin. apply list_elem_of_lookup_1 in Hin as [j Hj].
    pose proof (rep_nodup _ _ _ R) as Hnd.
    assert ((header zsl :: ns) !! S k0 = Some x) as Hx' by exact Hx.
    destruct (Nat.lt_ge_cases j (S k0)).
    + rewrite list_lookup_delete_lt in Hj by lia.
      pose proof (NoDup_lookup _ _ _ _ Hnd Hj Hx'). lia.
    + rewrite list_lookup_delete_ge in Hj by lia.
      pose proof (NoDup_lookup _ _ _ _ Hnd Hj Hx'). lia.
  - intros q Hq. rewrite info_at_free by exact Hq. apply Hinfo1.
  - rewrite length_insert. exact Hlen1.
  - exact Hhd.
Qed.

End DeleteSpec.

(** *** The nodes the code reaches, and deletions in a row *)

Lemma nodes_after_spec h zsl ns :
  zsl_shape h zsl ns ->
  forall fuel k x, (header zsl :: ns) !! k = Some x ->
    (List.length ns - k <= fuel)%nat -> nodes_after fuel h x = drop k ns.
Proof.
  intros Hshape. induction fuel as [|fuel IH]; intros k x Hk Hfuel.
  - cbn [nodes_after]. symmetry. apply drop_ge. lia.
  - cbn [nodes_after]. rewrite (shape_next0 h zsl ns Hshape k x Hk).
    destruct (ns !! k) as [f|] eqn:Hf.
    + rewrite (IH (S k) f Hf) by lia. symmetry. now apply drop_S.
    + symmetry. apply drop_ge. now apply lookup_ge_None.
Qed.

(** The level-0 chain of a represented list is the list. *)
Lemma zsl_nodes_shape h zsl ns : zsl_shape h zsl ns -> zsl_nodes h zsl = ns.
Proof.
  intros Hshape. unfold zsl_nodes.
  rewrite (nodes_after_spec h zsl ns Hshape (List.length h) O (header zsl) eq_refl).
  - apply drop_0.
  - pose proof (shape_length_le h zsl ns Hshape). lia.
Qed.

Lemma zsl_pairs_rep h zsl ns :
  zsl_rep h zsl ns -> zsl_pairs h zsl = map (fun p => (score_at h p, elem h p)) ns.
Proof.
  intros R. unfold zsl_pairs. rewrite (zsl_nodes_shape h zsl ns (rep_shape _ _ _ R)).
  assert (Hall : forall p, p ∈ ns -> exists n o, node_at h p = Some n /\ obj n = Some o).
  { intros p Hp. destruct (rep_nodes _ _ _ R p Hp) as (o & sc & L & Hi & _).
    destruct (info_at_node _ _ _ _ _ Hi) as (n & Hn & Ho & _). eauto. }
  clear R. induction ns as [|p l IH]; [reflexivity|].
  cbn [omap list_omap map].
  destruct (Hall p ltac:(left)) as (n & o & Hn & Ho).
  rewrite (deref_node_at _ _ _ Hn), Ho. unfold score_at, elem. rewrite Hn, Ho.
  cbn [default]. rewrite IH; [reflexivity|].
  intros q Hq. apply Hall. now right.
Qed.

(** The order of the nodes that are left when one is taken out. *)
Lemma sorted_delete cmp h h' ns k x :
  NoDup ns -> ns !! k = Some x -> key_sorted cmp h ns -> scores_ok h ns ->
  (forall q, q <> x -> info_at h' q = info_at h q) ->
  key_sorted cmp h' (delete k ns) /\ scores_ok h' (delete k ns).
Proof.
  intros Hnd Hx Hsorted Hscores Hinfo.
  assert (Hold : forall q, q ∈ delete k ns ->
            q ∈ ns /\ score_at h' q = score_at h q /\ elem h' q = elem h q).
  { intros q Hq. apply list_elem_of_lookup_1 in Hq as [j Hj].
    assert (Hq : exists j', ns !! j' = Some q /\ j' <> k).
    { destruct (Nat.lt_ge_cases j k).
      - rewrite list_lookup_delete_lt in Hj by lia. exists j. split; [exact Hj|lia].
      - rewrite list_lookup_delete_ge in Hj by lia. exists (S j). split; [exact Hj|lia]. }
    destruct Hq as (j' & Hj' & Hne). split; [eapply list_elem_of_lookup_2, Hj'|].
    apply score_elem_info, Hinfo. intros ->.
    pose proof (NoDup_lookup _ _ _ _ Hnd Hj' Hx). lia. }
  split.
  - intros j1 j2 p q Hlt Hp Hq.
    destruct (Hold p (list_elem_of_lookup_2 _ _ _ Hp)) as (_ & -> & ->).
    destruct (Hold q (list_elem_of_lookup_2 _ _ _ Hq)) as (_ & -> & ->).
    destruct (Nat.lt_ge_cases j1 k), (Nat.lt_ge_cases j2 k).
    + rewrite list_lookup_delete_lt in Hp, Hq by lia.
      apply (Hsorted j1 j2); [lia|assumption|assumption].
    + rewrite list_lookup_delete_lt in Hp by lia. rewrite list_lookup_delete_ge in Hq by lia.
      apply (Hsorted j1 (S j2)); [lia|assumption|assumption].
    + lia.
    + rewrite list_lookup_delete_ge in Hp, Hq by lia.
      apply (Hsorted (S j1) (S j2)); [lia|assumption|assumption].
  - intros q Hq. destruct (Hold q Hq) as (Hin & -> & _). now apply Hscores.
Qed.

(** The predecessors of the node at the index [k] are those of the node
    that takes its place when it is unlinked. *)
Lemma place_ok_delete h h' zsl zsl' ns k x i u p :
  NoDup (header zsl :: ns) -> ns !! k = Some x ->
  header zsl' = header zsl ->
  (forall q, q <> x -> info_at h' q = info_at h q) ->
  place_ok h zsl ns k i u p -> place_ok h' zsl' (delete k ns) k i u p.
Proof.
  intros Hnd Hx Hhd Hinfo (Hp & Hpk & Hh & Hgap).
  assert (Hx' : (header zsl :: ns) !! S k = Some x) by exact Hx.
  assert (Hsame : forall j z, (j <= k)%nat ->
            (header zsl' :: delete k ns) !! j = Some z ->
            (header zsl :: ns) !! j = Some z /\ height h' z = height h z).
  { intros j z Hj Hz. rewrite Hhd in Hz.
    change (header zsl :: delete k ns) with (delete (S k) (header zsl :: ns)) in Hz.
    rewrite list_lookup_delete_lt in Hz by lia. split; [exact Hz|].
    apply height_info, Hinfo. intros ->.
    pose proof (NoDup_lookup _ _ _ _ Hnd Hz Hx'). lia. }
  assert (Hu : (header zsl' :: delete k ns) !! p = Some u).
  { rewrite Hhd.
    change (header zsl :: delete k ns) with (delete (S k) (header zsl :: ns)).
    rewrite list_lookup_delete_lt by lia. exact Hp. }
  split; [exact Hu|]. split; [exact Hpk|]. split.
  - destruct (Hsame p u Hpk Hu) as [_ ->]. exact Hh.
  - intros j z Hj Hz. destruct (Hsame j z ltac:(lia) Hz) as [Hz' ->].
    now apply (Hgap j z).
Qed.

Lemma walk_rank_unfold fuel h cond x i traversed :
  walk_rank fuel h cond x i traversed =
  (xn <- deref h x;;
   lv <- get_level xn i;;
   match forward lv with
   | None => ret (x, traversed)
   | Some f =>
       if cond (u64 (traversed + span lv)) then
         match fuel with
         | O => fail OutOfFuel
         | S fuel' => walk_rank fuel' h cond f i (u64 (traversed + span lv))
         end
       else ret (x, traversed)
   end).
Proof. destruct fuel; reflexivity. Qed.

(** The walk of [zslDeleteRangeByRank] at one level: it stops on the last
    node with that level among the first [t], where [t] is the number of
    nodes whose rank is below [start]. *)
Lemma walk_rank_below h zsl ns start t :
  zsl_rep h zsl ns -> Z.of_nat (List.length ns) < 2^32 ->
  (t <= List.length ns)%nat ->
  (forall j : nat, (1 <= j <= List.length ns)%nat ->
     (Z.of_nat j <? start) = (j <=? t)%nat) ->
  forall fuel k x i,
    (header zsl :: ns) !! k = Some x -> (i < height h x)%nat ->
    Z.of_nat i < zsl_level zsl -> (k <= t)%nat ->
    (List.length ns - k <= fuel)%nat ->
    exists k' x',
      walk_rank fuel h (fun r => r <? start) x (Z.of_nat i) (Z.of_nat k)
        = inr (x', Z.of_nat k') /\
      (k <= k' <= t)%nat /\ place_ok h zsl ns t i x' k'.
Proof.
  intros R Hsmall Ht Hcond.
  induction fuel as [|fuel IH]; intros k x i Hk Hi HiL Hkt Hfuel;
    rewrite walk_rank_unfold;
    destruct (lvl_at_is_Some h x i Hi) as [lv Hlv];
    destruct (lvl_at_node _ _ _ _ Hlv) as (xn & Hxn & Hlvn);
    rewrite (deref_node_at _ _ _ Hxn); cbn [bind];
    rewrite (get_level_nat _ _ _ Hlvn); cbn [bind];
    pose proof (rep_forward _ _ _ R k x i lv Hk Hlv) as Hf;
    pose proof (rep_span _ _ _ R k x i lv Hk Hlv HiL) as Hs;
    destruct (forward lv) as [y|] eqn:Hfw.
  all: try (symmetry in Hf; destruct (next_at_None _ _ _ Hf) as [_ Hall];
            exists k, x; split; [reflexivity|]; split; [lia|];
            split; [exact Hk|]; split; [exact Hkt|]; split; [exact Hi|];
            intros j z Hj Hz; destruct j as [|j]; [lia|];
            apply Hall, (list_elem_of_lookup_2 _ (j - k)%nat);
            rewrite lookup_drop; replace (k + (j - k))%nat with j by lia; exact Hz).
  all: symmetry in Hf; destruct (next_at_Some _ _ _ _ Hf) as (d & Hd & Hhy & Hsp & Hbef);
    rewrite lookup_drop in Hd;
    assert (Hkd : (k + d < List.length ns)%nat) by (now apply lookup_lt_Some in Hd);
    assert (Hu : u64 (Z.of_nat k + span lv) = Z.of_nat (S (k + d)))
      by (rewrite Hs, Hsp; unfold u64; rewrite Z.mod_small; lia);
    rewrite Hu, (Hcond (S (k + d))) by lia;
    destruct (Nat.leb_spec (S (k + d)) t) as [Hle|Hgt].
  all: try (exists k, x; split; [reflexivity|]; split; [lia|];
            split; [exact Hk|]; split; [exact Hkt|]; split; [exact Hi|];
            intros j z Hj Hz; destruct j as [|j]; [lia|];
            apply (Hbef (j - k)%nat z); [lia|];
            rewrite lookup_drop; replace (k + (j - k))%nat with j by lia; exact Hz).
  - lia.
  - destruct (IH (S (k + d)) y i Hd Hhy HiL Hle ltac:(lia)) as (k' & x' & Hw & Hle' & Hpl).
    exists k', x'. split; [exact Hw|]. split; [lia|exact Hpl].
Qed.

(** The list of [zslCreate()] is the empty list. *)
Lemma zslCreate_rep h : zsl_rep (fst (zslCreate h)) (snd (zslCreate h)) [].
Proof.
  unfold zslCreate, zslCreateNode. cbn [fst snd].
  split; cbn [header tail length zsl_level].
  - apply NoDup_singleton.
  - unfold ZSKIPLIST_MAXLEVEL. lia.
  - exists pos_zero. rewrite info_at_snoc.
    destruct (decide _); [|congruence]. cbn [obj score level]. now rewrite length_replicate.
  - intros p Hp. inversion Hp.
  - intros k x i lv Hk Hlv. destruct k as [|k]; [|destruct k; discriminate].
    injection Hk as <-. rewrite lvl_at_snoc in Hlv. destruct (decide _); [|congruence].
    cbn [level] in Hlv. apply lookup_replicate in Hlv as [-> _]. reflexivity.
  - intros k x i lv Hk Hlv _. destruct k as [|k]; [|destruct k; discriminate].
    injection Hk as <-. rewrite lvl_at_snoc in Hlv. destruct (decide _); [|congruence].
    cbn [level] in Hlv. apply lookup_replicate in Hlv as [-> _]. reflexivity.
  - intros k x Hk. destruct k; discriminate.
  - reflexivity.
  - reflexivity.
Qed.

(** The byte-wise comparison is such a three-way comparison. *)
Lemma compareStringObjects_bytes_cons x a y b :
  compareStringObjects_bytes (x :: a) (y :: b)
  = if x =? y then compareStringObjects_bytes a b else x - y.
Proof.
  unfold compareStringObjects_bytes. cbn [memcmp List.length].
  destruct (Z.eqb_spec x y) as [->|Hne].
  - destruct (memcmp a b =? 0); lia.
  - destruct (Z.eqb_spec (x - y) 0); [lia|reflexivity].
Qed.

Lemma compareStringObjects_bytes_antisym a : forall b,
  Z.sgn (compareStringObjects_bytes a b) = - Z.sgn (compareStringObjects_bytes b a).
Proof.
  induction a as [|x a IH]; intros [|y b].
  - reflexivity.
  - unfold compareStringObjects_bytes. cbn [memcmp List.length Z.eqb].
    rewrite <- Z.sgn_opp. f_equal; lia.
  - unfold compareStringObjects_bytes. cbn [memcmp List.length Z.eqb].
    rewrite <- Z.sgn_opp. f_equal; lia.
  - rewrite !compareStringObjects_bytes_cons.
    destruct (Z.eqb_spec x y) as [->|Hne].
    + rewrite Z.eqb_refl. apply IH.
    + destruct (Z.eqb_spec y x); [congruence|]. rewrite <- Z.sgn_opp. f_equal; lia.
Qed.

Lemma compareStringObjects_bytes_trans a : forall b c,
  compareStringObjects_bytes a b <= 0 -> compareStringObjects_bytes b c <= 0 ->
  compareStringObjects_bytes a c <= 0.
Proof.
  induction a as [|x a IH]; intros b c.
  - intros _ _. unfold compareStringObjects_bytes. destruct c; cbn [memcmp List.length Z.eqb]; lia.
  - destruct b as [|y b].
    { unfold compareStringObjects_bytes at 1. cbn [memcmp List.length Z.eqb]. lia. }
    destruct c as [|z c].
    { intros _. unfold compareStringObjects_bytes at 1. cbn [memcmp List.length Z.eqb]. lia. }
    rewrite !compareStringObjects_bytes_cons.
    destruct (Z.eqb_spec x y), (Z.eqb_spec y z), (Z.eqb_spec x z); try lia.
    apply IH.
Qed.

Lemma compareStringObjects_bytes_eq a : forall b,
  compareStringObjects_bytes a b = 0 -> a = b.
Proof.
  induction a as [|x a IH]; intros [|y b].
  - reflexivity.
  - unfold compareStringObjects_bytes. cbn [memcmp List.length Z.eqb]. lia.
  - unfold compareStringObjects_bytes. cbn [memcmp List.length Z.eqb]. lia.
  - rewrite compareStringObjects_bytes_cons.
    destruct (Z.eqb_spec x y) as [->|Hne]; [|lia].
    intros H. f_equal. now apply IH.
Qed.

(** *** Insertion and deletion keep the order of the list *)

Lemma map_take_insert_at {A B} (f f' : A -> B) t x (l : list A) :
  (forall q, q ∈ l -> f' q = f q) ->
  map f' (insert_at t x l) = take t (map f l) ++ f' x :: drop t (map f l).
Proof.
  intros Hext. unfold insert_at. rewrite map_app. cbn [map].
  rewrite <- !fmap_take, <- !fmap_drop.
  change (@fmap list list_fmap) with (@map) in *.
  f_equal; [|f_equal].
  - apply map_ext_in. intros q Hq. apply Hext.
    apply list_elem_of_In in Hq. eapply elem_of_sublist; [exact Hq|apply sublist_take].
  - apply map_ext_in. intros q Hq. apply Hext.
    apply list_elem_of_In in Hq. eapply elem_of_sublist; [exact Hq|apply sublist_drop].
Qed.

Lemma map_delete {A B} (f : A -> B) k (l : list A) :
  map f (delete k l) = delete k (map f l).
Proof.
  revert k. induction l as [|a l IH]; intros [|k]; cbn; auto.
  f_equal. apply IH.
Qed.

Lemma delete_not_elem (ns : list nat) k x :
  NoDup ns -> ns !! k = Some x -> x ∉ delete k ns.
Proof.
  intros Hnd Hx Hin. apply list_elem_of_lookup_1 in Hin as [j Hj].
  destruct (Nat.lt_ge_cases j k).
  - rewrite list_lookup_delete_lt in Hj by lia.
    pose proof (NoDup_lookup _ _ _ _ Hnd Hj Hx). lia.
  - rewrite list_lookup_delete_ge in Hj by lia.
    pose proof (NoDup_lookup _ _ _ _ Hnd Hj Hx). lia.
Qed.

Lemma rep_fresh h zsl ns : zsl_rep h zsl ns -> List.length h ∉ ns.
Proof.
  intros R Hin. destruct (rep_nodes _ _ _ R _ Hin) as (o & sc & L & Hi & _).
  destruct (info_at_node _ _ _ _ _ Hi) as (n & Hn & _).
  apply node_at_lt in Hn. lia.
Qed.

Lemma pair_at_info h h' q :
  info_at h' q = info_at h q ->
  (score_at h' q, elem h' q) = (score_at h q, elem h q).
Proof. intros H. destruct (score_elem_info h h' q H) as [-> ->]. reflexivity. Qed.

(** [zslInsert] of a pair that differs from every pair of a list in order:
    the new node stands at the place of its pair. *)
Lemma zslInsert_rep_sorted cmp
  (cmp_antisym : forall a b, Z.sgn (cmp a b) = - Z.sgn (cmp b a))
  (cmp_trans : forall a b c, cmp a b <= 0 -> cmp b c <= 0 -> cmp a c <= 0)
  h zsl ns sc o draws lvl rest :
  zsl_rep h zsl ns -> key_sorted cmp h ns -> scores_ok h ns ->
  isnan sc = false -> Z.of_nat (List.length ns) + 1 < 2^32 ->
  (forall p, p ∈ ns ->
     before cmp (score_at h p) (elem h p) sc o = true \/
     before cmp sc o (score_at h p) (elem h p) = true) ->
  zslRandomLevel draws = inr (lvl, rest) ->
  exists h' zsl' t,
    zslInsert cmp h zsl sc o draws = inr (h', zsl', List.length h, rest) /\
    threshold h ns (key_pb cmp sc o) t /\
    zsl_rep h' zsl' (insert_at t (List.length h) ns) /\
    key_sorted cmp h' (insert_at t (List.length h) ns) /\
    scores_ok h' (insert_at t (List.length h) ns) /\
    score_at h' (List.length h) = sc /\ elem h' (List.length h) = o /\
    (forall q, q <> List.length h -> info_at h' q = info_at h q).
Proof.
  intros R Hsorted Hscores Hnan Hsmall Hstrict Hrand.
  destruct (zslInsert_spec cmp cmp_antisym cmp_trans h zsl ns R Hsorted Hscores sc o
              Hnan Hsmall draws lvl rest Hrand)
    as (h' & zsl' & t & Hrun & Hthr & R' & Hix & Hinfo & _).
  destruct (insert_sorted cmp h zsl ns R Hsorted Hscores sc o Hnan h' t
              (List.length h) (Z.to_nat lvl) Hthr Hstrict Hix Hinfo
              (rep_fresh h zsl ns R)) as [Hs' Hsc'].
  exists h', zsl', t. split; [exact Hrun|]. split; [exact Hthr|]. split; [exact R'|].
  split; [exact Hs'|]. split; [exact Hsc'|].
  destruct (info_at_node _ _ _ _ _ Hix) as (n & Hn & Ho & Hs & _).
  unfold score_at, elem. rewrite Hn, Ho, Hs. auto.
Qed.

(** X9 — ordered insertion.  On a skip list whose pairs are in order,
    [zslInsert] of a pair (score not NaN) that differs from every stored
    pair returns; the result is again a well-formed list in order, one node
    longer, and its pairs are the old ones with the new pair at its place:
    every pair in front of it stands before it and every pair behind it
    stands after it. *)
Theorem zslInsert_sorted_insertion cmp h zsl ns sc o draws lvl rest :
  (forall a b, Z.sgn (cmp a b) = - Z.sgn (cmp b a)) ->
  (forall a b c, cmp a b <= 0 -> cmp b c <= 0 -> cmp a c <= 0) ->
  zsl_rep h zsl ns -> key_sorted cmp h ns -> scores_ok h ns ->
  isnan sc = false -> Z.of_nat (List.length ns) + 1 < 2^32 ->
  (forall pr, pr ∈ zsl_pairs h zsl ->
     before cmp (fst pr) (snd pr) sc o = true \/
     before cmp sc o (fst pr) (snd pr) = true) ->
  zslRandomLevel draws = inr (lvl, rest) ->
  exists h' zsl' x ns' t,
    zslInsert cmp h zsl sc o draws = inr (h', zsl', x, rest) /\
    zsl_rep h' zsl' ns' /\ key_sorted cmp h' ns' /\ scores_ok h' ns' /\
    length zsl' = length zsl + 1 /\
    zsl_pairs h' zsl'
    = take t (zsl_pairs h zsl) ++ (sc, o) :: drop t (zsl_pairs h zsl) /\
    (forall pr, pr ∈ take t (zsl_pairs h zsl) ->
       before cmp (fst pr) (snd pr) sc o = true) /\
    (forall pr, pr ∈ drop t (zsl_pairs h zsl) ->
       before cmp sc o (fst pr) (snd pr) = true).
Proof.
  intros cmp_antisym cmp_trans R Hsorted Hscores Hnan Hsmall Hstrict Hrand.
  pose proof (zsl_pairs_rep h zsl ns R) as Hpairs.
  assert (Hstrict' : forall p, p ∈ ns ->
            before cmp (score_at h p) (elem h p) sc o = true \/
            before cmp sc o (score_at h p) (elem h p) = true).
  { intros p Hp. apply (Hstrict (score_at h p, elem h p)).
    rewrite Hpairs. apply list_elem_of_In.
    apply (in_map (fun p => (score_at h p, elem h p))). apply list_elem_of_In, Hp. }
  destruct (zslInsert_rep_sorted cmp cmp_antisym cmp_trans h zsl ns sc o draws lvl rest
              R Hsorted Hscores Hnan Hsmall Hstrict' Hrand)
    as (h' & zsl' & t & Hrun & [Ht Hthr] & R' & Hs' & Hsc' & Hxs & Hxe & Hinfo).
  exists h', zsl', (List.length h), (insert_at t (List.length h) ns), t.
  split; [exact Hrun|]. split; [exact R'|]. split; [exact Hs'|]. split; [exact Hsc'|].
  split.
  { rewrite (rep_length _ _ _ R'), (rep_length _ _ _ R), length_insert_at. lia. }
  assert (Hnew : zsl_pairs h' zsl'
                 = take t (zsl_pairs h zsl) ++ (sc, o) :: drop t (zsl_pairs h zsl)).
  { rewrite (zsl_pairs_rep h' zsl' _ R'), Hpairs.
    rewrite (map_take_insert_at (fun p => (score_at h p, elem h p))
               (fun p => (score_at h' p, elem h' p))).
    - now rewrite Hxs, Hxe.
    - intros q Hq. apply pair_at_info, Hinfo. intros ->.
      now apply (rep_fresh h zsl ns R). }
  split; [exact Hnew|].
  rewrite Hpairs. split.
  - intros pr Hpr. apply list_elem_of_lookup_1 in Hpr as [j Hj].
    rewrite lookup_take_Some in Hj. destruct Hj as [Hj Hjt].
    rewrite list_lookup_fmap in Hj.
    destruct (ns !! j) as [p|] eqn:Hp; [|discriminate]. injection Hj as <-.
    cbn [fst snd].
    rewrite <- (key_pb_node cmp h zsl ns R sc o p) by (eapply list_elem_of_lookup_2, Hp).
    rewrite (Hthr _ _ Hp). now apply Nat.ltb_lt.
  - intros pr Hpr. apply list_elem_of_lookup_1 in Hpr as [j Hj].
    rewrite lookup_drop, list_lookup_fmap in Hj.
    destruct (ns !! (t + j)%nat) as [p|] eqn:Hp; [|discriminate]. injection Hj as <-.
    cbn [fst snd].
    pose proof (list_elem_of_lookup_2 _ _ _ Hp) as Hpin.
    destruct (Hstrict' p Hpin) as [Hb|Hb]; [|exact Hb].
    rewrite <- (key_pb_node cmp h zsl ns R sc o p Hpin), (Hthr _ _ Hp) in Hb.
    apply Nat.ltb_lt in Hb. lia.
Qed.

(** X10 — deletion of a stored pair.  On a skip list whose pairs are in
    order, [zslDelete] called with the pair of the node at place [k] returns
    1; the result is a well-formed list in order, one node shorter, whose
    pairs are the old ones without the pair at place [k]; no other node is
    touched. *)
Theorem zslDelete_removes_stored_pair cmp h zsl ns k x :
  (forall a b, Z.sgn (cmp a b) = - Z.sgn (cmp b a)) ->
  (forall a b c, cmp a b <= 0 -> cmp b c <= 0 -> cmp a c <= 0) ->
  zsl_rep h zsl ns -> key_sorted cmp h ns -> scores_ok h ns ->
  Z.of_nat (List.length ns) < 2^32 ->
  ns !! k = Some x ->
  exists h' zsl',
    zslDelete cmp h zsl (score_at h x) (elem h x) = inr (h', zsl', 1) /\
    zsl_rep h' zsl' (delete k ns) /\
    key_sorted cmp h' (delete k ns) /\ scores_ok h' (delete k ns) /\
    length zsl' = length zsl - 1 /\
    zsl_pairs h' zsl' = delete k (zsl_pairs h zsl) /\
    (forall q, q <> x -> info_at h' q = info_at h q).
Proof.
  intros cmp_antisym cmp_trans R Hsorted Hscores Hsmall Hx.
  destruct (zslDelete_spec cmp cmp_antisym cmp_trans h zsl ns R Hsorted Hscores Hsmall k x Hx)
    as (h' & zsl' & Hrun & R' & Hinfo & _ & Hhd).
  pose proof (rep_nodup _ _ _ R) as Hnd.
  assert (Hnd' : NoDup ns) by (now apply NoDup_cons in Hnd).
  destruct (sorted_delete cmp h h' ns k x Hnd' Hx Hsorted Hscores Hinfo) as [Hs' Hsc'].
  exists h', zsl'. split; [exact Hrun|]. split; [exact R'|]. split; [exact Hs'|].
  split; [exact Hsc'|].
  assert (Hkl : (k < List.length ns)%nat) by (now apply lookup_lt_Some in Hx).
  split.
  { rewrite (rep_length _ _ _ R'), (rep_length _ _ _ R), length_delete by eauto. lia. }
  split.
  { rewrite (zsl_pairs_rep h' zsl' _ R'), (zsl_pairs_rep h zsl ns R), <- map_delete.
    apply map_ext_in. intros q Hq. apply pair_at_info, Hinfo. intros ->.
    apply list_elem_of_In in Hq.
    exact (delete_not_elem ns k x Hnd' Hx Hq). }
  exact Hinfo.
Qed.

(** X11 — deletion of a pair that is not stored.  When no stored pair has
    both a score equal to the argument's and an element equal to the
    argument's, [zslDelete] returns 0 and leaves the heap and the list as
    they are. *)
Theorem zslDelete_absent_pair cmp h zsl ns sc o :
  zsl_rep h zsl ns ->
  (forall pr, pr ∈ zsl_pairs h zsl ->
     deq sc (fst pr) && equalStringObjects cmp (snd pr) o = false) ->
  zslDelete cmp h zsl sc o = inr (h, zsl, 0).
Proof.
  intros R Habs. pose proof (rep_shape _ _ _ R) as Hshape.
  destruct (update_search_places h zsl ns (key_before cmp sc o) (key_pb cmp sc o) Hshape)
    as (k & x' & update & Hs & Hk & _); [apply key_before_pb|].
  unfold zslDelete. rewrite Hs. cbn [bind].
  rewrite (shape_next0 h zsl ns Hshape k x' Hk). cbn [bind].
  destruct (ns !! k) as [y|] eqn:Hy; [|reflexivity].
  pose proof (list_elem_of_lookup_2 _ _ _ Hy) as Hyin.
  destruct (rep_nodes _ _ _ R y Hyin) as (oy & sy & Ly & Hiy & _).
  destruct (info_at_node _ _ _ _ _ Hiy) as (yn & Hyn & Hoy & Hsy & _).
  rewrite (deref_node_at _ _ _ Hyn). cbn [bind]. unfold node_obj. rewrite Hoy.
  cbn [bind ret]. rewrite Hsy.
  assert (Hpr : (sy, oy) ∈ zsl_pairs h zsl).
  { rewrite (zsl_pairs_rep h zsl ns R). apply list_elem_of_In.
    replace (sy, oy) with ((fun p => (score_at h p, elem h p)) y).
    - apply (in_map (fun p => (score_at h p, elem h p))), list_elem_of_In, Hyin.
    - unfold score_at, elem. now rewrite Hyn, Hoy, Hsy. }
  pose proof (Habs _ Hpr) as Hne. cbn [fst snd] in Hne. now rewrite Hne.
Qed.

(** The walk of [zslGetElementByRank] and [zslDeleteRangeByRank] depends on
    its test pointwise only. *)
Lemma walk_rank_ext h (c c' : Z -> bool) :
  (forall r, c r = c' r) ->
  forall fuel x i tr, walk_rank fuel h c x i tr = walk_rank fuel h c' x i tr.
Proof.
  intros Hc. induction fuel as [|fuel IH]; intros x i tr; rewrite !walk_rank_unfold;
    destruct (deref h x) as [e|xn]; cbn [bind]; try reflexivity;
    destruct (get_level xn i) as [e|lv]; cbn [bind]; try reflexivity;
    destruct (forward lv) as [f|]; try reflexivity;
    rewrite (Hc (u64 (tr + span lv))); destruct (c' _); try reflexivity.
  apply IH.
Qed.

Lemma element_search_spec h zsl ns rank t :
  zsl_rep h zsl ns -> Z.of_nat (List.length ns) < 2^32 ->
  0 <= rank -> t = Z.to_nat (Z.min rank (Z.of_nat (List.length ns))) ->
  forall n k x,
    Z.of_nat n <= zsl_level zsl ->
    (header zsl :: ns) !! k = Some x -> (n <= height h x)%nat -> (k <= t)%nat ->
    (n = 0%nat -> k = t /\ Z.of_nat k <> rank) ->
    element_search n h rank x (Z.of_nat k) = inr ((header zsl :: ns) !! Z.to_nat rank).
Proof.
  intros R Hsmall Hrank Ht. pose proof (rep_level _ _ _ R) as HL.
  pose proof (rep_shape _ _ _ R) as Hshape.
  assert (Htl : (t <= List.length ns)%nat) by lia.
  assert (Hcond : forall j : nat, (1 <= j <= List.length ns)%nat ->
            (Z.of_nat j <? rank + 1) = (j <=? t)%nat).
  { intros j Hj. destruct (Z.ltb_spec (Z.of_nat j) (rank + 1)), (Nat.leb_spec j t);
      try reflexivity; lia. }
  induction n as [|n IH]; intros k x HnL Hk Hh Hkt Hfin.
  - destruct (Hfin eq_refl) as [-> Hne]. cbn [element_search]. unfold ret. f_equal.
    symmetry. apply lookup_ge_None. cbn [List.length]. lia.
  - cbn [element_search].
    rewrite (walk_rank_ext h (fun t0 => t0 <=? rank) (fun r => r <? rank + 1))
      by (intros r; destruct (Z.leb_spec r rank), (Z.ltb_spec r (rank + 1));
          try reflexivity; lia).
    destruct (walk_rank_below h zsl ns (rank + 1) t R Hsmall Htl Hcond
                (List.length h) k x n Hk)
      as (k1 & x1 & Hw & Hle & Hpl); [lia|lia|exact Hkt| |].
    { pose proof (shape_length_le h zsl ns Hshape). lia. }
    rewrite Hw. cbn [bind].
    destruct Hpl as (Hk1 & _ & Hh1 & Hgap).
    destruct (Z.eqb_spec (Z.of_nat k1) rank) as [Heq|Hne].
    + unfold ret. f_equal. rewrite <- Heq, Nat2Z.id. symmetry. exact Hk1.
    + apply IH; [lia|exact Hk1|lia|lia|].
      intros ->. split; [|exact Hne].
      destruct (Nat.eq_dec k1 t) as [|Hnt]; [assumption|exfalso].
      destruct (lookup_lt_is_Some_2 ns k1) as [y Hy]; [lia|].
      pose proof (Hgap (S k1) y ltac:(lia) Hy) as Hy0.
      pose proof (shape_height_pos h zsl ns Hshape y (list_elem_of_lookup_2 _ _ _ Hy)).
      lia.
Qed.

(** X12 — node by rank.  On a well-formed skip list [zslGetElementByRank]
    returns for every rank: the node at that 1-based rank when the rank is
    between 1 and the length, NULL when the rank is beyond the length, and,
    for rank 0, the header node. *)
Theorem zslGetElementByRank_nth h zsl ns rank :
  zsl_rep h zsl ns -> Z.of_nat (List.length ns) < 2^32 -> 0 <= rank ->
  zslGetElementByRank h zsl rank
  = inr (if rank =? 0 then Some (header zsl) else ns !! (Z.to_nat rank - 1)%nat).
Proof.
  intros R Hsmall Hrank. pose proof (rep_level _ _ _ R) as HL.
  unfold zslGetElementByRank.
  pose proof (element_search_spec h zsl ns rank _ R Hsmall Hrank eq_refl
                (Z.to_nat (zsl_level zsl)) 0%nat (header zsl)) as He.
  change (Z.of_nat 0) with 0 in He. rewrite He.
  - f_equal. destruct (Z.eqb_spec rank 0) as [->|Hne]; [reflexivity|].
    destruct (Z.to_nat rank) as [|r] eqn:E; [lia|].
    cbn [lookup list_lookup]. f_equal. lia.
  - lia.
  - reflexivity.
  - rewrite (rep_header_height h zsl ns R). unfold ZSKIPLIST_MAXLEVEL in *. lia.
  - lia.
  - lia.
Qed.

(** The test of [zslGetRank]: the node's pair stands before the argument or
    is equal to it. *)
Definition key_pb_eq (cmp : list Z -> list Z -> Z) (sc : spec_float) (o : list Z)
  (n : zskiplistNode) : bool :=
  dlt (score n) sc || (deq (score n) sc && (cmp (default [] (obj n)) o <=? 0)).

Lemma key_before_eq_pb cmp sc o n :
  is_Some (obj n) -> key_before_eq cmp sc o n = inr (key_pb_eq cmp sc o n).
Proof. intros [fo Ho]. unfold key_before_eq, node_obj, key_pb_eq. rewrite Ho. reflexivity. Qed.

(** The search for the pair of the node at the index [k0] runs up to that
    node. *)
Lemma own_threshold_eq cmp
  (cmp_antisym : forall a b, Z.sgn (cmp a b) = - Z.sgn (cmp b a))
  (cmp_trans : forall a b c, cmp a b <= 0 -> cmp b c <= 0 -> cmp a c <= 0)
  h zsl ns k0 x :
  zsl_rep h zsl ns -> key_sorted cmp h ns -> scores_ok h ns ->
  ns !! k0 = Some x ->
  threshold h ns (key_pb_eq cmp (score_at h x) (elem h x)) (S k0).
Proof.
  intros R Hsorted Hscores Hx. split; [apply lookup_lt_Some in Hx; lia|].
  pose proof (list_elem_of_lookup_2 _ _ _ Hx) as Hxin.
  intros j p Hp. pose proof (list_elem_of_lookup_2 _ _ _ Hp) as Hpin.
  assert (Hpb : pbp h (key_pb_eq cmp (score_at h x) (elem h x)) p
                = (dlt (score_at h p) (score_at h x)
                   || (deq (score_at h p) (score_at h x)
                       && (cmp (elem h p) (elem h x) <=? 0)))).
  { destruct (rep_nodes _ _ _ R p Hpin) as (o' & s' & L & Hi & _).
    destruct (info_at_node _ _ _ _ _ Hi) as (n & Hn & Ho & Hs & _).
    unfold pbp, key_pb_eq, score_at, elem. rewrite Hn. reflexivity. }
  rewrite Hpb.
  pose proof (Hscores x Hxin) as Nx. pose proof (Hscores p Hpin) as Np.
  destruct (Nat.lt_trichotomy j k0) as [Hlt|[->|Hgt]].
  - pose proof (Hsorted j k0 p x Hlt Hp Hx) as Hb. unfold before in Hb.
    transitivity true; [|symmetry; apply Nat.ltb_lt; lia].
    apply orb_true_iff in Hb as [Hb|Hb]; [now rewrite Hb|].
    apply andb_true_iff in Hb as [Hb1 Hb2]. rewrite Hb1. apply Z.ltb_lt in Hb2.
    destruct (Z.leb_spec (cmp (elem h p) (elem h x)) 0); [|lia].
    now rewrite orb_true_r.
  - rewrite Hp in Hx. injection Hx as ->. rewrite (deq_refl _ Nx).
    pose proof (sgn_flip _ _ (cmp_antisym (elem h x) (elem h x))).
    destruct (Z.leb_spec (cmp (elem h x) (elem h x)) 0); [|lia].
    rewrite orb_true_r. symmetry. apply Nat.ltb_lt. lia.
  - pose proof (Hsorted k0 j x p Hgt Hx Hp) as Hb.
    transitivity false; [|symmetry; apply Nat.ltb_ge; lia].
    unfold before in Hb.
    destruct (compare_order_key (score_at h x) (score_at h p) Nx Np) as [L1 E1].
    destruct (compare_order_key (score_at h p) (score_at h x) Np Nx) as [L2 E2].
    apply orb_false_iff. split.
    + destruct (dlt (score_at h p) (score_at h x)) eqn:D0; [|reflexivity]. exfalso.
      pose proof (proj1 L2 eq_refl) as D.
      apply orb_true_iff in Hb as [Hb|Hb].
      * apply L1 in Hb. unfold key_lt in *. lia.
      * apply andb_true_iff in Hb as [Hb _]. apply E1 in Hb.
        unfold key_lt, key_eq in *. lia.
    + apply andb_false_iff.
      destruct (deq (score_at h p) (score_at h x)) eqn:D0; [right|now left].
      pose proof (proj1 E2 eq_refl) as D.
      apply orb_true_iff in Hb as [Hb|Hb].
      * apply L1 in Hb. unfold key_lt, key_eq in *. lia.
      * apply andb_true_iff in Hb as [_ Hb]. apply Z.ltb_lt in Hb.
        pose proof (sgn_flip _ _ (cmp_antisym (elem h x) (elem h p))).
        apply Z.leb_gt. lia.
Qed.

Lemma rank_search_spec cmp h zsl ns k0 x :
  (forall a b, Z.sgn (cmp a b) = - Z.sgn (cmp b a)) ->
  zsl_rep h zsl ns -> Z.of_nat (List.length ns) < 2^32 ->
  threshold h ns (key_pb_eq cmp (score_at h x) (elem h x)) (S k0) ->
  ns !! k0 = Some x ->
  (forall j p, (j < k0)%nat -> ns !! j = Some p ->
     equalStringObjects cmp (elem h p) (elem h x) = false) ->
  forall n k y,
    (1 <= n)%nat -> Z.of_nat n <= zsl_level zsl ->
    (header zsl :: ns) !! k = Some y -> (n <= height h y)%nat -> (k <= S k0)%nat ->
    rank_search cmp n h (score_at h x) (elem h x) y (Z.of_nat k)
    = inr (Z.of_nat (S k0)).
Proof.
  intros cmp_antisym R Hsmall Hthr Hx Hdist.
  pose proof (rep_shape _ _ _ R) as Hshape.
  pose proof (list_elem_of_lookup_2 _ _ _ Hx) as Hxin.
  induction n as [|n IH]; intros k y Hn1 HnL Hk Hh Hkt; [lia|].
  cbn [rank_search].
  destruct (walk_threshold h zsl ns Hshape
              (key_before_eq cmp (score_at h x) (elem h x))
              (key_pb_eq cmp (score_at h x) (elem h x))
              (key_before_eq_pb cmp _ _) (S k0) k y n (Z.of_nat k) Hthr Hkt Hk)
    as (k1 & y1 & acc1 & Hw & Hle & Hk1 & Hh1 & Hgap & Hacc); [lia|].
  rewrite Hw. cbn [bind].
  rewrite (Hacc (rep_spans h zsl ns n R ltac:(lia))).
  assert (Hu : u64 (Z.of_nat k + Z.of_nat (k1 - k)) = Z.of_nat k1).
  { unfold u64. rewrite Z.mod_small; [lia|].
    apply lookup_lt_Some in Hx. lia. }
  rewrite Hu.
  destruct (Nat.eq_dec k1 (S k0)) as [->|Hne].
  - (* on the node itself *)
    assert (y1 = x) as -> by (change (ns !! k0 = Some y1) in Hk1; congruence).
    destruct (rep_nodes _ _ _ R x Hxin) as (ox & sx & Lx & Hix & _).
    destruct (info_at_node _ _ _ _ _ Hix) as (xn & Hxn & Hox & _).
    rewrite (deref_node_at _ _ _ Hxn). cbn [bind]. rewrite Hox.
    assert (Hel : elem h x = ox) by (unfold elem; now rewrite Hxn, Hox).
    rewrite Hel. unfold equalStringObjects.
    pose proof (sgn_flip _ _ (cmp_antisym ox ox)).
    destruct (Z.eqb_spec (cmp ox ox) 0); [reflexivity|lia].
  - (* in front of it: the header, or a node that holds another element *)
    assert (Hn0 : (1 <= n)%nat).
    { destruct n as [|n]; [exfalso|lia].
      pose proof (Hgap (S k0) x ltac:(lia) Hx) as H0.
      pose proof (shape_height_pos h zsl ns Hshape x Hxin). lia. }
    assert (Hrec : rank_search cmp n h (score_at h x) (elem h x) y1 (Z.of_nat k1)
                   = inr (Z.of_nat (S k0))) by (apply IH; [lia|lia|exact Hk1|lia|lia]).
    destruct k1 as [|j].
    + injection Hk1 as <-.
      destruct (rep_header _ _ _ R) as (sh & Hih).
      destruct (info_at_node _ _ _ _ _ Hih) as (hn & Hhn & Hoh & _).
      rewrite (deref_node_at _ _ _ Hhn). cbn [bind]. rewrite Hoh. exact Hrec.
    + assert (Hj : ns !! j = Some y1) by exact Hk1.
      pose proof (list_elem_of_lookup_2 _ _ _ Hj) as Hjin.
      destruct (rep_nodes _ _ _ R y1 Hjin) as (oy & sy & Ly & Hiy & _).
      destruct (info_at_node _ _ _ _ _ Hiy) as (yn & Hyn & Hoy & _).
      rewrite (deref_node_at _ _ _ Hyn). cbn [bind]. rewrite Hoy.
      assert (Hel : elem h y1 = oy) by (unfold elem; now rewrite Hyn, Hoy).
      rewrite <- Hel, (Hdist j y1 ltac:(lia) Hj). exact Hrec.
Qed.

(** X13 — rank of a stored pair.  On a skip list whose pairs are in order,
    [zslGetRank] called with the pair of the node at place [k] (0-based)
    returns its 1-based rank [k + 1], provided that no node in front of it
    holds an equal element; and [zslGetElementByRank] of that rank is the
    node again. *)
Theorem zslGetRank_of_stored_pair cmp h zsl ns k x :
  (forall a b, Z.sgn (cmp a b) = - Z.sgn (cmp b a)) ->
  (forall a b c, cmp a b <= 0 -> cmp b c <= 0 -> cmp a c <= 0) ->
  zsl_rep h zsl ns -> key_sorted cmp h ns -> scores_ok h ns ->
  Z.of_nat (List.length ns) < 2^32 ->
  ns !! k = Some x ->
  (forall j p, (j < k)%nat -> ns !! j = Some p ->
     equalStringObjects cmp (elem h p) (elem h x) = false) ->
  zslGetRank cmp h zsl (score_at h x) (elem h x) = inr (Z.of_nat k + 1) /\
  zslGetElementByRank h zsl (Z.of_nat k + 1) = inr (Some x).
Proof.
  intros cmp_antisym cmp_trans R Hsorted Hscores Hsmall Hx Hdist.
  pose proof (rep_level _ _ _ R) as HL. split.
  - unfold zslGetRank.
    pose proof (rank_search_spec cmp h zsl ns k x cmp_antisym R Hsmall
                  (own_threshold_eq cmp cmp_antisym cmp_trans h zsl ns k x R Hsorted Hscores Hx)
                  Hx Hdist (Z.to_nat (zsl_level zsl)) 0%nat (header zsl)) as He.
    change (Z.of_nat 0) with 0 in He. rewrite He.
    + f_equal. lia.
    + lia.
    + lia.
    + reflexivity.
    + rewrite (rep_header_height h zsl ns R). unfold ZSKIPLIST_MAXLEVEL in *. lia.
    + lia.
  - unfold zslGetElementByRank.
    pose proof (element_search_spec h zsl ns (Z.of_nat k + 1) _ R Hsmall ltac:(lia) eq_refl
                  (Z.to_nat (zsl_level zsl)) 0%nat (header zsl)) as He.
    change (Z.of_nat 0) with 0 in He. rewrite He.
    + f_equal. replace (Z.to_nat (Z.of_nat k + 1)) with (S k) by lia. exact Hx.
    + lia.
    + reflexivity.
    + rewrite (rep_header_height h zsl ns R). unfold ZSKIPLIST_MAXLEVEL in *. lia.
    + lia.
    + lia.
Qed.

(** The contents of the two shared sentinel objects, "minstring" and
    "maxstring" (redis.c, which sets them up, is not among the sources). *)
Definition shared_minstring : list Z := [109; 105; 110; 115; 116; 114; 105; 110; 103].
Definition shared_maxstring : list Z := [109; 97; 120; 115; 116; 114; 105; 110; 103].

(** The list of [zslInsert(zsl, 0, "a")] and [zslInsert(zsl, 0, "b")] on the
    list of [zslCreate()]; the levels drawn are 1 and 2. *)
Definition ab_list : list (option zskiplistNode) * zskiplist :=
  Eval vm_compute in
  match
    (r <- zslInsert compareStringObjects_bytes (fst (zslCreate [])) (snd (zslCreate []))
            (of_Z 0) [97] [65535; 0; 65535];;
     r' <- zslInsert compareStringObjects_bytes (fst (fst (fst r))) (snd (fst (fst r)))
             (of_Z 0) [98] (snd r);;
     ret (fst (fst r')))
  with
  | inr hz => hz
  | inl _ => ([], mk_zsl O None 0 1)
  end.

Lemma ab_list_shape : zsl_shape (fst ab_list) (snd ab_list) [1%nat; 2%nat].
Proof.
  split.
  - apply (bool_decide_unpack _). vm_compute. exact I.
  - vm_compute. split; discriminate.
  - eexists. split; [vm_compute; reflexivity|]. split; reflexivity.
  - intros p Hp. apply elem_of_cons in Hp as [->|Hp]; [|apply elem_of_cons in Hp as [->|Hp]].
    + eexists. split; [vm_compute; reflexivity|]. split; [eexists; reflexivity|].
      vm_compute. split; lia.
    + eexists. split; [vm_compute; reflexivity|]. split; [eexists; reflexivity|].
      vm_compute. split; lia.
    + inversion Hp.
  - intros k x n i lv Hk Hn Hlv.
    do 3 (destruct k as [|k];
          [vm_compute in Hk; injection Hk as <-; vm_compute in Hn; injection Hn as <-;
           repeat (destruct i as [|i];
                   [vm_compute in Hlv; injection Hlv as <-; vm_compute; reflexivity|]);
           vm_compute in Hlv; discriminate|]).
    discriminate.
  - reflexivity.
Qed.

Lemma ab_list_sorted : lex_sorted compareStringObjects_bytes (fst ab_list) [1%nat; 2%nat].
Proof.
  intros j1 j2 p q Hlt Hp Hq.
  destruct j1 as [|[|j1]], j2 as [|[|j2]]; try lia; try discriminate.
  injection Hp as <-. injection Hq as <-. vm_compute. discriminate.
Qed.

(** The range ["b", +inf) on the list that holds "a" and "b": the node of
    "b". *)
Lemma zslFirstInLexRange_first_witness :
  zslFirstInLexRange compareStringObjects_bytes shared_minstring shared_maxstring
    (fst ab_list) (snd ab_list) (mk_lexrange (Lexstr [98]) Maxstring false false)
  = inr (Some 2%nat).
Proof.
  apply (zslFirstInLexRange_first compareStringObjects_bytes
           shared_minstring shared_maxstring
           compareStringObjects_bytes_antisym compareStringObjects_bytes_trans
           (fst ab_list) (snd ab_list) [1%nat; 2%nat]
           (mk_lexrange (Lexstr [98]) Maxstring false false)
           ab_list_shape ab_list_sorted).
  intros _ H. discriminate H.
Defined.

(** C5 as stated, for every skip list: the list that holds (1.0, "b") and
    (2.0, "a"), in the order of the scores, and the range ["a", "a"]. The
    element "a" lies in the range, and [zslFirstInLexRange] returns NULL:
    [zslIsInLexRange] compares the first element, "b", with max. *)
Lemma zslFirstInLexRange_mixed_scores :
  exists h1 z1 x1 d1 h2 z2 x2 d2,
    zslInsert compareStringObjects_bytes (fst (zslCreate [])) (snd (zslCreate []))
      (of_Z 1) [98] [65535; 65535] = inr (h1, z1, x1, d1) /\
    zslInsert compareStringObjects_bytes h1 z1 (of_Z 2) [97] d1 = inr (h2, z2, x2, d2) /\
    zsl_pairs h2 z2 = [(of_Z 1, [98]); (of_Z 2, [97])] /\
    in_lex_range compareStringObjects_bytes shared_minstring shared_maxstring
      (mk_lexrange (Lexstr [97]) (Lexstr [97]) false false) [97] = true /\
    zslFirstInLexRange compareStringObjects_bytes shared_minstring shared_maxstring
      h2 z2 (mk_lexrange (Lexstr [97]) (Lexstr [97]) false false) = inr None.
Proof.
  do 8 eexists.
  split; [vm_compute; reflexivity|].
  split; [vm_compute; reflexivity|].
  split; [vm_compute; reflexivity|].
  split; vm_compute; reflexivity.
Qed.

(** *** A list of three pairs *)

(** [zslInsert] of a pair that stands behind every pair of the list appends
    its node. *)
Lemma zslInsert_append cmp h zsl ns sc o draws lvl rest :
  (forall a b, Z.sgn (cmp a b) = - Z.sgn (cmp b a)) ->
  (forall a b c, cmp a b <= 0 -> cmp b c <= 0 -> cmp a c <= 0) ->
  zsl_rep h zsl ns -> key_sorted cmp h ns -> scores_ok h ns ->
  isnan sc = false -> Z.of_nat (List.length ns) + 1 < 2^32 ->
  (forall p, p ∈ ns -> before cmp (score_at h p) (elem h p) sc o = true) ->
  zslRandomLevel draws = inr (lvl, rest) ->
  exists h' zsl',
    zslInsert cmp h zsl sc o draws = inr (h', zsl', List.length h, rest) /\
    zsl_rep h' zsl' (ns ++ [List.length h]) /\
    key_sorted cmp h' (ns ++ [List.length h]) /\
    scores_ok h' (ns ++ [List.length h]).
Proof.
  intros cmp_antisym cmp_trans R Hsorted Hscores Hnan Hsmall Hbefore Hrand.
  destruct (zslInsert_rep_sorted cmp cmp_antisym cmp_trans h zsl ns sc o draws lvl rest
              R Hsorted Hscores Hnan Hsmall ltac:(intros p Hp; left; now apply Hbefore) Hrand)
    as (h' & zsl' & t & Hrun & [Ht Hthr] & R' & Hs' & Hsc' & _).
  assert (t = List.length ns) as ->.
  { destruct (Nat.eq_dec t (List.length ns)) as [|Hne]; [assumption|exfalso].
    destruct (lookup_lt_is_Some_2 ns t) as [p Hp]; [lia|].
    pose proof (list_elem_of_lookup_2 _ _ _ Hp) as Hpin.
    pose proof (Hthr _ _ Hp) as Hpb.
    rewrite (key_pb_node cmp h zsl ns R sc o p Hpin), (Hbefore p Hpin), Nat.ltb_irrefl in Hpb.
    discriminate. }
  unfold insert_at in *. rewrite take_ge, drop_ge in * by lia.
  exists h', zsl'. auto.
Qed.

Lemma key_sorted_nil cmp h : key_sorted cmp h [].
Proof. intros j1 j2 p q _ Hp. destruct j1; discriminate. Qed.

Lemma scores_ok_nil h : scores_ok h [].
Proof. intros p Hp. inversion Hp. Qed.

(** The list of [zslInsert(zsl, 1, "a")], [zslInsert(zsl, 2, "b")] and
    [zslInsert(zsl, 3, "c")] on the list of [zslCreate()]; the levels drawn
    are 1, 2 and 1. *)
Definition abc_list : list (option zskiplistNode) * zskiplist :=
  Eval vm_compute in
  match
    (r <- zslInsert compareStringObjects_bytes (fst (zslCreate [])) (snd (zslCreate []))
            (of_Z 1) [97] [65535; 0; 65535; 65535];;
     r <- zslInsert compareStringObjects_bytes (fst (fst (fst r))) (snd (fst (fst r)))
            (of_Z 2) [98] (snd r);;
     r <- zslInsert compareStringObjects_bytes (fst (fst (fst r))) (snd (fst (fst r)))
            (of_Z 3) [99] (snd r);;
     ret (fst (fst r)))
  with
  | inr hz => hz
  | inl _ => ([], mk_zsl O None 0 1)
  end.

Lemma abc_list_rep :
  zsl_rep (fst abc_list) (snd abc_list) [1%nat; 2%nat; 3%nat]
  /\ key_sorted compareStringObjects_bytes (fst abc_list) [1%nat; 2%nat; 3%nat]
  /\ scores_ok (fst abc_list) [1%nat; 2%nat; 3%nat].
Proof.
  destruct (zslInsert_append compareStringObjects_bytes
              (fst (zslCreate [])) (snd (zslCreate [])) [] (of_Z 1) [97]
              [65535; 0; 65535; 65535] 1 [0; 65535; 65535]
              compareStringObjects_bytes_antisym compareStringObjects_bytes_trans
              (zslCreate_rep []) (key_sorted_nil _ _) (scores_ok_nil _))
    as (h1 & z1 & Hrun1 & R1 & S1 & N1);
    [reflexivity|vm_compute; reflexivity|intros p Hp; inversion Hp|vm_compute; reflexivity|].
  vm_compute in Hrun1. injection Hrun1 as <- <-.
  match type of R1 with zsl_rep ?h ?z _ =>
    destruct (zslInsert_append compareStringObjects_bytes h z [1%nat] (of_Z 2) [98]
                [0; 65535; 65535] 2 [65535]
                compareStringObjects_bytes_antisym compareStringObjects_bytes_trans
                R1 S1 N1)
      as (h2 & z2 & Hrun2 & R2 & S2 & N2)
  end;
    [reflexivity|vm_compute; reflexivity| |vm_compute; reflexivity|].
  { intros p Hp. apply list_elem_of_singleton in Hp. subst p. vm_compute. reflexivity. }
  vm_compute in Hrun2. injection Hrun2 as <- <-.
  match type of R2 with zsl_rep ?h ?z _ =>
    destruct (zslInsert_append compareStringObjects_bytes h z [1%nat; 2%nat] (of_Z 3) [99]
                [65535] 1 []
                compareStringObjects_bytes_antisym compareStringObjects_bytes_trans
                R2 S2 N2)
      as (h3 & z3 & Hrun3 & R3 & S3 & N3)
  end;
    [reflexivity|vm_compute; reflexivity| |vm_compute; reflexivity|].
  { intros p Hp. apply elem_of_cons in Hp as [->|Hp];
      [|apply list_elem_of_singleton in Hp; subst p]; vm_compute; reflexivity. }
  vm_compute in Hrun3. injection Hrun3 as <- <-.
  split; [exact R3|]. split; [exact S3|exact N3].
Qed.

Lemma abc_list_pairs :
  zsl_pairs (fst abc_list) (snd abc_list)
  = [(of_Z 1, [97]); (of_Z 2, [98]); (of_Z 3, [99])].
Proof. vm_compute. reflexivity. Qed.

(** The pair (2, "c") goes between (2, "b") and (3, "c"). *)
Lemma zslInsert_sorted_insertion_witness :
  exists h' zsl' x ns' t,
    zslInsert compareStringObjects_bytes (fst abc_list) (snd abc_list) (of_Z 2) [99] [65535]
    = inr (h', zsl', x, []) /\
    zsl_rep h' zsl' ns' /\ key_sorted compareStringObjects_bytes h' ns' /\
    scores_ok h' ns' /\
    length zsl' = length (snd abc_list) + 1 /\
    zsl_pairs h' zsl'
    = take t (zsl_pairs (fst abc_list) (snd abc_list))
      ++ (of_Z 2, [99]) :: drop t (zsl_pairs (fst abc_list) (snd abc_list)) /\
    (forall pr, pr ∈ take t (zsl_pairs (fst abc_list) (snd abc_list)) ->
       before compareStringObjects_bytes (fst pr) (snd pr) (of_Z 2) [99] = true) /\
    (forall pr, pr ∈ drop t (zsl_pairs (fst abc_list) (snd abc_list)) ->
       before compareStringObjects_bytes (of_Z 2) [99] (fst pr) (snd pr) = true).
Proof.
  destruct abc_list_rep as (R & Hs & Hn).
  apply (zslInsert_sorted_insertion compareStringObjects_bytes (fst abc_list) (snd abc_list)
           [1%nat; 2%nat; 3%nat] (of_Z 2) [99] [65535] 1 []
           compareStringObjects_bytes_antisym compareStringObjects_bytes_trans R Hs Hn).
  - reflexivity.
  - vm_compute. reflexivity.
  - rewrite abc_list_pairs. intros pr Hpr.
    repeat (apply elem_of_cons in Hpr as [->|Hpr]; [vm_compute; auto|]).
    inversion Hpr.
  - vm_compute. reflexivity.
Defined.

Lemma zslDelete_removes_stored_pair_witness :
  exists h' zsl',
    zslDelete compareStringObjects_bytes (fst abc_list) (snd abc_list)
      (score_at (fst abc_list) 2) (elem (fst abc_list) 2) = inr (h', zsl', 1) /\
    zsl_rep h' zsl' (delete 1%nat [1%nat; 2%nat; 3%nat]) /\
    key_sorted compareStringObjects_bytes h' (delete 1%nat [1%nat; 2%nat; 3%nat]) /\
    scores_ok h' (delete 1%nat [1%nat; 2%nat; 3%nat]) /\
    length zsl' = length (snd abc_list) - 1 /\
    zsl_pairs h' zsl' = delete 1%nat (zsl_pairs (fst abc_list) (snd abc_list)) /\
    (forall q, q <> 2%nat -> info_at h' q = info_at (fst abc_list) q).
Proof.
  destruct abc_list_rep as (R & Hs & Hn).
  apply (zslDelete_removes_stored_pair compareStringObjects_bytes
           (fst abc_list) (snd abc_list) [1%nat; 2%nat; 3%nat] 1 2
           compareStringObjects_bytes_antisym compareStringObjects_bytes_trans R Hs Hn).
  - vm_compute. reflexivity.
  - reflexivity.
Defined.

(** The list holds (2, "b") but not (2, "a"). *)
Lemma zslDelete_absent_pair_witness :
  zslDelete compareStringObjects_bytes (fst abc_list) (snd abc_list) (of_Z 2) [97]
  = inr (fst abc_list, snd abc_list, 0).
Proof.
  destruct abc_list_rep as (R & _).
  apply (zslDelete_absent_pair compareStringObjects_bytes (fst abc_list) (snd abc_list)
           [1%nat; 2%nat; 3%nat] (of_Z 2) [97] R).
  rewrite abc_list_pairs. intros pr Hpr.
  repeat (apply elem_of_cons in Hpr as [->|Hpr]; [vm_compute; reflexivity|]).
  inversion Hpr.
Defined.

Lemma zslGetElementByRank_nth_witness :
  zslGetElementByRank (fst abc_list) (snd abc_list) 2 = inr (Some 2%nat)
  /\ zslGetElementByRank (fst abc_list) (snd abc_list) 4 = inr None
  /\ zslGetElementByRank (fst abc_list) (snd abc_list) 0 = inr (Some (header (snd abc_list))).
Proof.
  destruct abc_list_rep as (R & _).
  split; [|split].
  - apply (zslGetElementByRank_nth (fst abc_list) (snd abc_list) [1%nat; 2%nat; 3%nat] 2 R);
      [vm_compute; reflexivity|lia].
  - apply (zslGetElementByRank_nth (fst abc_list) (snd abc_list) [1%nat; 2%nat; 3%nat] 4 R);
      [vm_compute; reflexivity|lia].
  - apply (zslGetElementByRank_nth (fst abc_list) (snd abc_list) [1%nat; 2%nat; 3%nat] 0 R);
      [vm_compute; reflexivity|lia].
Defined.

Lemma zslGetRank_of_stored_pair_witness :
  zslGetRank compareStringObjects_bytes (fst abc_list) (snd abc_list)
    (score_at (fst abc_list) 2) (elem (fst abc_list) 2) = inr (Z.of_nat 1 + 1) /\
  zslGetElementByRank (fst abc_list) (snd abc_list) (Z.of_nat 1 + 1) = inr (Some 2%nat).
Proof.
  destruct abc_list_rep as (R & Hs & Hn).
  apply (zslGetRank_of_stored_pair compareStringObjects_bytes (fst abc_list) (snd abc_list)
           [1%nat; 2%nat; 3%nat] 1 2
           compareStringObjects_bytes_antisym compareStringObjects_bytes_trans R Hs Hn).
  - vm_compute. reflexivity.
  - reflexivity.
  - intros j p Hj Hp. destruct j as [|j]; [|lia]. injection Hp as <-.
    vm_compute. reflexivity.
Defined.

End Zsl.

(** * The ordered set: skip list and dictionary (t_zset.c) *)

Module Zset.
Import Double Zsl.

(** The dictionary of an ordered set maps an element to [&znode->score],
    the address of the score of the skip-list node that holds the element:
    a value is the address of that node. *)
Abbreviation zdict := (Dict.dict (list Z) nat) (only parsing).

Record zset := mk_zset {
  dict : Dict.dict (list Z) nat;
  zsl : zskiplist
}.

Record zrangespec := mk_range {
  min : spec_float;
  max : spec_float;
  minex : bool;
  maxex : bool
}.

(** A dictionary operation that faults stops the run. *)
Definition lift {A} (o : option A) : M A :=
  match o with
  | Some x => ret x
  | None => fail BadPointer
  end.

(** The encoding of the object and what [zobj->ptr] points to. *)
Inductive encoding := REDIS_ENCODING_ZIPLIST | REDIS_ENCODING_SKIPLIST.

Inductive zobj :=
| OBJ_ZIPLIST (zl : list Z)
| OBJ_SKIPLIST (zs : zset).

(** *** Score ranges *)

(** The three comparisons of two doubles that are not NaN. *)
Lemma dle_dlt_deq x y : dle x y = dlt x y || deq x y.
Proof.
  unfold dle, dlt, deq, SFleb, SFltb, SFeqb.
  destruct (SFcompare x y) as [[]|]; reflexivity.
Qed.

Lemma dlt_not_nan x y : dlt x y = true -> isnan x = false /\ isnan y = false.
Proof. destruct x, y; cbn; intros H; try discriminate H; auto. Qed.

Lemma dle_not_nan x y : dle x y = true -> isnan x = false /\ isnan y = false.
Proof. destruct x, y; cbn; intros H; try discriminate H; auto. Qed.

Lemma deq_not_nan x y : deq x y = true -> isnan x = false /\ isnan y = false.
Proof. destruct x, y; cbn; intros H; try discriminate H; auto. Qed.

Lemma float_cmp_cases a b :
  isnan a = false -> isnan b = false ->
  (key_lt (order_key a) (order_key b)
   /\ dlt a b = true /\ deq a b = false /\ dle a b = true
   /\ dlt b a = false /\ deq b a = false /\ dle b a = false)
  \/ (key_eq (order_key a) (order_key b)
      /\ dlt a b = false /\ deq a b = true /\ dle a b = true
      /\ dlt b a = false /\ deq b a = true /\ dle b a = true)
  \/ (key_lt (order_key b) (order_key a)
      /\ dlt a b = false /\ deq a b = false /\ dle a b = false
      /\ dlt b a = true /\ deq b a = false /\ dle b a = true).
Proof.
  intros Na Nb.
  destruct (compare_order_key a b Na Nb) as [L1 E1].
  destruct (compare_order_key b a Nb Na) as [L2 E2].
  rewrite !dle_dlt_deq.
  destruct (dlt a b) eqn:D1, (deq a b) eqn:D2, (dlt b a) eqn:D3, (deq b a) eqn:D4;
    cbn [orb];
    repeat match goal with
           | H : true = true <-> _ |- _ => pose proof (proj1 H eq_refl); clear H
           | H : false = true <-> ?P |- _ =>
               assert (~ P) by (intros K; apply (proj2 H) in K; discriminate); clear H
           end;
    unfold key_lt, key_eq in *;
    first [ left; split; [lia|repeat split; reflexivity]
          | right; left; split; [lia|repeat split; reflexivity]
          | right; right; split; [lia|repeat split; reflexivity]
          | exfalso; lia ].
Qed.

(** [zslValueGteMin(value, spec)] and [zslValueLteMax(value, spec)]. *)
Definition zslValueGteMin (value : spec_float) (spec : zrangespec) : bool :=
  if minex spec then dlt (min spec) value else dle (min spec) value.

Definition zslValueLteMax (value : spec_float) (spec : zrangespec) : bool :=
  if maxex spec then dlt value (max spec) else dle value (max spec).

(** [zslIsInRange(zsl, range)]. *)
Definition zslIsInRange (h : list (option zskiplistNode)) (zsl : zskiplist)
  (range : zrangespec) : M bool :=
  (* Test for ranges that will always be empty. *)
  if dlt (max range) (min range)
     || (deq (min range) (max range) && (minex range || maxex range))
  then ret false
  else
    match tail zsl with
    | None => ret false
    | Some x =>
        xn <- deref h x;;
        if negb (zslValueGteMin (score xn) range) then ret false
        else
          f <- get_forward h (header zsl) 0;;
          match f with
          | None => ret false
          | Some x => xn <- deref h x;; ret (zslValueLteMax (score xn) range)
          end
    end.

(** [!zslValueGteMin(x->level[i].forward->score, range)]. *)
Definition score_out_below (range : zrangespec) (fn : zskiplistNode) : M bool :=
  ret (negb (zslValueGteMin (score fn) range)).

(** [zslValueLteMax(x->level[i].forward->score, range)]. *)
Definition score_within_max (range : zrangespec) (fn : zskiplistNode) : M bool :=
  ret (zslValueLteMax (score fn) range).

(** [zslFirstInRange(zsl, range)]; [None] is the NULL result. *)
Definition zslFirstInRange (h : list (option zskiplistNode)) (zsl : zskiplist)
  (range : zrangespec) : M (option nat) :=
  (* If everything is out of range, return early. *)
  b <- zslIsInRange h zsl range;;
  if negb b then ret None
  else
    x <- search_levels (Z.to_nat (zsl_level zsl)) h (score_out_below range) (header zsl);;
    (* This is an inner range, so the next node cannot be NULL. *)
    x <- get_forward h x 0;;
    match x with
    | None => fail AssertFailed
    | Some x =>
        xn <- deref h x;;
        (* Check if score <= max. *)
        if negb (zslValueLteMax (score xn) range) then ret None else ret (Some x)
    end.

(** [zslLastInRange(zsl, range)]. *)
Definition zslLastInRange (h : list (option zskiplistNode)) (zsl : zskiplist)
  (range : zrangespec) : M (option nat) :=
  b <- zslIsInRange h zsl range;;
  if negb b then ret None
  else
    x <- search_levels (Z.to_nat (zsl_level zsl)) h (score_within_max range) (header zsl);;
    xn <- deref h x;;
    (* Check if score >= min. *)
    if negb (zslValueGteMin (score xn) range) then ret None else ret (Some x).

(** The score lies in the range. *)
Definition in_range (range : zrangespec) (v : spec_float) : bool :=
  zslValueGteMin v range && zslValueLteMax v range.

Lemma gte_min_not_nan v range :
  zslValueGteMin v range = true -> isnan (min range) = false.
Proof.
  unfold zslValueGteMin. destruct (minex range); intros H.
  - now apply dlt_not_nan in H.
  - now apply dle_not_nan in H.
Qed.

Lemma lte_max_not_nan v range :
  zslValueLteMax v range = true -> isnan (max range) = false.
Proof.
  unfold zslValueLteMax. destruct (maxex range); intros H.
  - now apply dlt_not_nan in H.
  - now apply dle_not_nan in H.
Qed.

Ltac float_cases a b Na Nb :=
  let K := fresh "K" in
  destruct (float_cmp_cases a b Na Nb)
    as [(K & ? & ? & ? & ? & ? & ?)|[(K & ? & ? & ? & ? & ? & ?)|(K & ? & ? & ? & ? & ? & ?)]].

Ltac float_close :=
  repeat match goal with
         | H : ?x = true, H' : ?x = false |- _ => rewrite H in H'; discriminate H'
         | H : ?x = _ |- context [?x] => rewrite H
         end;
  try reflexivity; try discriminate;
  try (exfalso; unfold key_lt, key_eq in *; lia).

(** Of two scores in list order, the later one is above the lower bound
    when the earlier one is, and the earlier one is below the upper bound
    when the later one is. *)
Lemma score_gte_min_mono v1 v2 range :
  isnan v1 = false -> isnan v2 = false -> dlt v2 v1 = false ->
  zslValueGteMin v1 range = true -> zslValueGteMin v2 range = true.
Proof.
  intros N1 N2 Hle Hg. pose proof (gte_min_not_nan _ _ Hg) as Nm.
  unfold zslValueGteMin in *.
  float_cases (min range) v1 Nm N1; float_cases (min range) v2 Nm N2;
    float_cases v1 v2 N1 N2; destruct (minex range); float_close.
Qed.

Lemma score_lte_max_mono v1 v2 range :
  isnan v1 = false -> isnan v2 = false -> dlt v2 v1 = false ->
  zslValueLteMax v2 range = true -> zslValueLteMax v1 range = true.
Proof.
  intros N1 N2 Hle Hg. pose proof (lte_max_not_nan _ _ Hg) as Nm.
  unfold zslValueLteMax in *.
  float_cases (max range) v1 Nm N1; float_cases (max range) v2 Nm N2;
    float_cases v1 v2 N1 N2; destruct (maxex range); float_close.
Qed.

(** The range the first test of [zslIsInRange] rejects holds no score. *)
Lemma empty_range_no_score v range :
  dlt (max range) (min range)
  || (deq (min range) (max range) && (minex range || maxex range)) = true ->
  in_range range v = false.
Proof.
  intros Hempty. destruct (in_range range v) eqn:Hin; [exfalso|reflexivity].
  unfold in_range in Hin. apply andb_true_iff in Hin as [Hg Hl].
  pose proof (gte_min_not_nan _ _ Hg) as Nm. pose proof (lte_max_not_nan _ _ Hl) as Nx.
  assert (Nv : isnan v = false).
  { unfold zslValueGteMin in Hg. destruct (minex range).
    - now apply dlt_not_nan in Hg. - now apply dle_not_nan in Hg. }
  unfold zslValueGteMin in Hg. unfold zslValueLteMax in Hl.
  float_cases (min range) v Nm Nv; float_cases v (max range) Nv Nx;
    float_cases (min range) (max range) Nm Nx;
    destruct (minex range), (maxex range);
    repeat match goal with
           | H : dlt _ _ = _ |- _ => rewrite H in Hempty
           | H : deq _ _ = _ |- _ => rewrite H in Hempty
           end;
    cbn [orb andb] in Hempty; float_close.
Qed.

Section ScoreRange.

Variable cmp : list Z -> list Z -> Z.
Hypothesis cmp_antisym : forall a b, Z.sgn (cmp a b) = - Z.sgn (cmp b a).
Hypothesis cmp_trans : forall a b c, cmp a b <= 0 -> cmp b c <= 0 -> cmp a c <= 0.
Variables (h : list (option zskiplistNode)) (zsl : zskiplist) (ns : list nat).
Variable range : zrangespec.
Hypothesis R : zsl_rep h zsl ns.
Hypothesis Hsorted : key_sorted cmp h ns.
Hypothesis Hscores : scores_ok h ns.

Lemma node_score p :
  p ∈ ns -> exists n, node_at h p = Some n /\ score n = score_at h p.
Proof.
  intros Hp. destruct (rep_nodes _ _ _ R p Hp) as (o & sc & L & Hi & _).
  destruct (info_at_node _ _ _ _ _ Hi) as (n & Hn & _).
  exists n. split; [exact Hn|]. unfold score_at. now rewrite Hn.
Qed.

(** Scores do not decrease along the list. *)
Lemma scores_ascend j1 j2 p q :
  (j1 <= j2)%nat -> ns !! j1 = Some p -> ns !! j2 = Some q ->
  dlt (score_at h q) (score_at h p) = false.
Proof.
  intros Hle Hp Hq.
  pose proof (Hscores p (list_elem_of_lookup_2 _ _ _ Hp)) as Np.
  pose proof (Hscores q (list_elem_of_lookup_2 _ _ _ Hq)) as Nq.
  destruct (Nat.eq_dec j1 j2) as [->|Hne].
  - rewrite Hp in Hq. injection Hq as ->.
    float_cases (score_at h q) (score_at h q) Nq Nq; float_close.
  - pose proof (before_asym cmp cmp_antisym cmp_trans _ _ _ _ Np Nq
                  (Hsorted j1 j2 p q ltac:(lia) Hp Hq)) as Hb.
    unfold before in Hb. now apply orb_false_iff in Hb as [Hb _].
Qed.

Lemma zslIsInRange_spec :
  exists b, zslIsInRange h zsl range = inr b /\
    (b = false -> forall p, p ∈ ns -> in_range range (score_at h p) = false) /\
    (b = true -> exists q f, last ns = Some q /\ head ns = Some f
                             /\ zslValueGteMin (score_at h q) range = true
                             /\ zslValueLteMax (score_at h f) range = true).
Proof.
  pose proof (rep_shape _ _ _ R) as Hshape.
  unfold zslIsInRange.
  destruct (_ || _) eqn:Hempty.
  { exists false. split; [reflexivity|]. split; [|discriminate]. intros _ p Hp.
    now apply empty_range_no_score. }
  rewrite (rep_tail _ _ _ R). destruct (last ns) as [q|] eqn:Hlast.
  2: { exists false. split; [reflexivity|]. split; [|discriminate]. intros _ p Hp.
       apply last_None in Hlast. subst ns. inversion Hp. }
  pose proof Hlast as Hq. rewrite last_lookup in Hq.
  destruct (node_score q (list_elem_of_lookup_2 _ _ _ Hq)) as (qn & Hqn & Hqs).
  rewrite (deref_node_at _ _ _ Hqn). cbn [bind ret]. rewrite Hqs.
  destruct (zslValueGteMin (score_at h q) range) eqn:Hg; cbn [negb].
  - rewrite (shape_first h zsl ns Hshape). cbn [bind ret].
    destruct (head ns) as [f|] eqn:Hf.
    2: { apply head_None in Hf. rewrite Hf in Hlast. discriminate. }
    pose proof Hf as Hf'. rewrite head_lookup in Hf'.
    destruct (node_score f (list_elem_of_lookup_2 _ _ _ Hf')) as (fn & Hfn & Hfs).
    rewrite (deref_node_at _ _ _ Hfn). cbn [bind ret]. rewrite Hfs.
    eexists. split; [reflexivity|]. split.
    + intros Hl p Hp. pose proof Hp as Hpin.
      apply list_elem_of_lookup_1 in Hp as [j Hj].
      unfold in_range. apply andb_false_iff. right.
      destruct (zslValueLteMax (score_at h p) range) eqn:Hlp; [|reflexivity].
      rewrite <- Hl. symmetry.
      apply (score_lte_max_mono (score_at h f) (score_at h p));
        [apply Hscores; eapply list_elem_of_lookup_2, Hf'|now apply Hscores| |exact Hlp].
      apply (scores_ascend 0 j); [lia|exact Hf'|exact Hj].
    + intros Hl. exists q, f. now repeat split.
  - exists false. split; [reflexivity|]. split; [|discriminate]. intros _ p Hp.
    pose proof Hp as Hpin. apply list_elem_of_lookup_1 in Hp as [j Hj].
    unfold in_range. apply andb_false_iff. left.
    destruct (zslValueGteMin (score_at h p) range) eqn:Hgp; [|reflexivity].
    rewrite <- Hg. symmetry.
    apply (score_gte_min_mono (score_at h p) (score_at h q));
      [now apply Hscores|apply Hscores; eapply list_elem_of_lookup_2, Hq| |exact Hgp].
    apply (scores_ascend j (pred (List.length ns))); [|exact Hj|exact Hq].
    apply lookup_lt_Some in Hj. lia.
Qed.

Definition below_pb (n : zskiplistNode) : bool := negb (zslValueGteMin (score n) range).
Definition within_pb (n : zskiplistNode) : bool := zslValueLteMax (score n) range.

Lemma below_pb_node p :
  p ∈ ns -> pbp h below_pb p = negb (zslValueGteMin (score_at h p) range).
Proof.
  intros Hp. destruct (node_score p Hp) as (n & Hn & Hs).
  unfold pbp, below_pb. now rewrite Hn, Hs.
Qed.

Lemma within_pb_node p :
  p ∈ ns -> pbp h within_pb p = zslValueLteMax (score_at h p) range.
Proof.
  intros Hp. destruct (node_score p Hp) as (n & Hn & Hs).
  unfold pbp, within_pb. now rewrite Hn, Hs.
Qed.

Lemma below_threshold : exists t, threshold h ns below_pb t.
Proof.
  destruct (mono_threshold (pbp h below_pb) ns) as (t & Ht & Hthr).
  - intros j1 j2 p q Hlt Hp Hq.
    pose proof (list_elem_of_lookup_2 _ _ _ Hp) as Hpin.
    pose proof (list_elem_of_lookup_2 _ _ _ Hq) as Hqin.
    rewrite (below_pb_node p Hpin), (below_pb_node q Hqin), !negb_true_iff.
    intros Hgq.
    destruct (zslValueGteMin (score_at h p) range) eqn:Hgp; [|reflexivity].
    rewrite <- Hgq. symmetry.
    apply (score_gte_min_mono (score_at h p) (score_at h q));
      [now apply Hscores|now apply Hscores| |exact Hgp].
    apply (scores_ascend j1 j2); [lia|exact Hp|exact Hq].
  - exists t. split; assumption.
Qed.

Lemma within_threshold : exists t, threshold h ns within_pb t.
Proof.
  destruct (mono_threshold (pbp h within_pb) ns) as (t & Ht & Hthr).
  - intros j1 j2 p q Hlt Hp Hq.
    pose proof (list_elem_of_lookup_2 _ _ _ Hp) as Hpin.
    pose proof (list_elem_of_lookup_2 _ _ _ Hq) as Hqin.
    rewrite (within_pb_node p Hpin), (within_pb_node q Hqin).
    intros Hlq.
    apply (score_lte_max_mono (score_at h p) (score_at h q));
      [now apply Hscores|now apply Hscores| |exact Hlq].
    apply (scores_ascend j1 j2); [lia|exact Hp|exact Hq].
  - exists t. split; assumption.
Qed.

(** Where [zslFirstInRange] stops: at the first place whose score is in the
    range. *)
Lemma zslFirstInRange_place :
  exists r, zslFirstInRange h zsl range = inr r /\
    match r with
    | Some y => exists t, ns !! t = Some y /\ in_range range (score_at h y) = true /\
                  (forall j p, (j < t)%nat -> ns !! j = Some p ->
                               in_range range (score_at h p) = false)
    | None => forall p, p ∈ ns -> in_range range (score_at h p) = false
    end.
Proof.
  pose proof (rep_shape _ _ _ R) as Hshape.
  destruct zslIsInRange_spec as (b & Hb & Hfalse & Htrue).
  unfold zslFirstInRange. rewrite Hb. cbn [bind]. destruct b; cbn [negb].
  2: { exists None. split; [reflexivity|]. apply Hfalse. reflexivity. }
  destruct (Htrue eq_refl) as (q & f & Hlast & _ & Hgq & _). rewrite last_lookup in Hlast.
  destruct below_threshold as (t & Ht).
  destruct (search_levels_threshold h zsl ns Hshape (score_out_below range) below_pb)
    with (t := t) (n := Z.to_nat (zsl_level zsl)) (k := O) (x := header zsl)
    as (k' & x' & Hs & _ & Hk' & Hfin).
  { intros n _. reflexivity. }
  { exact Ht. } { lia. } { reflexivity. }
  { rewrite (shape_header_height h zsl ns Hshape).
    pose proof (shape_level _ _ _ Hshape). lia. }
  rewrite Hs. cbn [bind].
  rewrite Hfin in Hk' by (pose proof (shape_level _ _ _ Hshape); lia).
  rewrite (shape_next0 h zsl ns Hshape t x' Hk'). cbn [bind].
  destruct Ht as [Htlen Hthr].
  assert (t < List.length ns)%nat as Htlt.
  { pose proof (Hthr _ _ Hlast) as Hpq.
    rewrite (below_pb_node q (list_elem_of_lookup_2 _ _ _ Hlast)), Hgq in Hpq.
    symmetry in Hpq. apply Nat.ltb_ge in Hpq.
    apply lookup_lt_Some in Hlast. lia. }
  destruct (lookup_lt_is_Some_2 ns t Htlt) as [y Hy]. rewrite Hy.
  pose proof (list_elem_of_lookup_2 _ _ _ Hy) as Hyin.
  destruct (node_score y Hyin) as (yn & Hyn & Hys).
  rewrite (deref_node_at _ _ _ Hyn). cbn [bind ret]. rewrite Hys.
  assert (Hbefore : forall j p, (j < t)%nat -> ns !! j = Some p ->
                                in_range range (score_at h p) = false).
  { intros j p Hj Hp. pose proof (Hthr _ _ Hp) as Hpp.
    rewrite (below_pb_node p (list_elem_of_lookup_2 _ _ _ Hp)) in Hpp.
    apply Nat.ltb_lt in Hj. rewrite Hj in Hpp. apply negb_true_iff in Hpp.
    unfold in_range. now rewrite Hpp. }
  assert (Hgy : zslValueGteMin (score_at h y) range = true).
  { pose proof (Hthr _ _ Hy) as Hpy.
    rewrite (below_pb_node y Hyin), Nat.ltb_irrefl in Hpy.
    now apply negb_false_iff in Hpy. }
  destruct (zslValueLteMax (score_at h y) range) eqn:Hly; cbn [negb].
  - exists (Some y). split; [reflexivity|]. exists t. split; [exact Hy|].
    split; [|exact Hbefore]. unfold in_range. now rewrite Hgy, Hly.
  - exists None. split; [reflexivity|]. intros p Hp. pose proof Hp as Hpin.
    apply list_elem_of_lookup_1 in Hp as [j Hj].
    destruct (Nat.lt_ge_cases j t) as [Hlt|Hge]; [now apply (Hbefore j)|].
    unfold in_range. apply andb_false_iff. right.
    destruct (zslValueLteMax (score_at h p) range) eqn:Hlp; [|reflexivity].
    rewrite <- Hly. symmetry.
    apply (score_lte_max_mono (score_at h y) (score_at h p));
      [now apply Hscores|now apply Hscores| |exact Hlp].
    apply (scores_ascend t j); [lia|exact Hy|exact Hj].
Qed.

(** Where [zslLastInRange] stops: at the last place whose score is in the
    range. *)
Lemma zslLastInRange_place :
  exists r, zslLastInRange h zsl range = inr r /\
    match r with
    | Some y => exists t, ns !! t = Some y /\ in_range range (score_at h y) = true /\
                  (forall j p, (t < j)%nat -> ns !! j = Some p ->
                               in_range range (score_at h p) = false)
    | None => forall p, p ∈ ns -> in_range range (score_at h p) = false
    end.
Proof.
  pose proof (rep_shape _ _ _ R) as Hshape.
  destruct zslIsInRange_spec as (b & Hb & Hfalse & Htrue).
  unfold zslLastInRange. rewrite Hb. cbn [bind]. destruct b; cbn [negb].
  2: { exists None. split; [reflexivity|]. apply Hfalse. reflexivity. }
  destruct (Htrue eq_refl) as (q & f & _ & Hhead & _ & Hlf). rewrite head_lookup in Hhead.
  destruct within_threshold as (t & Ht).
  destruct (search_levels_threshold h zsl ns Hshape (score_within_max range) within_pb)
    with (t := t) (n := Z.to_nat (zsl_level zsl)) (k := O) (x := header zsl)
    as (k' & x' & Hs & _ & Hk' & Hfin).
  { intros n _. reflexivity. }
  { exact Ht. } { lia. } { reflexivity. }
  { rewrite (shape_header_height h zsl ns Hshape).
    pose proof (shape_level _ _ _ Hshape). lia. }
  rewrite Hs. cbn [bind].
  rewrite Hfin in Hk' by (pose proof (shape_level _ _ _ Hshape); lia).
  destruct Ht as [Htlen Hthr].
  assert (1 <= t)%nat as Ht1.
  { pose proof (Hthr _ _ Hhead) as Hpf.
    rewrite (within_pb_node f (list_elem_of_lookup_2 _ _ _ Hhead)), Hlf in Hpf.
    symmetry in Hpf. apply Nat.ltb_lt in Hpf. lia. }
  destruct t as [|t']; [lia|].
  assert (Hy : ns !! t' = Some x') by exact Hk'.
  pose proof (list_elem_of_lookup_2 _ _ _ Hy) as Hyin.
  destruct (node_score x' Hyin) as (yn & Hyn & Hys).
  rewrite (deref_node_at _ _ _ Hyn). cbn [bind ret]. rewrite Hys.
  assert (Hafter : forall j p, (t' < j)%nat -> ns !! j = Some p ->
                               in_range range (score_at h p) = false).
  { intros j p Hj Hp. pose proof (Hthr _ _ Hp) as Hpp.
    rewrite (within_pb_node p (list_elem_of_lookup_2 _ _ _ Hp)) in Hpp.
    assert (Hnlt : (j <? S t')%nat = false) by (apply Nat.ltb_ge; lia).
    rewrite Hnlt in Hpp. unfold in_range. rewrite Hpp. apply andb_false_r. }
  assert (Hly : zslValueLteMax (score_at h x') range = true).
  { pose proof (Hthr _ _ Hy) as Hpy.
    rewrite (within_pb_node x' Hyin) in Hpy. rewrite Hpy. apply Nat.ltb_lt. lia. }
  assert (Hlen : (t' < List.length ns)%nat) by (now apply lookup_lt_Some in Hy).
  destruct (zslValueGteMin (score_at h x') range) eqn:Hgy; cbn [negb].
  - exists (Some x'). split; [reflexivity|]. exists t'. split; [exact Hy|].
    split; [|exact Hafter]. unfold in_range. now rewrite Hgy, Hly.
  - exists None. split; [reflexivity|]. intros p Hp.
    pose proof Hp as Hpin. apply list_elem_of_lookup_1 in Hp as [j Hj].
    destruct (Nat.lt_ge_cases t' j) as [Hlt|Hge]; [now apply (Hafter j)|].
    unfold in_range. apply andb_false_iff. left.
    destruct (zslValueGteMin (score_at h p) range) eqn:Hgp; [|reflexivity].
    rewrite <- Hgy. symmetry.
    apply (score_gte_min_mono (score_at h p) (score_at h x'));
      [now apply Hscores|now apply Hscores| |exact Hgp].
    apply (scores_ascend j t'); [lia|exact Hj|exact Hy].
Qed.

(** X14 — first node of a score range.  On a skip list whose pairs are in
    order, [zslFirstInRange] returns the first node, in list order, whose
    score lies in the range (bounds inclusive or exclusive as the range
    says), and NULL when no score does: in particular for a range whose
    minimum is above its maximum, for an empty list, and for a bound that
    is NaN. *)
Theorem zslFirstInRange_first :
  zslFirstInRange h zsl range
  = inr (List.find (fun p => in_range range (score_at h p)) ns).
Proof.
  destruct zslFirstInRange_place as (r & Hr & Hplace). rewrite Hr. f_equal.
  destruct r as [y|].
  - destruct Hplace as (t & Hy & Hin & Hbefore). symmetry.
    exact (find_first _ ns t y Hy Hbefore Hin).
  - symmetry. now apply find_none.
Qed.

(** X15 — last node of a score range.  On a skip list whose pairs are in
    order, [zslLastInRange] returns the last node, in list order, whose
    score lies in the range, and NULL when no score does. *)
Theorem zslLastInRange_last :
  zslLastInRange h zsl range
  = inr (List.find (fun p => in_range range (score_at h p)) (reverse ns)).
Proof.
  destruct zslLastInRange_place as (r & Hr & Hplace). rewrite Hr. f_equal.
  destruct r as [y|].
  - destruct Hplace as (t & Hy & Hin & Hafter). symmetry.
    assert (Hlen : (t < List.length ns)%nat) by (now apply lookup_lt_Some in Hy).
    apply (find_first _ (reverse ns) (List.length ns - S t)%nat y).
    + rewrite reverse_lookup by lia.
      replace (List.length ns - S (List.length ns - S t))%nat with t by lia. exact Hy.
    + intros j p Hj Hp. rewrite reverse_lookup in Hp by lia.
      apply (Hafter (List.length ns - S j)%nat p); [lia|exact Hp].
    + exact Hin.
  - symmetry. apply find_none. intros p Hp. apply Hplace.
    exact (proj1 (elem_of_reverse _ _) Hp).
Qed.

End ScoreRange.

Section Large.

(** [zsetDictType] of redis.c is not among the sources: its hash function
    and its key comparison. *)
Variable hashFunction : list Z -> Z.
Variable keyCompare : list Z -> list Z -> bool.
Variable dict_can_resize : bool.
Variable compareStringObjects : list Z -> list Z -> Z.
Variables minstring maxstring : list Z.
(** [htNeedsResize] of redis.c is not among the sources. *)
Variable htNeedsResize : Dict.dict (list Z) nat -> bool.

(** The loop the three range deletions end with:
    [while (x && COND) { next = x->level[0].forward; zslDeleteNode(zsl,x,update);
       dictDelete(dict,x->obj); zslFreeNode(x); removed++; x = next; }]
    [zslDeleteRangeByRank] also counts [traversed], on which its test
    is. *)
Fixpoint delete_range_loop (fuel : nat) (cond : zskiplistNode -> Z -> M bool)
  (h : list (option zskiplistNode)) (zsl : zskiplist) (d : Dict.dict (list Z) nat)
  (x : option nat) (update : list (option nat)) (traversed removed : Z)
  : M (list (option zskiplistNode) * zskiplist * Dict.dict (list Z) nat * Z) :=
  match x with
  | None => ret (h, zsl, d, removed)
  | Some x =>
      xn <- deref h x;;
      c <- cond xn traversed;;
      if c then
        match fuel with
        | O => fail OutOfFuel
        | S fuel' =>
            next <- get_forward h x 0;;
            s <- zslDeleteNode h zsl x update;;
            let '(h, zsl) := s in
            xn <- deref h x;; xo <- node_obj xn;;
            r <- lift (Dict.dictDelete _ _ hashFunction keyCompare d xo);;
            let '(d, _) := r in
            h <- zslFreeNode h x;;
            delete_range_loop fuel' cond h zsl d next update
              (u64 (traversed + 1)) (u64 (removed + 1))
        end
      else ret (h, zsl, d, removed)
  end.

(** [range->minex ? forward->score <= range->min : forward->score < range->min]. *)
Definition score_before_min (range : zrangespec) (fn : zskiplistNode) : M bool :=
  ret (if minex range then dle (score fn) (min range) else dlt (score fn) (min range)).

(** [range->maxex ? x->score < range->max : x->score <= range->max]. *)
Definition score_upto_max (range : zrangespec) (xn : zskiplistNode) (_ : Z) : M bool :=
  ret (if maxex range then dlt (score xn) (max range) else dle (score xn) (max range)).

(** [zslDeleteRangeByScore(zsl, range, dict)]. *)
Definition zslDeleteRangeByScore (h : list (option zskiplistNode)) (zsl : zskiplist)
  (range : zrangespec) (d : Dict.dict (list Z) nat)
  : M (list (option zskiplistNode) * zskiplist * Dict.dict (list Z) nat * Z) :=
  let update := replicate (Z.to_nat ZSKIPLIST_MAXLEVEL) None in
  s <- update_search (Z.to_nat (zsl_level zsl)) h (score_before_min range) (header zsl) update;;
  let '(x, update) := s in
  (* Current node is the last with score < or <= min. *)
  x <- get_forward h x 0;;
  (* Delete nodes while in range. *)
  delete_range_loop (List.length h) (score_upto_max range) h zsl d x update 0 0.

(** [zslLexValueLteMax(x->obj, range)]. *)
Definition lex_upto_max (range : zlexrangespec) (xn : zskiplistNode) (_ : Z) : M bool :=
  xo <- node_obj xn;;
  ret (zslLexValueLteMax compareStringObjects minstring maxstring xo range).

(** [zslDeleteRangeByLex(zsl, range, dict)]. *)
Definition zslDeleteRangeByLex (h : list (option zskiplistNode)) (zsl : zskiplist)
  (range : zlexrangespec) (d : Dict.dict (list Z) nat)
  : M (list (option zskiplistNode) * zskiplist * Dict.dict (list Z) nat * Z) :=
  let update := replicate (Z.to_nat ZSKIPLIST_MAXLEVEL) None in
  s <- update_search (Z.to_nat (zsl_level zsl)) h
         (lex_before_min compareStringObjects minstring maxstring range) (header zsl) update;;
  let '(x, update) := s in
  x <- get_forward h x 0;;
  delete_range_loop (List.length h) (lex_upto_max range) h zsl d x update 0 0.

(** The search loop of [zslDeleteRangeByRank], from level [n-1] down to 0:
    [while (x->level[i].forward && (traversed + x->level[i].span) < start)]. *)
Fixpoint rank_update_search (n : nat) (h : list (option zskiplistNode)) (start : Z)
  (x : nat) (traversed : Z) (update : list (option nat))
  : M (nat * Z * list (option nat)) :=
  match n with
  | O => ret (x, traversed, update)
  | S n' =>
      let i := Z.of_nat n' in
      w <- walk_rank (List.length h) h (fun t => t <? start) x i traversed;;
      let '(x, traversed) := w in
      update <- arr_set update i (Some x);;
      rank_update_search n' h start x traversed update
  end.

(** [zslDeleteRangeByRank(zsl, start, end, dict)]; [start] and [end] are
    [unsigned int]. *)
Definition zslDeleteRangeByRank (h : list (option zskiplistNode)) (zsl : zskiplist)
  (start end_ : Z) (d : Dict.dict (list Z) nat)
  : M (list (option zskiplistNode) * zskiplist * Dict.dict (list Z) nat * Z) :=
  let update := replicate (Z.to_nat ZSKIPLIST_MAXLEVEL) None in
  s <- rank_update_search (Z.to_nat (zsl_level zsl)) h start (header zsl) 0 update;;
  let '(x, traversed, update) := s in
  let traversed := u64 (traversed + 1) in
  x <- get_forward h x 0;;
  delete_range_loop (List.length h) (fun _ t => ret (t <=? end_)) h zsl d x update
    traversed 0.

(** What a command does to the set: it is changed, or the reply is an error
    and the set is left as it is. *)
Inductive outcome := Done | NanError.

(** [zaddGenericCommand], the body of the [for] loop for one (score,
    element) pair on a set in the skip-list encoding: the heap, the set,
    the draws that are left. *)
Definition zadd_skiplist (incr : bool) (h : list (option zskiplistNode)) (zs : zset)
  (sc : spec_float) (ele : list Z) (draws : list Z)
  : M (list (option zskiplistNode) * zset * list Z * outcome) :=
  r <- lift (Dict.dictFind _ _ hashFunction keyCompare (dict zs) ele);;
  let '(d, de) := r in
  match de with
  | Some de =>
      let curobj := Dict.key de in
      (* curscore = *(double* )dictGetVal(de) *)
      p <- lift (Dict.v de);;
      pn <- deref h p;;
      let curscore := score pn in
      let sc := if incr then dadd sc curscore else sc in
      if incr && isnan sc then ret (h, mk_zset d (zsl zs), draws, NanError)
      else
        (* Remove and re-insert when score changed. *)
        if negb (deq sc curscore) then
          s <- zslDelete compareStringObjects h (zsl zs) curscore curobj;;
          let '(h, z, found) := s in
          if found =? 0 then fail AssertFailed else
          s <- zslInsert compareStringObjects h z sc curobj draws;;
          let '(h, z, znode, draws) := s in
          (* dictGetVal(de) = &znode->score *)
          d <- lift (Dict.dictSetFoundVal _ _ hashFunction keyCompare d curobj znode);;
          ret (h, mk_zset d z, draws, Done)
        else ret (h, mk_zset d (zsl zs), draws, Done)
  | None =>
      s <- zslInsert compareStringObjects h (zsl zs) sc ele draws;;
      let '(h, z, znode, draws) := s in
      r <- lift (Dict.dictAdd _ _ hashFunction keyCompare dict_can_resize d ele znode);;
      let '(d, st) := r in
      if st =? Dict.DICT_OK then ret (h, mk_zset d z, draws, Done)
      else fail AssertFailed
  end.

(** [if (htNeedsResize(zs->dict)) dictResize(zs->dict);]. *)
Definition resize_if_needed (d : Dict.dict (list Z) nat) : M (Dict.dict (list Z) nat) :=
  if htNeedsResize d then
    r <- lift (Dict.dictResize _ _ dict_can_resize d);; ret (fst r)
  else ret d.

(** [zremCommand], the body of the [for] loop for one element on a set in
    the skip-list encoding: the heap, the set and [deleted]. *)
Definition zrem_skiplist (h : list (option zskiplistNode)) (zs : zset) (ele : list Z)
  : M (list (option zskiplistNode) * zset * Z) :=
  r <- lift (Dict.dictFind _ _ hashFunction keyCompare (dict zs) ele);;
  let '(d, de) := r in
  match de with
  | Some de =>
      (* Delete from the skiplist *)
      p <- lift (Dict.v de);;
      pn <- deref h p;;
      s <- zslDelete compareStringObjects h (zsl zs) (score pn) ele;;
      let '(h, z, found) := s in
      if found =? 0 then fail AssertFailed else
      (* Delete from the hash table *)
      r <- lift (Dict.dictDelete _ _ hashFunction keyCompare d ele);;
      d <- resize_if_needed (fst r);;
      ret (h, mk_zset d z, 1)
  | None => ret (h, mk_zset d (zsl zs), 0)
  end.

Inductive rangetype :=
| ZRANGE_RANK (start end_ : Z)
| ZRANGE_SCORE (range : zrangespec)
| ZRANGE_LEX (lexrange : zlexrangespec).

(** [zsetLength(zobj)] in the skip-list encoding: the length goes through
    an [int]. *)
Definition zsetLength (zs : zset) : Z := u32 (sint 32 (length (zsl zs))).

(** [zremrangeGenericCommand] on a set in the skip-list encoding, from the
    sanity checks on: the heap, the set and [deleted].  [start] and [end]
    are [long]. *)
Definition zremrange_skiplist (h : list (option zskiplistNode)) (zs : zset) (rt : rangetype)
  : M (list (option zskiplistNode) * zset * Z) :=
  match rt with
  | ZRANGE_RANK start end_ =>
      (* Sanitize indexes. *)
      let llen := zsetLength zs in
      let start := if start <? 0 then llen + start else start in
      let end_ := if end_ <? 0 then llen + end_ else end_ in
      let start := if start <? 0 then 0 else start in
      if (start >? end_) || (start >=? llen) then ret (h, zs, 0)
      else
        let end_ := if end_ >=? llen then llen - 1 else end_ in
        s <- zslDeleteRangeByRank h (zsl zs) (u32 (start + 1)) (u32 (end_ + 1)) (dict zs);;
        let '(h, z, d, deleted) := s in
        d <- resize_if_needed d;;
        ret (h, mk_zset d z, deleted)
  | ZRANGE_SCORE range =>
      s <- zslDeleteRangeByScore h (zsl zs) range (dict zs);;
      let '(h, z, d, deleted) := s in
      d <- resize_if_needed d;;
      ret (h, mk_zset d z, deleted)
  | ZRANGE_LEX lexrange =>
      s <- zslDeleteRangeByLex h (zsl zs) lexrange (dict zs);;
      let '(h, z, d, deleted) := s in
      d <- resize_if_needed d;;
      ret (h, mk_zset d z, deleted)
  end.

(** *** The packed form *)

(** The byte order of the host.  [strtod] of the C library, [d2string] and
    [ll2string] of util.c, and the two configuration limits
    [server.zset_max_ziplist_entries] and [server.zset_max_ziplist_value]
    are not among the sources. *)
Variable BIG_ENDIAN : bool.
Variable strtod : list Z -> spec_float.
Variable d2string : spec_float -> list Z.
Variable ll2string : Z -> list Z.
Variables zset_max_ziplist_entries zset_max_ziplist_value : Z.

(** [zzlGetScore(sptr)]; the string is copied into [char buf[128]]. *)
Definition zzlGetScore (zl : list Z) (sptr : option Z) : M spec_float :=
  match sptr with
  | None => fail AssertFailed
  | Some _ =>
      v <- lift (Ziplist.ziplistGet BIG_ENDIAN zl sptr);;
      match v with
      | None => fail AssertFailed
      | Some (Ziplist.ZStr vstr) =>
          if Z.of_nat (List.length vstr) >=? 128 then fail OutOfBounds
          else ret (strtod vstr)
      | Some (Ziplist.ZInt vlong) => ret (of_Z vlong)
      end
  end.

(** The element of the entry at [eptr], as [zsetConvert] and
    [ziplistGetObject] make it: [createStringObject(vstr, vlen)] or
    [createStringObjectFromLongLong(vlong)]. *)
Definition zzlGetElement (zl : list Z) (eptr : Z) : M (list Z) :=
  v <- lift (Ziplist.ziplistGet BIG_ENDIAN zl (Some eptr));;
  match v with
  | None => fail AssertFailed
  | Some (Ziplist.ZStr vstr) => ret vstr
  | Some (Ziplist.ZInt vlong) => ret (ll2string vlong)
  end.

(** [zzlCompareElements(eptr, cstr, clen)]; the difference of the two
    [unsigned int] lengths is returned as an [int]. *)
Definition zzlCompareElements (zl : list Z) (eptr : Z) (cstr : list Z) : M Z :=
  v <- lift (Ziplist.ziplistGet BIG_ENDIAN zl (Some eptr));;
  match v with
  | None => fail AssertFailed
  | Some v =>
      let vstr := match v with
                  | Ziplist.ZStr vstr => vstr
                  | Ziplist.ZInt vlong => ll2string vlong
                  end in
      let vlen := Z.of_nat (List.length vstr) in
      let clen := Z.of_nat (List.length cstr) in
      let minlen := if vlen <? clen then vlen else clen in
      let cmp := memcmp (take (Z.to_nat minlen) vstr) (take (Z.to_nat minlen) cstr) in
      if cmp =? 0 then ret (sint 32 (vlen - clen)) else ret cmp
  end.

(** [zzlLength(zl)]: the count, and the blob, whose count field
    [ziplistLen] may have stored again. *)
Definition zzlLength (zl : list Z) : M (Z * list Z) :=
  l <- lift (Ziplist.ziplistLen BIG_ENDIAN zl);;
  ret (fst l / 2, snd l).

(** [zzlNext(zl, &eptr, &sptr)]. *)
Definition zzlNext (zl : list Z) (eptr sptr : option Z) : M (option Z * option Z) :=
  match eptr, sptr with
  | Some _, Some s =>
      _eptr <- lift (Ziplist.ziplistNext zl s);;
      match _eptr with
      | Some e =>
          _sptr <- lift (Ziplist.ziplistNext zl e);;
          match _sptr with
          | Some _ => ret (_eptr, _sptr)
          | None => fail AssertFailed
          end
      | None => (* No next entry. *) ret (None, None)
      end
  | _, _ => fail AssertFailed
  end.

(** The [while (eptr != NULL)] loop of [zzlFind]. *)
Fixpoint zzlFind_loop (fuel : nat) (zl : list Z) (eptr : option Z) (ele : list Z)
  : M (option (Z * spec_float)) :=
  match eptr with
  | None => ret None
  | Some e =>
      match fuel with
      | O => fail OutOfFuel
      | S fuel' =>
          sptr <- lift (Ziplist.ziplistNext zl e);;
          match sptr with
          | None => fail AssertFailed
          | Some s =>
              c <- lift (Ziplist.ziplistCompare BIG_ENDIAN zl e ele);;
              if c then
                (* Matching element, pull out score. *)
                sc <- zzlGetScore zl sptr;; ret (Some (e, sc))
              else
                (* Move to next element. *)
                next <- lift (Ziplist.ziplistNext zl s);;
                zzlFind_loop fuel' zl next ele
          end
      end
  end.

(** [zzlFind(zl, ele, &score)]: the entry and its score, or NULL. *)
Definition zzlFind (zl : list Z) (ele : list Z) : M (option (Z * spec_float)) :=
  eptr <- lift (Ziplist.ziplistIndex BIG_ENDIAN zl 0);;
  zzlFind_loop (List.length zl) zl eptr ele.

(** [zzlDelete(zl, eptr)]. *)
Definition zzlDelete (zl : list Z) (eptr : Z) : M (list Z) :=
  r <- lift (Ziplist.ziplistDelete BIG_ENDIAN zl eptr);;
  r <- lift (Ziplist.ziplistDelete BIG_ENDIAN (fst r) (snd r));;
  ret (fst r).

(** [zzlInsertAt(zl, eptr, ele, score)]. *)
Definition zzlInsertAt (zl : list Z) (eptr : option Z) (ele : list Z) (sc : spec_float)
  : M (list Z) :=
  let scorebuf := d2string sc in
  match eptr with
  | None =>
      zl <- lift (Ziplist.ziplistPush BIG_ENDIAN zl ele Ziplist.ZIPLIST_TAIL);;
      lift (Ziplist.ziplistPush BIG_ENDIAN zl scorebuf Ziplist.ZIPLIST_TAIL)
  | Some e =>
      zl <- lift (Ziplist.ziplistInsert BIG_ENDIAN zl e ele);;
      (* Insert score after the element. *)
      sptr <- lift (Ziplist.ziplistNext zl e);;
      match sptr with
      | None => fail AssertFailed
      | Some s => lift (Ziplist.ziplistInsert BIG_ENDIAN zl s scorebuf)
      end
  end.

(** The [while (eptr != NULL)] loop of [zzlInsert], and the push on the tail
    that follows it. *)
Fixpoint zzlInsert_loop (fuel : nat) (zl : list Z) (eptr : option Z) (ele : list Z)
  (sc : spec_float) : M (list Z) :=
  match eptr with
  | None => (* Push on tail of list when it was not yet inserted. *)
      zzlInsertAt zl None ele sc
  | Some e =>
      match fuel with
      | O => fail OutOfFuel
      | S fuel' =>
          sptr <- lift (Ziplist.ziplistNext zl e);;
          match sptr with
          | None => fail AssertFailed
          | Some s =>
              s0 <- zzlGetScore zl sptr;;
              if dlt sc s0 then zzlInsertAt zl eptr ele sc
              else
                c <- (if deq s0 sc then zzlCompareElements zl e ele else ret 0);;
                if deq s0 sc && (c >? 0) then zzlInsertAt zl eptr ele sc
                else
                  (* Move to next element. *)
                  next <- lift (Ziplist.ziplistNext zl s);;
                  zzlInsert_loop fuel' zl next ele sc
          end
      end
  end.

(** [zzlInsert(zl, ele, score)]. *)
Definition zzlInsert (zl : list Z) (ele : list Z) (sc : spec_float) : M (list Z) :=
  eptr <- lift (Ziplist.ziplistIndex BIG_ENDIAN zl 0);;
  zzlInsert_loop (List.length zl) zl eptr ele sc.

(** The [while (eptr != NULL)] loop of [zsetConvert], from the packed to
    the large form. *)
Fixpoint convert_loop (fuel : nat) (zl : list Z) (eptr sptr : option Z)
  (h : list (option zskiplistNode)) (zs : zset) (draws : list Z)
  : M (list (option zskiplistNode) * zset * list Z) :=
  match eptr with
  | None => ret (h, zs, draws)
  | Some e =>
      match fuel with
      | O => fail OutOfFuel
      | S fuel' =>
          sc <- zzlGetScore zl sptr;;
          ele <- zzlGetElement zl e;;
          s <- zslInsert compareStringObjects h (zsl zs) sc ele draws;;
          let '(h, z, node, draws) := s in
          r <- lift (Dict.dictAdd _ _ hashFunction keyCompare dict_can_resize
                       (dict zs) ele node);;
          let '(d, st) := r in
          if st =? Dict.DICT_OK then
            n <- zzlNext zl eptr sptr;;
            convert_loop fuel' zl (fst n) (snd n) h (mk_zset d z) draws
          else fail AssertFailed
      end
  end.

(** The [while (node)] loop of [zsetConvert], from the large to the packed
    form. *)
Fixpoint unconvert_loop (fuel : nat) (h : list (option zskiplistNode)) (zl : list Z)
  (node : option nat) : M (list (option zskiplistNode) * list Z) :=
  match node with
  | None => ret (h, zl)
  | Some x =>
      match fuel with
      | O => fail OutOfFuel
      | S fuel' =>
          xn <- deref h x;; ele <- node_obj xn;;
          zl <- zzlInsertAt zl None ele (score xn);;
          next <- get_forward h x 0;;
          h <- zslFreeNode h x;;
          unconvert_loop fuel' h zl next
      end
  end.

(** [zsetConvert(zobj, encoding)]: the heap of the skip-list nodes, the
    object and the draws that are left. *)
Definition zsetConvert (h : list (option zskiplistNode)) (o : zobj) (enc : encoding)
  (draws : list Z) : M (list (option zskiplistNode) * zobj * list Z) :=
  match o, enc with
  | OBJ_ZIPLIST _, REDIS_ENCODING_ZIPLIST
  | OBJ_SKIPLIST _, REDIS_ENCODING_SKIPLIST => ret (h, o, draws)
  | OBJ_ZIPLIST zl, REDIS_ENCODING_SKIPLIST =>
      let d := Dict.dictCreate in
      let '(h, z) := zslCreate h in
      eptr <- lift (Ziplist.ziplistIndex BIG_ENDIAN zl 0);;
      match eptr with
      | None => fail AssertFailed
      | Some e =>
          sptr <- lift (Ziplist.ziplistNext zl e);;
          match sptr with
          | None => fail AssertFailed
          | Some _ =>
              s <- convert_loop (List.length zl) zl eptr sptr h (mk_zset d z) draws;;
              let '(h, zs, draws) := s in
              ret (h, OBJ_SKIPLIST zs, draws)
          end
      end
  | OBJ_SKIPLIST zs, REDIS_ENCODING_ZIPLIST =>
      zl <- lift (Ziplist.ziplistNew BIG_ENDIAN);;
      (* Approach similar to zslFree(), since we want to free the skiplist at
         the same time as creating the ziplist. *)
      node <- get_forward h (header (zsl zs)) 0;;
      h <- free h (header (zsl zs));;
      s <- unconvert_loop (List.length h) h zl node;;
      ret (fst s, OBJ_ZIPLIST (snd s), draws)
  end.

(** [zaddGenericCommand], the body of the [for] loop for one (score,
    element) pair on a set in the packed encoding. *)
Definition zadd_ziplist (incr : bool) (h : list (option zskiplistNode)) (zl : list Z)
  (sc : spec_float) (ele : list Z) (draws : list Z)
  : M (list (option zskiplistNode) * zobj * list Z * outcome) :=
  f <- zzlFind zl ele;;
  match f with
  | Some (eptr, curscore) =>
      let sc := if incr then dadd sc curscore else sc in
      if incr && isnan sc then ret (h, OBJ_ZIPLIST zl, draws, NanError)
      else
        (* Remove and re-insert when score changed. *)
        if negb (deq sc curscore) then
          zl <- zzlDelete zl eptr;;
          zl <- zzlInsert zl ele sc;;
          ret (h, OBJ_ZIPLIST zl, draws, Done)
        else ret (h, OBJ_ZIPLIST zl, draws, Done)
  | None =>
      (* Optimize: check if the element is too large or the list
         becomes too long *before* executing zzlInsert. *)
      zl <- zzlInsert zl ele sc;;
      l <- zzlLength zl;;
      let '(len, zl) := l in
      s <- (if len >? zset_max_ziplist_entries
            then zsetConvert h (OBJ_ZIPLIST zl) REDIS_ENCODING_SKIPLIST draws
            else ret (h, OBJ_ZIPLIST zl, draws));;
      s <- (if Z.of_nat (List.length ele) >? zset_max_ziplist_value
            then zsetConvert (fst (fst s)) (snd (fst s)) REDIS_ENCODING_SKIPLIST (snd s)
            else ret s);;
      ret (s, Done)
  end.

(** [zaddGenericCommand] for one (score, element) pair, on either
    encoding. *)
Definition zadd_one (incr : bool) (h : list (option zskiplistNode)) (o : zobj)
  (sc : spec_float) (ele : list Z) (draws : list Z)
  : M (list (option zskiplistNode) * zobj * list Z * outcome) :=
  match o with
  | OBJ_ZIPLIST zl => zadd_ziplist incr h zl sc ele draws
  | OBJ_SKIPLIST zs =>
      r <- zadd_skiplist incr h zs sc ele draws;;
      let '(h, zs, draws, out) := r in
      ret (h, OBJ_SKIPLIST zs, draws, out)
  end.

(** The (score, element) pairs a packed set holds, from head to tail, as
    its accessors read them: the traversal of [zsetConvert], without what it
    builds. *)
Fixpoint zzl_read (fuel : nat) (zl : list Z) (eptr sptr : option Z)
  : M (list (spec_float * list Z)) :=
  match eptr with
  | None => ret []
  | Some e =>
      match fuel with
      | O => fail OutOfFuel
      | S fuel' =>
          sc <- zzlGetScore zl sptr;;
          ele <- zzlGetElement zl e;;
          n <- zzlNext zl eptr sptr;;
          rest <- zzl_read fuel' zl (fst n) (snd n);;
          ret ((sc, ele) :: rest)
      end
  end.

Definition zzl_pairs (zl : list Z) : M (list (spec_float * list Z)) :=
  eptr <- lift (Ziplist.ziplistIndex BIG_ENDIAN zl 0);;
  match eptr with
  | None => ret []
  | Some e =>
      sptr <- lift (Ziplist.ziplistNext zl e);;
      match sptr with
      | None => fail AssertFailed
      | Some _ => zzl_read (List.length zl) zl eptr sptr
      end
  end.

(** The random source has the draws for [n] calls of [zslRandomLevel]. *)
Fixpoint draws_for (n : nat) (draws : list Z) : Prop :=
  match n with
  | O => True
  | S n' => exists lvl rest, zslRandomLevel draws = inr (lvl, rest) /\ draws_for n' rest
  end.

(** The pairs of the large form, in list order. *)
Definition zset_pairs (h : list (option zskiplistNode)) (ns : list nat)
  : list (spec_float * list Z) :=
  map (fun p => (score_at h p, elem h p)) ns.

(** *** The invariant of the large form *)

(** The key comparison of the dictionary is the equality of the elements,
    and [compareStringObjects] is a three-way comparison that finds only
    equal elements equal. *)
Hypothesis keyCompare_eq : forall a b, keyCompare a b = true <-> a = b.
Hypothesis cmp_antisym :
  forall a b, Z.sgn (compareStringObjects a b) = - Z.sgn (compareStringObjects b a).
Hypothesis cmp_trans :
  forall a b c, compareStringObjects a b <= 0 -> compareStringObjects b c <= 0 ->
                compareStringObjects a c <= 0.
Hypothesis cmp_eq : forall a b, compareStringObjects a b = 0 -> a = b.

Lemma keyCompare_sym a b : keyCompare a b = keyCompare b a.
Proof.
  apply Bool.eq_iff_eq_true. rewrite !keyCompare_eq. split; congruence.
Qed.

Lemma keyCompare_hash a b : keyCompare a b = true -> hashFunction a = hashFunction b.
Proof. rewrite keyCompare_eq. now intros ->. Qed.

Lemma keyCompare_refl a : keyCompare a a = true.
Proof. now apply keyCompare_eq. Qed.

(** The entry the dictionary has for the node at [p]. *)
Definition entry_of (h : list (option zskiplistNode)) (p : nat)
  : Dict.dictEntry (list Z) nat :=
  Dict.mk_dictEntry (elem h p) (Some p).

(** The heap [h] holds the set [zs], whose nodes are in list order those at
    [ns]: the skip list is well formed and in the order of the pairs, the
    dictionary is well formed, and it has one entry for each node, from
    the node's element to the node. *)
Definition zset_rep (h : list (option zskiplistNode)) (zs : zset) (ns : list nat) : Prop :=
  zsl_rep h (zsl zs) ns /\
  key_sorted compareStringObjects h ns /\ scores_ok h ns /\
  Z.of_nat (List.length ns) < 2^30 /\
  Dict.dict_wf _ _ hashFunction keyCompare (dict zs) /\
  Dict.entries (dict zs) ≡ₚ map (entry_of h) ns.

Lemma distinct_keys_map h l :
  Dict.distinct_keys _ _ keyCompare (map (entry_of h) l) ->
  forall j1 j2 p q, l !! j1 = Some p -> l !! j2 = Some q ->
                    elem h p = elem h q -> j1 = j2.
Proof.
  induction l as [|a l IH]; intros Hd j1 j2 p q Hp Hq He; [destruct j1; discriminate|].
  cbn [map Dict.distinct_keys] in Hd. destruct Hd as [Hex Hd].
  assert (Hno : forall j z, l !! j = Some z -> elem h a <> elem h z).
  { intros j z Hz Heq.
    assert (existsb (fun he => keyCompare (Dict.key (entry_of h a)) (Dict.key he))
              (map (entry_of h) l) = true) as Ht; [|congruence].
    apply existsb_exists. exists (entry_of h z). split.
    - apply in_map. apply list_elem_of_In. eapply list_elem_of_lookup_2, Hz.
    - cbn [entry_of Dict.key]. now apply keyCompare_eq. }
  destruct j1 as [|j1], j2 as [|j2].
  - reflexivity.
  - injection Hp as <-. destruct (Hno j2 q Hq He).
  - injection Hq as <-. destruct (Hno j1 p Hp). now symmetry.
  - f_equal. apply (IH Hd j1 j2 p q Hp Hq He).
Qed.

Section Entries.

Variables (h : list (option zskiplistNode)) (d : Dict.dict (list Z) nat) (ns : list nat).
Hypothesis Hwf : Dict.dict_wf _ _ hashFunction keyCompare d.
Hypothesis Hent : Dict.entries d ≡ₚ map (entry_of h) ns.

Lemma elems_distinct j1 j2 p q :
  ns !! j1 = Some p -> ns !! j2 = Some q -> elem h p = elem h q -> j1 = j2.
Proof.
  apply distinct_keys_map.
  apply (Dict.distinct_keys_perm _ _ keyCompare keyCompare_sym _ _ Hent).
  apply Hwf.
Qed.

Lemma entry_node e :
  e ∈ Dict.entries d -> exists k p, ns !! k = Some p /\ e = entry_of h p.
Proof.
  rewrite Hent. intros He. apply list_elem_of_fmap in He as (p & -> & Hp).
  apply list_elem_of_lookup_1 in Hp as [k Hk]. eauto.
Qed.

Lemma node_present k p : ns !! k = Some p -> Dict.present _ _ keyCompare d (elem h p) = true.
Proof.
  intros Hk. unfold Dict.present.
  rewrite (Dict.existsb_Permutation _ _ _ Hent).
  apply existsb_exists. exists (entry_of h p). split.
  - apply in_map, list_elem_of_In. eapply list_elem_of_lookup_2, Hk.
  - apply keyCompare_refl.
Qed.

(** An entry whose key is the element of a node is the entry of that
    node. *)
Lemma entry_of_key e k p :
  e ∈ Dict.entries d -> ns !! k = Some p -> keyCompare (elem h p) (Dict.key e) = true ->
  e = entry_of h p.
Proof.
  intros He Hk Hc. destruct (entry_node e He) as (j & q & Hj & ->).
  apply keyCompare_eq in Hc. cbn [entry_of Dict.key] in Hc.
  pose proof (elems_distinct k j p q Hk Hj Hc) as <-.
  rewrite Hk in Hj. now injection Hj as <-.
Qed.

Lemma absent_elem o :
  Dict.present _ _ keyCompare d o = false -> forall p, p ∈ ns -> elem h p <> o.
Proof.
  intros Hab p Hp <-. apply list_elem_of_lookup_1 in Hp as [k Hk].
  now rewrite (node_present k p Hk) in Hab.
Qed.

End Entries.

Lemma map_entry_of_ext h h' l :
  (forall q, q ∈ l -> info_at h' q = info_at h q) ->
  map (entry_of h') l = map (entry_of h) l.
Proof.
  intros Hq. apply map_ext_in. intros q Hin. unfold entry_of.
  destruct (score_elem_info h h' q (Hq q (proj2 (list_elem_of_In _ _) Hin))) as [_ ->].
  reflexivity.
Qed.

Lemma not_in_delete (hd : nat) (ns : list nat) k x :
  NoDup (hd :: ns) -> ns !! k = Some x -> x ∉ hd :: delete k ns.
Proof.
  intros Hnd Hx.
  change (hd :: delete k ns) with (delete (S k) (hd :: ns)).
  intros Hin. apply list_elem_of_lookup_1 in Hin as [j Hj].
  assert ((hd :: ns) !! S k = Some x) as Hx' by exact Hx.
  destruct (Nat.lt_ge_cases j (S k)).
  - rewrite list_lookup_delete_lt in Hj by lia.
    pose proof (NoDup_lookup _ _ _ _ Hnd Hj Hx'). lia.
  - rewrite list_lookup_delete_ge in Hj by lia.
    pose proof (NoDup_lookup _ _ _ _ Hnd Hj Hx'). lia.
Qed.

(** The node at the index [k] has been unlinked from the skip list: the
    deletion of its element from the dictionary succeeds and restores the
    invariant. *)
Lemma remove_step h h' z z' d ns k x :
  zset_rep h (mk_zset d z) ns -> ns !! k = Some x ->
  zsl_rep h' z' (delete k ns) ->
  (forall q, q <> x -> info_at h' q = info_at h q) ->
  exists d',
    Dict.dictDelete _ _ hashFunction keyCompare d (elem h x) = Some (d', Dict.DICT_OK) /\
    zset_rep h' (mk_zset d' z') (delete k ns).
Proof.
  intros (R & Hsorted & Hscores & Hsmall & Hwf & Hent) Hx R' Hinfo.
  cbn [dict zsl] in *.
  pose proof (rep_nodup _ _ _ R) as Hnd.
  assert (Hnd' : NoDup ns) by (now apply NoDup_cons in Hnd).
  destruct (Dict.dictDelete_spec _ _ hashFunction keyCompare keyCompare_sym keyCompare_hash
              d (elem h x) Hwf) as (d' & r & Hdel & Hwf' & [(_ & Hab & _)|(-> & e & Hk & Hp)]).
  { now rewrite (node_present h d ns Hent k x Hx) in Hab. }
  exists d'. split; [exact Hdel|].
  assert (He : e = entry_of h x).
  { apply (entry_of_key h d ns Hwf Hent e k x); [|exact Hx|exact Hk].
    rewrite Hp. now left. }
  subst e.
  destruct (sorted_delete compareStringObjects h h' ns k x Hnd' Hx Hsorted Hscores Hinfo)
    as [Hsorted' Hscores'].
  split; [exact R'|]. split; [exact Hsorted'|]. split; [exact Hscores'|].
  split; [rewrite length_delete by eauto; lia|]. split; [exact Hwf'|].
  cbn [dict].
  rewrite (map_entry_of_ext h h').
  - apply (Permutation_cons_inv (a := entry_of h x)).
    rewrite <- Hp, Hent. rewrite (delete_Permutation ns k x Hx) at 1. reflexivity.
  - intros q Hq. apply Hinfo. intros ->.
    apply (not_in_delete (header z) ns k x Hnd Hx). now right.
Qed.

(** The loop of the range deletions keeps the invariant, whatever its test
    is. *)
Lemma delete_range_loop_spec cond :
  (forall n t, is_Some (obj n) -> exists b, cond n t = inr b) ->
  forall fuel h z d ns k update traversed removed,
    zset_rep h (mk_zset d z) ns ->
    (List.length ns - k <= fuel)%nat ->
    (forall i, Z.of_nat i < zsl_level z ->
       exists u p, update !! i = Some (Some u) /\ place_ok h z ns k i u p) ->
    exists h' z' d' removed' ns',
      delete_range_loop fuel cond h z d (ns !! k) update traversed removed
        = inr (h', z', d', removed') /\
      zset_rep h' (mk_zset d' z') ns' /\
      ns' `sublist_of` ns /\ (forall q, q ∈ ns' -> info_at h' q = info_at h q).
Proof.
  intros Hcond. induction fuel as [|fuel IH];
    intros h z d ns k update traversed removed Hrep Hfuel Hupd.
  all: destruct (ns !! k) as [x|] eqn:Hx;
    [|exists h, z, d, removed, ns; split; [reflexivity|split; [exact Hrep|split; auto]]].
  all: pose proof Hrep as (R & Hsorted & Hscores & Hsmall & Hwf & Hent); cbn [dict zsl] in *.
  all: pose proof (list_elem_of_lookup_2 _ _ _ Hx) as Hxin.
  all: destruct (rep_nodes _ _ _ R x Hxin) as (ox & sx & Lx & Hix & _).
  all: destruct (info_at_node _ _ _ _ _ Hix) as (xn & Hxn & Hox & _).
  all: destruct (Hcond xn traversed ltac:(rewrite Hox; eauto)) as [b Hb].
  all: cbn [delete_range_loop]; rewrite (deref_node_at _ _ _ Hxn); cbn [bind]; rewrite Hb;
    cbn [bind].
  all: destruct b;
    [|exists h, z, d, removed, ns; split; [reflexivity|split; [exact Hrep|split; auto]]].
  - apply lookup_lt_Some in Hx. lia.
  - assert (Hx' : (header z :: ns) !! S k = Some x) by exact Hx.
    rewrite (shape_next0 h z ns (rep_shape _ _ _ R) (S k) x Hx'). cbn [bind].
    destruct (zslDeleteNode_spec h z ns k x update R ltac:(lia) Hx Hupd)
      as (h1 & z1 & Hd & R1 & Hinfo1 & Hlen1 & Hhd & Hlvl).
    rewrite Hd. cbn [bind].
    assert (Hix1 : info_at h1 x = Some (Some ox, sx, Lx)) by (now rewrite Hinfo1).
    destruct (info_at_node _ _ _ _ _ Hix1) as (xn1 & Hxn1 & Hox1 & _).
    rewrite (deref_node_at _ _ _ Hxn1). cbn [bind]. unfold node_obj. rewrite Hox1.
    cbn [bind ret].
    assert (Hel : elem h x = ox) by (unfold elem; now rewrite Hxn, Hox).
    pose proof (rep_nodup _ _ _ R) as Hnd.
    assert (Hfree : zsl_rep (<[x := None]> h1) z1 (delete k ns)).
    { apply rep_free; [exact R1|]. rewrite Hhd. now apply not_in_delete. }
    assert (Hinfo2 : forall q, q <> x -> info_at (<[x := None]> h1) q = info_at h q).
    { intros q Hq. rewrite info_at_free by exact Hq. apply Hinfo1. }
    destruct (remove_step h (<[x := None]> h1) z z1 d ns k x Hrep Hx Hfree Hinfo2)
      as (d' & Hdel & Hrep').
    rewrite Hel in Hdel. rewrite Hdel. cbn [lift bind ret].
    unfold zslFreeNode. rewrite (free_ok _ _ _ Hxn1). cbn [bind].
    replace (ns !! S k) with (delete k ns !! k)
      by (rewrite list_lookup_delete_ge by lia; reflexivity).
    destruct (IH (<[x := None]> h1) z1 d' (delete k ns) k update
                (u64 (traversed + 1)) (u64 (removed + 1)) Hrep')
      as (h' & z' & d'' & removed' & ns' & Hloop & Hrep'' & Hsub & Hinfo').
    + rewrite length_delete by eauto. lia.
    + intros i Hi. destruct (Hupd i ltac:(lia)) as (u & p & Hu & Hpl).
      exists u, p. split; [exact Hu|].
      now apply (place_ok_delete h _ z z1 ns k x i u p Hnd Hx Hhd Hinfo2).
    + exists h', z', d'', removed', ns'. split; [exact Hloop|]. split; [exact Hrep''|].
      split; [etransitivity; [exact Hsub|apply sublist_delete]|].
      intros q Hq. rewrite (Hinfo' q Hq). apply Hinfo2. intros ->.
      apply (not_in_delete (header z) ns k x Hnd Hx). right.
      eapply elem_of_sublist; eassumption.
Qed.

Lemma zset_eta zs : mk_zset (dict zs) (zsl zs) = zs.
Proof. now destruct zs. Qed.

(** The two range deletions that search by a test on the nodes. *)
Lemma delete_range_by_test h zs ns P pb cond :
  zset_rep h zs ns ->
  (forall n, is_Some (obj n) -> P n = inr (pb n)) ->
  (forall n t, is_Some (obj n) -> exists b, cond n t = inr b) ->
  exists h' z' d' removed ns',
    (s <- update_search (Z.to_nat (zsl_level (zsl zs))) h P (header (zsl zs))
            (replicate (Z.to_nat ZSKIPLIST_MAXLEVEL) None);;
     let '(x, update) := s in
     x <- get_forward h x 0;;
     delete_range_loop (List.length h) cond h (zsl zs) (dict zs) x update 0 0)
    = inr (h', z', d', removed) /\
    zset_rep h' (mk_zset d' z') ns' /\
    ns' `sublist_of` ns /\ (forall q, q ∈ ns' -> info_at h' q = info_at h q).
Proof.
  intros Hrep HP Hcond. pose proof Hrep as (R & _).
  pose proof (rep_shape _ _ _ R) as Hshape.
  destruct (update_search_places h (zsl zs) ns P pb Hshape HP)
    as (k & x & update & Hs & Hk & Hent & _).
  rewrite Hs. cbn [bind]. rewrite (shape_next0 h (zsl zs) ns Hshape k x Hk). cbn [bind].
  apply (delete_range_loop_spec cond Hcond).
  - now rewrite zset_eta.
  - pose proof (shape_length_le h (zsl zs) ns Hshape). lia.
  - exact Hent.
Qed.

Lemma zslDeleteRangeByScore_spec h zs ns range :
  zset_rep h zs ns ->
  exists h' z' d' removed ns',
    zslDeleteRangeByScore h (zsl zs) range (dict zs) = inr (h', z', d', removed) /\
    zset_rep h' (mk_zset d' z') ns' /\
    ns' `sublist_of` ns /\ (forall q, q ∈ ns' -> info_at h' q = info_at h q).
Proof.
  intros Hrep. unfold zslDeleteRangeByScore.
  apply (delete_range_by_test h zs ns (score_before_min range)
           (fun n => if minex range then dle (score n) (min range)
                     else dlt (score n) (min range))); [exact Hrep| |].
  - intros n _. reflexivity.
  - intros n t _. eexists. reflexivity.
Qed.

Lemma zslDeleteRangeByLex_spec h zs ns range :
  zset_rep h zs ns ->
  exists h' z' d' removed ns',
    zslDeleteRangeByLex h (zsl zs) range (dict zs) = inr (h', z', d', removed) /\
    zset_rep h' (mk_zset d' z') ns' /\
    ns' `sublist_of` ns /\ (forall q, q ∈ ns' -> info_at h' q = info_at h q).
Proof.
  intros Hrep. unfold zslDeleteRangeByLex.
  apply (delete_range_by_test h zs ns
           (lex_before_min compareStringObjects minstring maxstring range)
           (fun n => negb (zslLexValueGteMin compareStringObjects minstring maxstring
                             (default [] (obj n)) range))); [exact Hrep| |].
  - intros n [o Ho]. unfold lex_before_min, node_obj. rewrite Ho. reflexivity.
  - intros n t [o Ho]. unfold lex_upto_max, node_obj. rewrite Ho. eexists. reflexivity.
Qed.

(** The search of [zslDeleteRangeByRank]: it ends on the node at the place
    [t], the number of nodes whose rank is below [start]. *)
Lemma rank_update_search_spec h z ns start t :
  zsl_rep h z ns -> Z.of_nat (List.length ns) < 2^32 ->
  (t <= List.length ns)%nat ->
  (forall j : nat, (1 <= j <= List.length ns)%nat ->
     (Z.of_nat j <? start) = (j <=? t)%nat) ->
  forall n k x update,
    Z.of_nat n <= zsl_level z ->
    List.length update = Z.to_nat ZSKIPLIST_MAXLEVEL ->
    (header z :: ns) !! k = Some x -> (n <= height h x)%nat -> (k <= t)%nat ->
    (forall i, (n <= i)%nat -> Z.of_nat i < zsl_level z ->
       exists u p, update !! i = Some (Some u) /\ place_ok h z ns t i u p) ->
    exists k' x' update',
      rank_update_search n h start x (Z.of_nat k) update = inr (x', Z.of_nat k', update') /\
      (header z :: ns) !! k' = Some x' /\ (k <= k' <= t)%nat /\
      ((1 <= n)%nat -> k' = t) /\
      (forall i, Z.of_nat i < zsl_level z ->
         exists u p, update' !! i = Some (Some u) /\ place_ok h z ns t i u p).
Proof.
  intros R Hsmall Ht Hcond. pose proof (rep_level _ _ _ R) as HL.
  unfold ZSKIPLIST_MAXLEVEL in *.
  induction n as [|n IH]; intros k x update HnL Hlu Hk Hh Hkt Hinv.
  - exists k, x, update. split; [reflexivity|]. split; [exact Hk|]. split; [lia|].
    split; [lia|]. intros i Hi. apply Hinv; [lia|exact Hi].
  - cbn [rank_update_search].
    destruct (walk_rank_below h z ns start t R Hsmall Ht Hcond (List.length h) k x n Hk)
      as (k1 & x1 & Hw & Hle & Hpl); [lia|lia|exact Hkt| |].
    { pose proof (shape_length_le h z ns (rep_shape _ _ _ R)). lia. }
    rewrite Hw. cbn [bind]. rewrite arr_set_nat by lia. cbn [bind].
    destruct (IH k1 x1 (<[n := Some x1]> update))
      as (k' & x' & update' & Hs & Hk' & Hle' & Hfin & Hinv');
      [lia|now rewrite length_insert|apply Hpl| |lia| |].
    { destruct Hpl as (_ & _ & Hh1 & _). lia. }
    { intros i Hi HiL. destruct (Nat.eq_dec i n) as [->|Hne].
      - exists x1, k1. split; [apply list_lookup_insert_eq; lia|exact Hpl].
      - destruct (Hinv i ltac:(lia) HiL) as (u & p & Hu & Hp).
        exists u, p. split; [rewrite list_lookup_insert_ne by lia; exact Hu|exact Hp]. }
    exists k', x', update'. split; [exact Hs|]. split; [exact Hk'|]. split; [lia|].
    split; [|exact Hinv'].
    intros _. destruct n as [|n]; [|apply Hfin; lia].
    cbn in Hs. injection Hs as <- Hkk <-. apply Nat2Z.inj in Hkk. subst k'.
    destruct (Nat.eq_dec k1 t) as [|Hne]; [assumption|exfalso].
    destruct Hpl as (_ & _ & _ & Hgap).
    destruct (lookup_lt_is_Some_2 ns k1) as [y Hy]; [lia|].
    pose proof (Hgap (S k1) y ltac:(lia) Hy) as Hy0.
    pose proof (shape_height_pos h z ns (rep_shape _ _ _ R) y
                  (list_elem_of_lookup_2 _ _ _ Hy)). lia.
Qed.

Lemma zslDeleteRangeByRank_spec h zs ns start end_ :
  zset_rep h zs ns ->
  exists h' z' d' removed ns',
    zslDeleteRangeByRank h (zsl zs) start end_ (dict zs) = inr (h', z', d', removed) /\
    zset_rep h' (mk_zset d' z') ns' /\
    ns' `sublist_of` ns /\ (forall q, q ∈ ns' -> info_at h' q = info_at h q).
Proof.
  intros Hrep. pose proof Hrep as (R & _ & _ & Hsmall & _).
  pose proof (rep_level _ _ _ R) as HL.
  set (t := Z.to_nat (Z.min (Z.max (start - 1) 0) (Z.of_nat (List.length ns)))).
  assert (Ht : (t <= List.length ns)%nat) by (subst t; lia).
  assert (Hcond : forall j : nat, (1 <= j <= List.length ns)%nat ->
            (Z.of_nat j <? start) = (j <=? t)%nat).
  { intros j Hj. subst t.
    destruct (Z.ltb_spec (Z.of_nat j) start), (Nat.leb_spec j
      (Z.to_nat (Z.min (Z.max (start - 1) 0) (Z.of_nat (List.length ns))))); try reflexivity; lia. }
  unfold zslDeleteRangeByRank.
  destruct (rank_update_search_spec h (zsl zs) ns start t R ltac:(lia) Ht Hcond
              (Z.to_nat (zsl_level (zsl zs))) O (header (zsl zs))
              (replicate (Z.to_nat ZSKIPLIST_MAXLEVEL) None))
    as (k' & x' & update' & Hs & Hk' & _ & Hfin & Hinv).
  { lia. } { now rewrite length_replicate. } { reflexivity. }
  { rewrite (rep_header_height _ _ _ R). unfold ZSKIPLIST_MAXLEVEL in *. lia. }
  { lia. } { intros i Hi. lia. }
  change 0 with (Z.of_nat 0) at 1. rewrite Hs. cbn [bind].
  rewrite (Hfin ltac:(lia)) in *.
  rewrite (shape_next0 h (zsl zs) ns (rep_shape _ _ _ R) t x' Hk'). cbn [bind].
  apply (delete_range_loop_spec (fun _ t0 => ret (t0 <=? end_))).
  - intros n t0 _. eexists. reflexivity.
  - now rewrite zset_eta.
  - pose proof (shape_length_le h (zsl zs) ns (rep_shape _ _ _ R)). lia.
  - exact Hinv.
Qed.

(** The lookup of an element: the dictionary after the rehash step, and the
    node of the element when there is one. *)
Lemma find_step h zs ns ele :
  zset_rep h zs ns ->
  exists d1 r,
    Dict.dictFind _ _ hashFunction keyCompare (dict zs) ele = Some (d1, r) /\
    zset_rep h (mk_zset d1 (zsl zs)) ns /\
    match r with
    | Some e => exists k p, ns !! k = Some p /\ e = entry_of h p /\ elem h p = ele
    | None => forall p, p ∈ ns -> elem h p <> ele
    end.
Proof.
  intros (R & Hsorted & Hscores & Hsmall & Hwf & Hent).
  destruct (Dict.dictFind_spec _ _ hashFunction keyCompare keyCompare_sym keyCompare_hash
              (dict zs) ele Hwf) as (d1 & r & Hf & Hwf1 & Hp & Hr).
  assert (Hent1 : Dict.entries d1 ≡ₚ map (entry_of h) ns) by (now rewrite Hp).
  exists d1, r. split; [exact Hf|].
  split; [exact (conj R (conj Hsorted (conj Hscores (conj Hsmall (conj Hwf1 Hent1)))))|].
  destruct r as [e|].
  - destruct Hr as [He Hk].
    destruct (entry_node h d1 ns Hent1 e He) as (k & p & Hkp & ->).
    exists k, p. split; [exact Hkp|]. split; [reflexivity|].
    apply keyCompare_eq in Hk. now symmetry.
  - intros p Hp'. apply (absent_elem h (dict zs) ns Hent ele Hr p Hp').
Qed.

Lemma resize_step h z d ns :
  zset_rep h (mk_zset d z) ns ->
  exists d', resize_if_needed d = inr d' /\ zset_rep h (mk_zset d' z) ns.
Proof.
  intros Hrep. unfold resize_if_needed.
  destruct (htNeedsResize d); [|exists d; split; [reflexivity|exact Hrep]].
  destruct Hrep as (R & Hsorted & Hscores & Hsmall & Hwf & Hent). cbn [dict zsl] in *.
  destruct (Dict.dictResize_spec _ _ hashFunction keyCompare dict_can_resize d Hwf)
    as (d' & r & Hr & Hwf' & He).
  { rewrite (Dict.dictSize_entries _ _ hashFunction keyCompare d Hwf),
      (Permutation_length Hent), length_map. exact Hsmall. }
  rewrite Hr. cbn [lift bind ret fst]. exists d'. split; [reflexivity|].
  refine (conj R (conj Hsorted (conj Hscores (conj Hsmall (conj Hwf' _))))).
  cbn [dict]. now rewrite He.
Qed.

Lemma absent_present h d ns o :
  Dict.entries d ≡ₚ map (entry_of h) ns ->
  (forall p, p ∈ ns -> elem h p <> o) ->
  Dict.present _ _ keyCompare d o = false.
Proof.
  intros Hent Hab. unfold Dict.present. rewrite (Dict.existsb_Permutation _ _ _ Hent).
  destruct (existsb _ _) eqn:E; [exfalso|reflexivity].
  apply existsb_exists in E as (e & He & Hk).
  apply in_map_iff in He as (p & <- & Hp). apply keyCompare_eq in Hk.
  apply (Hab p); [now apply list_elem_of_In|now symmetry].
Qed.

(** [zslInsert] of a pair whose element the list does not hold. *)
Lemma insert_step h z ns sc o draws lvl rest :
  zsl_rep h z ns -> key_sorted compareStringObjects h ns -> scores_ok h ns ->
  Z.of_nat (List.length ns) + 1 < 2^30 -> isnan sc = false ->
  (forall p, p ∈ ns -> elem h p <> o) ->
  zslRandomLevel draws = inr (lvl, rest) ->
  exists h' z' t,
    zslInsert compareStringObjects h z sc o draws = inr (h', z', List.length h, rest) /\
    zsl_rep h' z' (insert_at t (List.length h) ns) /\
    key_sorted compareStringObjects h' (insert_at t (List.length h) ns) /\
    scores_ok h' (insert_at t (List.length h) ns) /\
    map (entry_of h') (insert_at t (List.length h) ns)
      ≡ₚ Dict.mk_dictEntry o (Some (List.length h)) :: map (entry_of h) ns /\
    score_at h' (List.length h) = sc /\ elem h' (List.length h) = o /\
    (forall q, q <> List.length h -> info_at h' q = info_at h q).
Proof.
  intros R Hsorted Hscores Hsmall Hnan Hab Hdraw.
  destruct (zslInsert_spec compareStringObjects cmp_antisym cmp_trans h z ns R Hsorted Hscores
              sc o Hnan ltac:(lia) draws lvl rest Hdraw)
    as (h' & z' & t & Hins & Hthr & R' & Hix & Hother & Hlen).
  assert (Hx : List.length h ∉ ns).
  { intros Hin. destruct (rep_nodes _ _ _ R _ Hin) as (o' & s' & L & Hi & _).
    destruct (info_at_node _ _ _ _ _ Hi) as (n & Hn & _).
    pose proof (node_at_lt _ _ _ Hn). lia. }
  destruct (insert_sorted compareStringObjects h z ns R Hsorted Hscores sc o Hnan
              h' t (List.length h) (Z.to_nat lvl) Hthr) as [Hsorted' Hscores'];
    [|exact Hix|exact Hother|exact Hx|].
  { intros p Hp.
    destruct (before compareStringObjects (score_at h p) (elem h p) sc o) eqn:B1; [now left|].
    destruct (before compareStringObjects sc o (score_at h p) (elem h p)) eqn:B2; [now right|].
    destruct (before_total compareStringObjects cmp_antisym _ _ _ _ (Hscores p Hp) Hnan B1 B2)
      as [_ Hc].
    destruct (Hab p Hp). now apply cmp_eq. }
  destruct (info_at_node _ _ _ _ _ Hix) as (n & Hn & Ho & Hs & _).
  assert (Hsc : score_at h' (List.length h) = sc) by (unfold score_at; now rewrite Hn).
  assert (Hel : elem h' (List.length h) = o) by (unfold elem; now rewrite Hn, Ho).
  exists h', z', t. split; [exact Hins|]. split; [exact R'|]. split; [exact Hsorted'|].
  split; [exact Hscores'|]. split; [|auto].
  rewrite (insert_at_perm t (List.length h) ns). cbn [map].
  rewrite (map_entry_of_ext h h' ns).
  - unfold entry_of at 1. now rewrite Hel.
  - intros q Hq. apply Hother. intros ->. contradiction.
Qed.

(** [zaddGenericCommand] on the large form: the element is added, or its
    score is changed, or nothing is done, and the invariant holds of the
    set that results. *)
Lemma zadd_skiplist_spec incr h zs ns sc ele draws lvl rest :
  zset_rep h zs ns ->
  Z.of_nat (List.length ns) + 1 < 2^30 -> isnan sc = false ->
  zslRandomLevel draws = inr (lvl, rest) ->
  exists h' zs' draws' out ns',
    zadd_skiplist incr h zs sc ele draws = inr (h', zs', draws', out) /\
    zset_rep h' zs' ns' /\
    ((* a new element *)
     ((forall p, p ∈ ns -> elem h p <> ele) /\ out = Done /\
      exists t, ns' = insert_at t (List.length h) ns /\
                score_at h' (List.length h) = sc /\ elem h' (List.length h) = ele /\
                (forall q, q <> List.length h -> info_at h' q = info_at h q)) \/
     (* an element of the set *)
     (exists k p, ns !! k = Some p /\ elem h p = ele /\
        let sc' := if incr then dadd sc (score_at h p) else sc in
        ((* the score is changed *)
         (out = Done /\ isnan sc' = false /\ deq sc' (score_at h p) = false /\
          exists t, ns' = insert_at t (List.length h) (delete k ns) /\
                    score_at h' (List.length h) = sc' /\ elem h' (List.length h) = ele /\
                    (forall q, q <> List.length h -> q <> p -> info_at h' q = info_at h q)) \/
         (* the set is left as it is *)
         (h' = h /\ ns' = ns /\ zsl zs' = zsl zs /\
          ((out = Done /\ deq sc' (score_at h p) = true) \/
           (out = NanError /\ incr = true /\ isnan sc' = true)))))).
Proof.
  intros Hrep Hsmall Hnan Hdraw.
  destruct (find_step h zs ns ele Hrep) as (d1 & r & Hf & Hrep1 & Hr).
  pose proof Hrep1 as (R & Hsorted & Hscores & _ & Hwf1 & Hent1). cbn [dict zsl] in *.
  unfold zadd_skiplist. rewrite Hf. cbn [lift bind ret].
  destruct r as [e|].
  - (* the element is in the set *)
    destruct Hr as (k & p & Hk & -> & Hel).
    pose proof (list_elem_of_lookup_2 _ _ _ Hk) as Hpin.
    destruct (rep_nodes _ _ _ R p Hpin) as (op & sp & Lp & Hip & _).
    destruct (info_at_node _ _ _ _ _ Hip) as (pn & Hpn & Hop & Hsp & _).
    cbn [entry_of Dict.v Dict.key lift bind ret].
    rewrite (deref_node_at _ _ _ Hpn). cbn [bind].
    assert (Hcur : score pn = score_at h p) by (unfold score_at; now rewrite Hpn).
    rewrite Hcur.
    set (sc' := if incr then dadd sc (score_at h p) else sc).
    destruct (incr && isnan sc') eqn:Hchk.
    { apply andb_true_iff in Hchk as [-> Hn'].
      exists h, (mk_zset d1 (zsl zs)), draws, NanError, ns.
      split; [reflexivity|]. split; [exact Hrep1|]. right. exists k, p.
      split; [exact Hk|]. split; [exact Hel|]. right. cbn [zsl]. auto 10. }
    assert (Hnan' : isnan sc' = false).
    { destruct incr; [exact Hchk|exact Hnan]. }
    destruct (deq sc' (score_at h p)) eqn:Hdeq; cbn [negb].
    { exists h, (mk_zset d1 (zsl zs)), draws, Done, ns.
      split; [reflexivity|]. split; [exact Hrep1|]. right. exists k, p.
      split; [exact Hk|]. split; [exact Hel|]. right. cbn [zsl]. auto 10. }
    destruct (zslDelete_spec compareStringObjects cmp_antisym cmp_trans h (zsl zs) ns
                R Hsorted Hscores ltac:(lia) k p Hk)
      as (h1 & z1 & Hdel & R1 & Hinfo1 & Hlen1 & Hhd).
    rewrite Hdel. cbn [bind]. change (1 =? 0) with false. cbv iota.
    pose proof (rep_nodup _ _ _ R) as Hnd.
    assert (Hnd' : NoDup ns) by (now apply NoDup_cons in Hnd).
    destruct (sorted_delete compareStringObjects h h1 ns k p Hnd' Hk Hsorted Hscores Hinfo1)
      as [Hsorted1 Hscores1].
    assert (Hin1 : forall q, q ∈ delete k ns -> q ∈ ns /\ q <> p).
    { intros q Hq. split; [now apply list_elem_of_delete_inv in Hq|].
      intros ->. apply (not_in_delete (header (zsl zs)) ns k p Hnd Hk). now right. }
    destruct (insert_step h1 z1 (delete k ns) sc' (elem h p) draws lvl rest
                R1 Hsorted1 Hscores1) as (h2 & z2 & t & Hins & R2 & Hsorted2 & Hscores2 &
                                          Hmap2 & Hsc2 & Hel2 & Hinfo2).
    { rewrite length_delete by eauto. lia. } { exact Hnan'. }
    { intros q Hq Heq. destruct (Hin1 q Hq) as [Hqin Hne].
      destruct (score_elem_info h h1 q (Hinfo1 q Hne)) as [_ Heq'].
      rewrite Heq' in Heq.
      apply list_elem_of_lookup_1 in Hqin as [j Hj].
      pose proof (elems_distinct h d1 ns Hwf1 Hent1 j k q p Hj Hk Heq) as ->.
      rewrite Hk in Hj. now injection Hj as ->. }
    { exact Hdraw. }
    rewrite Hins. cbn [bind].
    destruct (Dict.dictSetFoundVal_spec _ _ hashFunction keyCompare keyCompare_sym keyCompare_hash
                d1 (elem h p) (List.length h1) Hwf1 (node_present h d1 ns Hent1 k p Hk))
      as (d2 & e' & rest' & Hset & Hwf2 & Hk' & Hp1 & Hp2).
    rewrite Hset. cbn [lift bind ret].
    assert (He' : e' = entry_of h p).
    { apply (entry_of_key h d1 ns Hwf1 Hent1 e' k p); [|exact Hk|exact Hk'].
      rewrite Hp1. now left. }
    subst e'. cbn [entry_of Dict.key] in Hp2.
    assert (Hrest : rest' ≡ₚ map (entry_of h1) (delete k ns)).
    { rewrite (map_entry_of_ext h h1) by (intros q Hq; apply Hinfo1, (Hin1 q Hq)).
      apply (Permutation_cons_inv (a := entry_of h p)).
      rewrite <- Hp1, Hent1. rewrite (delete_Permutation ns k p Hk) at 1. reflexivity. }
    exists h2, (mk_zset d2 z2), rest, Done, (insert_at t (List.length h1) (delete k ns)).
    split; [reflexivity|]. split.
    { refine (conj R2 (conj Hsorted2 (conj Hscores2 (conj _ (conj Hwf2 _))))).
      - rewrite length_insert_at, length_delete by eauto.
        apply lookup_lt_Some in Hk. lia.
      - cbn [dict]. now rewrite Hmap2, Hp2, Hrest. }
    right. exists k, p. split; [exact Hk|]. split; [exact Hel|]. left.
    rewrite <- Hlen1. split; [reflexivity|]. split; [exact Hnan'|]. split; [exact Hdeq|].
    exists t. split; [reflexivity|]. split; [exact Hsc2|]. split; [now rewrite Hel2|].
    intros q Hq Hqp. rewrite Hinfo2 by exact Hq. now apply Hinfo1.
  - (* a new element *)
    destruct (insert_step h (zsl zs) ns sc ele draws lvl rest R Hsorted Hscores Hsmall Hnan
                Hr Hdraw) as (h' & z' & t & Hins & R' & Hsorted' & Hscores' &
                              Hmap' & Hsc' & Hel' & Hinfo').
    rewrite Hins. cbn [bind].
    destruct (Dict.dictAdd_spec _ _ hashFunction keyCompare dict_can_resize
                keyCompare_sym keyCompare_hash d1 ele (List.length h) Hwf1)
      as (d2 & st & Hadd & Hwf2 & Hst & Hiff & Hok).
    { rewrite (Dict.dictSize_entries _ _ hashFunction keyCompare d1 Hwf1),
        (Permutation_length Hent1), length_map. lia. }
    assert (st = Dict.DICT_OK) as ->.
    { destruct Hst as [|He]; [assumption|]. apply Hiff in He.
      now rewrite (absent_present h d1 ns ele Hent1 Hr) in He. }
    rewrite Hadd. cbn [lift bind ret]. change (Dict.DICT_OK =? Dict.DICT_OK) with true.
    cbv iota.
    pose proof (Hok eq_refl) as Hp2.
    exists h', (mk_zset d2 z'), rest, Done, (insert_at t (List.length h) ns).
    split; [reflexivity|]. split.
    { refine (conj R' (conj Hsorted' (conj Hscores' (conj _ (conj Hwf2 _))))).
      - rewrite length_insert_at. lia.
      - cbn [dict]. now rewrite Hmap', Hp2, Hent1. }
    left. split; [exact Hr|]. split; [reflexivity|]. exists t. auto.
Qed.

(** [zremCommand] on the large form. *)
Lemma zrem_skiplist_spec h zs ns ele :
  zset_rep h zs ns ->
  exists h' zs' deleted ns',
    zrem_skiplist h zs ele = inr (h', zs', deleted) /\
    zset_rep h' zs' ns' /\
    (((forall p, p ∈ ns -> elem h p <> ele) /\ deleted = 0 /\ h' = h /\ ns' = ns) \/
     (exists k p, ns !! k = Some p /\ elem h p = ele /\ deleted = 1 /\
                  ns' = delete k ns /\
                  (forall q, q <> p -> info_at h' q = info_at h q))).
Proof.
  intros Hrep.
  destruct (find_step h zs ns ele Hrep) as (d1 & r & Hf & Hrep1 & Hr).
  pose proof Hrep1 as (R & Hsorted & Hscores & Hsmall & Hwf1 & Hent1). cbn [dict zsl] in *.
  unfold zrem_skiplist. rewrite Hf. cbn [lift bind ret].
  destruct r as [e|].
  - destruct Hr as (k & p & Hk & -> & Hel).
    pose proof (list_elem_of_lookup_2 _ _ _ Hk) as Hpin.
    destruct (rep_nodes _ _ _ R p Hpin) as (op & sp & Lp & Hip & _).
    destruct (info_at_node _ _ _ _ _ Hip) as (pn & Hpn & Hop & Hsp & _).
    cbn [entry_of Dict.v Dict.key lift bind ret].
    rewrite (deref_node_at _ _ _ Hpn). cbn [bind].
    assert (Hcur : score pn = score_at h p) by (unfold score_at; now rewrite Hpn).
    rewrite Hcur, <- Hel.
    destruct (zslDelete_spec compareStringObjects cmp_antisym cmp_trans h (zsl zs) ns
                R Hsorted Hscores ltac:(lia) k p Hk)
      as (h1 & z1 & Hdel & R1 & Hinfo1 & Hlen1 & Hhd).
    rewrite Hdel. cbn [bind]. change (1 =? 0) with false. cbv iota.
    destruct (remove_step h h1 (zsl zs) z1 d1 ns k p Hrep1 Hk R1 Hinfo1) as (d2 & Hdd & Hrep2).
    rewrite Hdd. cbn [lift bind ret fst].
    destruct (resize_step h1 z1 d2 (delete k ns) Hrep2) as (d3 & Hrs & Hrep3).
    rewrite Hrs. cbn [bind ret].
    exists h1, (mk_zset d3 z1), 1, (delete k ns).
    split; [reflexivity|]. split; [exact Hrep3|]. right. exists k, p. auto 10.
  - exists h, (mk_zset d1 (zsl zs)), 0, ns. split; [reflexivity|]. split; [exact Hrep1|].
    left. auto.
Qed.

(** [zremrangeGenericCommand] on the large form. *)
Lemma zremrange_skiplist_spec h zs ns rt :
  zset_rep h zs ns ->
  exists h' zs' deleted ns',
    zremrange_skiplist h zs rt = inr (h', zs', deleted) /\ zset_rep h' zs' ns' /\
    ns' `sublist_of` ns /\ (forall q, q ∈ ns' -> info_at h' q = info_at h q).
Proof.
  intros Hrep. unfold zremrange_skiplist.
  assert (Hfin : forall s : M (list (option zskiplistNode) * zskiplist
                                 * Dict.dict (list Z) nat * Z),
    (exists h1 z1 d1 removed ns1, s = inr (h1, z1, d1, removed) /\
                                  zset_rep h1 (mk_zset d1 z1) ns1 /\
       ns1 `sublist_of` ns /\ (forall q, q ∈ ns1 -> info_at h1 q = info_at h q)) ->
    exists h' zs' deleted ns',
      (s0 <- s;; let '(h0, z, d, deleted) := s0 in
       d0 <- resize_if_needed d;; ret (h0, mk_zset d0 z, deleted))
      = inr (h', zs', deleted) /\ zset_rep h' zs' ns' /\
      ns' `sublist_of` ns /\ (forall q, q ∈ ns' -> info_at h' q = info_at h q)).
  { intros s (h1 & z1 & d1 & removed & ns1 & -> & Hrep1 & Hsub & Hinfo). cbn [bind].
    destruct (resize_step h1 z1 d1 ns1 Hrep1) as (d2 & Hrs & Hrep2).
    rewrite Hrs. cbn [bind ret]. eauto 10. }
  destruct rt as [start end_|range|lexrange].
  - cbv zeta. destruct (_ || _).
    + exists h, zs, 0, ns. split; [reflexivity|]. split; [exact Hrep|]. split; auto.
    + apply Hfin, (zslDeleteRangeByRank_spec h zs ns), Hrep.
  - apply Hfin, (zslDeleteRangeByScore_spec h zs ns), Hrep.
  - apply Hfin, (zslDeleteRangeByLex_spec h zs ns), Hrep.
Qed.

(** *** The conversion from the packed form *)

(** The node and the dictionary entry of a pair whose element the set does
    not hold. *)
Lemma add_step h zs ns sc ele draws lvl rest :
  zset_rep h zs ns ->
  Z.of_nat (List.length ns) + 1 < 2^30 -> isnan sc = false ->
  (forall p, p ∈ ns -> elem h p <> ele) ->
  zslRandomLevel draws = inr (lvl, rest) ->
  exists h' z' d' t,
    zslInsert compareStringObjects h (zsl zs) sc ele draws
      = inr (h', z', List.length h, rest) /\
    Dict.dictAdd _ _ hashFunction keyCompare dict_can_resize (dict zs) ele (List.length h)
      = Some (d', Dict.DICT_OK) /\
    zset_rep h' (mk_zset d' z') (insert_at t (List.length h) ns) /\
    score_at h' (List.length h) = sc /\ elem h' (List.length h) = ele /\
    (forall q, q <> List.length h -> info_at h' q = info_at h q).
Proof.
  intros (R & Hsorted & Hscores & _ & Hwf & Hent) Hsmall Hnan Hab Hdraw.
  destruct (insert_step h (zsl zs) ns sc ele draws lvl rest R Hsorted Hscores Hsmall Hnan
              Hab Hdraw) as (h' & z' & t & Hins & R' & Hsorted' & Hscores' &
                             Hmap' & Hsc' & Hel' & Hinfo').
  destruct (Dict.dictAdd_spec _ _ hashFunction keyCompare dict_can_resize
              keyCompare_sym keyCompare_hash (dict zs) ele (List.length h) Hwf)
    as (d2 & st & Hadd & Hwf2 & Hst & Hiff & Hok).
  { rewrite (Dict.dictSize_entries _ _ hashFunction keyCompare _ Hwf),
      (Permutation_length Hent), length_map. lia. }
  assert (st = Dict.DICT_OK) as ->.
  { destruct Hst as [|He]; [assumption|]. apply Hiff in He.
    now rewrite (absent_present h (dict zs) ns ele Hent Hab) in He. }
  pose proof (Hok eq_refl) as Hp2.
  exists h', z', d2, t. split; [exact Hins|]. split; [exact Hadd|]. split; [|auto].
  refine (conj R' (conj Hsorted' (conj Hscores' (conj _ (conj Hwf2 _))))).
  - rewrite length_insert_at. lia.
  - cbn [dict]. now rewrite Hmap', Hp2, Hent.
Qed.

Lemma zset_pairs_ext h h' ns :
  (forall q, q ∈ ns -> info_at h' q = info_at h q) -> zset_pairs h' ns = zset_pairs h ns.
Proof.
  intros Hinfo. apply map_ext_in. intros q Hin.
  destruct (score_elem_info h h' q) as [-> ->]; [|reflexivity].
  apply Hinfo. now apply list_elem_of_In.
Qed.

Lemma zset_pairs_insert h h' t x ns :
  (forall q, q ∈ ns -> info_at h' q = info_at h q) ->
  zset_pairs h' (insert_at t x ns) ≡ₚ (score_at h' x, elem h' x) :: zset_pairs h ns.
Proof.
  intros Hinfo. unfold zset_pairs at 1. rewrite (insert_at_perm t x ns). cbn [map].
  constructor. now rewrite <- (zset_pairs_ext h h' ns Hinfo).
Qed.

Lemma zset_pairs_delete h ns k p :
  ns !! k = Some p ->
  zset_pairs h ns ≡ₚ (score_at h p, elem h p) :: zset_pairs h (delete k ns).
Proof.
  intros Hk. unfold zset_pairs. now rewrite (delete_Permutation ns k p Hk) at 1.
Qed.

Lemma rep_node_lt h z ns p : zsl_rep h z ns -> p ∈ ns -> (p < List.length h)%nat.
Proof.
  intros R Hp. destruct (rep_nodes _ _ _ R _ Hp) as (o' & s' & L & Hi & _).
  destruct (info_at_node _ _ _ _ _ Hi) as (n & Hn & _).
  apply (node_at_lt _ _ _ Hn).
Qed.

(** The loop of the conversion builds, from the pairs the packed list
    holds, a set that holds them. *)
Lemma convert_loop_spec zl : forall fuel eptr sptr ps h zs ns draws,
  zzl_read fuel zl eptr sptr = inr ps ->
  zset_rep h zs ns ->
  Z.of_nat (List.length ns) + Z.of_nat (List.length ps) < 2^30 ->
  NoDup (map snd ps) ->
  (forall p, p ∈ ns -> elem h p ∉ map snd ps) ->
  (forall e, e ∈ ps -> isnan (fst e) = false) ->
  draws_for (List.length ps) draws ->
  exists h' zs' draws' ns',
    convert_loop fuel zl eptr sptr h zs draws = inr (h', zs', draws') /\
    zset_rep h' zs' ns' /\
    zset_pairs h' ns' ≡ₚ ps ++ zset_pairs h ns.
Proof.
  induction fuel as [|fuel IH]; intros eptr sptr ps h zs ns draws Hread Hrep Hsmall Hnd Hab
    Hnan Hdraws.
  - destruct eptr as [e|]; [discriminate|]. injection Hread as <-.
    exists h, zs, draws, ns. split; [reflexivity|]. split; [exact Hrep|reflexivity].
  - destruct eptr as [e|].
    2:{ injection Hread as <-.
        exists h, zs, draws, ns. split; [reflexivity|]. split; [exact Hrep|reflexivity]. }
    cbn [zzl_read convert_loop] in *.
    destruct (zzlGetScore zl sptr) as [|sc]; [discriminate|]. cbn [bind] in *.
    destruct (zzlGetElement zl e) as [|ele]; [discriminate|]. cbn [bind] in *.
    destruct (zzlNext zl (Some e) sptr) as [|[eptr' sptr']]; [discriminate|]. cbn [bind fst snd] in *.
    destruct (zzl_read fuel zl eptr' sptr') as [|ps'] eqn:Hread'; [discriminate|].
    cbn [bind ret] in Hread. injection Hread as <-.
    cbn [map snd List.length] in *. apply NoDup_cons in Hnd as [Hele Hnd'].
    destruct Hdraws as (lvl & rest & Hdraw & Hdraws').
    destruct (add_step h zs ns sc ele draws lvl rest Hrep ltac:(lia))
      as (h1 & z1 & d1 & t & Hins & Hadd & Hrep1 & Hsc1 & Hel1 & Hinfo1).
    { apply (Hnan (sc, ele)). now left. }
    { intros p Hp Heq. apply (Hab p Hp). rewrite Heq. now left. }
    { exact Hdraw. }
    rewrite Hins. cbn [bind]. rewrite Hadd. cbn [lift bind ret].
    change (Dict.DICT_OK =? Dict.DICT_OK) with true. cbv iota.
    pose proof Hrep as (R & _).
    assert (Hx : List.length h ∉ ns).
    { intros Hin. pose proof (rep_node_lt h (zsl zs) ns _ R Hin). lia. }
    destruct (IH eptr' sptr' ps' h1 (mk_zset d1 z1) (insert_at t (List.length h) ns) rest
                Hread' Hrep1) as (h' & zs' & draws' & ns' & Hloop & Hrep' & Hpairs).
    { rewrite length_insert_at. lia. }
    { exact Hnd'. }
    { intros p Hp. rewrite insert_at_perm in Hp. apply elem_of_cons in Hp as [->|Hp].
      - now rewrite Hel1.
      - destruct (score_elem_info h h1 p) as [_ ->].
        + apply Hinfo1. intros ->. contradiction.
        + intros Hin. apply (Hab p Hp). now right. }
    { intros e0 He0. apply Hnan. now right. }
    { exact Hdraws'. }
    exists h', zs', draws', ns'. split; [exact Hloop|]. split; [exact Hrep'|].
    rewrite Hpairs, (zset_pairs_insert h h1 t (List.length h) ns), Hsc1, Hel1
      by (intros q Hq; apply Hinfo1; intros ->; contradiction).
    cbn [app]. symmetry. apply Permutation_middle.
Qed.

(** The set [zsetConvert] starts from: the empty list of [zslCreate] and
    the empty dictionary of [dictCreate]. *)
Lemma zset_rep_create h :
  zset_rep (fst (zslCreate h)) (mk_zset Dict.dictCreate (snd (zslCreate h))) [].
Proof.
  refine (conj (zslCreate_rep h) (conj _ (conj _ (conj _ (conj _ _))))).
  - intros j1 j2 p q _ Hp. destruct j1; discriminate.
  - intros p Hp. inversion Hp.
  - cbn. lia.
  - apply Dict.dict_wf_create.
  - reflexivity.
Qed.

(** [zsetConvert] of a packed set that holds at least one pair, to the
    large form: it returns a set that satisfies the invariant and holds the
    pairs the packed list held. *)
Lemma zsetConvert_spec h zl draws ps :
  zzl_pairs zl = inr ps -> ps <> [] ->
  Z.of_nat (List.length ps) < 2^30 ->
  NoDup (map snd ps) ->
  (forall e, e ∈ ps -> isnan (fst e) = false) ->
  draws_for (List.length ps) draws ->
  exists h' zs draws' ns,
    zsetConvert h (OBJ_ZIPLIST zl) REDIS_ENCODING_SKIPLIST draws
      = inr (h', OBJ_SKIPLIST zs, draws') /\
    zset_rep h' zs ns /\ zset_pairs h' ns ≡ₚ ps.
Proof.
  intros Hpairs Hne Hsmall Hnd Hnan Hdraws.
  unfold zsetConvert, zzl_pairs in *.
  destruct (zslCreate h) as [h0 z0] eqn:Hc.
  destruct (lift (Ziplist.ziplistIndex BIG_ENDIAN zl 0)) as [|eptr]; [discriminate|].
  cbn [bind] in *.
  destruct eptr as [e|]; [|injection Hpairs as <-; contradiction].
  destruct (lift (Ziplist.ziplistNext zl e)) as [|sptr]; [discriminate|]. cbn [bind] in *.
  destruct sptr as [s0|]; [|discriminate].
  pose proof (zset_rep_create h) as Hrep0. rewrite Hc in Hrep0. cbn [fst snd] in Hrep0.
  destruct (convert_loop_spec zl (List.length zl) (Some e) (Some s0) ps h0
              (mk_zset Dict.dictCreate z0) [] draws Hpairs Hrep0)
    as (h' & zs' & draws' & ns' & Hloop & Hrep' & Hp').
  { cbn [List.length]. lia. } { exact Hnd. } { intros p Hp. inversion Hp. }
  { exact Hnan. } { exact Hdraws. }
  rewrite Hloop. cbn [bind ret].
  exists h', zs', draws', ns'. split; [reflexivity|]. split; [exact Hrep'|].
  rewrite Hp'. cbn [zset_pairs map]. now rewrite app_nil_r.
Qed.

(** *** The invariant of the claim *)

(** What the dictionary says: for each entry, the score its value points
    to, and its key. *)
Definition dict_pairs (h : list (option zskiplistNode)) (d : Dict.dict (list Z) nat)
  : list (option (spec_float * list Z)) :=
  map (fun e => match Dict.v e with
                | Some p => match deref h p with
                            | inr n => Some (score n, Dict.key e)
                            | inl _ => None
                            end
                | None => None
                end) (Dict.entries d).

(** The pairs the dictionary holds are those of the skip list, the length
    of the skip list is the number of entries the two tables use, and the
    value of every entry is the address of the node of the list that holds
    the key of the entry. *)
Definition dual_consistent (h : list (option zskiplistNode)) (zs : zset) : Prop :=
  dict_pairs h (dict zs) ≡ₚ map Some (zsl_pairs h (zsl zs)) /\
  length (zsl zs) = Dict.dictSize (dict zs) /\
  (forall e, e ∈ Dict.entries (dict zs) ->
     exists p n, Dict.v e = Some p /\ p ∈ zsl_nodes h (zsl zs) /\
                 deref h p = inr n /\ obj n = Some (Dict.key e)).

Definition zset_ok (h : list (option zskiplistNode)) (zs : zset) : Prop :=
  exists ns, zset_rep h zs ns.

Lemma zsl_pairs_zset h zs ns : zset_rep h zs ns -> zsl_pairs h (zsl zs) = zset_pairs h ns.
Proof. intros (R & _). apply (zsl_pairs_rep h (zsl zs) ns R). Qed.

Lemma zset_rep_consistent h zs ns : zset_rep h zs ns -> dual_consistent h zs.
Proof.
  intros Hrep. pose proof Hrep as (R & _ & _ & _ & Hwf & Hent).
  assert (Hnode : forall p, p ∈ ns ->
            exists n, deref h p = inr n /\ score n = score_at h p /\
                      obj n = Some (elem h p)).
  { intros p Hp. destruct (rep_nodes _ _ _ R p Hp) as (o & sc & L & Hi & _).
    destruct (info_at_node _ _ _ _ _ Hi) as (n & Hn & Ho & Hs & _).
    exists n. split; [now apply deref_node_at|]. unfold score_at, elem.
    rewrite Hn, Ho. auto. }
  split; [|split].
  - unfold dict_pairs. rewrite Hent, (zsl_pairs_zset h zs ns Hrep).
    unfold zset_pairs. rewrite !map_map.
    erewrite map_ext_in; [reflexivity|]. intros p Hp. cbn [entry_of Dict.v Dict.key].
    destruct (Hnode p) as (n & -> & -> & _); [now apply list_elem_of_In|reflexivity].
  - rewrite (rep_length _ _ _ R),
      (Dict.dictSize_entries _ _ hashFunction keyCompare _ Hwf),
      (Permutation_length Hent), length_map. reflexivity.
  - intros e He. destruct (entry_node h (dict zs) ns Hent e He) as (k & p & Hk & ->).
    pose proof (list_elem_of_lookup_2 _ _ _ Hk) as Hp.
    destruct (Hnode p Hp) as (n & Hd & _ & Ho).
    exists p, n. split; [reflexivity|]. split; [|auto].
    now rewrite (zsl_nodes_shape h (zsl zs) ns (rep_shape _ _ _ R)).
Qed.

Lemma zset_ok_consistent h zs : zset_ok h zs -> dual_consistent h zs.
Proof. intros [ns Hrep]. now apply (zset_rep_consistent h zs ns). Qed.

Lemma in_zset_pairs h ns cur ele :
  (cur, ele) ∈ zset_pairs h ns ->
  exists k p, ns !! k = Some p /\ score_at h p = cur /\ elem h p = ele.
Proof.
  intros Hin. apply list_elem_of_fmap in Hin as (p & Heq & Hp). injection Heq as -> ->.
  apply list_elem_of_lookup_1 in Hp as [k Hk]. eauto.
Qed.

(** C1 — dual consistency of the large form.  A set in the large form whose
    skip list and dictionary are well formed and agree (fewer than 2^30
    elements) is consistent: the dictionary holds the (element, score) pairs
    of the skip list, the length of the list is the number of entries the
    tables use, and the value of each entry is the address of the node that
    holds its key.  Every core mutation returns and leaves such a set:
    [zaddGenericCommand] adding a new element (the pairs are the old ones and
    the new one) or updating the score of an element (its pair is replaced,
    or the set is left as it is when the score is equal or, for an increment,
    not a number), [zremCommand] (the pair of the element is taken out),
    [zremrangeGenericCommand] by rank, by score and by element (the pairs
    that are left are among the old ones, in their order), and [zsetConvert]
    from a packed list that holds at least one pair, distinct elements and
    no score that is not a number (the pairs are those of the packed
    list). *)
Theorem zset_dual_consistency h zs :
  zset_ok h zs ->
  dual_consistent h zs /\
  (forall incr sc ele draws lvl rest,
     length (zsl zs) + 1 < 2^30 -> isnan sc = false ->
     zslRandomLevel draws = inr (lvl, rest) ->
     exists h' zs' draws' out,
       zadd_skiplist incr h zs sc ele draws = inr (h', zs', draws', out) /\
       zset_ok h' zs' /\ dual_consistent h' zs' /\
       ((forall pr, pr ∈ zsl_pairs h (zsl zs) -> snd pr <> ele) ->
        out = Done /\ zsl_pairs h' (zsl zs') ≡ₚ (sc, ele) :: zsl_pairs h (zsl zs)) /\
       (forall cur, (cur, ele) ∈ zsl_pairs h (zsl zs) ->
          let sc' := if incr then dadd sc cur else sc in
          (out = NanError /\ incr = true /\ isnan sc' = true /\
           zsl_pairs h' (zsl zs') = zsl_pairs h (zsl zs)) \/
          (out = Done /\ deq sc' cur = true /\
           zsl_pairs h' (zsl zs') = zsl_pairs h (zsl zs)) \/
          (out = Done /\ deq sc' cur = false /\ isnan sc' = false /\
           exists others, zsl_pairs h (zsl zs) ≡ₚ (cur, ele) :: others /\
                          zsl_pairs h' (zsl zs') ≡ₚ (sc', ele) :: others))) /\
  (forall ele,
     exists h' zs' deleted,
       zrem_skiplist h zs ele = inr (h', zs', deleted) /\
       zset_ok h' zs' /\ dual_consistent h' zs' /\
       ((deleted = 0 /\ (forall pr, pr ∈ zsl_pairs h (zsl zs) -> snd pr <> ele) /\
         zsl_pairs h' (zsl zs') = zsl_pairs h (zsl zs)) \/
        (deleted = 1 /\
         exists cur, zsl_pairs h (zsl zs) ≡ₚ (cur, ele) :: zsl_pairs h' (zsl zs')))) /\
  (forall rt,
     exists h' zs' deleted,
       zremrange_skiplist h zs rt = inr (h', zs', deleted) /\
       zset_ok h' zs' /\ dual_consistent h' zs' /\
       zsl_pairs h' (zsl zs') `sublist_of` zsl_pairs h (zsl zs)) /\
  (forall h0 zl draws ps,
     zzl_pairs zl = inr ps -> ps <> [] ->
     Z.of_nat (List.length ps) < 2^30 ->
     NoDup (map snd ps) ->
     (forall e, e ∈ ps -> isnan (fst e) = false) ->
     draws_for (List.length ps) draws ->
     exists h' zs' draws',
       zsetConvert h0 (OBJ_ZIPLIST zl) REDIS_ENCODING_SKIPLIST draws
         = inr (h', OBJ_SKIPLIST zs', draws') /\
       zset_ok h' zs' /\ dual_consistent h' zs' /\
       zsl_pairs h' (zsl zs') ≡ₚ ps).
Proof.
  intros [ns Hrep]. pose proof Hrep as (R & _ & _ & _ & Hwf & Hent).
  pose proof (zsl_pairs_zset h zs ns Hrep) as Hpairs.
  split; [now apply (zset_rep_consistent h zs ns)|].
  split; [|split; [|split]].
  - (* add and update *)
    intros incr sc ele draws lvl rest Hsmall Hnan Hdraw.
    rewrite (rep_length _ _ _ R) in Hsmall.
    destruct (zadd_skiplist_spec incr h zs ns sc ele draws lvl rest Hrep Hsmall Hnan Hdraw)
      as (h' & zs' & draws' & out & ns' & Hrun & Hrep' & Hcase).
    pose proof (zsl_pairs_zset h' zs' ns' Hrep') as Hpairs'.
    exists h', zs', draws', out. split; [exact Hrun|]. split; [now exists ns'|].
    split; [now apply (zset_rep_consistent h' zs' ns')|].
    rewrite Hpairs, Hpairs'.
    destruct Hcase as [(Hab & -> & t & -> & Hsc & Hel & Hinfo)|
                       (k & p & Hk & Hel & Hcase)].
    + split.
      * intros _. split; [reflexivity|].
        rewrite (zset_pairs_insert h h' t (List.length h) ns), Hsc, Hel; [reflexivity|].
        intros q Hq. apply Hinfo. intros ->.
        pose proof (rep_node_lt h (zsl zs) ns _ R Hq). lia.
      * intros cur Hin. destruct (in_zset_pairs h ns cur ele Hin) as (j & q & Hj & _ & Hq).
        destruct (Hab q (list_elem_of_lookup_2 _ _ _ Hj) Hq).
    + split.
      * intros Hab. destruct (Hab (score_at h p, elem h p)); [|exact Hel].
        apply list_elem_of_fmap. exists p. split; [reflexivity|].
        eapply list_elem_of_lookup_2, Hk.
      * intros cur Hin. destruct (in_zset_pairs h ns cur ele Hin) as (j & q & Hj & Hcur & Hq).
        assert (j = k) as -> by (apply (elems_distinct h (dict zs) ns Hwf Hent j k q p Hj Hk);
                                 congruence).
        rewrite Hk in Hj. injection Hj as <-. rewrite Hcur in Hcase. cbv zeta in Hcase |- *.
        destruct Hcase as [(-> & Hnan' & Hdeq & t & -> & Hsc & Hel' & Hinfo)|
                           (-> & -> & Hz & [(-> & Hdeq)|(-> & -> & Hnan')])].
        -- right. right. split; [reflexivity|]. split; [exact Hdeq|]. split; [exact Hnan'|].
           exists (zset_pairs h (delete k ns)). split.
           ++ rewrite (zset_pairs_delete h ns k p Hk), Hcur, Hel. reflexivity.
           ++ rewrite (zset_pairs_insert h h' t (List.length h) (delete k ns)), Hsc, Hel';
                [reflexivity|].
              pose proof (rep_nodup _ _ _ R) as Hnd.
              intros z Hz. apply Hinfo.
              ** intros ->. apply list_elem_of_delete_inv in Hz.
                 pose proof (rep_node_lt h (zsl zs) ns _ R Hz). lia.
              ** intros ->. apply (not_in_delete (header (zsl zs)) ns k p Hnd Hk). now right.
        -- right. left. auto.
        -- left. auto.
  - (* remove *)
    intros ele.
    destruct (zrem_skiplist_spec h zs ns ele Hrep)
      as (h' & zs' & deleted & ns' & Hrun & Hrep' & Hcase).
    pose proof (zsl_pairs_zset h' zs' ns' Hrep') as Hpairs'.
    exists h', zs', deleted. split; [exact Hrun|]. split; [now exists ns'|].
    split; [now apply (zset_rep_consistent h' zs' ns')|].
    rewrite Hpairs, Hpairs'.
    destruct Hcase as [(Hab & -> & -> & ->)|(k & p & Hk & Hel & -> & -> & Hinfo)].
    + left. split; [reflexivity|]. split; [|reflexivity].
      intros [cur o] Hin Heq. cbn [snd] in Heq. subst o.
      destruct (in_zset_pairs h ns cur ele Hin) as (j & q & Hj & _ & Hq).
      destruct (Hab q (list_elem_of_lookup_2 _ _ _ Hj) Hq).
    + right. split; [reflexivity|]. exists (score_at h p).
      rewrite (zset_pairs_delete h ns k p Hk), Hel.
      rewrite (zset_pairs_ext h h' (delete k ns)); [reflexivity|].
      pose proof (rep_nodup _ _ _ R) as Hnd.
      intros q Hq. apply Hinfo. intros ->.
      apply (not_in_delete (header (zsl zs)) ns k p Hnd Hk). now right.
  - (* range deletion *)
    intros rt.
    destruct (zremrange_skiplist_spec h zs ns rt Hrep)
      as (h' & zs' & deleted & ns' & Hrun & Hrep' & Hsub & Hinfo).
    exists h', zs', deleted. split; [exact Hrun|]. split; [now exists ns'|].
    split; [now apply (zset_rep_consistent h' zs' ns')|].
    rewrite Hpairs, (zsl_pairs_zset h' zs' ns' Hrep'), (zset_pairs_ext h h' ns' Hinfo).
    now apply fmap_sublist.
  - (* conversion *)
    intros h0 zl draws ps Hps Hne Hsmall Hnd Hnan Hdraws.
    destruct (zsetConvert_spec h0 zl draws ps Hps Hne Hsmall Hnd Hnan Hdraws)
      as (h' & zs' & draws' & ns' & Hrun & Hrep' & Hp').
    exists h', zs', draws'. split; [exact Hrun|]. split; [now exists ns'|].
    split; [now apply (zset_rep_consistent h' zs' ns')|].
    now rewrite (zsl_pairs_zset h' zs' ns' Hrep').
Qed.

(** *** The promotion of the packed form *)

Lemma zsetConvert_same h zs draws :
  zsetConvert h (OBJ_SKIPLIST zs) REDIS_ENCODING_SKIPLIST draws
  = inr (h, OBJ_SKIPLIST zs, draws).
Proof. reflexivity. Qed.
(** The entries of a packed set that holds the pairs [fps]: for each pair
    the element, then the text of the score, as [zzlInsertAt] writes them.
    The flag of a pair tells whether the [prev_entry_length] field of its
    score entry has five bytes; that of an element entry has one, since the
    entry of a score is shorter than 254 bytes. *)
Definition zzl_entries (fps : list (bool * (spec_float * list Z)))
  : list (bool * list Z) :=
  flat_map (fun fp => [(false, snd (snd fp)); (fst fp, d2string (fst (snd fp)))]) fps.

(** The packed list of the pairs [fps]. *)
Definition packed (fps : list (bool * (spec_float * list Z))) : list Z :=
  Ziplist.layout (zzl_entries fps).

(** What the accessors need of the functions that are not among the
    sources: [ll2string] gives back the text of an element that the packed
    list keeps as a number, the text [d2string] makes of a score is shorter
    than the buffer of [zzlGetScore], and [strtod] (or the conversion of the
    number, when the packed list keeps the text as a number) gives back the
    score. *)
Definition elem_text (e : list Z) : Prop :=
  forall v enc, Ziplist.zipTryEncoding e = Some (v, enc) -> ll2string v = e.

Definition score_text (sc : spec_float) : Prop :=
  Z.of_nat (List.length (d2string sc)) < 128 /\
  match Ziplist.zipTryEncoding (d2string sc) with
  | Some (v, _) => of_Z v = sc
  | None => strtod (d2string sc) = sc
  end.

Definition pair_text (p : spec_float * list Z) : Prop :=
  score_text (fst p) /\ elem_text (snd p).

(** The comparison [zzlCompareElements] makes of two strings. *)
Definition elem_cmp (vstr cstr : list Z) : Z :=
  let vlen := Z.of_nat (List.length vstr) in
  let clen := Z.of_nat (List.length cstr) in
  let minlen := if vlen <? clen then vlen else clen in
  let cmp := memcmp (take (Z.to_nat minlen) vstr) (take (Z.to_nat minlen) cstr) in
  if cmp =? 0 then sint 32 (vlen - clen) else cmp.

(** The offsets of the element and of the score of the pair that follows
    the pairs [pre]. *)
Definition eoff (pre : list (bool * (spec_float * list Z))) : Z :=
  Ziplist.off (zzl_entries pre).

Definition soff (pre : list (bool * (spec_float * list Z))) (e : list Z) : Z :=
  Ziplist.off (zzl_entries pre ++ [(false, e)]).

Lemma zzl_entries_app pre more :
  zzl_entries (pre ++ more) = zzl_entries pre ++ zzl_entries more.
Proof. apply flat_map_app. Qed.

Lemma zzl_entries_at pre f sc e more :
  zzl_entries (pre ++ (f, (sc, e)) :: more)
  = zzl_entries pre ++ (false, e) :: (f, d2string sc) :: zzl_entries more.
Proof. rewrite zzl_entries_app. reflexivity. Qed.

Lemma zzl_entries_at_score pre f sc e more :
  zzl_entries (pre ++ (f, (sc, e)) :: more)
  = (zzl_entries pre ++ [(false, e)]) ++ (f, d2string sc) :: zzl_entries more.
Proof. rewrite zzl_entries_at, <- app_assoc. reflexivity. Qed.

Lemma zzl_entries_snoc pre f sc e :
  zzl_entries (pre ++ [(f, (sc, e))])
  = (zzl_entries pre ++ [(false, e)]) ++ [(f, d2string sc)].
Proof. rewrite zzl_entries_app, <- app_assoc. reflexivity. Qed.

Lemma length_zzl_entries fps : List.length (zzl_entries fps) = (2 * List.length fps)%nat.
Proof.
  induction fps as [|p fps IH]; [reflexivity|].
  change (zzl_entries (p :: fps))
    with ((false, snd (snd p)) :: (fst p, d2string (fst (snd p))) :: zzl_entries fps).
  cbn [List.length]. lia.
Qed.

Section Packed.

Variables (pre : list (bool * (spec_float * list Z))) (f : bool) (sc : spec_float)
  (e : list Z) (more : list (bool * (spec_float * list Z))).
Hypothesis Hfits : Ziplist.fits (zzl_entries (pre ++ (f, (sc, e)) :: more)).

Lemma packed_next_elem :
  Ziplist.ziplistNext (packed (pre ++ (f, (sc, e)) :: more)) (eoff pre)
  = Some (Some (soff pre e)).
Proof.
  unfold packed, eoff, soff. rewrite zzl_entries_at in *.
  now rewrite (Ziplist.layout_next BIG_ENDIAN _ _ _ _ Hfits).
Qed.

Lemma packed_next_score :
  Ziplist.ziplistNext (packed (pre ++ (f, (sc, e)) :: more)) (soff pre e)
  = Some (match more with [] => None | _ => Some (eoff (pre ++ [(f, (sc, e))])) end).
Proof.
  unfold packed, eoff, soff. rewrite zzl_entries_snoc. rewrite zzl_entries_at_score in *.
  rewrite (Ziplist.layout_next BIG_ENDIAN _ _ _ _ Hfits).
  destruct more as [|[f2 [s2 e2]] more']; reflexivity.
Qed.

Lemma packed_score :
  score_text sc ->
  zzlGetScore (packed (pre ++ (f, (sc, e)) :: more)) (Some (soff pre e)) = inr sc.
Proof.
  intros [Hlen Hval]. unfold zzlGetScore, packed, soff.
  rewrite zzl_entries_at_score in *.
  rewrite (Ziplist.layout_get BIG_ENDIAN _ _ _ _ Hfits). cbn [lift bind ret].
  unfold Ziplist.entry_value.
  destruct (Ziplist.zipTryEncoding (d2string sc)) as [[v enc]|].
  - now rewrite Hval.
  - destruct (Z.geb_spec (Z.of_nat (List.length (d2string sc))) 128); [lia|].
    now rewrite Hval.
Qed.

Lemma packed_element :
  elem_text e ->
  zzlGetElement (packed (pre ++ (f, (sc, e)) :: more)) (eoff pre) = inr e.
Proof.
  intros He. unfold zzlGetElement, packed, eoff. rewrite zzl_entries_at in *.
  rewrite (Ziplist.layout_get BIG_ENDIAN _ _ _ _ Hfits). cbn [lift bind ret].
  unfold Ziplist.entry_value.
  destruct (Ziplist.zipTryEncoding e) as [[v enc]|] eqn:E; [|reflexivity].
  now rewrite (He v enc E).
Qed.

Lemma packed_compare cstr :
  elem_text e ->
  zzlCompareElements (packed (pre ++ (f, (sc, e)) :: more)) (eoff pre) cstr
  = inr (elem_cmp e cstr).
Proof.
  intros He. unfold zzlCompareElements, packed, eoff. rewrite zzl_entries_at in *.
  rewrite (Ziplist.layout_get BIG_ENDIAN _ _ _ _ Hfits). cbn [lift bind ret].
  unfold Ziplist.entry_value, elem_cmp.
  destruct (Ziplist.zipTryEncoding e) as [[v enc]|] eqn:E.
  - rewrite (He v enc E). cbv zeta. destruct (_ =? 0); reflexivity.
  - cbv zeta. destruct (_ =? 0); reflexivity.
Qed.

Lemma packed_same_elem ele :
  elem_text e -> elem_text ele -> e <> ele ->
  Ziplist.ziplistCompare BIG_ENDIAN (packed (pre ++ (f, (sc, e)) :: more)) (eoff pre) ele
  = Some false.
Proof.
  intros He Hele Hne. unfold packed, eoff. rewrite zzl_entries_at in *.
  rewrite (Ziplist.layout_compare BIG_ENDIAN _ _ _ _ _ Hfits). f_equal.
  unfold Ziplist.entry_eqb.
  destruct (Ziplist.zipTryEncoding e) as [[v enc]|] eqn:E.
  - destruct (Ziplist.zipTryEncoding ele) as [[sval senc]|] eqn:E2; [|reflexivity].
    destruct (Z.eqb_spec v sval) as [->|]; [|reflexivity].
    exfalso. apply Hne. now rewrite <- (He _ _ E), <- (Hele _ _ E2).
  - destruct (_ =? _); [|reflexivity]. now apply bool_decide_eq_false.
Qed.

Lemma packed_zzlNext :
  zzlNext (packed (pre ++ (f, (sc, e)) :: more)) (Some (eoff pre)) (Some (soff pre e))
  = inr (match more with
         | [] => (None, None)
         | (_, (_, e2)) :: _ =>
             (Some (eoff (pre ++ [(f, (sc, e))])), Some (soff (pre ++ [(f, (sc, e))]) e2))
         end).
Proof.
  unfold zzlNext. rewrite packed_next_score. cbn [lift bind ret].
  destruct more as [|[f2 [s2 e2]] more'] eqn:Ep; [reflexivity|].
  replace (pre ++ (f, (sc, e)) :: (f2, (s2, e2)) :: more')
    with ((pre ++ [(f, (sc, e))]) ++ (f2, (s2, e2)) :: more')
    in * by (rewrite <- app_assoc; reflexivity).
  unfold packed, eoff, soff. rewrite zzl_entries_at in *.
  rewrite (Ziplist.layout_next BIG_ENDIAN _ _ _ _ Hfits). reflexivity.
Qed.

End Packed.

Lemma packed_fuel fps : (List.length fps < List.length (packed fps))%nat.
Proof.
  pose proof (Ziplist.size_layout (zzl_entries fps)) as H.
  pose proof (Ziplist.size_entries_lower (zzl_entries fps) 0) as H2.
  rewrite length_zzl_entries in H2. unfold packed, Mem.size, Ziplist.ZIPLIST_HEADER_SIZE in *.
  lia.
Qed.

Lemma packed_index fps :
  Ziplist.fits (zzl_entries fps) ->
  Ziplist.ziplistIndex BIG_ENDIAN (packed fps) 0
  = Some (match fps with [] => None | _ => Some (eoff []) end).
Proof.
  intros Hf. unfold packed. rewrite (Ziplist.layout_index_0 BIG_ENDIAN _ Hf).
  destruct fps as [|[f0 [s0 e0]] fps]; reflexivity.
Qed.

(** The accessors read the pairs of a packed list. *)
Lemma packed_read : forall (more pre : list (bool * (spec_float * list Z))) fuel f sc e,
  Ziplist.fits (zzl_entries (pre ++ (f, (sc, e)) :: more)) ->
  Forall pair_text ((sc, e) :: map snd more) ->
  (List.length more < fuel)%nat ->
  zzl_read fuel (packed (pre ++ (f, (sc, e)) :: more)) (Some (eoff pre)) (Some (soff pre e))
  = inr ((sc, e) :: map snd more).
Proof.
  induction more as [|[f2 [s2 e2]] more IH]; intros pre fuel f sc e Hf Ht Hfuel;
    (destruct fuel as [|fuel]; [cbn [List.length] in Hfuel; lia|]);
    apply Forall_cons in Ht as [[Hsc He] Ht]; cbn [fst snd] in *;
    cbn [zzl_read]; rewrite (packed_score _ _ _ _ _ Hf Hsc); cbn [bind ret];
    rewrite (packed_element _ _ _ _ _ Hf He); cbn [bind ret];
    rewrite (packed_zzlNext _ _ _ _ _ Hf); cbn [bind ret fst snd].
  - destruct fuel; reflexivity.
  - replace (pre ++ (f, (sc, e)) :: (f2, (s2, e2)) :: more)
      with ((pre ++ [(f, (sc, e))]) ++ (f2, (s2, e2)) :: more) in *
      by (rewrite <- app_assoc; reflexivity).
    cbn [map snd] in Ht |- *.
    rewrite (IH (pre ++ [(f, (sc, e))]) fuel f2 s2 e2 Hf Ht); [reflexivity|].
    cbn [List.length] in Hfuel. lia.
Qed.

Lemma packed_pairs fps :
  Ziplist.fits (zzl_entries fps) -> Forall pair_text (map snd fps) ->
  zzl_pairs (packed fps) = inr (map snd fps).
Proof.
  intros Hf Ht. unfold zzl_pairs. rewrite (packed_index fps Hf). cbn [lift bind ret].
  destruct fps as [|[f [sc e]] fps]; [reflexivity|].
  pose proof (packed_next_elem [] f sc e fps Hf) as Hn. cbn [app] in Hn.
  rewrite Hn. cbn [lift bind ret].
  apply (packed_read fps [] _ f sc e Hf Ht).
  pose proof (packed_fuel ((f, (sc, e)) :: fps)) as H. cbn [List.length app] in *. lia.
Qed.

(** [zzlFind] does not find an element the list does not hold. *)
Lemma packed_find_loop ele : forall (more pre : list (bool * (spec_float * list Z))) fuel,
  Ziplist.fits (zzl_entries (pre ++ more)) ->
  Forall pair_text (map snd more) -> elem_text ele ->
  ele ∉ map snd (map snd more) ->
  (List.length more <= fuel)%nat ->
  zzlFind_loop fuel (packed (pre ++ more))
    (match more with [] => None | _ => Some (eoff pre) end) ele = inr None.
Proof.
  induction more as [|[f [sc e]] more IH]; intros pre fuel Hf Ht Hele Hnin Hfuel.
  - destruct fuel; reflexivity.
  - destruct fuel as [|fuel]; [cbn [List.length] in Hfuel; lia|].
    cbn [map snd] in Ht, Hnin.
    apply Forall_cons in Ht as [[Hsc He] Ht]. cbn [fst snd map] in *.
    apply not_elem_of_cons in Hnin as [Hne Hnin].
    cbn [zzlFind_loop]. rewrite (packed_next_elem _ _ _ _ _ Hf). cbn [lift bind ret].
    rewrite (packed_same_elem _ _ _ _ _ Hf ele He Hele) by congruence.
    cbn [lift bind ret]. rewrite (packed_next_score _ _ _ _ _ Hf). cbn [lift bind ret].
    replace (pre ++ (f, (sc, e)) :: more) with ((pre ++ [(f, (sc, e))]) ++ more) in *
      by (rewrite <- app_assoc; reflexivity).
    specialize (IH (pre ++ [(f, (sc, e))]) fuel Hf Ht Hele Hnin).
    destruct more as [|p2 more]; [destruct fuel; reflexivity|].
    apply IH. cbn [List.length] in *. lia.
Qed.

Lemma packed_find fps ele :
  Ziplist.fits (zzl_entries fps) -> Forall pair_text (map snd fps) -> elem_text ele ->
  ele ∉ map snd (map snd fps) ->
  zzlFind (packed fps) ele = inr None.
Proof.
  intros Hf Ht Hele Hnin. unfold zzlFind. rewrite (packed_index fps Hf).
  cbn [lift bind ret].
  pose proof (packed_find_loop ele fps [] (List.length (packed fps)) Hf Ht Hele Hnin) as H.
  cbn [app] in H. destruct fps as [|p fps]; apply H; pose proof (packed_fuel []);
    try pose proof (packed_fuel (p :: fps)); lia.
Qed.

Lemma packed_length fps :
  Ziplist.fits (zzl_entries fps) ->
  zzlLength (packed fps) = inr (Z.of_nat (List.length fps), packed fps).
Proof.
  intros Hf. unfold zzlLength, packed.
  rewrite (Ziplist.layout_len BIG_ENDIAN _ Hf). cbn [lift bind ret fst snd].
  rewrite length_zzl_entries. do 2 f_equal.
  replace (Z.of_nat (2 * List.length fps)) with (Z.of_nat (List.length fps) * 2) by lia.
  apply Z_div_mult. lia.
Qed.

(** The place [zzlInsert] gives a new pair: before the first pair with a
    greater score, or with the same score and a greater element. *)
Fixpoint zzl_place (sc : spec_float) (ele : list Z) (ps : list (spec_float * list Z))
  : nat :=
  match ps with
  | [] => 0
  | (s0, e0) :: ps' =>
      if dlt sc s0 then 0
      else if deq s0 sc && (elem_cmp e0 ele >? 0) then 0
      else S (zzl_place sc ele ps')
  end.

(** The flag of the score of a new pair: the field of the score entry has
    five bytes when the entry of the element has 254 bytes or more. *)
Definition new_flag (ele : list Z) : bool := Ziplist.wide_of (Ziplist.raw false ele).

(** The pairs from the place of the insertion on, with the new pair: the
    entry of the element that follows gets the length of the new element for
    a moment, and the field of its score grows if that makes this entry
    reach 254 bytes; it does not shrink afterwards. *)
Definition zzl_put (sc : spec_float) (ele : list Z)
    (more : list (bool * (spec_float * list Z))) : list (bool * (spec_float * list Z)) :=
  (new_flag ele, (sc, ele))
  :: match more with
     | [] => []
     | (f0, (s0, e0)) :: rest =>
         (f0 || Ziplist.wide_of (Ziplist.raw (new_flag ele) e0), (s0, e0)) :: rest
     end.

Lemma map_snd_zzl_put sc ele more :
  map snd (zzl_put sc ele more) = (sc, ele) :: map snd more.
Proof. destruct more as [|[f0 [s0 e0]] rest]; reflexivity. Qed.

(** The list with the new pair stays inside the 32-bit size field and the
    16-bit count field of the header. *)
Definition room (fps : list (bool * (spec_float * list Z))) (ele : list Z) : Prop :=
  Z.of_nat (List.length (packed fps)) + Z.of_nat (List.length ele) + 256 < 2^32
  /\ 2 * Z.of_nat (List.length fps) + 2 < 65535.

(** A score entry keeps a one-byte field only after an element entry
    shorter than 254 bytes. *)
Definition flag_ok (fp : bool * (spec_float * list Z)) : Prop :=
  fst fp = false -> Ziplist.raw false (snd (snd fp)) < Ziplist.ZIP_BIGLEN.

Lemma raw_upper w s :
  Mem.size s < 2^32 -> Ziplist.raw w s <= Mem.size s + 14.
Proof.
  intros Hs. destruct (Ziplist.size_entry_body_upper s Hs) as [H _].
  unfold Ziplist.raw. destruct (Ziplist.fwidth_cases w); lia.
Qed.

Lemma score_body sc :
  score_text sc -> Mem.size (Ziplist.entry_body (d2string sc)) <= 129.
Proof.
  intros [Hl _].
  destruct (Ziplist.size_entry_body_upper (d2string sc)) as [_ H];
    [unfold Mem.size; lia|].
  specialize (H ltac:(unfold Mem.size; lia)). unfold Mem.size in *. lia.
Qed.

Lemma raw_upper_score w sc :
  score_text sc -> Ziplist.raw w (d2string sc) <= 134.
Proof.
  intros Hsc. pose proof (score_body sc Hsc).
  unfold Ziplist.raw. destruct (Ziplist.fwidth_cases w); lia.
Qed.

Lemma wide_of_score w sc :
  score_text sc -> Ziplist.wide_of (Ziplist.raw w (d2string sc)) = false.
Proof.
  intros Hsc. apply Ziplist.wide_of_small. pose proof (raw_upper_score w sc Hsc).
  unfold Ziplist.ZIP_BIGLEN. lia.
Qed.

(** The entry before an element is that of a score, or there is none. *)
Lemma last_raw_zzl fps : forall pl,
  0 <= pl <= 134 -> Forall pair_text (map snd fps) ->
  0 <= Ziplist.last_raw pl (zzl_entries fps) <= 134.
Proof.
  induction fps as [|[f [sc e]] fps IH]; intros pl Hpl Ht; [exact Hpl|].
  cbn [map snd] in Ht. apply Forall_cons in Ht as [[Hsc _] Ht]. cbn [fst] in Hsc.
  change (zzl_entries ((f, (sc, e)) :: fps))
    with ((false, e) :: (f, d2string sc) :: zzl_entries fps).
  cbn [Ziplist.last_raw]. apply IH; [|exact Ht].
  pose proof (raw_upper_score f sc Hsc). pose proof (Ziplist.raw_pos f (d2string sc)). lia.
Qed.

Lemma wide_of_last_zzl fps :
  Forall pair_text (map snd fps) ->
  Ziplist.wide_of (Ziplist.last_raw 0 (zzl_entries fps)) = false.
Proof.
  intros Ht. apply Ziplist.wide_of_small.
  pose proof (last_raw_zzl fps 0 ltac:(lia) Ht). unfold Ziplist.ZIP_BIGLEN. lia.
Qed.

Lemma fields_ok_zzl fps : forall pl,
  pl <= 134 -> Forall pair_text (map snd fps) -> Forall flag_ok fps ->
  Ziplist.fields_ok pl (zzl_entries fps).
Proof.
  induction fps as [|[f [sc e]] fps IH]; intros pl Hpl Ht Hfl; [exact I|].
  cbn [map snd] in Ht. apply Forall_cons in Ht as [[Hsc _] Ht]. cbn [fst] in Hsc.
  apply Forall_cons in Hfl as [Hf Hfl].
  change (zzl_entries ((f, (sc, e)) :: fps))
    with ((false, e) :: (f, d2string sc) :: zzl_entries fps).
  cbn [Ziplist.fields_ok]. split; [|split].
  - intros _. unfold Ziplist.ZIP_BIGLEN. lia.
  - exact Hf.
  - apply IH; [|exact Ht|exact Hfl]. apply (raw_upper_score f sc Hsc).
Qed.

Lemma room_fits fps ele :
  room fps ele -> Forall pair_text (map snd fps) -> Forall flag_ok fps ->
  Ziplist.fits (zzl_entries fps).
Proof.
  intros [H1 H2] Ht Hfl. pose proof (Ziplist.size_layout (zzl_entries fps)) as Hs.
  unfold packed, Mem.size, Ziplist.ZIPLIST_HEADER_SIZE in *.
  split; [apply fields_ok_zzl; [lia|exact Ht|exact Hfl]|].
  split; [unfold Mem.size; lia|]. rewrite length_zzl_entries. lia.
Qed.

(** A push of the pair on the tail. *)
Lemma packed_insert_tail fps sc ele :
  room fps ele -> score_text sc ->
  Forall pair_text (map snd fps) -> Forall flag_ok fps ->
  zzlInsertAt (packed fps) None ele sc = inr (packed (fps ++ zzl_put sc ele []))
  /\ Ziplist.fits (zzl_entries (fps ++ zzl_put sc ele [])).
Proof.
  intros Hr Hsc Ht Hfl. pose proof (room_fits fps ele Hr Ht Hfl) as (F0 & F1 & F2).
  destruct Hr as [H1 H2].
  pose proof (Ziplist.size_layout (zzl_entries fps)) as Hs.
  unfold packed, Mem.size, Ziplist.ZIPLIST_HEADER_SIZE in H1, Hs.
  pose proof (wide_of_last_zzl fps Ht) as Hw.
  assert (Hele : Mem.size ele < 2^32) by (unfold Mem.size in *; lia).
  pose proof (raw_upper false ele Hele) as R1.
  pose proof (raw_upper_score (new_flag ele) sc Hsc) as R2.
  set (E := zzl_entries fps) in *.
  assert (G1 : Ziplist.fits (E ++ [(false, ele)])).
  { split; [|split].
    - apply Ziplist.fields_ok_app. split; [exact F0|]. cbn [Ziplist.fields_ok].
      split; [|exact I]. intros _. apply Ziplist.wide_of_small_inv. exact Hw.
    - rewrite Ziplist.size_entries_app_le, Ziplist.size_entries_cons.
      cbn [Ziplist.entries]. rewrite Ziplist.size_nil. unfold Mem.size in *. lia.
    - rewrite length_app. subst E. rewrite length_zzl_entries. cbn [List.length]. lia. }
  assert (G2 : Ziplist.fits ((E ++ [(false, ele)]) ++ [(new_flag ele, d2string sc)])).
  { split; [|split].
    - apply Ziplist.fields_ok_app. split; [apply G1|]. cbn [Ziplist.fields_ok].
      split; [|exact I]. rewrite Ziplist.last_raw_app. cbn [Ziplist.last_raw].
      apply Ziplist.field_ok_wide_of.
    - rewrite !Ziplist.size_entries_app_le, !Ziplist.size_entries_cons.
      cbn [Ziplist.entries]. rewrite Ziplist.size_nil. unfold Mem.size in *. lia.
    - rewrite !length_app. subst E. rewrite length_zzl_entries. cbn [List.length]. lia. }
  assert (Eq : zzl_entries (fps ++ zzl_put sc ele [])
               = (E ++ [(false, ele)]) ++ [(new_flag ele, d2string sc)]).
  { unfold zzl_put. now rewrite zzl_entries_snoc. }
  rewrite Eq. split; [|exact G2].
  unfold zzlInsertAt, packed. fold E. rewrite Eq.
  pose proof (Ziplist.ziplistPush_tail BIG_ENDIAN E ele) as P1. rewrite Hw in P1.
  rewrite (P1 G1). cbn [lift bind ret].
  pose proof (Ziplist.ziplistPush_tail BIG_ENDIAN (E ++ [(false, ele)]) (d2string sc)) as P2.
  rewrite Ziplist.last_raw_app in P2. cbn [Ziplist.last_raw] in P2.
  now rewrite (P2 G2).
Qed.

Lemma wide_of_mono a b : a <= b -> Ziplist.wide_of a = true -> Ziplist.wide_of b = true.
Proof.
  intros Hab Ha. apply Ziplist.wide_of_big.
  destruct (Z.lt_ge_cases a Ziplist.ZIP_BIGLEN) as [H|H]; [|lia].
  rewrite (Ziplist.wide_of_small a H) in Ha. discriminate.
Qed.

(** An insertion of the pair before another pair. *)
Lemma packed_insert_at pre f0 s0 e0 more sc ele :
  room (pre ++ (f0, (s0, e0)) :: more) ele -> score_text sc ->
  Forall pair_text (map snd (pre ++ (f0, (s0, e0)) :: more)) ->
  Forall flag_ok (pre ++ (f0, (s0, e0)) :: more) ->
  zzlInsertAt (packed (pre ++ (f0, (s0, e0)) :: more)) (Some (eoff pre)) ele sc
  = inr (packed (pre ++ zzl_put sc ele ((f0, (s0, e0)) :: more)))
  /\ Ziplist.fits (zzl_entries (pre ++ zzl_put sc ele ((f0, (s0, e0)) :: more))).
Proof.
  intros Hr Hsc Ht Hfl. pose proof (room_fits _ ele Hr Ht Hfl) as F0.
  destruct Hr as [H1 H2].
  pose proof (Ziplist.size_layout (zzl_entries (pre ++ (f0, (s0, e0)) :: more))) as Hs.
  unfold packed, Mem.size, Ziplist.ZIPLIST_HEADER_SIZE in H1, Hs.
  rewrite map_app in Ht. apply Forall_app in Ht as [Htp Ht]. cbn [map snd] in Ht.
  apply Forall_cons in Ht as [[Hs0 _] _]. cbn [fst] in Hs0.
  pose proof (wide_of_last_zzl pre Htp) as Hw.
  assert (Hele : Mem.size ele < 2^32) by (unfold Mem.size in *; lia).
  pose proof (raw_upper false ele Hele) as R1.
  pose proof (Ziplist.raw_pos false ele) as R1'.
  pose proof (raw_upper_score (new_flag ele) sc Hsc) as R2.
  pose proof (score_body s0 Hs0) as Hb0.
  pose proof Hsc as [Hsl _].
  rewrite zzl_entries_at in F0, Hs, H1.
  rewrite length_app in H2. cbn [List.length] in H2.
  set (E := zzl_entries pre) in *. set (M := zzl_entries more) in *.
  set (wc := new_flag ele).
  set (r1 := Ziplist.raw wc e0).
  (* the element *)
  pose proof (Ziplist.insert_mid BIG_ENDIAN E ele e0 ((f0, d2string s0) :: M)) as I1.
  pose proof (Ziplist.fits_inserted E ele e0 ((f0, d2string s0) :: M)) as G1.
  pose proof (Ziplist.size_inserted E ele e0 ((f0, d2string s0) :: M)) as Z1.
  cbv zeta in I1, G1, Z1. unfold Ziplist.inserted in I1, G1, Z1.
  rewrite Hw in I1, G1, Z1.
  change (Ziplist.wide_of (Ziplist.raw false ele)) with wc in I1, G1, Z1.
  fold r1 in I1, G1, Z1.
  cbn [Ziplist.bump] in I1, G1, Z1.
  assert (Hc0 : Z.of_nat (List.length (E ++ (false, e0) :: (f0, d2string s0) :: M)) + 2
                < 65535).
  { subst E M. rewrite length_app. cbn [List.length]. rewrite !length_zzl_entries. lia. }
  assert (Hlen1 : Z.of_nat (List.length (E ++ (false, ele) :: (wc, e0)
                                           :: (f0 || Ziplist.wide_of r1, d2string s0) :: M))
                  = Z.of_nat (List.length (E ++ (false, e0) :: (f0, d2string s0) :: M)) + 1).
  { rewrite !length_app. cbn [List.length]. lia. }
  specialize (G1 F0 ltac:(lia) ltac:(unfold Mem.size in *; lia) ltac:(lia)).
  specialize (I1 F0 ltac:(lia) ltac:(unfold Mem.size in *; lia) ltac:(lia)).
  pose proof (Ziplist.growth_bound r1 ((f0, d2string s0) :: M)) as Hg1.
  pose proof (Ziplist.fwidth_cases wc) as Hwc.
  (* the score *)
  replace (E ++ (false, ele) :: (wc, e0) :: (f0 || Ziplist.wide_of r1, d2string s0) :: M)
    with ((E ++ [(false, ele)]) ++ (wc, e0)
          :: (f0 || Ziplist.wide_of r1, d2string s0) :: M) in *
    by (rewrite <- app_assoc; reflexivity).
  pose proof (Ziplist.insert_mid BIG_ENDIAN (E ++ [(false, ele)]) (d2string sc) e0
                ((f0 || Ziplist.wide_of r1, d2string s0) :: M)) as I2.
  pose proof (Ziplist.fits_inserted (E ++ [(false, ele)]) (d2string sc) e0
                ((f0 || Ziplist.wide_of r1, d2string s0) :: M)) as G2.
  cbv zeta in I2, G2. unfold Ziplist.inserted in I2, G2.
  rewrite Ziplist.last_raw_app in I2, G2. cbn [Ziplist.last_raw] in I2, G2.
  change (Ziplist.wide_of (Ziplist.raw false ele)) with wc in I2, G2.
  rewrite (wide_of_score wc sc Hsc) in I2, G2. cbn [Ziplist.bump] in I2, G2.
  assert (Hfl2 : f0 || Ziplist.wide_of r1 || Ziplist.wide_of (Ziplist.raw false e0)
                 = f0 || Ziplist.wide_of r1).
  { destruct (Ziplist.wide_of (Ziplist.raw false e0)) eqn:Ew; [|apply orb_false_r].
    rewrite (wide_of_mono (Ziplist.raw false e0) r1); [now rewrite !orb_true_r| |exact Ew].
    subst r1. unfold Ziplist.raw. cbn [Ziplist.fwidth]. lia. }
  rewrite Hfl2 in I2, G2.
  specialize (G2 G1 ltac:(lia)). specialize (I2 G1 ltac:(lia)).
  assert (Hroom2 : Mem.size (Ziplist.entries 0
                      ((E ++ [(false, ele)]) ++ (wc, e0)
                       :: (f0 || Ziplist.wide_of r1, d2string s0) :: M))
                   + Mem.size (d2string sc) + 96 < 2^32).
  { rewrite Z1. unfold Mem.size in *. cbn [Ziplist.fwidth] in *. lia. }
  specialize (G2 Hroom2 ltac:(lia)). specialize (I2 Hroom2 ltac:(lia)).
  assert (Eq : zzl_entries (pre ++ zzl_put sc ele ((f0, (s0, e0)) :: more))
               = (E ++ [(false, ele)]) ++ (wc, d2string sc) :: (false, e0)
                 :: (f0 || Ziplist.wide_of r1, d2string s0) :: M).
  { unfold zzl_put. rewrite zzl_entries_at. fold E wc r1.
    rewrite <- app_assoc. reflexivity. }
  rewrite Eq. split; [|exact G2].
  unfold zzlInsertAt, packed, eoff, Ziplist.ziplistInsert.
  rewrite zzl_entries_at, Eq. fold E M.
  rewrite I1. cbn [lift bind ret].
  replace ((E ++ [(false, ele)]) ++ (wc, e0) :: (f0 || Ziplist.wide_of r1, d2string s0) :: M)
    with (E ++ (false, ele) :: (wc, e0) :: (f0 || Ziplist.wide_of r1, d2string s0) :: M)
    in G1 |- * by (rewrite <- app_assoc; reflexivity).
  rewrite (Ziplist.layout_next BIG_ENDIAN _ _ _ _ G1). cbn [lift bind ret].
  replace (E ++ (false, ele) :: (wc, e0) :: (f0 || Ziplist.wide_of r1, d2string s0) :: M)
    with ((E ++ [(false, ele)]) ++ (wc, e0) :: (f0 || Ziplist.wide_of r1, d2string s0) :: M)
    by (rewrite <- app_assoc; reflexivity).
  rewrite I2. reflexivity.
Qed.

(** [zzlInsert] walks to the place of the new pair and inserts it there. *)
Lemma packed_insert_loop sc ele :
  forall (more pre : list (bool * (spec_float * list Z))) fuel,
    room (pre ++ more) ele -> score_text sc ->
    Forall pair_text (map snd (pre ++ more)) -> Forall flag_ok (pre ++ more) ->
    (List.length more <= fuel)%nat ->
    let k := zzl_place sc ele (map snd more) in
    zzlInsert_loop fuel (packed (pre ++ more))
      (match more with [] => None | _ => Some (eoff pre) end) ele sc
    = inr (packed (pre ++ take k more ++ zzl_put sc ele (drop k more)))
    /\ Ziplist.fits (zzl_entries (pre ++ take k more ++ zzl_put sc ele (drop k more))).
Proof.
  induction more as [|[f0 [s0 e0]] more IH]; intros pre fuel Hr Hsc Ht Hfl Hfuel.
  - rewrite app_nil_r in *. cbn [map zzl_place take drop app]. cbv zeta.
    destruct fuel; cbn [zzlInsert_loop]; now apply packed_insert_tail.
  - destruct fuel as [|fuel]; [cbn [List.length] in Hfuel; lia|].
    pose proof Ht as Ht'. rewrite map_app in Ht'. apply Forall_app in Ht' as [_ Ht'].
    cbn [map snd] in Ht'. apply Forall_cons in Ht' as [[Hs0 He0] _].
    cbn [fst snd] in *.
    pose proof (room_fits _ _ Hr Ht Hfl) as Hf.
    cbn [zzlInsert_loop zzl_place map snd]. cbv zeta.
    rewrite (packed_next_elem _ _ _ _ _ Hf). cbn [lift bind ret].
    rewrite (packed_score _ _ _ _ _ Hf Hs0). cbn [bind ret].
    destruct (dlt sc s0).
    { cbn [take drop app]. now apply packed_insert_at. }
    assert (Hc : (if deq s0 sc
                  then zzlCompareElements (packed (pre ++ (f0, (s0, e0)) :: more))
                         (eoff pre) ele
                  else ret 0)
                 = inr (if deq s0 sc then elem_cmp e0 ele else 0)).
    { destruct (deq s0 sc); [now apply packed_compare|reflexivity]. }
    rewrite Hc. cbn [bind ret].
    assert (Hcond : deq s0 sc && ((if deq s0 sc then elem_cmp e0 ele else 0) >? 0)
                    = deq s0 sc && (elem_cmp e0 ele >? 0))
      by (destruct (deq s0 sc); reflexivity).
    rewrite Hcond.
    destruct (deq s0 sc && (elem_cmp e0 ele >? 0)).
    { cbn [take drop app]. now apply packed_insert_at. }
    rewrite (packed_next_score _ _ _ _ _ Hf). cbn [lift bind ret].
    replace (pre ++ (f0, (s0, e0)) :: more) with ((pre ++ [(f0, (s0, e0))]) ++ more) in *
      by (rewrite <- app_assoc; reflexivity).
    specialize (IH (pre ++ [(f0, (s0, e0))]) fuel Hr Hsc Ht Hfl
                  ltac:(cbn [List.length] in Hfuel; lia)).
    cbv zeta in IH. cbn [take drop]. destruct IH as [IH1 IH2].
    rewrite <- (app_assoc pre [(f0, (s0, e0))] (take _ more ++ _)) in IH1, IH2.
    split; assumption.
Qed.

Lemma packed_insert fps sc ele :
  room fps ele -> score_text sc ->
  Forall pair_text (map snd fps) -> Forall flag_ok fps ->
  let k := zzl_place sc ele (map snd fps) in
  zzlInsert (packed fps) ele sc = inr (packed (take k fps ++ zzl_put sc ele (drop k fps)))
  /\ Ziplist.fits (zzl_entries (take k fps ++ zzl_put sc ele (drop k fps))).
Proof.
  intros Hr Hsc Ht Hfl k. unfold zzlInsert.
  rewrite (packed_index fps (room_fits _ _ Hr Ht Hfl)). cbn [lift bind ret].
  pose proof (packed_insert_loop sc ele fps [] (List.length (packed fps))) as H.
  cbn [app] in H. pose proof (packed_fuel fps).
  destruct fps as [|p fps]; apply H; try assumption; lia.
Qed.

(** The pairs with the new one at its place. *)
Lemma map_snd_placed k sc ele (fps : list (bool * (spec_float * list Z))) :
  map snd (take k fps ++ zzl_put sc ele (drop k fps))
  = take k (map snd fps) ++ (sc, ele) :: drop k (map snd fps).
Proof.
  rewrite map_app, map_snd_zzl_put, <- !fmap_take, <- !fmap_drop. reflexivity.
Qed.

Lemma zzl_place_perm sc ele (ps : list (spec_float * list Z)) :
  take (zzl_place sc ele ps) ps ++ (sc, ele) :: drop (zzl_place sc ele ps) ps
  ≡ₚ (sc, ele) :: ps.
Proof.
  rewrite <- Permutation_middle. now rewrite take_drop.
Qed.

Lemma flag_ok_placed k sc ele (fps : list (bool * (spec_float * list Z))) :
  Forall flag_ok fps -> Forall flag_ok (take k fps ++ zzl_put sc ele (drop k fps)).
Proof.
  intros Hfl. apply Forall_app. split; [now apply Forall_take|].
  pose proof (Forall_drop _ k _ Hfl) as Hd. unfold zzl_put.
  apply Forall_cons. split.
  - unfold flag_ok, new_flag. cbn [fst snd]. apply Ziplist.wide_of_small_inv.
  - destruct (drop k fps) as [|[f0 [s0 e0]] rest]; [constructor|].
    apply Forall_cons in Hd as [H0 Hd]. apply Forall_cons. split; [|exact Hd].
    unfold flag_ok in *. cbn [fst snd] in *. intros Hw.
    apply orb_false_iff in Hw as [Hw _]. now apply H0.
Qed.

(** What a packed set that holds the pairs [fps] keeps: the accessors read
    its scores and elements back, the fields of its score entries are wide
    enough, its elements are distinct, and no score is NaN. *)
Definition packed_ok (fps : list (bool * (spec_float * list Z))) : Prop :=
  Forall pair_text (map snd fps) /\ Forall flag_ok fps
  /\ NoDup (map snd (map snd fps))
  /\ Forall (fun p => isnan (fst p) = false) (map snd fps).

(** The list of [ziplistNew] is the packed list of no pairs. *)
Lemma packed_new : Ziplist.ziplistNew BIG_ENDIAN = Some (packed []) /\ packed_ok [].
Proof.
  split; [apply Ziplist.ziplistNew_layout|].
  split; [constructor|]. split; [constructor|]. split; constructor.
Qed.

(** C2 — promotion from the packed form.  Let a set in the packed encoding
    hold the pairs [map snd fps]: its list is [packed fps], a list as
    [ziplistNew] and [zzlInsert] build it, from which the accessors of
    t_zset.c read the pairs back.  Let the elements be distinct and no score
    be NaN.  For an element that is not among them, [zaddGenericCommand]
    returns: [zzlFind] finds nothing, [zzlInsert] returns the list with the
    pair at its place in the order, and [zzlLength] counts one pair more.
    The set is left in the packed encoding, with that list, exactly when the
    count does not exceed [server.zset_max_ziplist_entries] and the byte
    length of the element does not exceed [server.zset_max_ziplist_value];
    what the packed set keeps holds again of that list.  Otherwise the set
    is what [zsetConvert] returns for that list: a set in the skip-list
    encoding that satisfies the invariant of the large form, whose two
    structures agree, and whose skip list and dictionary hold the pairs the
    packed list held before the conversion. *)
Theorem zadd_promotes_packed incr h fps sc ele draws :
  packed_ok fps ->
  pair_text (sc, ele) -> isnan sc = false ->
  ele ∉ map snd (map snd fps) ->
  room fps ele ->
  draws_for (S (List.length fps)) draws ->
  let ps := map snd fps in
  let k := zzl_place sc ele ps in
  let fps' := take k fps ++ zzl_put sc ele (drop k fps) in
  let ps' := take k ps ++ (sc, ele) :: drop k ps in
  let promote := (Z.of_nat (List.length ps) + 1 >? zset_max_ziplist_entries)
                 || (Z.of_nat (List.length ele) >? zset_max_ziplist_value) in
  zzl_pairs (packed fps) = inr ps /\
  zzlInsert (packed fps) ele sc = inr (packed fps') /\
  zzl_pairs (packed fps') = inr ps' /\
  packed_ok fps' /\
  (promote = false ->
   zadd_one incr h (OBJ_ZIPLIST (packed fps)) sc ele draws
     = inr (h, OBJ_ZIPLIST (packed fps'), draws, Done)) /\
  (promote = true ->
   exists h' zs draws',
     zadd_one incr h (OBJ_ZIPLIST (packed fps)) sc ele draws
       = inr (h', OBJ_SKIPLIST zs, draws', Done) /\
     zsetConvert h (OBJ_ZIPLIST (packed fps')) REDIS_ENCODING_SKIPLIST draws
       = inr (h', OBJ_SKIPLIST zs, draws') /\
     zset_ok h' zs /\ dual_consistent h' zs /\
     zsl_pairs h' (zsl zs) ≡ₚ ps' /\
     dict_pairs h' (dict zs) ≡ₚ map Some ps').
Proof.
  intros (Ht & Hfl & Hnd & Hnan) [Hsc Hele] Hnansc Hnin Hroom Hdraws ps k fps' ps' promote.
  cbn [fst snd] in Hsc, Hele.
  pose proof (room_fits _ _ Hroom Ht Hfl) as Hf.
  pose proof (zzl_place_perm sc ele ps) as Hperm. fold k ps' in Hperm.
  pose proof (map_snd_placed k sc ele fps) as Hmap. fold fps' ps ps' in Hmap.
  destruct (packed_insert fps sc ele Hroom Hsc Ht Hfl) as [Hins Hf'].
  fold ps k fps' in Hins, Hf'.
  assert (Ht' : Forall pair_text (map snd fps')).
  { rewrite Hmap, Hperm. apply Forall_cons. split; [split; assumption|exact Ht]. }
  assert (Hlen : List.length ps = List.length fps) by (subst ps; apply length_map).
  assert (Hlen' : List.length ps' = S (List.length ps)).
  { apply Permutation_length in Hperm. exact Hperm. }
  assert (Hlenf : List.length fps' = S (List.length ps)).
  { rewrite <- Hlen', <- Hmap. symmetry. apply length_map. }
  pose proof (packed_pairs fps' Hf' Ht') as Hpairs'. rewrite Hmap in Hpairs'.
  assert (Hrun : zadd_one incr h (OBJ_ZIPLIST (packed fps)) sc ele draws
                 = (s <- (if Z.of_nat (List.length fps') >? zset_max_ziplist_entries
                          then zsetConvert h (OBJ_ZIPLIST (packed fps'))
                                 REDIS_ENCODING_SKIPLIST draws
                          else ret (h, OBJ_ZIPLIST (packed fps'), draws));;
                    s <- (if Z.of_nat (List.length ele) >? zset_max_ziplist_value
                          then zsetConvert (fst (fst s)) (snd (fst s))
                                 REDIS_ENCODING_SKIPLIST (snd s)
                          else ret s);;
                    ret (s, Done))).
  { unfold zadd_one, zadd_ziplist.
    rewrite (packed_find fps ele Hf Ht Hele Hnin). cbn [bind].
    rewrite Hins. cbn [bind].
    rewrite (packed_length fps' Hf'). cbn [bind]. reflexivity. }
  replace (Z.of_nat (List.length fps')) with (Z.of_nat (List.length ps) + 1) in Hrun by lia.
  split; [exact (packed_pairs fps Hf Ht)|]. split; [exact Hins|].
  split; [exact Hpairs'|]. split; [|split].
  - split; [exact Ht'|]. split; [now apply flag_ok_placed|]. split.
    + rewrite Hmap, Hperm. cbn [map]. apply NoDup_cons. split; assumption.
    + rewrite Hmap, Hperm. apply Forall_cons. split; assumption.
  - intros Hp. subst promote. apply orb_false_iff in Hp as [Hp1 Hp2].
    rewrite Hrun, Hp1, Hp2. reflexivity.
  - intros Hp. subst promote.
    destruct (zsetConvert_spec h (packed fps') draws ps' Hpairs')
      as (h' & zs & draws' & ns & Hconv & Hrep & Hps).
    { intros E. rewrite E in Hlen'. discriminate. }
    { destruct Hroom as [_ Hc]. lia. }
    { rewrite Hperm. cbn [map]. apply NoDup_cons. split; assumption. }
    { intros p Hin. rewrite Hperm in Hin. apply elem_of_cons in Hin as [->|Hin];
        [exact Hnansc|]. rewrite Forall_forall in Hnan. now apply Hnan. }
    { rewrite Hlen', Hlen. exact Hdraws. }
    pose proof (zset_rep_consistent h' zs ns Hrep) as Hdual.
    assert (Hzp : zsl_pairs h' (zsl zs) ≡ₚ ps')
      by now rewrite (zsl_pairs_zset h' zs ns Hrep), Hps.
    exists h', zs, draws'.
    split; [|split; [exact Hconv|split; [now exists ns|split; [exact Hdual|split]]]].
    + rewrite Hrun.
      destruct (Z.of_nat (List.length ps) + 1 >? zset_max_ziplist_entries).
      * rewrite Hconv. cbn [bind fst snd].
        destruct (_ >? zset_max_ziplist_value); reflexivity.
      * cbn [orb] in Hp. rewrite Hp. cbn [bind ret fst snd]. rewrite Hconv. reflexivity.
    + exact Hzp.
    + destruct Hdual as (Hd & _). rewrite Hd. now apply fmap_Permutation.
Qed.

(** *** What the range deletions remove *)

(** The loop deletes the nodes from the place [k] on for as long as its test
    holds: [m] nodes, and no more. *)
Lemma delete_range_loop_exact cond (cb : spec_float -> list Z -> Z -> bool) :
  (forall n t, is_Some (obj n) -> cond n t = inr (cb (score n) (default [] (obj n)) t)) ->
  forall fuel h z d ns k update traversed removed,
    zset_rep h (mk_zset d z) ns ->
    (List.length ns - k <= fuel)%nat -> (k <= List.length ns)%nat ->
    (forall i, Z.of_nat i < zsl_level z ->
       exists u p, update !! i = Some (Some u) /\ place_ok h z ns k i u p) ->
    0 <= traversed -> 0 <= removed ->
    traversed + Z.of_nat (List.length ns) < 2^64 ->
    removed + Z.of_nat (List.length ns) < 2^64 ->
    exists h' z' d' m,
      delete_range_loop fuel cond h z d (ns !! k) update traversed removed
        = inr (h', z', d', removed + Z.of_nat m) /\
      zset_rep h' (mk_zset d' z') (take k ns ++ drop (k + m) ns) /\
      (k + m <= List.length ns)%nat /\
      (forall j x, (j < m)%nat -> ns !! (k + j)%nat = Some x ->
         cb (score_at h x) (elem h x) (traversed + Z.of_nat j) = true) /\
      (forall x, ns !! (k + m)%nat = Some x ->
         cb (score_at h x) (elem h x) (traversed + Z.of_nat m) = false) /\
      (forall q, q ∈ take k ns ++ drop (k + m) ns -> info_at h' q = info_at h q).
Proof.
  intros Hcond. induction fuel as [|fuel IH];
    intros h z d ns k update traversed removed Hrep Hfuel Hkle Hupd Htr Hrm Htr64 Hrm64.
  all: destruct (ns !! k) as [x|] eqn:Hx.
  all: try (exists h, z, d, O; rewrite Z.add_0_r, Nat.add_0_r, take_drop;
            split; [reflexivity|]; split; [exact Hrep|]; split; [exact Hkle|];
            split; [intros j y Hj; lia|];
            split; [intros y Hy; congruence|auto]).
  all: pose proof Hrep as (R & Hsorted & Hscores & Hsmall & Hwf & Hent); cbn [dict zsl] in *.
  all: pose proof (list_elem_of_lookup_2 _ _ _ Hx) as Hxin.
  all: destruct (rep_nodes _ _ _ R x Hxin) as (ox & sx & Lx & Hix & _).
  all: destruct (info_at_node _ _ _ _ _ Hix) as (xn & Hxn & Hox & Hsx & _).
  all: assert (Hel : elem h x = ox) by (unfold elem; now rewrite Hxn, Hox).
  all: assert (Hsc : score_at h x = sx) by (unfold score_at; now rewrite Hxn, Hsx).
  all: pose proof (Hcond xn traversed ltac:(rewrite Hox; eauto)) as Hb.
  all: rewrite Hox, Hsx in Hb; cbn [from_option id] in Hb.
  all: cbn [delete_range_loop]; rewrite (deref_node_at _ _ _ Hxn); cbn [bind]; rewrite Hb;
    cbn [bind].
  all: destruct (cb sx ox traversed) eqn:Hcb.
  all: try (exists h, z, d, O; rewrite !Z.add_0_r, Nat.add_0_r, take_drop;
            split; [reflexivity|]; split; [exact Hrep|]; split; [exact Hkle|];
            split; [intros j y Hj; lia|];
            split; [intros y Hy; rewrite Hx in Hy; injection Hy as <-;
                    now rewrite Hsc, Hel|auto]).
  - apply lookup_lt_Some in Hx. lia.
  - assert (Hkl : (k < List.length ns)%nat) by (now apply lookup_lt_Some in Hx).
    assert (Hx' : (header z :: ns) !! S k = Some x) by exact Hx.
    rewrite (shape_next0 h z ns (rep_shape _ _ _ R) (S k) x Hx'). cbn [bind].
    destruct (zslDeleteNode_spec h z ns k x update R ltac:(lia) Hx Hupd)
      as (h1 & z1 & Hd & R1 & Hinfo1 & Hlen1 & Hhd & Hlvl).
    rewrite Hd. cbn [bind].
    assert (Hix1 : info_at h1 x = Some (Some ox, sx, Lx)) by (now rewrite Hinfo1).
    destruct (info_at_node _ _ _ _ _ Hix1) as (xn1 & Hxn1 & Hox1 & _).
    rewrite (deref_node_at _ _ _ Hxn1). cbn [bind]. unfold node_obj. rewrite Hox1.
    cbn [bind ret].
    pose proof (rep_nodup _ _ _ R) as Hnd.
    assert (Hfree : zsl_rep (<[x := None]> h1) z1 (delete k ns)).
    { apply rep_free; [exact R1|]. rewrite Hhd. now apply not_in_delete. }
    assert (Hinfo2 : forall q, q <> x -> info_at (<[x := None]> h1) q = info_at h q).
    { intros q Hq. rewrite info_at_free by exact Hq. apply Hinfo1. }
    destruct (remove_step h (<[x := None]> h1) z z1 d ns k x Hrep Hx Hfree Hinfo2)
      as (d' & Hdel & Hrep').
    rewrite Hel in Hdel. rewrite Hdel. cbn [lift bind ret].
    unfold zslFreeNode. rewrite (free_ok _ _ _ Hxn1). cbn [bind].
    replace (ns !! S k) with (delete k ns !! k)
      by (rewrite list_lookup_delete_ge by lia; reflexivity).
    assert (Hld : List.length (delete k ns) = (List.length ns - 1)%nat)
      by (rewrite length_delete by eauto; lia).
    assert (Hu1 : u64 (traversed + 1) = traversed + 1)
      by (unfold u64; apply Z.mod_small; lia).
    assert (Hu2 : u64 (removed + 1) = removed + 1)
      by (unfold u64; apply Z.mod_small; lia).
    rewrite Hu1, Hu2.
    destruct (IH (<[x := None]> h1) z1 d' (delete k ns) k update
                (traversed + 1) (removed + 1) Hrep')
      as (h' & z' & d'' & m & Hloop & Hrep'' & Hkm & Hin & Hout & Hinfo').
    + lia.
    + lia.
    + intros i Hi. destruct (Hupd i ltac:(lia)) as (u & p & Hu & Hpl).
      exists u, p. split; [exact Hu|].
      now apply (place_ok_delete h _ z z1 ns k x i u p Hnd Hx Hhd Hinfo2).
    + lia.
    + lia.
    + lia.
    + lia.
    + assert (Hlist : take k (delete k ns) ++ drop (k + m) (delete k ns)
                      = take k ns ++ drop (k + S m) ns).
      { rewrite delete_take_drop.
        rewrite take_app_le by (rewrite length_take; lia).
        rewrite take_take, Nat.min_id.
        rewrite drop_app_ge by (rewrite length_take; lia).
        rewrite length_take, drop_drop. do 2 f_equal. lia. }
      assert (Hkeep : forall q, q ∈ take k (delete k ns) ++ drop (k + m) (delete k ns) ->
                                q <> x).
      { intros q Hq ->.
        apply (not_in_delete (header z) ns k x Hnd Hx). right.
        apply elem_of_app in Hq as [Hq|Hq].
        - eapply elem_of_sublist; [exact Hq|apply sublist_take].
        - eapply elem_of_sublist; [exact Hq|apply sublist_drop]. }
      assert (Hlater : forall j y, ns !! (k + S j)%nat = Some y ->
                score_at (<[x := None]> h1) y = score_at h y
                /\ elem (<[x := None]> h1) y = elem h y).
      { intros j y Hy. apply score_elem_info, Hinfo2. intros ->.
        pose proof (NoDup_lookup _ _ _ _ (proj2 (proj1 (NoDup_cons _ _) Hnd)) Hy Hx). lia. }
      exists h', z', d'', (S m).
      replace (removed + Z.of_nat (S m)) with (removed + 1 + Z.of_nat m) by lia.
      split; [exact Hloop|]. rewrite <- Hlist. split; [exact Hrep''|].
      split; [lia|]. split; [|split].
      * intros j y Hj Hy. destruct j as [|j].
        -- rewrite Nat.add_0_r, Hx in Hy. injection Hy as <-.
           now rewrite Z.add_0_r, Hsc, Hel.
        -- destruct (Hlater j y Hy) as [<- <-].
           replace (traversed + Z.of_nat (S j)) with (traversed + 1 + Z.of_nat j) by lia.
           apply Hin; [lia|].
           rewrite list_lookup_delete_ge by lia.
           replace (S (k + j)) with (k + S j)%nat by lia. exact Hy.
      * intros y Hy. destruct (Hlater m y Hy) as [<- <-].
        replace (traversed + Z.of_nat (S m)) with (traversed + 1 + Z.of_nat m) by lia.
        apply Hout. rewrite list_lookup_delete_ge by lia.
        replace (S (k + m)) with (k + S m)%nat by lia. exact Hy.
      * intros q Hq. rewrite (Hinfo' q Hq). apply Hinfo2. now apply Hkeep.
Qed.

(** A list filtered by a test that fails exactly on the places from [k] to
    [k + m - 1]. *)
Lemma filter_keep_all {A} (f : A -> bool) (l : list A) :
  (forall x, x ∈ l -> f x = true) -> List.filter f l = l.
Proof.
  induction l as [|a l IH]; intros H; [reflexivity|].
  cbn [List.filter]. rewrite (H a ltac:(left)). f_equal. apply IH.
  intros x Hx. apply H. now right.
Qed.

Lemma filter_drop_all {A} (f : A -> bool) (l : list A) :
  (forall x, x ∈ l -> f x = false) -> List.filter f l = [].
Proof.
  induction l as [|a l IH]; intros H; [reflexivity|].
  cbn [List.filter]. rewrite (H a ltac:(left)). apply IH.
  intros x Hx. apply H. now right.
Qed.

Lemma filter_gap {A} (f : A -> bool) (l : list A) k m :
  (forall j x, l !! j = Some x -> f x = negb ((k <=? j)%nat && (j <? k + m)%nat)) ->
  List.filter f l = take k l ++ drop (k + m) l.
Proof.
  intros Hf.
  assert (H1 : List.filter f (take k l) = take k l).
  { apply filter_keep_all. intros x Hx. apply list_elem_of_lookup_1 in Hx as [j Hj].
    apply lookup_take_Some in Hj as [Hj Hjk]. rewrite (Hf _ x Hj).
    destruct (Nat.leb_spec k j); [lia|]. reflexivity. }
  assert (H2 : List.filter f (take m (drop k l)) = []).
  { apply filter_drop_all. intros x Hx. apply list_elem_of_lookup_1 in Hx as [j Hj].
    apply lookup_take_Some in Hj as [Hj Hjm]. rewrite lookup_drop in Hj.
    rewrite (Hf _ x Hj).
    destruct (Nat.leb_spec k (k + j)), (Nat.ltb_spec (k + j) (k + m));
      try reflexivity; lia. }
  assert (H3 : List.filter f (drop (k + m) l) = drop (k + m) l).
  { apply filter_keep_all. intros x Hx. apply list_elem_of_lookup_1 in Hx as [j Hj].
    rewrite lookup_drop in Hj. rewrite (Hf _ x Hj).
    destruct (Nat.ltb_spec (k + m + j) (k + m)); [lia|]. now rewrite andb_false_r. }
  rewrite <- (take_drop k l) at 1. rewrite <- (take_drop m (drop k l)) at 1.
  rewrite drop_drop, !List.filter_app, H1, H2, H3. reflexivity.
Qed.

Lemma map_filter_pairs (g : spec_float * list Z -> bool) (h h' : list (option zskiplistNode))
  (ns ns' : list nat) :
  ns' = List.filter (fun p => g (score_at h p, elem h p)) ns ->
  (forall q, q ∈ ns' -> info_at h' q = info_at h q) ->
  zset_pairs h' ns' = List.filter g (zset_pairs h ns).
Proof.
  intros -> Hinfo. unfold zset_pairs.
  induction ns as [|a ns IH]; [reflexivity|].
  cbn [List.filter map] in *.
  destruct (g (score_at h a, elem h a)) eqn:Hg.
  - cbn [map]. f_equal.
    + destruct (score_elem_info h h' a) as [-> ->]; [|reflexivity].
      apply Hinfo. now left.
    + apply IH. intros q Hq. apply Hinfo. now right.
  - apply IH. exact Hinfo.
Qed.

(** The test of the search of [zslDeleteRangeByScore]. *)
Definition before_min_pb (range : zrangespec) (n : zskiplistNode) : bool :=
  if minex range then dle (score n) (min range) else dlt (score n) (min range).

Lemma before_min_below range s :
  isnan (min range) = false -> isnan s = false ->
  (if minex range then dle s (min range) else dlt s (min range))
  = negb (zslValueGteMin s range).
Proof.
  intros Nm Ns. unfold zslValueGteMin.
  destruct (float_cmp_cases s (min range) Ns Nm)
    as [(K & ? & ? & ? & ? & ? & ?)|[(K & ? & ? & ? & ? & ? & ?)|(K & ? & ? & ? & ? & ? & ?)]];
    destruct (minex range);
    repeat match goal with H : ?x = _ |- context [?x] => rewrite H end; reflexivity.
Qed.

(** X16 — removal of a score range.  On a well-formed ordered set (skip list
    and dictionary) and a range whose bounds are not NaN,
    [zslDeleteRangeByScore] returns; the set it leaves is well formed, its
    pairs are, in order, exactly the old pairs whose score is outside the
    range, and the count it returns is the number of pairs removed. *)
Theorem zslDeleteRangeByScore_removes_range h zs ns range :
  zset_rep h zs ns -> isnan (min range) = false -> isnan (max range) = false ->
  exists h' z' d' removed ns',
    zslDeleteRangeByScore h (zsl zs) range (dict zs) = inr (h', z', d', removed) /\
    zset_rep h' (mk_zset d' z') ns' /\
    zsl_pairs h' z'
    = List.filter (fun pr => negb (in_range range (fst pr))) (zsl_pairs h (zsl zs)) /\
    removed = Z.of_nat (List.length (zsl_pairs h (zsl zs)))
              - Z.of_nat (List.length (zsl_pairs h' z')).
Proof.
  intros Hrep Nmin Nmax.
  pose proof Hrep as (R & Hsorted & Hscores & Hsmall & _).
  pose proof (rep_shape _ _ _ R) as Hshape.
  destruct (update_search_places h (zsl zs) ns (score_before_min range)
              (before_min_pb range) Hshape)
    as (k & x & update & Hs & Hk & Hent & Hor & Hstop); [intros n _; reflexivity|].
  (* the search ends where the scores reach the lower bound *)
  destruct (below_threshold compareStringObjects cmp_antisym cmp_trans h (zsl zs) ns range
              R Hsorted Hscores) as (t & Htl & Hthr).
  assert (Hpb : forall p, p ∈ ns -> pbp h (before_min_pb range) p
                                     = negb (zslValueGteMin (score_at h p) range)).
  { intros p Hp.
    destruct (node_score h (zsl zs) ns R p Hp) as (n & Hn & Hsn).
    unfold pbp, before_min_pb. rewrite Hn, Hsn.
    apply before_min_below; [exact Nmin|now apply Hscores]. }
  assert (Hthr' : threshold h ns (before_min_pb range) t).
  { split; [exact Htl|]. intros j p Hp.
    pose proof (list_elem_of_lookup_2 _ _ _ Hp) as Hpin.
    rewrite (Hpb p Hpin), <- (below_pb_node h (zsl zs) ns range R p Hpin).
    now apply Hthr. }
  assert (k = t) as -> by (eapply search_end_threshold; eauto).
  unfold zslDeleteRangeByScore. rewrite Hs. cbn [bind].
  rewrite (shape_next0 h (zsl zs) ns Hshape t x Hk). cbn [bind].
  destruct (delete_range_loop_exact (score_upto_max range)
              (fun s _ _ => zslValueLteMax s range) ltac:(intros n t0 _; reflexivity)
              (List.length h) h (zsl zs) (dict zs) ns t update 0 0)
    as (h' & z' & d' & m & Hloop & Hrep' & Hkm & Hin & Hout & Hinfo).
  { now rewrite zset_eta. }
  { pose proof (shape_length_le h (zsl zs) ns Hshape). lia. }
  { exact Htl. } { exact Hent. } { lia. } { lia. } { lia. } { lia. }
  exists h', z', d', (0 + Z.of_nat m), (take t ns ++ drop (t + m) ns).
  split; [exact Hloop|]. split; [exact Hrep'|].
  assert (Hfilter : take t ns ++ drop (t + m) ns
                    = List.filter (fun p => negb (in_range range (score_at h p))) ns).
  { symmetry. apply filter_gap. intros j p Hp. f_equal.
    pose proof (list_elem_of_lookup_2 _ _ _ Hp) as Hpin.
    pose proof (Hthr j p Hp) as Hb. rewrite (below_pb_node h (zsl zs) ns range R p Hpin) in Hb.
    unfold in_range.
    destruct (Nat.leb_spec t j) as [Htj|Htj].
    - assert (Hg : zslValueGteMin (score_at h p) range = true).
      { destruct (Nat.ltb_spec j t); [lia|]. now apply negb_false_iff in Hb. }
      rewrite Hg. cbn [andb].
      destruct (Nat.ltb_spec j (t + m)) as [Hjm|Hjm].
      + apply (Hin (j - t)%nat p); [lia|]. now replace (t + (j - t))%nat with j by lia.
      + destruct (lookup_lt_is_Some_2 ns (t + m)) as [y Hy];
          [apply lookup_lt_Some in Hp; lia|].
        pose proof (Hout y Hy) as Hly.
        destruct (zslValueLteMax (score_at h p) range) eqn:Hlp; [|reflexivity].
        rewrite <- Hly. symmetry.
        apply (score_lte_max_mono (score_at h y) (score_at h p));
          [apply Hscores; eapply list_elem_of_lookup_2, Hy|now apply Hscores| |exact Hlp].
        apply (scores_ascend compareStringObjects cmp_antisym cmp_trans h ns
                 Hsorted Hscores (t + m) j); [lia|exact Hy|exact Hp].
    - destruct (Nat.ltb_spec j t); [|lia]. apply negb_true_iff in Hb. now rewrite Hb. }
  pose proof (zsl_pairs_zset h zs ns Hrep) as Hp0.
  pose proof (zsl_pairs_zset h' (mk_zset d' z') _ Hrep') as Hp1. cbn [zsl] in Hp1.
  split.
  - rewrite Hp0, Hp1.
    apply (map_filter_pairs (fun pr => negb (in_range range (fst pr)))); [exact Hfilter|].
    exact Hinfo.
  - rewrite Hp0, Hp1. unfold zset_pairs. rewrite !length_map, length_app, length_take,
      length_drop. lia.
Qed.

(** [zslDeleteRangeByRank] with 1-based ranks [start <= end + 1]: the pairs
    left are the old ones without those at the ranks [start] to [end] (both
    included; ranks beyond the length are ignored), and the count returned
    is the number of pairs removed. *)
Lemma zslDeleteRangeByRank_exact h zs ns start end_ :
  zset_rep h zs ns -> 0 <= start -> 0 <= end_ -> start <= end_ + 1 ->
  exists h' z' d' removed ns',
    zslDeleteRangeByRank h (zsl zs) start end_ (dict zs) = inr (h', z', d', removed) /\
    zset_rep h' (mk_zset d' z') ns' /\
    zsl_pairs h' z'
    = take (Z.to_nat (start - 1)) (zsl_pairs h (zsl zs))
      ++ drop (Z.to_nat end_) (zsl_pairs h (zsl zs)) /\
    removed = Z.of_nat (List.length (zsl_pairs h (zsl zs)))
              - Z.of_nat (List.length (zsl_pairs h' z')).
Proof.
  intros Hrep Hstart Hend Hse. pose proof Hrep as (R & _ & _ & Hsmall & _).
  pose proof (rep_level _ _ _ R) as HL.
  set (t := Z.to_nat (Z.min (Z.max (start - 1) 0) (Z.of_nat (List.length ns)))).
  assert (Ht : (t <= List.length ns)%nat) by (subst t; lia).
  assert (Hcond : forall j : nat, (1 <= j <= List.length ns)%nat ->
            (Z.of_nat j <? start) = (j <=? t)%nat).
  { intros j Hj. subst t.
    destruct (Z.ltb_spec (Z.of_nat j) start), (Nat.leb_spec j
      (Z.to_nat (Z.min (Z.max (start - 1) 0) (Z.of_nat (List.length ns))))); try reflexivity; lia. }
  unfold zslDeleteRangeByRank.
  destruct (rank_update_search_spec h (zsl zs) ns start t R ltac:(lia) Ht Hcond
              (Z.to_nat (zsl_level (zsl zs))) O (header (zsl zs))
              (replicate (Z.to_nat ZSKIPLIST_MAXLEVEL) None))
    as (k' & x' & update' & Hs & Hk' & _ & Hfin & Hinv).
  { lia. } { now rewrite length_replicate. } { reflexivity. }
  { rewrite (rep_header_height _ _ _ R). unfold ZSKIPLIST_MAXLEVEL in *. lia. }
  { lia. } { intros i Hi. lia. }
  change 0 with (Z.of_nat 0) at 1. rewrite Hs. cbn [bind].
  rewrite (Hfin ltac:(lia)) in *.
  rewrite (shape_next0 h (zsl zs) ns (rep_shape _ _ _ R) t x' Hk'). cbn [bind].
  assert (Hu : u64 (Z.of_nat t + 1) = Z.of_nat t + 1) by (unfold u64; apply Z.mod_small; lia).
  rewrite Hu.
  destruct (delete_range_loop_exact (fun _ t0 => ret (t0 <=? end_))
              (fun _ _ t0 => t0 <=? end_) ltac:(intros n t0 _; reflexivity)
              (List.length h) h (zsl zs) (dict zs) ns t update' (Z.of_nat t + 1) 0)
    as (h' & z' & d' & m & Hloop & Hrep' & Hkm & Hin & Hout & Hinfo).
  { now rewrite zset_eta. }
  { pose proof (shape_length_le h (zsl zs) ns (rep_shape _ _ _ R)). lia. }
  { exact Ht. } { exact Hinv. } { lia. } { lia. } { lia. } { lia. }
  exists h', z', d', (0 + Z.of_nat m), (take t ns ++ drop (t + m) ns).
  split; [exact Hloop|]. split; [exact Hrep'|].
  assert (Htake : take t ns = take (Z.to_nat (start - 1)) ns).
  { subst t. destruct (Z.le_gt_cases (start - 1) (Z.of_nat (List.length ns))).
    - f_equal. lia.
    - rewrite !take_ge by lia. reflexivity. }
  assert (Hdrop : drop (t + m) ns = drop (Z.to_nat end_) ns).
  { destruct (Nat.lt_ge_cases (t + m) (List.length ns)) as [Hlt|Hge].
    - destruct (lookup_lt_is_Some_2 ns (t + m) Hlt) as [y Hy].
      pose proof (Hout y Hy) as Ho. apply Z.leb_gt in Ho.
      f_equal. destruct m as [|m].
      + subst t. lia.
      + destruct (lookup_lt_is_Some_2 ns (t + m)) as [y' Hy']; [lia|].
        pose proof (Hin m y' ltac:(lia) Hy') as Hi. apply Z.leb_le in Hi. lia.
    - rewrite !drop_ge; [reflexivity| |lia].
      destruct m as [|m].
      + subst t. lia.
      + destruct (lookup_lt_is_Some_2 ns (t + m)) as [y' Hy']; [lia|].
        pose proof (Hin m y' ltac:(lia) Hy') as Hi. apply Z.leb_le in Hi. lia. }
  pose proof (zsl_pairs_zset h zs ns Hrep) as Hp0.
  pose proof (zsl_pairs_zset h' (mk_zset d' z') _ Hrep') as Hp1. cbn [zsl] in Hp1.
  split.
  - rewrite Hp0, Hp1, (zset_pairs_ext h h' _ Hinfo), Htake, Hdrop.
    unfold zset_pairs. rewrite map_app.
    change (@map) with (@fmap list list_fmap).
    now rewrite fmap_take, fmap_drop.
  - rewrite Hp0, Hp1. unfold zset_pairs. rewrite !length_map, length_app, length_take,
      length_drop. lia.
Qed.

Lemma zsetLength_rep h zs ns :
  zset_rep h zs ns -> zsetLength zs = Z.of_nat (List.length ns).
Proof.
  intros (R & _ & _ & Hsmall & _). unfold zsetLength.
  rewrite (rep_length _ _ _ R), Ziplist.sint_small by lia.
  unfold u32. apply Z.mod_small. lia.
Qed.

(** X17 — ZREMRANGEBYRANK on the large form.  With [len] the number of
    pairs, a negative index counts from the end ([-1] is the last pair), a
    start still below 0 becomes 0 and an end beyond the last pair becomes
    the last pair.  [zremrangeGenericCommand] returns; when the indexes
    then denote no pair (start above end, or start not below [len]) nothing
    is removed and the reply is 0; otherwise the pairs left are the old
    ones without those at the 0-based places start to end, both included,
    and the reply is their number.  The set stays well formed. *)
Theorem zremrangebyrank_removes_places h zs ns start end_ :
  zset_rep h zs ns ->
  let pairs := zsl_pairs h (zsl zs) in
  let len := Z.of_nat (List.length pairs) in
  let s := Z.max 0 (if start <? 0 then len + start else start) in
  let e := Z.min (len - 1) (if end_ <? 0 then len + end_ else end_) in
  exists h' zs' deleted,
    zremrange_skiplist h zs (ZRANGE_RANK start end_) = inr (h', zs', deleted) /\
    zset_ok h' zs' /\
    if s <=? e
    then zsl_pairs h' (zsl zs') = take (Z.to_nat s) pairs ++ drop (Z.to_nat (e + 1)) pairs
         /\ deleted = e - s + 1
    else zsl_pairs h' (zsl zs') = pairs /\ deleted = 0.
Proof.
  intros Hrep pairs len s e.
  pose proof Hrep as (R & _ & _ & Hsmall & _).
  assert (Hlen : len = Z.of_nat (List.length ns)).
  { subst len pairs. rewrite (zsl_pairs_zset h zs ns Hrep). unfold zset_pairs.
    now rewrite length_map. }
  unfold zremrange_skiplist. rewrite (zsetLength_rep h zs ns Hrep), <- Hlen.
  cbv zeta.
  set (start1 := if start <? 0 then len + start else start).
  set (end1 := if end_ <? 0 then len + end_ else end_).
  fold start1 in s. fold end1 in e.
  assert (Hs : (if start1 <? 0 then 0 else start1) = s).
  { subst s. destruct (Z.ltb_spec start1 0); lia. }
  rewrite Hs.
  destruct ((s >? end1) || (s >=? len)) eqn:Hempty.
  - (* no pair *)
    assert (Hse : (s <=? e) = false).
    { apply Z.leb_gt. subst e. apply orb_true_iff in Hempty as [H|H].
      - apply Z.gtb_lt in H. lia.
      - apply Z.geb_le in H. lia. }
    rewrite Hse. exists h, zs, 0. split; [reflexivity|].
    split; [now exists ns|]. split; reflexivity.
  - apply orb_false_iff in Hempty as [H1 H2].
    assert (Hs_le : s <= end1) by (destruct (Z.gtb_spec s end1); [discriminate|lia]).
    assert (Hs_lt : s < len) by (destruct (Z.geb_spec s len); [discriminate|lia]).
    assert (He : (if end1 >=? len then len - 1 else end1) = e).
    { subst e. destruct (Z.geb_spec end1 len); lia. }
    rewrite He.
    assert (Hse : (s <=? e) = true) by (apply Z.leb_le; subst e; lia).
    rewrite Hse.
    assert (H0s : 0 <= s) by (subst s; lia).
    assert (Hu1 : u32 (s + 1) = s + 1) by (unfold u32; apply Z.mod_small; lia).
    assert (Hu2 : u32 (e + 1) = e + 1) by (unfold u32; apply Z.mod_small; subst e; lia).
    rewrite Hu1, Hu2.
    destruct (zslDeleteRangeByRank_exact h zs ns (s + 1) (e + 1) Hrep)
      as (h' & z' & d' & removed & ns' & Hrun & Hrep' & Hpairs & Hrem); [lia|lia|lia|].
    rewrite Hrun. cbn [bind].
    destruct (resize_step h' z' d' ns' Hrep') as (d'' & Hres & Hrep'').
    rewrite Hres. cbn [bind ret].
    exists h', (mk_zset d'' z'), removed. split; [reflexivity|].
    split; [now exists ns'|]. cbn [zsl].
    split.
    + rewrite Hpairs. fold pairs. do 2 f_equal. lia.
    + rewrite Hrem, Hpairs. fold pairs. fold len.
      rewrite length_app, length_take, length_drop. subst e len. lia.
Qed.

(** *** Commands that read the large form *)

(** [zrankGenericCommand] on a set in the skip-list encoding; the argument
    is the element as [tryObjectEncoding] left it.  The reply: [Some r] for
    [addReplyLongLong(c, r)], [None] for the null bulk. *)
Definition zrank_skiplist (reverse : bool) (h : list (option zskiplistNode)) (zs : zset)
  (ele : list Z) : M (zset * option Z) :=
  let llen := zsetLength zs in
  r <- lift (Dict.dictFind _ _ hashFunction keyCompare (dict zs) ele);;
  let '(d, de) := r in
  match de with
  | Some de =>
      (* score = *(double* )dictGetVal(de) *)
      p <- lift (Dict.v de);;
      pn <- deref h p;;
      rank <- zslGetRank compareStringObjects h (zsl zs) (score pn) ele;;
      (* Existing elements always have a rank. *)
      if rank =? 0 then fail AssertFailed
      else
        ret (mk_zset d (zsl zs),
             Some (sint 64 (if reverse then u64 (llen - rank) else u64 (rank - 1))))
  | None => ret (mk_zset d (zsl zs), None)
  end.

(** [zcountCommand] on a set in the skip-list encoding, after the range is
    parsed: the number given to [addReplyLongLong].  [count] is an [int],
    the lengths and ranks are [unsigned long]. *)
Definition zcount_skiplist (h : list (option zskiplistNode)) (zs : zset)
  (range : zrangespec) : M Z :=
  let zsl := zsl zs in
  (* Find first element in range *)
  zn <- zslFirstInRange h zsl range;;
  match zn with
  | Some zn =>
      n <- deref h zn;;
      o <- node_obj n;;
      rank <- zslGetRank compareStringObjects h zsl (score n) o;;
      let count := sint 32 (u64 (length zsl - (rank - 1))) in
      (* Find last element in range *)
      zn <- zslLastInRange h zsl range;;
      match zn with
      | Some zn =>
          n <- deref h zn;;
          o <- node_obj n;;
          rank <- zslGetRank compareStringObjects h zsl (score n) o;;
          ret (sint 32 (u64 (count - (length zsl - rank))))
      | None => ret count
      end
  | None => ret 0
  end.

Lemma rep_node_fields h z ns p :
  zsl_rep h z ns -> p ∈ ns ->
  exists n, deref h p = inr n /\ score n = score_at h p /\ obj n = Some (elem h p).
Proof.
  intros R Hp. destruct (rep_nodes _ _ _ R p Hp) as (o & sc & L & Hi & _).
  destruct (info_at_node _ _ _ _ _ Hi) as (n & Hn & Ho & Hs & _).
  exists n. split; [now apply deref_node_at|]. unfold score_at, elem.
  rewrite Hn, Ho. auto.
Qed.

(** In a well-formed set the rank of the pair of a node is its place. *)
Lemma rank_of_node h zs ns k x :
  zset_rep h zs ns -> ns !! k = Some x ->
  zslGetRank compareStringObjects h (zsl zs) (score_at h x) (elem h x)
  = inr (Z.of_nat k + 1).
Proof.
  intros (R & Hsorted & Hscores & Hsmall & Hwf & Hent) Hx.
  pose proof (rep_level _ _ _ R) as HL.
  assert (Hdist : forall j p, (j < k)%nat -> ns !! j = Some p ->
            equalStringObjects compareStringObjects (elem h p) (elem h x) = false).
  { intros j p Hj Hp. unfold equalStringObjects. apply Z.eqb_neq. intros Hc.
    apply cmp_eq in Hc.
    pose proof (elems_distinct h (dict zs) ns Hwf Hent j k p x Hp Hx Hc). lia. }
  unfold zslGetRank.
  pose proof (rank_search_spec compareStringObjects h (zsl zs) ns k x cmp_antisym R
                ltac:(lia)
                (own_threshold_eq compareStringObjects cmp_antisym cmp_trans h (zsl zs) ns k x
                   R Hsorted Hscores Hx)
                Hx Hdist (Z.to_nat (zsl_level (zsl zs))) 0%nat (header (zsl zs))) as He.
  change (Z.of_nat 0) with 0 in He. rewrite He.
  - f_equal. lia.
  - lia.
  - lia.
  - reflexivity.
  - rewrite (rep_header_height h (zsl zs) ns R). unfold ZSKIPLIST_MAXLEVEL in *. lia.
  - lia.
Qed.

(** X21 — ZRANK and ZREVRANK on the large form.  On a well-formed set
    [zrankGenericCommand] returns and leaves the pairs as they are.  For a
    member it replies with the 0-based place of its pair in the order of
    the skip list, counted from the front for ZRANK and from the end for
    ZREVRANK; for an element that is not a member it replies with the null
    bulk. *)
Theorem zrank_is_place reverse h zs ns ele :
  zset_rep h zs ns ->
  let pairs := zsl_pairs h (zsl zs) in
  exists zs' reply,
    zrank_skiplist reverse h zs ele = inr (zs', reply) /\
    zset_rep h zs' ns /\ zsl zs' = zsl zs /\
    (forall k sc, pairs !! k = Some (sc, ele) ->
       reply = Some (if reverse then Z.of_nat (List.length pairs) - 1 - Z.of_nat k
                     else Z.of_nat k)) /\
    ((forall pr, pr ∈ pairs -> snd pr <> ele) -> reply = None).
Proof.
  intros Hrep pairs.
  pose proof Hrep as (R & _ & _ & Hsmall & Hwf & Hent).
  assert (Hpairs : pairs = zset_pairs h ns) by (apply (zsl_pairs_zset h zs ns Hrep)).
  assert (Hlen : List.length pairs = List.length ns)
    by (rewrite Hpairs; unfold zset_pairs; apply length_map).
  destruct (find_step h zs ns ele Hrep) as (d1 & r & Hf & Hrep1 & Hr).
  unfold zrank_skiplist. rewrite (zsetLength_rep h zs ns Hrep), Hf. cbn [lift bind ret].
  destruct r as [e|].
  - destruct Hr as (k & p & Hk & -> & He).
    pose proof (list_elem_of_lookup_2 _ _ _ Hk) as Hpin.
    destruct (rep_node_fields h (zsl zs) ns p R Hpin) as (n & Hn & Hs & _).
    cbn [entry_of Dict.v lift bind ret]. rewrite Hn. cbn [bind]. rewrite Hs, <- He.
    rewrite (rank_of_node h zs ns k p Hrep Hk). cbn [bind].
    pose proof (lookup_lt_Some _ _ _ Hk) as Hklt.
    destruct (Z.eqb_spec (Z.of_nat k + 1) 0) as [|_]; [lia|].
    eexists _, _. split; [reflexivity|]. split; [exact Hrep1|]. split; [reflexivity|].
    split.
    + intros k' sc Hk'. rewrite Hpairs in Hk'. unfold zset_pairs in Hk'.
      rewrite list_lookup_fmap in Hk'.
      destruct (ns !! k') as [q|] eqn:Hq; [|discriminate].
      cbn in Hk'. injection Hk' as _ Hq'.
      assert (k' = k)
        by (apply (elems_distinct h (dict zs) ns Hwf Hent k' k q p Hq Hk); congruence).
      subst k'. f_equal. rewrite Hlen. unfold u64.
      destruct reverse.
      * rewrite Z.mod_small by lia. rewrite Ziplist.sint_small by lia. lia.
      * rewrite Z.mod_small by lia. rewrite Ziplist.sint_small by lia. lia.
    + intros Habs. exfalso. refine (Habs (score_at h p, elem h p) _ eq_refl).
      rewrite Hpairs. unfold zset_pairs.
      apply list_elem_of_In, (in_map (fun p => (score_at h p, elem h p))), list_elem_of_In.
      exact Hpin.
  - cbn [ret]. eexists _, _. split; [reflexivity|]. split; [exact Hrep1|].
    split; [reflexivity|]. split; [|reflexivity].
    intros k sc Hk. exfalso. rewrite Hpairs in Hk. unfold zset_pairs in Hk.
    rewrite list_lookup_fmap in Hk.
    destruct (ns !! k) as [q|] eqn:Hq; [|discriminate].
    cbn in Hk. injection Hk as _ Hq'.
    exact (Hr q (list_elem_of_lookup_2 _ _ _ Hq) Hq').
Qed.

(** On a list in order the scores of a range stand side by side. *)
Lemma in_range_run h ns range t1 t2 y1 y2 :
  key_sorted compareStringObjects h ns -> scores_ok h ns ->
  ns !! t1 = Some y1 -> ns !! t2 = Some y2 ->
  in_range range (score_at h y1) = true -> in_range range (score_at h y2) = true ->
  (forall j p, (j < t1)%nat -> ns !! j = Some p -> in_range range (score_at h p) = false) ->
  (forall j p, (t2 < j)%nat -> ns !! j = Some p -> in_range range (score_at h p) = false) ->
  (t1 <= t2)%nat /\
  List.length (List.filter (fun p => in_range range (score_at h p)) ns) = (t2 + 1 - t1)%nat.
Proof.
  intros Hsorted Hscores Hy1 Hy2 Hin1 Hin2 Hb Ha.
  assert (Hle : (t1 <= t2)%nat).
  { destruct (Nat.le_gt_cases t1 t2) as [|Hgt]; [assumption|].
    rewrite (Hb t2 y2 Hgt Hy2) in Hin2. discriminate. }
  split; [exact Hle|].
  pose proof (lookup_lt_Some _ _ _ Hy2) as Hlt2.
  set (f := fun p => in_range range (score_at h p)).
  assert (Hgap : List.filter (fun p => negb (f p)) ns
                 = take t1 ns ++ drop (t1 + (t2 + 1 - t1)) ns).
  { apply filter_gap. intros j p Hp. f_equal. subst f. cbv beta.
    destruct (Nat.leb_spec t1 j) as [H1|H1]; cbn [andb].
    - destruct (Nat.ltb_spec j (t1 + (t2 + 1 - t1))) as [H2|H2].
      + (* between the two *)
        pose proof (list_elem_of_lookup_2 _ _ _ Hp) as Hpin.
        pose proof (list_elem_of_lookup_2 _ _ _ Hy1) as Hy1in.
        pose proof (list_elem_of_lookup_2 _ _ _ Hy2) as Hy2in.
        unfold in_range in *.
        apply andb_true_iff in Hin1 as [G1 _]. apply andb_true_iff in Hin2 as [_ L2].
        apply andb_true_iff. split.
        * apply (score_gte_min_mono (score_at h y1) (score_at h p));
            [now apply Hscores|now apply Hscores| |exact G1].
          apply (scores_ascend compareStringObjects cmp_antisym cmp_trans h ns
                   Hsorted Hscores t1 j); [lia|exact Hy1|exact Hp].
        * apply (score_lte_max_mono (score_at h p) (score_at h y2));
            [now apply Hscores|now apply Hscores| |exact L2].
          apply (scores_ascend compareStringObjects cmp_antisym cmp_trans h ns
                   Hsorted Hscores j t2); [lia|exact Hp|exact Hy2].
      + apply (Ha j p); [lia|exact Hp].
    - apply (Hb j p); [lia|exact Hp]. }
  pose proof (List.filter_length f ns) as Hsum.
  rewrite Hgap, length_app, length_take, length_drop in Hsum. lia.
Qed.

(** X22 — ZCOUNT on the large form.  On a well-formed set [zcountCommand]
    replies with the number of pairs whose score lies in the range (each
    bound inclusive or exclusive as the range says): the two searches and
    the two ranks it takes the count from agree with a count of the pairs
    one by one.  It is 0 for a range no score lies in. *)
Theorem zcount_counts_range h zs ns range :
  zset_rep h zs ns ->
  zcount_skiplist h zs range
  = inr (Z.of_nat (List.length
           (List.filter (fun pr => in_range range (fst pr)) (zsl_pairs h (zsl zs))))).
Proof.
  intros Hrep. pose proof Hrep as (R & Hsorted & Hscores & Hsmall & _).
  rewrite (zsl_pairs_zset h zs ns Hrep). unfold zset_pairs.
  rewrite filter_map_swap, length_map. cbn [fst].
  unfold zcount_skiplist. cbv zeta.
  destruct (zslFirstInRange_place compareStringObjects cmp_antisym cmp_trans
              h (zsl zs) ns range R Hsorted Hscores) as (r1 & Hr1 & Hp1).
  rewrite Hr1. cbn [bind].
  destruct r1 as [y1|].
  2: { rewrite filter_drop_all; [reflexivity|]. intros p Hp. now apply Hp1. }
  destruct Hp1 as (t1 & Hy1 & Hin1 & Hb1).
  pose proof (list_elem_of_lookup_2 _ _ _ Hy1) as Hy1in.
  destruct (rep_node_fields h (zsl zs) ns y1 R Hy1in) as (n1 & Hn1 & Hs1 & Ho1).
  rewrite Hn1. cbn [bind]. unfold node_obj at 1. rewrite Ho1. cbn [bind ret].
  rewrite Hs1, (rank_of_node h zs ns t1 y1 Hrep Hy1). cbn [bind].
  destruct (zslLastInRange_place compareStringObjects cmp_antisym cmp_trans
              h (zsl zs) ns range R Hsorted Hscores) as (r2 & Hr2 & Hp2).
  rewrite Hr2. cbn [bind].
  destruct r2 as [y2|].
  2: { rewrite (Hp2 y1 Hy1in) in Hin1. discriminate. }
  destruct Hp2 as (t2 & Hy2 & Hin2 & Ha2).
  pose proof (list_elem_of_lookup_2 _ _ _ Hy2) as Hy2in.
  destruct (rep_node_fields h (zsl zs) ns y2 R Hy2in) as (n2 & Hn2 & Hs2 & Ho2).
  rewrite Hn2. cbn [bind]. unfold node_obj. rewrite Ho2. cbn [bind ret].
  rewrite Hs2, (rank_of_node h zs ns t2 y2 Hrep Hy2). cbn [bind ret].
  destruct (in_range_run h ns range t1 t2 y1 y2 Hsorted Hscores Hy1 Hy2 Hin1 Hin2 Hb1 Ha2)
    as [Hle Hcount].
  rewrite Hcount. rewrite (rep_length _ _ _ R).
  pose proof (lookup_lt_Some _ _ _ Hy2) as Hlt2.
  f_equal. unfold u64.
  rewrite (Z.mod_small (Z.of_nat (List.length ns) - (Z.of_nat t1 + 1 - 1))) by lia.
  rewrite (Ziplist.sint_small 32 (Z.of_nat (List.length ns) - (Z.of_nat t1 + 1 - 1))) by lia.
  rewrite Z.mod_small by lia. rewrite Ziplist.sint_small by lia. lia.
Qed.

(** What [zrangeGenericCommand] adds to the reply for one node:
    [addReplyBulk(c, ele)] and, with WITHSCORES, [addReplyDouble(c, score)]. *)
Inductive zrange_item :=
| ReplyBulk (ele : list Z)
| ReplyDouble (sc : spec_float).

(** [while (rangelen--) { redisAssert(ln != NULL); ele = ln->obj;
       addReplyBulk(c, ele); if (withscores) addReplyDouble(c, ln->score);
       ln = reverse ? ln->backward : ln->level[0].forward; }] *)
Fixpoint zrange_loop (rangelen : nat) (h : list (option zskiplistNode))
  (reverse withscores : bool) (ln : option nat) : M (list zrange_item) :=
  match rangelen with
  | O => ret []
  | S rangelen' =>
      match ln with
      | None => fail AssertFailed
      | Some p =>
          n <- deref h p;;
          ele <- node_obj n;;
          next <- (if reverse then ret (backward n) else get_forward h p 0);;
          rest <- zrange_loop rangelen' h reverse withscores next;;
          ret (ReplyBulk ele :: (if withscores then [ReplyDouble (score n)] else []) ++ rest)
      end
  end.

(** [zrangeGenericCommand] on a set in the skip-list encoding, from the
    sanity checks on: the length announced by [addReplyMultiBulkLen] (0 for
    the shared empty multi bulk) and the items added.  [start] and [end]
    are [long], [llen] and [rangelen] are [int]. *)
Definition zrange_skiplist (reverse withscores : bool) (h : list (option zskiplistNode))
  (zs : zset) (start end_ : Z) : M (Z * list zrange_item) :=
  (* Sanitize indexes. *)
  let llen := sint 32 (zsetLength zs) in
  let start := if start <? 0 then llen + start else start in
  let end_ := if end_ <? 0 then llen + end_ else end_ in
  let start := if start <? 0 then 0 else start in
  if (start >? end_) || (start >=? llen) then ret (0, [])
  else
    let end_ := if end_ >=? llen then llen - 1 else end_ in
    let rangelen := sint 32 (end_ - start + 1) in
    let zsl := zsl zs in
    (* Check if starting point is trivial, before doing log(N) lookup. *)
    ln <- (if reverse then
             if start >? 0 then zslGetElementByRank h zsl (u64 (llen - start))
             else ret (tail zsl)
           else
             ln <- get_forward h (header zsl) 0;;
             if start >? 0 then zslGetElementByRank h zsl (u64 (start + 1))
             else ret ln);;
    (* a negative [rangelen] would send [while (rangelen--)] past the list *)
    if rangelen <? 0 then fail Overflow
    else
      items <- zrange_loop (Z.to_nat rangelen) h reverse withscores ln;;
      ret (sint 32 (if withscores then rangelen * 2 else rangelen), items).

Definition zrange_items (withscores : bool) (pr : spec_float * list Z) : list zrange_item :=
  ReplyBulk (snd pr) :: if withscores then [ReplyDouble (fst pr)] else [].

Lemma length_zrange_items ws l :
  List.length (flat_map (zrange_items ws) l)
  = ((if ws then 2 else 1) * List.length l)%nat.
Proof.
  induction l as [|pr l IH]; [cbn; lia|].
  cbn [flat_map]. rewrite length_app, IH. unfold zrange_items.
  destruct ws; cbn [List.length]; lia.
Qed.

Lemma zset_pairs_lookup h ns k p :
  ns !! k = Some p -> zset_pairs h ns !! k = Some (score_at h p, elem h p).
Proof. intros Hp. unfold zset_pairs. rewrite list_lookup_fmap, Hp. reflexivity. Qed.

Lemma zrange_loop_forward h z ns ws :
  zsl_rep h z ns ->
  forall n k, (k + n <= List.length ns)%nat ->
    zrange_loop n h false ws (ns !! k)
    = inr (flat_map (zrange_items ws) (take n (drop k (zset_pairs h ns)))).
Proof.
  intros R. pose proof (rep_shape _ _ _ R) as Hshape.
  induction n as [|n IH]; intros k Hk; [reflexivity|].
  destruct (lookup_lt_is_Some_2 ns k ltac:(lia)) as [p Hp].
  cbn [zrange_loop]. rewrite Hp.
  destruct (rep_node_fields h z ns p R (list_elem_of_lookup_2 _ _ _ Hp))
    as (pn & Hn & Hs & Ho).
  rewrite Hn. cbn [bind]. unfold node_obj. rewrite Ho. cbn [bind ret].
  rewrite (shape_next0 h z ns Hshape (S k) p Hp). cbn [bind].
  rewrite (IH (S k)) by lia. cbn [bind ret].
  rewrite (drop_S _ _ _ (zset_pairs_lookup h ns k p Hp)).
  cbn [take flat_map zrange_items fst snd]. rewrite Hs.
  destruct ws; reflexivity.
Qed.

Lemma zrange_loop_backward h z ns ws :
  zsl_rep h z ns ->
  forall n k, (n <= k + 1)%nat -> (k < List.length ns)%nat ->
    zrange_loop n h true ws (ns !! k)
    = inr (flat_map (zrange_items ws)
             (take n (drop (List.length ns - 1 - k) (reverse (zset_pairs h ns))))).
Proof.
  intros R.
  assert (Hlen : List.length (zset_pairs h ns) = List.length ns)
    by (unfold zset_pairs; apply length_map).
  induction n as [|n IH]; intros k Hn Hk; [reflexivity|].
  destruct (lookup_lt_is_Some_2 ns k Hk) as [p Hp].
  cbn [zrange_loop]. rewrite Hp.
  destruct (rep_nodes _ _ _ R p (list_elem_of_lookup_2 _ _ _ Hp)) as (o & sc & L & Hi & _).
  destruct (info_at_node _ _ _ _ _ Hi) as (pn & Hnode & Ho & Hs & _).
  rewrite (deref_node_at _ _ _ Hnode). cbn [bind]. unfold node_obj. rewrite Ho.
  cbn [bind ret].
  pose proof (rep_backward _ _ _ R k p Hp) as Hb. unfold backward_at in Hb.
  rewrite Hnode in Hb. injection Hb as Hb. rewrite Hb.
  assert (Hrev : reverse (zset_pairs h ns) !! (List.length ns - 1 - k)%nat
                 = Some (score_at h p, elem h p)).
  { rewrite reverse_lookup by lia. rewrite Hlen.
    replace (List.length ns - S (List.length ns - 1 - k))%nat with k by lia.
    now apply zset_pairs_lookup. }
  rewrite (drop_S _ _ _ Hrev).
  assert (Helem : elem h p = o) by (unfold elem; now rewrite Hnode, Ho).
  assert (Hscore : score_at h p = score pn) by (unfold score_at; now rewrite Hnode).
  destruct k as [|k'].
  - assert (n = O) by lia. subst n. cbn [zrange_loop bind ret take flat_map zrange_items fst snd].
    rewrite Helem, Hscore. destruct ws; reflexivity.
  - rewrite (IH k') by lia. cbn [bind ret take flat_map zrange_items fst snd].
    replace (S (List.length ns - 1 - S k')) with (List.length ns - 1 - k')%nat by lia.
    rewrite Helem, Hscore. destruct ws; reflexivity.
Qed.

Lemma element_by_rank h z ns rank :
  zsl_rep h z ns -> Z.of_nat (List.length ns) < 2^32 -> 1 <= rank ->
  zslGetElementByRank h z rank = inr (ns !! (Z.to_nat rank - 1)%nat).
Proof.
  intros R Hsmall Hrank. pose proof (rep_level _ _ _ R) as HL.
  unfold zslGetElementByRank.
  pose proof (element_search_spec h z ns rank _ R Hsmall ltac:(lia) eq_refl
                (Z.to_nat (zsl_level z)) 0%nat (header z)) as He.
  change (Z.of_nat 0) with 0 in He. rewrite He.
  - f_equal. destruct (Z.to_nat rank) as [|r] eqn:E; [lia|].
    cbn [lookup list_lookup]. f_equal. lia.
  - lia.
  - reflexivity.
  - rewrite (rep_header_height h z ns R). unfold ZSKIPLIST_MAXLEVEL in *. lia.
  - lia.
  - lia.
Qed.

(** X23 — ZRANGE and ZREVRANGE on the large form.  With [len] the number
    of pairs, a negative index counts from the end, a start still below 0
    becomes 0 and an end beyond the last pair becomes the last pair.  On a
    well-formed set [zrangeGenericCommand] replies with the pairs at the
    0-based places start to end, both included, of the skip-list order
    (ZRANGE) or of its reverse (ZREVRANGE): the element of each, followed
    by its score under WITHSCORES; the length it announces is the number
    of items.  When the indexes denote no pair the reply is empty. *)
Theorem zrange_returns_places (rvs withscores : bool) h zs ns start end_ :
  zset_rep h zs ns ->
  let pairs := zsl_pairs h (zsl zs) in
  let len := Z.of_nat (List.length pairs) in
  let s := Z.max 0 (if start <? 0 then len + start else start) in
  let e := Z.min (len - 1) (if end_ <? 0 then len + end_ else end_) in
  let chosen := take (Z.to_nat (e + 1 - s))
                     (drop (Z.to_nat s) (if rvs then reverse pairs else pairs)) in
  let items := flat_map (zrange_items withscores) chosen in
  zrange_skiplist rvs withscores h zs start end_
  = inr (Z.of_nat (List.length items), items).
Proof.
  intros Hrep pairs len s e chosen items.
  pose proof Hrep as (R & _ & _ & Hsmall & _).
  pose proof (rep_shape _ _ _ R) as Hshape.
  assert (Hpairs : pairs = zset_pairs h ns) by (apply (zsl_pairs_zset h zs ns Hrep)).
  assert (Hlen : len = Z.of_nat (List.length ns)).
  { subst len. rewrite Hpairs. unfold zset_pairs. now rewrite length_map. }
  assert (Hplen : List.length (zset_pairs h ns) = List.length ns)
    by (unfold zset_pairs; apply length_map).
  unfold zrange_skiplist. rewrite (zsetLength_rep h zs ns Hrep), <- Hlen.
  rewrite (Ziplist.sint_small 32 len) by lia.
  cbv zeta.
  set (start1 := if start <? 0 then len + start else start).
  set (end1 := if end_ <? 0 then len + end_ else end_).
  fold start1 in s. fold end1 in e.
  assert (Hs : (if start1 <? 0 then 0 else start1) = s).
  { subst s. destruct (Z.ltb_spec start1 0); lia. }
  rewrite Hs.
  destruct ((s >? end1) || (s >=? len)) eqn:Hempty.
  - (* no pair *)
    assert (Hse : e + 1 - s <= 0).
    { subst e. apply orb_true_iff in Hempty as [H|H].
      - apply Z.gtb_lt in H. lia.
      - apply Z.geb_le in H. lia. }
    subst items chosen. replace (Z.to_nat (e + 1 - s)) with O by lia. reflexivity.
  - apply orb_false_iff in Hempty as [H1 H2].
    assert (Hs_le : s <= end1) by (destruct (Z.gtb_spec s end1); [discriminate|lia]).
    assert (Hs_lt : s < len) by (destruct (Z.geb_spec s len); [discriminate|lia]).
    assert (He : (if end1 >=? len then len - 1 else end1) = e).
    { subst e. destruct (Z.geb_spec end1 len); lia. }
    rewrite He.
    assert (H0s : 0 <= s) by (subst s; lia).
    assert (Hes : s <= e < len) by (subst e; lia).
    rewrite (Ziplist.sint_small 32 (e - s + 1)) by lia.
    destruct (Z.ltb_spec (e - s + 1) 0) as [|_]; [lia|].
    rewrite (shape_first h (zsl zs) ns Hshape). cbn [bind].
    assert (Hcount : List.length chosen = Z.to_nat (e + 1 - s)).
    { subst chosen. rewrite length_take, length_drop.
      destruct rvs; [rewrite length_reverse|]; rewrite Hpairs, Hplen; lia. }
    assert (Hitems : Z.of_nat (List.length items)
                     = if withscores then (e - s + 1) * 2 else e - s + 1).
    { subst items. rewrite length_zrange_items, Hcount. destruct withscores; lia. }
    assert (Hln : (if rvs
                   then if s >? 0
                        then zslGetElementByRank h (zsl zs) (u64 (len - s))
                        else ret (tail (zsl zs))
                   else if s >? 0
                        then zslGetElementByRank h (zsl zs) (u64 (s + 1))
                        else ret (head ns))
                  = inr (ns !! (if rvs then Z.to_nat (len - 1 - s) else Z.to_nat s))).
    { unfold u64. destruct rvs.
      - destruct (Z.gtb_spec s 0).
        + rewrite Z.mod_small by lia.
          rewrite (element_by_rank h (zsl zs) ns (len - s) R) by lia.
          do 2 f_equal. lia.
        + rewrite (rep_tail _ _ _ R), last_lookup. unfold ret. do 2 f_equal. lia.
      - destruct (Z.gtb_spec s 0).
        + rewrite Z.mod_small by lia.
          rewrite (element_by_rank h (zsl zs) ns (s + 1) R) by lia.
          do 2 f_equal. lia.
        + rewrite head_lookup. unfold ret. do 2 f_equal. lia. }
    assert (Hln' : (ln <- (if rvs
                      then if s >? 0
                           then zslGetElementByRank h (zsl zs) (u64 (len - s))
                           else ret (tail (zsl zs))
                      else ln0 <- ret (head ns);;
                           (if s >? 0
                            then zslGetElementByRank h (zsl zs) (u64 (s + 1))
                            else ret ln0));;
                    items0 <- zrange_loop (Z.to_nat (e - s + 1)) h rvs withscores ln;;
                    ret (sint 32 (if withscores then (e - s + 1) * 2 else e - s + 1), items0))
                   = inr (Z.of_nat (List.length items), items)).
    { cbn [bind ret] in *. rewrite Hln. cbn [bind].
      assert (Hloop : zrange_loop (Z.to_nat (e - s + 1)) h rvs withscores
                        (ns !! (if rvs then Z.to_nat (len - 1 - s) else Z.to_nat s))
                      = inr items).
      { subst items chosen. rewrite Hpairs. destruct rvs.
        - rewrite (zrange_loop_backward h (zsl zs) ns withscores R) by lia.
          replace (List.length ns - 1 - Z.to_nat (len - 1 - s))%nat with (Z.to_nat s) by lia.
          replace (e - s + 1) with (e + 1 - s) by lia. reflexivity.
        - rewrite (zrange_loop_forward h (zsl zs) ns withscores R) by lia.
          replace (e - s + 1) with (e + 1 - s) by lia. reflexivity. }
      rewrite Hloop. cbn [bind]. rewrite Hitems.
      rewrite Ziplist.sint_small by (destruct withscores; lia). reflexivity. }
    exact Hln'.
Qed.

End Large.

(** *** An instance: byte strings hashed by the sum of their bytes *)

Definition sum_hash (s : list Z) : Z := fold_right Z.add 0 s.
Definition bytes_eqb (a b : list Z) : bool := bool_decide (a = b).

(** Scores written and read back as decimal integers. *)
Definition strtod_int (s : list Z) : spec_float :=
  match Ziplist.string2ll s with
  | Some n => of_Z n
  | None => pos_zero
  end.
Definition d2string_digit (sc : spec_float) : list Z :=
  if deq sc (of_Z 1) then [49] else if deq sc (of_Z 2) then [50] else [48].
Definition ll2string_digit (n : Z) : list Z := [48 + n].

Lemma bytes_eqb_eq a b : bytes_eqb a b = true <-> a = b.
Proof. apply bool_decide_eq_true. Qed.

(** The packed set that holds ("a", 1): [zzlInsert] on the list of
    [ziplistNew]. *)
Definition packed_a : list Z :=
  Eval vm_compute in
  match Ziplist.ziplistNew false with
  | Some zl =>
      match zzlInsert false strtod_int d2string_digit ll2string_digit zl [97] (of_Z 1) with
      | inr zl' => zl'
      | inl _ => []
      end
  | None => []
  end.

(** The packed set that holds ("a", 1) and ("b", 2). *)
Definition packed_ab : list Z :=
  Eval vm_compute in
  match zzlInsert false strtod_int d2string_digit ll2string_digit packed_a [98] (of_Z 2) with
  | inr zl' => zl'
  | inl _ => []
  end.

(** The empty set of [zslCreate] and [dictCreate] is consistent, and so is
    the set after ("a", 1) is added to it, which holds that pair. *)
Lemma zset_dual_consistency_witness :
  dual_consistent (fst (zslCreate [])) (mk_zset Dict.dictCreate (snd (zslCreate []))) /\
  exists h' zs' draws',
    zadd_skiplist sum_hash bytes_eqb true compareStringObjects_bytes false
      (fst (zslCreate [])) (mk_zset Dict.dictCreate (snd (zslCreate [])))
      (of_Z 1) [97] [65535] = inr (h', zs', draws', Done) /\
    dual_consistent h' zs' /\
    zsl_pairs h' (zsl zs') ≡ₚ [(of_Z 1, [97])].
Proof.
  destruct (zset_dual_consistency sum_hash bytes_eqb true compareStringObjects_bytes
              shared_minstring shared_maxstring (fun _ => false) false
              strtod_int d2string_digit ll2string_digit
              bytes_eqb_eq compareStringObjects_bytes_antisym
              compareStringObjects_bytes_trans compareStringObjects_bytes_eq
              (fst (zslCreate [])) (mk_zset Dict.dictCreate (snd (zslCreate [])))
              (ex_intro _ [] (zset_rep_create sum_hash bytes_eqb compareStringObjects_bytes [])))
    as (Hc & Hadd & _).
  split; [exact Hc|].
  destruct (Hadd false (of_Z 1) [97] [65535] 1 [])
    as (h' & zs' & draws' & out & Hrun & _ & Hc' & Hnew & _).
  { vm_compute. reflexivity. } { reflexivity. } { vm_compute. reflexivity. }
  destruct Hnew as [-> Hp].
  { intros pr Hpr. vm_compute in Hpr. apply elem_of_nil in Hpr. destruct Hpr. }
  exists h', zs', draws'. split; [exact Hrun|]. split; [exact Hc'|exact Hp].
Defined.

(** ("b", 2) is added to the packed set that holds ("a", 1), the list
    [zzlInsert] built from the one of [ziplistNew].  With the limit of 128
    entries the set stays packed; with a limit of one entry it is
    converted, and the large form holds the two pairs.  An element of 252
    bytes is added before one of 250 bytes, under a limit of 300 bytes: the
    set stays packed, and the fields of the two score entries have five
    bytes. *)
Lemma zadd_promotes_packed_witness :
  packed d2string_digit [(false, (of_Z 1, [97]))] = packed_a /\
  zadd_one sum_hash bytes_eqb true compareStringObjects_bytes false
    strtod_int d2string_digit ll2string_digit 128 64 false [] (OBJ_ZIPLIST packed_a)
    (of_Z 2) [98] [65535; 65535] = inr ([], OBJ_ZIPLIST packed_ab, [65535; 65535], Done) /\
  (exists h' zs draws',
    zadd_one sum_hash bytes_eqb true compareStringObjects_bytes false
      strtod_int d2string_digit ll2string_digit 1 64 false [] (OBJ_ZIPLIST packed_a)
      (of_Z 2) [98] [65535; 65535] = inr (h', OBJ_SKIPLIST zs, draws', Done) /\
    dual_consistent h' zs /\
    zsl_pairs h' (zsl zs) ≡ₚ [(of_Z 1, [97]); (of_Z 2, [98])]) /\
  zadd_one sum_hash bytes_eqb true compareStringObjects_bytes false
    strtod_int d2string_digit ll2string_digit 128 300 false []
    (OBJ_ZIPLIST (packed d2string_digit [(false, (of_Z 2, replicate 250 98))]))
    (of_Z 1) (replicate 252 97) [65535; 65535]
  = inr ([], OBJ_ZIPLIST (packed d2string_digit
                            [(true, (of_Z 1, replicate 252 97));
                             (true, (of_Z 2, replicate 250 98))]),
         [65535; 65535], Done).
Proof.
  assert (Ea : packed d2string_digit [(false, (of_Z 1, [97]))] = packed_a)
    by (vm_compute; reflexivity).
  assert (Eab : packed d2string_digit [(false, (of_Z 1, [97])); (false, (of_Z 2, [98]))]
                = packed_ab)
    by (vm_compute; reflexivity).
  assert (Hok : packed_ok strtod_int d2string_digit ll2string_digit
                  [(false, (of_Z 1, [97]))]).
  { split; [|split; [|split]].
    - apply Forall_cons. split; [|apply Forall_nil_2].
      split; [split; vm_compute; reflexivity|].
      intros v enc H. vm_compute in H. discriminate.
    - apply Forall_cons. split; [intros _; vm_compute; reflexivity|apply Forall_nil_2].
    - apply NoDup_singleton.
    - apply Forall_cons. split; [reflexivity|apply Forall_nil_2]. }
  assert (Hpt : pair_text strtod_int d2string_digit ll2string_digit (of_Z 2, [98])).
  { split; [split; vm_compute; reflexivity|].
    intros v enc H. vm_compute in H. discriminate. }
  assert (Hnin : [98] ∉ map snd (map snd [(false, (of_Z 1, [97]))])).
  { intros Hin. apply list_elem_of_singleton in Hin. discriminate. }
  assert (Hroom : room d2string_digit [(false, (of_Z 1, [97]))] [98])
    by (split; vm_compute; reflexivity).
  assert (Hdraws : draws_for 2 [65535; 65535]).
  { exists 1, [65535]. split; [vm_compute; reflexivity|].
    exists 1, []. split; [vm_compute; reflexivity|exact I]. }
  assert (Hokl : packed_ok strtod_int d2string_digit ll2string_digit
                   [(false, (of_Z 2, replicate 250 98))]).
  { split; [|split; [|split]].
    - apply Forall_cons. split; [|apply Forall_nil_2].
      split; [split; vm_compute; reflexivity|].
      intros v enc H. vm_compute in H. discriminate.
    - apply Forall_cons. split; [intros _; vm_compute; reflexivity|apply Forall_nil_2].
    - apply NoDup_singleton.
    - apply Forall_cons. split; [reflexivity|apply Forall_nil_2]. }
  assert (Hptl : pair_text strtod_int d2string_digit ll2string_digit
                   (of_Z 1, replicate 252 97)).
  { split; [split; vm_compute; reflexivity|].
    intros v enc H. vm_compute in H. discriminate. }
  assert (Hninl : replicate 252 97
                  ∉ map snd (map snd [(false, (of_Z 2, replicate 250 98))])).
  { intros Hin. apply list_elem_of_singleton in Hin. vm_compute in Hin. discriminate. }
  assert (Hrooml : room d2string_digit [(false, (of_Z 2, replicate 250 98))]
                     (replicate 252 97))
    by (split; vm_compute; reflexivity).
  split; [exact Ea|]. split; [|split].
  - pose proof (zadd_promotes_packed sum_hash bytes_eqb true compareStringObjects_bytes false
                  strtod_int d2string_digit ll2string_digit 128 64
                  bytes_eqb_eq compareStringObjects_bytes_antisym
                  compareStringObjects_bytes_trans compareStringObjects_bytes_eq
                  false [] [(false, (of_Z 1, [97]))] (of_Z 2) [98] [65535; 65535]
                  Hok Hpt eq_refl Hnin Hroom Hdraws) as H.
    cbv zeta in H. destruct H as (_ & _ & _ & _ & Hstay & _).
    specialize (Hstay eq_refl).
    rewrite Ea in Hstay. rewrite <- Eab. exact Hstay.
  - pose proof (zadd_promotes_packed sum_hash bytes_eqb true compareStringObjects_bytes false
                  strtod_int d2string_digit ll2string_digit 1 64
                  bytes_eqb_eq compareStringObjects_bytes_antisym
                  compareStringObjects_bytes_trans compareStringObjects_bytes_eq
                  false [] [(false, (of_Z 1, [97]))] (of_Z 2) [98] [65535; 65535]
                  Hok Hpt eq_refl Hnin Hroom Hdraws) as H.
    cbv zeta in H. destruct H as (_ & _ & _ & _ & _ & Hprom).
    destruct (Hprom eq_refl) as (h' & zs & draws' & Hrun & _ & _ & Hc & Hpairs & _).
    rewrite Ea in Hrun.
    exists h', zs, draws'. split; [exact Hrun|]. split; [exact Hc|exact Hpairs].
  - pose proof (zadd_promotes_packed sum_hash bytes_eqb true compareStringObjects_bytes false
                  strtod_int d2string_digit ll2string_digit 128 300
                  bytes_eqb_eq compareStringObjects_bytes_antisym
                  compareStringObjects_bytes_trans compareStringObjects_bytes_eq
                  false [] [(false, (of_Z 2, replicate 250 98))] (of_Z 1) (replicate 252 97)
                  [65535; 65535]
                  Hokl Hptl eq_refl Hninl Hrooml Hdraws) as H.
    cbv zeta in H. destruct H as (_ & _ & _ & _ & Hstay & _).
    exact (Hstay eq_refl).
Defined.

(** *** A set of three pairs *)

(** The set after ZADD of (1, "a"), (2, "b") and (3, "c") to the empty set;
    the levels drawn are 1, 2 and 1. *)
Definition abc_zset : list (option zskiplistNode) * zset :=
  Eval vm_compute in
  match
    (r <- zadd_skiplist sum_hash bytes_eqb true compareStringObjects_bytes false
            (fst (zslCreate [])) (mk_zset Dict.dictCreate (snd (zslCreate [])))
            (of_Z 1) [97] [65535; 0; 65535; 65535];;
     r <- zadd_skiplist sum_hash bytes_eqb true compareStringObjects_bytes false
            (fst (fst (fst r))) (snd (fst (fst r))) (of_Z 2) [98] (snd (fst r));;
     r <- zadd_skiplist sum_hash bytes_eqb true compareStringObjects_bytes false
            (fst (fst (fst r))) (snd (fst (fst r))) (of_Z 3) [99] (snd (fst r));;
     ret (fst (fst r)))
  with
  | inr hz => hz
  | inl _ => ([], mk_zset Dict.dictCreate (mk_zsl O None 0 1))
  end.

Lemma abc_zset_rep :
  exists ns, zset_rep sum_hash bytes_eqb compareStringObjects_bytes
               (fst abc_zset) (snd abc_zset) ns.
Proof.
  pose proof (zadd_skiplist_spec sum_hash bytes_eqb true compareStringObjects_bytes
                bytes_eqb_eq compareStringObjects_bytes_antisym
                compareStringObjects_bytes_trans compareStringObjects_bytes_eq false)
    as Hadd.
  destruct (Hadd _ _ [] (of_Z 1) [97] [65535; 0; 65535; 65535] 1 [0; 65535; 65535]
              (zset_rep_create sum_hash bytes_eqb compareStringObjects_bytes []))
    as (h1 & zs1 & d1 & o1 & ns1 & Hrun1 & Hrep1 & _);
    [vm_compute; reflexivity|reflexivity|vm_compute; reflexivity|].
  vm_compute in Hrun1. injection Hrun1 as <- <- <- <-.
  assert (Hl1 : Z.of_nat (List.length ns1) = 1).
  { destruct Hrep1 as (R & _). rewrite <- (rep_length _ _ _ R). reflexivity. }
  destruct (Hadd _ _ ns1 (of_Z 2) [98] [0; 65535; 65535] 2 [65535] Hrep1)
    as (h2 & zs2 & d2 & o2 & ns2 & Hrun2 & Hrep2 & _);
    [rewrite Hl1; vm_compute; reflexivity|reflexivity|vm_compute; reflexivity|].
  vm_compute in Hrun2. injection Hrun2 as <- <- <- <-.
  assert (Hl2 : Z.of_nat (List.length ns2) = 2).
  { destruct Hrep2 as (R & _). rewrite <- (rep_length _ _ _ R). reflexivity. }
  destruct (Hadd _ _ ns2 (of_Z 3) [99] [65535] 1 [] Hrep2)
    as (h3 & zs3 & d3 & o3 & ns3 & Hrun3 & Hrep3 & _);
    [rewrite Hl2; vm_compute; reflexivity|reflexivity|vm_compute; reflexivity|].
  vm_compute in Hrun3. injection Hrun3 as <- <- <- <-.
  exists ns3. exact Hrep3.
Qed.

Lemma abc_zset_pairs :
  zsl_pairs (fst abc_zset) (zsl (snd abc_zset))
  = [(of_Z 1, [97]); (of_Z 2, [98]); (of_Z 3, [99])].
Proof. vm_compute. reflexivity. Qed.

(** The scores from 2 (included) to 3 (excluded): the first node in the
    range is that of (2, "b"), at address 2, and it is the last one too;
    no score lies in the range from 5 to 9. *)
Lemma zslFirstInRange_first_witness :
  zslFirstInRange (fst abc_list) (snd abc_list) (mk_range (of_Z 2) (of_Z 3) false true)
  = inr (Some 2%nat)
  /\ zslFirstInRange (fst abc_list) (snd abc_list) (mk_range (of_Z 5) (of_Z 9) false false)
     = inr None.
Proof.
  destruct abc_list_rep as (R & Hs & Hn).
  split.
  - rewrite (zslFirstInRange_first compareStringObjects_bytes
               compareStringObjects_bytes_antisym compareStringObjects_bytes_trans
               (fst abc_list) (snd abc_list) [1%nat; 2%nat; 3%nat]
               (mk_range (of_Z 2) (of_Z 3) false true) R Hs Hn).
    vm_compute. reflexivity.
  - rewrite (zslFirstInRange_first compareStringObjects_bytes
               compareStringObjects_bytes_antisym compareStringObjects_bytes_trans
               (fst abc_list) (snd abc_list) [1%nat; 2%nat; 3%nat]
               (mk_range (of_Z 5) (of_Z 9) false false) R Hs Hn).
    vm_compute. reflexivity.
Defined.

Lemma zslLastInRange_last_witness :
  zslLastInRange (fst abc_list) (snd abc_list) (mk_range (of_Z 1) (of_Z 3) true false)
  = inr (Some 3%nat)
  /\ zslLastInRange (fst abc_list) (snd abc_list) (mk_range (of_Z 2) (of_Z 3) false true)
     = inr (Some 2%nat).
Proof.
  destruct abc_list_rep as (R & Hs & Hn).
  split.
  - rewrite (zslLastInRange_last compareStringObjects_bytes
               compareStringObjects_bytes_antisym compareStringObjects_bytes_trans
               (fst abc_list) (snd abc_list) [1%nat; 2%nat; 3%nat]
               (mk_range (of_Z 1) (of_Z 3) true false) R Hs Hn).
    vm_compute. reflexivity.
  - rewrite (zslLastInRange_last compareStringObjects_bytes
               compareStringObjects_bytes_antisym compareStringObjects_bytes_trans
               (fst abc_list) (snd abc_list) [1%nat; 2%nat; 3%nat]
               (mk_range (of_Z 2) (of_Z 3) false true) R Hs Hn).
    vm_compute. reflexivity.
Defined.

(** Removing the scores from 2 to 3, both included, leaves (1, "a"). *)
Lemma zslDeleteRangeByScore_removes_range_witness :
  exists h' z' d' ns',
    zslDeleteRangeByScore sum_hash bytes_eqb (fst abc_zset) (zsl (snd abc_zset))
      (mk_range (of_Z 2) (of_Z 3) false false) (dict (snd abc_zset))
    = inr (h', z', d', 2) /\
    zset_rep sum_hash bytes_eqb compareStringObjects_bytes h' (mk_zset d' z') ns' /\
    zsl_pairs h' z' = [(of_Z 1, [97])].
Proof.
  destruct abc_zset_rep as (ns & Hrep).
  destruct (zslDeleteRangeByScore_removes_range sum_hash bytes_eqb
              compareStringObjects_bytes bytes_eqb_eq compareStringObjects_bytes_antisym
              compareStringObjects_bytes_trans (fst abc_zset) (snd abc_zset) ns
              (mk_range (of_Z 2) (of_Z 3) false false) Hrep)
    as (h' & z' & d' & removed & ns' & Hrun & Hrep' & Hpairs & Hrem);
    [reflexivity|reflexivity|].
  rewrite abc_zset_pairs in Hpairs, Hrem.
  assert (E : List.filter (fun pr : spec_float * list Z =>
                 negb (in_range (mk_range (of_Z 2) (of_Z 3) false false) (fst pr)))
                [(of_Z 1, [97]); (of_Z 2, [98]); (of_Z 3, [99])]
              = [(of_Z 1, [97])]) by (vm_compute; reflexivity).
  rewrite E in Hpairs. rewrite Hpairs in Hrem. cbn [List.length] in Hrem.
  exists h', z', d', ns'. split; [|split; [exact Hrep'|exact Hpairs]].
  rewrite Hrun. subst removed. reflexivity.
Defined.

(** ZREMRANGEBYRANK -2 -1 removes the last two pairs; ZREMRANGEBYRANK 3 5
    removes nothing. *)
Lemma zremrangebyrank_removes_places_witness :
  (exists h' zs',
     zremrange_skiplist sum_hash bytes_eqb true compareStringObjects_bytes
       shared_minstring shared_maxstring (fun _ => false)
       (fst abc_zset) (snd abc_zset) (ZRANGE_RANK (-2) (-1)) = inr (h', zs', 2) /\
     zsl_pairs h' (zsl zs') = [(of_Z 1, [97])])
  /\ (exists h' zs',
        zremrange_skiplist sum_hash bytes_eqb true compareStringObjects_bytes
          shared_minstring shared_maxstring (fun _ => false)
          (fst abc_zset) (snd abc_zset) (ZRANGE_RANK 3 5) = inr (h', zs', 0) /\
        zsl_pairs h' (zsl zs') = [(of_Z 1, [97]); (of_Z 2, [98]); (of_Z 3, [99])]).
Proof.
  destruct abc_zset_rep as (ns & Hrep).
  split.
  - destruct (zremrangebyrank_removes_places sum_hash bytes_eqb true
                compareStringObjects_bytes shared_minstring shared_maxstring
                (fun _ => false) bytes_eqb_eq (fst abc_zset) (snd abc_zset) ns (-2) (-1) Hrep)
      as (h' & zs' & deleted & Hrun & _ & Hres).
    rewrite abc_zset_pairs in Hres. cbn in Hres. destruct Hres as [Hp ->].
    exists h', zs'. split; [exact Hrun|exact Hp].
  - destruct (zremrangebyrank_removes_places sum_hash bytes_eqb true
                compareStringObjects_bytes shared_minstring shared_maxstring
                (fun _ => false) bytes_eqb_eq (fst abc_zset) (snd abc_zset) ns 3 5 Hrep)
      as (h' & zs' & deleted & Hrun & _ & Hres).
    rewrite abc_zset_pairs in Hres. cbn in Hres. destruct Hres as [Hp ->].
    exists h', zs'. split; [exact Hrun|exact Hp].
Defined.

(** ZRANK of "b" is 1 and ZREVRANK of "a" is 2; "z" is no member. *)
Lemma zrank_is_place_witness :
  (exists zs', zrank_skiplist sum_hash bytes_eqb compareStringObjects_bytes false
                 (fst abc_zset) (snd abc_zset) [98] = inr (zs', Some 1))
  /\ (exists zs', zrank_skiplist sum_hash bytes_eqb compareStringObjects_bytes true
                    (fst abc_zset) (snd abc_zset) [97] = inr (zs', Some 2))
  /\ (exists zs', zrank_skiplist sum_hash bytes_eqb compareStringObjects_bytes false
                    (fst abc_zset) (snd abc_zset) [122] = inr (zs', None)).
Proof.
  destruct abc_zset_rep as (ns & Hrep).
  split; [|split].
  - destruct (zrank_is_place sum_hash bytes_eqb compareStringObjects_bytes bytes_eqb_eq
                compareStringObjects_bytes_antisym compareStringObjects_bytes_trans
                compareStringObjects_bytes_eq false (fst abc_zset) (snd abc_zset) ns [98] Hrep)
      as (zs' & reply & Hrun & _ & _ & Hin & _).
    rewrite abc_zset_pairs in Hin. rewrite (Hin 1%nat (of_Z 2) eq_refl) in Hrun.
    exists zs'. exact Hrun.
  - destruct (zrank_is_place sum_hash bytes_eqb compareStringObjects_bytes bytes_eqb_eq
                compareStringObjects_bytes_antisym compareStringObjects_bytes_trans
                compareStringObjects_bytes_eq true (fst abc_zset) (snd abc_zset) ns [97] Hrep)
      as (zs' & reply & Hrun & _ & _ & Hin & _).
    rewrite abc_zset_pairs in Hin. rewrite (Hin 0%nat (of_Z 1) eq_refl) in Hrun.
    exists zs'. exact Hrun.
  - destruct (zrank_is_place sum_hash bytes_eqb compareStringObjects_bytes bytes_eqb_eq
                compareStringObjects_bytes_antisym compareStringObjects_bytes_trans
                compareStringObjects_bytes_eq false (fst abc_zset) (snd abc_zset) ns [122] Hrep)
      as (zs' & reply & Hrun & _ & _ & _ & Hout).
    rewrite abc_zset_pairs in Hout. rewrite Hout in Hrun; [exists zs'; exact Hrun|].
    intros pr Hpr. apply list_elem_of_In in Hpr.
    cbn in Hpr. destruct Hpr as [<-|[<-|[<-|[]]]]; discriminate.
Defined.

(** Two scores lie between 2 and 3, both included; none between 5 and 9. *)
Lemma zcount_counts_range_witness :
  zcount_skiplist compareStringObjects_bytes (fst abc_zset) (snd abc_zset)
    (mk_range (of_Z 2) (of_Z 3) false false) = inr 2
  /\ zcount_skiplist compareStringObjects_bytes (fst abc_zset) (snd abc_zset)
       (mk_range (of_Z 5) (of_Z 9) false false) = inr 0.
Proof.
  destruct abc_zset_rep as (ns & Hrep).
  split.
  - rewrite (zcount_counts_range sum_hash bytes_eqb compareStringObjects_bytes bytes_eqb_eq
               compareStringObjects_bytes_antisym compareStringObjects_bytes_trans
               compareStringObjects_bytes_eq (fst abc_zset) (snd abc_zset) ns _ Hrep).
    rewrite abc_zset_pairs. vm_compute. reflexivity.
  - rewrite (zcount_counts_range sum_hash bytes_eqb compareStringObjects_bytes bytes_eqb_eq
               compareStringObjects_bytes_antisym compareStringObjects_bytes_trans
               compareStringObjects_bytes_eq (fst abc_zset) (snd abc_zset) ns _ Hrep).
    rewrite abc_zset_pairs. vm_compute. reflexivity.
Defined.

(** ZREVRANGE 0 1 gives "c" and "b"; ZRANGE -2 -1 WITHSCORES gives "b", 2,
    "c", 3. *)
Lemma zrange_returns_places_witness :
  zrange_skiplist true false (fst abc_zset) (snd abc_zset) 0 1
  = inr (2, [ReplyBulk [99]; ReplyBulk [98]])
  /\ zrange_skiplist false true (fst abc_zset) (snd abc_zset) (-2) (-1)
     = inr (4, [ReplyBulk [98]; ReplyDouble (of_Z 2); ReplyBulk [99]; ReplyDouble (of_Z 3)]).
Proof.
  destruct abc_zset_rep as (ns & Hrep).
  split.
  - rewrite (zrange_returns_places sum_hash bytes_eqb compareStringObjects_bytes
               true false (fst abc_zset) (snd abc_zset) ns 0 1 Hrep).
    rewrite abc_zset_pairs. vm_compute. reflexivity.
  - rewrite (zrange_returns_places sum_hash bytes_eqb compareStringObjects_bytes
               false true (fst abc_zset) (snd abc_zset) ns (-2) (-1) Hrep).
    rewrite abc_zset_pairs. vm_compute. reflexivity.
Defined.

End Zset.
